(* ===== verification/_CoqProject ===== *)
-Q . S2P
Prelude.v
Extents.v
Codec.v
File.v
Segment.v
Types.v
Store.v
Head.v
HeadProps.v
HeadTheorems.v
JournalFormat.v
Journal.v
Manifest.v
Plan.v
Restore.v
Hydrator.v
Device.v
DeviceProps.v
DeviceTheorems.v
Lazy.v
LazyProps.v
Mount.v
Lease.v
Publish.v
Volumes.v
History.v
LeaseProps.v
LeaseTheorems.v
Garbage.v
GarbageProps.v
GarbageTheorems.v
Syncer.v
SyncerProps.v
SyncerTheorems.v
Replication.v
Verify.v
Nbd.v
NbdProps.v
NbdTheorems.v
Options.v
Metrics.v
Driver.v
DriverProps.v
DriverTheorems.v
Registry.v
RegistryTheorems.v
DriverWitness.v
DriverMetrics.v
Seed.v
SeedTheorems.v
Heartbeat.v
Backend.v
S3.v
S3Theorems.v
Startup.v
Command.v
CommandTheorems.v
MountCommand.v
MountTheorems.v
Plugin.v
NbdDevice.v
Checkpoint.v
LeasePlan.v
LeaseStorage.v
Recovery.v
