(* ===== verification/Prelude.v ===== *)
(** * Satchel: a block-volume replicator

    Satchel serves a block volume from a local image and replicates it to an
    object store.  A node holds a lease on a volume, a device records what the
    guest writes, a local journal makes acknowledged flushes durable, and a
    worker publishes sealed generations of blocks as segments and manifests
    under the volume's head.  Another node restores the volume from the head,
    eagerly or lazily.

    ** The program and the files that model it

    - [Prelude.v]: Go errors, results and their monad, machine integers with
      wrap-around, bytes, [sort.Search], string prefixes, and the tactics and
      hint databases of the library.
    - [Extents.v] ([internal/replica/extents.go], part of [segment.go]): the
      extent algebra on 64-bit block numbers.
    - [Codec.v], [File.v]: SHA-256, gzip and [encoding/json] as classes with
      their documented laws (and small instances for the witnesses); local
      files with [pread], [pwrite], punching, truncation and syncs.
    - [Segment.v] ([segment.go], [Generation] of [device.go]): encoding,
      decoding and application of segments.
    - [Types.v], [Manifest.v], [Plan.v], [Restore.v] ([remote.go]): the JSON
      documents, their validation, the walks over manifest chains and bundles,
      restore plans and [RestoreState].
    - [Store.v] ([internal/objectstore/store.go], [memory.go]): the store
      interface as the classes [Store], [ObjectStore] (what every store
      promises) and [ConditionalStore] (what one with working preconditions
      promises), and the in-memory store as their instance.
    - [Head.v], [HeadProps.v], [HeadTheorems.v] ([head.go]): the conditional
      head, and the append-only head for stores without preconditions, with
      any interference of other nodes between two calls.
    - [JournalFormat.v], [Journal.v] ([journal.go]): the file format byte for
      byte, and the journal with its sync worker as a step relation with
      failing I/O and crashes.
    - [Device.v], [DeviceProps.v], [DeviceTheorems.v] ([device.go]): the block
      device, with block buffers as locations shared between the active set,
      sealed generations and the pool; [Hydrator.v] is the contract between a
      device and the lazy image below it.
    - [Lazy.v], [LazyProps.v], [Mount.v] ([lazy.go], start of a device in
      [plugin/driver.go]): the lazy image, that it discharges the contract, and
      a device mounted over it.
    - [Lease.v], [Publish.v], [Volumes.v] ([remote.go]): leases, publication and
      the operations on volumes, as functions on a [World]: the store, this
      node's lease, the clock, and for every call to the store an [event] (what
      others do before it, what this node's other goroutines do while the mutex
      is released, and whether the request or the answer is lost).
    - [History.v], [LeaseProps.v], [LeaseTheorems.v]: the abstract history of a
      volume ([volume_step]) and that leases refine it.
    - [Garbage.v], [GarbageProps.v], [GarbageTheorems.v] ([remote.go]): garbage
      collection.
    - [Syncer.v], [SyncerProps.v], [SyncerTheorems.v] ([syncer.go]): the
      replication worker as a state machine whose steps are critical sections,
      calls and channel operations; [Replication.v]: the worker over a lease,
      through the contract [PortLaws] that the lease discharges.
    - [Verify.v] ([verify.go]): the verification walk.
    - [Nbd.v], [NbdProps.v], [NbdTheorems.v] ([backend/block/nbd_linux.go]): the
      loop that serves the kernel's block requests and the workers that wait for
      durable flushes, over the interface [BlockDevice]; [NbdDevice.v]: the device
      of a volume discharges it.
    - [Options.v] ([plugin/options.go], [units/bytes.go]): volume options and byte
      sizes.
    - [Driver.v] ([plugin/driver.go]): the handlers of the Docker plugin as
      programs, trees of calls to the other components; [DriverProps.v]: the
      ledger of what a mount has open, the precondition of every call and
      weakest preconditions; [DriverTheorems.v]; [Registry.v],
      [RegistryTheorems.v]: the volumes the driver knows and the interleaving of
      requests; [DriverWitness.v]: executions against concrete environments.
    - [Metrics.v] ([metrics/metrics.go]): the metrics as updates and what they
      show; [DriverMetrics.v]: what the driver's calls make them show.
    - [Seed.v], [SeedTheorems.v] ([seed/seed.go]): copying a directory or an
      archive into a new volume, over a filesystem with symbolic links.
    - [Heartbeat.v] ([remote.go], [Heartbeat]): the timer that renews a lease.
    - [Backend.v] ([backend/block/*.go]): attaching a device to the kernel,
      detaching and unmounting it, with the descriptors that are open.
    - [Checkpoint.v]: what a plan says of the chain it stands for, for every way
      the code makes or changes one; [LeasePlan.v] ([lazy.go], [remote.go]): a
      lease keeps the plan of its volume, and its checkpoints are faithful.
    - [LeaseStorage.v] ([remote.go]): where the manifests and segments of a
      lease's history are in the store.
    - [S3.v], [S3Theorems.v] ([objectstore/s3.go]): the S3 store over the client
      of the SDK, the class [S3Client] with the laws [S3Laws] and
      [S3ConditionalLaws]; it discharges the interfaces of [Store.v].
    - [Startup.v] ([s3.go], [head.go]): the probes of a backend, head modes.
    - [Command.v], [CommandTheorems.v] ([cmd/satchel/vol.go]): the volume
      commands, over the world of [Lease.v] and a map of files.
    - [MountCommand.v], [MountTheorems.v] ([cmd/satchel/plugin.go], [mount.go]):
      building a driver and the mount command, a program of driver requests;
      [Plugin.v]: the plugin process, its shutdown interleaved with requests.
    - [Recovery.v]: the journal, the remote history and the device together, what
      is mounted after a crash.
    ** What the theorems show

    - Blocks and segments: the extent operations are the set operations on
      block numbers, without overflow on the sizes the code admits; a generation
      that is encoded and applied reproduces its blocks; malformed segments are
      rejected.
    - Device: while its local file has no I/O error, a device refines a disk of
      bytes; sealed generations, replayed over the image at the start, reproduce
      the device, whichever recycled buffers it gets; they are immutable; the
      count of dirty bytes is exact, and at most the larger of the limit and one
      write's own blocks.
    - Journal: while no rename waits for its directory sync, a flush that was
      acknowledged is found again after a crash that leaves any prefix of the
      unsynced bytes, and after any other crash unless the file is refused
      ([zeroed_tail_is_refused]); reading back what was written is exact, and
      what is read of a damaged file is well formed and stably repaired.
    - Restore: a plan takes every block from the newest manifest that mentions
      it; a restore writes the replay of the published generations; incremental
      plans agree with recomputed ones; the walks terminate on every store whose
      bundles form no cycle.
    - Lazy mounts serve the same bytes as an eager restore, whatever reads of the
      store fail in between.
    - Heads: claims exclude one another and fence earlier ones; an advance that
      returns success is the committed head.
    - Leases: whatever is lost or interleaved, the head only moves along the
      abstract history, and a publication that was acknowledged stays in it.
    - Garbage collection removes only objects outside the retained history that
      were named for the grace period by its clock, does not change what a restore
      of the head writes (when the bundles on the way to a retained manifest hold
      manifests of the restored chain, [bundles_held]), and does remove what is
      due when what to keep can be told.

    - Replication: as long as no generation is given up, generations are published
      in the order in which they were sealed, and a sync that returns without
      error has everything sealed up to it in the chain of the volume's head, in
      that order; no wake-up is lost and every request is answered
      once; merging generations does not change what a restore sees.
    - Recovery: what is mounted after a crash, the lazily restored volume with the
      recovered journal on top, is the volume as of some generation that is not
      older than any flushed one, when the remote holds only flushed or recovered
      generations.
    - Verification: a report without problems means that every segment of the
      retained history can be read with its size and digest.
    - Storage: the whole history of a lease's state can be read from the store;
      nothing is named before it is stored.
    - Checkpoints: through any life of a lease every checkpoint it writes says of
      every block what the chain of manifests below it says.
    - Serving: over the device of a volume the NBD server is a disk; every request is
      answered once; flushes are acknowledged in order.
    - Driving: on every path, error paths and removals included, what the driver
      opened is remembered or has been closed (but for the lease of a fenced
      mount), and its calls are in order (the lease is released after the unmount,
      an unmount removes the journal only when all is published); a granted mount
      is mounted; a fence holds until its users are gone or the volume is removed;
      mounted volumes stay registered;
      sizes and options are read exactly and in any order.
    - Around the volume: an archive changes nothing outside the volume it is
      unpacked into; a heartbeat whose renewals succeed keeps its lease; a
      failed attachment closes what it opened.
    - Outside: the S3 store is a map of objects; a driver is built exactly when
      its configuration and its backend are in order; the mount command ends
      well only when nothing is mounted, and so does the plugin process when no
      removal overlaps a mount and no mount is granted after the signal; the gauges show what is mounted and
      which leases are held; a restore to a file is all or nothing;
      breaking a lease breaks the one that was confirmed.

    Some theorems show behaviour that a reader may not expect; they are the
    ones that the manifest's findings name ([unsynced_rename_acknowledges],
    [failed_capture_seals_stale_block], [marked_twice_stays_dirty],
    [short_write_loses_unfetched_bytes], [claim_hides_committed_head],
    [lost_renewal_loses_lease], [recovered_generation_overwrites_newer],
    [sync_succeeds_after_drop], [verify_reports_truncated_history],
    [findBundlePath_fails_on_truncated_chain],
    [failed_close_grants_unmounted_volume], [late_fence_drops_new_lease],
    [remove_orphans_mount], [remove_discards_fenced_data],
    [removed_mount_survives_shutdown], [archive_changes_owner_outside],
    [failed_conn_closes_twice], [detach_error_is_permanent],
    [slow_claim_fails], [late_mount_survives_shutdown],
    [mount_failures_miscounted]).

    ** Bounds and fuel

    Loops that are not structural take fuel: [sort_Search] has the length of its
    range plus one; the chain walks have [maxChain + 2], which the code's own
    bound keeps from being used up, and walks along bundle chains the last
    generation of the head's bundle plus one ([chain_walks_terminate]); batches of garbage records
    have the number of candidates.  The constructors [Panic] and [OutOfFuel] of
    [error] mark a Go panic and an exhausted bound, and are proved not to occur
    where a theorem says that an operation succeeds.

    ** Not modelled

    Third-party code and the services behind it are parameters: SHA-256, gzip,
    JSON, the client of the AWS SDK, and object stores, which are classes with
    laws.  The pages of a listing are read from one state of the service.  Not
    modelled: the commands that make and mount a filesystem (their outcomes are
    parameters), the Prometheus client and its HTTP handler, logging, the
    parsing of flags and times, and the fault-injection proxy.
    Failures of the local image file are modelled ([File.v]) and show in the
    findings, but the theorems about the device, the lazy image and the server
    are about files without them.
*)
From stdpp Require Export base tactics numbers list strings gmap sorting.
From Stdlib Require Export Lia ZArith.
From Stdlib Require Export Strings.Byte.

#[global] Open Scope Z_scope.

(** ** Errors

    A Go [error] is [nil] or a value.  The sentinels that the code compares
    with [errors.Is] are constructors of their own; every other error is
    [Errorf msg], with the format string as its message, and [Wrap msg e] is
    [fmt.Errorf("msg: %w", e)]; [Joined] is what [errors.Join] makes of two
    errors. *)
Inductive error : Type :=
  | ErrNotFound
  | ErrPreconditionFailed
  | ErrLeaseLost
  | ErrJournalConflict
  | ErrLocalJournal
  | ErrDeviceClosed
  | ErrClaimTooSlow
  | ErrHeld (holder : string) (expiresAt : Z)
  | ErrEOF
  | ErrUnexpectedEOF
  | ErrShortWrite
  | ErrIO
  | ErrNotExist
  | ErrClosed
  | ErrCanceled
  | Panic  (* a run-time panic of the Go code; proved unreachable *)
  | OutOfFuel  (* a bounded loop of the model ran out of steps; proved unreachable *)
  | Errorf (msg : string)
  | Wrap (msg : string) (inner : error)
  | Joined (first second : error).

#[export] Instance error_eq_dec : EqDecision error.
Proof. solve_decision. Defined.

(** [errors.Is(err, target)] *)
Fixpoint errors_Is (err target : error) : bool :=
  bool_decide (err = target) ||
  match err with
  | Wrap _ inner => errors_Is inner target
  | Joined a b => errors_Is a target || errors_Is b target
  | _ => false
  end.

(** [errors.Join(a, b)]; nil errors are dropped. *)
Definition errors_Join (a b : option error) : option error :=
  match a, b with
  | Some x, Some y => Some (Joined x y)
  | Some x, None => Some x
  | None, y => y
  end.

(** A call that returns [(value, error)]. *)
Inductive result (A : Type) : Type :=
  | Ok (a : A)
  | Err (e : error).
Arguments Ok {A} a.
Arguments Err {A} e.

#[export] Instance result_mret : MRet result := fun A a => Ok a.
#[export] Instance result_mbind : MBind result :=
  fun A B f r => match r with Ok a => f a | Err e => Err e end.
#[export] Instance result_fmap : FMap result :=
  fun A B f r => match r with Ok a => Ok (f a) | Err e => Err e end.

(** [if cond { return err }] before the rest of a function. *)
Definition fail_if (c : bool) (e : error) : result unit :=
  if c then Err e else Ok tt.

(** [fmt.Errorf("...: %w", err)] on the error path only. *)
Definition wrap_err {A} (msg : string) (r : result A) : result A :=
  match r with Ok a => Ok a | Err e => Err (Wrap msg e) end.

Definition is_ok {A} (r : result A) : bool :=
  match r with Ok _ => true | Err _ => false end.

(** ** Machine integers

    [uint64] and [uint32] values are [Z] in their range; arithmetic that can
    wrap is written with [u64] or [u32], and [i64] wraps to [int64]. *)
Definition u64 (z : Z) : Z := z `mod` 2 ^ 64.
Definition u32 (z : Z) : Z := z `mod` 2 ^ 32.
Definition i64 (z : Z) : Z := (z + 2 ^ 63) `mod` 2 ^ 64 - 2 ^ 63.
Definition MaxUint64 : Z := 2 ^ 64 - 1.
Definition MaxUint32 : Z := 2 ^ 32 - 1.
Definition MaxInt64 : Z := 2 ^ 63 - 1.

Definition is_u64 (z : Z) : Prop := 0 ≤ z < 2 ^ 64.
Definition is_i64 (z : Z) : Prop := - 2 ^ 63 ≤ z < 2 ^ 63.

(** ** Bytes and big-endian integers ([encoding/binary]) *)
Abbreviation byte := Byte.byte.
Abbreviation bytes := (list Byte.byte).

#[export] Instance byte_eq_dec : EqDecision byte := Byte.byte_eq_dec.

Definition byte_to_Z (b : byte) : Z := Z.of_N (Byte.to_N b).
Definition byte_of_Z (z : Z) : byte :=
  default x00 (Byte.of_N (Z.to_N (z `mod` 256))).

(** [binary.BigEndian.PutUint(8n)]: the low [n] bytes, most significant first. *)
Fixpoint be_encode (n : nat) (z : Z) : bytes :=
  match n with
  | O => []
  | S k => be_encode k (z / 256) ++ [byte_of_Z z]
  end.

(** [binary.BigEndian.Uint(8n)] *)
Definition be_decode (bs : bytes) : Z :=
  foldl (fun acc b => acc * 256 + byte_to_Z b) 0 bs.

(** [bytes.Equal] *)
Definition bytes_Equal (a b : bytes) : bool := bool_decide (a = b).

(** The bytes of an ASCII string constant such as a file magic. *)
Definition string_bytes (s : string) : bytes := String.list_byte_of_string s.

(** ** [sort.Search]: Go's binary search for the least index with [f] true. *)
Fixpoint search_loop (fuel : nat) (f : nat → bool) (i j : nat) : nat :=
  match fuel with
  | O => i
  | S k =>
      if (i <? j)%nat then
        let h := Nat.div (i + j) 2 in
        if f h then search_loop k f i h else search_loop k f (S h) j
      else i
  end.

Definition sort_Search (n : nat) (f : nat → bool) : nat :=
  search_loop (S n) f 0 n.

(** ** Strings ([strings.HasPrefix], [strings.HasSuffix]) *)
Fixpoint HasPrefix (s prefix : string) : bool :=
  match prefix, s with
  | EmptyString, _ => true
  | String a p, String b t => Ascii.eqb a b && HasPrefix t p
  | String _ _, EmptyString => false
  end.

Definition HasSuffix (s suffix : string) : bool :=
  HasPrefix (String.rev s) (String.rev suffix).

(** ** Automation *)

Create HintDb satchel.
Create Rewrite HintDb satchel.

(** Boolean tests of the code to propositions that [lia] reads. *)
Ltac zbool :=
  repeat match goal with
  | H : (_ <? _) = true |- _ => apply Z.ltb_lt in H
  | H : (_ <? _) = false |- _ => apply Z.ltb_ge in H
  | H : (_ <=? _) = true |- _ => apply Z.leb_le in H
  | H : (_ <=? _) = false |- _ => apply Z.leb_gt in H
  | H : (_ =? _) = true |- _ => apply Z.eqb_eq in H
  | H : (_ =? _) = false |- _ => apply Z.eqb_neq in H
  | H : (_ || _) = false |- _ => apply orb_false_iff in H as [? ?]
  | H : (_ && _) = true |- _ => apply andb_true_iff in H as [? ?]
  | H : negb _ = true |- _ => apply negb_true_iff in H
  | H : negb _ = false |- _ => apply negb_false_iff in H
  end.

(** Case analysis on the outermost boolean test of the goal. *)
Ltac case_if :=
  match goal with
  | |- context [if ?b then _ else _] => destruct b eqn:?; zbool
  end.
Ltac case_if_in H :=
  match type of H with
  | context [if ?b then _ else _] => destruct b eqn:?; zbool
  end.

(** Case analysis on the next guard of a monadic chain; the error case must be
    immediate. *)
Ltac case_fail :=
  match goal with
  | |- context [fail_if ?b _] => destruct b eqn:?; cbn [fail_if mbind result_mbind]; [done|zbool]
  end.

(** A closed decidable goal, by evaluation. *)
Ltac concrete := vm_compute; intuition congruence.

(** Inversion of a monadic chain that returned [Ok]. *)
Lemma result_bind_Ok {A B} (r : result A) (f : A → result B) (b : B) :
  (r ≫= f) = Ok b ↔ ∃ a, r = Ok a ∧ f a = Ok b.
Proof. destruct r; naive_solver. Qed.

Lemma fail_if_Ok c e u : fail_if c e = Ok u ↔ c = false.
Proof. destruct c, u; naive_solver. Qed.

Lemma wrap_err_Ok {A} msg (r : result A) a : wrap_err msg r = Ok a ↔ r = Ok a.
Proof. destruct r; naive_solver. Qed.

Ltac result_inv :=
  repeat match goal with
  | H : (_ ≫= _) = Ok _ |- _ => apply result_bind_Ok in H as (? & ? & ?)
  | H : fail_if _ _ = Ok _ |- _ => apply fail_if_Ok in H
  | H : wrap_err _ _ = Ok _ |- _ => apply wrap_err_Ok in H
  | H : Ok _ = Ok _ |- _ => injection H as H; subst
  | H : Err _ = Ok _ |- _ => discriminate H
  | H : Ok _ = Err _ |- _ => discriminate H
  end.

(** ** Lists *)

Lemma elem_of_concat {A} (x : A) (ls : list (list A)) : x ∈ concat ls ↔ ∃ l, x ∈ l ∧ l ∈ ls.
Proof.
  induction ls as [|l ls IH]; cbn [concat].
  - rewrite elem_of_nil. split; [done|]. by intros (l & _ & ?%elem_of_nil).
  - rewrite elem_of_app, IH. setoid_rewrite elem_of_cons. naive_solver.
Qed.

Lemma sum_app (xs ys : list Z) : foldr Z.add 0 (xs ++ ys) = foldr Z.add 0 xs + foldr Z.add 0 ys.
Proof. induction xs as [|x xs IH]; cbn [app foldr]; lia. Qed.

#[export] Instance sum_Permutation : Proper ((≡ₚ) ==> (=)) (foldr Z.add 0).
Proof. induction 1; cbn [foldr]; lia. Qed.

Lemma sum_nonneg (xs : list Z) : Forall (fun x => 0 ≤ x) xs → 0 ≤ foldr Z.add 0 xs.
Proof. induction 1; cbn [foldr]; lia. Qed.

Lemma take_drop_perm {A} (l : list A) i x : l !! i = Some x → l ≡ₚ x :: (take i l ++ drop (S i) l).
Proof. intros Hx. rewrite <-(take_drop_middle l i x Hx) at 1. by rewrite Permutation_middle. Qed.

(** ** Prefixes *)

Lemma HasPrefix_both p a b : HasPrefix (p +:+ a) (p +:+ b) = HasPrefix a b.
Proof. induction p as [|c p IH]; [done|]. change (Ascii.eqb c c && HasPrefix (p +:+ a) (p +:+ b) = HasPrefix a b). by rewrite Ascii.eqb_refl. Qed.

Lemma HasPrefix_app p t : HasPrefix (p +:+ t) p = true.
Proof. induction p as [|c p IH]; [by destruct t|]. change (Ascii.eqb c c && HasPrefix (p +:+ t) p = true). by rewrite Ascii.eqb_refl. Qed.

Lemma HasPrefix_trans x p q : HasPrefix x (p +:+ q) = true → HasPrefix x p = true.
Proof.
  revert x. induction p as [|c p IH]; intros [|a x]; try done. change (Ascii.eqb c a && HasPrefix x (p +:+ q) = true → Ascii.eqb c a && HasPrefix x p = true).
  intros [Ha Hp]%andb_true_iff. rewrite Ha. by apply IH.
Qed.

(** Two prefixes of one string are prefixes of one another. *)
Lemma HasPrefix_comparable x p q : HasPrefix x p = true → HasPrefix x q = true → HasPrefix p q = true ∨ HasPrefix q p = true.
Proof.
  revert p q. induction x as [|c x IH]; intros [|a p] [|b q]; cbn [HasPrefix]; try tauto; try done.
  intros [Ha Hp]%andb_true_iff [Hb Hq]%andb_true_iff. apply Ascii.eqb_eq in Ha as <-, Hb as <-. rewrite Ascii.eqb_refl. by apply IH.
Qed.

(** ** Machine integer lemmas *)

Lemma u64_range z : 0 ≤ u64 z < 2 ^ 64.
Proof. unfold u64. apply Z.mod_pos_bound. lia. Qed.

Lemma u64_small z : 0 ≤ z < 2 ^ 64 → u64 z = z.
Proof. unfold u64. intros. by apply Z.mod_small. Qed.

(** One wrap-around, for sums and differences of two in-range values. *)
Lemma u64_wrap_sub z : 2 ^ 64 ≤ z < 2 * 2 ^ 64 → u64 z = z - 2 ^ 64.
Proof.
  intros. unfold u64. symmetry. apply (Z.mod_unique _ _ 1); lia.
Qed.

Lemma u64_wrap_add z : - 2 ^ 64 ≤ z < 0 → u64 z = z + 2 ^ 64.
Proof.
  intros. unfold u64. symmetry. apply (Z.mod_unique _ _ (-1)); lia.
Qed.

Lemma i64_small z : is_i64 z → i64 z = z.
Proof. unfold i64, is_i64. intros. rewrite Z.mod_small; lia. Qed.

#[export] Hint Rewrite u64_small using lia : satchel.

(** ** Byte lemmas *)

Lemma byte_to_Z_range b : 0 ≤ byte_to_Z b < 256.
Proof. destruct b; vm_compute; split; congruence. Qed.

Lemma byte_of_to_Z b : byte_of_Z (byte_to_Z b) = b.
Proof. by destruct b. Qed.

Lemma byte_to_of_Z z : byte_to_Z (byte_of_Z z) = z `mod` 256.
Proof.
  unfold byte_to_Z, byte_of_Z.
  pose proof (Z.mod_pos_bound z 256 ltac:(lia)) as Hb.
  destruct (Byte.of_N (Z.to_N (z `mod` 256))) as [b|] eqn:E; simpl.
  - apply Byte.to_of_N in E. rewrite E. lia.
  - apply Byte.of_N_None_iff in E. lia.
Qed.

Lemma be_encode_length n z : length (be_encode n z) = n.
Proof.
  revert z. induction n as [|n IH]; intros z; simpl; [done|].
  rewrite length_app, IH. simpl. lia.
Qed.

Lemma be_decode_snoc bs b : be_decode (bs ++ [b]) = be_decode bs * 256 + byte_to_Z b.
Proof. unfold be_decode. by rewrite foldl_app. Qed.

Lemma be_decode_encode n z : be_decode (be_encode n z) = z `mod` 256 ^ Z.of_nat n.
Proof.
  revert z. induction n as [|n IH]; intros z; [simpl; by rewrite Z.mod_1_r|].
  cbn [be_encode]. rewrite be_decode_snoc, IH, byte_to_of_Z.
  rewrite Nat2Z.inj_succ, Z.pow_succ_r by lia.
  rewrite Z.rem_mul_r by lia. lia.
Qed.

Lemma be_decode_encode_small n z :
  0 ≤ z < 256 ^ Z.of_nat n → be_decode (be_encode n z) = z.
Proof. intros. rewrite be_decode_encode. by apply Z.mod_small. Qed.

Lemma be_decode_range bs : 0 ≤ be_decode bs < 256 ^ Z.of_nat (length bs).
Proof.
  induction bs as [|b bs IH] using rev_ind; [by vm_compute|].
  rewrite be_decode_snoc, length_app, Nat2Z.inj_add, Z.pow_add_r by lia.
  pose proof (byte_to_Z_range b). simpl (256 ^ Z.of_nat (length [b])).
  change (256 ^ Z.of_nat (length [b])) with 256. lia.
Qed.

Lemma bytes_Equal_eq a b : bytes_Equal a b = true ↔ a = b.
Proof. apply bool_decide_eq_true. Qed.

Lemma bytes_Equal_refl a : bytes_Equal a a = true.
Proof. by apply bytes_Equal_eq. Qed.

(** ** [sort.Search] finds the first true index of a monotone predicate *)

Section search.
Context (f : nat → bool).
Context (f_mono : ∀ i j, (i ≤ j)%nat → f i = true → f j = true).

Lemma search_loop_spec fuel i j :
  (i ≤ j)%nat → (j - i < fuel)%nat →
  (∀ k, (k < i)%nat → f k = false) →
  (i ≤ search_loop fuel f i j ≤ j)%nat ∧
  (∀ k, (k < search_loop fuel f i j)%nat → f k = false) ∧
  ((search_loop fuel f i j < j)%nat → f (search_loop fuel f i j) = true).
Proof.
  revert i j. induction fuel as [|fuel IH]; intros i j Hij Hf Hlow; [lia|].
  cbn [search_loop].
  destruct (Nat.ltb_spec i j) as [Hlt|Hge].
  - assert (i ≤ Nat.div (i + j) 2 < j)%nat as [Hh1 Hh2].
    { split; [apply Nat.div_le_lower_bound|apply Nat.Div0.div_lt_upper_bound]; lia. }
    set (h := Nat.div (i + j) 2) in *.
    destruct (f h) eqn:Eh.
    + destruct (IH i h) as (Hr & Hb & Ht); [lia|lia|done|].
      split; [lia|]. split; [done|]. intros Hlt'.
      destruct (decide (search_loop fuel f i h < h)%nat); [by apply Ht|].
      by replace (search_loop fuel f i h) with h by lia.
    + destruct (IH (S h) j) as (Hr & Hb & Ht); [lia|lia| |].
      { intros k Hk. destruct (f k) eqn:Ek; [|done].
        rewrite (f_mono k h) in Eh; [done|lia|done]. }
      split; [lia|]. auto.
  - split; [lia|]. split; [done|lia].
Qed.

Lemma sort_Search_spec n :
  (sort_Search n f ≤ n)%nat ∧
  (∀ k, (k < sort_Search n f)%nat → f k = false) ∧
  ((sort_Search n f < n)%nat → f (sort_Search n f) = true).
Proof.
  destruct (search_loop_spec (S n) 0 n) as (? & ? & ?); [lia|lia|lia|].
  unfold sort_Search. split; [lia|]. auto.
Qed.
End search.

Lemma search_loop_ext fuel f g n i j :
  (∀ k, (k < n)%nat → f k = g k) → (j ≤ n)%nat → search_loop fuel f i j = search_loop fuel g i j.
Proof.
  intros Heq. revert i j. induction fuel as [|fuel IH]; intros i j Hj; [done|]. cbn [search_loop].
  destruct (Nat.ltb_spec i j) as [Hlt|Hge]; [|done].
  assert (Nat.div (i + j) 2 < j)%nat by (apply Nat.Div0.div_lt_upper_bound; lia).
  rewrite Heq by lia. destruct (g _); apply IH; lia.
Qed.

(** The predicate only has to be monotone on the indexes searched. *)
Lemma sort_Search_bounded f n :
  (∀ i j, (i ≤ j < n)%nat → f i = true → f j = true) →
  (sort_Search n f ≤ n)%nat ∧ (∀ k, (k < sort_Search n f)%nat → f k = false).
Proof.
  intros Hmono. set (g := fun i => f i || (n <=? i)%nat).
  assert (sort_Search n f = sort_Search n g) as ->.
  { unfold sort_Search. apply (search_loop_ext _ _ _ n); [|lia]. intros k Hk. unfold g.
    by rewrite (proj2 (Nat.leb_gt _ _)), orb_false_r by done. }
  destruct (sort_Search_spec g) with (n := n) as (Hle & Hlow & _).
  { intros i j Hij. unfold g. rewrite !orb_true_iff, !Nat.leb_le. intros [Hi|?]; [|right; lia].
    destruct (decide (n ≤ j)%nat); [by right|left]. apply (Hmono i j); [lia|done]. }
  split; [done|]. intros k Hk. specialize (Hlow k Hk). unfold g in Hlow. by apply orb_false_iff in Hlow as [? _].
Qed.
