(* ===== verification/Extents.v ===== *)
(** * Block extents ([internal/replica/extents.go], part of [segment.go])

    An extent is a run of 4 KiB blocks.  The file models the set algebra the
    replicator runs on lists of extents, with [uint64] wrap-around in
    [Extent.end()], and proves each routine against the set of block numbers
    the list stands for ([covers]). *)
From S2P Require Import Prelude.
Local Open Scope Z_scope.

Definition DefaultBlockSize : Z := 4096.

Record Extent : Type := mkExtent { Start : Z; Blocks : Z }.

#[export] Instance Extent_eq_dec : EqDecision Extent.
Proof. solve_decision. Defined.

(** [func (e Extent) end() uint64] *)
Definition extent_end (e : Extent) : Z := u64 (Start e + Blocks e).

(** [validateExtents]: the loop carries [total], [previousEnd] and whether
    this is the first extent ([i > 0] fails). *)
Fixpoint validateExtents_loop (first : bool) (previousEnd total maxBlocks : Z)
    (extents : list Extent) : result Z :=
  match extents with
  | [] => Ok total
  | extent :: rest =>
      let e := extent_end extent in
      if (Blocks extent =? 0) || (e <? Start extent) || (maxBlocks <? e) then
        Err (Errorf "invalid block extent at index %d")
      else if negb first && (Start extent <? previousEnd) then
        Err (Errorf "block extents overlap or are not sorted")
      else if u64 (MaxUint64 - Blocks extent) <? total then
        Err (Errorf "block extent count overflows")
      else validateExtents_loop false e (u64 (total + Blocks extent)) maxBlocks rest
  end.

Definition validateExtents (extents : list Extent) (maxBlocks : Z) : result Z :=
  validateExtents_loop true 0 0 maxBlocks extents.

(** [extentsContain]: [cover_candidate] is the [for cursor < candidate.end()]
    loop; [outer] is the slice from [outerIndex] on.  When the cursor stops
    short of the candidate's end it stands at the end of the current outer
    extent, which the next pass skips. *)
Fixpoint cover_candidate (outer : list Extent) (cursor cend : Z) : option (list Extent) :=
  if negb (cursor <? cend) then Some outer else
  match outer with
  | [] => None
  | o :: rest =>
      if extent_end o <=? cursor then cover_candidate rest cursor cend
      else if cursor <? Start o then None
      else
        let cursor' := Z.min cend (extent_end o) in
        if cursor' <? cend then cover_candidate rest cursor' cend else Some outer
  end.

Fixpoint extentsContain (outer inner : list Extent) : bool :=
  match inner with
  | [] => true
  | candidate :: rest =>
      match cover_candidate outer (Start candidate) (extent_end candidate) with
      | Some outer' => extentsContain outer' rest
      | None => false
      end
  end.

(** [for removedIndex < len(removed) && removed[removedIndex].end() <= cursor] *)
Fixpoint skip_ended (removed : list Extent) (cursor : Z) : list Extent :=
  match removed with
  | [] => []
  | r :: rest => if extent_end r <=? cursor then skip_ended rest cursor else removed
  end.

(** The inner loop of [subtractExtents]: the pieces appended to [result] and
    the final cursor. *)
Fixpoint subtract_removed (removed : list Extent) (cursor e : Z) : list Extent * Z :=
  match removed with
  | [] => ([], cursor)
  | r :: rest =>
      if negb (Start r <? e) then ([], cursor) else
      let piece :=
        if cursor <? Start r
        then [mkExtent cursor (u64 (Z.min e (Start r) - cursor))] else [] in
      let cursor' := if cursor <? extent_end r then extent_end r else cursor in
      if e <=? cursor' then (piece, cursor')
      else
        let '(pieces, c) := subtract_removed rest cursor' e in
        (piece ++ pieces, c)
  end.

Fixpoint subtract_loop (extents removed : list Extent) : list Extent :=
  match extents with
  | [] => []
  | extent :: rest =>
      let cursor := Start extent in
      let e := extent_end extent in
      let removed' := skip_ended removed cursor in
      let '(pieces, c) := subtract_removed removed' cursor e in
      pieces ++ (if c <? e then [mkExtent c (u64 (e - c))] else [])
        ++ subtract_loop rest removed'
  end.

Definition subtractExtents (extents removed : list Extent) : list Extent :=
  match extents, removed with
  | [], _ => []
  | _, [] => extents
  | first :: _, _ =>
      let removedIndex :=
        sort_Search (length removed) (fun i =>
          match removed !! i with
          | Some r => Start first <? extent_end r
          | None => false
          end) in
      subtract_loop extents (drop removedIndex removed)
  end.

(** [appendExtent] of [unionExtents], and the body of the compaction loop of
    [normalizeExtents]; [acc] is the result so far, last element first. *)
Definition appendExtent (acc : list Extent) (extent : Extent) : list Extent :=
  if Blocks extent =? 0 then acc else
  match acc with
  | [] => [extent]
  | l :: rest =>
      if extent_end l <? Start extent then extent :: acc
      else if extent_end l <? extent_end extent
      then mkExtent (Start l) (u64 (extent_end extent - Start l)) :: rest
      else acc
  end.

(** The comparison of [sort.Slice] in [normalizeExtents]: by start, then by
    length.  It is a total order on extents, so the sorted slice is unique. *)
Definition extent_le (a b : Extent) : Prop :=
  Start a < Start b ∨ (Start a = Start b ∧ Blocks a ≤ Blocks b).

#[export] Instance extent_le_dec a b : Decision (extent_le a b).
Proof. unfold extent_le. apply _. Defined.

Definition normalizeExtents (extents : list Extent) : list Extent :=
  reverse (foldl appendExtent [] (merge_sort extent_le extents)).

(** The merge order of [unionExtents]: left first on equal starts. *)
Definition start_le (a b : Extent) : Prop := Start a ≤ Start b.

#[export] Instance start_le_dec a b : Decision (start_le a b).
Proof. unfold start_le. apply _. Defined.

Definition unionExtents (left right : list Extent) : list Extent :=
  reverse (foldl appendExtent [] (list_merge start_le left (normalizeExtents right))).

Definition byteRangeExtents (off length size : Z) : list Extent :=
  if (length <=? 0) || (off <? 0) || (size <=? off) then [] else
  let length := if size - off <? length then size - off else length in
  let start := off `quot` DefaultBlockSize in
  let e := (off + length - 1) `quot` DefaultBlockSize + 1 in
  [mkExtent start (u64 (e - start))].

(** [intersectExtent] (segment.go) *)
Fixpoint intersectExtent (target : Extent) (extents : list Extent) : list Extent :=
  match extents with
  | [] => []
  | extent :: rest =>
      if extent_end extent <=? Start target then intersectExtent target rest
      else if extent_end target <=? Start extent then []
      else
        let start := Z.max (Start target) (Start extent) in
        let e := Z.min (extent_end target) (extent_end extent) in
        if start <? e
        then mkExtent start (u64 (e - start)) :: intersectExtent target rest
        else intersectExtent target rest
  end.

(** [blocksToExtents] (segment.go); [acc] is the result, last element first. *)
Fixpoint blocksToExtents_loop (acc : list Extent) (blocks : list Z) : list Extent :=
  match blocks with
  | [] => reverse acc
  | block :: rest =>
      match acc with
      | l :: acc' =>
          if extent_end l =? block
          then blocksToExtents_loop (mkExtent (Start l) (u64 (Blocks l + 1)) :: acc') rest
          else blocksToExtents_loop (mkExtent block 1 :: acc) rest
      | [] => blocksToExtents_loop [mkExtent block 1] rest
      end
  end.

Definition blocksToExtents (blocks : list Z) : list Extent := blocksToExtents_loop [] blocks.

(** ** Specification vocabulary *)

Definition in_extent (e : Extent) (b : Z) : Prop := Start e ≤ b < Start e + Blocks e.

(** The set of blocks a list of extents stands for. *)
Definition covers (es : list Extent) (b : Z) : Prop := Exists (fun e => in_extent e b) es.

(** Sorted, non-empty, pairwise disjoint extents within [lo, hi). *)
Fixpoint wf_from (lo hi : Z) (es : list Extent) : Prop :=
  match es with
  | [] => True
  | e :: rest =>
      lo ≤ Start e ∧ 0 < Blocks e ∧ Start e + Blocks e ≤ hi ∧
      wf_from (Start e + Blocks e) hi rest
  end.

Definition wf_extents (hi : Z) (es : list Extent) : Prop := wf_from 0 hi es.

(** Normal form: in addition, adjacent extents leave a gap. *)
Fixpoint normal_from (lo hi : Z) (es : list Extent) : Prop :=
  match es with
  | [] => True
  | e :: rest =>
      lo < Start e ∧ 0 < Blocks e ∧ Start e + Blocks e ≤ hi ∧
      normal_from (Start e + Blocks e) hi rest
  end.

Definition normal_extents (hi : Z) (es : list Extent) : Prop := normal_from (-1) hi es.

(** Number of blocks. *)
Definition block_count (es : list Extent) : Z := foldr (fun e n => Blocks e + n) 0 es.

(** The range of the two Go fields. *)
Definition extent_u64 (e : Extent) : Prop := is_u64 (Start e) ∧ is_u64 (Blocks e).

(** In range and not past [hi]: what [validateExtents] accepts of one extent,
    except that it may be empty. *)
Definition extent_in (hi : Z) (e : Extent) : Prop :=
  0 ≤ Start e ∧ 0 ≤ Blocks e ∧ Start e + Blocks e ≤ hi.

(** The block counts below which no [uint64] sum of the file wraps; every
    volume has fewer ([maxImageBlocks]). *)
Definition block_bound (hi : Z) : Prop := 0 ≤ hi < 2 ^ 64.

(** ** Basic facts *)

Lemma covers_nil b : covers [] b ↔ False.
Proof. unfold covers. split; [apply Exists_nil|done]. Qed.

Lemma covers_cons e es b : covers (e :: es) b ↔ in_extent e b ∨ covers es b.
Proof. apply Exists_cons. Qed.

Lemma covers_app es1 es2 b : covers (es1 ++ es2) b ↔ covers es1 b ∨ covers es2 b.
Proof. apply Exists_app. Qed.

#[export] Hint Rewrite covers_nil covers_cons covers_app : satchel.

Lemma covers_Permutation es1 es2 b : es1 ≡ₚ es2 → covers es1 b ↔ covers es2 b.
Proof. intros H. unfold covers. by rewrite H. Qed.

Lemma extent_end_small hi e : block_bound hi → extent_in hi e → extent_end e = Start e + Blocks e.
Proof. unfold block_bound, extent_in, extent_end. intros. apply u64_small. lia. Qed.

Lemma wf_from_weaken lo lo' hi es : lo' ≤ lo → wf_from lo hi es → wf_from lo' hi es.
Proof. destruct es; simpl; [done|]. intros. intuition lia. Qed.

Lemma wf_from_hi lo hi hi' es : hi ≤ hi' → wf_from lo hi es → wf_from lo hi' es.
Proof.
  revert lo. induction es as [|e es IH]; intros lo ?; simpl; [done|].
  intros (?&?&?&?). split_and!; [lia..|]. eauto.
Qed.

Lemma wf_from_covers lo hi es b : wf_from lo hi es → covers es b → lo ≤ b < hi.
Proof.
  revert lo. induction es as [|e es IH]; intros lo; simpl; autorewrite with satchel; [done|].
  intros (?&?&?&Hwf) [Hin|Hc]; [unfold in_extent in Hin; lia|].
  specialize (IH _ Hwf Hc). lia.
Qed.

Lemma wf_from_app lo hi es1 es2 :
  wf_from lo hi (es1 ++ es2) → wf_from lo hi es2.
Proof.
  revert lo. induction es1 as [|e es1 IH]; intros lo; simpl; [done|].
  intros (?&?&?&Hwf). eapply wf_from_weaken; [|by apply IH]. lia.
Qed.

Lemma wf_from_extent_in lo hi es e :
  0 ≤ lo → wf_from lo hi es → e ∈ es → extent_in hi e ∧ 0 < Blocks e.
Proof.
  revert lo. induction es as [|e' es IH]; intros lo Hlo; simpl; [by rewrite elem_of_nil|].
  intros (?&?&?&Hwf). rewrite elem_of_cons. intros [->|Hin].
  - unfold extent_in. lia.
  - eapply (IH (Start e' + Blocks e')); [lia|done..].
Qed.

Lemma normal_wf lo hi es : normal_from lo hi es → wf_from lo hi es.
Proof.
  revert lo. induction es as [|e es IH]; intros lo; simpl; [done|].
  intros (?&?&?&?). split_and!; [lia..|auto].
Qed.

Lemma normal_extents_wf hi es : normal_extents hi es → wf_extents hi es.
Proof.
  unfold normal_extents, wf_extents. destruct es as [|e es]; simpl; [done|].
  intros (?&?&?&?). split_and!; [lia..|by apply normal_wf].
Qed.

Lemma normal_from_weaken lo lo' hi es : lo' ≤ lo → normal_from lo hi es → normal_from lo' hi es.
Proof. destruct es; simpl; [done|]. intros. intuition lia. Qed.

(** The destructuring every proof by induction on a well-formed list starts
    with: ends do not wrap. *)
Lemma wf_cons_end lo hi e es :
  block_bound hi → 0 ≤ lo → wf_from lo hi (e :: es) →
  lo ≤ Start e ∧ 0 < Blocks e ∧ Start e + Blocks e ≤ hi ∧
  extent_end e = Start e + Blocks e ∧ wf_from (Start e + Blocks e) hi es.
Proof.
  simpl. intros Hhi ? (?&?&?&?). split_and!; [done..| |done].
  apply (extent_end_small hi); [done|]. unfold extent_in. lia.
Qed.

Ltac wf_cons H :=
  let H1 := fresh "Hlo" in let H2 := fresh "Hpos" in let H3 := fresh "Hhi" in
  let H4 := fresh "Hend" in let H5 := fresh "Hwf" in
  apply wf_cons_end in H as (H1 & H2 & H3 & H4 & H5); [|assumption|lia].

(** ** [validateExtents] *)

Lemma block_count_bound lo hi es : 0 ≤ lo ≤ hi → wf_from lo hi es → 0 ≤ block_count es ≤ hi - lo.
Proof.
  revert lo. induction es as [|e es IH]; intros lo ?; simpl; [lia|].
  intros (?&?&?&Hwf). specialize (IH (Start e + Blocks e) ltac:(lia) Hwf). lia.
Qed.

Lemma validateExtents_loop_ok first prev total hi es n :
  block_bound hi → 0 ≤ prev → 0 ≤ total < 2 ^ 64 → Forall extent_u64 es →
  validateExtents_loop first prev total hi es = Ok n →
  wf_from (if first then 0 else prev) hi es ∧ n = total + block_count es.
Proof.
  intros Hhi. revert first prev total.
  induction es as [|e es IH]; intros first prev total Hprev Htot Hu; simpl.
  { intros [= ->]. lia. }
  apply Forall_cons in Hu as [[Hs Hb] Hu]. unfold is_u64 in *.
  destruct (_ || _) eqn:E1; [done|]. zbool.
  destruct (_ && _) eqn:E2; [done|]. apply andb_false_iff in E2.
  destruct (u64 _ <? total) eqn:E3; [done|]. zbool.
  unfold MaxUint64 in *. rewrite u64_small in E3 by lia.
  unfold block_bound in Hhi.
  assert (extent_end e = Start e + Blocks e) as Hend.
  { unfold extent_end in *. destruct (decide (Start e + Blocks e < 2 ^ 64)).
    - apply u64_small. lia.
    - rewrite u64_wrap_sub in * by lia. lia. }
  rewrite Hend in *. rewrite (u64_small (total + Blocks e)) by lia.
  intros Hok. apply IH in Hok as [Hwf ->]; [|lia|lia|done].
  split; [|lia]. split_and!; try lia; [|done].
  destruct first; [lia|]. destruct E2 as [E2|E2]; [done|]. zbool. lia.
Qed.

Lemma validateExtents_loop_complete first prev total hi es :
  block_bound hi → 0 ≤ prev ≤ hi → 0 ≤ total → total + block_count es < 2 ^ 64 →
  wf_from prev hi es →
  validateExtents_loop first prev total hi es = Ok (total + block_count es).
Proof.
  intros Hhi. revert first prev total.
  induction es as [|e es IH]; intros first prev total Hprev Htot Hsum Hwf.
  { simpl. f_equal. lia. }
  wf_cons Hwf. cbn [validateExtents_loop block_count foldr]. rewrite Hend.
  unfold block_bound in Hhi. simpl in Hsum. fold (block_count es) in *.
  pose proof (block_count_bound (Start e + Blocks e) hi es ltac:(lia) Hwf0).
  rewrite (proj2 (Z.eqb_neq _ _)), (proj2 (Z.ltb_ge _ (Start e))), (proj2 (Z.ltb_ge hi _)),
    (proj2 (Z.ltb_ge _ prev)), andb_false_r by lia. simpl.
  unfold MaxUint64. rewrite !u64_small by lia.
  rewrite (proj2 (Z.ltb_ge _ total)) by lia.
  rewrite IH by (done || lia). f_equal. lia.
Qed.

(** ** [extentsContain] *)

(** [outer'] is a suffix of [outer] whose dropped part ends at or before [c]. *)
Definition drops_below (outer outer' : list Extent) (c : Z) : Prop :=
  ∃ pre, outer = pre ++ outer' ∧ Forall (fun e => Start e + Blocks e ≤ c) pre.

Lemma drops_below_refl outer c : drops_below outer outer c.
Proof. exists []. by split; [|constructor]. Qed.

Lemma drops_below_cons o outer outer' c c' :
  Start o + Blocks o ≤ c' → c ≤ c' → drops_below outer outer' c → drops_below (o :: outer) outer' c'.
Proof.
  intros Ho Hc (pre & -> & Hpre). exists (o :: pre). split; [done|].
  constructor; [done|]. eapply Forall_impl; [done|]. simpl. lia.
Qed.

Lemma drops_below_covers outer outer' c b :
  drops_below outer outer' c → c ≤ b → covers outer b ↔ covers outer' b.
Proof.
  intros (pre & -> & Hpre) Hb. autorewrite with satchel. split; [|auto].
  intros [Hc|?]; [|done]. exfalso. unfold covers in Hc.
  apply Exists_exists in Hc as (e & Hin & He). rewrite Forall_forall in Hpre.
  specialize (Hpre _ Hin). unfold in_extent in He. lia.
Qed.

Lemma cover_candidate_spec lo hi outer cursor cend :
  block_bound hi → 0 ≤ lo → wf_from lo hi outer →
  match cover_candidate outer cursor cend with
  | Some outer' => drops_below outer outer' (Z.max cursor cend) ∧ ∀ b, cursor ≤ b < cend → covers outer b
  | None => ∃ b, cursor ≤ b < cend ∧ ¬ covers outer b
  end.
Proof.
  intros Hhi. revert lo cursor.
  induction outer as [|o rest IH]; intros lo cursor Hlo Hwf.
  { simpl. destruct (cursor <? cend) eqn:E; simpl; zbool.
    - exists cursor. split; [lia|]. by intros ?%covers_nil.
    - split; [apply drops_below_refl|]. lia. }
  wf_cons Hwf. cbn [cover_candidate].
  destruct (cursor <? cend) eqn:E; simpl; zbool; [|split; [apply drops_below_refl|lia]].
  rewrite Hend. destruct (_ <=? cursor) eqn:E1; zbool.
  { specialize (IH (Start o + Blocks o) cursor ltac:(lia) Hwf0).
    destruct (cover_candidate rest cursor cend) as [outer'|].
    - destruct IH as [Hd Hc]. split; [eapply drops_below_cons; [| |done]; lia|].
      intros b Hb. rewrite covers_cons. right. by apply Hc.
    - destruct IH as (b & Hb & Hn). exists b. split; [done|].
      rewrite covers_cons. intros [Hin|?]; [unfold in_extent in Hin; lia|done]. }
  destruct (cursor <? Start o) eqn:E2; zbool.
  { exists cursor. split; [lia|]. rewrite covers_cons. intros [Hin|Hc].
    - unfold in_extent in Hin. lia.
    - apply (wf_from_covers _ _ _ _ Hwf0) in Hc. lia. }
  destruct (_ <? cend) eqn:E3; zbool.
  - assert (Z.min cend (Start o + Blocks o) = Start o + Blocks o) as Hmin by lia.
    rewrite Hmin in *. specialize (IH (Start o + Blocks o) (Start o + Blocks o) ltac:(lia) Hwf0).
    destruct (cover_candidate rest _ cend) as [outer'|].
    + destruct IH as [Hd Hc]. split; [eapply drops_below_cons; [| |done]; lia|].
      intros b Hb. rewrite covers_cons. unfold in_extent.
      destruct (decide (b < Start o + Blocks o)); [left; lia|right; apply Hc; lia].
    + destruct IH as (b & Hb & Hn). exists b. split; [lia|].
      rewrite covers_cons. unfold in_extent. intros [?|?]; [lia|done].
  - split; [apply drops_below_refl|]. intros b Hb. rewrite covers_cons. left. unfold in_extent. lia.
Qed.

Lemma extentsContain_from lo lo' hi hi' outer inner :
  block_bound hi → block_bound hi' → 0 ≤ lo → 0 ≤ lo' →
  wf_from lo hi outer → wf_from lo' hi' inner →
  extentsContain outer inner = true ↔ ∀ b, covers inner b → covers outer b.
Proof.
  intros Hhi Hhi'. revert lo lo' outer.
  induction inner as [|c inner IH]; intros lo lo' outer Hlo Hlo' Hwfo Hwfi.
  { simpl. split; [|done]. intros _ b. by rewrite covers_nil. }
  wf_cons Hwfi. cbn [extentsContain]. rewrite Hend.
  pose proof (cover_candidate_spec lo hi outer (Start c) (Start c + Blocks c) Hhi Hlo Hwfo) as Hc.
  destruct (cover_candidate outer _ _) as [outer'|].
  - destruct Hc as [Hd Hc]. rewrite Z.max_r in Hd by lia.
    assert (wf_from lo hi outer') as Hwfo'.
    { destruct Hd as (pre & -> & _). by eapply wf_from_app. }
    rewrite (IH lo (Start c + Blocks c) outer') by (done || lia).
    setoid_rewrite covers_cons. split; intros H b.
    + intros [Hin|Hcov]; [by apply Hc|]. apply (drops_below_covers _ _ _ b Hd).
      * apply (wf_from_covers _ _ _ _ Hwf) in Hcov. lia.
      * by apply H.
    + intros Hcov. apply (drops_below_covers _ _ _ b Hd).
      * apply (wf_from_covers _ _ _ _ Hwf) in Hcov. lia.
      * apply H. by right.
  - destruct Hc as (b & Hb & Hn). split; [done|]. intros H. destruct Hn. apply H.
    rewrite covers_cons. by left.
Qed.

(** ** [subtractExtents] *)

Lemma wf_from_app_intro lo mid hi es1 es2 :
  lo ≤ mid ≤ hi → wf_from lo mid es1 → wf_from mid hi es2 → wf_from lo hi (es1 ++ es2).
Proof.
  revert lo. induction es1 as [|e es1 IH]; intros lo ?; simpl.
  { intros _. apply wf_from_weaken. lia. }
  intros (?&?&?&Hwf) Hwf2. split_and!; [lia..|]. apply IH; [|done..].
  destruct es1; simpl in *; lia.
Qed.

(** What one extent contributes to the result. *)
Definition subtract_one (removed : list Extent) (cursor e : Z) : list Extent :=
  let '(pieces, c) := subtract_removed removed cursor e in
  pieces ++ (if c <? e then [mkExtent c (u64 (e - c))] else []).

Lemma subtract_one_nil cursor e : 0 ≤ cursor < e → e < 2 ^ 64 → subtract_one [] cursor e = [mkExtent cursor (e - cursor)].
Proof.
  intros. unfold subtract_one. simpl. rewrite (proj2 (Z.ltb_lt cursor e)) by lia.
  by rewrite u64_small by lia.
Qed.

Lemma subtract_one_spec lo hi removed cursor e :
  block_bound hi → e < 2 ^ 64 → 0 ≤ lo → wf_from lo hi removed → 0 ≤ cursor < e →
  wf_from cursor e (subtract_one removed cursor e) ∧
  ∀ b, covers (subtract_one removed cursor e) b ↔ cursor ≤ b < e ∧ ¬ covers removed b.
Proof.
  intros Hhi He. revert lo cursor.
  induction removed as [|r rest IH]; intros lo cursor Hlo Hwf Hcur.
  { rewrite subtract_one_nil by lia. simpl. split; [lia|]. intros b.
    rewrite covers_cons, !covers_nil. unfold in_extent. simpl. intuition lia. }
  pose proof Hwf as Hwf'. wf_cons Hwf'. unfold subtract_one. cbn [subtract_removed].
  destruct (Start r <? e) eqn:E1; simpl; zbool.
  2: { rewrite (proj2 (Z.ltb_lt cursor e)), u64_small by lia. split; [simpl; lia|].
    intros b. rewrite covers_cons, covers_nil. unfold in_extent at 1. simpl. split.
    - intros [?|[]]. split; [lia|]. rewrite covers_cons. unfold in_extent.
      intros [?|Hc]; [lia|]. apply (wf_from_covers _ _ _ _ Hwf0) in Hc. lia.
    - intros [? _]. left. lia. }
  rewrite Hend. rewrite Z.min_r by lia.
  set (piece := if cursor <? Start r then _ else _).
  assert (wf_from cursor (Z.max cursor (Start r)) piece ∧
    ∀ b, covers piece b ↔ cursor ≤ b < Start r) as [Hpw Hpc].
  { subst piece. destruct (cursor <? Start r) eqn:E2; zbool; simpl.
    - rewrite u64_small by (unfold block_bound in *; lia). split; [lia|].
      intros b. rewrite covers_cons, covers_nil. unfold in_extent. simpl. intuition lia.
    - split; [done|]. intros b. rewrite covers_nil. lia. }
  set (cursor' := if cursor <? _ then _ else _).
  assert (cursor' = Z.max cursor (Start r + Blocks r)) as ->.
  { subst cursor'. case_if; lia. }
  clearbody piece.
  assert (∀ b, covers rest b → Start r + Blocks r ≤ b) as Hrest.
  { intros b Hc. apply (wf_from_covers _ _ _ _ Hwf0) in Hc. lia. }
  destruct (e <=? _) eqn:E3; zbool.
  - rewrite (proj2 (Z.ltb_ge _ e)), app_nil_r by lia. split.
    { eapply wf_from_hi; [|done]. lia. }
    intros b. rewrite Hpc, covers_cons. unfold in_extent. split.
    + intros ?. split; [lia|]. intros [?|Hc%Hrest]; lia.
    + intros [? Hn]. destruct (decide (b < Start r)); [lia|]. destruct Hn. left. lia.
  - destruct (IH (Start r + Blocks r) (Z.max cursor (Start r + Blocks r))) as [Hw Hc]; [lia|done|lia|].
    unfold subtract_one in Hw, Hc. destruct (subtract_removed rest _ e) as [ps c].
    rewrite <-app_assoc. split.
    + apply (wf_from_app_intro _ (Z.max cursor (Start r))); [lia|done|].
      eapply wf_from_weaken; [|done]. lia.
    + intros b. rewrite covers_app, Hpc, Hc, covers_cons. unfold in_extent. split.
      * intros [?|[? Hn]]; [|split; [lia|]; intros [?|?]; [lia|done]].
        split; [lia|]. intros [?|Hcr%Hrest]; lia.
      * intros [? Hn]. destruct (decide (b < Start r)); [left; lia|].
        right. split; [|tauto]. destruct (decide (b < Start r + Blocks r)); [|lia].
        destruct Hn. left. lia.
Qed.

Lemma skip_ended_spec lo hi removed cursor :
  block_bound hi → 0 ≤ lo → wf_from lo hi removed →
  drops_below removed (skip_ended removed cursor) cursor ∧ wf_from lo hi (skip_ended removed cursor).
Proof.
  intros Hhi. revert lo. induction removed as [|r rest IH]; intros lo Hlo Hwf.
  { split; [apply drops_below_refl|done]. }
  pose proof Hwf as Hwf'. wf_cons Hwf'. cbn [skip_ended]. rewrite Hend.
  destruct (_ <=? cursor) eqn:E; zbool; [|split; [apply drops_below_refl|done]].
  destruct (IH (Start r + Blocks r)) as [Hd Hw]; [lia|done|]. split.
  - eapply drops_below_cons; [| |done]; lia.
  - eapply wf_from_weaken; [|done]. lia.
Qed.

Lemma subtract_loop_spec lo lo' hi hi' extents removed :
  block_bound hi → block_bound hi' → 0 ≤ lo → 0 ≤ lo' →
  wf_from lo hi extents → wf_from lo' hi' removed →
  wf_from lo hi (subtract_loop extents removed) ∧
  ∀ b, covers (subtract_loop extents removed) b ↔ covers extents b ∧ ¬ covers removed b.
Proof.
  intros Hhi Hhi'. revert lo removed.
  induction extents as [|x xs IH]; intros lo removed Hlo Hlo' Hwfe Hwfr.
  { simpl. split; [done|]. intros b. rewrite covers_nil. tauto. }
  wf_cons Hwfe. cbn [subtract_loop]. rewrite Hend.
  destruct (skip_ended_spec lo' hi' removed (Start x) Hhi' Hlo' Hwfr) as [Hd Hw].
  destruct (subtract_one_spec lo' hi' (skip_ended removed (Start x)) (Start x) (Start x + Blocks x))
    as [How Hoc]; [done|unfold block_bound in *; lia|done|done|lia|].
  unfold subtract_one in How, Hoc. destruct (subtract_removed _ _ _) as [ps c].
  rewrite app_assoc.
  destruct (IH (Start x + Blocks x) (skip_ended removed (Start x))) as [Hlw Hlc]; [lia|done..|].
  split.
  - apply (wf_from_app_intro _ (Start x + Blocks x)); [lia| |done].
    eapply wf_from_weaken; [|done]. lia.
  - intros b. rewrite covers_app, Hoc, Hlc, covers_cons. unfold in_extent.
    assert (Start x ≤ b → covers removed b ↔ covers (skip_ended removed (Start x)) b) as Hsame
      by (intros; by eapply drops_below_covers).
    assert (covers xs b → Start x ≤ b) as Hxs.
    { intros Hc. apply (wf_from_covers _ _ _ _ Hwf) in Hc. lia. }
    split.
    + intros [[? ?]|[? ?]]; rewrite Hsame by (lia || auto); tauto.
    + intros [[?|?] Hn]; rewrite Hsame in Hn by (lia || auto); tauto.
Qed.

(** The ends of a well-formed list increase, so the predicate [sort.Search]
    is given is monotone. *)
Lemma wf_ends_mono lo hi es i j ei ej :
  wf_from lo hi es → (i ≤ j)%nat → es !! i = Some ei → es !! j = Some ej →
  Start ei + Blocks ei ≤ Start ej + Blocks ej.
Proof.
  revert lo i j. induction es as [|e es IH]; intros lo i j Hwf Hij Hi Hj; [done|].
  destruct Hwf as (?&?&?&Hwf). destruct i as [|i], j as [|j]; simplify_eq/=; [lia| |lia|].
  - assert (extent_in hi ej ∨ True) as _ by auto.
    assert (Start ei + Blocks ei ≤ Start ej ∧ 0 < Blocks ej) as ?; [|lia].
    clear IH Hij. revert j Hj Hwf. generalize (Start ei + Blocks ei) as m.
    induction es as [|e' es IH]; intros m j Hj Hw; [done|].
    destruct Hw as (?&?&?&Hw). destruct j as [|j]; simplify_eq/=; [lia|].
    specialize (IH _ _ Hj Hw). lia.
  - eapply (IH _ i j); [done|lia|done..].
Qed.

Lemma subtract_start_spec lo hi removed c :
  block_bound hi → 0 ≤ lo → wf_from lo hi removed →
  let idx := sort_Search (length removed) (fun i =>
    match removed !! i with Some r => c <? extent_end r | None => false end) in
  drops_below removed (drop idx removed) c.
Proof.
  intros Hhi Hlo Hwf. cbn zeta.
  assert (∀ r, r ∈ removed → extent_end r = Start r + Blocks r) as Hends.
  { intros r Hr. apply (extent_end_small hi); [done|]. by apply (wf_from_extent_in lo hi removed). }
  set (f := fun i => _).
  set (g := fun i => f i || (length removed <=? i)%nat).
  (* [g] agrees with [f] on the indices the search inspects and is monotone *)
  assert (∀ fuel i j, (j ≤ length removed)%nat → search_loop fuel f i j = search_loop fuel g i j) as Hfg.
  { induction fuel as [|fuel IHf]; intros i j Hj; cbn [search_loop]; [done|].
    destruct (Nat.ltb_spec i j); [|done].
    assert (Nat.div (i + j) 2 < j)%nat by (apply Nat.Div0.div_lt_upper_bound; lia).
    assert (g (Nat.div (i + j) 2) = f (Nat.div (i + j) 2)) as ->.
    { unfold g. rewrite (proj2 (Nat.leb_gt _ _)), orb_false_r by lia. done. }
    destruct (f _); apply IHf; lia. }
  destruct (sort_Search_spec g) with (n := length removed) as (Hle & Hlow & _).
  { intros i j Hij. unfold g, f. rewrite !orb_true_iff, !Nat.leb_le.
    intros [Hi|?]; [|right; lia].
    destruct (decide (length removed ≤ j)%nat) as [|Hj]; [by right|left].
    destruct (removed !! i) as [ri|] eqn:Ei; [|done].
    destruct (lookup_lt_is_Some_2 removed j) as [rj Ej]; [lia|]. rewrite Ej.
    rewrite (Hends ri) in Hi by (by eapply list_elem_of_lookup_2).
    rewrite (Hends rj) by (by eapply list_elem_of_lookup_2).
    pose proof (wf_ends_mono _ _ _ _ _ _ _ Hwf Hij Ei Ej). apply Z.ltb_lt. zbool. lia. }
  unfold sort_Search in *. rewrite Hfg by lia. set (idx := search_loop _ g _ _) in *.
  exists (take idx removed). split; [by rewrite take_drop|].
  apply Forall_forall. intros r Hr. apply elem_of_take in Hr as (i & Hi & Hlt).
  specialize (Hlow i Hlt). unfold g, f in Hlow. rewrite Hi in Hlow.
  apply orb_false_iff in Hlow as [Hlow _]. zbool.
  rewrite Hends in Hlow by (by eapply list_elem_of_lookup_2). lia.
Qed.

(** ** [normalizeExtents] and [unionExtents] *)

(** The forward form of the fold: [cur] is the last extent of the result. *)
Fixpoint coalesce (cur : Extent) (es : list Extent) : list Extent :=
  match es with
  | [] => [cur]
  | e :: rest =>
      if Blocks e =? 0 then coalesce cur rest
      else if extent_end cur <? Start e then cur :: coalesce e rest
      else if extent_end cur <? extent_end e
      then coalesce (mkExtent (Start cur) (u64 (extent_end e - Start cur))) rest
      else coalesce cur rest
  end.

Fixpoint coalesce_all (es : list Extent) : list Extent :=
  match es with
  | [] => []
  | e :: rest => if Blocks e =? 0 then coalesce_all rest else coalesce e rest
  end.

Lemma foldl_append_coalesce cur acc es :
  reverse (foldl appendExtent (cur :: acc) es) = reverse acc ++ coalesce cur es.
Proof.
  revert cur acc. induction es as [|e es IH]; intros cur acc; simpl.
  { by rewrite reverse_cons. }
  unfold appendExtent at 2. case_if; [by apply IH|].
  case_if; [by rewrite IH, reverse_cons, <-app_assoc|].
  case_if; by apply IH.
Qed.

Lemma foldl_append_all es : reverse (foldl appendExtent [] es) = coalesce_all es.
Proof.
  induction es as [|e es IH]; simpl; [done|].
  unfold appendExtent at 2. case_if; [done|]. apply (foldl_append_coalesce e []).
Qed.

Section coalesce.
Context (hi : Z) (Hhi : block_bound hi).

Lemma coalesce_spec lo cur es :
  lo < Start cur → extent_in hi cur → 0 < Blocks cur → Forall (extent_in hi) es →
  StronglySorted start_le (cur :: es) →
  normal_from lo hi (coalesce cur es) ∧
  ∀ b, covers (coalesce cur es) b ↔ in_extent cur b ∨ covers es b.
Proof.
  revert lo cur. induction es as [|e es IH]; intros lo cur Hlo Hcur Hpos Hes Hsort.
  { simpl. unfold extent_in in Hcur. split; [lia|]. intros b. by autorewrite with satchel. }
  apply Forall_cons in Hes as [He Hes].
  apply StronglySorted_inv in Hsort as [Hsort Hhd].
  apply Forall_cons in Hhd as [Hce Hhd]. unfold start_le in Hce.
  pose proof (StronglySorted_inv Hsort) as [Hsort' _].
  assert (∀ c, Start c = Start cur → StronglySorted start_le (c :: es)) as Hkeep.
  { intros c Hc. constructor; [done|]. eapply Forall_impl; [done|].
    intros x. unfold start_le. lia. }
  cbn [coalesce]. rewrite !(extent_end_small hi) by done.
  unfold extent_in, block_bound in *.
  destruct (Blocks e =? 0) eqn:E0; zbool.
  { destruct (IH lo cur) as [Hn Hc]; [lia|lia|lia|done|by apply Hkeep|]. split; [done|].
    intros b. rewrite Hc, covers_cons. unfold in_extent. intuition lia. }
  destruct (_ <? Start e) eqn:E1; zbool.
  { destruct (IH (Start cur + Blocks cur) e) as [Hn Hc]; [lia|lia|lia|done|done|]. split.
    - cbn [normal_from]. split_and!; [lia..|done].
    - intros b. by rewrite !covers_cons, Hc. }
  destruct (_ <? _) eqn:E2; zbool.
  - rewrite u64_small by lia.
    destruct (IH lo (mkExtent (Start cur) (Start e + Blocks e - Start cur))) as [Hn Hc];
      simpl; [lia|lia|lia|done|by apply Hkeep|]. split; [done|].
    intros b. rewrite Hc, covers_cons. unfold in_extent. simpl. intuition lia.
  - destruct (IH lo cur) as [Hn Hc]; [lia|lia|lia|done|by apply Hkeep|]. split; [done|].
    intros b. rewrite Hc, covers_cons. unfold in_extent. intuition lia.
Qed.

Lemma coalesce_all_spec es :
  Forall (extent_in hi) es → StronglySorted start_le es →
  normal_extents hi (coalesce_all es) ∧ ∀ b, covers (coalesce_all es) b ↔ covers es b.
Proof.
  induction es as [|e es IH]; intros Hes Hsort; simpl; [done|].
  pose proof Hes as Hes'. apply Forall_cons in Hes' as [He Hes'].
  pose proof Hsort as Hsort'. apply StronglySorted_inv in Hsort' as [Hsort' _].
  destruct (Blocks e =? 0) eqn:E; zbool.
  - destruct IH as [Hn Hc]; [done..|]. split; [done|]. intros b.
    rewrite Hc, covers_cons. unfold in_extent. intuition lia.
  - unfold extent_in in He. destruct (coalesce_spec (-1) e es) as [Hn Hc];
      [lia|done|lia|done..|]. split; [done|]. intros b. by rewrite Hc, covers_cons.
Qed.
End coalesce.

#[export] Instance extent_le_total : Total extent_le.
Proof. intros [a b] [c d]. unfold extent_le. simpl. lia. Qed.
#[export] Instance extent_le_trans : Transitive extent_le.
Proof. intros [a b] [c d] [e f]. unfold extent_le. simpl. lia. Qed.
#[export] Instance extent_le_antisymm : AntiSymm (=) extent_le.
Proof. intros [a b] [c d]. unfold extent_le. simpl. intros. f_equal; lia. Qed.
#[export] Instance start_le_total : Total start_le.
Proof. intros [a b] [c d]. unfold start_le. simpl. lia. Qed.
#[export] Instance start_le_trans : Transitive start_le.
Proof. intros [a b] [c d] [e f]. unfold start_le. simpl. lia. Qed.

Lemma StronglySorted_extent_start es : StronglySorted extent_le es → StronglySorted start_le es.
Proof.
  induction 1 as [|e es Hs IH Hf]; constructor; [done|].
  eapply Forall_impl; [done|]. intros x. unfold extent_le, start_le. lia.
Qed.

Lemma wf_from_starts lo hi es : wf_from lo hi es → Forall (fun x => lo ≤ Start x) es.
Proof.
  revert lo. induction es as [|e es IH]; intros lo; simpl; [constructor|].
  intros (?&?&?&Hwf). constructor; [done|].
  eapply Forall_impl; [by apply IH|]. simpl. lia.
Qed.

Lemma wf_from_sorted lo hi es : wf_from lo hi es → StronglySorted start_le es.
Proof.
  revert lo. induction es as [|e es IH]; intros lo; simpl; [constructor|].
  intros (?&?&?&Hwf). constructor; [by eapply IH|].
  eapply Forall_impl; [by eapply wf_from_starts|]. unfold start_le. simpl. lia.
Qed.

Lemma wf_extents_in hi es : wf_extents hi es → Forall (extent_in hi) es.
Proof.
  intros Hwf. apply Forall_forall. intros e He.
  by apply (wf_from_extent_in 0 hi es).
Qed.

Lemma normalize_spec hi es :
  block_bound hi → Forall (extent_in hi) es →
  normal_extents hi (normalizeExtents es) ∧ ∀ b, covers (normalizeExtents es) b ↔ covers es b.
Proof.
  intros Hhi Hes. unfold normalizeExtents. rewrite foldl_append_all.
  destruct (coalesce_all_spec hi Hhi (merge_sort extent_le es)) as [Hn Hc].
  - by rewrite merge_sort_Permutation.
  - apply StronglySorted_extent_start, StronglySorted_merge_sort; apply _.
  - split; [done|]. intros b. rewrite Hc. apply covers_Permutation, merge_sort_Permutation.
Qed.

Lemma union_spec hi left right :
  block_bound hi → wf_extents hi left → Forall (extent_in hi) right →
  normal_extents hi (unionExtents left right) ∧
  ∀ b, covers (unionExtents left right) b ↔ covers left b ∨ covers right b.
Proof.
  intros Hhi Hl Hr. destruct (normalize_spec hi right Hhi Hr) as [Hn Hc].
  apply normal_extents_wf in Hn. unfold unionExtents. rewrite foldl_append_all.
  set (r := normalizeExtents right) in *.
  destruct (coalesce_all_spec hi Hhi (list_merge start_le left r)) as [Hu Hcu].
  - rewrite merge_Permutation. apply Forall_app; split; by apply wf_extents_in.
  - apply Sorted_StronglySorted; [apply _|]. apply Sorted_list_merge; [apply _|..];
      eapply StronglySorted_Sorted, wf_from_sorted; done.
  - split; [done|]. intros b. rewrite Hcu, (covers_Permutation _ (left ++ r)) by apply merge_Permutation.
    by rewrite covers_app, Hc.
Qed.

(** ** Normal forms are canonical *)

Lemma normal_from_lo_not_covered lo hi es b : normal_from lo hi es → b ≤ lo → ¬ covers es b.
Proof.
  intros Hn Hb Hc. destruct es as [|e es]; [by apply covers_nil in Hc|].
  destruct Hn as (?&?&?&Hn). apply covers_cons in Hc as [Hin|Hc].
  - unfold in_extent in Hin. lia.
  - apply normal_wf in Hn. apply (wf_from_covers _ _ _ _ Hn) in Hc. lia.
Qed.

Lemma normal_unique_from lo1 lo2 hi es1 es2 :
  normal_from lo1 hi es1 → normal_from lo2 hi es2 →
  (∀ b, covers es1 b ↔ covers es2 b) → es1 = es2.
Proof.
  revert lo1 lo2 es2. induction es1 as [|[s1 n1] es1 IH]; intros lo1 lo2 [|[s2 n2] es2] H1 H2 Heq.
  - done.
  - destruct H2 as (?&?&?&_). exfalso. apply (covers_nil s2), Heq, covers_cons.
    left. unfold in_extent. simpl in *. lia.
  - destruct H1 as (?&?&?&_). exfalso. apply (covers_nil s1), Heq, covers_cons.
    left. unfold in_extent. simpl in *. lia.
  - destruct H1 as (?&?&?&Hn1), H2 as (?&?&?&Hn2). simpl in *.
    assert (∀ b, s1 ≤ b < s1 + n1 ∨ covers es1 b ↔ s2 ≤ b < s2 + n2 ∨ covers es2 b) as Heq'.
    { intros b. specialize (Heq b). rewrite !covers_cons in Heq. done. }
    pose proof (normal_from_lo_not_covered _ _ _ s1 Hn1 ltac:(lia)).
    pose proof (normal_from_lo_not_covered _ _ _ s2 Hn2 ltac:(lia)).
    pose proof (normal_from_lo_not_covered _ _ _ (s1 + n1) Hn1 ltac:(lia)).
    pose proof (normal_from_lo_not_covered _ _ _ (s2 + n2) Hn2 ltac:(lia)).
    assert (∀ b, b ≤ s1 + n1 → ¬ covers es1 b) as Hlow1
      by (intros b Hb; by eapply normal_from_lo_not_covered).
    assert (∀ b, b ≤ s2 + n2 → ¬ covers es2 b) as Hlow2
      by (intros b Hb; by eapply normal_from_lo_not_covered).
    assert (s1 = s2) as ->.
    { destruct (Z.lt_trichotomy s1 s2) as [Hlt|[?|Hlt]]; [|done|].
      - destruct (proj1 (Heq' s1)) as [?|Hc]; [lia|lia|]. by apply Hlow2 in Hc; [|lia].
      - destruct (proj2 (Heq' s2)) as [?|Hc]; [lia|lia|]. by apply Hlow1 in Hc; [|lia]. }
    assert (n1 = n2) as ->.
    { destruct (Z.lt_trichotomy n1 n2) as [Hlt|[?|Hlt]]; [|done|].
      - destruct (proj2 (Heq' (s2 + n1))) as [?|Hc]; [lia|lia|]. by apply Hlow1 in Hc; [|lia].
      - destruct (proj1 (Heq' (s2 + n2))) as [?|Hc]; [lia|lia|]. by apply Hlow2 in Hc; [|lia]. }
    f_equal. eapply IH; [done..|]. intros b. specialize (Heq' b).
    destruct (decide (b ≤ s2 + n2)) as [Hb|Hb].
    + split; intros Hc; [by apply Hlow1 in Hc|by apply Hlow2 in Hc].
    + split; intros Hc; [destruct (proj1 Heq')|destruct (proj2 Heq')]; auto; lia.
Qed.

(** ** Equality of block sets *)

Definition same_blocks (es1 es2 : list Extent) : Prop := ∀ b, covers es1 b ↔ covers es2 b.

#[export] Instance same_blocks_equiv : Equivalence same_blocks.
Proof. unfold same_blocks. split; [by intros ? ?|by intros ? ? H b|intros ? ? ? H1 H2 b; by rewrite H1]. Qed.

#[export] Instance covers_proper : Proper (same_blocks ==> (=) ==> iff) covers.
Proof. intros es1 es2 H b ? <-. apply H. Qed.

#[export] Instance app_same_blocks : Proper (same_blocks ==> same_blocks ==> same_blocks) (++).
Proof. intros a1 a2 Ha b1 b2 Hb b. by rewrite !covers_app, Ha, Hb. Qed.

(** ** [intersectExtent] *)

Lemma intersectExtent_spec lo hi target es :
  block_bound hi → 0 ≤ lo → extent_in hi target → wf_from lo hi es →
  wf_from (Z.max lo (Start target)) hi (intersectExtent target es) ∧
  ∀ b, covers (intersectExtent target es) b ↔ in_extent target b ∧ covers es b.
Proof.
  intros Hhi Hlo Ht. revert lo Hlo. induction es as [|e es IH]; intros lo Hlo Hwf.
  { simpl. split; [done|]. intros b. rewrite covers_nil. tauto. }
  wf_cons Hwf. cbn [intersectExtent]. rewrite Hend, (extent_end_small hi target) by done.
  assert (∀ b, covers es b → Start e + Blocks e ≤ b) as Hes.
  { intros b Hc. apply (wf_from_covers _ _ _ _ Hwf0) in Hc. lia. }
  destruct (IH (Start e + Blocks e)) as [Hw Hc]; [lia|done|].
  unfold extent_in, block_bound in *.
  destruct (_ <=? Start target) eqn:E1; zbool.
  { split.
    - eapply wf_from_weaken; [|done]. lia.
    - intros b. rewrite Hc, covers_cons. unfold in_extent. intuition lia. }
  destruct (_ <=? Start e) eqn:E2; zbool.
  { split; [done|]. intros b. rewrite covers_nil, covers_cons. unfold in_extent.
    split; [done|]. intros [? [?|?%Hes]]; lia. }
  destruct (_ <? _) eqn:E3; zbool.
  2: { split.
    - eapply wf_from_weaken; [|done]. lia.
    - intros b. rewrite Hc, covers_cons. unfold in_extent. intuition lia. }
  rewrite u64_small by lia. split.
  - cbn [wf_from]. simpl. split_and!; [lia..|].
    eapply wf_from_weaken; [|done]. lia.
  - intros b. rewrite !covers_cons, Hc. unfold in_extent. simpl.
    split; [|intuition lia]. intros [?|?]; [|tauto]. intuition lia.
Qed.

(** The upper bound of a well-formed list can be tightened to its blocks. *)
Lemma wf_from_tighten lo hi hi' es :
  wf_from lo hi es → 0 ≤ lo → (∀ b, covers es b → b < hi') → wf_from lo hi' es.
Proof.
  revert lo. induction es as [|e es IH]; intros lo; simpl; [done|].
  intros (?&?&?&Hwf) ? Hb.
  pose proof (Hb (Start e + Blocks e - 1)) as He. rewrite covers_cons in He. unfold in_extent in He.
  split_and!; [lia..|]. apply IH; [done|lia|]. intros b Hc. apply Hb. rewrite covers_cons. by right.
Qed.

(** ** [blocksToExtents] *)

Fixpoint blocks_run (cur : Extent) (blocks : list Z) : list Extent :=
  match blocks with
  | [] => [cur]
  | block :: rest =>
      if extent_end cur =? block
      then blocks_run (mkExtent (Start cur) (u64 (Blocks cur + 1))) rest
      else cur :: blocks_run (mkExtent block 1) rest
  end.

Lemma blocksToExtents_loop_run cur acc blocks :
  blocksToExtents_loop (cur :: acc) blocks = reverse acc ++ blocks_run cur blocks.
Proof.
  revert cur acc. induction blocks as [|b bs IH]; intros cur acc; simpl.
  { by rewrite reverse_cons. }
  case_if; rewrite IH; [done|]. by rewrite reverse_cons, <-app_assoc.
Qed.

Lemma blocks_run_spec lo hi cur blocks :
  block_bound hi → lo < Start cur → 0 < Blocks cur → extent_in hi cur →
  StronglySorted Z.lt blocks → Forall (fun b => Start cur + Blocks cur ≤ b < hi) blocks →
  normal_from lo hi (blocks_run cur blocks) ∧
  ∀ b, covers (blocks_run cur blocks) b ↔ in_extent cur b ∨ b ∈ blocks.
Proof.
  intros Hhi. revert lo cur. induction blocks as [|x bs IH]; intros lo cur Hlo Hpos Hin Hs Hf.
  { unfold extent_in in Hin. simpl. split; [lia|]. intros b. autorewrite with satchel.
    rewrite elem_of_nil. tauto. }
  apply Forall_cons in Hf as [Hx Hf]. apply StronglySorted_inv in Hs as [Hs Hhd].
  assert (Forall (fun b => x + 1 ≤ b < hi) bs) as Hf'.
  { rewrite Forall_forall in *. intros b Hb. specialize (Hf b Hb). specialize (Hhd b Hb). lia. }
  cbn [blocks_run]. rewrite (extent_end_small hi) by done.
  unfold extent_in, block_bound in *. destruct (_ =? x) eqn:E; zbool.
  - rewrite u64_small by lia. destruct (IH lo (mkExtent (Start cur) (Blocks cur + 1))) as [Hn Hc];
      simpl; [lia|lia|lia|done| |].
    { eapply Forall_impl; [done|]. simpl. lia. }
    split; [done|]. intros b. rewrite Hc, elem_of_cons. unfold in_extent. simpl. intuition lia.
  - destruct (IH (Start cur + Blocks cur) (mkExtent x 1)) as [Hn Hc];
      simpl; [lia|lia|lia|done|done|].
    split; [split_and!; [lia..|done]|].
    intros b. rewrite covers_cons, Hc, elem_of_cons. unfold in_extent. simpl. intuition lia.
Qed.

Lemma blocksToExtents_spec hi blocks :
  block_bound hi → StronglySorted Z.lt blocks → Forall (fun b => 0 ≤ b < hi) blocks →
  normal_extents hi (blocksToExtents blocks) ∧
  ∀ b, covers (blocksToExtents blocks) b ↔ b ∈ blocks.
Proof.
  intros Hhi Hs Hf. destruct blocks as [|x bs].
  { split; [done|]. intros b. rewrite elem_of_nil. apply covers_nil. }
  apply Forall_cons in Hf as [Hx Hf]. apply StronglySorted_inv in Hs as [Hs Hhd].
  unfold blocksToExtents. simpl. rewrite blocksToExtents_loop_run. simpl.
  destruct (blocks_run_spec (-1) hi (mkExtent x 1) bs) as [Hn Hc]; simpl; [done|lia|lia| |done| |].
  - unfold extent_in. simpl. lia.
  - rewrite Forall_forall in *. intros b Hb. specialize (Hf b Hb). specialize (Hhd b Hb). lia.
  - split; [done|]. intros b. rewrite Hc, elem_of_cons. unfold in_extent. simpl. intuition lia.
Qed.

(** ** Properties *)

Lemma validateExtents_complete hi es :
  block_bound hi → wf_extents hi es → validateExtents es hi = Ok (block_count es).
Proof.
  intros Hhi Hwf. unfold block_bound in Hhi. pose proof (block_count_bound 0 hi es ltac:(lia) Hwf).
  unfold validateExtents. rewrite validateExtents_loop_complete; [f_equal; lia|done|lia|lia|lia|done].
Qed.

Lemma validateExtents_spec hi es n :
  block_bound hi → Forall extent_u64 es →
  validateExtents es hi = Ok n ↔ wf_extents hi es ∧ n = block_count es.
Proof.
  intros Hhi Hu. unfold validateExtents. split.
  - intros Hok. apply validateExtents_loop_ok in Hok as [Hwf ->]; [|done|lia|lia|done].
    split; [done|lia].
  - intros [Hwf ->]. unfold block_bound in Hhi.
    pose proof (block_count_bound 0 hi es ltac:(lia) Hwf).
    by rewrite validateExtents_loop_complete by (done || lia).
Qed.

Lemma subtractExtents_spec hi extents removed :
  block_bound hi → wf_extents hi extents → wf_extents hi removed →
  wf_extents hi (subtractExtents extents removed) ∧
  ∀ b, covers (subtractExtents extents removed) b ↔ covers extents b ∧ ¬ covers removed b.
Proof.
  intros Hhi He Hr. unfold subtractExtents.
  destruct extents as [|x xs]; [split; [done|]; intros b; rewrite covers_nil; tauto|].
  destruct removed as [|r rs]; [split; [done|]; intros b; rewrite covers_nil; tauto|].
  pose proof (subtract_start_spec 0 hi (r :: rs) (Start x) Hhi ltac:(lia) Hr) as Hd.
  cbn zeta in Hd. set (idx := sort_Search _ _) in *.
  destruct (subtract_loop_spec 0 0 hi hi (x :: xs) (drop idx (r :: rs))) as [Hw Hc];
    [done..|lia|lia|done| |].
  { apply (wf_from_app 0 hi (take idx (r :: rs))). by rewrite take_drop. }
  split; [done|]. intros b. rewrite Hc.
  assert (covers (x :: xs) b → Start x ≤ b) as Hx.
  { pose proof (wf_from_weaken (Start x) (Start x) hi (x :: xs)) as _.
    intros Hcov. destruct He as (?&?&?&He). apply covers_cons in Hcov as [Hin|Hcov].
    - unfold in_extent in Hin. lia.
    - apply (wf_from_covers _ _ _ _ He) in Hcov. lia. }
  split; intros [Hcov Hn]; (split; [done|]);
    by rewrite (drops_below_covers _ _ _ b Hd (Hx Hcov)) in *.
Qed.

Lemma byteRangeExtents_spec off len size b :
  0 ≤ size < 2 ^ 63 →
  covers (byteRangeExtents off len size) b ↔
  0 ≤ off ∧ ∃ i, off ≤ i < off + len ∧ i < size ∧ i `div` DefaultBlockSize = b.
Proof.
  intros Hsize. unfold byteRangeExtents, DefaultBlockSize.
  destruct (_ || _) eqn:E.
  { rewrite covers_nil. split; [done|]. intros (? & i & ? & ? & ?).
    apply orb_true_iff in E as [E|E]; [apply orb_true_iff in E as [E|E]|]; zbool; lia. }
  zbool. set (n := if size - off <? len then size - off else len).
  assert (n = Z.min len (size - off)) as Hn by (subst n; case_if; lia).
  clearbody n. subst n. set (n := Z.min len (size - off)).
  rewrite !Z.quot_div_nonneg by lia.
  pose proof (Z.div_mod off 4096 ltac:(lia)). pose proof (Z.mod_pos_bound off 4096 ltac:(lia)).
  pose proof (Z.div_mod (off + n - 1) 4096 ltac:(lia)).
  pose proof (Z.mod_pos_bound (off + n - 1) 4096 ltac:(lia)).
  rewrite u64_small by (subst n; lia). rewrite covers_cons, covers_nil. unfold in_extent. simpl.
  split.
  - intros [Hb|[]]. split; [lia|]. exists (Z.max off (b * 4096)).
    split_and!; [subst n; lia..|].
    pose proof (Z.div_mod (Z.max off (b * 4096)) 4096 ltac:(lia)).
    pose proof (Z.mod_pos_bound (Z.max off (b * 4096)) 4096 ltac:(lia)). lia.
  - intros (_ & i & ? & ? & <-). left.
    pose proof (Z.div_mod i 4096 ltac:(lia)). pose proof (Z.mod_pos_bound i 4096 ltac:(lia)).
    subst n. lia.
Qed.

(** [validateExtents] accepts exactly the sorted, non-empty, pairwise
    disjoint extents within the image, whatever the [uint64] fields are (an
    extent whose end wraps is refused), and returns the number of blocks. *)
Theorem validateExtents_correct hi es n :
  block_bound hi → Forall extent_u64 es →
  validateExtents es hi = Ok n ↔ wf_extents hi es ∧ n = block_count es.
Proof. apply validateExtents_spec. Qed.

Lemma validateExtents_correct_witness :
  validateExtents [mkExtent 1 2; mkExtent 5 (2 ^ 64 - 2)] 16 ≠ Ok (2 ^ 64) ∧
  (validateExtents [mkExtent 1 2; mkExtent 3 4] 16 = Ok 6 ↔
   wf_extents 16 [mkExtent 1 2; mkExtent 3 4] ∧ 6 = block_count [mkExtent 1 2; mkExtent 3 4]).
Proof.
  split; [by vm_compute|].
  apply validateExtents_correct; [vm_compute; intuition congruence|].
  repeat constructor; vm_compute; congruence.
Defined.

(** [subtractExtents] is set difference, and its result is again sorted
    and disjoint; the binary search for the first relevant removed extent
    loses nothing. *)
Theorem subtractExtents_correct hi extents removed :
  block_bound hi → wf_extents hi extents → wf_extents hi removed →
  wf_extents hi (subtractExtents extents removed) ∧
  ∀ b, covers (subtractExtents extents removed) b ↔ covers extents b ∧ ¬ covers removed b.
Proof. apply subtractExtents_spec. Qed.

Lemma subtractExtents_correct_witness :
  subtractExtents [mkExtent 0 10; mkExtent 20 5] [mkExtent 2 3; mkExtent 8 14] =
    [mkExtent 0 2; mkExtent 5 3; mkExtent 22 3] ∧
  ∀ b, covers [mkExtent 0 2; mkExtent 5 3; mkExtent 22 3] b ↔
    covers [mkExtent 0 10; mkExtent 20 5] b ∧ ¬ covers [mkExtent 2 3; mkExtent 8 14] b.
Proof.
  split; [reflexivity|].
  apply (subtractExtents_correct 64 [mkExtent 0 10; mkExtent 20 5] [mkExtent 2 3; mkExtent 8 14]);
    concrete.
Defined.

(** [unionExtents] of a normalized list with arbitrary in-range extents
    (unsorted, overlapping or empty) returns the canonical list of the union:
    it stands for exactly the union, it is in normal form (sorted, disjoint,
    separated by gaps), and every normal-form list that stands for the same
    blocks is equal to it. *)
Theorem unionExtents_canonical hi left right :
  block_bound hi → wf_extents hi left → Forall (extent_in hi) right →
  (∀ b, covers (unionExtents left right) b ↔ covers left b ∨ covers right b) ∧
  normal_extents hi (unionExtents left right) ∧
  ∀ es, normal_extents hi es → same_blocks es (left ++ right) → es = unionExtents left right.
Proof.
  intros Hhi Hl Hr. destruct (union_spec hi left right Hhi Hl Hr) as [Hn Hc].
  split_and!; [done..|]. intros es Hes Hsame.
  apply (normal_unique_from (-1) (-1) hi); [done..|].
  intros b. by rewrite Hc, Hsame, covers_app.
Qed.

Lemma unionExtents_canonical_witness :
  unionExtents [mkExtent 4 2] [mkExtent 6 1; mkExtent 0 3; mkExtent 2 1; mkExtent 9 0] =
    [mkExtent 0 3; mkExtent 4 3] ∧
  ∀ b, covers [mkExtent 0 3; mkExtent 4 3] b ↔
    covers [mkExtent 4 2] b ∨ covers [mkExtent 6 1; mkExtent 0 3; mkExtent 2 1; mkExtent 9 0] b.
Proof.
  split; [reflexivity|].
  apply (unionExtents_canonical 64 [mkExtent 4 2] [mkExtent 6 1; mkExtent 0 3; mkExtent 2 1; mkExtent 9 0]);
    [concrete..|].
  repeat constructor; concrete.
Defined.

