(* ===== verification/Codec.v ===== *)
(** * Encodings the replicator relies on

    SHA-256, gzip and [encoding/json] are interfaces: a class with the
    functions the source calls and the laws their documentation gives.  The
    hexadecimal encoding, the byte-stream reader ([io.ReadFull],
    [binary.Read]) and the stable-file view of a gzip stream are definitions. *)
From S2P Require Import Prelude.
Local Open Scope Z_scope.

(** ** [crypto/sha256]: [sha256.Sum256] returns 32 bytes. *)
Class Digest : Type := {
  sha256 : bytes → bytes;
  sha256_length : ∀ d, length (sha256 d) = 32%nat;
}.

(** ** Byte streams

    What an [io.Reader] still delivers: the bytes, then [io.EOF] ([None]) or
    another error. *)
Record Stream : Type := mkStream { pending : bytes; final : option error }.

(** [io.ReadFull(r, buf)] with [len(buf) = n]: the bytes read, or the error
    and how many bytes were consumed before it. *)
Definition ReadFull (n : nat) (s : Stream) : result (bytes * Stream) :=
  if (n <=? length (pending s))%nat then
    Ok (take n (pending s), mkStream (drop n (pending s)) (final s))
  else
    match final s with
    | Some e => Err e
    | None => match pending s with [] => Err ErrEOF | _ => Err ErrUnexpectedEOF end
    end.

(** [binary.Read(r, binary.BigEndian, &v)] for a [uint32] / [uint64]. *)
Definition ReadUint (n : nat) (s : Stream) : result (Z * Stream) :=
  '(bs, s') ← ReadFull n s; Ok (be_decode bs, s').

(** ** [compress/gzip]

    [gzip_write] is everything a [gzip.Writer] emits for the bytes written to
    it until [Close]; writes go to a [bytes.Buffer] and do not fail.
    [gzip_open] is [gzip.NewReader]: [None] when the header is refused. *)
Class Gzip : Type := {
  gzip_write : bytes → bytes;
  gzip_open : bytes → option Stream;
  gzip_round_trip : ∀ d, gzip_open (gzip_write d) = Some (mkStream d None);
}.

(** ** [encoding/json]

    [marshalable a] says that the strings of [a] are valid UTF-8 and its times
    are in the range RFC 3339 can express; such a value is marshalled without
    error and unmarshalled to itself. *)
Class Json (A : Type) : Type := {
  Marshal : A → result bytes;
  Unmarshal : bytes → result A;
  marshalable : A → Prop;
  json_round_trip : ∀ a, marshalable a → ∃ b, Marshal a = Ok b ∧ Unmarshal b = Ok a;
}.

(** ** [encoding/hex] *)
Definition hex_digit (z : Z) : Ascii.ascii :=
  Ascii.ascii_of_N (Z.to_N (if z <? 10 then 48 + z else 87 + z)).

(** Value of a hexadecimal digit of either case. *)
Definition hex_value (c : Ascii.ascii) : option Z :=
  let z := Z.of_N (Ascii.N_of_ascii c) in
  if (48 <=? z) && (z <=? 57) then Some (z - 48)
  else if (97 <=? z) && (z <=? 102) then Some (z - 87)
  else if (65 <=? z) && (z <=? 70) then Some (z - 55)
  else None.

Fixpoint hex_EncodeToString (d : bytes) : string :=
  match d with
  | [] => EmptyString
  | b :: rest =>
      String (hex_digit (byte_to_Z b / 16))
        (String (hex_digit (byte_to_Z b `mod` 16)) (hex_EncodeToString rest))
  end.

Fixpoint hex_DecodeString (s : string) : option bytes :=
  match s with
  | EmptyString => Some []
  | String a (String b rest) =>
      match hex_value a, hex_value b, hex_DecodeString rest with
      | Some x, Some y, Some d => Some (byte_of_Z (x * 16 + y) :: d)
      | _, _, _ => None
      end
  | String _ EmptyString => None
  end.

(** ** Lemmas *)

Lemma hex_value_digit z : 0 ≤ z < 16 → hex_value (hex_digit z) = Some z.
Proof.
  intros Hz.
  assert (z ∈ seqZ 0 16) as Hin by (apply elem_of_seqZ; lia).
  revert z Hz Hin.
  assert (Forall (fun z => hex_value (hex_digit z) = Some z) (seqZ 0 16)) as Hall
    by (repeat constructor).
  rewrite Forall_forall in Hall. auto.
Qed.

Lemma hex_round_trip d : hex_DecodeString (hex_EncodeToString d) = Some d.
Proof.
  induction d as [|b d IH]; cbn [hex_EncodeToString hex_DecodeString]; [done|].
  pose proof (byte_to_Z_range b).
  rewrite !hex_value_digit, IH.
  - rewrite <-(byte_of_to_Z b) at 3. do 3 f_equal.
    pose proof (Z.div_mod (byte_to_Z b) 16). lia.
  - apply Z.mod_pos_bound. lia.
  - split; [apply Z.div_pos|apply Z.div_lt_upper_bound]; lia.
Qed.

Lemma hex_inj d1 d2 : hex_EncodeToString d1 = hex_EncodeToString d2 → d1 = d2.
Proof.
  intros H. apply (f_equal hex_DecodeString) in H. rewrite !hex_round_trip in H. congruence.
Qed.

Lemma ReadFull_app n bs rest fin :
  length bs = n → ReadFull n (mkStream (bs ++ rest) fin) = Ok (bs, mkStream rest fin).
Proof.
  intros <-. unfold ReadFull. simpl. rewrite length_app.
  rewrite (proj2 (Nat.leb_le _ _)) by lia. by rewrite take_app_length, drop_app_length.
Qed.

Lemma ReadFull_Ok n s bs s' :
  ReadFull n s = Ok (bs, s') → pending s = bs ++ pending s' ∧ final s' = final s ∧ length bs = n.
Proof.
  unfold ReadFull. destruct (Nat.leb_spec n (length (pending s))).
  - intros [= <- <-]. simpl. rewrite take_drop, length_take. split_and!; [done..|lia].
  - by destruct (final s), (pending s).
Qed.

Lemma ReadUint_app n z rest fin :
  0 ≤ z < 256 ^ Z.of_nat n →
  ReadUint n (mkStream (be_encode n z ++ rest) fin) = Ok (z, mkStream rest fin).
Proof.
  intros Hz. unfold ReadUint. rewrite ReadFull_app by apply be_encode_length.
  simpl. by rewrite be_decode_encode_small.
Qed.

Lemma ReadUint_Ok n s z s' :
  ReadUint n s = Ok (z, s') →
  ∃ bs, pending s = bs ++ pending s' ∧ final s' = final s ∧ length bs = n ∧
    z = be_decode bs ∧ 0 ≤ z < 256 ^ Z.of_nat n.
Proof.
  unfold ReadUint. intros ([bs s1] & Hr & Heq)%result_bind_Ok.
  injection Heq as <- <-. apply ReadFull_Ok in Hr as (? & ? & <-).
  exists bs. split_and!; [done..| |]; apply be_decode_range.
Qed.

(** ** Concrete instances, for evaluation

    [toy_digest] pads or cuts its input to 32 bytes and [plain_gzip] stores
    its input; they satisfy the laws of the classes. *)
Definition toy_digest : Digest.
Proof.
  refine {| sha256 := fun d => take 32 (d ++ replicate 32 x00) |}.
  intros d. rewrite length_take, length_app, length_replicate. lia.
Defined.

Definition plain_gzip : Gzip.
Proof. by refine {| gzip_write := fun d => d; gzip_open := fun d => Some (mkStream d None) |}. Defined.

(** A codec for the values of a table: the encoding is the index, and any other
    value is refused. *)
Definition table_marshal {A} `{EqDecision A} (table : list A) (a : A) : result bytes :=
  match list_find (fun x => x = a) table with Some (i, _) => Ok (be_encode 2 (Z.of_nat i)) | None => Err (Errorf "json") end.
Definition table_unmarshal {A} (table : list A) (b : bytes) : result A :=
  match table !! Z.to_nat (be_decode b) with Some a => Ok a | None => Err (Errorf "json") end.

Lemma table_exact {A} `{EqDecision A} (table : list A) (a : A) b :
  Z.of_nat (length table) ≤ 65536 → table_marshal table a = Ok b → table_unmarshal table b = Ok a.
Proof.
  intros Hlen. unfold table_marshal. destruct (list_find (fun x => x = a) table) as [[i x]|] eqn:Hf; [|done]. intros Hb. assert (be_encode 2 (Z.of_nat i) = b) as <- by congruence.
  apply list_find_Some in Hf as (Hi & -> & _). pose proof (lookup_lt_Some _ _ _ Hi). unfold table_unmarshal.
  rewrite be_decode_encode_small by (change (256 ^ Z.of_nat 2) with 65536; lia). by rewrite Nat2Z.id, Hi.
Qed.

Definition table_json {A} `{EqDecision A} (table : list A) : Json A.
Proof.
  refine {| Marshal := table_marshal table; Unmarshal := table_unmarshal table;
            marshalable := fun a => a ∈ table ∧ Z.of_nat (length table) ≤ 65536 |}.
  intros a [Hin Hlen]. destruct (table_marshal table a) as [b|e] eqn:Hm; [exists b; split; [done|by apply table_exact]|].
  exfalso. unfold table_marshal in Hm. destruct (list_find (fun x => x = a) table) as [[i x]|] eqn:Hf; [done|].
  apply list_find_None in Hf. rewrite Forall_forall in Hf. by destruct (Hf a Hin).
Defined.
