(* ===== verification/File.v ===== *)
(** * Local files ([os.File] and [golang.org/x/sys/unix])

    The sparse image and the device work on one local file.  A file here is
    its content and a script of the outcomes the operating system will give
    the next write, read and fallocate calls: no entry (or [IOk]) is success,
    [IShort n] is a call that transferred [n] bytes and then failed. *)
From S2P Require Import Prelude.
Local Open Scope Z_scope.

Inductive IOutcome : Type := IOk | IShort (n : nat).

Record File : Type := mkFile { content : bytes; script : list IOutcome }.

Definition next_io (f : File) : IOutcome * File :=
  match script f with
  | [] => (IOk, f)
  | o :: rest => (o, mkFile (content f) rest)
  end.

(** [data] written at byte [off]; a write past the end leaves a hole of zeros. *)
Definition write_bytes (c : bytes) (off : nat) (data : bytes) : bytes :=
  take off (c ++ replicate (off - length c) x00) ++ data ++ drop (off + length data) c.

(** [f.WriteAt(data, off)]: the bytes written and the error. *)
Definition WriteAt (f : File) (data : bytes) (off : Z) : File * Z * option error :=
  match next_io f with
  | (IOk, f') => (mkFile (write_bytes (content f) (Z.to_nat off) data) (script f'), Z.of_nat (length data), None)
  | (IShort n, f') =>
      let part := take n data in
      (mkFile (write_bytes (content f) (Z.to_nat off) part) (script f'), Z.of_nat (length part), Some ErrIO)
  end.

(** [f.ReadAt(buf, off)] with [len(buf) = n]: the bytes read and the error
    ([io.EOF] when the file ends first). *)
Definition ReadAt (f : File) (n : nat) (off : Z) : File * bytes * option error :=
  let avail := take n (drop (Z.to_nat off) (content f)) in
  match next_io f with
  | (IOk, f') => (f', avail, if (length avail <? n)%nat then Some ErrEOF else None)
  | (IShort k, f') => (f', take k avail, Some ErrIO)
  end.

(** [f.Truncate(size)] when it succeeds: the file is cut, or grows with zeros. *)
Definition Truncate (f : File) (size : Z) : File :=
  let n := Z.to_nat size in mkFile (take n (content f ++ replicate (n - length (content f)) x00)) (script f).

(** [unix.Fallocate(fd, PUNCH_HOLE|KEEP_SIZE, off, length)]: zeros within the
    file; the call may be refused, and then changes nothing. *)
Definition PunchHole (f : File) (off length : Z) : File * option error :=
  match next_io f with
  | (IOk, f') =>
      let o := Z.to_nat off in
      let n := Nat.min (Z.to_nat length) (List.length (content f) - o) in
      (mkFile (write_bytes (content f) o (replicate n x00)) (script f'), None)
  | (IShort _, f') => (f', Some ErrIO)
  end.

(** [isZero] (segment.go) *)
Definition isZero (data : bytes) : bool := forallb (fun v => Byte.eqb v x00) data.

(** ** Lemmas *)

Lemma Truncate_same f size : Z.of_nat (length (content f)) = size → Truncate f size = f.
Proof.
  intros <-. unfold Truncate. rewrite Nat2Z.id, Nat.sub_diag, app_nil_r, firstn_all. by destruct f.
Qed.

Lemma write_bytes_length c off data :
  (off + length data ≤ length c)%nat → length (write_bytes c off data) = length c.
Proof.
  intros. unfold write_bytes.
  rewrite !length_app, length_take, length_app, length_replicate, length_drop. lia.
Qed.

Lemma write_bytes_in_range c off data :
  (off + length data ≤ length c)%nat →
  write_bytes c off data = take off c ++ data ++ drop (off + length data) c.
Proof.
  intros. unfold write_bytes. replace (off - length c)%nat with 0%nat by lia.
  by rewrite app_nil_r.
Qed.

Lemma write_bytes_lookup c off data i :
  (off + length data ≤ length c)%nat →
  write_bytes c off data !! i =
    if decide (off ≤ i < off + length data)%nat then data !! (i - off)%nat else c !! i.
Proof.
  intros Hle. rewrite write_bytes_in_range by done. case_decide as Hi.
  - rewrite lookup_app_r by (rewrite length_take; lia).
    rewrite lookup_app_l by (rewrite length_take; lia).
    f_equal. rewrite length_take. lia.
  - destruct (decide (i < off)%nat).
    + rewrite lookup_app_l by (rewrite length_take; lia). by rewrite lookup_take_lt by lia.
    + rewrite lookup_app_r by (rewrite length_take; lia).
      rewrite lookup_app_r by (rewrite length_take; lia).
      rewrite lookup_drop. f_equal. rewrite length_take. lia.
Qed.

Lemma isZero_replicate n : isZero (replicate n x00) = true.
Proof. by induction n. Qed.

Lemma isZero_spec data : isZero data = true ↔ data = replicate (length data) x00.
Proof.
  split; [|intros ->; apply isZero_replicate].
  induction data as [|b d IH]; simpl; [done|].
  intros [Hb Hd]%andb_true_iff. apply Byte.byte_dec_bl in Hb as ->. f_equal. auto.
Qed.

(** ** Images as arrays of blocks *)

(** Block [b] of an image, with the block size [bs]. *)
Definition read_block (bs : nat) (c : bytes) (b : Z) : bytes :=
  take bs (drop (Z.to_nat b * bs) c).

Lemma read_block_length bs c b :
  (Z.to_nat b * bs + bs ≤ length c)%nat → length (read_block bs c b) = bs.
Proof. intros. unfold read_block. rewrite length_take, length_drop. lia. Qed.

Lemma read_block_lookup bs c b i :
  (i < bs)%nat → read_block bs c b !! i = c !! (Z.to_nat b * bs + i)%nat.
Proof. intros. unfold read_block. by rewrite lookup_take_lt, lookup_drop. Qed.

(** Writing [n] blocks of data at block [s] replaces exactly those blocks. *)
Lemma read_block_write bs c s data n b :
  (0 < bs)%nat → 0 ≤ s → 0 ≤ b → length data = (n * bs)%nat →
  (Z.to_nat s * bs + n * bs ≤ length c)%nat → (Z.to_nat b * bs + bs ≤ length c)%nat →
  read_block bs (write_bytes c (Z.to_nat s * bs) data) b =
    if decide (s ≤ b < s + Z.of_nat n) then take bs (drop (Z.to_nat (b - s) * bs) data)
    else read_block bs c b.
Proof.
  intros Hbs Hs Hb Hd Hle Hbl.
  assert (length (write_bytes c (Z.to_nat s * bs) data) = length c) as Hlen
    by (apply write_bytes_length; lia).
  apply list_eq_same_length with bs.
  - case_decide as Hin; [|by apply read_block_length].
    rewrite length_take, length_drop, Hd.
    assert (Z.to_nat (b - s) * bs + bs ≤ n * bs)%nat; [|lia].
    assert (S (Z.to_nat (b - s)) ≤ n)%nat by lia. nia.
  - apply read_block_length. lia.
  - intros i x y Hi. rewrite read_block_lookup by done.
    rewrite write_bytes_lookup by lia. rewrite Hd.
    destruct (decide (s ≤ b < s + Z.of_nat n)) as [Hin|Hout].
    + rewrite lookup_take_lt, lookup_drop by done.
      rewrite decide_True by nia.
      replace (Z.to_nat (b - s) * bs + i)%nat with (Z.to_nat b * bs + i - Z.to_nat s * bs)%nat by nia.
      congruence.
    + rewrite read_block_lookup by done. rewrite decide_False by nia. congruence.
Qed.

(** A block of a slice of whole blocks. *)
Lemma block_of_slice bs (data : bytes) start len k :
  (0 < bs)%nat → (k * bs + bs ≤ len)%nat → 
  take bs (drop (k * bs) (take len (drop start data))) = take bs (drop (start + k * bs) data).
Proof.
  intros Hbs Hk. apply list_eq. intros i.
  destruct (decide (i < bs)%nat) as [Hi|Hi].
  - rewrite !lookup_take_lt, !lookup_drop by done.
    rewrite lookup_take_lt by lia. rewrite lookup_drop. f_equal. lia.
  - by rewrite !lookup_take_ge by lia.
Qed.
