(* ===== verification/Segment.v ===== *)
(** * Segments ([internal/replica/segment.go], the generation type of [device.go])

    A generation is split into segments of at most 1024 blocks; a segment is
    the gzip of a magic, the block size and a list of runs of consecutive
    blocks.  The file models encoding, decoding and the application of decoded
    runs to a local image. *)
From S2P Require Import Prelude Extents Codec File.
Local Open Scope Z_scope.

(** ** Generations *)

(** [Generation]: complete 4 KiB blocks by number.  A [*Generation] that may
    be nil is an [option Generation]. *)
Record Generation : Type := mkGeneration {
  GenBlocks : gmap Z bytes;
  gen_bytes : Z;
  journalSeq : Z;
}.

Definition Empty (g : option Generation) : bool :=
  match g with
  | None => true
  | Some g => bool_decide (size (GenBlocks g) = 0%nat)
  end.

Definition Generation_Bytes (g : option Generation) : Z :=
  match g with
  | None => 0
  | Some g =>
      if negb (gen_bytes g =? 0) then gen_bytes g
      else foldr (fun kv n => Z.of_nat (length kv.2) + n) 0 (map_to_list (GenBlocks g))
  end.

Definition sortedBlocks (g : Generation) : list Z :=
  merge_sort Z.le (map_to_list (GenBlocks g)).*1.

(** [g.Blocks[block]]: a missing key reads as the nil slice. *)
Definition block_data (g : Generation) (block : Z) : bytes := default [] (GenBlocks g !! block).

(** ** Segment encoding *)

Definition segmentMagic : string := "SATSEG01".
Definition DefaultSegmentBlocks : Z := 1024.
Definition maxRunBlocks : Z := 256.
Definition maxImageBlocks : Z := MaxInt64 / DefaultBlockSize.

Record Segment : Type := mkSegment {
  seg_Data : bytes;
  seg_SHA256 : string;
  seg_Bytes : Z;
  seg_Blocks : Z;
  seg_Extents : list Extent;
  seg_ZeroExtents : list Extent;
}.

Definition zeroExtents (g : Generation) (blocks : list Z) : list Extent :=
  blocksToExtents (List.filter (fun block => isZero (block_data g block)) blocks).

(** The loop that groups blocks into runs; [runs] is the result so far, last
    run first and each run last block first. *)
Fixpoint build_runs (g : Generation) (runs : list (list Z)) (blocks : list Z)
    : result (list (list Z)) :=
  match blocks with
  | [] => Ok (reverse (reverse <$> runs))
  | block :: rest =>
      if negb (Z.of_nat (length (block_data g block)) =? DefaultBlockSize) then
        Err (Errorf "block %d has length %d, want %d")
      else
        match runs with
        | (last :: _) as run :: others =>
            if negb (block =? u64 (last + 1)) || (maxRunBlocks <=? Z.of_nat (length run))
            then build_runs g ([block] :: runs) rest
            else build_runs g ((block :: run) :: others) rest
        | _ => build_runs g ([block] :: runs) rest
        end
  end.

(** One run: first block, byte length, block data. *)
Definition run_bytes (g : Generation) (run : list Z) : bytes :=
  be_encode 8 (default 0 (head run)) ++
  be_encode 4 (u32 (Z.of_nat (length run) * DefaultBlockSize)) ++
  concat (block_data g <$> run).

Definition segment_payload (g : Generation) (runs : list (list Z)) : bytes :=
  string_bytes segmentMagic ++
  be_encode 4 DefaultBlockSize ++
  be_encode 4 (u32 (Z.of_nat (length runs))) ++
  concat (run_bytes g <$> runs).

Definition run_extent (run : list Z) : Extent :=
  mkExtent (default 0 (head run)) (Z.of_nat (length run)).

Definition encodeSegmentBlocks `{Digest} `{Gzip} (g : Generation) (blocks : list Z) : result Segment :=
  runs ← build_runs g [] blocks;
  let data := gzip_write (segment_payload g runs) in
  Ok {| seg_Data := data;
        seg_SHA256 := hex_EncodeToString (sha256 data);
        seg_Bytes := Z.of_nat (length data);
        seg_Blocks := Z.of_nat (length blocks);
        seg_Extents := run_extent <$> runs;
        seg_ZeroExtents := zeroExtents g blocks |}.

Definition EncodeSegment `{Digest} `{Gzip} (g : option Generation) : result Segment :=
  match g with
  | Some gen =>
      if Empty g then Err (Errorf "cannot encode an empty generation")
      else encodeSegmentBlocks gen (sortedBlocks gen)
  | None => Err (Errorf "cannot encode an empty generation")
  end.

(** The workers of [EncodeSegments] encode the slices
    [blocks[index*n : min(len, (index+1)*n)]] independently; the result is the
    list in index order, or an error when any slice failed (the source returns
    whichever worker failed first, here the failure of least index). *)
Fixpoint encode_slices `{Digest} `{Gzip} (g : Generation) (blocks : list Z) (n : nat)
    (indexes : list nat) : result (list Segment) :=
  match indexes with
  | [] => Ok []
  | index :: rest =>
      let start := (index * n)%nat in
      let stop := Nat.min (length blocks) (start + n) in
      segment ← encodeSegmentBlocks g (take (stop - start) (drop start blocks));
      segments ← encode_slices g blocks n rest;
      Ok (segment :: segments)
  end.

Definition EncodeSegments `{Digest} `{Gzip} (g : option Generation) (blocksPerSegment : Z)
    : result (list Segment) :=
  match g with
  | None => Err (Errorf "cannot encode an empty generation")
  | Some gen =>
      if Empty g then Err (Errorf "cannot encode an empty generation") else
      let blocksPerSegment :=
        if blocksPerSegment <=? 0 then DefaultSegmentBlocks else blocksPerSegment in
      let blocks := sortedBlocks gen in
      let count := (Z.of_nat (length blocks) - 1) `quot` blocksPerSegment + 1 in
      if count =? 1 then
        segment ← EncodeSegment g; Ok [segment]
      else
        encode_slices gen blocks (Z.to_nat blocksPerSegment) (seq 0 (Z.to_nat count))
  end.

(** ** Segment decoding *)

Record decodedRun : Type := mkRun { extent : Extent; run_data : bytes }.

(** The [for i := 0; i < runCount; i++] loop: [n] runs are left. *)
Fixpoint decode_runs (n : nat) (first : bool) (lastEnd blocks segBlocks : Z) (s : Stream)
    : result (list decodedRun * Z * Stream) :=
  match n with
  | O => Ok ([], blocks, s)
  | S n' =>
      '(block, s) ← ReadUint 8 s;
      '(length, s) ← ReadUint 4 s;
      _ ← fail_if ((length =? 0) || negb (length `mod` DefaultBlockSize =? 0)
                   || (u32 (maxRunBlocks * DefaultBlockSize) <? length))
            (Errorf "segment contains an invalid extent");
      let extent := mkExtent block (length / DefaultBlockSize) in
      _ ← fail_if (segBlocks - blocks <? Blocks extent)
            (Errorf "segment block count exceeds its manifest");
      _ ← fail_if ((extent_end extent <? Start extent) || (maxImageBlocks <? extent_end extent)
                   || (negb first && (Start extent <? lastEnd)))
            (Errorf "segment contains overlapping or out-of-range extents");
      '(data, s) ← ReadFull (Z.to_nat length) s;
      '(rest, total, s) ←
        decode_runs n' false (extent_end extent) (blocks + Blocks extent) segBlocks s;
      Ok (mkRun extent data :: rest, total, s)
  end.

Definition decodeSegment `{Digest} `{Gzip} (segment : Segment) : result (list decodedRun) :=
  _ ← fail_if (negb (seg_Bytes segment =? 0) &&
               negb (seg_Bytes segment =? Z.of_nat (length (seg_Data segment))))
        (Errorf "segment length mismatch");
  _ ← fail_if (negb (bool_decide (hex_EncodeToString (sha256 (seg_Data segment)) = seg_SHA256 segment)))
        (Errorf "segment checksum mismatch");
  zr ← match gzip_open (seg_Data segment) with
       | Some s => Ok s
       | None => Err (Errorf "open segment: %w")
       end;
  '(header, zr) ← ReadFull 8 zr;
  _ ← fail_if (negb (bytes_Equal header (string_bytes segmentMagic))) (Errorf "invalid segment magic");
  '(blockSize, zr) ← ReadUint 4 zr;
  _ ← fail_if (negb (blockSize =? DefaultBlockSize)) (Errorf "unsupported segment block size %d");
  '(runCount, zr) ← ReadUint 4 zr;
  _ ← fail_if ((seg_Blocks segment <=? 0) || (seg_Blocks segment <? runCount))
        (Errorf "segment has an invalid run count");
  '(runs, blocks, zr) ← decode_runs (Z.to_nat runCount) true 0 0 (seg_Blocks segment) zr;
  _ ← match pending zr, final zr with
      | [], None => Ok tt
      | _, _ => Err (Errorf "segment has trailing or unreadable data")
      end;
  _ ← fail_if (negb (seg_Blocks segment =? 0) && negb (seg_Blocks segment =? blocks))
        (Errorf "segment block count mismatch");
  Ok runs.

(** ** Applying runs to an image *)

(** The inner loop of [applyRuns] over the overlaps of one run. *)
Fixpoint apply_overlaps (f : File) (imageBlocks : Z) (run : decodedRun) (overlaps : list Extent)
    : File * option error :=
  match overlaps with
  | [] => (f, None)
  | overlap :: rest =>
      if (extent_end overlap <? Start overlap) || (imageBlocks <? extent_end overlap) then
        (f, Some (Errorf "segment contains an extent outside the image"))
      else
        let offset := i64 (Start overlap * DefaultBlockSize) in
        let len := i64 (Blocks overlap * DefaultBlockSize) in
        let start := u64 ((Start overlap - Start (extent run)) * DefaultBlockSize) in
        let data := take (Z.to_nat len) (drop (Z.to_nat start) (run_data run)) in
        let '(f1, err) :=
          if isZero data then
            match PunchHole f offset len with
            | (f', None) => (f', None)
            | (f', Some _) => let '(f'', _, werr) := WriteAt f' data offset in (f'', werr)
            end
          else let '(f', _, werr) := WriteAt f data offset in (f', werr) in
        match err with
        | Some e => (f1, Some e)
        | None => apply_overlaps f1 imageBlocks run rest
        end
  end.

Fixpoint apply_runs_loop (f : File) (imageBlocks : Z) (selected : list Extent) (runs : list decodedRun)
    : File * option error :=
  match runs with
  | [] => (f, None)
  | run :: rest =>
      match apply_overlaps f imageBlocks run (intersectExtent (extent run) selected) with
      | (f', Some e) => (f', Some e)
      | (f', None) => apply_runs_loop f' imageBlocks selected rest
      end
  end.

(** [applyRuns]; [selected = None] is the nil slice, which selects everything. *)
Definition applyRuns (f : File) (size : Z) (runs : list decodedRun) (selected : option (list Extent))
    : File * option error :=
  let selected := match selected with Some s => s | None => extent <$> runs end in
  if size <? 0 then (f, Some (Errorf "segment cannot be applied to a negative-size image"))
  else apply_runs_loop f (size `quot` DefaultBlockSize) selected runs.

Definition ApplySegment `{Digest} `{Gzip} (f : File) (size : Z) (segment : Segment) : File * option error :=
  match decodeSegment segment with
  | Err e => (f, Some e)
  | Ok runs => applyRuns f size runs None
  end.

(** ** Sorted block lists *)

Lemma sortedBlocks_spec g :
  StronglySorted Z.lt (sortedBlocks g) ∧
  (∀ b, b ∈ sortedBlocks g ↔ is_Some (GenBlocks g !! b)) ∧
  length (sortedBlocks g) = size (GenBlocks g).
Proof.
  unfold sortedBlocks. set (ks := (map_to_list (GenBlocks g)).*1).
  pose proof (merge_sort_Permutation Z.le ks) as Hp.
  assert (NoDup (merge_sort Z.le ks)) as Hnd by (rewrite Hp; apply NoDup_fst_map_to_list).
  assert (StronglySorted Z.le (merge_sort Z.le ks)) as Hs
    by (apply StronglySorted_merge_sort; apply _).
  split_and!.
  - clear Hp. induction Hs as [|x l Hs IH Hf]; constructor.
    + apply IH. by apply NoDup_cons in Hnd as [_ ?].
    + apply NoDup_cons in Hnd as [Hx _]. rewrite Forall_forall in Hf |- *.
      intros y Hy. specialize (Hf y Hy). assert (x ≠ y) by (by intros ->). lia.
  - intros b. rewrite Hp. unfold ks. rewrite list_elem_of_fmap. split.
    + intros ([k v] & -> & Hkv). apply elem_of_map_to_list in Hkv. by exists v.
    + intros [v Hv]. exists (b, v). split; [done|]. by apply elem_of_map_to_list.
  - rewrite Hp. unfold ks. by rewrite length_fmap, length_map_to_list.
Qed.

(** ** Runs as extents *)

(** The block numbers of an extent, in order. *)
Definition expand (e : Extent) : list Z := seqZ (Start e) (Blocks e).

Definition run_ok (e : Extent) : Prop := 0 < Blocks e ≤ maxRunBlocks.

Lemma expand_length e : length (expand e) = Z.to_nat (Blocks e).
Proof. apply length_seqZ. Qed.

Lemma elem_of_expand e b : b ∈ expand e ↔ in_extent e b.
Proof. unfold expand, in_extent. by rewrite elem_of_seqZ. Qed.

Lemma expand_snoc s n : 0 ≤ n → expand (mkExtent s (n + 1)) = expand (mkExtent s n) ++ [s + n].
Proof.
  intros. unfold expand. simpl. rewrite seqZ_app by lia. f_equal.
Qed.

Lemma expand_rev_last s n :
  0 < n → reverse (expand (mkExtent s n)) = (s + n - 1) :: reverse (expand (mkExtent s (n - 1))).
Proof.
  intros. replace n with ((n - 1) + 1) at 1 by lia. rewrite expand_snoc by lia.
  rewrite reverse_app. simpl. f_equal. lia.
Qed.

Lemma expand_one b : expand (mkExtent b 1) = [b].
Proof. done. Qed.

Lemma covers_expand es b : covers es b ↔ b ∈ concat (expand <$> es).
Proof.
  induction es as [|e es IH]; simpl.
  - by rewrite covers_nil, elem_of_nil.
  - by rewrite covers_cons, elem_of_app, elem_of_expand, IH.
Qed.

Lemma expand_wf lo hi es :
  Forall (fun e => 0 < Blocks e) es → StronglySorted Z.lt (concat (expand <$> es)) →
  Forall (fun b => lo ≤ b < hi) (concat (expand <$> es)) → wf_from lo hi es.
Proof.
  revert lo. induction es as [|e es IH]; intros lo Hpos Hs Hf; [done|].
  apply Forall_cons in Hpos as [He Hpos]. cbn [fmap list_fmap concat] in Hs, Hf.
  apply Forall_app in Hf as [Hfe Hf].
  apply StronglySorted_app in Hs as (Hlt & _ & Hs).
  rewrite Forall_forall in Hfe.
  assert (lo ≤ Start e ∧ Start e + Blocks e ≤ hi) as [? ?].
  { pose proof (Hfe (Start e)) as H1. pose proof (Hfe (Start e + Blocks e - 1)) as H2.
    rewrite elem_of_expand in H1, H2. unfold in_extent in *. lia. }
  cbn [wf_from]. split_and!; [done..|]. apply IH; [done..|].
  rewrite Forall_forall in Hf |- *. intros b Hb. specialize (Hf b Hb).
  specialize (Hlt (Start e + Blocks e - 1) b). rewrite elem_of_expand in Hlt.
  unfold in_extent in Hlt. specialize (Hlt ltac:(lia) Hb). lia.
Qed.

Lemma block_count_concat es :
  Forall (fun e => 0 < Blocks e) es → Z.of_nat (length (concat (expand <$> es))) = block_count es.
Proof.
  unfold block_count. induction 1 as [|e es He _ IH]; csimpl; [done|].
  rewrite length_app, expand_length. lia.
Qed.

Lemma run_extent_expand e : 0 < Blocks e → run_extent (expand e) = e.
Proof.
  destruct e as [s n]. intros Hn. simpl in Hn. unfold run_extent, expand. cbn [Start Blocks].
  rewrite length_seqZ. rewrite seqZ_cons by lia. simpl. f_equal. lia.
Qed.

Section build_runs.
Context (g : Generation) (hi : Z) (Hhi : block_bound hi).

Definition blocks_ok (blocks : list Z) : Prop :=
  Forall (fun b => Z.of_nat (length (block_data g b)) = DefaultBlockSize) blocks.

Lemma build_runs_spec E blocks :
  Forall run_ok E → Forall (extent_in hi) E →
  blocks_ok blocks → StronglySorted Z.lt blocks → Forall (fun b => 0 ≤ b < hi) blocks →
  match E with [] => True | e :: _ => Forall (fun b => Start e + Blocks e ≤ b) blocks end →
  ∃ E', build_runs g ((fun e => reverse (expand e)) <$> E) blocks = Ok (expand <$> E') ∧
    Forall run_ok E' ∧ concat (expand <$> E') = concat (expand <$> reverse E) ++ blocks.
Proof.
  revert E. induction blocks as [|b bs IH]; intros E HE HEin Hok Hs Hr Hlast.
  { exists (reverse E). cbn [build_runs]. split_and!.
    - assert (reverse <$> ((fun e => reverse (expand e)) <$> E) = expand <$> E) as ->.
      { rewrite <-list_fmap_compose. apply list_fmap_ext. intros i e _. apply reverse_involutive. }
      by rewrite fmap_reverse.
    - by apply Forall_reverse.
    - by rewrite app_nil_r. }
  apply Forall_cons in Hok as [Hb Hok]. apply Forall_cons in Hr as [Hbr Hr].
  apply StronglySorted_inv in Hs as [Hs Hlt].
  cbn [build_runs]. rewrite Hb, Z.eqb_refl. cbn [negb].
  assert (Hnew : ∃ E', build_runs g ([b] :: ((fun e => reverse (expand e)) <$> E)) bs = Ok (expand <$> E') ∧
    Forall run_ok E' ∧ concat (expand <$> E') = concat (expand <$> reverse E) ++ b :: bs).
  { destruct (IH (mkExtent b 1 :: E)) as (E' & H1 & H2 & H3).
    - constructor; [by vm_compute|done].
    - constructor; [|done]. unfold extent_in. simpl. lia.
    - done.
    - done.
    - done.
    - simpl. eapply Forall_impl; [exact Hlt|]. simpl. lia.
    - exists E'. split_and!; [done..|]. rewrite H3, reverse_cons, fmap_app, concat_app.
      simpl. by rewrite <-app_assoc. }
  destruct E as [|[s n] E]; [exact Hnew|].
  apply Forall_cons in HE as [Hn HE]. apply Forall_cons in HEin as [Hin HEin].
  apply Forall_cons in Hlast as [Hlast _].
  unfold run_ok, extent_in, block_bound in *. cbn [Start Blocks] in *.
  cbn [fmap list_fmap] in *.
  rewrite expand_rev_last in * by lia. cbn [length]. rewrite length_reverse, expand_length. cbn [Blocks].
  destruct (_ || _) eqn:Ec; [exact Hnew|]. zbool. rewrite u64_small in * by lia.
  destruct (IH (mkExtent s (n + 1) :: E)) as (E' & H1 & H2 & H3).
  - constructor; [|done]. simpl. unfold maxRunBlocks in *. lia.
  - constructor; [|done]. simpl. lia.
  - done.
  - done.
  - done.
  - simpl. eapply Forall_impl; [exact Hlt|]. simpl. lia.
  - exists E'. split_and!; [|done|].
    + rewrite <-H1. f_equal. cbn [fmap list_fmap]. f_equal.
      rewrite (expand_rev_last s (n + 1)) by lia. replace (n + 1 - 1) with n by lia.
      rewrite (expand_rev_last s n) by lia. f_equal. lia.
    + rewrite H3, !reverse_cons, !fmap_app, !concat_app. cbn [fmap list_fmap concat].
      rewrite !app_nil_r, expand_snoc by lia. rewrite <-!app_assoc. simpl.
      do 3 f_equal. lia.
Qed.

Lemma build_runs_sorted blocks :
  blocks_ok blocks → StronglySorted Z.lt blocks → Forall (fun b => 0 ≤ b < hi) blocks →
  ∃ E, build_runs g [] blocks = Ok (expand <$> E) ∧ Forall run_ok E ∧
    wf_extents hi E ∧ concat (expand <$> E) = blocks.
Proof.
  intros Hok Hs Hr. destruct (build_runs_spec [] blocks) as (E & H1 & H2 & H3); [done|done|done|done|done|done|].
  exists E. simpl in H3. split_and!; [done..| |done].
  apply expand_wf; [|by rewrite H3..].
  eapply Forall_impl; [done|]. unfold run_ok. lia.
Qed.
End build_runs.

(** ** Decoding what was encoded *)

(** The run [decodeSegment] returns for the extent [e] of generation [g]. *)
Definition encoded_run (g : Generation) (e : Extent) : decodedRun :=
  mkRun e (concat (block_data g <$> expand e)).

Lemma blocks_data_length g blocks :
  blocks_ok g blocks →
  Z.of_nat (length (concat (block_data g <$> blocks))) = Z.of_nat (length blocks) * DefaultBlockSize.
Proof.
  induction 1 as [|b bs Hb _ IH]; [done|]. cbn [fmap list_fmap concat length].
  rewrite length_app. lia.
Qed.

Lemma maxImageBlocks_bound : block_bound maxImageBlocks.
Proof. concrete. Qed.

Section decode_encode.
Context (g : Generation) (segBlocks : Z).

Lemma decode_runs_encode E first lastEnd blocks fin rest :
  0 ≤ lastEnd → 0 ≤ blocks → Forall run_ok E → wf_from lastEnd maxImageBlocks E →
  blocks_ok g (concat (expand <$> E)) → blocks + block_count E ≤ segBlocks →
  decode_runs (length E) first lastEnd blocks segBlocks
    (mkStream (concat (run_bytes g <$> (expand <$> E)) ++ rest) fin) =
  Ok (encoded_run g <$> E, blocks + block_count E, mkStream rest fin).
Proof.
  revert first lastEnd blocks.
  induction E as [|e E IH]; intros first lastEnd blocks Hle Hb Hrun Hwf Hok Hsum.
  { simpl. by rewrite Z.add_0_r. }
  pose proof maxImageBlocks_bound as HM.
  pose proof (wf_cons_end _ _ _ _ HM Hle Hwf) as (Hlo & Hpos & Hhi & Hend & Hwf').
  apply Forall_cons in Hrun as [Hr Hrun]. unfold run_ok, maxRunBlocks in Hr.
  apply Forall_app in Hok as [Hoke Hok].
  cbn [block_count foldr] in Hsum. fold (block_count E) in Hsum.
  assert (0 ≤ block_count E) as Hcnt.
  { rewrite <-block_count_concat; [lia|]. eapply Forall_impl; [exact Hrun|]. unfold run_ok. lia. }
  assert (maxImageBlocks < 2 ^ 64) by by vm_compute.
  cbn [length decode_runs fmap list_fmap concat]. unfold run_bytes at 1. rewrite <-!app_assoc.
  assert (head (expand e) = Some (Start e)) as ->.
  { unfold expand. by rewrite seqZ_cons by lia. }
  change (default 0 (Some (Start e))) with (Start e). rewrite ReadUint_app by (change (256 ^ Z.of_nat 8) with (2 ^ 64); lia).
  cbn [mbind result_mbind]. rewrite expand_length, Z2Nat.id by lia.
  unfold DefaultBlockSize, maxRunBlocks in *.
  assert (u32 (Blocks e * 4096) = Blocks e * 4096) as -> by (unfold u32; rewrite Z.mod_small; lia).
  rewrite ReadUint_app by (change (256 ^ Z.of_nat 4) with (2 ^ 32); lia).
  cbn [mbind result_mbind]. rewrite Z.div_mul, Z.mod_mul by lia.
  change (u32 (256 * 4096)) with 1048576.
  assert (mkExtent (Start e) (Blocks e) = e) as -> by (by destruct e).
  rewrite (proj2 (Z.eqb_neq _ 0)), (proj2 (Z.ltb_ge 1048576 _)) by lia.
  cbn [Z.eqb negb orb fail_if mbind result_mbind].
  rewrite (proj2 (Z.ltb_ge (segBlocks - blocks) _)), Hend by lia.
  rewrite (proj2 (Z.ltb_ge _ (Start e))), (proj2 (Z.ltb_ge maxImageBlocks _)),
    (proj2 (Z.ltb_ge _ lastEnd)), andb_false_r by lia.
  cbn [orb fail_if mbind result_mbind].
  rewrite ReadFull_app.
  2: { apply blocks_data_length in Hoke. rewrite expand_length in Hoke. unfold DefaultBlockSize in Hoke. lia. }
  cbn [mbind result_mbind]. rewrite IH by (done || lia).
  cbn [mbind result_mbind]. cbn [block_count foldr]. fold (block_count E). by rewrite Z.add_assoc.
Qed.
End decode_encode.

Section encode.
Context `{Digest} `{Gzip}.

Lemma encodeSegmentBlocks_spec g blocks :
  blocks ≠ [] → blocks_ok g blocks → StronglySorted Z.lt blocks →
  Forall (fun b => 0 ≤ b < maxImageBlocks) blocks → Z.of_nat (length blocks) < 2 ^ 32 →
  ∃ seg E, encodeSegmentBlocks g blocks = Ok seg ∧
    decodeSegment seg = Ok (encoded_run g <$> E) ∧
    wf_extents maxImageBlocks E ∧ Forall run_ok E ∧ concat (expand <$> E) = blocks ∧
    seg_Extents seg = E ∧ seg_ZeroExtents seg = zeroExtents g blocks ∧
    seg_Blocks seg = Z.of_nat (length blocks) ∧
    seg_SHA256 seg = hex_EncodeToString (sha256 (seg_Data seg)) ∧
    seg_Bytes seg = Z.of_nat (length (seg_Data seg)).
Proof.
  intros Hne Hok Hs Hr Hlen.
  destruct (build_runs_sorted g maxImageBlocks maxImageBlocks_bound blocks Hok Hs Hr)
    as (E & Hb & Hrun & Hwf & Hcat).
  assert (Forall (fun e => 0 < Blocks e) E) as Hpos.
  { eapply Forall_impl; [exact Hrun|]. unfold run_ok. lia. }
  assert ((run_extent <$> (expand <$> E)) = E) as HE.
  { rewrite <-list_fmap_compose. rewrite <-(list_fmap_id E) at 2. apply list_fmap_ext.
    intros i e Hi. apply run_extent_expand. rewrite Forall_forall in Hpos.
    by eapply Hpos, list_elem_of_lookup_2. }
  pose proof (block_count_concat E Hpos) as Hcnt. rewrite Hcat in Hcnt.
  assert (Z.of_nat (length E) ≤ Z.of_nat (length blocks)) as HlenE.
  { rewrite Hcnt. clear -Hpos. unfold block_count. induction Hpos; simpl; lia. }
  unfold encodeSegmentBlocks. rewrite Hb. cbn [mbind result_mbind].
  eexists _, E. split; [reflexivity|]. cbn [seg_Extents seg_ZeroExtents seg_Blocks seg_SHA256 seg_Data seg_Bytes].
  split; [|by split_and!].
  unfold decodeSegment. cbn [seg_Extents seg_ZeroExtents seg_Blocks seg_SHA256 seg_Data seg_Bytes].
  rewrite Z.eqb_refl, andb_false_r. cbn [fail_if mbind result_mbind].
  rewrite bool_decide_eq_true_2 by done. cbn [negb fail_if mbind result_mbind].
  rewrite gzip_round_trip. cbn [mbind result_mbind]. unfold segment_payload.
  rewrite (ReadFull_app 8) by done. cbn [mbind result_mbind].
  rewrite bytes_Equal_refl. cbn [negb fail_if mbind result_mbind].
  rewrite ReadUint_app by by vm_compute. cbn [mbind result_mbind].
  rewrite Z.eqb_refl. cbn [negb fail_if mbind result_mbind].
  rewrite length_fmap. unfold u32 at 1. rewrite Z.mod_small by lia.
  rewrite ReadUint_app by (change (256 ^ Z.of_nat 4) with (2 ^ 32); lia).
  cbn [mbind result_mbind].
  assert (0 < Z.of_nat (length blocks)) by (destruct blocks; [done|simpl; lia]).
  rewrite (proj2 (Z.leb_gt _ 0)), (proj2 (Z.ltb_ge (Z.of_nat (length blocks)) _)) by lia.
  cbn [orb fail_if mbind result_mbind]. rewrite Nat2Z.id.
  rewrite <-(app_nil_r (concat (run_bytes g <$> _))).
  rewrite (decode_runs_encode g _ E true 0 0 None []) by (rewrite ?Hcat; done || lia).
  cbn [mbind result_mbind pending final]. rewrite Z.add_0_l, <-Hcnt, Z.eqb_refl, andb_false_r.
  done.
Qed.
End encode.

(** ** Applying runs *)

#[export] Instance in_extent_dec e b : Decision (in_extent e b).
Proof. unfold in_extent. apply _. Defined.
#[export] Instance covers_dec es b : Decision (covers es b).
Proof. unfold covers. apply _. Defined.

Definition blockBytes : nat := Z.to_nat DefaultBlockSize.

Lemma blockBytes_Z : Z.of_nat blockBytes = DefaultBlockSize.
Proof. apply Z2Nat.id. by vm_compute. Qed.

Lemma blockBytes_pos : (0 < blockBytes)%nat.
Proof. pose proof blockBytes_Z. unfold DefaultBlockSize in *. lia. Qed.

(** Block [b] of a run. *)
Definition run_block (run : decodedRun) (b : Z) : bytes :=
  take blockBytes (drop (Z.to_nat (b - Start (extent run)) * blockBytes) (run_data run)).

(** The data a list of runs gives block [b]; a later run wins. *)
Fixpoint runs_lookup (runs : list decodedRun) (b : Z) : option bytes :=
  match runs with
  | [] => None
  | run :: rest =>
      match runs_lookup rest b with
      | Some d => Some d
      | None => if decide (in_extent (extent run) b) then Some (run_block run b) else None
      end
  end.

(** What [decodeSegment] guarantees of one run. *)
Definition run_wf (run : decodedRun) : Prop :=
  extent_in maxImageBlocks (extent run) ∧ 0 < Blocks (extent run) ∧
  Z.of_nat (length (run_data run)) = Blocks (extent run) * DefaultBlockSize.

Definition image_of (f : File) (imageBlocks : Z) : Prop :=
  script f = [] ∧ 0 ≤ imageBlocks ≤ maxImageBlocks ∧
  imageBlocks * DefaultBlockSize ≤ Z.of_nat (length (content f)).

(** Blocks of a byte count that fits an [int64]. *)
Lemma blocks_int64 n : 0 ≤ n ≤ maxImageBlocks → 0 ≤ n * DefaultBlockSize < 2 ^ 63.
Proof.
  intros. assert (maxImageBlocks * DefaultBlockSize < 2 ^ 63) by by vm_compute.
  unfold DefaultBlockSize in *. lia.
Qed.

Lemma Z_to_nat_blocks n : 0 ≤ n → Z.to_nat (n * DefaultBlockSize) = (Z.to_nat n * blockBytes)%nat.
Proof. intros. pose proof blockBytes_Z. unfold DefaultBlockSize in *. nia. Qed.

Lemma image_block_in f imageBlocks b :
  image_of f imageBlocks → 0 ≤ b < imageBlocks →
  (Z.to_nat b * blockBytes + blockBytes ≤ length (content f))%nat.
Proof.
  intros (_ & ? & Hlen) Hb. pose proof blockBytes_Z. unfold DefaultBlockSize in *. nia.
Qed.

(** A hole and an explicit write of zeros leave the same image. *)
Lemma punch_or_write f off data :
  script f = [] → (Z.to_nat off + length data ≤ length (content f))%nat →
  (if isZero data then
     match PunchHole f off (Z.of_nat (length data)) with
     | (f', None) => (f', None)
     | (f', Some _) => let '(f'', _, werr) := WriteAt f' data off in (f'', werr)
     end
   else let '(f', _, werr) := WriteAt f data off in (f', werr)) =
  (mkFile (write_bytes (content f) (Z.to_nat off) data) [], None).
Proof.
  destruct f as [c sc]. simpl. intros -> Hle. unfold WriteAt, PunchHole. simpl.
  destruct (isZero data) eqn:E; [|done].
  apply isZero_spec in E. rewrite Nat2Z.id, Nat.min_l by lia. by rewrite <-E.
Qed.

Lemma apply_overlaps_spec f imageBlocks run overlaps lo :
  image_of f imageBlocks → run_wf run → 0 ≤ lo →
  wf_from lo imageBlocks overlaps → (∀ b, covers overlaps b → in_extent (extent run) b) →
  ∃ c', apply_overlaps f imageBlocks run overlaps = (mkFile c' [], None) ∧
    length c' = length (content f) ∧
    ∀ b, 0 ≤ b < imageBlocks → read_block blockBytes c' b =
      if decide (covers overlaps b) then run_block run b else read_block blockBytes (content f) b.
Proof.
  revert f lo. induction overlaps as [|ov rest IH]; intros f lo Him Hrun Hlo Hwf Hsub.
  { exists (content f). destruct f as [c sc], Him as [Hsc _]. cbn [content script] in *. subst.
    split_and!; [done..|]. intros b _. rewrite decide_False; [done|]. by intros ?%covers_nil. }
  pose proof Him as (Hsc & Himg & Hlen). pose proof Hrun as ((Hr1 & Hr2 & Hr3) & Hrpos & Hrlen).
  assert (block_bound imageBlocks) as Hbb.
  { pose proof maxImageBlocks_bound. unfold block_bound in *. lia. }
  pose proof (wf_cons_end _ _ _ _ Hbb Hlo Hwf) as (Hov1 & Hov2 & Hov3 & Hend & Hwf').
  assert (Start (extent run) ≤ Start ov ∧ Start ov + Blocks ov ≤ Start (extent run) + Blocks (extent run))
    as [Hin1 Hin2].
  { pose proof (Hsub (Start ov)) as H1. pose proof (Hsub (Start ov + Blocks ov - 1)) as H2.
    rewrite covers_cons in H1, H2. unfold in_extent in *. lia. }
  cbn [apply_overlaps]. rewrite Hend.
  rewrite (proj2 (Z.ltb_ge _ (Start ov))), (proj2 (Z.ltb_ge imageBlocks _)) by lia. cbn [orb].
  pose proof (blocks_int64 (Start ov) ltac:(lia)). pose proof (blocks_int64 (Blocks ov) ltac:(lia)).
  pose proof (blocks_int64 (Start ov - Start (extent run)) ltac:(lia)).
  rewrite !i64_small by (unfold is_i64; lia). rewrite u64_small by lia.
  set (data := take _ (drop _ (run_data run))).
  assert (Z.of_nat (length data) = Blocks ov * DefaultBlockSize) as Hdl.
  { subst data. rewrite length_take, length_drop. unfold DefaultBlockSize in *. lia. }
  assert (length data = (Z.to_nat (Blocks ov) * blockBytes)%nat) as Hdl'.
  { rewrite <-Z_to_nat_blocks by lia. lia. }
  rewrite <-Hdl. rewrite punch_or_write; [|done|].
  2: { unfold DefaultBlockSize in *. lia. }
  rewrite Z_to_nat_blocks by lia.
  set (c1 := write_bytes _ _ _).
  assert (length c1 = length (content f)) as Hc1.
  { apply write_bytes_length. pose proof (image_block_in f imageBlocks (Start ov + Blocks ov - 1) Him ltac:(lia)). nia. }
  destruct (IH (mkFile c1 []) (Start ov + Blocks ov)) as (c' & Ha & Hl & Hb).
  - unfold image_of. simpl. by rewrite Hc1.
  - done.
  - lia.
  - done.
  - intros b Hc. apply Hsub. rewrite covers_cons. by right.
  - exists c'. split_and!; [done|simpl in Hl; congruence|]. intros b Hbr. rewrite Hb by done. cbn [content].
    unfold c1. rewrite (read_block_write _ _ _ _ (Z.to_nat (Blocks ov)));
      [|apply blockBytes_pos|lia|lia|done| |by eapply image_block_in].
    2: { pose proof (image_block_in f imageBlocks (Start ov + Blocks ov - 1) Him ltac:(lia)). nia. }
    rewrite Z2Nat.id by lia.
    destruct (decide (covers rest b)) as [Hc|Hc].
    { rewrite decide_True; [done|]. rewrite covers_cons. by right. }
    destruct (decide (Start ov ≤ b < Start ov + Blocks ov)) as [Hov|Hov].
    + rewrite decide_True by (rewrite covers_cons; by left).
      subst data. rewrite !Z_to_nat_blocks by lia. rewrite block_of_slice; [|apply blockBytes_pos|].
      * unfold run_block. do 2 f_equal. nia.
      * nia.
    + rewrite decide_False; [done|]. rewrite covers_cons. unfold in_extent. tauto.
Qed.

Lemma apply_runs_loop_spec f imageBlocks selected runs :
  image_of f imageBlocks → Forall run_wf runs → wf_extents maxImageBlocks selected →
  (∀ b, covers selected b → ∀ run, run ∈ runs → in_extent (extent run) b → b < imageBlocks) →
  ∃ c', apply_runs_loop f imageBlocks selected runs = (mkFile c' [], None) ∧
    length c' = length (content f) ∧
    ∀ b, 0 ≤ b < imageBlocks → read_block blockBytes c' b =
      if decide (covers selected b) then default (read_block blockBytes (content f) b) (runs_lookup runs b)
      else read_block blockBytes (content f) b.
Proof.
  intros Him Hruns Hsel. revert f Him. induction Hruns as [|run runs Hrun Hruns IH]; intros f Him Hin.
  { exists (content f). destruct f as [c sc], Him as [Hsc _]. cbn [content script] in *. subst.
    split_and!; [done..|]. intros b _. by destruct (decide _). }
  cbn [apply_runs_loop].
  destruct (intersectExtent_spec 0 maxImageBlocks (extent run) selected) as [Hiw Hic];
    [apply maxImageBlocks_bound|lia|apply Hrun|done|].
  destruct (apply_overlaps_spec f imageBlocks run (intersectExtent (extent run) selected)
    (Z.max 0 (Start (extent run)))) as (c1 & Ha & Hl & Hb); [done|done|lia| | |].
  { apply wf_from_tighten with maxImageBlocks; [done|lia|].
    intros b [? ?]%Hic. eapply Hin; [done|by left|done]. }
  { intros b. rewrite Hic. by intros [? _]. }
  rewrite Ha.
  destruct (IH (mkFile c1 [])) as (c' & Ha' & Hl' & Hb').
  { destruct Him as (? & ? & ?). unfold image_of. cbn [script content]. by rewrite Hl. }
  { intros b Hs r Hr. by apply Hin; [|right]. }
  exists c'. split_and!; [done|cbn [content] in *; congruence|].
  intros b Hbr. rewrite Hb' by done. cbn [content]. rewrite Hb by done. cbn [runs_lookup].
  destruct (decide (covers selected b)) as [Hs|Hs].
  - destruct (runs_lookup runs b); [done|]. simpl.
    destruct (decide (in_extent (extent run) b)) as [Hr|Hr]; simpl.
    + by rewrite decide_True by by rewrite Hic.
    + rewrite decide_False; [done|]. rewrite Hic. tauto.
  - rewrite decide_False; [done|]. rewrite Hic. tauto.
Qed.

(** ** The content of encoded runs *)

Lemma concat_block (ds : list bytes) i :
  Forall (fun d => length d = blockBytes) ds → (i < length ds)%nat →
  Some (take blockBytes (drop (i * blockBytes) (concat ds))) = ds !! i.
Proof.
  intros Hds. revert i. induction Hds as [|d ds Hd _ IH]; intros i Hi; [simpl in Hi; lia|].
  cbn [concat]. destruct i as [|i].
  - change (0 * blockBytes)%nat with 0%nat. rewrite drop_0, <-Hd, take_app_length. done.
  - change (S i * blockBytes)%nat with (blockBytes + i * blockBytes)%nat.
    rewrite <-drop_drop, <-Hd, drop_app_length, Hd. cbn [lookup list_lookup]. apply IH. simpl in Hi. lia.
Qed.

Lemma blocks_ok_lengths g blocks :
  blocks_ok g blocks → Forall (fun d => length d = blockBytes) (block_data g <$> blocks).
Proof.
  intros Hok. apply Forall_fmap. eapply Forall_impl; [exact Hok|].
  intros b Hb. change (length (block_data g b) = blockBytes). cbv beta in Hb. pose proof blockBytes_Z. lia.
Qed.

Lemma run_block_encoded g e b :
  blocks_ok g (expand e) → in_extent e b → run_block (encoded_run g e) b = block_data g b.
Proof.
  intros Hok Hin. unfold run_block, encoded_run. cbn [extent run_data].
  unfold in_extent in Hin.
  pose proof (concat_block (block_data g <$> expand e) (Z.to_nat (b - Start e))) as Hc.
  assert (expand e !! Z.to_nat (b - Start e) = Some b) as He.
  { unfold expand. rewrite lookup_seqZ_lt by lia. f_equal. lia. }
  rewrite list_lookup_fmap, He in Hc. cbn [fmap option_fmap option_map] in Hc.
  rewrite length_fmap, expand_length in Hc.
  specialize (Hc (blocks_ok_lengths _ _ Hok) ltac:(lia)). by injection Hc.
Qed.

Lemma runs_lookup_encoded g E b :
  blocks_ok g (concat (expand <$> E)) →
  runs_lookup (encoded_run g <$> E) b = if decide (covers E b) then Some (block_data g b) else None.
Proof.
  induction E as [|e E IH]; intros Hok.
  { rewrite decide_False; [done|]. by intros ?%covers_nil. }
  apply Forall_app in Hok as [Hoke Hok]. cbn [fmap list_fmap runs_lookup].
  rewrite (IH Hok). cbn [extent encoded_run].
  destruct (decide (covers E b)) as [Hc|Hc].
  - rewrite decide_True; [done|]. rewrite covers_cons. by right.
  - destruct (decide (in_extent e b)) as [Hin|Hin].
    + rewrite decide_True by (rewrite covers_cons; by left). f_equal. by apply run_block_encoded.
    + rewrite decide_False; [done|]. rewrite covers_cons. tauto.
Qed.

Lemma encoded_run_wf g E :
  Forall run_ok E → wf_extents maxImageBlocks E → blocks_ok g (concat (expand <$> E)) →
  Forall run_wf (encoded_run g <$> E).
Proof.
  intros Hrun Hwf Hok. apply Forall_fmap, Forall_forall. intros e He.
  destruct (wf_from_extent_in 0 maxImageBlocks E e) as [Hin Hpos]; [lia|done..|].
  unfold run_wf. cbn [encoded_run extent run_data compose].
  split_and!; [done..|]. rewrite blocks_data_length.
  - rewrite expand_length, Z2Nat.id by lia. done.
  - unfold blocks_ok in *. rewrite Forall_forall in *. intros b Hb. apply Hok.
    apply covers_expand. unfold covers. apply Exists_exists. exists e. split; [done|]. by apply elem_of_expand.
Qed.

(** A generation whose blocks fit an image. *)
Definition generation_wf (imageBlocks : Z) (g : Generation) : Prop :=
  (∀ b d, GenBlocks g !! b = Some d → 0 ≤ b < imageBlocks ∧ length d = blockBytes) ∧
  Z.of_nat (size (GenBlocks g)) < 2 ^ 32.

(** [g] restricted to some of its blocks, written over an image. *)
Definition overlay (g : Generation) (blocks : list Z) (old : bytes) (b : Z) : bytes :=
  if decide (b ∈ blocks) then block_data g b else read_block blockBytes old b.

Lemma applyRuns_encoded g E f size imageBlocks :
  image_of f imageBlocks → size = imageBlocks * DefaultBlockSize →
  Forall run_ok E → wf_extents imageBlocks E → blocks_ok g (concat (expand <$> E)) →
  ∃ c', applyRuns f size (encoded_run g <$> E) None = (mkFile c' [], None) ∧
    length c' = length (content f) ∧
    ∀ b, 0 ≤ b < imageBlocks →
      read_block blockBytes c' b = overlay g (concat (expand <$> E)) (content f) b.
Proof.
  intros Him -> Hrun Hwf Hok. pose proof Him as (_ & Himg & _).
  assert (wf_extents maxImageBlocks E) as Hwf' by (eapply wf_from_hi; [|exact Hwf]; lia).
  assert ((extent <$> (encoded_run g <$> E)) = E) as HE.
  { rewrite <-list_fmap_compose. by rewrite <-(list_fmap_id E) at 2. }
  unfold applyRuns. rewrite HE, (proj2 (Z.ltb_ge _ 0)) by (unfold DefaultBlockSize; lia).
  rewrite Z.quot_mul by (unfold DefaultBlockSize; lia).
  destruct (apply_runs_loop_spec f imageBlocks E (encoded_run g <$> E)) as (c' & Ha & Hl & Hb).
  - done.
  - by apply encoded_run_wf.
  - done.
  - intros b Hc _ _ _. apply (wf_from_covers _ _ _ _ Hwf) in Hc. lia.
  - exists c'. split_and!; [done..|]. intros b Hbr. rewrite Hb by done.
    rewrite runs_lookup_encoded by done. unfold overlay.
    destruct (decide (covers E b)) as [Hc|Hc].
    + by rewrite decide_True by by apply covers_expand.
    + rewrite decide_False; [done|]. by rewrite <-covers_expand.
Qed.

(** ** Decoding arbitrary bytes *)

Lemma decode_runs_ok n first lastEnd blocks segBlocks s runs total s' :
  0 ≤ lastEnd → decode_runs n first lastEnd blocks segBlocks s = Ok (runs, total, s') →
  Forall run_wf runs ∧ wf_from (if first then 0 else lastEnd) maxImageBlocks (extent <$> runs) ∧
  total = blocks + block_count (extent <$> runs).
Proof.
  revert first lastEnd blocks s runs. induction n as [|n IH]; intros first lastEnd blocks s runs Hle.
  { cbn [decode_runs]. intros [= <- <- <-]. split_and!; [constructor|done|simpl; lia]. }
  cbn [decode_runs]. intros Hd.
  apply result_bind_Ok in Hd as ([block s1] & Hr1 & Hd).
  apply result_bind_Ok in Hd as ([len s2] & Hr2 & Hd).
  apply result_bind_Ok in Hd as ([] & Hf1%fail_if_Ok & Hd).
  apply result_bind_Ok in Hd as ([] & Hf2%fail_if_Ok & Hd).
  apply result_bind_Ok in Hd as ([] & Hf3%fail_if_Ok & Hd).
  apply result_bind_Ok in Hd as ([data s3] & Hr3 & Hd).
  apply result_bind_Ok in Hd as ([[rest tot] s4] & Hrec & Hd).
  injection Hd as <- <- <-. cbn [Start Blocks] in *.
  apply ReadUint_Ok in Hr1 as (? & _ & _ & _ & _ & Hb).
  apply ReadUint_Ok in Hr2 as (? & _ & _ & _ & _ & Hl).
  apply ReadFull_Ok in Hr3 as (_ & _ & Hdl).
  change (256 ^ Z.of_nat 8) with (2 ^ 64) in Hb. change (256 ^ Z.of_nat 4) with (2 ^ 32) in Hl.
  zbool. change (u32 (maxRunBlocks * DefaultBlockSize)) with 1048576 in *.
  unfold DefaultBlockSize in *.
  pose proof (Z.div_mod len 4096 ltac:(lia)) as Hdm.
  assert (maxImageBlocks < 2 ^ 64) by by vm_compute.
  set (e := mkExtent block (len / 4096)) in *.
  assert (extent_end e = block + len / 4096) as Hend.
  { unfold extent_end in *. subst e. cbn [Start Blocks] in *.
    destruct (decide (block + len / 4096 < 2 ^ 64)); [apply u64_small; lia|].
    rewrite u64_wrap_sub in * by lia. lia. }
  rewrite Hend in *.
  apply IH in Hrec as (Hrw & Hrwf & ->); [|lia].
  split_and!.
  - constructor; [|done]. unfold run_wf, extent_in. subst e. cbn [extent run_data Start Blocks].
    unfold DefaultBlockSize. lia.
  - cbn [fmap list_fmap wf_from extent]. subst e. cbn [Start Blocks] in *. split_and!; [|lia|lia|done].
    destruct first; [lia|]. match goal with H : _ && _ = false |- _ => simpl in H end. zbool. lia.
  - cbn [fmap list_fmap block_count foldr extent]. subst e. cbn [Blocks].
    fold (block_count (extent <$> rest)). lia.
Qed.

(** ** Splitting a generation *)

Definition slice_of (blocks : list Z) (n index : nat) : list Z :=
  let start := (index * n)%nat in
  take (Nat.min (length blocks) (start + n) - start) (drop start blocks).

Lemma slice_of_take blocks n index : slice_of blocks n index = take n (drop (index * n) blocks).
Proof.
  unfold slice_of. destruct (decide (index * n + n ≤ length blocks)%nat).
  - f_equal. lia.
  - rewrite (take_ge _ n) by (rewrite length_drop; lia). rewrite take_ge; [done|]. rewrite length_drop. lia.
Qed.

Lemma slices_concat blocks n i m :
  (length blocks ≤ (i + m) * n)%nat → concat (slice_of blocks n <$> seq i m) = drop (i * n) blocks.
Proof.
  revert i. induction m as [|m IH]; intros i Hle; cbn [seq fmap list_fmap concat].
  - rewrite drop_ge by lia. done.
  - rewrite IH by lia. rewrite slice_of_take.
    replace (S i * n)%nat with (i * n + n)%nat by lia. by rewrite <-drop_drop, take_drop.
Qed.

Lemma slice_of_sublist blocks n index b : b ∈ slice_of blocks n index → b ∈ blocks.
Proof.
  rewrite slice_of_take. intros Hb. apply (list_elem_of_In) in Hb.
  apply list_elem_of_In. rewrite <-(take_drop (index * n) blocks). apply in_or_app. right.
  rewrite <-(take_drop n (drop (index * n) blocks)). apply in_or_app. by left.
Qed.

Lemma StronglySorted_slice blocks n index :
  StronglySorted Z.lt blocks → StronglySorted Z.lt (slice_of blocks n index).
Proof.
  rewrite slice_of_take. intros Hs. rewrite <-(take_drop (index * n) blocks) in Hs.
  apply StronglySorted_app_1_r in Hs. rewrite <-(take_drop n (drop _ _)) in Hs.
  by apply StronglySorted_app_1_l in Hs.
Qed.

(** What one encoded segment promises about the blocks [part] it stores. *)
Definition segment_of `{Digest} `{Gzip} (g : Generation) (part : list Z) (seg : Segment) : Prop :=
  encodeSegmentBlocks g part = Ok seg ∧
  seg_Blocks seg = Z.of_nat (length part) ∧
  seg_Bytes seg = Z.of_nat (length (seg_Data seg)) ∧
  seg_SHA256 seg = hex_EncodeToString (sha256 (seg_Data seg)) ∧
  wf_extents maxImageBlocks (seg_Extents seg) ∧
  concat (expand <$> seg_Extents seg) = part ∧
  normal_extents maxImageBlocks (seg_ZeroExtents seg) ∧
  (∀ b, covers (seg_ZeroExtents seg) b ↔ b ∈ part ∧ isZero (block_data g b) = true) ∧
  Forall run_ok (seg_Extents seg) ∧
  decodeSegment seg = Ok (encoded_run g <$> seg_Extents seg).

Section segments.
Context `{Digest} `{Gzip}.

Lemma StronglySorted_filter (f : Z → bool) l :
  StronglySorted Z.lt l → StronglySorted Z.lt (List.filter f l).
Proof.
  induction 1 as [|x l Hs IH Hf]; simpl; [constructor|].
  destruct (f x); [|done]. constructor; [done|]. rewrite Forall_forall in *.
  intros y Hy. apply Hf. apply list_elem_of_In in Hy. apply list_elem_of_In.
  by apply filter_In in Hy as [? _].
Qed.

Lemma segment_of_encode g part :
  part ≠ [] → blocks_ok g part → StronglySorted Z.lt part →
  Forall (fun b => 0 ≤ b < maxImageBlocks) part → Z.of_nat (length part) < 2 ^ 32 →
  ∃ seg, encodeSegmentBlocks g part = Ok seg ∧ segment_of g part seg.
Proof.
  intros Hne Hok Hs Hr Hlen.
  destruct (encodeSegmentBlocks_spec g part) as (seg & E & He & Hd & Hwf & Hrun & Hcat & HE & HZ & HB & HS & HBy);
    [done..|].
  destruct (blocksToExtents_spec maxImageBlocks
    (List.filter (fun block => isZero (block_data g block)) part)) as [Hzn Hzc].
  - apply maxImageBlocks_bound.
  - by apply StronglySorted_filter.
  - rewrite Forall_forall in *. intros b Hb. apply Hr. apply list_elem_of_In in Hb.
    apply list_elem_of_In. by apply filter_In in Hb as [? _].
  - exists seg. split; [done|]. unfold segment_of. rewrite HE, HZ. unfold zeroExtents.
    split_and!; try done.
    intros b. rewrite Hzc, !list_elem_of_In. apply filter_In.
Qed.

Lemma encode_slices_spec g blocks n indexes :
  (0 < n)%nat → blocks_ok g blocks → StronglySorted Z.lt blocks →
  Forall (fun b => 0 ≤ b < maxImageBlocks) blocks → Z.of_nat (length blocks) < 2 ^ 32 →
  Forall (fun i => (i * n < length blocks)%nat) indexes →
  ∃ segs, encode_slices g blocks n indexes = Ok segs ∧
    Forall2 (segment_of g) (slice_of blocks n <$> indexes) segs.
Proof.
  intros Hn Hok Hs Hr Hlen. induction 1 as [|i indexes Hi _ IH].
  { exists []. split; [done|constructor]. }
  destruct IH as (segs & He & Hf).
  destruct (segment_of_encode g (slice_of blocks n i)) as (seg & Hseg & Hof).
  - rewrite slice_of_take. intros Hnil. apply (f_equal length) in Hnil.
    rewrite length_take, length_drop in Hnil. simpl in Hnil. lia.
  - unfold blocks_ok in *. rewrite Forall_forall in *. eauto using slice_of_sublist.
  - by apply StronglySorted_slice.
  - rewrite Forall_forall in *. eauto using slice_of_sublist.
  - rewrite slice_of_take, length_take, length_drop. lia.
  - exists (seg :: segs). cbn [fmap list_fmap].
    change (encode_slices g blocks n (i :: indexes)) with
      (segment ← encodeSegmentBlocks g (slice_of blocks n i);
       segments ← encode_slices g blocks n indexes; Ok (segment :: segments)).
    rewrite Hseg. cbn [mbind result_mbind]. rewrite He. cbn [mbind result_mbind]. split; [done|]. by constructor.
Qed.
End segments.

(** Segments applied one after the other, stopping at the first error. *)
Fixpoint ApplySegments `{Digest} `{Gzip} (f : File) (size : Z) (segs : list Segment) : File * option error :=
  match segs with
  | [] => (f, None)
  | seg :: rest =>
      match ApplySegment f size seg with
      | (f', Some e) => (f', Some e)
      | (f', None) => ApplySegments f' size rest
      end
  end.

Section apply_segments.
Context `{Digest} `{Gzip}.

Lemma apply_segment_of g part seg f imageBlocks :
  image_of f imageBlocks → blocks_ok g part → Forall (fun b => 0 ≤ b < imageBlocks) part →
  segment_of g part seg →
  ∃ c', ApplySegment f (imageBlocks * DefaultBlockSize) seg = (mkFile c' [], None) ∧
    length c' = length (content f) ∧
    ∀ b, 0 ≤ b < imageBlocks → read_block blockBytes c' b = overlay g part (content f) b.
Proof.
  intros Him Hok Hr (_ & _ & _ & _ & Hwf & Hcat & _ & _ & Hrun & Hd).
  destruct (applyRuns_encoded g (seg_Extents seg) f (imageBlocks * DefaultBlockSize) imageBlocks)
    as (c' & Ha & Hl & Hb); [done|done|done| |by rewrite Hcat|].
  { eapply wf_from_tighten; [done|lia|]. intros b Hc.
    rewrite covers_expand, Hcat in Hc. rewrite Forall_forall in Hr. by apply Hr. }
  exists c'. unfold ApplySegment. rewrite Hd. split_and!; [done..|].
  intros b Hbr. by rewrite Hb, Hcat by done.
Qed.

Lemma image_of_same f c' imageBlocks :
  image_of f imageBlocks → length c' = length (content f) → image_of (mkFile c' []) imageBlocks.
Proof. intros (? & ? & ?) Hl. unfold image_of. cbn [script content]. by rewrite Hl. Qed.

Lemma apply_segments_of g parts segs f imageBlocks :
  image_of f imageBlocks → blocks_ok g (concat parts) →
  Forall (fun b => 0 ≤ b < imageBlocks) (concat parts) → Forall2 (segment_of g) parts segs →
  ∃ c', ApplySegments f (imageBlocks * DefaultBlockSize) segs = (mkFile c' [], None) ∧
    length c' = length (content f) ∧
    ∀ b, 0 ≤ b < imageBlocks → read_block blockBytes c' b = overlay g (concat parts) (content f) b.
Proof.
  intros Him Hok Hr Hf. revert f Him. induction Hf as [|part seg parts segs Hof Hf IH]; intros f Him.
  { exists (content f). destruct f as [c sc], Him as [Hsc _]. cbn [content script] in *. subst.
    split_and!; [done..|]. intros b _. unfold overlay. rewrite decide_False; [done|]. apply not_elem_of_nil. }
  apply Forall_app in Hok as [Hok1 Hok2]. apply Forall_app in Hr as [Hr1 Hr2].
  destruct (apply_segment_of g part seg f imageBlocks Him Hok1 Hr1 Hof) as (c1 & Ha1 & Hl1 & Hb1).
  destruct (IH Hok2 Hr2 (mkFile c1 [])) as (c' & Ha & Hl & Hb); [by eapply image_of_same|].
  exists c'. cbn [ApplySegments]. rewrite Ha1. cbn [content] in *. split_and!; [done|congruence|].
  intros b Hbr. rewrite Hb by done. unfold overlay in *. cbn [concat].
  destruct (decide (b ∈ concat parts)) as [Hin|Hin].
  - rewrite decide_True; [done|]. rewrite elem_of_app. by right.
  - rewrite Hb1 by done. destruct (decide (b ∈ part)) as [Hp|Hp].
    + rewrite decide_True; [done|]. rewrite elem_of_app. by left.
    + rewrite decide_False; [done|]. rewrite elem_of_app. tauto.
Qed.

Lemma generation_blocks imageBlocks g :
  0 ≤ imageBlocks ≤ maxImageBlocks → generation_wf imageBlocks g →
  blocks_ok g (sortedBlocks g) ∧ Forall (fun b => 0 ≤ b < imageBlocks) (sortedBlocks g) ∧
  Forall (fun b => 0 ≤ b < maxImageBlocks) (sortedBlocks g) ∧
  Z.of_nat (length (sortedBlocks g)) < 2 ^ 32.
Proof.
  intros Himg [Hg Hsz]. destruct (sortedBlocks_spec g) as (_ & Hin & Hlen).
  pose proof blockBytes_Z as HZ.
  split_and!; [unfold blocks_ok| | |by rewrite Hlen]; apply Forall_forall; intros b [d Hd]%Hin;
    destruct (Hg b d Hd) as [? Hdl]; [|lia..].
  unfold block_data. rewrite Hd. simpl. lia.
Qed.

Lemma overlay_all g c b :
  overlay g (sortedBlocks g) c b = default (read_block blockBytes c b) (GenBlocks g !! b).
Proof.
  unfold overlay, block_data. destruct (sortedBlocks_spec g) as (_ & Hin & _).
  destruct (decide (b ∈ sortedBlocks g)) as [Hb|Hb].
  - apply Hin in Hb as [d Hd]. by rewrite Hd.
  - destruct (GenBlocks g !! b) as [d|] eqn:Hd; [|done]. destruct Hb. apply Hin. by exists d.
Qed.

(** The segment size [EncodeSegments] uses. *)
Definition segment_size (n : Z) : Z := if n <=? 0 then DefaultSegmentBlocks else n.

Lemma EncodeSegments_spec g n imageBlocks :
  0 ≤ imageBlocks ≤ maxImageBlocks → generation_wf imageBlocks g → size (GenBlocks g) ≠ 0%nat →
  ∃ segs parts, EncodeSegments (Some g) n = Ok segs ∧ Forall2 (segment_of g) parts segs ∧
    concat parts = sortedBlocks g ∧
    Forall (fun part => Z.of_nat (length part) ≤ segment_size n) parts.
Proof.
  intros Himg Hg Hne. destruct (generation_blocks _ _ Himg Hg) as (Hok & _ & Hr & Hlen).
  destruct (sortedBlocks_spec g) as (Hs & _ & Hsz).
  unfold EncodeSegments, EncodeSegment. cbn [Empty]. rewrite bool_decide_eq_false_2 by done.
  fold (segment_size n). assert (0 < segment_size n) as Hn.
  { unfold segment_size, DefaultSegmentBlocks. case_if; lia. }
  set (k := segment_size n) in *. set (blocks := sortedBlocks g) in *.
  assert (0 < Z.of_nat (length blocks)) as Hpos by lia.
  rewrite Z.quot_div_nonneg by lia.
  pose proof (Z.div_mod (Z.of_nat (length blocks) - 1) k ltac:(lia)) as Hdm.
  pose proof (Z.mod_pos_bound (Z.of_nat (length blocks) - 1) k ltac:(lia)) as Hmb.
  set (q := (Z.of_nat (length blocks) - 1) / k) in *.
  assert (0 ≤ q) as Hq by (apply Z.div_pos; lia).
  destruct (q + 1 =? 1) eqn:E; zbool.
  - destruct (segment_of_encode g blocks) as (seg & He & Hof); [|done..|].
    { intros Hnil. rewrite Hnil in Hpos. simpl in Hpos. lia. }
    exists [seg], [blocks]. rewrite He. cbn [mbind result_mbind]. split_and!; [done| | |].
    + constructor; [done|constructor].
    + simpl. by rewrite app_nil_r.
    + constructor; [|constructor]. nia.
  - destruct (encode_slices_spec g blocks (Z.to_nat k) (seq 0 (Z.to_nat (q + 1)))) as (segs & He & Hf);
      [lia|done..| |].
    { apply Forall_forall. intros i Hi. apply elem_of_seq in Hi. nia. }
    exists segs, (slice_of blocks (Z.to_nat k) <$> seq 0 (Z.to_nat (q + 1))). split_and!; [done..| |].
    + rewrite slices_concat by nia. by rewrite drop_0.
    + apply Forall_fmap, Forall_forall. intros i _. cbn [compose].
      rewrite slice_of_take, length_take. lia.
Qed.

(** ** Properties *)

Lemma decodeSegment_spec seg runs :
  decodeSegment seg = Ok runs →
  Forall run_wf runs ∧ wf_extents maxImageBlocks (extent <$> runs) ∧
  block_count (extent <$> runs) = seg_Blocks seg ∧
  seg_SHA256 seg = hex_EncodeToString (sha256 (seg_Data seg)).
Proof.
  unfold decodeSegment. intros Hd.
  apply result_bind_Ok in Hd as ([] & _ & Hd).
  apply result_bind_Ok in Hd as ([] & Hsum%fail_if_Ok & Hd).
  apply result_bind_Ok in Hd as (zr & _ & Hd).
  apply result_bind_Ok in Hd as ([header zr1] & _ & Hd).
  apply result_bind_Ok in Hd as ([] & _ & Hd).
  apply result_bind_Ok in Hd as ([bsize zr2] & _ & Hd).
  apply result_bind_Ok in Hd as ([] & _ & Hd).
  apply result_bind_Ok in Hd as ([runCount zr3] & _ & Hd).
  apply result_bind_Ok in Hd as ([] & Hcount%fail_if_Ok & Hd).
  apply result_bind_Ok in Hd as ([[runs' blocks] zr4] & Hruns & Hd).
  apply result_bind_Ok in Hd as ([] & _ & Hd).
  apply result_bind_Ok in Hd as ([] & Hblocks%fail_if_Ok & Hd).
  injection Hd as ->. apply decode_runs_ok in Hruns as (Hrw & Hwf & ->); [|lia].
  zbool. apply bool_decide_eq_true in Hsum. split_and!; [done..| |done].
  apply andb_false_iff in Hblocks as [Hz|Hz]; zbool; lia.
Qed.

(** Whatever bytes a segment holds, a successful [decodeSegment] returned
    runs that are sorted, pairwise disjoint, non-empty, within the largest
    image, each with exactly its blocks of data; their block count is the one
    the reference announced, and the data has the announced SHA-256. *)
Theorem decodeSegment_safe seg runs :
  decodeSegment seg = Ok runs →
  Forall run_wf runs ∧ wf_extents maxImageBlocks (extent <$> runs) ∧
  block_count (extent <$> runs) = seg_Blocks seg ∧
  seg_SHA256 seg = hex_EncodeToString (sha256 (seg_Data seg)).
Proof. apply decodeSegment_spec. Qed.

(** C15: [EncodeSegments] loses nothing: for a non-empty generation of complete
    blocks it succeeds, splits the sorted blocks into consecutive parts of at
    most the requested number (1024 when none is given), each segment decodes
    to exactly its part with the zero blocks listed in its zero extents, and
    applying the segments in order to any image writes the generation's blocks
    and leaves every other block as it was. *)
Theorem EncodeSegments_correct g n imageBlocks f :
  image_of f imageBlocks → generation_wf imageBlocks g → size (GenBlocks g) ≠ 0%nat →
  ∃ segs parts, EncodeSegments (Some g) n = Ok segs ∧
    Forall2 (segment_of g) parts segs ∧ concat parts = sortedBlocks g ∧
    Forall (fun part => Z.of_nat (length part) ≤ segment_size n) parts ∧
    ∃ c', ApplySegments f (imageBlocks * DefaultBlockSize) segs = (mkFile c' [], None) ∧
      length c' = length (content f) ∧
      ∀ b, 0 ≤ b < imageBlocks →
        read_block blockBytes c' b = default (read_block blockBytes (content f) b) (GenBlocks g !! b).
Proof.
  intros Him Hg Hne. pose proof Him as (_ & Himg & _).
  destruct (EncodeSegments_spec g n imageBlocks Himg Hg Hne) as (segs & parts & He & Hf & Hcat & Hlen).
  destruct (generation_blocks _ _ Himg Hg) as (Hok & Hr & _ & _).
  exists segs, parts. split_and!; [done..|].
  destruct (apply_segments_of g parts segs f imageBlocks) as (c' & Ha & Hl & Hb); [done|by rewrite Hcat..|done|].
  exists c'. split_and!; [done..|]. intros b Hbr. by rewrite Hb, Hcat, overlay_all by done.
Qed.
End apply_segments.

(** A generation of two blocks, one of them zero, and an image of four. *)
Definition sample_generation : Generation :=
  mkGeneration {[ 1 := replicate blockBytes x01; 2 := replicate blockBytes x00 ]} 8192 0.

Definition sample_image : File := mkFile (replicate (4 * blockBytes) xff) [].

Lemma sample_image_of : image_of sample_image 4.
Proof.
  unfold image_of, sample_image. cbn [script content]. rewrite length_replicate.
  split_and!; [done|lia|by vm_compute|]. pose proof blockBytes_Z. unfold DefaultBlockSize in *. lia.
Qed.

Lemma sample_generation_wf : generation_wf 4 sample_generation.
Proof.
  unfold generation_wf, sample_generation. cbn [GenBlocks]. split; [|by vm_compute].
  intros b d Hd. apply lookup_insert_Some in Hd as [[<- <-]|[_ Hd]].
  { split; [lia|apply length_replicate]. }
  apply lookup_singleton_Some in Hd as [<- <-]. split; [lia|apply length_replicate].
Qed.

Lemma EncodeSegments_correct_witness :
  ∃ segs c', @EncodeSegments toy_digest plain_gzip (Some sample_generation) 1 = Ok segs ∧
    @ApplySegments toy_digest plain_gzip sample_image (4 * DefaultBlockSize) segs = (mkFile c' [], None) ∧
    read_block blockBytes c' 1 = replicate blockBytes x01.
Proof.
  destruct (@EncodeSegments_correct toy_digest plain_gzip sample_generation 1 4 sample_image
    sample_image_of sample_generation_wf ltac:(by vm_compute))
    as (segs & parts & He & _ & _ & _ & c' & Ha & _ & Hb).
  exists segs, c'. split; [exact He|]. split; [exact Ha|].
  rewrite (Hb 1 ltac:(lia)). reflexivity.
Defined.

Lemma decodeSegment_safe_witness :
  ∃ seg runs, @EncodeSegment toy_digest plain_gzip (Some sample_generation) = Ok seg ∧
    @decodeSegment toy_digest plain_gzip seg = Ok runs ∧
    Forall run_wf runs ∧ block_count (extent <$> runs) = 2.
Proof.
  destruct (generation_blocks 4 sample_generation ltac:(by vm_compute) sample_generation_wf)
    as (Hok & _ & Hr & Hlen).
  destruct (@segment_of_encode toy_digest plain_gzip sample_generation (sortedBlocks sample_generation))
    as (seg & He & Hof); [by vm_compute|exact Hok|apply sortedBlocks_spec|exact Hr|exact Hlen|].
  assert (Hd : @decodeSegment toy_digest plain_gzip seg = Ok (encoded_run sample_generation <$> seg_Extents seg))
    by apply Hof.
  destruct (@decodeSegment_safe toy_digest plain_gzip seg _ Hd) as (Hrw & _ & Hcnt & _).
  exists seg, (encoded_run sample_generation <$> seg_Extents seg).
  split; [exact He|]. split; [exact Hd|]. split; [exact Hrw|].
  rewrite Hcnt. assert (seg_Blocks seg = Z.of_nat (length (sortedBlocks sample_generation))) as -> by apply Hof.
  reflexivity.
Defined.
