(* ===== verification/Types.v ===== *)
(** * Remote metadata ([internal/replica/remote.go], types)

    The JSON documents of a volume: its state with the lease, manifests with
    their segment references, manifest bundles and garbage records, and the
    object keys derived from them. *)
From S2P Require Import Prelude Extents Codec.
Local Open Scope Z_scope.

(** A [time.Time] is a number of nanoseconds since the Unix epoch; the zero
    time is 0001-01-01 UTC. *)
Definition zero_time : Z := -62135596800 * 10 ^ 9.
Definition time_IsZero (t : Z) : bool := t =? zero_time.
(** [a.After(b)] *)
Definition time_After (a b : Z) : bool := b <? a.

Definition Format : string := "satchel-block-v2".

Record LeaseRecord : Type := mkLeaseRecord {
  Holder : string;
  Token : string;
  lease_Epoch : Z;
  ExpiresAt : Z;
  MountedAt : Z;
}.

Record ManifestBundleRef : Type := mkBundleRef {
  bref_Key : string;
  bref_FirstGeneration : Z;
  bref_LastGeneration : Z;
}.

(** [State]; a nil map of inline manifests is the empty map. *)
Record State : Type := mkState {
  st_Format : string;
  st_ID : string;
  st_Name : string;
  st_Size : Z;
  st_BlockSize : Z;
  st_Filesystem : string;
  st_Generation : Z;
  st_Manifest : string;
  st_InlineManifests : gmap string bytes;
  st_ManifestBundle : option ManifestBundleRef;
  st_Checkpoint : Z;
  st_Epoch : Z;
  st_Deleting : bool;
  st_Lease : option LeaseRecord;
}.

Record ObjectRef : Type := mkObjectRef {
  ref_Key : string;
  ref_SourceManifest : string;
  ref_SourceBundle : string;
  ref_SourceIndex : Z;
  ref_InlineData : bytes;
  ref_SHA256 : string;
  ref_Bytes : Z;
  ref_Blocks : Z;
  ref_Extents : list Extent;
  ref_ZeroExtents : list Extent;
}.

Record Manifest : Type := mkManifest {
  mf_Format : string;
  mf_VolumeID : string;
  mf_Generation : Z;
  mf_Epoch : Z;
  mf_Kind : string;
  mf_Parent : string;
  mf_Segments : list ObjectRef;
  mf_CreatedAt : Z;
}.

Record bundledManifest : Type := mkBundled { bm_Key : string; bm_Body : bytes }.

Record manifestBundle : Type := mkBundle {
  mb_Format : string;
  mb_VolumeID : string;
  mb_FirstGeneration : Z;
  mb_LastGeneration : Z;
  mb_Parent : option ManifestBundleRef;
  mb_Manifests : list bundledManifest;
}.

Record gcRecord : Type := mkGcRecord {
  gc_Format : string;
  gc_VolumeID : string;
  gc_CreatedAt : Z;
  gc_Objects : list string;
}.

Definition inlineSegmentLimit : Z := Z.shiftl 64 10.
Definition inlineManifestLimit : Z := Z.shiftl 64 10.
Definition inlineManifestStateLimit : Z := Z.shiftl 64 10.
Definition manifestBundleTarget : Z := Z.shiftl 16 10.

Definition StateKey (name : string) : string := "volumes/" +:+ name +:+ "/state.json".
Definition VolumePrefix (name : string) : string := "volumes/" +:+ name +:+ "/".

#[export] Instance LeaseRecord_eq_dec : EqDecision LeaseRecord.
Proof. solve_decision. Defined.
#[export] Instance ManifestBundleRef_eq_dec : EqDecision ManifestBundleRef.
Proof. solve_decision. Defined.
#[export] Instance State_eq_dec : EqDecision State.
Proof. solve_decision. Defined.
#[export] Instance ObjectRef_eq_dec : EqDecision ObjectRef.
Proof. solve_decision. Defined.
#[export] Instance Manifest_eq_dec : EqDecision Manifest.
Proof. solve_decision. Defined.
#[export] Instance bundledManifest_eq_dec : EqDecision bundledManifest.
Proof. solve_decision. Defined.
#[export] Instance manifestBundle_eq_dec : EqDecision manifestBundle.
Proof. solve_decision. Defined.
