(* ===== verification/Store.v ===== *)
(** * Object stores ([internal/objectstore])

    The [Store] interface, the laws the replicator relies on when it uses
    conditional writes, and the in-memory store, which has them. *)
From stdpp Require Import pretty.
From S2P Require Import Prelude.
Local Open Scope Z_scope.

Record Object : Type := mkObject { obj_Data : bytes; obj_ETag : string }.

(** [Store]: the operations, as functions of the store's state.  Each call is
    atomic. *)
Class Store (S : Type) : Type := {
  store_Get : S → string → result Object;
  store_Put : S → string → bytes → S * result string;
  store_PutIfAbsent : S → string → bytes → S * result string;
  store_PutIfMatch : S → string → bytes → string → S * result string;
  store_Delete : S → string → S * option error;
  store_List : S → string → result (list string);
  store_DeletePrefix : S → string → S * option error;
}.

(** What every store promises: [objects] is its content. *)
Class ObjectStore (S : Type) `{Store S} : Type := {
  store_inv : S → Prop;
  objects : S → gmap string Object;
  get_law s k : store_inv s →
    store_Get s k = match objects s !! k with Some o => Ok o | None => Err ErrNotFound end;
  put_law s k d s' r : store_inv s → store_Put s k d = (s', r) →
    store_inv s' ∧ ∃ e, r = Ok e ∧ objects s' = <[k := mkObject d e]> (objects s);
  delete_law s k s' r : store_inv s → store_Delete s k = (s', r) →
    store_inv s' ∧ r = None ∧ objects s' = delete k (objects s);
  list_law s p : store_inv s →
    ∃ keys, store_List s p = Ok keys ∧ NoDup keys ∧ ∀ k, k ∈ keys ↔ is_Some (objects s !! k) ∧ HasPrefix k p = true;
  deletePrefix_law s p s' r : store_inv s → store_DeletePrefix s p = (s', r) →
    store_inv s' ∧ r = None ∧ objects s' = filter (fun kv => HasPrefix kv.1 p = false) (objects s);
}.

(** What a store that honours preconditions promises besides: [honours] says
    that it does, and [tagged s k e d] that key [k] had content [d] under the
    entity tag [e] at some time up to [s].  A tag never stands for two contents
    of a key. *)
Class ConditionalStore (S : Type) `{ObjectStore S} : Type := {
  honours : S → Prop;
  tagged : S → string → string → bytes → Prop;
  tagged_nonempty s k e d : store_inv s → tagged s k e d → e ≠ EmptyString;
  tagged_unique s k e d1 d2 : store_inv s → tagged s k e d1 → tagged s k e d2 → d1 = d2;
  tagged_current s k o : store_inv s → objects s !! k = Some o → tagged s k (obj_ETag o) (obj_Data o);
  put_honours s k d : honours s → honours (store_Put s k d).1;
  put_tagged s k d k' e x : tagged s k' e x → tagged (store_Put s k d).1 k' e x;
  delete_honours s k : honours s → honours (store_Delete s k).1;
  delete_tagged s k k' e x : tagged s k' e x → tagged (store_Delete s k).1 k' e x;
  putIfAbsent_law s k d s' r : store_inv s → honours s → store_PutIfAbsent s k d = (s', r) →
    store_inv s' ∧ honours s' ∧ (∀ k e x, tagged s k e x → tagged s' k e x) ∧
    match objects s !! k with
    | Some _ => objects s' = objects s ∧ r = Err ErrPreconditionFailed
    | None => ∃ e, r = Ok e ∧ objects s' = <[k := mkObject d e]> (objects s)
    end;
  putIfMatch_law s k d e s' r : store_inv s → honours s → store_PutIfMatch s k d e = (s', r) →
    store_inv s' ∧ honours s' ∧ (∀ k e x, tagged s k e x → tagged s' k e x) ∧
    match objects s !! k with
    | Some o =>
        if bool_decide (obj_ETag o = e) then ∃ e', r = Ok e' ∧ objects s' = <[k := mkObject d e']> (objects s)
        else objects s' = objects s ∧ r = Err ErrPreconditionFailed
    | None => objects s' = objects s ∧ r = Err ErrPreconditionFailed
    end;
}.

(** ** The in-memory store ([memory.go])

    [mem_log] records every version ever stored (a specification field). *)
Record Memory : Type := mkMemory {
  mem_objects : gmap string Object;
  mem_seq : Z;
  mem_unconditional : bool;
  mem_log : list (string * string * bytes);
}.

Definition NewMemory : Memory := mkMemory ∅ 0 false [].
Definition NewUnconditionalMemory : Memory := mkMemory ∅ 0 true [].

Definition mem_Get (m : Memory) (key : string) : result Object :=
  match mem_objects m !! key with Some obj => Ok obj | None => Err ErrNotFound end.

Definition quote : string := String (Ascii.ascii_of_nat 34) EmptyString.

(** [fmt.Sprintf(..., m.seq)]: the number in decimal, between quotes. *)
Definition mem_etag (seq : Z) : string := quote +:+ pretty seq +:+ quote.

Definition mem_store (m : Memory) (key : string) (data : bytes) : Memory * string :=
  let seq := mem_seq m + 1 in
  let etag := mem_etag seq in
  (mkMemory (<[key := mkObject data etag]> (mem_objects m)) seq (mem_unconditional m) ((key, etag, data) :: mem_log m), etag).

Definition mem_Put (m : Memory) (key : string) (data : bytes) : Memory * result string :=
  let '(m, etag) := mem_store m key data in (m, Ok etag).

Definition mem_PutIfAbsent (m : Memory) (key : string) (data : bytes) : Memory * result string :=
  if bool_decide (is_Some (mem_objects m !! key)) && negb (mem_unconditional m) then (m, Err ErrPreconditionFailed)
  else let '(m, etag) := mem_store m key data in (m, Ok etag).

Definition mem_PutIfMatch (m : Memory) (key : string) (data : bytes) (etag : string) : Memory * result string :=
  if negb (mem_unconditional m) && match mem_objects m !! key with Some o => negb (bool_decide (obj_ETag o = etag)) | None => true end
  then (m, Err ErrPreconditionFailed)
  else let '(m, etag) := mem_store m key data in (m, Ok etag).

Definition mem_Delete (m : Memory) (key : string) : Memory * option error :=
  (mkMemory (delete key (mem_objects m)) (mem_seq m) (mem_unconditional m) (mem_log m), None).

Definition mem_List (m : Memory) (prefix : string) : result (list string) :=
  Ok (merge_sort String.le (filter (fun k => HasPrefix k prefix = true) (map_to_list (mem_objects m)).*1)).

Definition mem_DeletePrefix (m : Memory) (prefix : string) : Memory * option error :=
  (mkMemory (filter (fun kv => HasPrefix kv.1 prefix = false) (mem_objects m)) (mem_seq m) (mem_unconditional m) (mem_log m), None).

#[export] Instance memory_store : Store Memory := {
  store_Get := mem_Get;
  store_Put := mem_Put;
  store_PutIfAbsent := mem_PutIfAbsent;
  store_PutIfMatch := mem_PutIfMatch;
  store_Delete := mem_Delete;
  store_List := mem_List;
  store_DeletePrefix := mem_DeletePrefix;
}.

(** ** [Memory] honours preconditions *)

Lemma mem_etag_inj a b : mem_etag a = mem_etag b → a = b.
Proof.
  unfold mem_etag. intros Heq. apply (inj (String.append quote)) in Heq.
  apply (inj pretty). revert Heq. generalize (pretty a) (pretty b). clear. intros x.
  induction x as [|c x IH]; intros [|c' y] Heq; cbn in Heq.
  - done.
  - injection Heq as <- Heq. by destruct y.
  - injection Heq as -> Heq. by destruct x.
  - injection Heq as -> Heq. f_equal. by apply IH.
Qed.

Definition memory_inv (m : Memory) : Prop :=
  0 ≤ mem_seq m ∧
  (∀ k o, mem_objects m !! k = Some o → (k, obj_ETag o, obj_Data o) ∈ mem_log m) ∧
  (∀ k e d, (k, e, d) ∈ mem_log m → ∃ n, e = mem_etag n ∧ n ≤ mem_seq m) ∧
  (∀ k1 k2 e d1 d2, (k1, e, d1) ∈ mem_log m → (k2, e, d2) ∈ mem_log m → d1 = d2).

Lemma mem_store_inv m key data m' etag :
  memory_inv m → mem_store m key data = (m', etag) →
  memory_inv m' ∧ mem_objects m' = <[key := mkObject data etag]> (mem_objects m) ∧ (∀ x, x ∈ mem_log m → x ∈ mem_log m').
Proof.
  intros (Hseq & Hcur & Hold & Huniq) Hs. unfold mem_store in Hs. injection Hs as <- <-.
  split; [|split; [done|]]; [split; [cbn [mem_seq]; lia|]; split; [|split]|];
    cbn [mem_unconditional mem_seq mem_objects mem_log].
  - intros k o. rewrite lookup_insert_Some. intros [[<- <-]|[_ Ho]]; [apply list_elem_of_here|].
    apply list_elem_of_further. by apply Hcur.
  - intros k e d Hin. apply elem_of_cons in Hin as [Hin|Hin]; [injection Hin as _ -> _; eexists; split; [done|lia]|].
    destruct (Hold k e d Hin) as (n & -> & Hn). exists n. split; [done|lia].
  - assert (∀ k d, (k, mem_etag (mem_seq m + 1), d) ∉ mem_log m) as Hfresh.
    { intros k d Hin. destruct (Hold _ _ _ Hin) as (n & He%mem_etag_inj & Hn). lia. }
    intros k1 k2 e d1 d2 H1 H2. apply elem_of_cons in H1 as [H1|H1], H2 as [H2|H2].
    + congruence.
    + injection H1 as _ -> _. by apply Hfresh in H2.
    + injection H2 as _ -> _. by apply Hfresh in H1.
    + by eapply (Huniq k1 k2 e).
  - intros x Hx. by apply list_elem_of_further.
Qed.

#[export, refine] Instance memory_objects : ObjectStore Memory := {
  store_inv := memory_inv;
  objects := mem_objects;
}.
Proof.
  - done.
  - intros m k d m' r Hinv. cbn [store_Put memory_store]. unfold mem_Put. destruct (mem_store m k d) as [m1 e] eqn:Hs. intros [= <- <-].
    destruct (mem_store_inv _ _ _ _ _ Hinv Hs) as (Hi & Ho & Hl). split; [done|]. by exists e.
  - intros m k m' r (Hs & Hc & Hrest). cbn [store_Delete memory_store]. unfold mem_Delete. intros [= <- <-].
    split; [|done]. split; [done|]. split; [|done]. cbn [mem_objects mem_log]. intros k' o. rewrite lookup_delete_Some. intros [_ ?]. by apply Hc.
  - intros m p _. eexists. split; [done|]. split; [rewrite merge_sort_Permutation; apply NoDup_filter, NoDup_fst_map_to_list|]. intros k. rewrite merge_sort_Permutation, list_elem_of_filter, list_elem_of_fmap. split.
    + intros [Hp ([k' o] & -> & Hin%elem_of_map_to_list)]. split; [|done]. by eexists.
    + intros [[o Ho] Hp]. split; [done|]. exists (k, o). split; [done|]. by apply elem_of_map_to_list.
  - intros m p m' r (Hs & Hc & Hrest). cbn [store_DeletePrefix memory_store]. unfold mem_DeletePrefix. intros [= <- <-].
    split; [|done]. split; [done|]. split; [|done]. cbn [mem_objects mem_log]. intros k' o. rewrite map_lookup_filter_Some. intros [? _]. by apply Hc.
Defined.

#[export, refine] Instance memory_conditional : ConditionalStore Memory := {
  honours m := mem_unconditional m = false;
  tagged m k e d := (k, e, d) ∈ mem_log m;
}.
Proof.
  - intros m k e d (_ & _ & Hold & _) Hin. destruct (Hold _ _ _ Hin) as (n & -> & _). done.
  - intros m k e d1 d2 (_ & _ & _ & Hu). apply Hu.
  - intros m k o (_ & Hc & _). apply Hc.
  - done.
  - intros m k d k' e x Hin. by apply list_elem_of_further.
  - done.
  - done.
  - intros m k d m' r Hinv Hu. cbn [store_PutIfAbsent memory_store]. unfold mem_PutIfAbsent. destruct (mem_store m k d) as [m1 e] eqn:Hs.
    pose proof Hs as Hu1. injection Hu1 as <- _. rewrite Hu. cbn [negb]. rewrite andb_true_r. cbn [objects memory_objects].
    destruct (mem_objects m !! k) as [o|] eqn:Hk.
    + rewrite bool_decide_eq_true_2 by by eexists. intros [= <- <-]. done.
    + rewrite bool_decide_eq_false_2 by by intros [? ?]. intros [= <- <-].
      destruct (mem_store_inv _ _ _ _ _ Hinv Hs) as (Hi & Ho & Hl). split; [done|]. split; [done|]. split; [by intros; apply Hl|]. by exists e.
  - intros m k d e m' r Hinv Hu. cbn [store_PutIfMatch memory_store]. unfold mem_PutIfMatch. destruct (mem_store m k d) as [m1 e1] eqn:Hs.
    pose proof Hs as Hu1. injection Hu1 as <- _. rewrite Hu. cbn [negb andb]. cbn [objects memory_objects].
    destruct (mem_objects m !! k) as [o|] eqn:Hk; [|by intros [= <- <-]].
    case_bool_decide; cbn [negb]; [|by intros [= <- <-]]. intros [= <- <-].
    destruct (mem_store_inv _ _ _ _ _ Hinv Hs) as (Hi & Ho & Hl). split; [done|]. split; [done|]. split; [by intros; apply Hl|]. by exists e1.
Defined.

Lemma NewMemory_inv : memory_inv NewMemory.
Proof.
  split; [done|]. cbn [NewMemory mem_objects mem_log]. split; [intros k o; by rewrite lookup_empty|].
  split; [by intros k e d ?%elem_of_nil|by intros k1 k2 e d1 d2 ?%elem_of_nil].
Qed.
