(* ===== verification/Head.v ===== *)
(** * Volume heads ([internal/replica/head.go])

    The head is the one mutable document of a volume.  [conditionalHead] keeps
    it in one object written with preconditions; [appendHead] keeps it as a log
    of versions whose keys sort newest first. *)
From stdpp Require Import pretty.
From S2P Require Import Prelude Types Store.
Local Open Scope Z_scope.

Inductive HeadMode : Type := ConditionalHead | AppendHead.

#[export] Instance HeadMode_eq_dec : EqDecision HeadMode.
Proof. solve_decision. Defined.

Definition HeadPrefix (name : string) : string := VolumePrefix name +:+ "heads/".

Definition foreignHeadError : error := Errorf "volume %s is published with the %s head; run satchel with --s3-head=%s".

(** ** [conditionalHead] *)

Section conditional.
Context {S : Type} `{Store S}.

Definition ch_read (s : S) (name : string) : result (bytes * string) :=
  obj ← store_Get s (StateKey name); Ok (obj_Data obj, obj_ETag obj).

Definition ch_commit (s : S) (name : string) (body : bytes) (prev : string) : S * result string :=
  if bool_decide (prev = EmptyString) then
    match store_List s (HeadPrefix name) with
    | Ok (_ :: _) => (s, Err foreignHeadError)
    | _ => store_PutIfAbsent s (StateKey name) body
    end
  else store_PutIfMatch s (StateKey name) body prev.

Definition ch_owns (name key : string) : bool := bool_decide (key = StateKey name).

Definition ch_remove (s : S) (name : string) : S * option error := store_Delete s (StateKey name).
End conditional.

(** ** Head versions and their keys *)

Record headVersion : Type := mkVersion { v_epoch : Z; v_token : string; v_seq : Z; v_claim : Z }.

Definition digit (n : Z) : Ascii.ascii := Ascii.ascii_of_N (Z.to_N (48 + n)).

(** The last [w] decimal digits of [n]. *)
Fixpoint digits (w : nat) (n : Z) : string :=
  match w with
  | O => EmptyString
  | Datatypes.S w => digits w (n `div` 10) +:+ String (digit (n `mod` 10)) EmptyString
  end.

(** [fmt.Sprintf("%0<w>d", n)]: at least [w] characters, the sign included. *)
Definition fmt_pad (w : nat) (n : Z) : string :=
  if n <? 0 then
    if - n <? 10 ^ (Z.of_nat w - 1) then "-" +:+ digits (w - 1) (- n) else pretty n
  else if n <? 10 ^ Z.of_nat w then digits w n else pretty n.

Definition version_key (v : headVersion) (name : string) : string :=
  HeadPrefix name +:+ fmt_pad 20 (MaxUint64 - v_epoch v) +:+ "_" +:+ v_token v +:+ "_" +:+
  fmt_pad 20 (MaxUint64 - v_seq v) +:+ "_" +:+ fmt_pad 13 (v_claim v) +:+ ".json".

Definition sameOwner (v other : headVersion) : bool :=
  (v_epoch v =? v_epoch other) && bool_decide (v_token v = v_token other).

Definition headTokenLength : nat := 36.

(** [strings.CutPrefix] and [strings.CutSuffix] *)
Fixpoint CutPrefix (s prefix : string) : option string :=
  match prefix, s with
  | EmptyString, _ => Some s
  | String a p, String b t => if Ascii.eqb a b then CutPrefix t p else None
  | String _ _, EmptyString => None
  end.

Definition CutSuffix (s suffix : string) : option string :=
  String.rev <$> CutPrefix (String.rev s) (String.rev suffix).

Definition underscore : Ascii.ascii := Ascii.ascii_of_nat 95.

(** [strings.Split(s, "_")] *)
Fixpoint split_underscore (s : string) : list string :=
  match s with
  | EmptyString => [EmptyString]
  | String c t =>
      if Ascii.eqb c underscore then EmptyString :: split_underscore t
      else match split_underscore t with
           | [] => [String c EmptyString]
           | x :: rest => String c x :: rest
           end
  end.

(** Decimal digits only; [strconv.ParseUint(s, 10, 64)]. *)
Fixpoint parse_digits (acc : Z) (s : string) : option Z :=
  match s with
  | EmptyString => Some acc
  | String c t =>
      let d := Z.of_N (Ascii.N_of_ascii c) - 48 in
      if (0 <=? d) && (d <=? 9) then parse_digits (acc * 10 + d) t else None
  end.

Definition ParseUint (s : string) : option Z :=
  if bool_decide (s = EmptyString) then None
  else n ← parse_digits 0 s; if n <=? MaxUint64 then Some n else None.

(** [strconv.ParseInt(s, 10, 64)]: an optional sign, then digits. *)
Definition ParseInt (s : string) : option Z :=
  let '(neg, rest) :=
    match s with
    | String c t => if Ascii.eqb c (Ascii.ascii_of_nat 45) then (true, t) else if Ascii.eqb c (Ascii.ascii_of_nat 43) then (false, t) else (false, s)
    | EmptyString => (false, s)
    end in
  if bool_decide (rest = EmptyString) then None
  else n ← parse_digits 0 rest;
       if neg then (if n <=? 2 ^ 63 then Some (- n) else None) else (if n <? 2 ^ 63 then Some n else None).

Definition parseHeadKey (name key : string) : option headVersion :=
  rest ← CutPrefix key (HeadPrefix name);
  rest ← CutSuffix rest ".json";
  match split_underscore rest with
  | [p0; p1; p2; p3] =>
      if negb (String.length p0 =? 20)%nat || negb (String.length p1 =? headTokenLength)%nat ||
         negb (String.length p2 =? 20)%nat || negb (String.length p3 =? 13)%nat then None
      else
        invEpoch ← ParseUint p0;
        invSeq ← ParseUint p2;
        claim ← ParseInt p3;
        Some (mkVersion (MaxUint64 - invEpoch) p1 (MaxUint64 - invSeq) claim)
  | _ => None
  end.

Record headEntry : Type := mkHeadEntry { he_key : string; he_version : headVersion }.

(** The versions among the keys of a listing, in key order. *)
Definition head_entries (name : string) (keys : list string) : list headEntry :=
  omap (fun key => mkHeadEntry key <$> parseHeadKey name key) (merge_sort String.le keys).

(** ** Decisions on a listing *)

Definition committedHead (entries : list headEntry) : option headEntry :=
  snd <$> list_find (fun e => 0 < v_seq (he_version e)) entries.

Fixpoint claimWins (entries : list headEntry) (claim : headVersion) : bool :=
  match entries with
  | [] => false
  | entry :: rest =>
      let version := he_version entry in
      if (v_epoch claim <? v_epoch version) || ((v_epoch version =? v_epoch claim) && (0 <? v_seq version)) then false
      else if v_epoch version =? v_epoch claim then bool_decide (v_token version = v_token claim)
      else claimWins rest claim
  end.

Definition baseUnchanged (entries : list headEntry) (base : headVersion) : bool :=
  if bool_decide (v_token base = EmptyString) then true
  else match list_find (fun e => sameOwner (he_version e) base = true) entries with
       | Some (_, e) => v_seq (he_version e) =? v_seq base
       | None => false
       end.

Definition ownerStillCurrent (entries : list headEntry) (version : headVersion) : bool :=
  forallb (fun e =>
    let other := he_version e in
    negb ((v_epoch version <? v_epoch other) ||
          ((v_epoch other =? v_epoch version) && negb (bool_decide (v_token other = v_token version)) && (0 <? v_seq other))) &&
    negb (sameOwner other version && (v_seq version <? v_seq other))) entries.

Definition claimPresent (entries : list headEntry) (owner : headVersion) : bool :=
  existsb (fun e => sameOwner (he_version e) owner && (v_seq (he_version e) =? 0)) entries.

Definition retainedHeadVersions : Z := 2.

Definition superseded (current : headVersion) (e : headEntry) : bool :=
  let version := he_version e in
  (v_epoch version <? v_epoch current) ||
  ((v_epoch version =? v_epoch current) && negb (bool_decide (v_token version = v_token current))) ||
  (sameOwner version current && (0 <? v_seq version) && (u64 (v_seq version + retainedHeadVersions) <=? v_seq current)).

(** ** [appendHead]

    The clock is [now], as read when an entry is examined.  Whatever other
    nodes do between two calls to the store is an argument of the operation. *)
Section append.
Context {S : Type} `{Store S}.

Record appendHead : Type := mkAppendHead { ah_settle : Z; ah_ttl : Z }.

Definition ah_owns (name key : string) : bool := HasPrefix key (HeadPrefix name).

Definition ah_list (s : S) (name : string) : result (list headEntry) :=
  keys ← store_List s (HeadPrefix name); Ok (head_entries name keys).

(** [read]; [others] are the changes other nodes make before each attempt. *)
Fixpoint ah_read (attempts : nat) (others : nat → S → S) (s : S) (name : string) : S * result (bytes * string) :=
  match attempts with
  | O => (s, Err (Errorf "head of volume %s kept changing while reading it"))
  | Datatypes.S k =>
      match ah_list s name with
      | Err e => (s, Err e)
      | Ok entries =>
          match committedHead entries with
          | None =>
              match store_Get s (StateKey name) with
              | Ok _ => (s, Err foreignHeadError)
              | Err _ => (s, Err ErrNotFound)
              end
          | Some head =>
              let s := others k s in
              match store_Get s (he_key head) with
              | Ok obj => (s, Ok (obj_Data obj, he_key head))
              | Err e => if errors_Is e ErrNotFound then ah_read k others s name else (s, Err e)
              end
          end
      end
  end.

Definition deadClaim (h : appendHead) (now : Z) (entries : list headEntry) (entry : headEntry) : bool :=
  if negb (v_seq (he_version entry) =? 0) then false
  else if existsb (fun o => sameOwner (he_version o) (he_version entry) && (0 <? v_seq (he_version o))) entries then false
  else Z.max (ah_ttl h) (2 * ah_settle h) <? now - v_claim (he_version entry) * 10 ^ 6.

(** The loop of [liveEntries].  The result is built in the array of the listing
    ([live := entries[:0]]): [array] is that array, [i] the index of the range
    loop, [k] the length of [live]; [deadClaim] reads the array as it is. *)
Fixpoint live_loop (h : appendHead) (now : headEntry → Z) (todo i k : nat) (array : list headEntry) (s : S)
    : S * result (list headEntry) :=
  match todo, array !! i with
  | Datatypes.S todo, Some entry =>
      if negb (deadClaim h (now entry) array entry) then
        live_loop h now todo (Datatypes.S i) (Datatypes.S k) (<[k := entry]> array) s
      else
        match store_Delete s (he_key entry) with
        | (s, Some e) => (s, Err (Wrap "remove abandoned head claim %s" e))
        | (s, None) => live_loop h now todo (Datatypes.S i) k array s
        end
  | _, _ => (s, Ok (take k array))
  end.

Definition liveEntries (h : appendHead) (now : headEntry → Z) (s : S) (name : string) : S * result (list headEntry) :=
  match ah_list s name with
  | Err e => (s, Err e)
  | Ok entries => live_loop h now (length entries) 0 0 entries s
  end.

(** [confirm]; the keys [pruneBehind] deletes in the background are returned. *)
Definition confirm (h : appendHead) (now : headEntry → Z) (s : S) (name key : string) (version : headVersion)
    : S * result (string * list string) :=
  match liveEntries h now s name with
  | (s, Err e) => (s, Err e)
  | (s, Ok entries) =>
      if negb (ownerStillCurrent entries version) || negb (claimPresent entries version) then (s, Err ErrPreconditionFailed)
      else (s, Ok (key, he_key <$> filter (fun e => superseded version e = true) entries))
  end.

(** [advance]; [others] happens between the write and the listing. *)
Definition advance (h : appendHead) (now : headEntry → Z) (others : S → S) (s : S) (name : string) (body : bytes) (base : headVersion)
    : S * result (string * list string) :=
  let version := mkVersion (v_epoch base) (v_token base) (u64 (v_seq base + 1)) (v_claim base) in
  let key := version_key version name in
  match store_Put s key body with
  | (s, Err e) => (s, Err e)
  | (s, Ok _) => confirm h now (others s) name key version
  end.

(** What a claim meets: the clock when it starts and after its write, the
    outcome of the sleep, the clock of the two listings, and what others do
    during the settle window, before the first version and before the last
    listing.  [cl_fresh] is the token [uuid.NewString] returns. *)
Record claim_env : Type := mkClaimEnv {
  cl_fresh : string;
  cl_started : Z;
  cl_written : Z;
  cl_slept : option error;
  cl_now1 : headEntry → Z;
  cl_now2 : headEntry → Z;
  cl_others1 : S → S;
  cl_others2 : S → S;
  cl_others3 : S → S;
}.

(** The deletions of an aborted claim; their errors are ignored. *)
Definition ah_abort {A} (s : S) (keys : list string) (cause : error) : S * result A :=
  (foldl (fun s key => (store_Delete s key).1) s keys, Err cause).

Definition claim (h : appendHead) (env : claim_env) (s : S) (name : string) (body : bytes) (base : headVersion) (next : State)
    : S * result (string * list string) :=
  let token := match st_Lease next with Some l => Token l | None => cl_fresh env end in
  if negb (String.length token =? headTokenLength)%nat then
    (s, Err (Errorf "lease token %q has the wrong length for a head key"))
  else
  let c := mkVersion (st_Epoch next) token 0 (cl_started env `div` 10 ^ 6) in
  let claimKey := version_key c name in
  match store_Put s claimKey body with
  | (s, Err e) => (s, Err e)
  | (s, Ok _) =>
      if ah_settle h `quot` 2 <? cl_written env - cl_started env then ah_abort s [claimKey] (Wrap "%w: %s" ErrClaimTooSlow) else
      let s := cl_others1 env s in
      match cl_slept env with
      | Some e => ah_abort s [claimKey] e
      | None =>
          match liveEntries h (cl_now1 env) s name with
          | (s, Err e) => ah_abort s [claimKey] e
          | (s, Ok entries) =>
              if negb (claimWins entries c) || negb (baseUnchanged entries base) then ah_abort s [claimKey] ErrPreconditionFailed
              else
                let first := mkVersion (v_epoch c) (v_token c) 1 (v_claim c) in
                let firstKey := version_key first name in
                match store_Put (cl_others2 env s) firstKey body with
                | (s, Err e) => ah_abort s [claimKey] e
                | (s, Ok _) =>
                    match confirm h (cl_now2 env) (cl_others3 env s) name firstKey first with
                    | (s, Err e) => ah_abort s [firstKey; claimKey] e
                    | (s, Ok cursor) => (s, Ok cursor)
                    end
                end
          end
      end
  end.

Definition ah_commit (h : appendHead) (env : claim_env) (now : headEntry → Z) (others : S → S) (s : S) (name : string)
    (body : bytes) (prev : string) (next : State) : S * result (string * list string) :=
  match (if bool_decide (prev = EmptyString) then Some (mkVersion 0 EmptyString 0 0) else parseHeadKey name prev) with
  | None => (s, Err (Errorf "invalid head cursor %q"))
  | Some base =>
      if v_epoch base <? st_Epoch next then claim h env s name body base next
      else if (st_Epoch next =? v_epoch base) && negb (bool_decide (prev = EmptyString)) then advance h now others s name body base
      else (s, Err (Errorf "head epoch cannot move from %d to %d"))
  end.

Definition ah_remove (s : S) (name : string) : S * option error := store_DeletePrefix s (HeadPrefix name).
End append.
