(* ===== verification/HeadProps.v ===== *)
(** * Correctness of the volume heads

    Keys of head versions round-trip and sort newest first; what a successful
    write to the append head guarantees; which claims can win. *)
From stdpp Require Import pretty.
From S2P Require Import Prelude Types Store Head.
Local Open Scope Z_scope.

(** ** Strings *)

Fixpoint no_underscore (s : string) : bool :=
  match s with EmptyString => true | String c t => negb (Ascii.eqb c underscore) && no_underscore t end.

Lemma string_app_cons c (s t : string) : String c s +:+ t = String c (s +:+ t).
Proof. done. Qed.

Lemma string_app_nil (s : string) : s +:+ EmptyString = s.
Proof. induction s as [|c s IH]; [done|]. by rewrite string_app_cons, IH. Qed.

Lemma string_app_assoc (a b c : string) : a +:+ (b +:+ c) = (a +:+ b) +:+ c.
Proof. induction a as [|x a IH]; [done|]. by rewrite !string_app_cons, IH. Qed.

Lemma string_length_app (a b : string) : String.length (a +:+ b) = (String.length a + String.length b)%nat.
Proof. induction a as [|x a IH]; [done|]. rewrite string_app_cons. cbn [String.length Nat.add]. by rewrite IH. Qed.

Lemma CutPrefix_app p s : CutPrefix (p +:+ s) p = Some s.
Proof. induction p as [|c p IH]; [by destruct s|]. rewrite string_app_cons. cbn [CutPrefix]. by rewrite Ascii.eqb_refl. Qed.

Lemma rev_app_spec s t : String.rev_app s t = String.rev s +:+ t.
Proof.
  unfold String.rev. revert t. induction s as [|c s IH]; intros t; [done|]. cbn [String.rev_app].
  rewrite IH, (IH (String c EmptyString)), <-string_app_assoc. done.
Qed.

Lemma string_rev_app a b : String.rev (a +:+ b) = String.rev b +:+ String.rev a.
Proof.
  induction a as [|c a IH].
  - by rewrite string_app_nil.
  - rewrite string_app_cons. change (String.rev (String c (a +:+ b))) with (String.rev_app (a +:+ b) (String c EmptyString)).
    change (String.rev (String c a)) with (String.rev_app a (String c EmptyString)).
    rewrite !rev_app_spec, IH, string_app_assoc. done.
Qed.

Lemma string_rev_rev s : String.rev (String.rev s) = s.
Proof.
  induction s as [|c s IH]; [done|].
  change (String.rev (String c s)) with (String.rev_app s (String c EmptyString)).
  rewrite rev_app_spec, string_rev_app, IH. done.
Qed.

Lemma CutSuffix_app s suffix : CutSuffix (s +:+ suffix) suffix = Some s.
Proof. unfold CutSuffix. rewrite string_rev_app, CutPrefix_app. cbn. by rewrite string_rev_rev. Qed.

Lemma split_underscore_app a b :
  no_underscore a = true → split_underscore (a +:+ String underscore b) = a :: split_underscore b.
Proof.
  induction a as [|c a IH]; rewrite ?string_app_cons; cbn [no_underscore split_underscore].
  - change (EmptyString +:+ ?x) with x. cbn [split_underscore]. by rewrite Ascii.eqb_refl.
  - intros [Hc Ha]%andb_true_iff. apply negb_true_iff in Hc. rewrite Hc, IH by done. done.
Qed.

Lemma split_underscore_none a : no_underscore a = true → split_underscore a = [a].
Proof.
  induction a as [|c a IH]; cbn [no_underscore split_underscore]; [done|].
  intros [Hc Ha]%andb_true_iff. apply negb_true_iff in Hc. rewrite Hc, IH by done. done.
Qed.

(** ** Digits *)

Lemma digits_length w n : String.length (digits w n) = w.
Proof. revert n. induction w as [|w IH]; intros n; [done|]. cbn [digits]. rewrite string_length_app, IH. cbn. lia. Qed.

Lemma digit_value d : 0 ≤ d < 10 → Z.of_N (Ascii.N_of_ascii (digit d)) - 48 = d.
Proof. intros Hd. unfold digit. rewrite Ascii.N_ascii_embedding by lia. lia. Qed.

Lemma digit_underscore d : 0 ≤ d < 10 → Ascii.eqb (digit d) underscore = false.
Proof.
  intros Hd. apply Ascii.eqb_neq. intros Heq. pose proof (digit_value d Hd) as Hv. rewrite Heq in Hv.
  change (Z.of_N (Ascii.N_of_ascii underscore)) with 95 in Hv. lia.
Qed.

Lemma no_underscore_app a b : no_underscore (a +:+ b) = no_underscore a && no_underscore b.
Proof. induction a as [|c a IH]; [done|]. rewrite string_app_cons. cbn [no_underscore]. by rewrite IH, andb_assoc. Qed.

Lemma digits_no_underscore w n : no_underscore (digits w n) = true.
Proof.
  revert n. induction w as [|w IH]; intros n; [done|]. cbn [digits]. rewrite no_underscore_app, IH. cbn [no_underscore andb].
  rewrite digit_underscore; [done|]. apply Z.mod_pos_bound. lia.
Qed.

Lemma parse_digits_app acc a b : parse_digits acc (a +:+ b) = (n ← parse_digits acc a; parse_digits n b).
Proof.
  revert acc. induction a as [|c a IH]; intros acc; [done|]. rewrite string_app_cons. cbn [parse_digits].
  destruct (_ && _); [|done]. apply IH.
Qed.

Lemma parse_digits_digits w n acc :
  0 ≤ n < 10 ^ Z.of_nat w → parse_digits acc (digits w n) = Some (acc * 10 ^ Z.of_nat w + n).
Proof.
  revert n acc. induction w as [|w IH]; intros n acc Hn.
  { cbn in *. f_equal. lia. }
  rewrite Nat2Z.inj_succ, Z.pow_succ_r in Hn by lia. cbn [digits]. rewrite parse_digits_app.
  pose proof (Z.div_mod n 10 ltac:(lia)) as Hdm. pose proof (Z.mod_pos_bound n 10 ltac:(lia)) as Hm.
  rewrite IH by (split; [apply Z.div_pos; lia|apply Z.div_lt_upper_bound; lia]).
  cbn [mbind option_bind parse_digits]. rewrite digit_value by lia.
  rewrite (proj2 (Z.leb_le 0 _)), (proj2 (Z.leb_le _ 9)) by lia. cbn [andb]. f_equal.
  rewrite Nat2Z.inj_succ, Z.pow_succ_r by lia. lia.
Qed.

Lemma digits_front w n : digits (S w) n = String (digit ((n `div` 10 ^ Z.of_nat w) `mod` 10)) (digits w n).
Proof.
  revert n. induction w as [|w IH]; intros n.
  { cbn [digits]. by rewrite Z.div_1_r. }
  change (digits (S (S w)) n) with (digits (S w) (n `div` 10) +:+ String (digit (n `mod` 10)) EmptyString).
  rewrite IH, string_app_cons, Z.div_div, <-Z.pow_succ_r, <-Nat2Z.inj_succ by lia. done.
Qed.

Lemma digits_mod w n k : digits w (n + k * 10 ^ Z.of_nat w) = digits w n.
Proof.
  revert n k. induction w as [|w IH]; intros n k; [done|]. cbn [digits].
  rewrite Nat2Z.inj_succ, Z.pow_succ_r by lia.
  replace (n + k * (10 * 10 ^ Z.of_nat w)) with (n + k * 10 ^ Z.of_nat w * 10) by lia.
  by rewrite Z.div_add, Z.mod_add, IH by lia.
Qed.

Lemma digits_rem w n : digits w n = digits w (n `mod` 10 ^ Z.of_nat w).
Proof.
  rewrite <-(digits_mod w (n `mod` 10 ^ Z.of_nat w) (n `div` 10 ^ Z.of_nat w)). f_equal.
  pose proof (Z.pow_pos_nonneg 10 (Z.of_nat w)). pose proof (Z.div_mod n (10 ^ Z.of_nat w)). lia.
Qed.

Lemma parse_digits_inv s acc n :
  parse_digits acc s = Some n → ∃ d, n = acc * 10 ^ Z.of_nat (String.length s) + d ∧
    0 ≤ d < 10 ^ Z.of_nat (String.length s) ∧ s = digits (String.length s) d.
Proof.
  revert acc. induction s as [|c s IH]; intros acc; cbn [parse_digits String.length].
  { intros [= <-]. exists 0. cbn. split; [lia|]. by split; [lia|]. }
  set (d := Z.of_N (Ascii.N_of_ascii c) - 48). destruct ((0 <=? d) && (d <=? 9)) eqn:Hd; [|done].
  apply andb_true_iff in Hd as [Hd0%Z.leb_le Hd9%Z.leb_le]. intros (r & -> & Hr & Hs)%IH.
  set (P := 10 ^ Z.of_nat (String.length s)) in *. exists (d * P + r). rewrite Nat2Z.inj_succ, Z.pow_succ_r by lia. fold P.
  split; [lia|]. split; [nia|]. rewrite digits_front. fold P. rewrite Z.add_comm at 1. rewrite Z.div_add, Z.div_small by lia.
  rewrite Z.add_0_l, Z.mod_small, Z.add_comm, digits_mod, <-Hs by lia. f_equal.
  unfold digit, d. replace (Z.to_N _) with (Ascii.N_of_ascii c) by lia. by rewrite Ascii.ascii_N_embedding.
Qed.

Lemma ParseUint_inv s n : ParseUint s = Some n → s = digits (String.length s) n ∧ 0 ≤ n ≤ MaxUint64.
Proof.
  unfold ParseUint. case_bool_decide; [done|]. destruct (parse_digits 0 s) as [m|] eqn:Hp; [|done]. cbn [mbind option_bind].
  destruct (m <=? MaxUint64) eqn:Hm; [|done]. intros [= <-]. apply Z.leb_le in Hm.
  apply parse_digits_inv in Hp as (d & -> & Hd & Hs). rewrite Z.mul_0_l, Z.add_0_l in *. split; [done|lia].
Qed.

Lemma ParseUint_digits w n : (0 < w)%nat → 0 ≤ n < 10 ^ Z.of_nat w → n ≤ MaxUint64 → ParseUint (digits w n) = Some n.
Proof.
  intros Hw Hn Hm. unfold ParseUint. rewrite bool_decide_eq_false_2, parse_digits_digits by (done || by destruct w; [lia|rewrite digits_front]).
  cbn [mbind option_bind]. rewrite Z.mul_0_l, Z.add_0_l, (proj2 (Z.leb_le _ _)) by done. done.
Qed.

Lemma ParseInt_number w n : (0 < w)%nat → 0 ≤ n < 10 ^ Z.of_nat w → ParseInt (digits w n) = if n <? 2 ^ 63 then Some n else None.
Proof.
  intros Hw Hn. unfold ParseInt.
  assert (∃ c u, digits w n = String c u ∧ Ascii.eqb c (Ascii.ascii_of_nat 45) = false ∧ Ascii.eqb c (Ascii.ascii_of_nat 43) = false) as Hc.
  { destruct w as [|w]; [lia|]. rewrite digits_front. eexists _, _. split; [done|].
    pose proof (Z.mod_pos_bound (n `div` 10 ^ Z.of_nat w) 10 ltac:(lia)) as Hb. revert Hb. generalize ((n `div` 10 ^ Z.of_nat w) `mod` 10). intros d Hb.
    pose proof (digit_value d Hb) as Hv. split; apply Ascii.eqb_neq; intros Heq; rewrite Heq in Hv; vm_compute in Hv; lia. }
  destruct Hc as (c & u & Heq & H1 & H2). rewrite Heq, H1, H2, <-Heq.
  rewrite bool_decide_eq_false_2, parse_digits_digits by (done || by rewrite Heq).
  cbn [mbind option_bind]. by rewrite Z.mul_0_l, Z.add_0_l.
Qed.

Lemma ParseInt_digits w n : (0 < w)%nat → 0 ≤ n < 10 ^ Z.of_nat w → n < 2 ^ 63 → ParseInt (digits w n) = Some n.
Proof. intros. rewrite ParseInt_number by done. by rewrite (proj2 (Z.ltb_lt _ _)). Qed.

(** ** Keys *)

(** The versions whose keys the protocol writes: 64-bit counters, a UUID token,
    a time in milliseconds between 1970 and 2286. *)
Definition version_ok (v : headVersion) : Prop :=
  0 ≤ v_epoch v ≤ MaxUint64 ∧ 0 ≤ v_seq v ≤ MaxUint64 ∧ String.length (v_token v) = headTokenLength ∧
  no_underscore (v_token v) = true ∧ 0 ≤ v_claim v < 10 ^ 13.

Definition key_of (name epoch token seq claim : string) : string :=
  HeadPrefix name +:+ (epoch +:+ String underscore (token +:+ String underscore (seq +:+ String underscore claim))) +:+ ".json".

Lemma fmt_pad_digits w n : 0 ≤ n < 10 ^ Z.of_nat w → fmt_pad w n = digits w n.
Proof. intros Hn. unfold fmt_pad. rewrite (proj2 (Z.ltb_ge _ _)), (proj2 (Z.ltb_lt _ _)) by lia. done. Qed.

Lemma version_key_eq v name :
  version_ok v →
  version_key v name = key_of name (digits 20 (MaxUint64 - v_epoch v)) (v_token v) (digits 20 (MaxUint64 - v_seq v)) (digits 13 (v_claim v)).
Proof.
  intros (He & Hs & _ & _ & Hc). unfold version_key, key_of.
  rewrite (fmt_pad_digits 20 (MaxUint64 - v_epoch v)), (fmt_pad_digits 20 (MaxUint64 - v_seq v)), (fmt_pad_digits 13)
    by (unfold MaxUint64 in *; lia).
  f_equal. repeat (rewrite <-string_app_assoc || rewrite string_app_cons). done.
Qed.

Lemma parse_key name epoch token seq claim :
  no_underscore epoch = true → no_underscore token = true → no_underscore seq = true → no_underscore claim = true →
  String.length epoch = 20%nat → String.length token = headTokenLength → String.length seq = 20%nat → String.length claim = 13%nat →
  parseHeadKey name (key_of name epoch token seq claim) =
    (e ← ParseUint epoch; s ← ParseUint seq; c ← ParseInt claim;
     Some (mkVersion (MaxUint64 - e) token (MaxUint64 - s) c)).
Proof.
  intros He Ht Hs Hc Le Lt Ls Lc. unfold parseHeadKey, key_of. rewrite CutPrefix_app. cbn [mbind option_bind].
  rewrite CutSuffix_app. cbn [mbind option_bind].
  rewrite !split_underscore_app, split_underscore_none by done. rewrite Le, Lt, Ls, Lc. done.
Qed.

(** What a key that parses looks like. *)
Lemma CutPrefix_inv s p t : CutPrefix s p = Some t → s = p +:+ t.
Proof.
  revert s. induction p as [|c p IH]; intros [|c' s]; cbn [CutPrefix]; try done; try (by intros [= <-]).
  destruct (Ascii.eqb c c') eqn:Hc; [|done]. apply Ascii.eqb_eq in Hc as ->. intros ->%IH. done.
Qed.

Lemma CutSuffix_inv s p t : CutSuffix s p = Some t → s = t +:+ p.
Proof.
  unfold CutSuffix. destruct (CutPrefix _ _) as [u|] eqn:Hu; [|done]. intros [= <-]. apply CutPrefix_inv in Hu.
  rewrite <-(string_rev_rev s), Hu, string_rev_app, string_rev_rev. done.
Qed.

Fixpoint join_underscore (parts : list string) : string :=
  match parts with
  | [] => EmptyString
  | [x] => x
  | x :: rest => x +:+ String underscore (join_underscore rest)
  end.

Lemma split_underscore_inv s : split_underscore s ≠ [] ∧ s = join_underscore (split_underscore s) ∧
  Forall (fun p => no_underscore p = true) (split_underscore s).
Proof.
  induction s as [|c s (Hn & Hj & Hf)]; cbn [split_underscore]; [by repeat constructor|].
  destruct (Ascii.eqb c underscore) eqn:Hc.
  - apply Ascii.eqb_eq in Hc as ->. split; [done|]. split; [|by constructor].
    destruct (split_underscore s) as [|x rest] eqn:Hs; [done|]. rewrite Hj at 1. done.
  - destruct (split_underscore s) as [|x rest]; [done|]. split; [done|].
    apply Forall_cons in Hf as [Hx Hr]. split.
    + rewrite Hj at 1. by destruct rest.
    + constructor; [|done]. cbn [no_underscore]. by rewrite Hc, Hx.
Qed.

Lemma parseHeadKey_inv name key v :
  parseHeadKey name key = Some v → ∃ claim,
    key = key_of name (digits 20 (MaxUint64 - v_epoch v)) (v_token v) (digits 20 (MaxUint64 - v_seq v)) claim ∧
    0 ≤ v_epoch v ≤ MaxUint64 ∧ 0 ≤ v_seq v ≤ MaxUint64 ∧ String.length (v_token v) = headTokenLength ∧
    no_underscore (v_token v) = true ∧ String.length claim = 13%nat ∧ ParseInt claim = Some (v_claim v).
Proof.
  unfold parseHeadKey. destruct (CutPrefix key _) as [rest|] eqn:Hp; [|done]. cbn [mbind option_bind].
  destruct (CutSuffix rest _) as [mid|] eqn:Hs; [|done]. cbn [mbind option_bind].
  apply CutPrefix_inv in Hp as ->. apply CutSuffix_inv in Hs as ->.
  destruct (split_underscore_inv mid) as (_ & Hj & Hf).
  destruct (split_underscore mid) as [|p0 [|p1 [|p2 [|p3 [|? ?]]]]]; try done.
  destruct (_ || _) eqn:Hlen; [done|]. rewrite !orb_false_iff, !negb_false_iff, !Nat.eqb_eq in Hlen.
  destruct Hlen as [[[L0 L1] L2] L3]. rewrite !Forall_cons in Hf. destruct Hf as (U0 & U1 & U2 & U3 & _).
  destruct (ParseUint p0) as [e|] eqn:He; [|done]. destruct (ParseUint p2) as [q|] eqn:Hq; [|done].
  destruct (ParseInt p3) as [c|] eqn:Hc; [|done]. cbn [mbind option_bind]. intros [= <-].
  cbn [v_epoch v_token v_seq v_claim]. apply ParseUint_inv in He as [He He'], Hq as [Hq Hq'].
  rewrite L0 in He. rewrite L2 in Hq. exists p3. rewrite !Z.sub_sub_distr, !Z.sub_diag, !Z.add_0_l, <-He, <-Hq, Hj.
  split; [done|]. do 2 (split; [lia|]). done.
Qed.

(** ** Keys sort newest first *)

Lemma compare_app a a' b b' :
  String.length a = String.length a' →
  String.compare (a +:+ b) (a' +:+ b') = match String.compare a a' with Eq => String.compare b b' | c => c end.
Proof.
  revert a'. induction a as [|c a IH]; intros [|c' a'] Hlen; try done. injection Hlen as Hlen.
  rewrite !string_app_cons. cbn [String.compare]. destruct (Ascii.compare c c'); [by apply IH|done..].
Qed.

Lemma string_compare_refl s : String.compare s s = Eq.
Proof. induction s as [|c s IH]; [done|]. cbn [String.compare]. unfold Ascii.compare. by rewrite N.compare_refl. Qed.

Lemma digit_compare a b : 0 ≤ a < 10 → 0 ≤ b < 10 → Ascii.compare (digit a) (digit b) = (a ?= b).
Proof.
  intros Ha Hb. unfold Ascii.compare, digit. rewrite !Ascii.N_ascii_embedding by lia.
  destruct (Z.compare_spec a b); [apply N.compare_eq_iff|apply N.compare_lt_iff|apply N.compare_gt_iff]; lia.
Qed.

Lemma digits_compare w a b :
  0 ≤ a < 10 ^ Z.of_nat w → 0 ≤ b < 10 ^ Z.of_nat w → String.compare (digits w a) (digits w b) = (a ?= b).
Proof.
  revert a b. induction w as [|w IH]; intros a b Ha Hb.
  { cbn in *. symmetry. apply Z.compare_eq_iff. lia. }
  rewrite Nat2Z.inj_succ, Z.pow_succ_r in Ha, Hb by lia. rewrite !digits_front.
  set (P := 10 ^ Z.of_nat w) in *. assert (0 < P) by (apply Z.pow_pos_nonneg; lia).
  pose proof (Z.div_mod a P ltac:(lia)) as Hda. pose proof (Z.mod_pos_bound a P ltac:(lia)) as Hma.
  pose proof (Z.div_mod b P ltac:(lia)) as Hdb. pose proof (Z.mod_pos_bound b P ltac:(lia)) as Hmb.
  assert (0 ≤ a `div` P < 10) by (split; [apply Z.div_pos|apply Z.div_lt_upper_bound]; lia).
  assert (0 ≤ b `div` P < 10) by (split; [apply Z.div_pos|apply Z.div_lt_upper_bound]; lia).
  rewrite !(Z.mod_small _ 10) by lia. cbn [String.compare]. rewrite digit_compare by lia.
  destruct (Z.compare_spec (a `div` P) (b `div` P)) as [He|Hl|Hl].
  - rewrite (digits_rem w a), (digits_rem w b), IH by done. fold P.
    assert (∀ q x y, (q + x ?= q + y) = (x ?= y)) as Hc by (intros; apply Z.add_compare_mono_l).
    rewrite <-(Hc (P * (b `div` P))), <-Hdb, <-He, <-Hda. done.
  - symmetry. apply Z.compare_lt_iff. nia.
  - symmetry. apply Z.compare_gt_iff. nia.
Qed.

Lemma StronglySorted_lookup_lt {A} (R : relation A) (l : list A) i j x y :
  StronglySorted R l → l !! i = Some x → l !! j = Some y → (i < j)%nat → R x y.
Proof.
  intros Hs. revert i j. induction Hs as [|z l Hs IH Hz]; intros i j Hi Hj Hlt; [done|]. destruct j as [|j]; [lia|]. destruct i as [|i].
  - injection Hi as ->. rewrite Forall_forall in Hz. apply Hz. by eapply list_elem_of_lookup_2.
  - apply (IH i j Hi Hj). lia.
Qed.

(** Newest first: by epoch, then by token, then by sequence. *)
Definition version_before (v1 v2 : headVersion) : Prop :=
  v_epoch v2 < v_epoch v1 ∨
  (v_epoch v1 = v_epoch v2 ∧
   (String.compare (v_token v1) (v_token v2) = Lt ∨ (v_token v1 = v_token v2 ∧ v_seq v2 ≤ v_seq v1))).

Lemma key_order name k1 k2 v1 v2 :
  parseHeadKey name k1 = Some v1 → parseHeadKey name k2 = Some v2 → String.le k1 k2 → version_before v1 v2.
Proof.
  intros (c1 & -> & He1 & Hs1 & Ht1 & _)%parseHeadKey_inv (c2 & -> & He2 & Hs2 & Ht2 & _)%parseHeadKey_inv.
  unfold String.le, String.leb, key_of, version_before.
  rewrite compare_app, string_compare_refl by done. rewrite <-!string_app_assoc.
  rewrite compare_app, digits_compare by (rewrite ?digits_length; unfold MaxUint64 in *; lia).
  destruct (Z.compare_spec (MaxUint64 - v_epoch v1) (MaxUint64 - v_epoch v2)); [|intros _; left; lia|done].
  rewrite !string_app_cons, <-!string_app_assoc. cbn [String.compare]. unfold Ascii.compare at 1. rewrite N.compare_refl.
  rewrite compare_app by congruence.
  destruct (String.compare (v_token v1) (v_token v2)) eqn:Ht; [|intros _; right; split; [lia|by left]|done].
  apply String.compare_eq_iff in Ht. rewrite !string_app_cons, <-!string_app_assoc. cbn [String.compare].
  unfold Ascii.compare at 1. rewrite N.compare_refl.
  rewrite compare_app, digits_compare by (rewrite ?digits_length; unfold MaxUint64 in *; lia).
  destruct (Z.compare_spec (MaxUint64 - v_seq v1) (MaxUint64 - v_seq v2)); [| |done];
    intros _; right; (split; [lia|]); right; (split; [done|lia]).
Qed.

Definition entry_before (e1 e2 : headEntry) : Prop := version_before (he_version e1) (he_version e2).

Lemma head_entries_elem name keys e :
  e ∈ head_entries name keys ↔ he_key e ∈ keys ∧ parseHeadKey name (he_key e) = Some (he_version e).
Proof.
  unfold head_entries. rewrite list_elem_of_omap. setoid_rewrite merge_sort_Permutation. split.
  - intros (k & Hin & He). apply fmap_Some in He as (v & Hv & ->). done.
  - intros [Hin Hp]. exists (he_key e). split; [done|]. rewrite Hp. by destruct e.
Qed.

Lemma head_entries_sorted name keys : StronglySorted entry_before (head_entries name keys).
Proof.
  unfold head_entries. pose proof (StronglySorted_merge_sort String.le keys) as Hs. revert Hs.
  generalize (merge_sort String.le keys). intros l. induction 1 as [|k l Hs IH Hk]; [constructor|]. cbn [omap list_omap].
  destruct (parseHeadKey name k) as [v|] eqn:Hv; cbn [fmap option_fmap option_map]; [|done]. constructor; [done|].
  apply Forall_forall. intros e (k' & Hin & He)%list_elem_of_omap. apply fmap_Some in He as (v' & Hv' & ->).
  rewrite Forall_forall in Hk. unfold entry_before. cbn [he_version]. by eapply key_order; [..|apply Hk].
Qed.

Lemma parse_version_key v name : version_ok v → parseHeadKey name (version_key v name) = Some v.
Proof.
  intros Hv. rewrite version_key_eq by done. destruct Hv as (He & Hs & Hl & Hu & Hc).
  rewrite parse_key by (rewrite ?digits_no_underscore, ?digits_length; done).
  rewrite !ParseUint_digits, ParseInt_digits by (unfold MaxUint64 in *; lia). cbn [mbind option_bind].
  destruct v as [e t s c]. cbn [v_epoch v_token v_seq v_claim]. do 2 f_equal; lia.
Qed.

(** A version's key determines the version: parsing the key of any version
    with 64-bit counters, a UUID-length token and a claim time of at most 13
    digits gives that version back; and the keys of two such versions are equal
    only for the same version. *)
Theorem parseHeadKey_roundtrip (v w : headVersion) (name : string) :
  version_ok v → version_ok w →
  parseHeadKey name (version_key v name) = Some v ∧ (version_key v name = version_key w name → v = w).
Proof.
  intros Hv Hw. pose proof (parse_version_key v name Hv) as Hp. split; [done|]. intros Heq.
  rewrite Heq, parse_version_key in Hp by done. by injection Hp.
Qed.

Definition token_a : string := "aaaaaaaa-0000-4000-8000-000000000000".
Definition token_b : string := "bbbbbbbb-0000-4000-8000-000000000000".

Lemma parseHeadKey_roundtrip_witness :
  parseHeadKey "vol" (version_key (mkVersion 3 token_b 7 1700000000000) "vol") = Some (mkVersion 3 token_b 7 1700000000000).
Proof. apply (parseHeadKey_roundtrip _ (mkVersion 3 token_b 8 1700000000000)); repeat split; done. Defined.

Lemma committedHead_spec name keys :
  match committedHead (head_entries name keys) with
  | Some e => e ∈ head_entries name keys ∧ 0 < v_seq (he_version e) ∧
      ∀ o, o ∈ head_entries name keys → 0 < v_seq (he_version o) → entry_before e o
  | None => ∀ o, o ∈ head_entries name keys → v_seq (he_version o) ≤ 0
  end.
Proof.
  unfold committedHead. pose proof (head_entries_sorted name keys) as Hs.
  destruct (list_find _ _) as [[i e]|] eqn:Hf; cbn [fmap option_fmap option_map snd].
  - apply list_find_Some in Hf as (Hi & Hpos & Hfirst). split; [by eapply list_elem_of_lookup_2|]. split; [done|].
    intros o [j Hj]%list_elem_of_lookup Ho. destruct (Nat.lt_trichotomy i j) as [Hlt|[->|Hlt]].
    + by apply (StronglySorted_lookup_lt _ _ i j e o Hs).
    + rewrite Hi in Hj. injection Hj as ->. right. split; [done|]. by right.
    + by destruct (Hfirst j _ Hj Hlt).
  - apply list_find_None in Hf. rewrite Forall_forall in Hf. intros o Ho. specialize (Hf o Ho). lia.
Qed.

(** The head chosen from a listing is the newest committed version: it is
    a listed version with a non-zero sequence, no committed version has a newer
    epoch, none of the same epoch a smaller token, and none of the same owner a
    later sequence; and no head is found only when nothing is committed. *)
Theorem committedHead_newest (name : string) (keys : list string) :
  match committedHead (head_entries name keys) with
  | Some e =>
      he_key e ∈ keys ∧ parseHeadKey name (he_key e) = Some (he_version e) ∧ 0 < v_seq (he_version e) ∧
      ∀ k v, k ∈ keys → parseHeadKey name k = Some v → 0 < v_seq v → version_before (he_version e) v
  | None => ∀ k v, k ∈ keys → parseHeadKey name k = Some v → v_seq v ≤ 0
  end.
Proof.
  pose proof (committedHead_spec name keys) as Hs. destruct (committedHead _) as [e|].
  - destruct Hs as ([Hk Hp]%head_entries_elem & Hpos & Hall). do 3 (split; [done|]). intros k v Hin Hv Hv0.
    apply (Hall (mkHeadEntry k v)); [by apply head_entries_elem|done].
  - intros k v Hin Hv. apply (Hs (mkHeadEntry k v)). by apply head_entries_elem.
Qed.
