(* ===== verification/HeadTheorems.v ===== *)
(** * What writes to a volume head guarantee

    Over any store that satisfies the laws of [ObjectStore]: abandoned claims
    are reaped, an [advance] is fenced and becomes the head, a [claim] never
    succeeds beside a committed rival, and the conditional head is a
    compare-and-swap. *)
From stdpp Require Import pretty.
From S2P Require Import Prelude Types Store Head HeadProps.
Local Open Scope Z_scope.

Section heads.
Context {S : Type} `{ObjectStore S}.
Implicit Types (s : S) (e : headEntry) (h : appendHead) (now : headEntry → Z).

(** ** Listings *)

(** A version of the volume that is in the store. *)
Definition listed s (name : string) e : Prop :=
  is_Some (objects s !! he_key e) ∧ parseHeadKey name (he_key e) = Some (he_version e).

Definition committed_owner s name (v : headVersion) : Prop :=
  ∃ o, listed s name o ∧ sameOwner (he_version o) v = true ∧ 0 < v_seq (he_version o).

(** A claim that never became a version and is older than the lease. *)
Definition abandoned h now s name e : Prop :=
  v_seq (he_version e) = 0 ∧ ¬ committed_owner s name (he_version e) ∧
  Z.max (ah_ttl h) (2 * ah_settle h) < now e - v_claim (he_version e) * 10 ^ 6.

Lemma parse_HasPrefix name key v : parseHeadKey name key = Some v → HasPrefix key (HeadPrefix name) = true.
Proof. intros (c & -> & _)%parseHeadKey_inv. apply HasPrefix_app. Qed.

Lemma ah_list_spec s name :
  store_inv s → ∃ entries, ah_list s name = Ok entries ∧ (∀ e, e ∈ entries ↔ listed s name e) ∧ StronglySorted entry_before entries ∧
    ∃ keys, entries = head_entries name keys.
Proof.
  intros Hinv. destruct (list_law s (HeadPrefix name) Hinv) as (keys & Hl & _ & Hk). unfold ah_list. rewrite Hl. cbn [mbind result_mbind].
  eexists. split; [done|]. split; [|split; [apply head_entries_sorted|by exists keys]].
  intros e. rewrite head_entries_elem, Hk. unfold listed. split; [naive_solver|].
  intros [Hs Hp]. split; [|done]. split; [done|]. by eapply parse_HasPrefix.
Qed.

Lemma sorted_filter {A} (R : relation A) (P : A → Prop) `{∀ x, Decision (P x)} (l : list A) :
  StronglySorted R l → StronglySorted R (filter P l).
Proof.
  induction 1 as [|x l Hs IH Hx]; [constructor|]. rewrite filter_cons. destruct (decide (P x)); [|done].
  constructor; [done|]. rewrite Forall_forall in *. intros y [_ Hy]%list_elem_of_filter. by apply Hx.
Qed.

(** ** [liveEntries]

    The loop filters in place; what [deadClaim] reads of the array is not
    affected by that, because committed versions are always kept. *)
Definition dead_in h now (entries : list headEntry) e : bool := deadClaim h (now e) entries e.

Definition live_of h now (entries : list headEntry) : list headEntry := filter (fun e => dead_in h now entries e = false) entries.
Definition dead_of h now (entries : list headEntry) : list headEntry := filter (fun e => dead_in h now entries e = true) entries.

Lemma deadClaim_ext h t a b e :
  (∀ o, 0 < v_seq (he_version o) → o ∈ a ↔ o ∈ b) → deadClaim h t a e = deadClaim h t b e.
Proof.
  intros Hab. unfold deadClaim. destruct (negb _); [done|].
  set (f := fun o => _ && _). assert (existsb f a = existsb f b) as ->; [|done].
  apply eq_true_iff_eq. rewrite !existsb_exists. subst f. cbn beta.
  setoid_rewrite andb_true_iff. setoid_rewrite Z.ltb_lt. setoid_rewrite <-list_elem_of_In.
  split; intros (o & Hin & Ho & Hs); exists o; (split; [|done]); by apply (Hab o Hs).
Qed.

Lemma dead_committed h t entries e : 0 < v_seq (he_version e) → deadClaim h t entries e = false.
Proof. intros Hs. unfold deadClaim. by rewrite (proj2 (Z.eqb_neq _ _)) by lia. Qed.

(** The array while the loop is at index [i] with [k] survivors. *)
Definition live_state h now (orig : list headEntry) (i k : nat) (array : list headEntry) : Prop :=
  (k ≤ i)%nat ∧ length array = length orig ∧ drop i array = drop i orig ∧
  take k array = filter (fun e => dead_in h now orig e = false) (take i orig) ∧ Forall (fun e => e ∈ orig) array.

Lemma live_state_committed h now orig i k array o :
  live_state h now orig i k array → 0 < v_seq (he_version o) → o ∈ array ↔ o ∈ orig.
Proof.
  intros (Hk & Hlen & Hd & Ht & Hf) Ho. rewrite Forall_forall in Hf. split; [by intros ?%Hf|].
  rewrite <-(take_drop i orig) at 1. rewrite elem_of_app, <-Hd. intros [Hin|Hin].
  - assert (o ∈ take k array) as Hin' by (rewrite Ht; apply list_elem_of_filter; split; [by apply dead_committed|done]).
    rewrite <-(take_drop k array). apply elem_of_app. by left.
  - rewrite <-(take_drop i array). apply elem_of_app. by right.
Qed.

Lemma live_state_step h now orig i k array e :
  live_state h now orig i k array → array !! i = Some e →
  orig !! i = Some e ∧ dead_in h now array e = dead_in h now orig e ∧
  if dead_in h now orig e then live_state h now orig (Datatypes.S i) k array
  else live_state h now orig (Datatypes.S i) (Datatypes.S k) (<[k := e]> array).
Proof.
  intros Hst Hi. pose proof (fun o => live_state_committed _ _ _ _ _ _ o Hst) as Hc. destruct Hst as (Hk & Hlen & Hd & Ht & Hf).
  assert (orig !! i = Some e) as Hoi by (rewrite <-(Nat.add_0_r i), <-lookup_drop, <-Hd, lookup_drop, Nat.add_0_r; done).
  split; [done|]. split; [by apply deadClaim_ext|].
  assert (∀ a : list headEntry, drop i a = drop i orig → drop (Datatypes.S i) a = drop (Datatypes.S i) orig) as Hdrop.
  { intros a Ha. rewrite <-Nat.add_1_r, <-!drop_drop. by rewrite Ha. }
  assert (i < length array)%nat by by eapply lookup_lt_Some.
  destruct (dead_in h now orig e) eqn:Hdead.
  - split; [lia|]. split; [done|]. split; [by apply Hdrop|]. split; [|done].
    rewrite (take_S_r _ _ e) by done. rewrite filter_app, filter_cons_False, filter_nil, app_nil_r by by rewrite Hdead. done.
  - split; [lia|]. split; [by rewrite length_insert|]. split; [by rewrite drop_insert_lt by lia; apply Hdrop|]. split.
    + rewrite (take_S_r _ _ e) by (by rewrite list_lookup_insert_eq by lia). rewrite take_insert_ge by lia.
      rewrite (take_S_r _ _ e) by done. rewrite filter_app, filter_cons_True, filter_nil, Ht by done. done.
    + apply Forall_insert; [done|]. by eapply list_elem_of_lookup_2.
Qed.

Lemma live_loop_spec h now orig todo i k array s :
  store_inv s → live_state h now orig i k array → (i + todo = length orig)%nat →
  ∃ s', live_loop h now todo i k array s = (s', Ok (live_of h now orig)) ∧ store_inv s' ∧
    ∀ key, objects s' !! key =
      if bool_decide (key ∈ he_key <$> filter (fun e => dead_in h now orig e = true) (drop i orig)) then None else objects s !! key.
Proof.
  revert i k array s. induction todo as [|todo IH]; intros i k array s Hinv Hst Hlen.
  { exists s. cbn [live_loop]. pose proof Hst as (_ & _ & _ & Ht & _). rewrite Ht, take_ge, drop_ge by lia. done. }
  cbn [live_loop]. pose proof Hst as (_ & Hla & _ & _ & _).
  destruct (array !! i) as [e|] eqn:Hi; [|apply lookup_ge_None in Hi; lia].
  destruct (live_state_step _ _ _ _ _ _ _ Hst Hi) as (Hoi & Hdead & Hnext). fold (dead_in h now array e). rewrite Hdead.
  rewrite (drop_S _ e) by done. destruct (dead_in h now orig e) eqn:He; cbn [negb].
  - destruct (store_Delete s (he_key e)) as [s1 r] eqn:Hdel. destruct (delete_law _ _ _ _ Hinv Hdel) as (Hinv1 & -> & Ho).
    destruct (IH (Datatypes.S i) k array s1 Hinv1 Hnext ltac:(lia)) as (s' & -> & Hinv' & Hk). exists s'. split; [done|]. split; [done|].
    intros key. rewrite Hk, Ho, lookup_delete, filter_cons_True, fmap_cons by done.
    destruct (decide (he_key e = key)) as [->|Hne].
    + rewrite (bool_decide_eq_true_2 (key ∈ key :: _)) by left. by case_bool_decide.
    + apply not_eq_sym in Hne. erewrite (bool_decide_ext (key ∈ he_key e :: _)); [done|]. rewrite elem_of_cons. naive_solver.
  - destruct (IH (Datatypes.S i) (Datatypes.S k) (<[k:=e]> array) s Hinv Hnext ltac:(lia)) as (s' & -> & Hinv' & Hk).
    exists s'. split; [done|]. split; [done|]. intros key. by rewrite Hk, filter_cons_False by by rewrite He.
Qed.

Lemma abandoned_dead h now s name entries e :
  (∀ e, e ∈ entries ↔ listed s name e) → 0 ≤ v_seq (he_version e) →
  dead_in h now entries e = true ↔ abandoned h now s name e.
Proof.
  intros Hl Hseq. unfold dead_in, deadClaim, abandoned, committed_owner. destruct (v_seq (he_version e) =? 0) eqn:Hz; cbn [negb]; zbool; [|lia || naive_solver].
  destruct (existsb _ _) eqn:Hex.
  - split; [done|]. intros (_ & Hno & _). destruct Hno. apply existsb_exists in Hex as (o & Hin%list_elem_of_In & Ho).
    apply andb_true_iff in Ho as [Ho Hs%Z.ltb_lt]. exists o. by rewrite <-Hl.
  - rewrite Z.ltb_lt. split; [|by intros (_ & _ & ?)]. intros Hage. split; [done|]. split; [|done].
    intros (o & Ho%Hl & Hso & Hs). rewrite <-not_true_iff_false in Hex. apply Hex, existsb_exists. exists o.
    split; [by apply list_elem_of_In|]. rewrite Hso. cbn [andb]. by apply Z.ltb_lt.
Qed.

Lemma listed_seq s name e : listed s name e → 0 ≤ v_seq (he_version e) ≤ MaxUint64.
Proof. intros [_ (c & _ & _ & Hs & _)%parseHeadKey_inv]. done. Qed.

Lemma liveEntries_spec h now s name :
  store_inv s → ∃ s' live, liveEntries h now s name = (s', Ok live) ∧ store_inv s' ∧ StronglySorted entry_before live ∧
    (∀ e, e ∈ live ↔ listed s name e ∧ ¬ abandoned h now s name e) ∧
    (∀ e, listed s' name e ↔ listed s name e ∧ ¬ abandoned h now s name e) ∧
    ∀ key, objects s' !! key = objects s !! key ∨
      (objects s' !! key = None ∧ ∃ e, he_key e = key ∧ listed s name e ∧ abandoned h now s name e).
Proof.
  intros Hinv. destruct (ah_list_spec s name Hinv) as (entries & Hl & Hmem & Hsort & keys & Hkeys). unfold liveEntries. rewrite Hl.
  destruct (live_loop_spec h now entries (length entries) 0 0 entries s Hinv) as (s' & Hloop & Hinv' & Hobj); [|done|].
  { split; [done|]. do 3 (split; [done|]). apply Forall_forall. done. }
  exists s', (live_of h now entries). split; [done|]. split; [done|].
  assert (∀ e, e ∈ live_of h now entries ↔ listed s name e ∧ ¬ abandoned h now s name e) as Hlive.
  { intros e. unfold live_of. rewrite list_elem_of_filter, Hmem. split.
    - intros [Hd He]. split; [done|]. intros Ha. apply (abandoned_dead _ _ _ _ entries) in Ha; [congruence|done|]. by apply (listed_seq s name).
    - intros [He Ha]. split; [|done]. apply not_true_iff_false. intros Hd. apply Ha.
      apply (abandoned_dead _ _ _ _ entries); [done| |done]. by apply (listed_seq s name). }
  rewrite drop_0 in Hobj. fold (dead_of h now entries) in Hobj.
  assert (∀ key, key ∈ he_key <$> dead_of h now entries ↔ ∃ e, he_key e = key ∧ listed s name e ∧ abandoned h now s name e) as Hdead.
  { intros key. rewrite list_elem_of_fmap. unfold dead_of. split.
    - intros (e & -> & He). apply list_elem_of_filter in He as [Hd He%Hmem]. exists e. do 2 (split; [done|]).
      apply (abandoned_dead _ _ _ _ entries); [done| |done]. by apply (listed_seq s name).
    - intros (e & <- & He & Ha). exists e. split; [done|]. apply list_elem_of_filter. split; [|by apply Hmem].
      apply (abandoned_dead h now s name entries); [done| |done]. by apply (listed_seq s name). }
  split; [|split; [exact Hlive|split]].
  - unfold live_of. by apply sorted_filter.
  - intros e. rewrite <-Hlive. unfold live_of. rewrite list_elem_of_filter, Hmem. unfold listed. rewrite Hobj. split.
    + intros [Hs Hp]. case_bool_decide as Hin; [by destruct Hs|]. split; [|done]. apply not_true_iff_false. intros Hd. apply Hin.
      apply list_elem_of_fmap. exists e. split; [done|]. apply list_elem_of_filter. split; [done|]. by apply Hmem.
    + intros (Hd & Hs & Hp). split; [|done]. rewrite bool_decide_eq_false_2; [done|].
      intros (e' & Hk & He')%list_elem_of_fmap. apply list_elem_of_filter in He' as [Hd' [_ Hp']%Hmem].
      assert (e = e') as -> by (destruct e as [k1 v1], e' as [k2 v2]; cbn [he_key he_version] in *; congruence). congruence.
  - intros key. rewrite Hobj. case_bool_decide as Hin; [right|by left]. split; [done|]. by apply Hdead.
Qed.

(** ** [confirm] *)

(** A live version that stands against [v] being the head. *)
Definition rival (v other : headVersion) : Prop :=
  v_epoch v < v_epoch other ∨
  (v_epoch other = v_epoch v ∧ v_token other ≠ v_token v ∧ 0 < v_seq other) ∨
  (sameOwner other v = true ∧ v_seq v < v_seq other).

Definition fenced h now s name (v : headVersion) : Prop :=
  ∃ e, listed s name e ∧ ¬ abandoned h now s name e ∧ rival v (he_version e).

Definition claimed h now s name (v : headVersion) : Prop :=
  ∃ e, listed s name e ∧ ¬ abandoned h now s name e ∧ sameOwner (he_version e) v = true ∧ v_seq (he_version e) = 0.

Lemma sameOwner_true v w : sameOwner v w = true ↔ v_epoch v = v_epoch w ∧ v_token v = v_token w.
Proof. unfold sameOwner. by rewrite andb_true_iff, Z.eqb_eq, bool_decide_eq_true. Qed.

Lemma forallb_false {A} (f : A → bool) (l : list A) : forallb f l = false ↔ ∃ x, x ∈ l ∧ f x = false.
Proof.
  induction l as [|x l IH]; cbn [forallb]; [split; [done|by intros (x & ?%elem_of_nil & _)]|].
  rewrite andb_false_iff, IH. setoid_rewrite elem_of_cons. naive_solver.
Qed.

Lemma ownerStillCurrent_false live v : ownerStillCurrent live v = false ↔ ∃ e, e ∈ live ∧ rival v (he_version e).
Proof.
  unfold ownerStillCurrent. rewrite forallb_false. apply exist_proper. intros e. apply and_iff_compat_l.
  rewrite andb_false_iff, !negb_false_iff, orb_true_iff, !andb_true_iff, negb_true_iff, !Z.ltb_lt, Z.eqb_eq, bool_decide_eq_false.
  unfold rival. naive_solver.
Qed.

Lemma claimPresent_true live v :
  claimPresent live v = true ↔ ∃ e, e ∈ live ∧ sameOwner (he_version e) v = true ∧ v_seq (he_version e) = 0.
Proof.
  unfold claimPresent. rewrite existsb_exists. apply exist_proper. intros e. by rewrite <-list_elem_of_In, andb_true_iff, Z.eqb_eq.
Qed.

(** What [liveEntries] leaves in the store. *)
Definition reaped h now s name s' : Prop :=
  store_inv s' ∧ (∀ e, listed s' name e ↔ listed s name e ∧ ¬ abandoned h now s name e) ∧
  ∀ key, objects s' !! key = objects s !! key ∨
      (objects s' !! key = None ∧ ∃ e, he_key e = key ∧ listed s name e ∧ abandoned h now s name e).

Lemma confirm_spec h now s name key v :
  store_inv s → ∃ s', reaped h now s name s' ∧
    ((¬ fenced h now s name v ∧ claimed h now s name v ∧
      ∃ pruned, confirm h now s name key v = (s', Ok (key, pruned)) ∧
        ∀ k, k ∈ pruned → ∃ e, he_key e = k ∧ listed s name e ∧ superseded v e = true) ∨
     ((fenced h now s name v ∨ ¬ claimed h now s name v) ∧ confirm h now s name key v = (s', Err ErrPreconditionFailed))).
Proof.
  intros Hinv. destruct (liveEntries_spec h now s name Hinv) as (s' & live & Hl & Hinv' & Hsort & Hlive & Hlisted & Hobj).
  exists s'. split; [done|]. unfold confirm. rewrite Hl.
  assert (ownerStillCurrent live v = false ↔ fenced h now s name v) as Hf.
  { rewrite ownerStillCurrent_false. unfold fenced. setoid_rewrite Hlive. naive_solver. }
  assert (claimPresent live v = true ↔ claimed h now s name v) as Hc.
  { rewrite claimPresent_true. unfold claimed. setoid_rewrite Hlive. naive_solver. }
  destruct (ownerStillCurrent live v) eqn:Hcur; cbn [negb orb]; [|right; split; [left; by apply Hf|done]].
  destruct (claimPresent live v) eqn:Hpres; cbn [negb]; [left|right; split; [right; rewrite <-Hc; done|done]].
  split; [by rewrite <-Hf|]. split; [by apply Hc|]. eexists. split; [done|].
  intros k (e & -> & He)%list_elem_of_fmap. apply list_elem_of_filter in He as [Hs [He _]%Hlive]. by exists e.
Qed.

(** ** Reading the head *)

(** Only its owner writes keys with a token, and with its claim time. *)
Definition owner_keys s name (v : headVersion) : Prop :=
  ∀ o, listed s name o → sameOwner (he_version o) v = true →
    he_key o = version_key (mkVersion (v_epoch v) (v_token v) (v_seq (he_version o)) (v_claim v)) name.

Lemma read_head s name e obj :
  store_inv s → objects s !! he_key e = Some obj → listed s name e → 0 < v_seq (he_version e) →
  (∀ o, listed s name o → 0 < v_seq (he_version o) → version_before (he_version o) (he_version e) → he_key o = he_key e) →
  ah_read 4 (fun _ s => s) s name = (s, Ok (obj_Data obj, he_key e)).
Proof.
  intros Hinv Ho He Hseq Hfirst. destruct (ah_list_spec s name Hinv) as (entries & Hl & Hmem & _ & keys & ->).
  cbn [ah_read]. rewrite Hl. pose proof (committedHead_spec name keys) as Hnew.
  destruct (committedHead (head_entries name keys)) as [o|].
  - destruct Hnew as (Hin & Ho0 & Hnew). apply Hmem in Hin. rewrite (Hfirst o Hin Ho0); [by rewrite get_law, Ho|].
    apply Hnew; [by apply Hmem|done].
  - specialize (Hnew e). rewrite Hmem in Hnew. specialize (Hnew He). lia.
Qed.

Lemma unfenced_first h now s name v o :
  ¬ fenced h now s name v → listed s name o → 0 < v_seq (he_version o) → version_before (he_version o) v →
  sameOwner (he_version o) v = true ∧ v_seq (he_version o) = v_seq v.
Proof.
  intros Hf Ho Hs Hb.
  assert (¬ rival v (he_version o)) as Hr.
  { intros Hr. apply Hf. exists o. split; [done|]. split; [|done]. intros (Hz & _). lia. }
  unfold rival in Hr. rewrite sameOwner_true in *. destruct Hb as [Hb|(He & [Ht|[Ht Hq]])].
  - destruct Hr. by left.
  - destruct Hr. right; left. split; [done|]. split; [|done]. intros Heq. rewrite Heq, string_compare_refl in Ht. done.
  - split; [done|]. destruct (decide (v_seq v < v_seq (he_version o))); [|lia]. destruct Hr. right; right. done.
Qed.

(** ** [advance] *)

Definition next_version (base : headVersion) : headVersion :=
  mkVersion (v_epoch base) (v_token base) (u64 (v_seq base + 1)) (v_claim base).

(** C21: a write by the owner of the head is fenced: once its version is in the
    store, it reports a lost lease exactly when, at the listing that follows,
    a live version stands against it (a newer epoch, another owner's version of
    its epoch, a later sequence of its own) or its claim is gone; otherwise it
    succeeds with the key it wrote.  Whatever other nodes do in between. *)
Theorem advance_fenced h now (others : S → S) s name body base :
  store_inv s → (∀ s, store_inv s → store_inv (others s)) →
  let s1 := others (store_Put s (version_key (next_version base) name) body).1 in
  let lost := fenced h now s1 name (next_version base) ∨ ¬ claimed h now s1 name (next_version base) in
  (lost ∧ (advance h now others s name body base).2 = Err ErrPreconditionFailed) ∨
  (¬ lost ∧ ∃ pruned, (advance h now others s name body base).2 = Ok (version_key (next_version base) name, pruned)).
Proof.
  intros Hinv Hothers. unfold advance. fold (next_version base).
  destruct (store_Put s _ body) as [s0 r] eqn:Hput. destruct (put_law _ _ _ _ _ Hinv Hput) as (Hinv0 & e & -> & Hobj). cbn [fst].
  destruct (confirm_spec h now (others s0) name (version_key (next_version base) name) (next_version base) (Hothers _ Hinv0))
    as (s' & _ & [(Hf & Hc & pruned & -> & _)|[Hl ->]]).
  - right. split; [by intros [?|?]|]. by exists pruned.
  - by left.
Qed.

(** What other nodes may do to the keys of an owner: nothing. *)
Definition respects name (v : headVersion) (others : S → S) : Prop :=
  (∀ s, store_inv s → store_inv (others s)) ∧
  ∀ s key w, parseHeadKey name key = Some w → sameOwner w v = true → objects (others s) !! key = objects s !! key.

(** The stores that pruning the keys [pruned] of [s'] goes through. *)
Definition partly_pruned (pruned : list string) s' s'' : Prop :=
  store_inv s'' ∧ ∀ key, objects s'' !! key = objects s' !! key ∨ (key ∈ pruned ∧ objects s'' !! key = None).

Lemma superseded_self v key : v_seq v + retainedHeadVersions ≤ MaxUint64 → 0 ≤ v_seq v → superseded v (mkHeadEntry key v) = false.
Proof.
  unfold superseded, retainedHeadVersions, MaxUint64. intros Hmax Hpos. cbn [he_version].
  rewrite Z.ltb_irrefl, bool_decide_eq_true_2, andb_false_r by done. cbn [orb].
  rewrite u64_small by lia. rewrite (proj2 (Z.leb_gt _ _)) by lia. apply andb_false_r.
Qed.

(** A confirmed version is what readers get, however far pruning has come. *)
Lemma confirmed_is_head h now s name v body etag s' pruned s'' :
  store_inv s → version_ok v → 0 < v_seq v → v_seq v + retainedHeadVersions ≤ MaxUint64 →
  objects s !! version_key v name = Some (mkObject body etag) → owner_keys s name v →
  confirm h now s name (version_key v name) v = (s', Ok (version_key v name, pruned)) → partly_pruned pruned s' s'' →
  ah_read 4 (fun _ s => s) s'' name = (s'', Ok (body, version_key v name)).
Proof.
  intros Hinv Hok Hpos Hmax Hobj Hown Hconf [Hinv'' Hpart].
  destruct (confirm_spec h now s name (version_key v name) v Hinv) as (s0 & (Hinv0 & Hlisted & Hkept) & Hc).
  destruct Hc as [(Hf & _ & pruned0 & Heq & Hpr)|[_ Heq]]; rewrite Heq in Hconf; [|done]. injection Hconf as -> ->.
  set (e := mkHeadEntry (version_key v name) v).
  assert (parseHeadKey name (he_key e) = Some v) as Hparse by by apply parse_version_key.
  assert (objects s' !! he_key e = objects s !! he_key e) as He'.
  { destruct (Hkept (he_key e)) as [->|(_ & e' & Hk & [_ Hp] & (Hz & _))]; [done|]. rewrite Hk, Hparse in Hp. injection Hp as Hp. rewrite <-Hp in Hz. lia. }
  assert (objects s'' !! he_key e = Some (mkObject body etag)) as He''.
  { destruct (Hpart (he_key e)) as [->|[Hin _]]; [by rewrite He'|]. apply Hpr in Hin as (e' & Hk & [_ Hp] & Hsup).
    rewrite Hk, Hparse in Hp. injection Hp as Hp. destruct e' as [k' v']. cbn [he_version he_key] in *. subst v'.
    rewrite superseded_self in Hsup by lia. done. }
  assert (∀ o, listed s'' name o → listed s name o) as Hsub.
  { intros o [Ho Hp]. split; [|done]. destruct (Hpart (he_key o)) as [Hk|[_ Hk]]; rewrite Hk in Ho; [|by destruct Ho].
    destruct (Hkept (he_key o)) as [Hk'|[Hk' _]]; rewrite Hk' in Ho; [done|by destruct Ho]. }
  apply (read_head s'' name e (mkObject body etag)); [done|done|split; [by rewrite He''|done]|done|].
  intros o Ho%Hsub Hos Hb. destruct (unfenced_first h now s name v o) as [Hso Hseq]; [done..|].
  rewrite (Hown o Ho Hso), Hseq. by destruct v.
Qed.

(** When the owner's write succeeds, the document it wrote is the head that
    every later reader gets, at any point of the background pruning, as long as
    no other node touches the owner's keys. *)
Theorem advance_publishes h now (others : S → S) s name body base s' cursor pruned s'' :
  store_inv s → respects name base others → owner_keys s name base →
  version_ok base → v_seq base + 1 + retainedHeadVersions ≤ MaxUint64 →
  advance h now others s name body base = (s', Ok (cursor, pruned)) → partly_pruned pruned s' s'' →
  cursor = version_key (next_version base) name ∧
  ah_read 4 (fun _ s => s) s'' name = (s'', Ok (body, cursor)).
Proof.
  intros Hinv [Hoinv Hokeep] Hown Hok Hmax. unfold advance. fold (next_version base).
  destruct (store_Put s _ body) as [s0 r] eqn:Hput. destruct (put_law _ _ _ _ _ Hinv Hput) as (Hinv0 & etag & -> & Hobj).
  pose proof Hok as (He & Hs & Hlen & Hun & Hcl). unfold retainedHeadVersions, MaxUint64 in *.
  assert (v_seq (next_version base) = v_seq base + 1) as Hnext by (cbn [next_version v_seq]; apply u64_small; lia).
  assert (version_ok (next_version base)) as Hok' by (split; [done|]; split; [unfold MaxUint64; lia|done]).
  pose proof (parse_version_key _ name Hok') as Hp.
  assert (∀ w, sameOwner w (next_version base) = sameOwner w base) as Hsame by done.
  intros Hconf Hpart.
  assert (cursor = version_key (next_version base) name) as ->.
  { destruct (confirm_spec h now (others s0) name (version_key (next_version base) name) (next_version base) (Hoinv _ Hinv0))
      as (s1 & _ & [(_ & _ & p & Heq & _)|[_ Heq]]); rewrite Heq in Hconf; [by injection Hconf as _ <- _|done]. }
  split; [done|]. eapply (confirmed_is_head h now (others s0) name (next_version base) body etag); try done.
  - by apply Hoinv.
  - lia.
  - unfold retainedHeadVersions, MaxUint64. lia.
  - rewrite (Hokeep s0 _ _ Hp); [by rewrite Hobj, lookup_insert_eq|]. by apply sameOwner_true.
  - intros o [Ho Hpo] Hso. rewrite Hsame in Hso. rewrite (Hokeep s0 _ _ Hpo Hso), Hobj in Ho.
    destruct (decide (he_key o = version_key (next_version base) name)) as [Hk|Hk].
    + rewrite Hk in Hpo. rewrite Hp in Hpo. injection Hpo as <-. rewrite Hk. by destruct (next_version base).
    + rewrite lookup_insert_ne in Ho by done. by apply (Hown o (conj Ho Hpo) Hso).
Qed.

(** ** [claim] *)

Definition claim_token (env : claim_env (S := S)) (next : State) : string :=
  match st_Lease next with Some l => Token l | None => cl_fresh env end.

(** The version a claim writes first. *)
Definition claim_version (env : claim_env (S := S)) (next : State) : headVersion :=
  mkVersion (st_Epoch next) (claim_token env next) 0 (cl_started env `div` 10 ^ 6).

(** A claim whose write took longer than half the settle window is deleted, and
    that is all: the commit fails, and nothing tries again. *)
Theorem slow_claim_fails h env s name body base next :
  store_inv s → String.length (claim_token env next) = headTokenLength → objects s !! version_key (claim_version env next) name = None →
  ah_settle h `quot` 2 < cl_written env - cl_started env →
  ∃ s' err, claim h env s name body base next = (s', Err err) ∧ errors_Is err ErrClaimTooSlow = true ∧ store_inv s' ∧ objects s' = objects s.
Proof.
  intros Hinv Htok Hnone Hslow. unfold claim. fold (claim_token env next) (claim_version env next).
  rewrite (proj2 (Nat.eqb_eq _ _) Htok). cbn [negb].
  destruct (store_Put s _ body) as [s1 r1] eqn:Hput. destruct (put_law _ _ _ _ _ Hinv Hput) as (Hinv1 & et & -> & Hobj1).
  rewrite (proj2 (Z.ltb_lt _ _) Hslow). unfold ah_abort. cbn [foldl].
  destruct (store_Delete s1 _) as [s2 r2] eqn:Hdel. destruct (delete_law _ _ _ _ Hinv1 Hdel) as (Hinv2 & _ & Hobj2).
  exists s2, (Wrap "%w: %s" ErrClaimTooSlow). split; [done|]. split; [done|]. split; [done|].
  rewrite Hobj2, Hobj1. by apply delete_insert_id.
Qed.

(** A store that holds the committed version [e]. *)
Definition holds name e s : Prop := store_inv s ∧ listed s name e.

Lemma holds_put name e s key body : holds name e s → holds name e (store_Put s key body).1.
Proof.
  intros [Hinv [Ho Hp]]. destruct (store_Put s key body) as [s' r] eqn:Hput. destruct (put_law _ _ _ _ _ Hinv Hput) as (Hinv' & et & _ & Hobj).
  split; [done|]. split; [|done]. cbn [fst]. rewrite Hobj, lookup_insert. by case_decide.
Qed.

Lemma holds_delete name e s key v :
  holds name e s → parseHeadKey name key = Some v → he_version e ≠ v → holds name e (store_Delete s key).1.
Proof.
  intros [Hinv [Ho Hp]] Hv Hne. destruct (store_Delete s key) as [s' r] eqn:Hdel. destruct (delete_law _ _ _ _ Hinv Hdel) as (Hinv' & _ & Hobj).
  split; [done|]. split; [|done]. cbn [fst]. rewrite Hobj, lookup_delete_ne; [done|]. intros ->. congruence.
Qed.

Lemma holds_reaped h now name e s s' : 0 < v_seq (he_version e) → holds name e s → reaped h now s name s' → holds name e s'.
Proof.
  intros Hseq [Hinv He] (Hinv' & Hl & _). split; [done|]. apply Hl. split; [done|]. intros (Hz & _). lia.
Qed.

Lemma holds_abort {A} name e s keys cause :
  holds name e s → Forall (fun key => ∃ v, parseHeadKey name key = Some v ∧ he_version e ≠ v) keys →
  holds name e (ah_abort (A := A) s keys cause).1.
Proof.
  intros Hh Hk. unfold ah_abort. cbn [fst]. revert s Hh. induction Hk as [|key keys (v & Hp & Hne) _ IH]; intros s Hh; [done|].
  cbn [foldl]. apply IH. by eapply holds_delete.
Qed.

Lemma liveEntries_reaped h now s name :
  store_inv s → ∃ s' live, liveEntries h now s name = (s', Ok live) ∧ reaped h now s name s'.
Proof.
  intros Hinv. destruct (liveEntries_spec h now s name Hinv) as (s' & live & Hl & Hinv' & _ & _ & Hlisted & Hobj).
  exists s', live. done.
Qed.

(** C20: a claim never succeeds beside a committed version of another owner with
    the same or a newer epoch: if such a version is in the store and the other
    nodes leave it there, the claim fails, whatever the clocks, the timing and
    the other nodes do, and the version is still in the store when it is done. *)
Theorem claim_exclusive h (env : claim_env (S := S)) s name body base next e s' r :
  store_inv s → listed s name e → 0 < v_seq (he_version e) →
  (st_Epoch next < v_epoch (he_version e) ∨
   (v_epoch (he_version e) = st_Epoch next ∧ v_token (he_version e) ≠ claim_token env next)) →
  Forall (fun others => ∀ s, holds name e s → holds name e (others s)) [cl_others1 env; cl_others2 env; cl_others3 env] →
  version_ok (claim_version env next) →
  claim h env s name body base next = (s', r) →
  (∃ err, r = Err err) ∧ listed s' name e.
Proof.
  intros Hinv He Hseq Hrival Ho Hok Hclaim. rewrite !Forall_cons in Ho. destruct Ho as (Ho1 & Ho2 & Ho3 & _).
  assert (holds name e s) as Hh by done. clear Hinv He.
  set (c := claim_version env next). set (first := mkVersion (v_epoch c) (v_token c) 1 (v_claim c)).
  assert (version_ok first) as Hok1 by (destruct Hok as (? & _ & ?); done).
  assert (∀ v, v = c ∨ v = first → he_version e ≠ v) as Hne.
  { intros v Hv Heq. destruct Hv as [-> | ->]; rewrite Heq in Hrival; cbn in Hrival; destruct Hrival as [?|[? ?]]; [lia|done|lia|done]. }
  pose proof (parse_version_key c name Hok) as Hpc. pose proof (parse_version_key first name Hok1) as Hpf.
  assert (Forall (fun key => ∃ v, parseHeadKey name key = Some v ∧ he_version e ≠ v) [version_key c name]) as Hkc.
  { repeat constructor. exists c. split; [done|]. apply Hne. by left. }
  assert (Forall (fun key => ∃ v, parseHeadKey name key = Some v ∧ he_version e ≠ v) [version_key first name; version_key c name]) as Hkf.
  { constructor; [|done]. exists first. split; [done|]. apply Hne. by right. }
  assert (∀ s1 keys cause, holds name e s1 → Forall (fun key => ∃ v, parseHeadKey name key = Some v ∧ he_version e ≠ v) keys →
    ah_abort s1 keys cause = (s', r) → (∃ err, r = Err err) ∧ listed s' name e) as Habort.
  { intros s1 keys cause H1 Hk Heq. pose proof (holds_abort (A := string * list string) name e s1 keys cause H1 Hk) as [_ Hl].
    rewrite Heq in Hl. split; [|exact Hl]. unfold ah_abort in Heq. injection Heq as _ <-. by eexists. }
  unfold claim in Hclaim. fold (claim_token env next) in Hclaim. fold (claim_version env next) in Hclaim. fold c in Hclaim. fold first in Hclaim.
  destruct (negb _). { injection Hclaim as <- <-. split; [by eexists|by destruct Hh]. }
  pose proof (holds_put _ _ _ (version_key c name) body Hh) as Hh1.
  destruct (store_Put s (version_key c name) body) as [s1 [et|er]]; cbn [fst] in Hh1;
    [|injection Hclaim as <- <-; split; [by eexists|by destruct Hh1]].
  destruct (_ <? _); [by refine (Habort _ _ _ _ _ Hclaim)|]. apply Ho1 in Hh1. destruct (cl_slept env); [by refine (Habort _ _ _ _ _ Hclaim)|].
  destruct (liveEntries_reaped h (cl_now1 env) (cl_others1 env s1) name) as (s2 & live & Hl & Hr); [by destruct Hh1|].
  rewrite Hl in Hclaim. pose proof (holds_reaped _ _ _ _ _ _ Hseq Hh1 Hr) as Hh2.
  destruct (_ || _); [by refine (Habort _ _ _ _ _ Hclaim)|]. apply Ho2 in Hh2.
  pose proof (holds_put _ _ _ (version_key first name) body Hh2) as Hh3.
  destruct (store_Put _ (version_key first name) body) as [s3 [et3|er3]]; cbn [fst] in Hh3; [|by refine (Habort _ _ _ _ _ Hclaim)].
  apply Ho3 in Hh3. destruct (confirm_spec h (cl_now2 env) (cl_others3 env s3) name (version_key first name) first) as (s4 & Hr4 & Hc); [by destruct Hh3|].
  pose proof (holds_reaped _ _ _ _ _ _ Hseq Hh3 Hr4) as Hh4.
  destruct Hc as [(Hf & _)|[_ Hc]]; [|rewrite Hc in Hclaim; by refine (Habort _ _ _ _ _ Hclaim)].
  destruct Hf. exists e. split; [by destruct Hh3|]. split; [intros (Hz & _); lia|].
  destruct Hrival as [?|[? ?]]; [by left|by right; left].
Qed.

(** A store whose versions of the claim's owner are the two the claim writes. *)
Definition owned_by_claim name (c : headVersion) s : Prop :=
  store_inv s ∧ ∀ o, listed s name o → sameOwner (he_version o) c = true →
    he_version o = c ∧ he_key o = version_key c name ∨
    he_version o = mkVersion (v_epoch c) (v_token c) 1 (v_claim c) ∧ he_key o = version_key (mkVersion (v_epoch c) (v_token c) 1 (v_claim c)) name.

Lemma owned_put name c s q body :
  let v := mkVersion (v_epoch c) (v_token c) q (v_claim c) in
  version_ok v → v = c ∨ q = 1 → owned_by_claim name c s → owned_by_claim name c (store_Put s (version_key v name) body).1.
Proof.
  intros v Hok Hv [Hinv Hown]. destruct (store_Put s _ body) as [s' r] eqn:Hput. destruct (put_law _ _ _ _ _ Hinv Hput) as (Hinv' & et & _ & Hobj).
  split; [done|]. cbn [fst]. intros o [Ho Hp] Hso. rewrite Hobj, lookup_insert in Ho. case_decide as Hk; [|by apply Hown].
  rewrite <-Hk, parse_version_key in Hp by done. injection Hp as Hp. rewrite <-Hp, <-Hk. destruct Hv as [-> | ->]; [by left|by right].
Qed.

Lemma owned_sub name c s s' :
  owned_by_claim name c s → store_inv s' → (∀ o, listed s' name o → sameOwner (he_version o) c = true → listed s name o) → owned_by_claim name c s'.
Proof. intros [_ Hown] Hinv Hsub. split; [done|]. intros o Ho Hso. apply Hown; [by apply Hsub|done]. Qed.

Lemma owned_respects name c s others : respects name c others → owned_by_claim name c s → owned_by_claim name c (others s).
Proof.
  intros [Hi Hk] Ho. eapply owned_sub; [exact Ho|apply Hi, Ho|]. intros o [Hs Hp] Hso. split; [|done]. by rewrite <-(Hk _ _ _ Hp Hso).
Qed.

Lemma owned_owner_keys name c s :
  owned_by_claim name c s → v_seq c = 0 → owner_keys s name (mkVersion (v_epoch c) (v_token c) 1 (v_claim c)).
Proof.
  intros [_ Hown] Hz o Ho Hso. destruct (Hown o Ho Hso) as [[-> ->]|[-> ->]]; [|done]. by destruct c.
Qed.

(** When a claim succeeds, the document it wrote is the head that every
    later reader gets, at any point of the background pruning, as long as the
    token is fresh and no other node touches the owner's keys. *)
Theorem claim_publishes h (env : claim_env (S := S)) s name body base next s' cursor pruned s'' :
  let c := claim_version env next in
  store_inv s → (∀ o, listed s name o → sameOwner (he_version o) c = true → False) →
  Forall (respects name c) [cl_others1 env; cl_others2 env; cl_others3 env] → version_ok c →
  claim h env s name body base next = (s', Ok (cursor, pruned)) → partly_pruned pruned s' s'' →
  ah_read 4 (fun _ s => s) s'' name = (s'', Ok (body, cursor)).
Proof.
  intros c Hinv Hfresh Ho Hok Hclaim Hpart. rewrite !Forall_cons in Ho. destruct Ho as (Ho1 & Ho2 & Ho3 & _).
  set (first := mkVersion (v_epoch c) (v_token c) 1 (v_claim c)).
  assert (version_ok first) as Hok1 by (destruct Hok as (? & _ & ?); done).
  assert (owned_by_claim name c s) as Hown by (split; [done|]; intros o Hl Hso; by destruct (Hfresh o)).
  unfold claim in Hclaim. fold (claim_token env next) in Hclaim. fold (claim_version env next) in Hclaim. fold c in Hclaim. fold first in Hclaim.
  destruct (negb _); [done|]. apply (owned_put name c s 0 body) in Hown; [|done|by left].
  change (mkVersion _ _ 0 _) with c in Hown. destruct (store_Put s (version_key c name) body) as [s1 [et|er]]; cbn [fst] in Hown; [|done].
  destruct (_ <? _); [done|]. apply (owned_respects _ _ _ _ Ho1) in Hown. destruct (cl_slept env); [done|].
  destruct (liveEntries_reaped h (cl_now1 env) (cl_others1 env s1) name) as (s2 & live & Hl & Hi2 & Hl2 & _); [by destruct Hown|].
  rewrite Hl in Hclaim. apply (owned_sub _ _ _ s2) in Hown; [|done|by intros o Ho _; apply Hl2].
  destruct (_ || _); [done|]. apply (owned_respects _ _ _ _ Ho2) in Hown.
  destruct (store_Put (cl_others2 env s2) (version_key first name) body) as [s3 [et3|er3]] eqn:Hput; [|done].
  pose proof (put_law _ _ _ _ _ ltac:(apply Hown) Hput) as (Hi3 & et' & _ & Hobj).
  apply (owned_put name c _ 1 body) in Hown; [|done|by right]. fold first in Hown. rewrite Hput in Hown. cbn [fst] in Hown.
  apply (owned_respects _ _ _ _ Ho3) in Hown.
  destruct (confirm h (cl_now2 env) (cl_others3 env s3) name (version_key first name) first) as [s4 [cur|er]] eqn:Hconf; [|done].
  injection Hclaim as -> ->.
  assert (cursor = version_key first name) as ->.
  { destruct (confirm_spec h (cl_now2 env) (cl_others3 env s3) name (version_key first name) first) as (s5 & _ & [(_ & _ & p & Heq & _)|[_ Heq]]);
      [by destruct Hown|..]; rewrite Heq in Hconf; [by injection Hconf|done]. }
  eapply (confirmed_is_head h (cl_now2 env) (cl_others3 env s3) name first body et'); try done; [apply Hown| |by apply owned_owner_keys].
  destruct Ho3 as [_ Hk3]. rewrite (Hk3 s3 _ first (parse_version_key _ _ Hok1)) by by apply sameOwner_true.
  by rewrite Hobj, lookup_insert_eq.
Qed.

(** ** The conditional head *)

(** The conditional head is a compare-and-swap.  On a store that honours
    preconditions, a commit with cursor [prev] changes the head only if [prev]
    is the entity tag under which the current document was read (or there is no
    document and no cursor), the new document is then what readers get, and a
    failed commit changes nothing. *)
Theorem ch_commit_compare_and_swap `{!ConditionalStore S} s name body prev s' r :
  store_inv s → honours s → ch_commit s name body prev = (s', r) →
  match r with
  | Ok cursor =>
      ch_read s' name = Ok (body, cursor) ∧
      (if bool_decide (prev = EmptyString) then ch_read s name = Err ErrNotFound
       else ∃ old, ch_read s name = Ok (old, prev)) ∧
      ∀ k, k ≠ StateKey name → objects s' !! k = objects s !! k
  | Err _ => objects s' = objects s
  end.
Proof.
  intros Hinv Hh. unfold ch_commit, ch_read. destruct (bool_decide (prev = EmptyString)) eqn:Hprev.
  - assert (store_PutIfAbsent s (StateKey name) body = (s', r) → match r with
      | Ok cursor => (obj ← store_Get s' (StateKey name); Ok (obj_Data obj, obj_ETag obj)) = Ok (body, cursor) ∧
          (obj ← store_Get s (StateKey name); Ok (obj_Data obj, obj_ETag obj)) = Err ErrNotFound ∧
          ∀ k, k ≠ StateKey name → objects s' !! k = objects s !! k
      | Err _ => objects s' = objects s end) as Hput.
    { intros Hp. destruct (putIfAbsent_law _ _ _ _ _ Hinv Hh Hp) as (Hinv' & _ & _ & Hr). rewrite !get_law by done.
      destruct (objects s !! StateKey name) as [o|]; [by destruct Hr as [? ->]|]. destruct Hr as (e & -> & Ho).
      rewrite Ho, lookup_insert_eq. do 2 (split; [done|]). intros k Hk. by rewrite lookup_insert_ne. }
    destruct (list_law s (HeadPrefix name) Hinv) as (keys & -> & _). destruct keys; [exact Hput|]. by intros [= <- <-].
  - intros Hp. destruct (putIfMatch_law _ _ _ _ _ _ Hinv Hh Hp) as (Hinv' & _ & _ & Hr). rewrite !get_law by done.
    destruct (objects s !! StateKey name) as [o|]; [|by destruct Hr as [? ->]].
    case_bool_decide as He; [|by destruct Hr as [? ->]]. destruct Hr as (e & -> & Ho). rewrite Ho, lookup_insert_eq.
    split; [done|]. split; [exists (obj_Data o); by rewrite <-He|]. intros k Hk. by rewrite lookup_insert_ne.
Qed.
(** ** The store's invariant is kept *)

Lemma put_inv s key body : store_inv s → store_inv (store_Put s key body).1.
Proof. intros Hi. destruct (store_Put s key body) as [s' r] eqn:Hp. by destruct (put_law _ _ _ _ _ Hi Hp). Qed.

Lemma delete_inv s key : store_inv s → store_inv (store_Delete s key).1.
Proof. intros Hi. destruct (store_Delete s key) as [s' r] eqn:Hp. by destruct (delete_law _ _ _ _ Hi Hp). Qed.

Lemma abort_inv {A} s keys cause : store_inv s → store_inv (ah_abort (A := A) s keys cause).1.
Proof. unfold ah_abort. cbn [fst]. revert s. induction keys as [|k keys IH]; intros s Hi; [done|]. cbn [foldl]. by apply IH, delete_inv. Qed.

Lemma confirm_inv h now s name key v : store_inv s → store_inv (confirm h now s name key v).1.
Proof.
  intros Hi. by destruct (confirm_spec h now s name key v Hi) as (s' & [Hi' _] & [(_ & _ & p & -> & _)|[_ ->]]).
Qed.

Lemma advance_inv h now others s name body base :
  store_inv s → (∀ s, store_inv s → store_inv (others s)) → store_inv (advance h now others s name body base).1.
Proof.
  intros Hi Ho. unfold advance. pose proof (put_inv s (version_key (next_version base) name) body Hi) as Hp. fold (next_version base).
  destruct (store_Put s _ body) as [s1 [e|e]]; [|done]. by apply confirm_inv, Ho.
Qed.

Lemma claim_inv h (env : claim_env (S := S)) s name body base next :
  store_inv s → Forall (fun others => ∀ s, store_inv s → store_inv (others s)) [cl_others1 env; cl_others2 env; cl_others3 env] →
  store_inv (claim h env s name body base next).1.
Proof.
  intros Hi Ho. rewrite !Forall_cons in Ho. destruct Ho as (Ho1 & Ho2 & Ho3 & _). unfold claim. fold (claim_token env next). fold (claim_version env next).
  set (c := claim_version env next). destruct (negb _); [done|].
  apply (put_inv _ (version_key c name) body) in Hi. destruct (store_Put s _ body) as [s1 [e|e]]; [|done]. cbn [fst] in Hi.
  destruct (_ <? _); [by apply abort_inv|]. apply Ho1 in Hi. destruct (cl_slept env); [by apply abort_inv|].
  destruct (liveEntries_reaped h (cl_now1 env) (cl_others1 env s1) name Hi) as (s2 & live & -> & [Hi2 _]).
  destruct (_ || _); [by apply abort_inv|]. apply Ho2 in Hi2. set (first := mkVersion _ _ 1 _).
  apply (put_inv _ (version_key first name) body) in Hi2. destruct (store_Put (cl_others2 env s2) _ body) as [s3 [e3|e3]]; cbn [fst] in Hi2; [|by apply abort_inv].
  apply Ho3 in Hi2. apply (confirm_inv h (cl_now2 env) _ name (version_key first name) first) in Hi2.
  destruct (confirm _ _ _ _ _ _) as [s4 [cur|e4]]; [done|]. by apply abort_inv.
Qed.
End heads.

(** ** Examples *)

Definition demo_head : appendHead := mkAppendHead (3 * 10 ^ 9) (30 * 10 ^ 9).
Definition demo_time : Z := 1700000000 * 10 ^ 9.
Definition demo_env (token : string) : claim_env (S := Memory) :=
  mkClaimEnv token demo_time (demo_time + 10 ^ 9) None (fun _ => demo_time + 4 * 10 ^ 9) (fun _ => demo_time + 4 * 10 ^ 9) id id id.
Definition demo_state : State :=
  mkState Format EmptyString "vol" 4096 4096 "ext4" 0 EmptyString ∅ None 0 1 false None.
Definition demo_version (token : string) (seq : Z) : headVersion := mkVersion 1 token seq 1700000000000.
Definition demo_body (z : Z) : bytes := [byte_of_Z z].

(** The volume after node [b] has claimed it. *)
Definition demo_claimed : Memory :=
  (claim demo_head (demo_env token_b) NewMemory "vol" (demo_body 1) (mkVersion 0 EmptyString 0 0) demo_state).1.
Definition demo_advanced : Memory :=
  (advance demo_head (fun _ => demo_time + 5 * 10 ^ 9) id demo_claimed "vol" (demo_body 2) (demo_version token_b 1)).1.

Lemma respects_id name v : respects (S := Memory) name v id.
Proof. done. Qed.

Lemma demo_claimed_inv : store_inv demo_claimed.
Proof. apply claim_inv; [apply NewMemory_inv|]. do 3 (constructor; [by intros s Hs|]). constructor. Qed.

Lemma demo_advanced_inv : store_inv demo_advanced.
Proof. apply advance_inv; [apply demo_claimed_inv|done]. Qed.

(** What a concrete store lists. *)
Lemma memory_listed (m : Memory) name e : listed m name e → he_key e ∈ (map_to_list (mem_objects m)).*1.
Proof. intros [[o Ho] _]. apply list_elem_of_fmap. exists (he_key e, o). split; [done|]. by apply elem_of_map_to_list. Qed.

Lemma demo_claimed_keys e : listed demo_claimed "vol" e →
  e = mkHeadEntry (version_key (demo_version token_b 0) "vol") (demo_version token_b 0) ∨
  e = mkHeadEntry (version_key (demo_version token_b 1) "vol") (demo_version token_b 1).
Proof.
  intros Hl. pose proof (memory_listed _ _ _ Hl) as Hk. destruct Hl as [_ Hp]. destruct e as [k v]. cbn [he_key he_version] in *.
  assert ((map_to_list (mem_objects demo_claimed)).*1 ≡ₚ [version_key (demo_version token_b 0) "vol"; version_key (demo_version token_b 1) "vol"]) as Heq
    by (apply (bool_decide_unpack _); vm_compute; exact I).
  rewrite Heq in Hk. rewrite !elem_of_cons, elem_of_nil in Hk. destruct Hk as [-> |[-> |[]]].
  - left. rewrite parse_version_key in Hp by (repeat split; done). by injection Hp as <-.
  - right. rewrite parse_version_key in Hp by (repeat split; done). by injection Hp as <-.
Qed.

Lemma claim_publishes_witness :
  ah_read 4 (fun _ s => s) demo_claimed "vol" = (demo_claimed, Ok (demo_body 1, version_key (demo_version token_b 1) "vol")).
Proof.
  apply (claim_publishes demo_head (demo_env token_b) NewMemory "vol" (demo_body 1) (mkVersion 0 EmptyString 0 0) demo_state
           demo_claimed (version_key (demo_version token_b 1) "vol") [] demo_claimed).
  - apply NewMemory_inv.
  - intros o [[x Hx] _] _. change (objects NewMemory) with (∅ : gmap string Object) in Hx. by rewrite lookup_empty in Hx.
  - do 3 (constructor; [exact (respects_id _ _)|]). constructor.
  - repeat split; done.
  - unfold demo_claimed. vm_compute. reflexivity.
  - split; [apply demo_claimed_inv|]. by left.
Defined.

Lemma demo_owner_keys : owner_keys demo_claimed "vol" (demo_version token_b 1).
Proof. intros o Ho _. by destruct (demo_claimed_keys o Ho) as [-> | ->]. Qed.

Lemma advance_publishes_witness :
  ah_read 4 (fun _ s => s) demo_advanced "vol" = (demo_advanced, Ok (demo_body 2, version_key (demo_version token_b 2) "vol")).
Proof.
  apply (advance_publishes demo_head (fun _ => demo_time + 5 * 10 ^ 9) id demo_claimed "vol" (demo_body 2) (demo_version token_b 1)
           demo_advanced (version_key (demo_version token_b 2) "vol") [] demo_advanced).
  - apply demo_claimed_inv.
  - apply respects_id.
  - apply demo_owner_keys.
  - repeat split; done.
  - done.
  - unfold demo_advanced. vm_compute. reflexivity.
  - split; [apply demo_advanced_inv|]. by left.
Defined.

(** A claim of the next epoch that lands before the listing of [b]'s write. *)
Definition demo_takeover (m : Memory) : Memory :=
  (mem_Put m (version_key (mkVersion 2 token_a 0 1700000004000) "vol") (demo_body 9)).1.

Lemma advance_fenced_witness :
  (advance demo_head (fun _ => demo_time + 5 * 10 ^ 9) demo_takeover demo_claimed "vol" (demo_body 2) (demo_version token_b 1)).2
    = Err ErrPreconditionFailed.
Proof.
  destruct (advance_fenced demo_head (fun _ => demo_time + 5 * 10 ^ 9) demo_takeover demo_claimed "vol" (demo_body 2) (demo_version token_b 1))
    as [[_ H]|[_ (pruned & H)]].
  - apply demo_claimed_inv.
  - intros m Hm. apply (put_inv m _ _ Hm).
  - exact H.
  - exfalso. vm_compute in H. discriminate H.
Defined.

Lemma claim_exclusive_witness :
  ∃ err, (claim demo_head (demo_env token_a) demo_claimed "vol" (demo_body 7) (mkVersion 0 EmptyString 0 0) demo_state).2 = Err err.
Proof.
  refine (proj1 (claim_exclusive demo_head (demo_env token_a) demo_claimed "vol" (demo_body 7) (mkVersion 0 EmptyString 0 0) demo_state
    (mkHeadEntry (version_key (demo_version token_b 1) "vol") (demo_version token_b 1)) _ _ _ _ _ _ _ _ (surjective_pairing _))).
  - apply demo_claimed_inv.
  - split; [eexists; vm_compute; reflexivity|]. apply parse_version_key. repeat split; done.
  - done.
  - right. split; [done|]. by vm_compute.
  - do 3 (constructor; [by intros s Hs|]). constructor.
  - repeat split; done.
Defined.

Lemma ch_commit_compare_and_swap_witness :
  (ch_commit NewMemory "vol" (demo_body 1) EmptyString).2 = Ok (mem_etag 1) ∧
  ch_read (ch_commit NewMemory "vol" (demo_body 1) EmptyString).1 "vol" = Ok (demo_body 1, mem_etag 1).
Proof.
  pose proof (ch_commit_compare_and_swap NewMemory "vol" (demo_body 1) EmptyString _ _ NewMemory_inv eq_refl (surjective_pairing _)) as Hw.
  assert ((ch_commit NewMemory "vol" (demo_body 1) EmptyString).2 = Ok (mem_etag 1)) as Hr by (vm_compute; reflexivity).
  rewrite Hr in Hw. split; [exact Hr|]. exact (proj1 Hw).
Defined.

(** ** A claim can hide a committed head

    [claimWins] stops at the first version of the claim's epoch.  A claim whose
    token sorts before that of the committed owner of the same epoch finds
    itself there, and does not look at the owner's versions behind it. *)

(** A claim judges itself the winner although the listing holds a committed
    version of the same epoch by another owner; and once it has written its
    first version, readers get that one instead of the committed head, until
    the claimant notices and deletes it. *)
Theorem claim_hides_committed_head :
  let owner := mkHeadEntry (version_key (demo_version token_b 2) "vol") (demo_version token_b 2) in
  let a_claim := demo_version token_a 0 in
  let keys := he_key owner :: version_key (demo_version token_b 0) "vol" :: version_key a_claim "vol" :: [] in
  committedHead (head_entries "vol" keys) = Some owner ∧
  claimWins (head_entries "vol" keys) a_claim = true ∧
  baseUnchanged (head_entries "vol" keys) (mkVersion 0 EmptyString 0 0) = true ∧
  he_version <$> committedHead (head_entries "vol" (version_key (demo_version token_a 1) "vol" :: keys)) = Some (demo_version token_a 1).
Proof. vm_compute. done. Qed.
