(* ===== verification/JournalFormat.v ===== *)
(** * The journal file ([internal/replica/journal.go], byte format)

    An append-only file of checksummed generations: the header with the JSON
    metadata, one record per generation, and the recovery scan that reads them
    back and finds the torn tail a crash may leave. *)
From S2P Require Import Prelude Extents Codec File Segment Types.
Local Open Scope Z_scope.

Definition journalFormat : string := "satchel-local-journal-v1".
Definition journalHeaderMagic : string := "SATJNL01".
Definition journalRecordMagic : string := "SATGEN01".
Definition journalHeaderPrefix : Z := 12.
Definition journalRecordHeader : Z := 60.
Definition maxJournalMetadata : Z := Z.shiftl 64 10.
Definition journalCompactBytes : Z := Z.shiftl 64 20.
Definition sha256_Size : nat := 32.

Record JournalMetadata : Type := mkJournalMetadata {
  jm_Format : string;
  jm_VolumeID : string;
  jm_VolumeName : string;
  jm_Holder : string;
  jm_Size : Z;
  jm_BlockSize : Z;
  jm_WriterEpoch : Z;
  jm_BaseGeneration : Z;
  jm_BaseManifest : string;
}.

#[export] Instance JournalMetadata_eq_dec : EqDecision JournalMetadata.
Proof. solve_decision. Defined.

Definition journalMetadata (state : State) : result JournalMetadata :=
  match st_Lease state with
  | None => Err (Errorf "cannot create local journal without a lease")
  | Some lease =>
      Ok {| jm_Format := journalFormat; jm_VolumeID := st_ID state; jm_VolumeName := st_Name state;
            jm_Holder := Holder lease; jm_Size := st_Size state; jm_BlockSize := st_BlockSize state;
            jm_WriterEpoch := st_Epoch state; jm_BaseGeneration := st_Generation state;
            jm_BaseManifest := st_Manifest state |}
  end.

(** ** Byte format *)

Definition journalRecordSize (g : Generation) : Z :=
  journalRecordHeader + Z.of_nat (size (GenBlocks g)) * (8 + DefaultBlockSize).

Section format.
Context `{Digest} `{Json JournalMetadata}.

(** [writeJournalHeader]: the bytes it hands to [writeAll]. *)
Definition journal_header (metadata : JournalMetadata) : result bytes :=
  body ← Marshal metadata;
  _ ← fail_if ((Z.of_nat (length body) =? 0) || (maxJournalMetadata <? Z.of_nat (length body)))
        (Errorf "local journal metadata is %d bytes");
  Ok (string_bytes journalHeaderMagic ++ be_encode 4 (u32 (Z.of_nat (length body))) ++ body ++ sha256 body).

(** The payload loop of [encodeJournalRecord]. *)
Fixpoint record_payload (g : Generation) (blocks : list Z) : result bytes :=
  match blocks with
  | [] => Ok []
  | block :: rest =>
      let data := block_data g block in
      _ ← fail_if (negb (Z.of_nat (length data) =? DefaultBlockSize)) (Errorf "journal block %d has %d bytes");
      payload ← record_payload g rest;
      Ok (be_encode 8 block ++ data ++ payload)
  end.

(** [encodeJournalRecord]: the record, and the generation with its sequence
    number set. *)
Definition encodeJournalRecord (generation : option Generation) (sequence : Z) : result (bytes * Generation) :=
  match generation with
  | None => Err (Errorf "cannot journal an empty generation")
  | Some g =>
      _ ← fail_if (Empty generation) (Errorf "cannot journal an empty generation");
      _ ← fail_if (MaxUint32 <? Z.of_nat (size (GenBlocks g))) (Errorf "journal generation has too many blocks");
      let blocks := sortedBlocks g in
      let payloadBytes := Z.of_nat (length blocks) * (8 + DefaultBlockSize) in
      _ ← fail_if (MaxInt64 - journalRecordHeader <? payloadBytes) (Errorf "journal generation is too large");
      payload ← record_payload g blocks;
      let dimensions :=
        be_encode 8 sequence ++ be_encode 4 (u32 (Z.of_nat (length blocks))) ++ be_encode 8 payloadBytes in
      Ok (string_bytes journalRecordMagic ++ dimensions ++ sha256 (dimensions ++ payload) ++ payload,
          mkGeneration (GenBlocks g) (gen_bytes g) sequence)
  end.

(** The block loop of [readJournal]: a torn tail, an error, or the blocks with
    the bytes that were hashed, the rest of the file and the new offset. *)
Inductive block_scan : Type :=
  | ScanTorn
  | ScanFail (e : error)
  | ScanDone (blocks : gmap Z bytes) (hashed : bytes) (s : Stream) (offset : Z).

Definition is_short (e : error) : bool := errors_Is e ErrEOF || errors_Is e ErrUnexpectedEOF.

Fixpoint scan_blocks (n : nat) (metadata : JournalMetadata) (blocks : gmap Z bytes) (hashed : bytes)
    (s : Stream) (offset : Z) : block_scan :=
  match n with
  | O => ScanDone blocks hashed s offset
  | S n' =>
      match ReadFull 8 s with
      | Err e => if is_short e then ScanTorn else ScanFail e
      | Ok (blockHeader, s1) =>
          let block := be_decode blockHeader in
          if jm_Size metadata `quot` jm_BlockSize metadata <=? block then
            ScanFail (Errorf "local journal block %d is outside the volume")
          else if bool_decide (is_Some (blocks !! block)) then
            ScanFail (Errorf "local journal repeats block %d in one generation")
          else
            match ReadFull (Z.to_nat (jm_BlockSize metadata)) s1 with
            | Err e => if is_short e then ScanTorn else ScanFail e
            | Ok (data, s2) =>
                scan_blocks n' metadata (<[block := data]> blocks) (hashed ++ blockHeader ++ data) s2
                  (offset + 8 + jm_BlockSize metadata)
            end
      end
  end.

(** The record loop of [readJournal]: the remaining entries and the number of
    valid bytes. *)
Fixpoint scan_records (fuel : nat) (metadata : JournalMetadata) (lastSequence recordOffset : Z) (s : Stream)
    : result (list Generation * Z) :=
  match fuel with
  | O => Err OutOfFuel
  | S fuel' =>
      match ReadFull 60 s with
      | Err e => if is_short e then Ok ([], recordOffset) else Err e
      | Ok (header, s1) =>
          if negb (bytes_Equal (take 8 header) (string_bytes journalRecordMagic)) then
            Err (Errorf "local journal record at byte %d has invalid magic") else
          let sequence := be_decode (take 8 (drop 8 header)) in
          let blockCount := be_decode (take 4 (drop 16 header)) in
          let payloadBytes := be_decode (take 8 (drop 20 header)) in
          let expectedBytes := u64 (blockCount * (8 + DefaultBlockSize)) in
          if (sequence <=? lastSequence) || (blockCount =? 0) ||
             (jm_Size metadata `quot` jm_BlockSize metadata <? blockCount) ||
             negb (payloadBytes =? expectedBytes) then
            Err (Errorf "local journal record at byte %d has invalid dimensions") else
          match scan_blocks (Z.to_nat blockCount) metadata ∅ (take 20 (drop 8 header)) s1 (recordOffset + 60) with
          | ScanTorn => Ok ([], recordOffset)
          | ScanFail e => Err e
          | ScanDone blocks hashed s2 offset =>
              if negb (bytes_Equal (take 32 (drop 28 header)) (sha256 hashed)) then
                Err (Errorf "local journal record %d checksum does not match")
              else
                '(entries, validBytes) ← scan_records fuel' metadata sequence offset s2;
                Ok (mkGeneration blocks (i64 (blockCount * jm_BlockSize metadata)) sequence :: entries,
                    validBytes)
          end
      end
  end.

(** [readJournal(file)], the file as the stream of its bytes. *)
Definition readJournal (file : Stream) : result (JournalMetadata * list Generation * Z) :=
  '(prefix, s) ← wrap_err "read local journal header" (ReadFull 12 file);
  _ ← fail_if (negb (bytes_Equal (take 8 prefix) (string_bytes journalHeaderMagic)))
        (Errorf "local journal has invalid header magic");
  let metadataBytes := be_decode (drop 8 prefix) in
  _ ← fail_if ((metadataBytes <=? 0) || (maxJournalMetadata <? metadataBytes))
        (Errorf "local journal metadata length %d is invalid");
  '(body, s) ← wrap_err "read local journal metadata" (ReadFull (Z.to_nat metadataBytes) s);
  '(digest, s) ← wrap_err "read local journal metadata checksum" (ReadFull sha256_Size s);
  _ ← fail_if (negb (bytes_Equal digest (sha256 body))) (Errorf "local journal metadata checksum does not match");
  metadata ← wrap_err "decode local journal metadata" (Unmarshal body);
  _ ← fail_if (negb (bool_decide (jm_Format metadata = journalFormat)) ||
               bool_decide (jm_VolumeID metadata = EmptyString) ||
               bool_decide (jm_VolumeName metadata = EmptyString) ||
               (jm_Size metadata <=? 0) || negb (jm_BlockSize metadata =? DefaultBlockSize))
        (Errorf "local journal metadata is invalid");
  let offset := journalHeaderPrefix + metadataBytes + Z.of_nat sha256_Size in
  '(entries, validBytes) ← scan_records (S (length (pending s))) metadata 0 offset s;
  Ok (metadata, entries, validBytes).
End format.

(** ** Specification of the byte format *)

Definition with_seq (g : Generation) (seq : Z) : Generation := mkGeneration (GenBlocks g) (gen_bytes g) seq.

Definition block_entry (g : Generation) (b : Z) : bytes := be_encode 8 b ++ block_data g b.

Definition payload_of (g : Generation) (blocks : list Z) : bytes := concat (block_entry g <$> blocks).

Definition dimensions_of (g : Generation) : bytes :=
  be_encode 8 (journalSeq g) ++ be_encode 4 (Z.of_nat (size (GenBlocks g))) ++
  be_encode 8 (Z.of_nat (size (GenBlocks g)) * (8 + DefaultBlockSize)).

(** A generation as the journal stores it: complete blocks of the volume, its
    byte count and a non-zero sequence number. *)
Definition record_wf (imageBlocks : Z) (g : Generation) : Prop :=
  generation_wf imageBlocks g ∧ size (GenBlocks g) ≠ 0%nat ∧
  Z.of_nat (size (GenBlocks g)) ≤ imageBlocks ∧
  0 < journalSeq g < 2 ^ 64 ∧ gen_bytes g = Z.of_nat (size (GenBlocks g)) * DefaultBlockSize.

(** Metadata that [readJournal] accepts. *)
Definition metadata_wf (imageBlocks : Z) (m : JournalMetadata) : Prop :=
  jm_Format m = journalFormat ∧ jm_VolumeID m ≠ EmptyString ∧ jm_VolumeName m ≠ EmptyString ∧
  0 < jm_Size m < 2 ^ 63 ∧ jm_BlockSize m = DefaultBlockSize ∧ jm_Size m `quot` DefaultBlockSize = imageBlocks.

(** Sequence numbers strictly increase from [last] on. *)
Fixpoint increasing (last : Z) (recs : list Generation) : Prop :=
  match recs with
  | [] => True
  | g :: rest => last < journalSeq g ∧ increasing (journalSeq g) rest
  end.

Section format_lemmas.
Context `{Digest} `{Json JournalMetadata}.
Context (imageBlocks : Z) (m : JournalMetadata) (Hm : metadata_wf imageBlocks m).

Definition record_header (g : Generation) : bytes :=
  string_bytes journalRecordMagic ++ dimensions_of g ++
  sha256 (dimensions_of g ++ payload_of g (sortedBlocks g)).

(** The record of a stored generation. *)
Definition record_bytes (g : Generation) : bytes := record_header g ++ payload_of g (sortedBlocks g).

(** What a crash may leave of the last record: nothing, or a proper prefix of
    some record with a later sequence number. *)
Definition torn_tail (last : Z) (tail : bytes) : Prop :=
  tail = [] ∨ ∃ g k, record_wf imageBlocks g ∧ last < journalSeq g ∧
    (k < length (record_bytes g))%nat ∧ tail = take k (record_bytes g).

Lemma image_blocks_of_metadata : jm_Size m `quot` jm_BlockSize m = imageBlocks.
Proof.
  by destruct Hm as (_ & _ & _ & _ & -> & <-).
Qed.

Lemma image_blocks_range : 0 ≤ imageBlocks ≤ maxImageBlocks.
Proof.
  destruct Hm as (_ & _ & _ & Hsz & _ & <-). unfold maxImageBlocks, MaxInt64.
  rewrite Z.quot_div_nonneg by (unfold DefaultBlockSize; lia).
  split; [apply Z.div_pos|apply Z.div_le_mono]; unfold DefaultBlockSize; lia.
Qed.

Lemma block_size_of_metadata : Z.to_nat (jm_BlockSize m) = blockBytes.
Proof. destruct Hm as (_ & _ & _ & _ & -> & _). done. Qed.

Lemma record_blocks g :
  record_wf imageBlocks g →
  blocks_ok g (sortedBlocks g) ∧ Forall (fun b => 0 ≤ b < imageBlocks) (sortedBlocks g) ∧
  length (sortedBlocks g) = size (GenBlocks g) ∧ NoDup (sortedBlocks g) ∧
  Z.of_nat (size (GenBlocks g)) < 2 ^ 32 ∧ imageBlocks < 2 ^ 63.
Proof.
  intros (Hg & _). pose proof image_blocks_range as Himg.
  destruct (generation_blocks imageBlocks g) as (Hok & Hr & _ & _); [lia|done|].
  destruct (sortedBlocks_spec g) as (Hs & _ & Hlen). split_and!; [done..| |apply Hg|].
  - clear -Hs. induction Hs as [|x l Hs IH Hf]; constructor; [|done].
    intros Hx. rewrite Forall_forall in Hf. specialize (Hf x Hx). lia.
  - assert (maxImageBlocks < 2 ^ 63) by by vm_compute. lia.
Qed.

Lemma dimensions_length g : length (dimensions_of g) = 20%nat.
Proof. unfold dimensions_of. by rewrite !length_app, !be_encode_length. Qed.

Lemma record_header_length g : length (record_header g) = 60%nat.
Proof. unfold record_header. by rewrite !length_app, dimensions_length, sha256_length. Qed.

Lemma block_entry_length g b :
  Z.of_nat (length (block_data g b)) = DefaultBlockSize → length (block_entry g b) = (8 + blockBytes)%nat.
Proof.
  intros Hb. unfold block_entry. rewrite length_app, be_encode_length. pose proof blockBytes_Z. lia.
Qed.

Lemma payload_length g blocks :
  blocks_ok g blocks → length (payload_of g blocks) = (length blocks * (8 + blockBytes))%nat.
Proof.
  induction 1 as [|b bs Hb _ IH]; [done|]. unfold payload_of in *. cbn [fmap list_fmap concat length].
  rewrite length_app, IH, block_entry_length by done. lia.
Qed.

Lemma record_payload_spec g blocks : blocks_ok g blocks → record_payload g blocks = Ok (payload_of g blocks).
Proof.
  induction 1 as [|b bs Hb _ IH]; [done|]. cbn [record_payload]. rewrite Hb, Z.eqb_refl.
  cbn [negb fail_if mbind result_mbind]. rewrite IH. cbn [mbind result_mbind].
  unfold payload_of, block_entry. cbn [fmap list_fmap concat]. by rewrite <-app_assoc.
Qed.

(** Encoding a well-formed generation succeeds. *)
Lemma encodeJournalRecord_spec g seq :
  record_wf imageBlocks (with_seq g seq) →
  encodeJournalRecord (Some g) seq = Ok (record_bytes (with_seq g seq), with_seq g seq).
Proof.
  intros Hwf. pose proof (record_blocks _ Hwf) as (Hok & _ & Hlen & _ & Hsz & _).
  destruct Hwf as (_ & Hne & _ & Hseq & _). cbn [with_seq GenBlocks] in *.
  unfold encodeJournalRecord. cbn [Empty]. rewrite bool_decide_eq_false_2 by done.
  cbn [fail_if mbind result_mbind]. rewrite (proj2 (Z.ltb_ge MaxUint32 (Z.of_nat (size (GenBlocks g))))) by (unfold MaxUint32; lia).
  cbn [fail_if mbind result_mbind].
  assert (sortedBlocks (with_seq g seq) = sortedBlocks g) as Hsb by done. rewrite Hsb in *.
  rewrite Hlen.
  rewrite (proj2 (Z.ltb_ge (MaxInt64 - journalRecordHeader) (Z.of_nat (size (GenBlocks g)) * (8 + DefaultBlockSize))))
    by (unfold MaxInt64, journalRecordHeader, DefaultBlockSize; lia). cbn [fail_if mbind result_mbind].
  assert (blocks_ok g (sortedBlocks g)) as Hok' by done.
  rewrite record_payload_spec by done. cbn [mbind result_mbind].
  unfold u32. rewrite Z.mod_small by lia.
  unfold record_bytes, record_header. rewrite Hsb. by rewrite <-!app_assoc.
Qed.

Lemma encoded_record g part :
  record_wf imageBlocks g → encodeJournalRecord (Some g) (journalSeq g) = Ok (part, g) → part = record_bytes g.
Proof. destruct g as [bs n sq]. intros Hg Henc. rewrite encodeJournalRecord_spec in Henc by done. by injection Henc as <-. Qed.

(** The fields of a record header. *)
Lemma record_header_fields g :
  record_wf imageBlocks g →
  take 8 (record_header g) = string_bytes journalRecordMagic ∧
  be_decode (take 8 (drop 8 (record_header g))) = journalSeq g ∧
  be_decode (take 4 (drop 16 (record_header g))) = Z.of_nat (size (GenBlocks g)) ∧
  be_decode (take 8 (drop 20 (record_header g))) = Z.of_nat (size (GenBlocks g)) * (8 + DefaultBlockSize) ∧
  take 20 (drop 8 (record_header g)) = dimensions_of g ∧
  take 32 (drop 28 (record_header g)) = sha256 (dimensions_of g ++ payload_of g (sortedBlocks g)).
Proof.
  intros Hwf. pose proof (record_blocks _ Hwf) as (_ & _ & _ & _ & Hsz & _).
  destruct Hwf as (_ & _ & _ & Hseq & _).
  unfold record_header.
  set (digest := sha256 _). set (magic := string_bytes _).
  assert (length digest = 32%nat) as Hd by apply sha256_length.
  assert (length magic = 8%nat) as Hmg by done.
  assert (drop 8 (magic ++ dimensions_of g ++ digest) = dimensions_of g ++ digest) as H8
    by (by apply drop_app_length').
  assert (drop 28 (magic ++ dimensions_of g ++ digest) = digest) as H28.
  { change 28%nat with (8 + 20)%nat. rewrite <-drop_drop, H8.
    apply drop_app_length'. by rewrite dimensions_length. }
  pose proof (dimensions_length g) as Hdl.
  assert (∀ k n, take n (drop (8 + k) (magic ++ dimensions_of g ++ digest)) =
    take n (drop k (dimensions_of g ++ digest))) as Hk.
  { intros k n. by rewrite <-drop_drop, H8. }
  split_and!.
  - by apply take_app_length'.
  - rewrite H8. unfold dimensions_of at 1. rewrite <-!app_assoc.
    rewrite take_app_length' by by rewrite be_encode_length.
    rewrite be_decode_encode_small; [done|]. change (256 ^ Z.of_nat 8) with (2 ^ 64). lia.
  - rewrite (Hk 8%nat). unfold dimensions_of at 1. rewrite <-!app_assoc.
    rewrite drop_app_length' by by rewrite be_encode_length.
    rewrite take_app_length' by by rewrite be_encode_length.
    rewrite be_decode_encode_small; [done|]. change (256 ^ Z.of_nat 4) with (2 ^ 32). lia.
  - rewrite (Hk 12%nat). unfold dimensions_of at 1. rewrite <-!app_assoc.
    change 12%nat with (8 + 4)%nat. rewrite <-drop_drop.
    rewrite drop_app_length' by by rewrite be_encode_length.
    rewrite drop_app_length' by by rewrite be_encode_length.
    rewrite take_app_length' by by rewrite be_encode_length.
    rewrite be_decode_encode_small; [done|]. change (256 ^ Z.of_nat 8) with (2 ^ 64).
    unfold DefaultBlockSize. lia.
  - rewrite H8. by apply take_app_length'.
  - rewrite H28. apply take_ge. lia.
Qed.

(** *** The block loop *)

(** The block map after the loop has read the blocks [bs]. *)
Definition add_blocks (g : Generation) (bs : list Z) (blocks : gmap Z bytes) : gmap Z bytes :=
  foldl (fun acc b => <[b := block_data g b]> acc) blocks bs.

Lemma add_blocks_lookup g bs blocks b :
  add_blocks g bs blocks !! b = if decide (b ∈ bs) then Some (block_data g b) else blocks !! b.
Proof.
  revert blocks. induction bs as [|x bs IH]; intros blocks.
  { cbn [add_blocks foldl]. rewrite decide_False; [done|]. apply not_elem_of_nil. }
  cbn [add_blocks foldl]. change (foldl _ ?m bs) with (add_blocks g bs m). rewrite IH.
  destruct (decide (b ∈ bs)) as [Hin|Hin].
  - rewrite decide_True; [done|]. by apply elem_of_cons; right.
  - destruct (decide (b = x)) as [->|Hne].
    + rewrite lookup_insert_eq, decide_True; [done|]. by apply elem_of_cons; left.
    + rewrite lookup_insert_ne by done. rewrite decide_False; [done|]. intros [|]%elem_of_cons; done.
Qed.

Lemma add_blocks_all g : add_blocks g (sortedBlocks g) ∅ = GenBlocks g.
Proof.
  apply map_eq. intros b. rewrite add_blocks_lookup.
  destruct (sortedBlocks_spec g) as (_ & Hin & _). destruct (decide _) as [Hb|Hb].
  - apply Hin in Hb as [d Hd]. unfold block_data. by rewrite Hd.
  - rewrite Hin in Hb. rewrite lookup_empty. symmetry. by apply eq_None_not_Some.
Qed.

Lemma ReadFull_short n d : (length d < n)%nat → ∃ e, ReadFull n (mkStream d None) = Err e ∧ is_short e = true.
Proof.
  intros Hd. unfold ReadFull. cbn [pending final]. rewrite (proj2 (Nat.leb_gt _ _)) by done.
  destruct d; eauto.
Qed.

(** What the loop may still meet: blocks of the volume, each complete and not
    seen yet. *)
Definition blocks_ahead (g : Generation) (bs : list Z) (blocks : gmap Z bytes) : Prop :=
  blocks_ok g bs ∧ Forall (fun b => 0 ≤ b < imageBlocks) bs ∧ NoDup bs ∧ ∀ b, b ∈ bs → blocks !! b = None.

Lemma blocks_ahead_cons g b bs blocks :
  blocks_ahead g (b :: bs) blocks →
  length (block_data g b) = blockBytes ∧ 0 ≤ b < imageBlocks ∧ imageBlocks < 2 ^ 63 ∧ blocks !! b = None ∧
  blocks_ahead g bs (<[b := block_data g b]> blocks).
Proof.
  intros (Hok & Hr & Hnd & Hfresh). pose proof image_blocks_range as Himg.
  apply Forall_cons in Hok as [Hb Hok]. apply Forall_cons in Hr as [Hrb Hr]. apply NoDup_cons in Hnd as [Hnb Hnd].
  pose proof blockBytes_Z. assert (maxImageBlocks < 2 ^ 63) by by vm_compute.
  split_and!; [lia..| |]; [apply Hfresh; apply elem_of_cons; by left|].
  split_and!; [done..|]. intros x Hx.
  rewrite lookup_insert_ne by (by intros ->). apply Hfresh. apply elem_of_cons. by right.
Qed.

(** One iteration on a complete entry. *)
Lemma scan_blocks_entry n g b bs blocks hashed rest off :
  blocks_ahead g (b :: bs) blocks →
  scan_blocks (S n) m blocks hashed (mkStream (block_entry g b ++ rest) None) off =
  scan_blocks n m (<[b := block_data g b]> blocks) (hashed ++ block_entry g b) (mkStream rest None)
    (off + 8 + DefaultBlockSize).
Proof.
  intros (Hlen & Hr & Hbig & Hfresh & _)%blocks_ahead_cons. cbn [scan_blocks].
  unfold block_entry. rewrite <-app_assoc, ReadFull_app by apply be_encode_length.
  rewrite be_decode_encode_small by (change (256 ^ Z.of_nat 8) with (2 ^ 64); lia).
  rewrite image_blocks_of_metadata, block_size_of_metadata, (proj2 (Z.leb_gt imageBlocks b)) by lia.
  rewrite Hfresh, bool_decide_eq_false_2 by by intros [? ?].
  rewrite ReadFull_app by done. destruct Hm as (_ & _ & _ & _ & -> & _). done.
Qed.

Lemma payload_cons g b bs : payload_of g (b :: bs) = block_entry g b ++ payload_of g bs.
Proof. done. Qed.

Lemma scan_blocks_done g bs blocks hashed rest off :
  blocks_ahead g bs blocks →
  scan_blocks (length bs) m blocks hashed (mkStream (payload_of g bs ++ rest) None) off =
  ScanDone (add_blocks g bs blocks) (hashed ++ payload_of g bs) (mkStream rest None)
    (off + Z.of_nat (length bs) * (8 + DefaultBlockSize)).
Proof.
  revert blocks hashed off. induction bs as [|b bs IH]; intros blocks hashed off Hah.
  { cbn [length scan_blocks add_blocks foldl payload_of fmap list_fmap concat]. rewrite app_nil_r. f_equal. lia. }
  cbn [length]. rewrite payload_cons, <-app_assoc, scan_blocks_entry with (bs := bs) by done.
  apply blocks_ahead_cons in Hah as (_ & _ & _ & _ & Hah). rewrite IH by done.
  rewrite <-app_assoc. f_equal. lia.
Qed.

Lemma scan_blocks_torn g bs blocks hashed k off :
  blocks_ahead g bs blocks → (k < length (payload_of g bs))%nat →
  scan_blocks (length bs) m blocks hashed (mkStream (take k (payload_of g bs)) None) off = ScanTorn.
Proof.
  revert blocks hashed off k. induction bs as [|b bs IH]; intros blocks hashed off k Hah Hk.
  { cbn in Hk. lia. }
  pose proof (blocks_ahead_cons _ _ _ _ Hah) as (Hlen & Hr & Hbig & Hfresh & Hah').
  assert (length (block_entry g b) = (8 + blockBytes)%nat) as Hel.
  { apply block_entry_length. rewrite Hlen. apply blockBytes_Z. }
  rewrite payload_cons in *. rewrite length_app in Hk. cbn [length].
  destruct (decide (8 + blockBytes ≤ k)%nat) as [Hge|Hlt].
  - rewrite take_app_ge by lia. rewrite scan_blocks_entry with (bs := bs) by done. apply IH; [done|lia].
  - rewrite take_app_le by lia. cbn [scan_blocks]. destruct (decide (8 ≤ k)%nat) as [Hk8|Hk8].
    + unfold block_entry. rewrite take_app_ge by (rewrite be_encode_length; lia).
      rewrite ReadFull_app by apply be_encode_length.
      rewrite be_decode_encode_small by (change (256 ^ Z.of_nat 8) with (2 ^ 64); lia).
      rewrite image_blocks_of_metadata, block_size_of_metadata, (proj2 (Z.leb_gt imageBlocks b)) by lia.
      rewrite Hfresh, bool_decide_eq_false_2 by by intros [? ?]. rewrite be_encode_length.
      destruct (ReadFull_short blockBytes (take (k - 8) (block_data g b))) as (e & -> & ->); [|done].
      rewrite length_take. lia.
    + destruct (ReadFull_short 8 (take k (block_entry g b))) as (e & -> & ->); [|done].
      rewrite length_take. lia.
Qed.

Lemma record_blocks_ahead g : record_wf imageBlocks g → blocks_ahead g (sortedBlocks g) ∅.
Proof. intros (? & ? & _ & ? & _)%record_blocks. split_and!; [done..|]. intros. apply lookup_empty. Qed.

(** *** The record loop *)

Lemma scan_records_header fuel g last off rest :
  record_wf imageBlocks g → last < journalSeq g →
  scan_records (S fuel) m last off (mkStream (record_header g ++ rest) None) =
  match scan_blocks (length (sortedBlocks g)) m ∅ (dimensions_of g) (mkStream rest None) (off + 60) with
  | ScanTorn => Ok ([], off)
  | ScanFail e => Err e
  | ScanDone blocks hashed s2 offset =>
      if negb (bytes_Equal (sha256 (dimensions_of g ++ payload_of g (sortedBlocks g))) (sha256 hashed)) then
        Err (Errorf "local journal record %d checksum does not match")
      else
        '(entries, validBytes) ← scan_records fuel m (journalSeq g) offset s2;
        Ok (mkGeneration blocks (gen_bytes g) (journalSeq g) :: entries, validBytes)
  end.
Proof.
  intros Hwf Hseq. cbn [scan_records]. rewrite ReadFull_app by apply record_header_length.
  destruct (record_header_fields g Hwf) as (-> & -> & -> & -> & -> & ->).
  pose proof (record_blocks _ Hwf) as (_ & _ & Hlen & _ & Hsz & Hbig).
  destruct Hwf as (_ & Hne & Hle & Hs & Hb). rewrite bytes_Equal_refl, image_blocks_of_metadata.
  rewrite u64_small by (unfold DefaultBlockSize; lia).
  rewrite (proj2 (Z.leb_gt (journalSeq g) last)), (proj2 (Z.eqb_neq (Z.of_nat (size (GenBlocks g))) 0)),
    (proj2 (Z.ltb_ge imageBlocks (Z.of_nat (size (GenBlocks g))))), Z.eqb_refl by lia.
  cbn [negb orb]. rewrite Nat2Z.id, Hlen.
  assert (i64 (Z.of_nat (size (GenBlocks g)) * jm_BlockSize m) = gen_bytes g) as ->; [|done].
  destruct Hm as (_ & _ & _ & _ & -> & _). rewrite Hb. apply i64_small.
  unfold is_i64, DefaultBlockSize. lia.
Qed.

Definition records_bytes (recs : list Generation) : bytes := concat (record_bytes <$> recs).

Lemma records_count recs : (length recs ≤ length (records_bytes recs))%nat.
Proof.
  induction recs as [|g recs IH]; [cbn; lia|]. unfold records_bytes in *.
  cbn [fmap list_fmap concat length]. rewrite length_app. unfold record_bytes at 1.
  rewrite length_app, record_header_length. lia.
Qed.

Definition last_seq (start : Z) (recs : list Generation) : Z := default start (journalSeq <$> last recs).

Lemma last_seq_cons start g recs : last_seq start (g :: recs) = last_seq (journalSeq g) recs.
Proof. unfold last_seq. rewrite last_cons. by destruct (last recs). Qed.

Lemma scan_records_torn fuel last off tail :
  torn_tail last tail → scan_records (S fuel) m last off (mkStream tail None) = Ok ([], off).
Proof.
  intros [->|(g & k & Hwf & Hseq & Hk & ->)].
  { cbn [scan_records]. by destruct (ReadFull_short 60 []) as (e & -> & ->); [cbn; lia|]. }
  destruct (decide (60 ≤ k)%nat) as [Hge|Hlt].
  - unfold record_bytes in *. rewrite length_app, record_header_length in Hk.
    rewrite take_app_ge, record_header_length by (rewrite record_header_length; lia).
    rewrite scan_records_header by done. rewrite scan_blocks_torn; [done|by apply record_blocks_ahead|lia].
  - cbn [scan_records]. destruct (ReadFull_short 60 (take k (record_bytes g))) as (e & -> & ->); [|done].
    rewrite length_take. lia.
Qed.

Lemma record_bytes_length g : record_wf imageBlocks g → Z.of_nat (length (record_bytes g)) = journalRecordSize g.
Proof.
  intros Hwf. pose proof (record_blocks g Hwf) as (Hok & _ & Hlen & _).
  unfold record_bytes, journalRecordSize, journalRecordHeader. pose proof blockBytes_Z.
  rewrite length_app, record_header_length, payload_length, Hlen by done. nia.
Qed.

Lemma scan_records_spec fuel last off recs tail :
  Forall (record_wf imageBlocks) recs → increasing last recs → torn_tail (last_seq last recs) tail →
  (length recs < fuel)%nat →
  scan_records fuel m last off (mkStream (records_bytes recs ++ tail) None) =
  Ok (recs, off + Z.of_nat (length (records_bytes recs))).
Proof.
  revert fuel last off. induction recs as [|g recs IH]; intros [|fuel] last off Hwf Hinc Htail Hfuel.
  1,3: cbn in Hfuel; lia.
  { cbn [records_bytes fmap list_fmap concat app length]. rewrite scan_records_torn by done. by rewrite Z.add_0_r. }
  apply Forall_cons in Hwf as [Hg Hwf]. destruct Hinc as [Hseq Hinc]. rewrite last_seq_cons in Htail.
  unfold records_bytes. cbn [fmap list_fmap concat]. change (concat (record_bytes <$> recs)) with (records_bytes recs).
  unfold record_bytes at 1. rewrite <-!app_assoc, scan_records_header by done.
  rewrite scan_blocks_done by by apply record_blocks_ahead.
  rewrite bytes_Equal_refl. cbn [negb]. rewrite IH by (done || (cbn in Hfuel; lia)). cbn [mbind result_mbind].
  rewrite add_blocks_all. destruct g as [bs by_ sq]. do 2 f_equal.
  rewrite length_app, Nat2Z.inj_add, record_bytes_length by done.
  pose proof (record_blocks _ Hg) as (_ & _ & -> & _).
  unfold journalRecordSize, journalRecordHeader. lia.
Qed.

(** *** The header *)

Definition header_bytes (body : bytes) : bytes :=
  string_bytes journalHeaderMagic ++ be_encode 4 (Z.of_nat (length body)) ++ body ++ sha256 body.

Definition body_wf (body : bytes) : Prop := 0 < Z.of_nat (length body) ≤ maxJournalMetadata.

Lemma journal_header_spec body :
  Marshal m = Ok body → body_wf body → journal_header m = Ok (header_bytes body).
Proof.
  intros Hmar [Hpos Hmax]. unfold journal_header. rewrite Hmar. cbn [mbind result_mbind].
  rewrite (proj2 (Z.eqb_neq (Z.of_nat (length body)) 0)), (proj2 (Z.ltb_ge maxJournalMetadata (Z.of_nat (length body)))) by lia.
  cbn [orb fail_if mbind result_mbind]. unfold u32.
  assert (maxJournalMetadata < 2 ^ 32) by by vm_compute. by rewrite Z.mod_small by lia.
Qed.

Lemma journal_header_body body header :
  Marshal m = Ok body → journal_header m = Ok header → body_wf body.
Proof.
  intros Hbody Hhead. unfold journal_header in Hhead. rewrite Hbody in Hhead. cbn [mbind result_mbind] in Hhead.
  destruct ((_ =? 0) || _) eqn:Hsize; [done|]. zbool. unfold body_wf. lia.
Qed.

Lemma metadata_accepted :
  negb (bool_decide (jm_Format m = journalFormat)) || bool_decide (jm_VolumeID m = EmptyString) ||
  bool_decide (jm_VolumeName m = EmptyString) || (jm_Size m <=? 0) || negb (jm_BlockSize m =? DefaultBlockSize) = false.
Proof.
  destruct Hm as (H1 & H2 & H3 & H4 & H5 & H6). rewrite H5, H1.
  rewrite bool_decide_eq_true_2, !bool_decide_eq_false_2 by done.
  cbn [negb orb]. rewrite (proj2 (Z.leb_gt (jm_Size m) 0)) by lia. by rewrite Z.eqb_refl.
Qed.

(** Recovery of a file written by the journal, whatever a crash left of the
    record after the last complete one. *)
Lemma readJournal_spec body recs tail :
  Unmarshal body = Ok m → body_wf body →
  Forall (record_wf imageBlocks) recs → increasing 0 recs → torn_tail (last_seq 0 recs) tail →
  readJournal (mkStream (header_bytes body ++ records_bytes recs ++ tail) None) =
  Ok (m, recs, Z.of_nat (length (header_bytes body ++ records_bytes recs))).
Proof.
  intros Hun [Hpos Hmax] Hwf Hinc Htail. unfold readJournal, header_bytes.
  set (magic := string_bytes journalHeaderMagic).
  assert (length (magic ++ be_encode 4 (Z.of_nat (length body))) = 12%nat) as H12.
  { by rewrite length_app, be_encode_length. }
  assert (maxJournalMetadata < 2 ^ 32) as Hmm by by vm_compute.
  rewrite <-!app_assoc, (app_assoc magic), ReadFull_app by done. cbn [wrap_err mbind result_mbind].
  rewrite take_app_length', bytes_Equal_refl by done. cbn [negb fail_if mbind result_mbind].
  rewrite drop_app_length', be_decode_encode_small by (done || (change (256 ^ Z.of_nat 4) with (2 ^ 32); lia)).
  rewrite (proj2 (Z.leb_gt (Z.of_nat (length body)) 0)), (proj2 (Z.ltb_ge maxJournalMetadata (Z.of_nat (length body)))) by lia.
  cbn [orb fail_if mbind result_mbind]. rewrite Nat2Z.id, ReadFull_app by done. cbn [wrap_err mbind result_mbind].
  rewrite ReadFull_app by (by rewrite sha256_length). cbn [wrap_err mbind result_mbind].
  rewrite bytes_Equal_refl. cbn [negb fail_if mbind result_mbind]. rewrite Hun. cbn [wrap_err mbind result_mbind].
  rewrite metadata_accepted. cbn [fail_if mbind result_mbind].
  rewrite scan_records_spec; [|done..|].
  - cbn [mbind result_mbind]. do 2 f_equal. unfold journalHeaderPrefix, sha256_Size.
    rewrite !length_app, sha256_length, be_encode_length.
    change (length magic) with 8%nat. lia.
  - cbn [pending]. rewrite length_app. apply Nat.lt_succ_r. transitivity (length (records_bytes recs)); [|lia].
    apply records_count.
Qed.

(** *** Arbitrary bytes

    What the loops accept of an arbitrary file: the accepted part alone
    determines the result, whatever follows it. *)

Definition map_wf (blocks : gmap Z bytes) : Prop :=
  ∀ b d, blocks !! b = Some d → 0 ≤ b < imageBlocks ∧ length d = blockBytes.

Lemma scan_blocks_inv n blocks hashed s off blocks' hashed' s' off' :
  scan_blocks n m blocks hashed s off = ScanDone blocks' hashed' s' off' → map_wf blocks →
  ∃ used, pending s = used ++ pending s' ∧ final s' = final s ∧ map_wf blocks' ∧
    size blocks' = (size blocks + n)%nat ∧ off' = off + Z.of_nat (length used) ∧
    ∀ rest fin, scan_blocks n m blocks hashed (mkStream (used ++ rest) fin) off =
      ScanDone blocks' hashed' (mkStream rest fin) off'.
Proof.
  revert blocks hashed s off. induction n as [|n IH]; intros blocks hashed s off Hscan Hblocks.
  { cbn in Hscan. injection Hscan as <- <- <- <-. exists []. split_and!; try done; cbn; lia. }
  cbn [scan_blocks] in Hscan. rewrite image_blocks_of_metadata, block_size_of_metadata in Hscan.
  destruct (ReadFull 8 s) as [[hd s1]|e] eqn:H8; [|by destruct (is_short e)].
  case_if_in Hscan; [done|]. case_bool_decide as Hfresh; [done|].
  destruct (ReadFull blockBytes s1) as [[data s2]|e] eqn:Hd; [|by destruct (is_short e)].
  apply ReadFull_Ok in H8 as (Hp8 & Hf8 & Hl8). apply ReadFull_Ok in Hd as (Hpd & Hfd & Hld).
  pose proof (be_decode_range hd) as Hrange.
  apply IH in Hscan as (used & Hp & Hf & Hwf & Hsz & Hoff & Hloc).
  - exists (hd ++ data ++ used). split_and!; [by rewrite Hp8, Hpd, Hp, <-!app_assoc|congruence|done|..].
    + rewrite Hsz, map_size_insert_None; [lia|]. by apply eq_None_not_Some.
    + rewrite Hoff, !length_app, Hl8, Hld. pose proof blockBytes_Z.
      destruct Hm as (_ & _ & _ & _ & -> & _). lia.
    + intros rest fin. cbn [scan_blocks]. rewrite image_blocks_of_metadata, block_size_of_metadata.
      rewrite <-!app_assoc, ReadFull_app by done.
      rewrite (proj2 (Z.leb_gt _ _)) by done. rewrite bool_decide_eq_false_2 by done.
      rewrite ReadFull_app by done. apply Hloc.
  - intros b d. rewrite lookup_insert_Some. intros [[<- <-]|[_ Hb]]; [|by apply Hblocks]. split; [lia|done].
Qed.

(** The continuation property of an accepted sequence of records. *)
Definition scan_extends (recs : list Generation) (lastS off valid : Z) (used : bytes) : Prop :=
  ∀ fuel rest fin,
    scan_records (length recs + fuel) m lastS off (mkStream (used ++ rest) fin) =
    '(more, v) ← scan_records fuel m (last_seq lastS recs) valid (mkStream rest fin);
    Ok (recs ++ more, v).

Lemma scan_records_inv fuel lastS off s recs valid :
  scan_records fuel m lastS off s = Ok (recs, valid) → 0 ≤ lastS →
  ∃ used rest, pending s = used ++ rest ∧ valid = off + Z.of_nat (length used) ∧
    (length recs ≤ length used)%nat ∧
    Forall (record_wf imageBlocks) recs ∧ increasing lastS recs ∧ scan_extends recs lastS off valid used.
Proof.
  revert lastS off s recs. induction fuel as [|fuel IH]; intros lastS off s recs Hscan Hlast; [done|].
  cbn [scan_records] in Hscan. rewrite image_blocks_of_metadata in Hscan.
  assert (∀ rs : list Generation, Ok ([], off) = Ok (rs, valid) → ∃ used rest, pending s = used ++ rest ∧
    valid = off + Z.of_nat (length used) ∧ (length rs ≤ length used)%nat ∧
    Forall (record_wf imageBlocks) rs ∧ increasing lastS rs ∧ scan_extends rs lastS off valid used) as Hstop.
  { intros rs [= <- <-]. exists [], (pending s). split_and!; try done; [cbn; lia|].
    intros f rest fin. change (last_seq lastS []) with lastS. cbn [app length Nat.add].
    by destruct (scan_records f m lastS off (mkStream rest fin)) as [[]|]. }
  destruct (ReadFull 60 s) as [[hd s1]|e] eqn:H60; [|destruct (is_short e); [by apply Hstop|done]].
  apply ReadFull_Ok in H60 as (Hp60 & Hf60 & Hl60).
  destruct (negb (bytes_Equal (take 8 hd) _)) eqn:Hmagic; [done|].
  set (seq := be_decode (take 8 (drop 8 hd))) in *. set (cnt := be_decode (take 4 (drop 16 hd))) in *.
  destruct ((seq <=? lastS) || (cnt =? 0) || (imageBlocks <? cnt) || negb _) eqn:Hdim; [done|].
  destruct (scan_blocks _ _ _ _ _ _) as [|e|blocks hashed s2 off2] eqn:Hb; [by apply Hstop|done|].
  destruct (negb (bytes_Equal (take 32 (drop 28 hd)) (sha256 hashed))) eqn:Hsum; [done|].
  destruct (scan_records fuel m seq off2 s2) as [[more v]|e] eqn:Hrec; [|done].
  cbn [mbind result_mbind] in Hscan. injection Hscan as <- <-.
  assert (lastS < seq ∧ cnt ≠ 0 ∧ cnt ≤ imageBlocks) as (Hlt & Hnz & Hfit) by (clear -Hdim; zbool; lia).
  assert (length (take 4 (drop 16 hd)) = 4%nat) as Hl4 by (rewrite length_take, length_drop; lia).
  assert (length (take 8 (drop 8 hd)) = 8%nat) as Hl8 by (rewrite length_take, length_drop; lia).
  pose proof (be_decode_range (take 8 (drop 8 hd))) as Hseq. fold seq in Hseq. rewrite Hl8 in Hseq.
  pose proof (be_decode_range (take 4 (drop 16 hd))) as Hcnt. fold cnt in Hcnt. rewrite Hl4 in Hcnt.
  change (256 ^ Z.of_nat 8) with (2 ^ 64) in Hseq. change (256 ^ Z.of_nat 4) with (2 ^ 32) in Hcnt.
  apply scan_blocks_inv in Hb as (used & Hp & Hf & Hwf & Hsz & Hoff & Hloc); [|intros ? ?; by rewrite lookup_empty].
  rewrite map_size_empty in Hsz. cbn [Nat.add] in Hsz.
  apply IH in Hrec as (used2 & rest & Hp2 & Hv & Hl2 & Hwfs & Hinc & Hext); [|lia].
  assert (i64 (cnt * jm_BlockSize m) = cnt * DefaultBlockSize) as Hbytes.
  { destruct Hm as (_ & _ & _ & _ & -> & _). apply i64_small. unfold is_i64, DefaultBlockSize. lia. }
  exists (hd ++ used ++ used2), rest. split_and!.
  - by rewrite Hp60, Hp, Hp2, <-!app_assoc.
  - rewrite !length_app. lia.
  - rewrite !length_app. cbn [length]. lia.
  - constructor; [|done]. unfold record_wf, generation_wf. cbn [GenBlocks gen_bytes journalSeq].
    rewrite Hbytes, Hsz, Z2Nat.id by lia. split_and!; try done; lia.
  - cbn [increasing journalSeq]. split; [lia|done].
  - intros f rest' fin. cbn [length Nat.add scan_records].
    rewrite <-!app_assoc, ReadFull_app by done. rewrite Hmagic, image_blocks_of_metadata.
    fold seq. fold cnt. rewrite Hdim, Hloc, Hsum, Hext, last_seq_cons. cbn [journalSeq].
    by destruct (scan_records f m _ _ _) as [[]|].
Qed.

Lemma scan_blocks_fail n blocks hashed s off e :
  scan_blocks n m blocks hashed s off = ScanFail e → e ≠ OutOfFuel ∨ final s = Some e.
Proof.
  revert blocks hashed s off. induction n as [|n IH]; intros blocks hashed s off; [done|]. cbn [scan_blocks].
  destruct (ReadFull 8 s) as [[hd s1]|e'] eqn:H8.
  - apply ReadFull_Ok in H8 as (_ & Hf8 & _). repeat case_if; [intros [= <-]; by left..|].
    destruct (ReadFull _ s1) as [[data s2]|e'] eqn:Hd.
    + apply ReadFull_Ok in Hd as (_ & Hfd & _). rewrite <-Hf8, <-Hfd. apply IH.
    + case_if; [done|]. intros [= ->]. rewrite <-Hf8. revert Hd. unfold ReadFull.
      case_if; [done|]. destruct (final s1); [intros [= ->]; by right|]. by destruct (pending s1); intros [= <-]; left.
  - case_if; [done|]. intros [= ->]. revert H8. unfold ReadFull.
    case_if; [done|]. destruct (final s); [intros [= ->]; by right|]. by destruct (pending s); intros [= <-]; left.
Qed.

Lemma scan_blocks_shrinks n blocks hashed s off blocks' hashed' s' off' :
  scan_blocks n m blocks hashed s off = ScanDone blocks' hashed' s' off' →
  (length (pending s') ≤ length (pending s))%nat ∧ final s' = final s.
Proof.
  revert blocks hashed s off. induction n as [|n IH]; intros blocks hashed s off; cbn [scan_blocks].
  { by intros [= _ _ <- _]. }
  destruct (ReadFull 8 s) as [[hd s1]|e'] eqn:H8; [|by case_if].
  repeat case_if; [done..|]. destruct (ReadFull _ s1) as [[data s2]|e'] eqn:Hd; [|by case_if].
  intros [Hlen Hfin]%IH. apply ReadFull_Ok in H8 as (-> & Hf8 & _). apply ReadFull_Ok in Hd as (-> & Hfd & _).
  rewrite !length_app. split; [lia|congruence].
Qed.

(** The fuel [readJournal] gives to the record loop is enough: every record
    consumes at least its header. *)
Lemma scan_records_fuel fuel lastS off s :
  (length (pending s) < fuel)%nat → final s ≠ Some OutOfFuel →
  scan_records fuel m lastS off s ≠ Err OutOfFuel.
Proof.
  revert lastS off s. induction fuel as [|fuel IH]; intros lastS off s Hfuel Hfin; [lia|].
  cbn [scan_records]. destruct (ReadFull 60 s) as [[hd s1]|e'] eqn:H60.
  - apply ReadFull_Ok in H60 as (Hp & Hf & Hl). repeat case_if; try done.
    destruct (scan_blocks _ _ _ _ _ _) as [|e|blocks hashed s2 off2] eqn:Hb; [done| |].
    + apply scan_blocks_fail in Hb as [Hb|Hb]; congruence.
    + apply scan_blocks_shrinks in Hb as [Hp2 Hf2]. case_if; [done|]. specialize (IH (be_decode (take 8 (drop 8 hd))) off2 s2).
      destruct (scan_records _ _ _ _ _) as [[? ?]|e]; [done|]. cbn [mbind result_mbind].
      intros [= ->]. apply IH; [|congruence|done]. rewrite Hp, length_app in Hfuel. lia.
  - case_if; [done|]. intros [= ->]. revert H60. unfold ReadFull.
    case_if; [done|]. destruct (final s); [intros [= ->]; done|]. by destruct (pending s).
Qed.

(** [c] is a journal file holding [recs]: whatever complete records and torn
    tail follow, recovery returns [recs] and those records. *)
Definition journal_image (c : bytes) (recs : list Generation) : Prop :=
  Forall (record_wf imageBlocks) recs ∧ increasing 0 recs ∧
  ∀ more tail, Forall (record_wf imageBlocks) more → increasing (last_seq 0 recs) more →
    torn_tail (last_seq (last_seq 0 recs) more) tail →
    readJournal (mkStream (c ++ records_bytes more ++ tail) None) =
    Ok (m, recs ++ more, Z.of_nat (length (c ++ records_bytes more))).

Lemma last_seq_app start xs ys : last_seq start (xs ++ ys) = last_seq (last_seq start xs) ys.
Proof.
  revert start. induction xs as [|x xs IH]; intros start; [done|].
  cbn [app]. rewrite !last_seq_cons. apply IH.
Qed.

Lemma increasing_app start xs ys :
  increasing start (xs ++ ys) ↔ increasing start xs ∧ increasing (last_seq start xs) ys.
Proof.
  revert start. induction xs as [|x xs IH]; intros start; [cbn; tauto|].
  cbn [app increasing]. rewrite IH, last_seq_cons. tauto.
Qed.

Lemma records_bytes_app xs ys : records_bytes (xs ++ ys) = records_bytes xs ++ records_bytes ys.
Proof. unfold records_bytes. by rewrite fmap_app, concat_app. Qed.

(** A freshly written file. *)
Lemma journal_image_new body recs :
  Unmarshal body = Ok m → body_wf body → Forall (record_wf imageBlocks) recs → increasing 0 recs →
  journal_image (header_bytes body ++ records_bytes recs) recs.
Proof.
  intros Hun Hbody Hwf Hinc. split_and!; [done..|]. intros more tail Hwf2 Hinc2 Htail.
  rewrite <-last_seq_app in Htail. rewrite <-!app_assoc, (app_assoc (records_bytes recs)), <-records_bytes_app.
  apply readJournal_spec; [done..|by apply Forall_app|by apply increasing_app|done].
Qed.

(** Appending a record. *)
Lemma journal_image_app c recs g :
  journal_image c recs → record_wf imageBlocks g → last_seq 0 recs < journalSeq g →
  journal_image (c ++ record_bytes g) (recs ++ [g]).
Proof.
  intros (Hwf & Hinc & Hread) Hg Hseq. split_and!.
  - apply Forall_app; split; [done|by constructor].
  - apply increasing_app; split; [done|by split].
  - intros more tail Hwf2 Hinc2 Htail. rewrite last_seq_app, last_seq_cons in Hinc2, Htail.
    specialize (Hread (g :: more) tail). rewrite last_seq_cons in Hread.
    unfold records_bytes in *. cbn [fmap list_fmap concat] in Hread.
    rewrite <-!app_assoc in *. cbn [app]. apply Hread; [by constructor| |done]. split; [done|done].
Qed.

Lemma journal_image_read c recs tail :
  journal_image c recs → torn_tail (last_seq 0 recs) tail →
  readJournal (mkStream (c ++ tail) None) = Ok (m, recs, Z.of_nat (length c)).
Proof.
  intros (_ & _ & Hread) Htail. specialize (Hread [] tail).
  cbn [records_bytes fmap list_fmap concat app] in Hread. rewrite !app_nil_r in Hread. by apply Hread.
Qed.
End format_lemmas.

Section recovery.
Context `{Digest} `{Json JournalMetadata}.

(** The accepted bytes of a file are read the same way whatever follows them. *)
Lemma readJournal_extends s m recs valid :
  readJournal s = Ok (m, recs, valid) → jm_Size m < 2 ^ 63 →
  let imageBlocks := jm_Size m `quot` DefaultBlockSize in
  0 ≤ valid ≤ Z.of_nat (length (pending s)) ∧ metadata_wf imageBlocks m ∧
  Forall (record_wf imageBlocks) recs ∧ increasing 0 recs ∧
  ∀ x, ∃ fuel, (length x < fuel)%nat ∧
    readJournal (mkStream (take (Z.to_nat valid) (pending s) ++ x) None) =
    ('(more, v) ← scan_records fuel m (last_seq 0 recs) valid (mkStream x None); Ok (m, recs ++ more, v)).
Proof.
  intros Hread Hsize imageBlocks0. unfold readJournal in Hread.
  apply result_bind_Ok in Hread as ([prefix s1] & Hpre & Hread). apply wrap_err_Ok in Hpre.
  apply result_bind_Ok in Hread as (u1 & Hmagic & Hread). apply fail_if_Ok in Hmagic.
  apply result_bind_Ok in Hread as (u2 & Hlen & Hread). apply fail_if_Ok in Hlen.
  apply result_bind_Ok in Hread as ([body s2] & Hbody & Hread). apply wrap_err_Ok in Hbody.
  apply result_bind_Ok in Hread as ([digest s3] & Hdig & Hread). apply wrap_err_Ok in Hdig.
  apply result_bind_Ok in Hread as (u3 & Hsum & Hread). apply fail_if_Ok in Hsum.
  apply result_bind_Ok in Hread as (m' & Hun & Hread). apply wrap_err_Ok in Hun.
  apply result_bind_Ok in Hread as (u4 & Hmeta & Hread). apply fail_if_Ok in Hmeta.
  apply result_bind_Ok in Hread as ([recs' valid'] & Hscan & Hread). injection Hread as -> -> ->.
  set (imageBlocks := imageBlocks0).
  assert (metadata_wf imageBlocks m) as Hm.
  { clear -Hmeta Hsize. zbool. unfold metadata_wf.
    repeat match goal with Hb : bool_decide _ = _ |- _ => apply bool_decide_eq_true in Hb || apply bool_decide_eq_false in Hb end.
    split_and!; done || lia. }
  apply ReadFull_Ok in Hpre as (Hp1 & _ & Hl1). apply ReadFull_Ok in Hbody as (Hp2 & _ & Hl2).
  apply ReadFull_Ok in Hdig as (Hp3 & _ & Hl3).
  apply (scan_records_inv imageBlocks m Hm) in Hscan
    as (used & rest & Hp4 & Hv & Hcount & Hwf & Hinc & Hext); [|lia].
  set (c := prefix ++ body ++ digest ++ used).
  assert (pending s = c ++ rest) as Hs by (unfold c; by rewrite Hp1, Hp2, Hp3, Hp4, <-!app_assoc).
  assert (valid = Z.of_nat (length c)) as Hvalid.
  { unfold c. rewrite !length_app, Hl1, Hl2, Hl3, Hv. unfold journalHeaderPrefix.
    apply orb_false_iff in Hlen as [Hlen _]. zbool. lia. }
  rewrite Hs, Hvalid, Nat2Z.id, take_app_length, length_app. do 4 (split; [done || lia|]).
  intros x. unfold readJournal, c. rewrite <-!app_assoc.
  rewrite ReadFull_app by done. cbn [wrap_err mbind result_mbind]. rewrite Hmagic.
  cbn [fail_if mbind result_mbind]. rewrite Hlen. cbn [fail_if mbind result_mbind].
  rewrite ReadFull_app by done. cbn [wrap_err mbind result_mbind].
  rewrite ReadFull_app by done. cbn [wrap_err mbind result_mbind]. rewrite Hsum.
  cbn [fail_if mbind result_mbind]. rewrite Hun. cbn [wrap_err mbind result_mbind]. rewrite Hmeta.
  cbn [fail_if mbind result_mbind pending].
  set (n := length (used ++ x)).
  exists (S n - length recs)%nat. split; [unfold n; rewrite length_app; lia|].
  assert (S n = length recs + (S n - length recs))%nat as Hn by (unfold n; rewrite !length_app; lia).
  rewrite Hn at 1. rewrite Hext, Hvalid. by destruct (scan_records _ m _ _ (mkStream x None)) as [[more v]|e].
Qed.

(** What recovery accepts is a journal file: the accepted prefix can be
    appended to, and recovers again to the same entries. *)
Lemma readJournal_image s m recs valid :
  readJournal s = Ok (m, recs, valid) → jm_Size m < 2 ^ 63 →
  0 ≤ valid ≤ Z.of_nat (length (pending s)) ∧
  metadata_wf (jm_Size m `quot` DefaultBlockSize) m ∧
  journal_image (jm_Size m `quot` DefaultBlockSize) m (take (Z.to_nat valid) (pending s)) recs.
Proof.
  intros Hread Hsize. destruct (readJournal_extends _ _ _ _ Hread Hsize) as (Hv & Hm & Hwf & Hinc & Hext).
  do 4 (split; [done|]). intros more tail Hwf2 Hinc2 Htail. destruct (Hext (records_bytes more ++ tail)) as (fuel & Hfuel & ->).
  pose proof (records_count more) as Hcount. rewrite length_app in Hfuel.
  rewrite (scan_records_spec _ _ Hm) by (done || lia). cbn [mbind result_mbind]. do 2 f_equal.
  rewrite length_app, length_take. lia.
Qed.

(** Whatever bytes follow a file of complete records, recovery returns those
    records first or refuses the file. *)
Lemma readJournal_prefix imageBlocks m c recs x m' recs' valid :
  metadata_wf imageBlocks m → journal_image imageBlocks m c recs →
  readJournal (mkStream (c ++ x) None) = Ok (m', recs', valid) → ∃ more, m' = m ∧ recs' = recs ++ more.
Proof.
  intros Hm Himg Hread. pose proof (journal_image_read imageBlocks m c recs [] Himg (or_introl eq_refl)) as Hc. rewrite app_nil_r in Hc.
  destruct (readJournal_extends _ _ _ _ Hc) as (_ & _ & _ & _ & Hext); [apply Hm|].
  destruct (Hext x) as (fuel & _ & Hx). cbn [pending] in Hx. rewrite Nat2Z.id, firstn_all, Hread in Hx.
  destruct (scan_records _ _ _ _ _) as [[more v]|e]; [|done]. exists more. by injection Hx as <- <- _.
Qed.
End recovery.

(** ** Properties *)

Section format_properties.
Context `{Digest} `{Json JournalMetadata}.

(** C17: a journal file round-trips: the header [writeJournalHeader] emits,
    followed by the records [encodeJournalRecord] made of generations with
    increasing sequence numbers, is recovered by [readJournal] as exactly
    those generations, and whatever proper prefix of a further record a crash
    left behind is cut off. *)
Theorem readJournal_roundtrip imageBlocks m header recs parts next part k :
  metadata_wf imageBlocks m → marshalable m → journal_header m = Ok header →
  Forall (record_wf imageBlocks) (recs ++ [next]) → increasing 0 (recs ++ [next]) →
  Forall2 (fun g p => encodeJournalRecord (Some g) (journalSeq g) = Ok (p, g)) recs parts →
  encodeJournalRecord (Some next) (journalSeq next) = Ok (part, next) → (k < length part)%nat →
  readJournal (mkStream (header ++ concat parts ++ take k part) None) =
  Ok (m, recs, Z.of_nat (length (header ++ concat parts))).
Proof.
  intros Hm Hmar Hhead Hwf Hinc Hparts Hnext Hk.
  apply Forall_app in Hwf as [Hwf [Hwfn _]%Forall_cons]. apply increasing_app in Hinc as [Hinc [Hseq _]].
  destruct (json_round_trip m Hmar) as (body & Hbody & Hun).
  assert (body_wf body) as Hbw by (by eapply journal_header_body).
  rewrite (journal_header_spec m body Hbody Hbw) in Hhead. injection Hhead as <-.
  pose proof (encoded_record imageBlocks m Hm) as Hrec. apply Hrec in Hnext as ->; [|done].
  assert (concat parts = records_bytes recs) as ->.
  { unfold records_bytes. f_equal. clear -Hparts Hwf Hrec. induction Hparts as [|g p gs ps Hp _ IH]; [done|].
    apply Forall_cons in Hwf as [Hg Hwf]. cbn [fmap list_fmap]. f_equal; [by apply Hrec|by apply IH]. }
  apply (readJournal_spec imageBlocks m Hm); [done..|]. right. by exists next, k.
Qed.

(** C16: recovery accepts nothing malformed and its repair is stable.  Whatever
    bytes [readJournal] accepts, the valid length lies within the file, every
    entry has complete blocks inside the volume and its own sequence number,
    the sequence numbers increase, and the file cut to the valid length (what
    [OpenJournal] truncates to) is recovered to the same entries and takes
    another record. *)
Theorem readJournal_sound s m recs valid :
  readJournal s = Ok (m, recs, valid) → jm_Size m < 2 ^ 63 →
  let imageBlocks := jm_Size m `quot` DefaultBlockSize in
  let kept := take (Z.to_nat valid) (pending s) in
  0 ≤ valid ≤ Z.of_nat (length (pending s)) ∧
  Forall (record_wf imageBlocks) recs ∧ increasing 0 recs ∧
  readJournal (mkStream kept None) = Ok (m, recs, valid) ∧
  ∀ g part, record_wf imageBlocks g → last_seq 0 recs < journalSeq g →
    encodeJournalRecord (Some g) (journalSeq g) = Ok (part, g) →
    readJournal (mkStream (kept ++ part) None) = Ok (m, recs ++ [g], valid + Z.of_nat (length part)).
Proof.
  intros Hread Hsize imageBlocks kept.
  destruct (readJournal_image _ _ _ _ Hread Hsize) as (Hv & Hm & Himg). fold imageBlocks kept in Hm, Himg.
  assert (Z.of_nat (length kept) = valid) as Hlen by (unfold kept; rewrite length_take; lia).
  pose proof Himg as (Hwf & Hinc & _).
  split; [done|]. split; [done|]. split; [done|]. split.
  - rewrite <-(app_nil_r kept), (journal_image_read imageBlocks m kept recs []), Hlen; [done|done|by left].
  - intros g part Hg Hseq ->%(encoded_record imageBlocks m Hm); [|done]. pose proof (journal_image_app imageBlocks m _ _ _ Himg Hg Hseq) as Himg2.
    rewrite <-(app_nil_r (kept ++ _)), (journal_image_read imageBlocks m _ _ [] Himg2) by by left.
    by rewrite length_app, Nat2Z.inj_add, Hlen.
Qed.

(** The recovery scan terminates on every file. *)
Lemma readJournal_fuel s : final s ≠ Some OutOfFuel → readJournal s ≠ Err OutOfFuel.
Proof.
  intros Hfin. unfold readJournal.
  destruct (ReadFull 12 s) as [[prefix s1]|e] eqn:H12; [|done]. cbn [wrap_err mbind result_mbind].
  case_fail. case_fail.
  destruct (ReadFull _ s1) as [[body s2]|e] eqn:Hb; [|done]. cbn [wrap_err mbind result_mbind].
  destruct (ReadFull _ s2) as [[digest s3]|e] eqn:Hd; [|done]. cbn [wrap_err mbind result_mbind].
  case_fail.
  destruct (Unmarshal body) as [m|e] eqn:Hun; [|done]. cbn [wrap_err mbind result_mbind].
  case_fail.
  match goal with |- context [scan_records ?f m 0 ?o s3] => pose proof (scan_records_fuel m f 0 o s3) as Hscan end.
  destruct (scan_records _ _ _ _ _) as [[? ?]|e]; [done|]. cbn [mbind result_mbind].
  intros [= ->]. apply Hscan; [lia| |done].
  apply ReadFull_Ok in H12 as (_ & Hf1 & _). apply ReadFull_Ok in Hb as (_ & Hf2 & _).
  apply ReadFull_Ok in Hd as (_ & Hf3 & _). congruence.
Qed.
End format_properties.

(** ** Witnesses *)

Definition sample_metadata : JournalMetadata :=
  mkJournalMetadata journalFormat "id" "vol" "host" (4 * DefaultBlockSize) DefaultBlockSize 3 7 "base".

(** A JSON codec that knows one document. *)
Definition sample_json : Json JournalMetadata.
Proof.
  refine {| Marshal := fun _ => Ok [x7b; x7d]; Unmarshal := fun _ => Ok sample_metadata;
            marshalable := fun a => a = sample_metadata |}.
  intros a ->. by exists [x7b; x7d].
Defined.

Definition sample_record (seq : Z) : Generation := mkGeneration {[ 1 := replicate blockBytes x2a ]} DefaultBlockSize seq.

Lemma sample_metadata_wf : metadata_wf 4 sample_metadata.
Proof. split_and!; done. Qed.

Lemma sample_record_wf seq : 0 < seq < 2 ^ 64 → record_wf 4 (sample_record seq).
Proof.
  intros Hseq. unfold record_wf, generation_wf, sample_record. cbn [GenBlocks gen_bytes journalSeq].
  rewrite map_size_singleton. split_and!; try done; try lia.
  intros b d [<- <-]%lookup_singleton_Some. rewrite length_replicate. lia.
Qed.

Lemma sample_encode seq :
  0 < seq < 2 ^ 64 →
  encodeJournalRecord (H := toy_digest) (Some (sample_record seq)) seq =
  Ok (record_bytes (H := toy_digest) (sample_record seq), sample_record seq).
Proof.
  intros Hseq.
  exact (encodeJournalRecord_spec (H := toy_digest) 4 sample_metadata sample_metadata_wf (sample_record seq) seq
    (sample_record_wf seq Hseq)).
Qed.

Lemma readJournal_roundtrip_witness :
  let rec n := record_bytes (H := toy_digest) (sample_record n) in
  let header := header_bytes (H := toy_digest) [x7b; x7d] in
  readJournal (H := toy_digest) (H0 := sample_json) (mkStream (header ++ concat [rec 1; rec 5] ++ take 2000 (rec 6)) None) =
  Ok (sample_metadata, [sample_record 1; sample_record 5], Z.of_nat (length (header ++ concat [rec 1; rec 5]))).
Proof.
  cbv zeta.
  apply (readJournal_roundtrip (H := toy_digest) (H0 := sample_json) 4 sample_metadata
    (header_bytes (H := toy_digest) [x7b; x7d]) [sample_record 1; sample_record 5] _ (sample_record 6)).
  - exact sample_metadata_wf.
  - reflexivity.
  - reflexivity.
  - cbn [app]. do 3 (apply Forall_cons_2; [apply sample_record_wf; lia|]). apply Forall_nil_2.
  - cbn. lia.
  - do 2 (apply Forall2_cons_2; [apply sample_encode; lia|]). apply Forall2_nil_2.
  - apply sample_encode; lia.
  - apply Nat2Z.inj_lt. rewrite (record_bytes_length (H := toy_digest) 4 sample_metadata sample_metadata_wf)
      by (apply sample_record_wf; lia). vm_compute. reflexivity.
Defined.


Lemma readJournal_sound_witness :
  let c := header_bytes (H := toy_digest) [x7b; x7d] ++ records_bytes (H := toy_digest) [sample_record 1] in
  readJournal (H := toy_digest) (H0 := sample_json) (mkStream (take (length c) (c ++ [x53; x41])) None) =
  Ok (sample_metadata, [sample_record 1], Z.of_nat (length c)).
Proof.
  intros c.
  assert (readJournal (H := toy_digest) (H0 := sample_json) (mkStream (c ++ [x53; x41]) None) =
    Ok (sample_metadata, [sample_record 1], Z.of_nat (length c))) as Hread.
  { apply (journal_image_read (H := toy_digest) (H0 := sample_json) 4 sample_metadata).
    - apply (journal_image_new (H := toy_digest) (H0 := sample_json)); [exact sample_metadata_wf|done|done| |done].
      apply Forall_cons_2; [apply sample_record_wf; lia|apply Forall_nil_2].
    - right. exists (sample_record 2), 2%nat. split_and!; [by apply sample_record_wf|done| |].
      + unfold record_bytes. rewrite length_app, record_header_length. lia.
      + reflexivity. }
  destruct (readJournal_sound (H := toy_digest) (H0 := sample_json) _ _ _ _ Hread) as (_ & _ & _ & Hk & _); [done|].
  cbv zeta in Hk. rewrite Nat2Z.id in Hk. exact Hk.
Defined.
