(* ===== verification/Journal.v ===== *)
(** * The journal object ([internal/replica/journal.go])

    Group commit by a sync goroutine, acknowledgement of published
    generations, compaction by an atomic rename, recovery, and what a crash
    leaves on disk.

    The mutex [mu] makes [Enqueue] one step; [syncMu] is held by the sync
    goroutine from the moment it takes a batch until the batch is flushed, so
    [Acknowledge], [Rebase] and the first half of [Close] are steps that occur
    between flushes, while [Enqueue] may occur during one.  The fate of every
    system call is an argument of the step. *)
From S2P Require Import Prelude Extents Codec File Segment Types JournalFormat.
Local Open Scope Z_scope.

(** ** Disk

    The bytes of a file and how many of them are on stable storage.  Writes
    append; a crash that is orderly leaves a prefix that holds at least those
    ([crash_of]), any other leaves those and then whatever bytes ([wild_crash]):
    POSIX does not say that the length of a file and the bytes in it reach the
    disk together. *)
Record DiskFile : Type := mkDisk { df_data : bytes; df_synced : nat }.

Definition crash_of (d : DiskFile) (c : bytes) : Prop :=
  ∃ k, (df_synced d ≤ k ≤ length (df_data d))%nat ∧ c = take k (df_data d).

Definition wild_crash (d : DiskFile) (c : bytes) : Prop := ∃ x, c = take (df_synced d) (df_data d) ++ x.

(** [j.file]: nil, closed, or open on the file the journal's path names. *)
Inductive handle : Type := HNil | HClosed | HOpen.

(** A pair of result channels; [w_boundary] is the last sequence number
    assigned when it was handed out (a specification field). *)
Record journalWaiters : Type := mkWaiter { w_id : nat; w_boundary : Z }.

(** The sync goroutine: not running, about to take [syncMu], or flushing a
    batch; [len] is the length of the file when the flush began. *)
Inductive sync_worker : Type :=
  | NoWorker
  | WorkerLoop
  | WorkerSyncing (batch : list journalWaiters) (len : nat).

(** [Journal].  [disk] is the file at [path], [stale] the files a crash may
    bring back at [path] because the directory has not been synced since a
    rename; [delivered] is what the result channels received.  [issued],
    [history] (generations appended) and [published] (the largest sequence
    number acknowledged) are specification fields: no operation reads them. *)
Record Journal : Type := mkJournal {
  metadata : JournalMetadata;
  entries : list Generation;
  nextSeq : Z;
  pendingSync : list journalWaiters;
  pendingData : Z;
  inflight : list journalWaiters;
  syncRunning : bool;
  closed : bool;
  broken : option error;
  file : handle;
  diskBytes : Z;
  reclaimBytes : Z;
  compactAfter : Z;
  disk : option DiskFile;
  stale : list (option DiskFile);
  worker : sync_worker;
  delivered : list (journalWaiters * option error);
  issued : nat;
  history : list Generation;
  published : Z;
}.

#[export] Instance DiskFile_eq_dec : EqDecision DiskFile.
Proof. solve_decision. Defined.
#[export] Instance handle_eq_dec : EqDecision handle.
Proof. solve_decision. Defined.
#[export] Instance journalWaiters_eq_dec : EqDecision journalWaiters.
Proof. solve_decision. Defined.

(** Field updates. *)
Definition set_file (h : handle) (j : Journal) : Journal :=
  mkJournal (metadata j) (entries j) (nextSeq j) (pendingSync j) (pendingData j) (inflight j) (syncRunning j)
    (closed j) (broken j) h (diskBytes j) (reclaimBytes j) (compactAfter j) (disk j) (stale j) (worker j)
    (delivered j) (issued j) (history j) (published j).
Definition set_disk (d : option DiskFile) (st : list (option DiskFile)) (j : Journal) : Journal :=
  mkJournal (metadata j) (entries j) (nextSeq j) (pendingSync j) (pendingData j) (inflight j) (syncRunning j)
    (closed j) (broken j) (file j) (diskBytes j) (reclaimBytes j) (compactAfter j) d st (worker j)
    (delivered j) (issued j) (history j) (published j).
Definition set_sizes (db rb : Z) (j : Journal) : Journal :=
  mkJournal (metadata j) (entries j) (nextSeq j) (pendingSync j) (pendingData j) (inflight j) (syncRunning j)
    (closed j) (broken j) (file j) db rb (compactAfter j) (disk j) (stale j) (worker j)
    (delivered j) (issued j) (history j) (published j).
Definition set_broken (e : option error) (j : Journal) : Journal :=
  mkJournal (metadata j) (entries j) (nextSeq j) (pendingSync j) (pendingData j) (inflight j) (syncRunning j)
    (closed j) e (file j) (diskBytes j) (reclaimBytes j) (compactAfter j) (disk j) (stale j) (worker j)
    (delivered j) (issued j) (history j) (published j).
Definition set_closed (j : Journal) : Journal :=
  mkJournal (metadata j) (entries j) (nextSeq j) (pendingSync j) (pendingData j) (inflight j) (syncRunning j)
    true (broken j) (file j) (diskBytes j) (reclaimBytes j) (compactAfter j) (disk j) (stale j) (worker j)
    (delivered j) (issued j) (history j) (published j).
Definition set_metadata (m : JournalMetadata) (j : Journal) : Journal :=
  mkJournal m (entries j) (nextSeq j) (pendingSync j) (pendingData j) (inflight j) (syncRunning j)
    (closed j) (broken j) (file j) (diskBytes j) (reclaimBytes j) (compactAfter j) (disk j) (stale j) (worker j)
    (delivered j) (issued j) (history j) (published j).
Definition set_waiters (pend : list journalWaiters) (pd : Z) (infl : list journalWaiters) (running : bool)
    (wk : sync_worker) (j : Journal) : Journal :=
  mkJournal (metadata j) (entries j) (nextSeq j) pend pd infl running
    (closed j) (broken j) (file j) (diskBytes j) (reclaimBytes j) (compactAfter j) (disk j) (stale j) wk
    (delivered j) (issued j) (history j) (published j).
Definition issue (j : Journal) : Journal :=
  mkJournal (metadata j) (entries j) (nextSeq j) (pendingSync j) (pendingData j) (inflight j) (syncRunning j)
    (closed j) (broken j) (file j) (diskBytes j) (reclaimBytes j) (compactAfter j) (disk j) (stale j) (worker j)
    (delivered j) (S (issued j)) (history j) (published j).
(** The channels of [ws] receive [err]. *)
Definition deliver (ws : list journalWaiters) (err : option error) (j : Journal) : Journal :=
  mkJournal (metadata j) (entries j) (nextSeq j) (pendingSync j) (pendingData j) (inflight j) (syncRunning j)
    (closed j) (broken j) (file j) (diskBytes j) (reclaimBytes j) (compactAfter j) (disk j) (stale j) (worker j)
    (delivered j ++ ((fun w => (w, err)) <$> ws)) (issued j) (history j) (published j).
(** A generation enters [entries]. *)
Definition append_entry (g : Generation) (recordBytes : Z) (j : Journal) : Journal :=
  mkJournal (metadata j) (entries j ++ [g]) (u64 (nextSeq j + 1)) (pendingSync j) (pendingData j) (inflight j)
    (syncRunning j) (closed j) (broken j) (file j) (diskBytes j + recordBytes) (reclaimBytes j) (compactAfter j)
    (disk j) (stale j) (worker j) (delivered j) (issued j) (history j ++ [g]) (published j).
(** The entries up to [sequence] leave [entries]. *)
Definition drop_entries (sequence reclaimed : Z) (j : Journal) : Journal :=
  mkJournal (metadata j) (filter (fun g => sequence < journalSeq g) (entries j)) (nextSeq j) (pendingSync j)
    (pendingData j) (inflight j) (syncRunning j) (closed j) (broken j) (file j) (diskBytes j)
    (reclaimBytes j + reclaimed) (compactAfter j) (disk j) (stale j) (worker j) (delivered j) (issued j)
    (history j) (Z.max sequence (published j)).

Section journal.
Context `{Digest} `{Json JournalMetadata}.

(** ** Rewriting the file *)

(** The fate of the system calls of [rewriteLocked]: anything up to closing
    the temporary file, closing the old handle, the rename (and whether the
    old file can be opened again), opening and measuring the new file, and
    syncing the directory. *)
Record rewrite_outcome : Type := mkRewrite {
  rw_temporary : option error;
  rw_close : option error;
  rw_rename : option error;
  rw_reopened : bool;
  rw_open : option error;
  rw_stat : option error;
  rw_syncdir : option error;
}.

Definition rewrite_ok : rewrite_outcome := mkRewrite None None None true None None None.

Fixpoint encode_entries (es : list Generation) : result bytes :=
  match es with
  | [] => Ok []
  | entry :: rest =>
      '(record, _) ← encodeJournalRecord (Some entry) (journalSeq entry);
      more ← encode_entries rest;
      Ok (record ++ more)
  end.

(** What [rewriteLocked] writes to the temporary file. *)
Definition journal_file (m : JournalMetadata) (es : list Generation) : result bytes :=
  header ← journal_header m;
  records ← encode_entries es;
  Ok (header ++ records).

(** [rewriteLocked] after the temporary file has been written, synced and
    closed and the old handle is gone. *)
Definition install (o : rewrite_outcome) (data : bytes) (j : Journal) : Journal * option error :=
  match rw_rename o with
  | Some e => (set_file (if rw_reopened o && bool_decide (is_Some (disk j)) then HOpen else HNil) j, Some e)
  | None =>
      let j := set_disk (Some (mkDisk data (length data))) (disk j :: stale j) j in
      match rw_open o with
      | Some e => (j, Some e)
      | None =>
          let j := set_file HOpen j in
          match rw_stat o with
          | Some e => (j, Some e)
          | None =>
              let j := set_sizes (Z.of_nat (length data)) 0 j in
              match rw_syncdir o with
              | Some e => (j, Some e)
              | None => (set_disk (disk j) [] j, None)
              end
          end
      end
  end.

Definition rewriteLocked (o : rewrite_outcome) (j : Journal) : Journal * option error :=
  match rw_temporary o with
  | Some e => (j, Some e)
  | None =>
      match journal_file (metadata j) (entries j) with
      | Err e => (j, Some e)
      | Ok data =>
          match file j with
          | HNil => install o data j
          | HClosed => (j, Some ErrClosed)
          | HOpen =>
              match rw_close o with
              | Some e => (set_file HClosed j, Some e)
              | None => install o data (set_file HNil j)
              end
          end
      end
  end.

(** ** Creating and opening *)

(** [CreateJournal]; [existing] is the file already at [path]. *)
Definition CreateJournal (o : rewrite_outcome) (existing : option DiskFile) (state : State) : result Journal :=
  m ← journalMetadata state;
  let j := mkJournal m [] 1 [] 0 [] false false None HNil 0 0 journalCompactBytes existing [] NoWorker [] 0 [] 0 in
  match rewriteLocked o j with
  | (j, None) => Ok j
  | (_, Some e) => Err e
  end.

(** The fate of the system calls of [OpenJournal]; [op_read] is the error the
    file reports after its last readable byte. *)
Record open_outcome : Type := mkOpen {
  op_open : option error;
  op_read : option error;
  op_stat : option error;
  op_truncate : option error;
  op_sync : option error;
  op_seek : option error;
}.

Definition open_ok : open_outcome := mkOpen None None None None None None.

Definition fail_opt (e : option error) : result unit := match e with Some e => Err e | None => Ok tt end.

(** [OpenJournal] on a file with content [c], which survived a crash. *)
Definition OpenJournal (o : open_outcome) (c : bytes) : result Journal :=
  _ ← fail_opt (op_open o);
  '(m, es, validBytes) ← readJournal (mkStream c (op_read o));
  _ ← fail_opt (op_stat o);
  let size := Z.of_nat (length c) in
  c' ← (if validBytes <? size then
          _ ← wrap_err "discard torn journal tail" (fail_opt (op_truncate o));
          _ ← wrap_err "sync repaired journal" (fail_opt (op_sync o));
          Ok (take (Z.to_nat validBytes) c)
        else Ok c);
  _ ← fail_opt (op_seek o);
  let nextSeq := match last es with Some g => u64 (journalSeq g + 1) | None => 1 end in
  Ok (mkJournal m es nextSeq [] 0 [] false false None HOpen (Z.of_nat (length c')) 0 journalCompactBytes
        (Some (mkDisk c' (length c'))) [] NoWorker [] 0 es 0).

Definition ValidateRecovery (state : State) (j : Journal) : option error :=
  let m := metadata j in
  if negb (bool_decide (jm_Format m = journalFormat)) || negb (bool_decide (jm_VolumeID m = st_ID state)) ||
     negb (bool_decide (jm_VolumeName m = st_Name state)) || negb (jm_Size m =? st_Size state) ||
     negb (jm_BlockSize m =? st_BlockSize state) then
    Some (Wrap "journal identity does not match volume %s" ErrJournalConflict)
  else if st_Generation state <? jm_BaseGeneration m then
    Some (Wrap "remote generation %d precedes journal base %d" ErrJournalConflict)
  else if st_Epoch state =? jm_WriterEpoch m then
    if (st_Generation state =? jm_BaseGeneration m) && negb (bool_decide (st_Manifest state = jm_BaseManifest m)) then
      Some (Wrap "remote manifest changed at generation %d" ErrJournalConflict)
    else None
  else
    let sameHolder := match st_Lease state with Some l => bool_decide (Holder l = jm_Holder m) | None => false end in
    let unchangedHead :=
      (st_Generation state =? jm_BaseGeneration m) && bool_decide (st_Manifest state = jm_BaseManifest m) in
    let resumedPublishedPrefix :=
      (st_Epoch state =? u64 (jm_WriterEpoch m + 1)) && (jm_BaseGeneration m <? st_Generation state) in
    if sameHolder && (unchangedHead || resumedPublishedPrefix) then None
    else Some (Wrap "journal belongs to epoch %d but remote is at epoch %d" ErrJournalConflict).

Definition Entries (j : Journal) : list Generation := entries j.

(** ** Operations *)

Definition Rebase (o : rewrite_outcome) (state : State) (j : Journal) : Journal * option error :=
  match journalMetadata state with
  | Err e => (j, Some e)
  | Ok m =>
      if closed j then (j, Some (Errorf "local journal is closed")) else
      match broken j with
      | Some e => (j, Some e)
      | None => rewriteLocked o (set_metadata m j)
      end
  end.

(** The fate of [writeAll(j.file, record)]: success, or an error after
    [written] bytes. *)
Inductive write_outcome : Type := WriteOk | WriteFails (written : nat) (e : error).

Definition append_data (data : bytes) (j : Journal) : Journal :=
  match disk j with
  | Some d => set_disk (Some (mkDisk (df_data d ++ data) (df_synced d))) (stale j) j
  | None => j
  end.

(** [writeAll(j.file, record)] *)
Definition write_record (o : write_outcome) (record : bytes) (j : Journal) : Journal * option error :=
  match file j, o with
  | HOpen, WriteOk => (append_data record j, None)
  | HOpen, WriteFails written e => (append_data (take (Nat.min written (length record - 1)) record) j, Some e)
  | _, _ => (j, Some ErrClosed)
  end.

Definition Enqueue (o : write_outcome) (generation : option Generation) (j : Journal) : Journal :=
  let j := issue j in
  if Empty generation then
    let waiter := mkWaiter (issued j - 1) (nextSeq j - 1) in
    let err :=
      match broken j with
      | Some e => Some e
      | None => if closed j then Some (Errorf "local journal is closed") else None
      end in
    if bool_decide (err = None) && syncRunning j then
      if pendingData j =? 0 then
        set_waiters (pendingSync j) (pendingData j) (inflight j ++ [waiter]) (syncRunning j) (worker j) j
      else
        set_waiters (pendingSync j ++ [waiter]) (pendingData j) (inflight j) (syncRunning j) (worker j) j
    else deliver [waiter] err j
  else
    let waiter := mkWaiter (issued j - 1) (nextSeq j) in
    if closed j then deliver [waiter] (Some (Errorf "local journal is closed")) j else
    match broken j with
    | Some e => deliver [waiter] (Some e) j
    | None =>
        let sequence := nextSeq j in
        match encodeJournalRecord generation sequence with
        | Err e => deliver [waiter] (Some e) j
        | Ok (record, g) =>
            match write_record o record j with
            | (j, Some e) =>
                let err := Some (Wrap "append local journal" e) in
                deliver [waiter] err (set_broken err j)
            | (j, None) =>
                let j := append_entry g (Z.of_nat (length record)) j in
                set_waiters (pendingSync j ++ [waiter]) (pendingData j + 1) (inflight j) true
                  (if syncRunning j then worker j else WorkerLoop) j
            end
        end
    end.

(** The first critical section of [syncPending]. *)
Definition sync_begin (j : Journal) : Journal :=
  match pendingSync j with
  | [] => set_waiters [] (pendingData j) (inflight j) false NoWorker j
  | waiters =>
      let len := match disk j with Some d => length (df_data d) | None => O end in
      set_waiters [] 0 (inflight j) (syncRunning j) (WorkerSyncing waiters len) j
  end.

(** [syncFile(file)] as the operating system answers it; a nil or closed
    handle has no valid descriptor. *)
Definition sync_file (o : option error) (j : Journal) : option error :=
  match file j with HOpen => o | _ => Some ErrClosed end.

(** A successful flush makes the bytes written before it began durable. *)
Definition flush_disk (len : nat) (j : Journal) : Journal :=
  match disk j with
  | Some d => set_disk (Some (mkDisk (df_data d) (Nat.max (df_synced d) len))) (stale j) j
  | None => j
  end.

(** The second critical section of [syncPending] and the delivery of the
    results. *)
Definition sync_end (o : option error) (waiters : list journalWaiters) (len : nat) (j : Journal) : Journal :=
  let waiters := waiters ++ inflight j in
  match sync_file o j with
  | Some e =>
      let err := Some (Wrap "sync local journal" e) in
      let waiters := waiters ++ pendingSync j in
      deliver waiters err (set_waiters [] 0 [] false NoWorker (set_broken err j))
  | None =>
      let j := flush_disk len j in
      let running := match pendingSync j with [] => false | _ => syncRunning j end in
      deliver waiters None
        (set_waiters (pendingSync j) (pendingData j) [] running (if running then WorkerLoop else NoWorker) j)
  end.

Definition reclaimed_by (sequence : Z) (es : list Generation) : Z :=
  foldr Z.add 0 (journalRecordSize <$> filter (fun g => journalSeq g <= sequence) es).

Definition Acknowledge (o : rewrite_outcome) (sequence : Z) (state : State) (j : Journal)
    : Journal * option error :=
  if sequence =? 0 then (j, None) else
  match journalMetadata state with
  | Err e => (j, Some e)
  | Ok m =>
      if closed j then (j, Some (Errorf "local journal is closed")) else
      match broken j with
      | Some e => (j, Some e)
      | None =>
          let j := set_metadata m (drop_entries sequence (reclaimed_by sequence (entries j)) j) in
          if (reclaimBytes j <? compactAfter j) || (reclaimBytes j * 2 <? diskBytes j) then (j, None)
          else
            match rewriteLocked o j with
            | (j, Some e) =>
                let err := Some (Wrap "compact local journal" e) in (set_broken err j, err)
            | (j, None) => (j, None)
            end
      end
  end.

(** [Close]: the critical section that refuses further work, and what follows
    once the sync goroutine is gone. *)
Definition close_begin (j : Journal) : Journal := set_closed j.

Record close_outcome : Type := mkClose {
  cl_close : option error; cl_remove : option error; cl_syncdir : option error }.

Definition close_end (o : close_outcome) (remove : bool) (j : Journal) : Journal * option error :=
  let '(j, err) :=
    match file j with
    | HNil => (j, None)
    | HClosed => (j, Some ErrClosed)
    | HOpen => (set_file HClosed j, cl_close o)
    end in
  if remove then
    let '(j, removeErr) :=
      match cl_remove o with
      | Some e => (j, if errors_Is e ErrNotExist then None else Some e)
      | None => (set_disk None (match cl_syncdir o with None => [] | Some _ => disk j :: stale j end) j, None)
      end in
    (j, errors_Join (errors_Join err removeErr) (cl_syncdir o))
  else (j, err).
End journal.

(** ** Crash recovery *)

Section layout.
Context `{Digest} `{Json JournalMetadata}.
Context (imageBlocks : Z).

(** The file holds the records [s], which are on stable storage, then [f],
    which lie within the first [n] bytes, then [r], then a torn record. *)
Definition layout (d : DiskFile) (s f r : list Generation) (tail : bytes) (n : nat) : Prop :=
  ∃ m c, metadata_wf imageBlocks m ∧ journal_image imageBlocks m c s ∧
    df_data d = c ++ records_bytes (f ++ r) ++ tail ∧
    Forall (record_wf imageBlocks) (f ++ r) ∧ increasing (last_seq 0 s) (f ++ r) ∧
    torn_tail imageBlocks (last_seq (last_seq 0 s) (f ++ r)) tail ∧
    (length c ≤ df_synced d)%nat ∧ (length (c ++ records_bytes f) ≤ n)%nat.

Lemma records_bytes_snoc us g : records_bytes (us ++ [g]) = records_bytes us ++ record_bytes g.
Proof. rewrite records_bytes_app. unfold records_bytes at 2. cbn [fmap list_fmap concat]. by rewrite app_nil_r. Qed.

Lemma layout_append d s f r n g :
  layout d s f r [] n → record_wf imageBlocks g → last_seq 0 (s ++ f ++ r) < journalSeq g →
  layout (mkDisk (df_data d ++ record_bytes g) (df_synced d)) s f (r ++ [g]) [] n.
Proof.
  intros (m & c & Hm & Himg & Hdata & Hwf & Hinc & _ & Hc & Hn) Hg Hseq. exists m, c.
  rewrite last_seq_app in Hseq. cbn [df_data df_synced]. rewrite (app_assoc f). split_and!; try done.
  - by rewrite Hdata, records_bytes_snoc, !app_nil_r, <-!app_assoc.
  - apply Forall_app; split; [done|by constructor].
  - apply increasing_app. split; [done|by split].
  - by left.
Qed.

Lemma layout_torn d s f r n g k :
  layout d s f r [] n → record_wf imageBlocks g → last_seq 0 (s ++ f ++ r) < journalSeq g →
  (k < length (record_bytes g))%nat →
  layout (mkDisk (df_data d ++ take k (record_bytes g)) (df_synced d)) s f r (take k (record_bytes g)) n.
Proof.
  intros (m & c & Hm & Himg & Hdata & Hwf & Hinc & _ & Hc & Hn) Hg Hseq Hk. exists m, c.
  rewrite last_seq_app in Hseq. cbn [df_data df_synced]. split_and!; try done.
  - by rewrite Hdata, app_nil_r, <-!app_assoc.
  - right. by exists g, k.
Qed.

Lemma layout_begin d s r tail n : layout d s [] r tail n → layout d s r [] tail (length (df_data d)).
Proof.
  intros (m & c & Hm & Himg & Hdata & Hwf & Hinc & Ht & Hc & Hn). exists m, c. cbn [app] in *.
  rewrite !app_nil_r. split_and!; try done. rewrite Hdata, !length_app. lia.
Qed.

Lemma journal_image_extend m c s us :
  journal_image imageBlocks m c s → Forall (record_wf imageBlocks) us → increasing (last_seq 0 s) us →
  journal_image imageBlocks m (c ++ records_bytes us) (s ++ us).
Proof.
  revert c s. induction us as [|g us IH]; intros c s Himg Hwf Hinc.
  { unfold records_bytes. cbn [fmap list_fmap concat]. by rewrite !app_nil_r. }
  apply Forall_cons in Hwf as [Hg Hwf]. destruct Hinc as [Hseq Hinc].
  change (records_bytes (g :: us)) with (record_bytes g ++ records_bytes us).
  rewrite app_assoc, (cons_middle g s us), app_assoc. apply IH; [by apply journal_image_app|done|].
  by rewrite last_seq_app, last_seq_cons.
Qed.

Lemma layout_flush d s f r tail n :
  layout d s f r tail n → layout (mkDisk (df_data d) (Nat.max (df_synced d) n)) (s ++ f) [] r tail n.
Proof.
  intros (m & c & Hm & Himg & Hdata & Hwf & Hinc & Ht & Hc & Hn). exists m, (c ++ records_bytes f).
  apply Forall_app in Hwf as [Hwff Hwfr]. apply increasing_app in Hinc as [Hincf Hincr].
  rewrite last_seq_app in Ht. cbn [df_data df_synced app]. rewrite !last_seq_app.
  split_and!; try done.
  - by apply journal_image_extend.
  - by rewrite Hdata, records_bytes_app, <-!app_assoc.
  - lia.
  - change (records_bytes []) with (@nil byte). by rewrite app_nil_r.
Qed.

(** Cutting a sequence of records at any byte. *)
Lemma cut_records start us tail k :
  Forall (record_wf imageBlocks) us → increasing start us → torn_tail imageBlocks (last_seq start us) tail →
  ∃ more rest tail', us = more ++ rest ∧ take k (records_bytes us ++ tail) = records_bytes more ++ tail' ∧
    torn_tail imageBlocks (last_seq start more) tail'.
Proof.
  revert start k. induction us as [|g us IH]; intros start k Hwf Hinc Ht.
  { exists [], [], (take k tail). split_and!; [done..|]. destruct Ht as [->|(g & i & Hg & Hseq & Hi & ->)].
    - left. by rewrite take_nil.
    - right. exists g, (Nat.min k i). rewrite take_take. split_and!; [done..|lia|done]. }
  apply Forall_cons in Hwf as [Hg Hwf]. destruct Hinc as [Hseq Hinc]. rewrite last_seq_cons in Ht.
  change (records_bytes (g :: us)) with (record_bytes g ++ records_bytes us). rewrite <-app_assoc.
  destruct (decide (length (record_bytes g) ≤ k)%nat) as [Hk|Hk].
  - destruct (IH _ (k - length (record_bytes g))%nat Hwf Hinc Ht) as (more & rest & tail' & -> & Hcut & Ht').
    exists (g :: more), rest, tail'. rewrite last_seq_cons. split_and!; [done| |done].
    rewrite take_app_ge, Hcut by lia. change (records_bytes (g :: more)) with (record_bytes g ++ records_bytes more).
    by rewrite <-app_assoc.
  - exists [], (g :: us), (take k (record_bytes g)). split_and!; [done| |].
    + rewrite take_app_le by lia. done.
    + right. exists g, k. split_and!; [done..|lia|done].
Qed.

Lemma layout_crash d s f r tail n c :
  layout d s f r tail n → crash_of d c →
  ∃ m more rest valid, readJournal (mkStream c None) = Ok (m, s ++ more, valid) ∧ f ++ r = more ++ rest.
Proof.
  intros (m & c0 & Hm & Himg & Hdata & Hwf & Hinc & Ht & Hc & _) (k & Hk & ->). rewrite Hdata.
  rewrite take_app_ge by lia. destruct (cut_records _ _ _ (k - length c0) Hwf Hinc Ht) as (more & rest & tail' & Hsplit & -> & Ht').
  rewrite Hsplit in Hwf, Hinc. apply Forall_app in Hwf as [Hwf _]. apply increasing_app in Hinc as [Hinc _].
  destruct Himg as (_ & _ & Hread). exists m, more, rest, (Z.of_nat (length (c0 ++ records_bytes more))).
  split; [by apply Hread|done].
Qed.

(** Whatever bytes a crash leaves after the synced ones. *)
Lemma layout_wild d s f r tail n c m recs valid :
  layout d s f r tail n → wild_crash d c → readJournal (mkStream c None) = Ok (m, recs, valid) → ∃ more, recs = s ++ more.
Proof.
  intros (m0 & c0 & Hm & Himg & Hdata & _ & _ & _ & Hc & _) (x & ->) Hread. rewrite Hdata in Hread.
  rewrite take_app_ge, <-app_assoc in Hread by lia. destruct (readJournal_prefix _ _ _ _ _ _ _ _ Hm Himg Hread) as (more & _ & ->). by exists more.
Qed.

Lemma encode_entries_spec m es :
  metadata_wf imageBlocks m → Forall (record_wf imageBlocks) es → encode_entries es = Ok (records_bytes es).
Proof.
  intros Hm. induction 1 as [|g es Hg _ IH]; [done|]. cbn [encode_entries].
  pose proof (encodeJournalRecord_spec imageBlocks m Hm g (journalSeq g)) as Henc.
  destruct g as [bs b sq]. cbn [with_seq journalSeq GenBlocks gen_bytes] in *. rewrite Henc by done.
  cbn [mbind result_mbind]. by rewrite IH.
Qed.

Lemma layout_new m es data :
  metadata_wf imageBlocks m → marshalable m → Forall (record_wf imageBlocks) es → increasing 0 es →
  journal_file m es = Ok data → layout (mkDisk data (length data)) es [] [] [] (length data).
Proof.
  intros Hm Hmar Hwf Hinc Hfile. unfold journal_file in Hfile. rewrite (encode_entries_spec m es Hm Hwf) in Hfile.
  apply result_bind_Ok in Hfile as (header & Hh & Hfile). cbn [mbind result_mbind] in Hfile. injection Hfile as <-.
  destruct (json_round_trip m Hmar) as (body & Hbody & Hun).
  assert (body_wf body) as Hbw by (by eapply journal_header_body).
  rewrite (journal_header_spec m body Hbody Hbw) in Hh. injection Hh as <-.
  exists m, (header_bytes body ++ records_bytes es). cbn [df_data df_synced app].
  change (records_bytes []) with (@nil byte). rewrite !app_nil_r. split_and!; try done.
  - by apply journal_image_new.
  - by left.
Qed.
End layout.

(** ** Reachable states *)

Section steps.
Context `{Digest} `{Json JournalMetadata}.
Context (imageBlocks : Z).

(** The states the replicator passes to [Rebase] and [Acknowledge]: metadata
    of this volume, which JSON can carry. *)
Definition state_ok (state : State) : Prop :=
  ∀ m, journalMetadata state = Ok m → metadata_wf imageBlocks m ∧ marshalable m.

(** The generations the device hands to [Enqueue] fit the volume. *)
Definition generation_ok (seq : Z) (g : option Generation) : Prop :=
  ∀ g0, g = Some g0 → Empty g = false → record_wf imageBlocks (with_seq g0 seq).

Definition flushing (j : Journal) : bool := match worker j with WorkerSyncing _ _ => true | _ => false end.

(** One step of any goroutine.  [Enqueue] is taken only while sequence
    numbers last, and [Acknowledge] is called with numbers that were given out. *)
Inductive jstep : Journal → Journal → Prop :=
  | step_enqueue o g j :
      nextSeq j < 2 ^ 64 - 1 → generation_ok (nextSeq j) g → jstep j (Enqueue o g j)
  | step_sync_begin j : worker j = WorkerLoop → jstep j (sync_begin j)
  | step_sync_end o batch len j : worker j = WorkerSyncing batch len → jstep j (sync_end o batch len j)
  | step_acknowledge o sequence state j :
      flushing j = false → sequence < nextSeq j → state_ok state → jstep j (Acknowledge o sequence state j).1
  | step_rebase o state j : flushing j = false → state_ok state → jstep j (Rebase o state j).1
  | step_close_begin j : flushing j = false → jstep j (close_begin j)
  | step_close_end o remove j : closed j = true → worker j = NoWorker → jstep j (close_end o remove j).1.

(** A journal starts from [CreateJournal], or from [OpenJournal] on a file of
    this volume. *)
Inductive jstart : Journal → Prop :=
  | start_create o existing state j :
      state_ok state → CreateJournal o existing state = Ok j → jstart j
  | start_open o c j :
      OpenJournal o c = Ok j → jm_Size (metadata j) < 2 ^ 63 →
      jm_Size (metadata j) `quot` DefaultBlockSize = imageBlocks → nextSeq j ≠ 0 → jstart j.

Inductive jreach : Journal → Prop :=
  | reach_start j : jstart j → jreach j
  | reach_step j j' : jreach j → jstep j j' → jreach j'.

(** ** The invariant *)

(** Case analysis of [disk_inv]. *)
Ltac disk_cases H :=
  destruct H as (s & f & r & tail & n & floor & mid & Hlay & Hlast & Htail & Hhist & Hall & Hlow & Hmid & Hfloor &
    Hfl & Hml & Hbase & Hdel & Hwk).

Ltac jcbn :=
  cbn [set_file set_disk set_sizes set_broken set_closed set_metadata set_waiters issue deliver append_entry
       drop_entries metadata entries nextSeq pendingSync pendingData inflight syncRunning closed broken file
       diskBytes reclaimBytes compactAfter disk stale worker delivered issued history published].

(** What was appended up to [base] is on stable storage from the start. *)
Section invariant.
Context (base : Z).

(** The waiting lists agree with the state of the sync goroutine. *)
Definition worker_inv (j : Journal) : Prop :=
  0 ≤ pendingData j ∧ (pendingData j = 0 ↔ pendingSync j = []) ∧
  Forall (fun w => w_boundary w < nextSeq j) (pendingSync j) ∧
  match worker j with
  | NoWorker => syncRunning j = false ∧ pendingSync j = [] ∧ inflight j = []
  | WorkerLoop => syncRunning j = true ∧ pendingSync j ≠ [] ∧ inflight j = []
  | WorkerSyncing _ _ => syncRunning j = true
  end.

Definition entries_inv (j : Journal) : Prop :=
  0 < nextSeq j < 2 ^ 64 ∧ Forall (record_wf imageBlocks) (entries j) ∧ increasing 0 (entries j) ∧
  Forall (fun g => journalSeq g < nextSeq j) (entries j) ∧
  (∀ g, g ∈ history j → published j < journalSeq g → g ∈ entries j) ∧
  (∀ g, g ∈ entries j → g ∈ history j) ∧
  (∀ g, g ∈ entries j → published j < journalSeq g) ∧
  0 ≤ published j < nextSeq j ∧ increasing 0 (history j) ∧ Forall (fun g => journalSeq g < nextSeq j) (history j) ∧ base < nextSeq j.

(** The file holds every live entry, and of what was appended all that comes
    after some sequence number [low]; entries up to [floor] are on stable
    storage, those up to [mid] will be when the current flush succeeds. *)
Definition disk_inv (j : Journal) (d : DiskFile) : Prop :=
  ∃ s f r tail n floor mid, layout imageBlocks d s f r tail n ∧
    last_seq 0 (s ++ f ++ r) < nextSeq j ∧ (broken j = None → tail = []) ∧
    (∀ g, g ∈ s ++ f ++ r → g ∈ history j) ∧
    (∀ g, g ∈ entries j → g ∈ s ++ f ++ r) ∧
    (∃ low, low ≤ published j ∧ (∀ g, g ∈ s ++ f ++ r → low < journalSeq g) ∧
      (∀ g, g ∈ history j → low < journalSeq g → g ∈ s ++ f ++ r) ∧
      (∀ g, g ∈ history j → low < journalSeq g → journalSeq g ≤ mid → g ∈ s ++ f) ∧
      (∀ g, g ∈ history j → low < journalSeq g → journalSeq g ≤ floor → g ∈ s)) ∧
    (∀ g, g ∈ entries j → journalSeq g ≤ mid → g ∈ s ++ f) ∧
    (∀ g, g ∈ entries j → journalSeq g ≤ floor → g ∈ s) ∧
    floor < nextSeq j ∧ mid < nextSeq j ∧ base ≤ floor ∧
    (∀ w, (w, None) ∈ delivered j → w_boundary w ≤ floor) ∧
    match worker j with
    | NoWorker => f = [] ∧ (broken j = None → floor = nextSeq j - 1)
    | WorkerLoop => f = []
    | WorkerSyncing batch len =>
        n = len ∧ Forall (fun w => w_boundary w ≤ mid) (batch ++ inflight j) ∧
        (pendingSync j = [] → mid = nextSeq j - 1)
    end.

Definition journal_inv (j : Journal) : Prop :=
  entries_inv j ∧ worker_inv j ∧
  match disk j with
  | Some d => disk_inv j d
  | None => closed j = true ∧ worker j = NoWorker
  end.

(** *** Rewriting *)

Lemma last_seq_below bound es : 0 < bound → Forall (fun g => journalSeq g < bound) es → last_seq 0 es < bound.
Proof.
  intros Hb Hlt. unfold last_seq. destruct (last es) as [g|] eqn:Hg; cbn [fmap option_fmap option_map from_option id]; [|lia].
  apply last_Some_elem_of in Hg. rewrite Forall_forall in Hlt. by apply Hlt.
Qed.

Lemma disk_inv_new j data st :
  entries_inv j → worker_inv j → flushing j = false → metadata_wf imageBlocks (metadata j) → marshalable (metadata j) →
  (∀ w, (w, None) ∈ delivered j → w_boundary w < nextSeq j) →
  journal_file (metadata j) (entries j) = Ok data →
  disk_inv (set_disk (Some (mkDisk data (length data))) st j) (mkDisk data (length data)).
Proof.
  intros (Hseq & Hwf & Hinc & Hlt & Hpub & Hhist & Hlive & _ & _ & _ & Hnext) _ Hfl Hm Hmar Hdel Hfile.
  exists (entries j), [], [], [], (length data), (nextSeq j - 1), (nextSeq j - 1).
  rewrite !app_nil_r. cbn [set_disk nextSeq broken history entries delivered worker inflight].
  split_and!; try done; try lia.
  - by eapply layout_new.
  - apply last_seq_below; [lia|done].
  - exists (published j). by split_and!; auto.
  - intros w Hw. specialize (Hdel w Hw). lia.
  - unfold flushing in Hfl. by destruct (worker j).
Qed.

Lemma install_inv o data j :
  entries_inv j → worker_inv j → flushing j = false → metadata_wf imageBlocks (metadata j) → marshalable (metadata j) →
  (∀ w, (w, None) ∈ delivered j → w_boundary w < nextSeq j) →
  journal_file (metadata j) (entries j) = Ok data →
  ((install o data j).2 ≠ None → journal_inv j) → journal_inv (install o data j).1.
Proof.
  intros He Hw Hfl Hm Hmar Hdel Hfile Hfail.
  pose proof (disk_inv_new j data (disk j :: stale j) He Hw Hfl Hm Hmar Hdel Hfile) as Hnew.
  unfold install in *. destruct (rw_rename o); [by apply Hfail|].
  destruct (rw_open o); [by split_and!|]. destruct (rw_stat o); [by split_and!|].
  destruct (rw_syncdir o); by split_and!.
Qed.

Lemma journal_inv_delivered j :
  journal_inv j → closed j = false → ∀ w, (w, None) ∈ delivered j → w_boundary w < nextSeq j.
Proof.
  intros (_ & _ & Hd) Hcl w Hw. destruct (disk j) as [d|]; [|destruct Hd; congruence].
  disk_cases Hd. specialize (Hdel w Hw). lia.
Qed.

Lemma rewriteLocked_inv o j :
  journal_inv j → closed j = false → flushing j = false →
  metadata_wf imageBlocks (metadata j) → marshalable (metadata j) →
  journal_inv (rewriteLocked o j).1.
Proof.
  intros Hinv Hcl Hfl Hm Hmar. pose proof (journal_inv_delivered j Hinv Hcl) as Hdel.
  pose proof Hinv as (He & Hw & _).
  unfold rewriteLocked. destruct (rw_temporary o); [done|].
  destruct (journal_file (metadata j) (entries j)) as [data|e] eqn:Hfile; [|done].
  destruct (file j); [by apply install_inv|done|].
  destruct (rw_close o); [done|]. by apply install_inv.
Qed.

(** *** Enqueue *)

Lemma deliver_err_inv ws e j : journal_inv j → journal_inv (deliver ws (Some e) j).
Proof.
  intros (He & Hw & Hd). split; [done|]. split; [done|]. cbn [deliver disk].
  destruct (disk j) as [d|]; [|done]. disk_cases Hd. exists s, f, r, tail, n, floor, mid. split_and!; try done.
  intros w [Hin|Hin]%elem_of_app; [by apply Hdel|]. apply list_elem_of_fmap in Hin as (? & ? & ?). done.
Qed.

Lemma set_broken_inv e j : journal_inv j → journal_inv (set_broken (Some e) j).
Proof.
  intros (He & Hw & Hd). split; [done|]. split; [done|]. cbn [set_broken disk closed worker].
  destruct (disk j) as [d|]; [|done]. disk_cases Hd. exists s, f, r, tail, n, floor, mid.
  cbn [set_broken broken worker]. split_and!; try done. by destruct (worker j); [destruct Hwk|..].
Qed.

(** An empty generation is a barrier for everything enqueued before it. *)
Lemma enqueue_barrier_inv o g j : journal_inv j → Empty g = true → journal_inv (Enqueue o g j).
Proof.
  intros Hinv Hempty. unfold Enqueue. rewrite Hempty. jcbn.
  destruct (broken j) as [e|] eqn:Hbr.
  { rewrite bool_decide_eq_false_2 by done. cbn [andb]. by apply deliver_err_inv. }
  destruct (closed j) eqn:Hcl.
  { rewrite bool_decide_eq_false_2 by done. cbn [andb]. by apply deliver_err_inv. }
  rewrite bool_decide_eq_true_2 by done. cbn [andb].
  destruct Hinv as (He & Hw & Hd). destruct (disk j) as [d|] eqn:Hdisk; [|destruct Hd; congruence].
  pose proof Hw as (Hpd & Hpend & Hbound & Hwork). unfold journal_inv. disk_cases Hd.
  destruct (syncRunning j) eqn:Hrun; cbn [andb]; [case_if|]; (split; [done|]); split; unfold worker_inv; jcbn.
  - destruct (worker j); [by destruct Hwork|destruct Hwork as (_ & Hne & _); tauto|done].
  - rewrite Hdisk. destruct (worker j) as [| |batch len] eqn:Hwkr; [by destruct Hwork|destruct Hwork as (_ & Hne & _); tauto|].
    destruct Hwk as (-> & Hbs & Hmn). exists s, f, r, tail, len, floor, mid. jcbn. try rewrite Hwkr. split_and!; try done.
    rewrite app_assoc. apply Forall_app; split; [done|]. apply Forall_singleton. cbn [w_boundary].
    rewrite Hmn by tauto. lia.
  - split_and!; [done| | |].
    + split; [done|]. by intros [_ ?]%app_nil.
    + apply Forall_app; split; [done|]. apply Forall_singleton. cbn [w_boundary]. lia.
    + destruct (worker j); [by destruct Hwork|..|done]. destruct Hwork as (_ & _ & ->).
      split_and!; [done| |done]. by intros [_ ?]%app_nil.
  - rewrite Hdisk. exists s, f, r, tail, n, floor, mid. jcbn. split_and!; try done.
    destruct (worker j); [by destruct Hwork|done|]. destruct Hwk as (? & ? & ?). split_and!; [done..|]. by intros [_ ?]%app_nil.
  - by rewrite Hrun.
  - rewrite Hdisk. destruct (worker j) eqn:Hwkr; [|by destruct Hwork|done].
    destruct Hwk as [-> Hfn]. exists s, [], r, tail, n, floor, mid. jcbn. try rewrite Hwkr. split_and!; try done.
    intros w [Hin|Hin]%elem_of_app; [by apply Hdel|]. cbn [fmap list_fmap] in Hin.
    apply list_elem_of_singleton in Hin. injection Hin as ->. cbn [w_boundary]. rewrite Hfn by done. done.
Qed.

(** A generation with data, once its record is in the file. *)
Lemma append_entry_inv g j d w :
  journal_inv j → disk j = Some d → closed j = false → broken j = None → nextSeq j < 2 ^ 64 - 1 →
  record_wf imageBlocks (with_seq g (nextSeq j)) → w_boundary w = nextSeq j →
  let j1 := append_data (record_bytes (with_seq g (nextSeq j))) j in
  let j2 := append_entry (with_seq g (nextSeq j)) (Z.of_nat (length (record_bytes (with_seq g (nextSeq j))))) j1 in
  journal_inv (set_waiters (pendingSync j2 ++ [w]) (pendingData j2 + 1) (inflight j2) true
    (if syncRunning j2 then worker j2 else WorkerLoop) j2).
Proof.
  intros (He & Hw & Hd) Hdisk Hcl Hbr Hnext Hg Hbw. cbv zeta. rewrite Hdisk in Hd. unfold append_data. rewrite Hdisk.
  set (g' := with_seq g (nextSeq j)) in *. unfold journal_inv. jcbn.
  destruct He as (Hseq & Hwf & Hinc & Hlt & Hpub & Heh & Hlive & Hp0 & Hhinc & Hhlt & Hbn). destruct Hw as (Hpd & Hpend & Hbound & Hwork).
  assert (u64 (nextSeq j + 1) = nextSeq j + 1) as Hu by (apply u64_small; lia).
  assert (last_seq 0 (entries j) < nextSeq j) as Hle by (apply last_seq_below; [lia|done]).
  assert (journalSeq g' = nextSeq j) as Hg' by done.
  split; [|split].
  - unfold entries_inv. jcbn. rewrite Hu. split_and!; try lia.
    + apply Forall_app; split; [done|by constructor].
    + apply increasing_app; split; [done|split; [lia|done]].
    + apply Forall_app; split; [|constructor; [lia|done]]. eapply Forall_impl; [exact Hlt|]. cbv beta. lia.
    + intros x [Hx|Hx]%elem_of_app Hp; apply elem_of_app; [left; by apply Hpub|by right].
    + intros x [Hx|Hx]%elem_of_app; apply elem_of_app; [left; by apply Heh|by right].
    + intros x [Hx|Hx%list_elem_of_singleton]%elem_of_app; [by apply Hlive|subst x; lia].
    + apply increasing_app; split; [done|split; [|done]]. rewrite Hg'. apply last_seq_below; [lia|done].
    + apply Forall_app; split; [|constructor; [lia|done]]. eapply Forall_impl; [exact Hhlt|]. cbv beta. lia.
  - unfold worker_inv. jcbn. rewrite Hu. split_and!.
    + lia.
    + split; [lia|]. by intros [_ ?]%app_nil.
    + apply Forall_app; split; [|constructor; [rewrite Hbw; lia|done]]. eapply Forall_impl; [exact Hbound|]. cbv beta. lia.
    + destruct (syncRunning j) eqn:Hrun; destruct (worker j); try (by destruct Hwork); try done.
      * destruct Hwork as (_ & _ & ->). split_and!; [done| |done]. by intros [_ ?]%app_nil.
      * destruct Hwork as (_ & _ & ->). split_and!; [done| |done]. by intros [_ ?]%app_nil.
  - disk_cases Hd. rewrite Htail in Hlay by done.
    exists s, f, (r ++ [g']), [], n, floor, mid. jcbn. rewrite Hu. rewrite !app_assoc, <-(app_assoc s).
    assert (∀ x, x ∈ entries j ++ [g'] → journalSeq x ≤ mid ∨ journalSeq x ≤ floor → x ∈ entries j) as Hold.
    { intros x [Hx|Hx%list_elem_of_singleton]%elem_of_app; [done|]. subst x. lia. }
    split_and!; try done; try lia.
    + apply layout_append; [done..|]. by rewrite Hg'.
    + rewrite last_seq_app, last_seq_cons. cbn. lia.
    + intros x [Hx|Hx]%elem_of_app; apply elem_of_app; [left; by apply Hhist|by right].
    + intros x [Hx|Hx]%elem_of_app; apply elem_of_app; [left; by apply Hall|by right].
    + destruct Hlow as (low & Hl & Hs & Hh & Hhm & Hhf). exists low. split_and!; [done|..].
      * intros x [Hx|Hx%list_elem_of_singleton]%elem_of_app; [by apply Hs|subst x; lia].
      * intros x [Hx|Hx]%elem_of_app Hlx; apply elem_of_app; [left; by apply Hh|by right].
      * intros x [Hx|Hx%list_elem_of_singleton]%elem_of_app Hlx Hxm; [by apply Hhm|subst x; lia].
      * intros x [Hx|Hx%list_elem_of_singleton]%elem_of_app Hlx Hxm; [by apply Hhf|subst x; lia].
    + intros x Hx Hxm. apply Hmid; [|done]. apply Hold; [done|by left].
    + intros x Hx Hxm. apply Hfloor; [|done]. apply Hold; [done|by right].
    + destruct (syncRunning j) eqn:Hrun; destruct (worker j) eqn:Hwkr; try (by destruct Hwork).
      * destruct Hwk as (? & ? & ?). split_and!; [done..|]. by intros [_ ?]%app_nil.
      * by destruct Hwk.
      * done.
Qed.

Lemma enqueue_inv o g j :
  journal_inv j → nextSeq j < 2 ^ 64 - 1 → generation_ok (nextSeq j) g → journal_inv (Enqueue o g j).
Proof.
  intros Hinv Hnext Hgen. destruct (Empty g) eqn:Hempty; [by apply enqueue_barrier_inv|].
  unfold Enqueue. rewrite Hempty. jcbn.
  destruct (closed j) eqn:Hcl; [by apply deliver_err_inv|].
  destruct (broken j) as [e|] eqn:Hbr; [by apply deliver_err_inv|].
  destruct g as [g|]; [|done]. specialize (Hgen g eq_refl Hempty).
  pose proof Hinv as (_ & _ & Hd). destruct (disk j) as [d|] eqn:Hdisk; [|destruct Hd; congruence].
  disk_cases Hd. pose proof Hlay as (m & c & Hm & _).
  rewrite (encodeJournalRecord_spec imageBlocks m Hm) by done.
  set (g' := with_seq g (nextSeq j)) in *.
  unfold write_record. jcbn. destruct (file j) eqn:Hfile.
  1,2: apply deliver_err_inv, set_broken_inv; done.
  destruct o as [|k e].
  - apply (append_entry_inv g (issue j) d); done.
  - apply deliver_err_inv. unfold append_data. jcbn. rewrite Hdisk.
    destruct Hinv as (He & Hw & _). split; [done|]. split; [done|]. jcbn.
    exists s, f, r, (take (Nat.min k (length (record_bytes g') - 1)) (record_bytes g')), n, floor, mid. jcbn.
    split_and!; try done.
    + apply layout_torn; [by rewrite <-Htail|done..|]. pose proof (record_header_length g').
      unfold record_bytes. rewrite length_app. lia.
    + by destruct (worker j); [destruct Hwk|..].
Qed.

(** *** The sync goroutine *)

Lemma sync_begin_inv j : journal_inv j → worker j = WorkerLoop → journal_inv (sync_begin j).
Proof.
  intros (He & (Hpd & Hpend & Hbound & Hwork) & Hd) Hwkr. rewrite Hwkr in Hwork.
  destruct Hwork as (Hrun & Hne & Hinf). unfold sync_begin.
  destruct (pendingSync j) as [|w0 ws] eqn:Hps; [done|]. split; [done|]. split.
  { unfold worker_inv. jcbn. split_and!; try done. }
  jcbn. destruct (disk j) as [d|]; [|destruct Hd; congruence]. disk_cases Hd. rewrite Hwkr in Hwk. subst f.
  cbn [app] in *. exists s, r, [], tail, (length (df_data d)), floor, (nextSeq j - 1). jcbn. rewrite !app_nil_r.
  split_and!; try done; try lia.
  - by eapply layout_begin.
  - destruct Hlow as (low & Hl & Hs & Hh & _ & Hhf). exists low. by split_and!; auto.
  - by intros g Hg _; apply Hall.
  - rewrite Hinf, app_nil_r. eapply Forall_impl; [exact Hbound|]. cbv beta. lia.
Qed.

Lemma sync_end_inv o batch len j :
  journal_inv j → worker j = WorkerSyncing batch len → journal_inv (sync_end o batch len j).
Proof.
  intros (He & (Hpd & Hpend & Hbound & Hwork) & Hd) Hwkr. rewrite Hwkr in Hwork. unfold sync_end.
  destruct (disk j) as [d|] eqn:Hdisk; [|destruct Hd; congruence]. disk_cases Hd. rewrite Hwkr in Hwk.
  destruct Hwk as (-> & Hbs & Hmn). apply layout_flush in Hlay as Hflush.
  destruct (sync_file o j) as [e|].
  { apply deliver_err_inv. split; [done|]. split; [unfold worker_inv; by jcbn; split_and!|]. jcbn. rewrite Hdisk.
    destruct Hlay as (m & c & ? & ? & Hdata & ? & ? & ? & ? & ?).
    exists s, [], (f ++ r), tail, (length (df_data d)), floor, floor. jcbn. cbn [app]. rewrite !app_nil_r.
    split_and!; try done.
    - exists m, c. cbn [app]. split_and!; try done.
      change (records_bytes []) with (@nil byte). rewrite app_nil_r. rewrite Hdata, length_app. lia.
    - destruct Hlow as (low & Hl & Hs & Hh & _ & Hhf). exists low. by split_and!; auto. }
  unfold flush_disk. rewrite Hdisk. jcbn. split; [done|].
  assert (∀ w, (w, None) ∈ delivered j ++ ((fun w => (w, None)) <$> batch ++ inflight j) → w_boundary w ≤ Z.max floor mid) as Hdel'.
  { intros w [Hin|Hin]%elem_of_app; [specialize (Hdel w Hin); lia|].
    apply list_elem_of_fmap in Hin as (w' & Heq & Hin). injection Heq as ->. rewrite Forall_forall in Hbs.
    specialize (Hbs w' Hin). cbv beta in Hbs. lia. }
  assert (∀ g, g ∈ entries j → journalSeq g ≤ Z.max floor mid → g ∈ s ++ f) as Hfloor'.
  { intros g Hg Hle. destruct (decide (journalSeq g ≤ mid)); [by apply Hmid|].
    apply elem_of_app. left. apply Hfloor; [done|lia]. }
  split.
  - unfold worker_inv. jcbn. split_and!; [done..|]. rewrite Hwork. by destruct (pendingSync j).
  - jcbn. exists (s ++ f), [], r, tail, len, (Z.max floor mid), (Z.max floor mid). jcbn. cbn [app].
    rewrite !app_nil_r, <-!app_assoc. split_and!; try done; try lia.
    2: { rewrite Hwork. destruct (pendingSync j); [|done]. split; [done|]. rewrite Hmn by done. lia. }
    destruct Hlow as (low & Hl & Hs & Hh & Hhm & Hhf). exists low.
    assert (∀ g, g ∈ history j → low < journalSeq g → journalSeq g ≤ Z.max floor mid → g ∈ s ++ f) as Hboth; [|by split_and!; auto].
    intros g Hg Hlo Hle. destruct (decide (journalSeq g ≤ mid)); [by apply Hhm|]. apply elem_of_app. left. apply Hhf; [done..|lia].
Qed.

(** *** Acknowledging, rebasing, closing *)

Lemma increasing_filter start P `{∀ g, Decision (P g)} es :
  increasing start es → increasing start (filter P es).
Proof.
  revert start. induction es as [|g es IH]; intros start; [done|]. intros [Hlt Hinc]. rewrite filter_cons.
  destruct (decide (P g)); [split; [done|by apply IH]|]. apply IH.
  destruct es as [|g2 es]; [done|]. destruct Hinc as [? ?]. split; [lia|done].
Qed.

Lemma drop_entries_inv m sequence reclaimed j :
  sequence < nextSeq j → journal_inv j → journal_inv (set_metadata m (drop_entries sequence reclaimed j)).
Proof.
  intros Hsq ((Hseq & Hwf & Hinc & Hlt & Hpub & Heh & Hlive & Hp0 & Hhinc & Hhlt & Hbn) & Hw & Hd). split; [|split; [done|]].
  - unfold entries_inv. jcbn. split_and!; [lia|lia| | | | | | |lia|lia|done|done|done].
    + rewrite Forall_forall in Hwf |- *. intros g [_ Hg]%list_elem_of_filter. by apply Hwf.
    + by apply increasing_filter.
    + rewrite Forall_forall in Hlt |- *. intros g [_ Hg]%list_elem_of_filter. by apply Hlt.
    + intros g Hg Hp. apply list_elem_of_filter. split; [lia|]. apply Hpub; [done|lia].
    + intros g [_ Hg]%list_elem_of_filter. by apply Heh.
    + intros g [Hs Hg]%list_elem_of_filter. specialize (Hlive g Hg). lia.
  - jcbn. destruct (disk j) as [d|]; [|done]. disk_cases Hd.
    exists s, f, r, tail, n, floor, mid. jcbn. split_and!; try done; try lia.
    2: { destruct Hlow as (low & Hl & Hrest). exists low. split; [lia|done]. }
    all: intros g [_ Hg]%list_elem_of_filter; eauto.
Qed.

Lemma Acknowledge_inv o sequence state j :
  journal_inv j → flushing j = false → sequence < nextSeq j → state_ok state → journal_inv (Acknowledge o sequence state j).1.
Proof.
  intros Hinv Hfl Hsq Hst. unfold Acknowledge. case_if; [done|].
  destruct (journalMetadata state) as [m|e] eqn:Hm; [|done]. destruct (Hst m Hm) as [Hmw Hmar].
  destruct (closed j) eqn:Hcl; [done|]. destruct (broken j) eqn:Hbr; [done|].
  pose proof (drop_entries_inv m sequence (reclaimed_by sequence (entries j)) j Hsq Hinv) as Hinv'.
  case_if; [done|].
  pose proof (rewriteLocked_inv o _ Hinv' Hcl Hfl Hmw Hmar) as Hrw.
  destruct (rewriteLocked o _) as [j' [e|]]; [by apply set_broken_inv|done].
Qed.

Lemma Rebase_inv o state j :
  journal_inv j → flushing j = false → state_ok state → journal_inv (Rebase o state j).1.
Proof.
  intros Hinv Hfl Hst. unfold Rebase.
  destruct (journalMetadata state) as [m|e] eqn:Hm; [|done]. destruct (Hst m Hm) as [Hmw Hmar].
  destruct (closed j) eqn:Hcl; [done|]. destruct (broken j) eqn:Hbr; [done|].
  by apply rewriteLocked_inv.
Qed.

Lemma close_end_inv o remove j :
  journal_inv j → closed j = true → worker j = NoWorker → journal_inv (close_end o remove j).1.
Proof.
  intros Hinv Hcl Hwkr. unfold close_end. pose proof Hinv as (He & Hw & _).
  destruct (file j), remove, (cl_remove o); cbn [fst]; try done; by split_and!.
Qed.

Lemma journal_step_inv j j' : journal_inv j → jstep j j' → journal_inv j'.
Proof.
  intros Hinv Hstep. destruct Hstep.
  - by apply enqueue_inv.
  - by apply sync_begin_inv.
  - by apply sync_end_inv.
  - by apply Acknowledge_inv.
  - by apply Rebase_inv.
  - destruct Hinv as (He & Hw & Hd). split; [done|]. split; [done|]. unfold close_begin. jcbn.
    destruct (disk j); [done|]. by destruct Hd.
  - by apply close_end_inv.
Qed.

End invariant.

(** What [OpenJournal] returns. *)
Definition opened (m : JournalMetadata) (es : list Generation) (c : bytes) : Journal :=
  mkJournal m es (match last es with Some g => u64 (journalSeq g + 1) | None => 1 end)
    [] 0 [] false false None HOpen (Z.of_nat (length c)) 0 journalCompactBytes
    (Some (mkDisk c (length c))) [] NoWorker [] 0 es 0.

Lemma OpenJournal_image o c j :
  OpenJournal o c = Ok j → jm_Size (metadata j) < 2 ^ 63 →
  ∃ m es valid, readJournal (mkStream c (op_read o)) = Ok (m, es, valid) ∧
    metadata_wf (jm_Size m `quot` DefaultBlockSize) m ∧
    journal_image (jm_Size m `quot` DefaultBlockSize) m (take (Z.to_nat valid) c) es ∧
    j = opened m es (take (Z.to_nat valid) c).
Proof.
  intros Hop Hsize. unfold OpenJournal in Hop.
  apply result_bind_Ok in Hop as (u1 & _ & Hop). apply result_bind_Ok in Hop as ([[m es] valid] & Hread & Hop).
  apply result_bind_Ok in Hop as (u2 & _ & Hop). apply result_bind_Ok in Hop as (c' & Hc' & Hop).
  apply result_bind_Ok in Hop as (u3 & _ & Hop). injection Hop as <-. cbn [metadata] in Hsize.
  destruct (readJournal_image _ _ _ _ Hread Hsize) as (Hv & Hm & Himg). cbn [pending] in Hv, Himg.
  assert (c' = take (Z.to_nat valid) c) as ->.
  { case_if_in Hc'.
    - apply result_bind_Ok in Hc' as (u4 & _ & Hc'). apply result_bind_Ok in Hc' as (u5 & _ & Hc'). by injection Hc' as <-.
    - injection Hc' as <-. rewrite take_ge by lia. done. }
  by exists m, es, valid.
Qed.

Lemma increasing_last start es g : increasing start es → g ∈ es → journalSeq g ≤ last_seq start es.
Proof.
  revert start. induction es as [|x es IH]; intros start Hinc Hg; [by apply elem_of_nil in Hg|].
  destruct Hinc as [Hlt Hinc]. rewrite last_seq_cons. apply elem_of_cons in Hg as [->|Hg]; [|by eapply IH].
  clear IH Hlt. revert x Hinc. induction es as [|y es IH]; intros x Hinc; [done|].
  destruct Hinc as [Hlt Hinc]. rewrite last_seq_cons. specialize (IH y Hinc). lia.
Qed.

Lemma opened_next m es c :
  Forall (record_wf imageBlocks) es → nextSeq (opened m es c) ≠ 0 → nextSeq (opened m es c) = last_seq 0 es + 1 ∧ 0 ≤ last_seq 0 es < 2 ^ 64 - 1.
Proof.
  intros Hwf. unfold opened, last_seq. cbn [nextSeq]. intros Hnz.
  destruct (last es) as [g|] eqn:Hg; cbn [fmap option_fmap option_map from_option id]; [|lia].
  apply last_Some_elem_of in Hg. rewrite Forall_forall in Hwf. destruct (Hwf g Hg) as (_ & _ & _ & Hs & _).
  assert (journalSeq g ≠ 2 ^ 64 - 1) by (intros He; rewrite He in Hnz; by apply Hnz).
  rewrite u64_small by lia. lia.
Qed.

Lemma opened_inv m es c :
  metadata_wf imageBlocks m → journal_image imageBlocks m c es → nextSeq (opened m es c) ≠ 0 →
  journal_inv (last_seq 0 es) (opened m es c).
Proof.
  intros Hm Himg Hnz. pose proof Himg as (Hwf & Hinc & _). destruct (opened_next m es c Hwf Hnz) as [Hns Hls].
  assert (∀ g, g ∈ es → 0 < journalSeq g) as Hpos.
  { intros g Hg. rewrite Forall_forall in Hwf. destruct (Hwf g Hg) as (_ & _ & _ & Hs & _). lia. }
  assert (Forall (fun g => journalSeq g < last_seq 0 es + 1) es) as Hall.
  { apply Forall_forall. intros g Hg. pose proof (increasing_last 0 es g Hinc Hg). lia. }
  split; [|split; [done|]].
  - unfold entries_inv. rewrite Hns. cbn [opened published history entries]. split_and!; try lia; done.
  - change (disk (opened m es c)) with (Some (mkDisk c (length c))). cbv iota.
    exists es, [], [], [], (length c), (last_seq 0 es), (last_seq 0 es). rewrite !app_nil_r, Hns.
    split_and!; try done; try lia.
    2: { exists 0. split_and!; [done|exact Hpos|done..]. }
    + exists m, c. cbn [df_data df_synced app]. change (records_bytes []) with (@nil byte). rewrite !app_nil_r.
      split_and!; try done. by left.
    + intros w Hw. by apply elem_of_nil in Hw.
    + cbn [opened worker]. split; [done|]. lia.
Qed.

Lemma install_nextSeq o data j : nextSeq (install o data j).1 = nextSeq j.
Proof. unfold install. by destruct (rw_rename o), (rw_open o), (rw_stat o), (rw_syncdir o). Qed.

Lemma journal_start_inv j : jstart j → journal_inv (nextSeq j - 1) j.
Proof.
  intros [o existing state j0 Hst Hcr|o c j0 Hop Hsize Himg Hnz].
  - unfold CreateJournal in Hcr. apply result_bind_Ok in Hcr as (m & Hm & Hcr).
    destruct (Hst m Hm) as [Hmw Hmar]. revert Hcr.
    set (j1 := mkJournal m _ _ _ _ _ _ _ _ _ _ _ _ _ _ _ _ _ _ _).
    assert (entries_inv 0 j1) as He by (unfold entries_inv, j1; jcbn; split_and!; try done; set_solver).
    assert (worker_inv j1) as Hw by done.
    assert (∀ w, (w, None) ∈ delivered j1 → w_boundary w < nextSeq j1) as Hdel by (intros w; cbn; set_solver).
    unfold rewriteLocked. destruct (rw_temporary o); [done|].
    destruct (journal_file (metadata j1) (entries j1)) as [data|e] eqn:Hfile; [|done].
    change (file j1) with HNil. cbv iota.
    pose proof (install_inv 0 o data j1 He Hw eq_refl Hmw Hmar Hdel Hfile) as Hins.
    pose proof (install_nextSeq o data j1) as Hnext.
    destruct (install o data j1) as [j' [e|]]; [done|]. intros [= <-]. cbn [fst] in *. rewrite Hnext. by apply Hins.
  - apply OpenJournal_image in Hop as (m & es & valid & _ & Hmw & Himage & ->); [|done].
    cbn [opened metadata] in Himg. rewrite Himg in Hmw, Himage. 
    pose proof (opened_inv _ _ _ Hmw Himage Hnz) as Hinv. by rewrite (proj1 (opened_next _ _ _ (proj1 Himage) Hnz)), Z.add_simpl_r.
Qed.

Lemma journal_run_inv j0 j : jstart j0 → rtc jstep j0 j → journal_inv (nextSeq j0 - 1) j.
Proof.
  intros Hstart Hrun. pattern j. revert j Hrun. apply rtc_ind_r; [by apply journal_start_inv|].
  intros j j' _ Hstep IH. by eapply journal_step_inv.
Qed.

Lemma jreach_run j : jreach j → ∃ j0, jstart j0 ∧ rtc jstep j0 j.
Proof.
  induction 1 as [j Hstart|j j' _ (j0 & Hstart & Hrun) Hstep]; exists j0 || exists j; split; try done.
  by eapply rtc_r.
Qed.

Lemma run_jreach j0 j : jstart j0 → rtc jstep j0 j → jreach j.
Proof.
  intros Hstart. apply (rtc_ind_r jreach); [by apply reach_start|]. intros j1 j2 _ Hstep IH. by eapply reach_step.
Qed.

Lemma journal_reach_inv j : jreach j → ∃ base, journal_inv base j.
Proof. intros (j0 & Hstart & Hrun)%jreach_run. eexists. by apply journal_run_inv. Qed.

(** What a crash may leave at the journal's path: the file, cut after its
    durable part, or one that an unsynced rename had replaced. *)
Definition crash_image (j : Journal) (c : option bytes) : Prop :=
  ∃ f, f ∈ disk j :: stale j ∧
    match f, c with Some d, Some c => crash_of d c | None, None => True | _, _ => False end.

Lemma increasing_above start es g : increasing start es → g ∈ es → start < journalSeq g.
Proof.
  revert start. induction es as [|x es IH]; intros start Hinc Hg; [by apply elem_of_nil in Hg|].
  destruct Hinc as [Hlt Hinc]. apply elem_of_cons in Hg as [->|Hg]; [done|]. specialize (IH _ Hinc Hg). lia.
Qed.

(** An increasing list is known by its elements. *)
Lemma increasing_ext a b xs ys : increasing a xs → increasing b ys → (∀ g, g ∈ xs ↔ g ∈ ys) → xs = ys.
Proof.
  revert a b ys. induction xs as [|x xs IH]; intros a b [|y ys] Hx Hy Hin; [done|..].
  - exfalso. specialize (Hin y). set_solver.
  - exfalso. specialize (Hin x). set_solver.
  - destruct Hx as [_ Hx], Hy as [_ Hy]. pose proof (fun g => increasing_above _ _ g Hx) as Hxs. pose proof (fun g => increasing_above _ _ g Hy) as Hys.
    assert (x = y) as <-.
    { pose proof (proj1 (Hin x)) as Hxy. pose proof (proj2 (Hin y)) as Hyx. rewrite !elem_of_cons in Hxy, Hyx.
      destruct (Hxy (or_introl eq_refl)) as [|H1']; [done|]. destruct (Hyx (or_introl eq_refl)) as [|H2']; [done|].
      apply Hys in H1'. apply Hxs in H2'. lia. }
    f_equal. eapply IH; [done..|]. intros g. specialize (Hin g). rewrite !elem_of_cons in Hin. split; intros Hg.
    + destruct (proj1 Hin (or_intror Hg)) as [->|]; [|done]. specialize (Hxs _ Hg). lia.
    + destruct (proj2 Hin (or_intror Hg)) as [->|]; [|done]. specialize (Hys _ Hg). lia.
Qed.

(** A sequence number that a delivered flush covers, or that had been given
    out before the journal was created or opened. *)
Definition flushed (j0 j : Journal) (seq : Z) : Prop :=
  seq < nextSeq j0 ∨ ∃ w, (w, None) ∈ delivered j ∧ seq ≤ w_boundary w.

(** What a crash leaves of a journal are the generations between two sequence
    numbers: only acknowledged ones are missing before, and none that was
    flushed is missing after. *)
Lemma crash_recovers_interval j0 j c :
  jstart j0 → rtc jstep j0 j → disk j ≠ None → stale j = [] → crash_image j c →
  ∃ c0 m recs valid low high, c = Some c0 ∧ readJournal (mkStream c0 None) = Ok (m, recs, valid) ∧
    recs = filter (fun g => low < journalSeq g ≤ high) (history j) ∧ low ≤ published j ∧
    (∀ g, g ∈ history j → low < journalSeq g → flushed j0 j (journalSeq g) → journalSeq g ≤ high) ∧
    Forall (record_wf imageBlocks) recs ∧ increasing 0 (history j).
Proof.
  intros Hstart Hrun Hdisk Hst (fl & Hfl0 & Hc). rewrite Hst in Hfl0. apply list_elem_of_singleton in Hfl0 as ->.
  destruct (journal_run_inv j0 j Hstart Hrun) as ((_ & _ & _ & _ & _ & _ & _ & _ & Hinc & _) & _ & Hd).
  destruct (disk j) as [d|]; [|done]. destruct c as [c|]; [|done]. disk_cases Hd.
  destruct (layout_crash _ _ _ _ _ _ _ _ Hlay Hc) as (m & more & rest & valid & Hread & Hsplit).
  destruct Hlay as (m' & c' & _ & (Hwfs & Hincs & _) & _ & Hwff & Hincf & _). destruct Hlow as (low & Hl & Hs & Hh & _ & Hhf).
  assert (increasing 0 ((s ++ more) ++ rest)) as Hall'. { rewrite <-app_assoc, <-Hsplit. by apply increasing_app. }
  apply increasing_app in Hall' as [Hrecs Hrest]. rewrite Hsplit, app_assoc in Hhist, Hs, Hh.
  assert (∀ g, g ∈ s ++ more → journalSeq g ≤ last_seq low (s ++ more)) as Hle.
  { intros g Hg. pose proof (increasing_last 0 _ g Hrecs Hg) as Hx. revert Hx. unfold last_seq. by destruct (last (s ++ more)) eqn:Hlast'; [|apply last_None in Hlast'; rewrite Hlast' in Hg; apply elem_of_nil in Hg]. }
  exists c, m, (s ++ more), valid, low, (last_seq low (s ++ more)). split_and!; [done|done| |done| | |done].
  - eapply increasing_ext; [exact Hrecs|by apply increasing_filter|]. intros g. rewrite list_elem_of_filter. split.
    + intros Hg. split; [|apply Hhist; apply elem_of_app; by left]. split; [apply Hs, elem_of_app; by left|by apply Hle].
    + intros [[Hlo Hhi] Hg]. destruct (proj1 (elem_of_app _ _ _) (Hh g Hg Hlo)) as [|Hg']; [done|]. apply (increasing_above _ _ _ Hrest) in Hg'.
      revert Hhi Hg'. unfold last_seq. destruct (last (s ++ more)); cbn; lia.
  - intros g Hg Hlo Hb. apply Hle. apply elem_of_app. left. apply Hhf; [done..|].
    destruct Hb as [Hb|(w & Hw & Hb)]; [lia|]. specialize (Hdel w Hw). lia.
  - rewrite Hsplit in Hwff. apply Forall_app. split; [done|]. by apply Forall_app in Hwff as [? _].
Qed.

(** C5: an acknowledged flush survives a crash.  In every reachable state of a
    journal, whatever the outcomes of its system calls so far, as long as its file
    is at its path and no rename is still waiting for its directory sync
    ([stale j = []]; [unsynced_rename_acknowledges] shows what happens otherwise),
    take a flush that was acknowledged with nil and the generations that were
    appended up to it and not acknowledged as published.  After a crash that left
    any prefix of the bytes written since the last sync, [readJournal] recovers
    the file, with all of them, and everything it recovers was appended.  After a
    crash that left any other bytes behind the synced ones, [readJournal] either
    refuses the file or still recovers all of them. *)
Theorem acknowledged_flush_durable j w :
  jreach j → disk j ≠ None → stale j = [] → (w, None) ∈ delivered j →
  (∀ c, crash_image j c →
    ∃ c0 m recs valid, c = Some c0 ∧ readJournal (mkStream c0 None) = Ok (m, recs, valid) ∧
      (∀ g, g ∈ history j → published j < journalSeq g ≤ w_boundary w → g ∈ recs) ∧
      (∀ g, g ∈ recs → g ∈ history j)) ∧
  (∀ d c m recs valid, disk j = Some d → wild_crash d c → readJournal (mkStream c None) = Ok (m, recs, valid) →
    ∀ g, g ∈ history j → published j < journalSeq g ≤ w_boundary w → g ∈ recs).
Proof.
  intros Hreach Hdisk Hst Hw. destruct (journal_reach_inv j Hreach) as (base & (_ & _ & _ & _ & Hpub & _) & _ & Hd).
  split.
  - intros c (fl & Hfl0 & Hc). rewrite Hst in Hfl0. apply list_elem_of_singleton in Hfl0 as ->.
    destruct (disk j) as [d|]; [|done]. destruct c as [c|]; [|done]. disk_cases Hd.
    destruct (layout_crash _ _ _ _ _ _ _ _ Hlay Hc) as (m & more & rest & valid & Hread & Hsplit).
    exists c, m, (s ++ more), valid. split_and!; [done|done|..].
    + intros g Hg [Hp Hb]. apply elem_of_app. left. apply Hfloor; [by apply Hpub|]. specialize (Hdel w Hw). lia.
    + intros g Hg. apply Hhist. rewrite Hsplit. rewrite !elem_of_app in *. tauto.
  - intros d c m recs valid Hdj Hc Hread g Hg [Hp Hb]. rewrite Hdj in Hd. disk_cases Hd.
    destruct (layout_wild _ _ _ _ _ _ _ _ _ _ _ Hlay Hc Hread) as [more ->].
    apply elem_of_app. left. apply Hfloor; [by apply Hpub|]. specialize (Hdel w Hw). lia.
Qed.

(** *** Waiters *)

(** Everyone who still waits. *)
Definition waiting (j : Journal) : list journalWaiters :=
  match worker j with WorkerSyncing batch _ => batch | _ => [] end ++ inflight j ++ pendingSync j.

Definition waiter_ids (j : Journal) : list nat := w_id <$> ((delivered j).*1 ++ waiting j).

Lemma rewriteLocked_waiters o j :
  let j' := (rewriteLocked o j).1 in waiter_ids j' = waiter_ids j ∧ issued j' = issued j.
Proof.
  cbv zeta. unfold rewriteLocked, install. destruct (rw_temporary o); [done|].
  destruct (journal_file _ _); [|done].
  destruct (file j), (rw_close o), (rw_rename o), (rw_open o), (rw_stat o), (rw_syncdir o); done.
Qed.

Lemma delivered_fst j ws e :
  (delivered (deliver ws e j)).*1 = (delivered j).*1 ++ ws.
Proof. jcbn. rewrite fmap_app, <-list_fmap_compose. f_equal. rewrite <-(list_fmap_id ws) at 2. done. Qed.

Lemma waiting_NoWorker j : worker_inv j → worker j = NoWorker → waiting j = [].
Proof. intros (_ & _ & _ & Hw) Hwkr. unfold waiting. rewrite Hwkr in *. by destruct Hw as (_ & -> & ->). Qed.

(** The waiter that [Enqueue] hands out is delivered at once or waits. *)
Lemma enqueue_waiters o g j :
  worker_inv j →
  waiter_ids (Enqueue o g j) ≡ₚ waiter_ids j ++ [issued j] ∧ issued (Enqueue o g j) = S (issued j).
Proof.
  intros (_ & _ & _ & Hwork).
  assert (∀ j' b e, waiter_ids j' = waiter_ids j → issued j' = S (issued j) →
    waiter_ids (deliver [mkWaiter (issued j) b] e j') ≡ₚ waiter_ids j ++ [issued j] ∧
    issued (deliver [mkWaiter (issued j) b] e j') = S (issued j)) as Hdel.
  { intros j' b e Hids Hiss. split; [|done]. rewrite <-Hids. unfold waiter_ids. rewrite delivered_fst.
    change (waiting (deliver _ e j')) with (waiting j'). rewrite <-app_assoc, !fmap_app, <-app_assoc.
    apply Permutation_app_head. rewrite Permutation_app_comm. done. }
  unfold Enqueue. jcbn. replace (S (issued j) - 1)%nat with (issued j) by lia.
  destruct (Empty g).
  { destruct (bool_decide _ && syncRunning j); [|by apply Hdel]. case_if; unfold waiter_ids, waiting; jcbn; split; try done.
    - rewrite !fmap_app, <-!app_assoc. do 3 apply Permutation_app_head. apply Permutation_app_comm.
    - by rewrite !fmap_app, <-!app_assoc. }
  destruct (closed j); [by apply Hdel|]. destruct (broken j); [by apply Hdel|].
  destruct (encodeJournalRecord g (nextSeq j)) as [[record g']|e]; [|by apply Hdel].
  unfold write_record, append_data. jcbn. destruct (file j); [by apply Hdel..|].
  destruct o as [|k e], (disk j); try (by apply Hdel); jcbn; split; try done.
  all: unfold waiter_ids, waiting; jcbn.
  all: assert (match (if syncRunning j then worker j else WorkerLoop) with WorkerSyncing b _ => b | _ => [] end =
    match worker j with WorkerSyncing b _ => b | _ => [] end) as ->
    by (destruct (syncRunning j), (worker j); done).
  all: by rewrite !fmap_app, <-!app_assoc.
Qed.

Lemma waiter_ids_step j j' :
  worker_inv j → jstep j j' → waiter_ids j ≡ₚ seq 0 (issued j) → waiter_ids j' ≡ₚ seq 0 (issued j').
Proof.
  intros Hw Hstep Hids.
  destruct Hstep as [o g j Hn Hg|j Hwk|o batch len j Hwk|o sq st j Hfl Hst|o st j Hfl Hst|j Hfl|o rm j Hcl Hwk].
  - destruct (enqueue_waiters o g j Hw) as [-> ->]. by rewrite Hids, seq_S.
  - destruct Hw as (_ & _ & _ & Hw). rewrite Hwk in Hw. destruct Hw as (_ & Hne & Hinf).
    unfold sync_begin. unfold waiter_ids, waiting in *. rewrite Hwk, Hinf in Hids.
    destruct (pendingSync j) eqn:Hp; [done|]. jcbn. by rewrite Hinf, app_nil_r.
  - unfold waiter_ids, waiting in Hids. rewrite Hwk in Hids. unfold sync_end. destruct (sync_file o j).
    + unfold waiter_ids. rewrite delivered_fst. unfold waiting. jcbn. cbn [app].
      by rewrite !app_nil_r, <-(app_assoc batch).
    + unfold waiter_ids. rewrite delivered_fst. unfold flush_disk, waiting.
      destruct Hw as (_ & _ & _ & Hrun). rewrite Hwk in Hrun.
      destruct (disk j), (pendingSync j) eqn:Hp; jcbn; rewrite ?Hp, ?Hrun; cbn [app];
        rewrite ?app_nil_r in *; rewrite <-?app_assoc; done.
  - unfold Acknowledge. case_if; [done|]. destruct (journalMetadata st); [|done].
    destruct (closed j); [done|]. destruct (broken j); [done|]. case_if; [done|].
    pose proof (rewriteLocked_waiters o (set_metadata a (drop_entries sq (reclaimed_by sq (entries j)) j))) as Hrw.
    destruct (rewriteLocked o _) as [j' [e|]]; cbn [fst] in Hrw; cbn [fst];
      change (waiter_ids (set_broken ?x j')) with (waiter_ids j'); destruct Hrw as [-> Hiss]; jcbn; by rewrite Hiss.
  - unfold Rebase. destruct (journalMetadata st); [|done]. destruct (closed j); [done|]. destruct (broken j); [done|].
    by destruct (rewriteLocked_waiters o (set_metadata a j)) as [-> ->].
  - done.
  - unfold close_end. destruct (file j), rm, (cl_remove o); done.
Qed.

Lemma waiter_ids_start j : jstart j → waiter_ids j = [] ∧ issued j = 0%nat.
Proof.
  intros [o existing state j0 Hst Hcr|o c j0 Hop Hsize Himg Hnz].
  - unfold CreateJournal in Hcr. apply result_bind_Ok in Hcr as (m & _ & Hcr). revert Hcr.
    match goal with |- context [rewriteLocked o ?j1] => pose proof (rewriteLocked_waiters o j1) as [Hi1 Hi2];
      destruct (rewriteLocked o j1) as [j' [e|]] end; [done|]. intros [= <-]. done.
  - apply OpenJournal_image in Hop as (m & es & valid & _ & _ & _ & ->); done.
Qed.

(** No flush is lost or answered twice.  In every reachable state each
    waiter [Enqueue] handed out either has received exactly one result or still
    waits, and nobody waits unless the sync goroutine is running to answer. *)
Theorem every_flush_answered_once j :
  jreach j →
  NoDup (waiter_ids j) ∧ (∀ id, id ∈ waiter_ids j ↔ (id < issued j)%nat) ∧
  (worker j = NoWorker → ∀ id, (id < issued j)%nat → ∃ w err, (w, err) ∈ delivered j ∧ w_id w = id).
Proof.
  intros Hreach. assert (waiter_ids j ≡ₚ seq 0 (issued j)) as Hids.
  { induction Hreach as [j Hs|j j' Hr IH Hstep].
    - by destruct (waiter_ids_start j Hs) as [-> ->].
    - destruct (journal_reach_inv j Hr) as (base & _ & Hw & _). by eapply waiter_ids_step. }
  assert (∀ id, id ∈ waiter_ids j ↔ (id < issued j)%nat) as Hin.
  { intros id. rewrite Hids, elem_of_seq. lia. }
  split_and!; [rewrite Hids; apply NoDup_seq|done|]. intros Hwk id Hid%Hin.
  destruct (journal_reach_inv j Hreach) as (base & _ & Hw & _). unfold waiter_ids in Hid.
  rewrite (waiting_NoWorker j Hw Hwk), app_nil_r in Hid.
  apply list_elem_of_fmap in Hid as (w & -> & Hwin). apply list_elem_of_fmap in Hwin as ([w' err] & -> & Hd). eauto.
Qed.

(** *** A failed directory sync *)

Definition syncdir_fails (e : error) : rewrite_outcome := mkRewrite None None None true None None (Some e).

Lemma rewriteLocked_syncdir_fails e data j d :
  file j = HOpen → disk j = Some d → journal_file (metadata j) (entries j) = Ok data →
  rewriteLocked (syncdir_fails e) j =
  (set_sizes (Z.of_nat (length data)) 0
    (set_file HOpen (set_disk (Some (mkDisk data (length data))) (Some d :: stale j) (set_file HNil j))), Some e).
Proof.
  intros Hfile Hdisk Hdata. unfold rewriteLocked. cbn [rw_temporary syncdir_fails].
  rewrite Hdata, Hfile. cbn [rw_close]. unfold install. cbn [rw_rename rw_open rw_stat rw_syncdir]. jcbn. by rewrite Hdisk.
Qed.

(** A flush that was pending when the journal was rewritten into [data]. *)
Lemma pending_flush_after_rewrite j data old w ws :
  file j = HOpen → disk j = Some (mkDisk data (length data)) → Some old ∈ stale j →
  (df_synced old ≤ length (df_data old))%nat → pendingSync j = w :: ws →
  worker (sync_begin j) = WorkerSyncing (w :: ws) (length data) ∧
  let j2 := sync_end None (w :: ws) (length data) (sync_begin j) in
  broken j2 = broken j ∧ (w, None) ∈ delivered j2 ∧ crash_image j2 (Some (take (df_synced old) (df_data old))).
Proof.
  intros Hfile Hdisk Hold Hsy Hps. unfold sync_begin. rewrite Hps, Hdisk. cbn [df_data]. split; [done|].
  unfold sync_end, sync_file, flush_disk. jcbn. rewrite Hfile, Hdisk. cbv zeta. jcbn. split_and!; [done| |].
  - apply elem_of_app. right. apply list_elem_of_fmap. exists w. split; [done|].
    apply elem_of_app. left. apply list_elem_of_here.
  - exists (Some old). jcbn. split; [by apply list_elem_of_further|]. by exists (df_synced old).
Qed.

(** A compaction whose rename succeeds and whose directory sync fails marks
    the journal broken, yet the sync goroutine still acknowledges the flushes
    that were pending with nil, while a crash may bring back the replaced file,
    whose copies of their records were never synced. *)
Lemma unsynced_rename_acknowledges e sequence state m data j d w ws :
  sequence ≠ 0 → journalMetadata state = Ok m → closed j = false → broken j = None → file j = HOpen →
  disk j = Some d → (df_synced d ≤ length (df_data d))%nat → pendingSync j = w :: ws →
  let jd := set_metadata m (drop_entries sequence (reclaimed_by sequence (entries j)) j) in
  compactAfter jd ≤ reclaimBytes jd → diskBytes jd ≤ reclaimBytes jd * 2 →
  journal_file m (entries jd) = Ok data →
  let j1 := (Acknowledge (syncdir_fails e) sequence state j).1 in
  let j2 := sync_end None (w :: ws) (length data) (sync_begin j1) in
  worker (sync_begin j1) = WorkerSyncing (w :: ws) (length data) ∧
  broken j2 ≠ None ∧ (w, None) ∈ delivered j2 ∧ crash_image j2 (Some (take (df_synced d) (df_data d))).
Proof.
  intros Hseq Hm Hcl Hbr Hfile Hdisk Hsy Hps jd Hrec Hhalf Hdata. cbv zeta.
  unfold Acknowledge. rewrite (proj2 (Z.eqb_neq sequence 0) Hseq), Hm, Hcl, Hbr. cbv zeta. fold jd.
  rewrite (proj2 (Z.ltb_ge (reclaimBytes jd) (compactAfter jd)) Hrec).
  rewrite (proj2 (Z.ltb_ge (reclaimBytes jd * 2) (diskBytes jd)) Hhalf). cbn [orb].
  rewrite (rewriteLocked_syncdir_fails e data jd d) by done. cbn [fst].
  match goal with |- context [sync_begin ?x] =>
    destruct (pending_flush_after_rewrite x data d w ws) as (H1 & H2 & H3 & H4) end;
    [done|done|jcbn; apply list_elem_of_here|done|done|].
  split; [exact H1|]. split; [by rewrite H2|]. by split.
Qed.
End steps.

(** ** Witness: create, append, flush, crash *)

Definition sample_state : State :=
  mkState Format "id" "vol" (4 * DefaultBlockSize) DefaultBlockSize "ext4" 7 "base" ∅ None 0 3 false
    (Some (mkLeaseRecord "host" "token" 3 0 0)).

Definition sample_journal : Journal :=
  mkJournal sample_metadata [] 1 [] 0 [] false false None HOpen 46 0 journalCompactBytes
    (Some (mkDisk (header_bytes (H := toy_digest) [x7b; x7d]) 46)) [] NoWorker [] 0 [] 0.

Definition sample_appended : Journal :=
  Enqueue (H := toy_digest) WriteOk (Some (sample_record 0)) sample_journal.

Definition sample_flushed : Journal :=
  match worker (sync_begin sample_appended) with
  | WorkerSyncing batch len => sync_end None batch len (sync_begin sample_appended)
  | _ => sample_appended
  end.

Lemma sample_start : jstart (H := toy_digest) (H0 := sample_json) 4 sample_journal.
Proof.
  apply (start_create (H := toy_digest) (H0 := sample_json) 4 rewrite_ok None sample_state).
  - intros m Hm. injection Hm as <-. split; [exact sample_metadata_wf|reflexivity].
  - vm_compute. reflexivity.
Qed.

Lemma sample_run : rtc (jstep (H := toy_digest) (H0 := sample_json) 4) sample_journal sample_flushed.
Proof.
  assert (worker (sync_begin sample_appended) = WorkerSyncing [mkWaiter 0 1] 4210) as Hwk by (vm_compute; reflexivity).
  unfold sample_flushed. rewrite Hwk.
  apply (rtc_l _ _ sample_appended); [apply step_enqueue; [done|]; intros g [= <-] _; by apply (sample_record_wf 1)|].
  apply (rtc_l _ _ (sync_begin sample_appended)); [apply step_sync_begin; vm_compute; reflexivity|].
  apply rtc_once. by apply step_sync_end.
Qed.

Lemma sample_flushed_reach : jreach (H := toy_digest) (H0 := sample_json) 4 sample_flushed.
Proof. apply run_jreach with sample_journal; [exact sample_start|exact sample_run]. Qed.

(** The synced file: after an orderly crash, and with a torn record behind it
    (a record's magic and nothing else of it). *)
Lemma acknowledged_flush_durable_witness :
  ∃ d m recs valid, disk sample_flushed = Some d ∧
    readJournal (H := toy_digest) (H0 := sample_json) (mkStream (df_data d) None) = Ok (m, recs, valid) ∧
    sample_record 1 ∈ recs ∧
    ∃ m' recs' valid', readJournal (H := toy_digest) (H0 := sample_json) (mkStream (df_data d ++ string_bytes journalRecordMagic) None) = Ok (m', recs', valid') ∧
      sample_record 1 ∈ recs'.
Proof.
  destruct (disk sample_flushed) as [d|] eqn:Hd; [|vm_compute in Hd; discriminate Hd].
  assert (df_synced d = length (df_data d)) as Hs. { revert Hd. vm_compute. intros [= <-]. vm_compute. reflexivity. }
  assert (history sample_flushed = [sample_record 1]) as Hh by (vm_compute; reflexivity).
  destruct (acknowledged_flush_durable (H := toy_digest) (H0 := sample_json) 4 sample_flushed (mkWaiter 0 1)) as [Horderly Hwild].
  - exact sample_flushed_reach.
  - by rewrite Hd.
  - vm_compute. reflexivity.
  - assert (delivered sample_flushed = [(mkWaiter 0 1, None)]) as -> by (vm_compute; reflexivity). by apply list_elem_of_singleton.
  - destruct (Horderly (Some (df_data d))) as (c & m & recs & valid & [= <-] & Hread & Hrec & _).
    { exists (Some d). split; [rewrite Hd; apply list_elem_of_here|]. exists (length (df_data d)). rewrite take_ge by lia. split; [lia|done]. }
    exists d, m, recs, valid. split; [reflexivity|]. split; [exact Hread|].
    split; [apply Hrec; [rewrite Hh; by apply list_elem_of_singleton|vm_compute; split; congruence]|].
    destruct (readJournal (H := toy_digest) (H0 := sample_json) (mkStream (df_data d ++ string_bytes journalRecordMagic) None)) as [[[m' recs'] valid']|e] eqn:Hr.
    + exists m', recs', valid'. split; [reflexivity|]. apply (Hwild d (df_data d ++ string_bytes journalRecordMagic) m' recs' valid' Hd); [|exact Hr| |vm_compute; split; congruence].
      * exists (string_bytes journalRecordMagic). by rewrite Hs, firstn_all.
      * rewrite Hh. by apply list_elem_of_singleton.
    + assert (match disk sample_flushed with
        | Some d => match readJournal (H := toy_digest) (H0 := sample_json) (mkStream (df_data d ++ string_bytes journalRecordMagic) None) with Ok _ => true | Err _ => false end
        | None => false end = true) as Hok by (vm_compute; reflexivity).
      rewrite Hd, Hr in Hok. discriminate Hok.
Defined.

(** Why the rest of a crash is left open: when the length of the file reached
    the disk and the bytes of the last record did not, recovery refuses the
    whole journal, flushed records included. *)
Lemma zeroed_tail_is_refused :
  ∃ d e, disk sample_flushed = Some d ∧ wild_crash d (df_data d ++ replicate 4164 x00) ∧
    readJournal (H := toy_digest) (H0 := sample_json) (mkStream (df_data d ++ replicate 4164 x00) None) = Err e.
Proof.
  destruct (disk sample_flushed) as [d|] eqn:Hd; [|vm_compute in Hd; discriminate Hd].
  assert (df_synced d = length (df_data d)) as Hs. { revert Hd. vm_compute. intros [= <-]. vm_compute. reflexivity. }
  destruct (readJournal (H := toy_digest) (H0 := sample_json) (mkStream (df_data d ++ replicate 4164 x00) None)) as [r|e] eqn:Hr.
  - assert (match disk sample_flushed with
      | Some d => match readJournal (H := toy_digest) (H0 := sample_json) (mkStream (df_data d ++ replicate 4164 x00) None) with Ok _ => false | Err _ => true end
      | None => false end = true) as Hok by (vm_compute; reflexivity).
    rewrite Hd, Hr in Hok. discriminate Hok.
  - exists d, e. split; [done|]. split; [|done]. exists (replicate 4164 x00). by rewrite Hs, firstn_all.
Qed.

Lemma every_flush_answered_once_witness : NoDup (waiter_ids sample_flushed).
Proof.
  apply (every_flush_answered_once (H := toy_digest) (H0 := sample_json) 4 sample_flushed). exact sample_flushed_reach.
Defined.
