(* ===== verification/Manifest.v ===== *)
(** * Manifests ([internal/replica/remote.go]: validation and reading)

    A volume's history is a chain of manifests, each naming its parent.  A
    manifest is stored inline in the volume state, inside a bundle of older
    manifests, or as an object of its own; in every case its key is the digest
    of its bytes.

    The object store appears as the function [Get] from keys to objects: the
    objects a restore reads are content-addressed, and a failed read ends the
    operation, so a run never depends on two different answers for one key. *)
From S2P Require Import Prelude Extents Codec Segment Types.
Local Open Scope Z_scope.

(** [fmt.Sprintf]-free key construction used all over the package. *)
Definition manifest_key `{Digest} (name : string) (body : bytes) : string :=
  VolumePrefix name +:+ "manifests/" +:+ hex_EncodeToString (sha256 body) +:+ ".json".

Definition bundle_key `{Digest} (name : string) (body : bytes) : string :=
  VolumePrefix name +:+ "manifest-bundles/" +:+ hex_EncodeToString (sha256 body) +:+ ".json".

(** The cache of bundles a caller keeps over several reads. *)
Abbreviation bundle_cache := (gmap string manifestBundle).

Section manifest.
Context `{Digest} `{Json Manifest} `{Json manifestBundle}.
Context (Get : string → result bytes).

(** ** Validation *)

(** The storage checks of one segment reference in [validateManifest]: the
    number of storage kinds it has. *)
Definition ref_storage (name : string) (ref : ObjectRef) : result Z :=
  let segmentPrefix := VolumePrefix name +:+ "segments/" in
  let manifestPrefix := VolumePrefix name +:+ "manifests/" in
  let bundlePrefix := VolumePrefix name +:+ "manifest-bundles/" in
  k1 ← (if bool_decide (ref_Key ref = EmptyString) then Ok 0 else
          _ ← fail_if (negb (HasPrefix (ref_Key ref) segmentPrefix) ||
                       negb (HasSuffix (ref_Key ref) ("-" +:+ ref_SHA256 ref +:+ ".seg.gz")))
                (Errorf "manifest %s has an invalid segment key %s");
          Ok 1);
  k2 ← (if bool_decide (ref_InlineData ref = []) then Ok 0 else
          _ ← fail_if (negb (Z.of_nat (length (ref_InlineData ref)) =? ref_Bytes ref) ||
                       negb (bool_decide (hex_EncodeToString (sha256 (ref_InlineData ref)) = ref_SHA256 ref)))
                (Errorf "manifest %s has invalid inline segment data at index %d");
          Ok 1);
  k3 ← (if bool_decide (ref_SourceManifest ref = EmptyString) then
          _ ← fail_if (negb (bool_decide (ref_SourceBundle ref = EmptyString)))
                (Errorf "manifest %s has a segment bundle without a source manifest");
          Ok 0
        else
          _ ← fail_if (negb (HasPrefix (ref_SourceManifest ref) manifestPrefix) ||
                       negb (HasSuffix (ref_SourceManifest ref) ".json"))
                (Errorf "manifest %s has an invalid inline segment source %s");
          _ ← fail_if (negb (bool_decide (ref_SourceBundle ref = EmptyString)) &&
                       (negb (HasPrefix (ref_SourceBundle ref) bundlePrefix) ||
                        negb (HasSuffix (ref_SourceBundle ref) ".json")))
                (Errorf "manifest %s has an invalid segment source bundle %s");
          Ok 1);
  Ok (k1 + k2 + k3).

Definition is_err {A} (r : result A) : bool := negb (is_ok r).

(** The body of the segment loop of [validateManifest]: the number of blocks
    of the reference. *)
Definition validate_ref (name kind : string) (maxBlocks : Z) (ref : ObjectRef) : result Z :=
  _ ← fail_if ((ref_Bytes ref <=? 0) || (ref_Blocks ref <=? 0) || (maxBlocks <? ref_Blocks ref) ||
               bool_decide (ref_Extents ref = []))
        (Errorf "manifest %s has an invalid segment reference at index %d");
  _ ← fail_if (match hex_DecodeString (ref_SHA256 ref) with
               | Some digest => negb (length digest =? 32)%nat
               | None => true
               end) (Errorf "manifest %s has an invalid segment digest at index %d");
  storageKinds ← ref_storage name ref;
  _ ← fail_if (negb (storageKinds =? 1)) (Errorf "manifest %s has invalid segment storage at index %d");
  blocks ← match validateExtents (ref_Extents ref) maxBlocks with
           | Ok blocks =>
               _ ← fail_if ((ref_Blocks ref <? blocks) ||
                            bool_decide (kind = "delta") && negb (blocks =? ref_Blocks ref))
                     (Errorf "manifest %s has invalid segment extents at index %d");
               Ok blocks
           | Err _ => Err (Errorf "manifest %s has invalid segment extents at index %d")
           end;
  _ ← fail_if (is_err (validateExtents (ref_ZeroExtents ref) maxBlocks) ||
               negb (extentsContain (ref_Extents ref) (ref_ZeroExtents ref)))
        (Errorf "manifest %s has invalid zero extents at index %d");
  Ok blocks.

Fixpoint validate_refs (name kind : string) (maxBlocks : Z) (refs : list ObjectRef)
    (manifestExtents : list Extent) (manifestBlocks : Z) : result (list Extent * Z) :=
  match refs with
  | [] => Ok (manifestExtents, manifestBlocks)
  | ref :: rest =>
      blocks ← validate_ref name kind maxBlocks ref;
      _ ← fail_if (MaxUint64 - blocks <? manifestBlocks) (Errorf "manifest %s extent count overflows");
      validate_refs name kind maxBlocks rest (manifestExtents ++ ref_Extents ref) (manifestBlocks + blocks)
  end.

Definition validateManifest (state : State) (manifest : Manifest) (expectedGeneration : Z) : result unit :=
  _ ← fail_if (negb (bool_decide (mf_Format manifest = Format)) ||
               negb (bool_decide (mf_VolumeID manifest = st_ID state)) || (mf_Epoch manifest =? 0))
        (Errorf "manifest %s does not belong to volume %s");
  _ ← fail_if (negb (mf_Generation manifest =? expectedGeneration) || (expectedGeneration =? 0))
        (Errorf "manifest %s breaks the generation chain");
  _ ← (if bool_decide (mf_Kind manifest = "delta") then
         fail_if (bool_decide (mf_Segments manifest = [])) (Errorf "delta manifest %s has no segments")
       else fail_if (negb (bool_decide (mf_Kind manifest = "checkpoint"))) (Errorf "manifest %s has unknown kind %q"));
  let maxBlocks := st_Size state `quot` st_BlockSize state in
  '(manifestExtents, manifestBlocks) ←
    validate_refs (st_Name state) (mf_Kind manifest) maxBlocks (mf_Segments manifest) [] 0;
  match validateExtents (unionExtents [] manifestExtents) maxBlocks with
  | Ok coveredBlocks =>
      fail_if (negb (coveredBlocks =? manifestBlocks)) (Errorf "manifest %s has overlapping segment extents")
  | Err _ => Err (Errorf "manifest %s has overlapping segment extents")
  end.

Definition decodeManifest (state : State) (key : string) (body : bytes) (expectedGeneration : Z) : result Manifest :=
  manifest ← wrap_err "decode manifest %s" (Unmarshal body);
  _ ← fail_if (negb (bool_decide (key = manifest_key (st_Name state) body))) (Errorf "manifest %s checksum mismatch");
  let expectedGeneration := if expectedGeneration =? 0 then mf_Generation manifest else expectedGeneration in
  _ ← validateManifest state manifest expectedGeneration;
  Ok manifest.

Definition validManifestBundleRef (name : string) (ref : ManifestBundleRef) : bool :=
  let prefix := VolumePrefix name +:+ "manifest-bundles/" in
  HasPrefix (bref_Key ref) prefix && HasSuffix (bref_Key ref) ".json" &&
  (0 <? bref_FirstGeneration ref) && (bref_FirstGeneration ref <=? bref_LastGeneration ref).

(** The loop of [validateState] over the inline manifests, in some order. *)
Fixpoint validate_inline (state : State) (inlineBytes : Z) (inline : list (string * bytes)) : result unit :=
  match inline with
  | [] => Ok tt
  | (key, body) :: rest =>
      let inlineBytes := inlineBytes + Z.of_nat (length body) in
      _ ← fail_if (inlineManifestStateLimit <? inlineBytes) (Errorf "volume %s has too much inline manifest data");
      _ ← decodeManifest state key body 0;
      validate_inline state inlineBytes rest
  end.

Definition validateState (name : string) (state : State) : result unit :=
  _ ← fail_if (negb (bool_decide (st_Format state = Format))) (Errorf "volume %s uses unsupported format %q");
  _ ← fail_if (negb (bool_decide (st_Name state = name)) || bool_decide (st_ID state = EmptyString))
        (Errorf "volume %s has corrupt identity");
  _ ← fail_if ((st_Size state <=? 0) || negb (st_Size state `rem` DefaultBlockSize =? 0) ||
               negb (st_BlockSize state =? DefaultBlockSize)) (Errorf "volume %s has invalid geometry");
  _ ← fail_if (st_Generation state <? st_Checkpoint state) (Errorf "volume %s has an invalid checkpoint generation");
  _ ← fail_if (negb (Bool.eqb (st_Generation state =? 0) (bool_decide (st_Manifest state = EmptyString))))
        (Errorf "volume %s has inconsistent generation metadata");
  _ ← validate_inline state 0 (map_to_list (st_InlineManifests state));
  match st_ManifestBundle state with
  | Some bundle =>
      fail_if (negb (validManifestBundleRef (st_Name state) bundle)) (Errorf "volume %s has an invalid manifest bundle")
  | None => Ok tt
  end.

(** ** Reading *)

(** The loop of [readManifestBundle] over the bundled manifests: the first and
    the last generation. *)
Fixpoint bundle_generations (state : State) (bundle : manifestBundle) (first : bool) (firstG previous : Z)
    (ms : list bundledManifest) : result (Z * Z) :=
  match ms with
  | [] => Ok (firstG, previous)
  | entry :: rest =>
      manifest ← wrap_err "validate manifest bundle %s" (decodeManifest state (bm_Key entry) (bm_Body entry) 0);
      _ ← fail_if ((mf_Generation manifest <? mb_FirstGeneration bundle) ||
                   (mb_LastGeneration bundle <? mf_Generation manifest) ||
                   negb first && (mf_Generation manifest <=? previous))
            (Errorf "manifest bundle %s has unordered generations");
      bundle_generations state bundle false (if first then mf_Generation manifest else firstG)
        (mf_Generation manifest) rest
  end.

Definition readManifestBundle (state : State) (ref : ManifestBundleRef) : result manifestBundle :=
  data ← wrap_err "read manifest bundle %s" (Get (bref_Key ref));
  _ ← fail_if (negb (bool_decide (bref_Key ref = bundle_key (st_Name state) data)))
        (Errorf "manifest bundle %s checksum mismatch");
  bundle ← wrap_err "decode manifest bundle %s" (Unmarshal data);
  _ ← fail_if (negb (bool_decide (mb_Format bundle = Format)) ||
               negb (bool_decide (mb_VolumeID bundle = st_ID state)) ||
               negb (mb_FirstGeneration bundle =? bref_FirstGeneration ref) ||
               negb (mb_LastGeneration bundle =? bref_LastGeneration ref) || bool_decide (mb_Manifests bundle = []))
        (Errorf "invalid manifest bundle %s");
  _ ← match mb_Parent bundle with
      | Some parent =>
          fail_if (negb (validManifestBundleRef (st_Name state) parent) ||
                   (mb_FirstGeneration bundle <=? bref_LastGeneration parent))
            (Errorf "manifest bundle %s has an invalid parent")
      | None => Ok tt
      end;
  '(first, previous) ← bundle_generations state bundle true 0 0 (mb_Manifests bundle);
  _ ← fail_if (negb (first =? mb_FirstGeneration bundle) || negb (previous =? mb_LastGeneration bundle))
        (Errorf "manifest bundle %s has an invalid generation range");
  Ok bundle.

Definition find_bundled (key : string) (bundle : manifestBundle) : option bundledManifest :=
  list_find (fun e => bm_Key e = key) (mb_Manifests bundle) ≫= fun p => Some p.2.

(** The bundle loop of [readManifestWithSourceCache]: where the manifest is, or
    [None] to read it as an object of its own. *)
Fixpoint search_bundles (fuel : nat) (state : State) (key : string) (expectedGeneration : Z)
    (bundleRef : option ManifestBundleRef) (bundles : bundle_cache)
    : result (option (Manifest * string) * bundle_cache) :=
  match bundleRef with
  | None => Ok (None, bundles)
  | Some ref =>
      if negb (expectedGeneration =? 0) && (expectedGeneration <=? bref_LastGeneration ref) then
        match fuel with
        | O => Err OutOfFuel
        | S fuel =>
            '(bundle, bundles) ←
              match bundles !! bref_Key ref with
              | Some bundle => Ok (bundle, bundles)
              | None =>
                  bundle ← readManifestBundle state ref;
                  Ok (bundle, <[bref_Key ref := bundle]> bundles)
              end;
            if bref_FirstGeneration ref <=? expectedGeneration then
              match find_bundled key bundle with
              | Some entry =>
                  manifest ← decodeManifest state key (bm_Body entry) expectedGeneration;
                  Ok (Some (manifest, bref_Key ref), bundles)
              | None => Ok (None, bundles)
              end
            else search_bundles fuel state key expectedGeneration (mb_Parent bundle) bundles
        end
      else Ok (None, bundles)
  end.

(** [readManifestWithSourceCache]: the manifest, the bundle it came from and the
    cache.  [fuel] bounds the walk along the bundle chain. *)
Definition readManifestWithSourceCache (fuel : nat) (state : State) (key : string) (expectedGeneration : Z)
    (bundles : bundle_cache) : result (Manifest * string * bundle_cache) :=
  match st_InlineManifests state !! key with
  | Some body =>
      manifest ← decodeManifest state key body expectedGeneration;
      Ok (manifest, EmptyString, bundles)
  | None =>
      '(found, bundles) ← search_bundles fuel state key expectedGeneration (st_ManifestBundle state) bundles;
      match found with
      | Some (manifest, bundle) => Ok (manifest, bundle, bundles)
      | None =>
          data ← wrap_err "read manifest %s" (Get key);
          manifest ← decodeManifest state key data expectedGeneration;
          Ok (manifest, EmptyString, bundles)
      end
  end.

Definition readManifestWithSource (fuel : nat) (state : State) (key : string) (expectedGeneration : Z)
    : result (Manifest * string) :=
  '(manifest, bundle, _) ← readManifestWithSourceCache fuel state key expectedGeneration ∅;
  Ok (manifest, bundle).

Definition readManifest (fuel : nat) (state : State) (key : string) (expectedGeneration : Z) : result Manifest :=
  '(manifest, _) ← readManifestWithSource fuel state key expectedGeneration;
  Ok manifest.

(** ** Chains *)

Record manifestEntry : Type := mkEntry { e_key : string; e_manifest : Manifest; e_bundle : string }.

Definition maxChain : Z := 1000000.

(** The loop of [restoreManifests]; [manifests] counts what was collected.  The
    count bounds it: [fuel] is taken from [maxChain]. *)
Fixpoint restore_chain (fuel bundleFuel : nat) (state : State) (key : string) (expectedGeneration manifests : Z)
    (bundles : bundle_cache) : result (list manifestEntry * Z) :=
  if bool_decide (key = EmptyString) then Ok ([], expectedGeneration) else
  match fuel with
  | O => Err OutOfFuel
  | S fuel =>
      '(manifest, bundle, bundles) ←
        readManifestWithSourceCache bundleFuel state key expectedGeneration bundles;
      let entry := mkEntry key manifest bundle in
      if bool_decide (mf_Kind manifest = "checkpoint") then Ok ([entry], 0) else
      _ ← fail_if (maxChain <? manifests + 1) (Errorf "manifest chain is too long");
      '(rest, expected) ←
        restore_chain fuel bundleFuel state (mf_Parent manifest) (u64 (expectedGeneration - 1)) (manifests + 1) bundles;
      Ok (entry :: rest, expected)
  end.

Definition chain_fuel : nat := Z.to_nat (maxChain + 2).

Definition restoreManifests (bundleFuel : nat) (state : State) : result (list manifestEntry) :=
  '(manifests, expectedGeneration) ←
    restore_chain chain_fuel bundleFuel state (st_Manifest state) (st_Generation state) 0 ∅;
  _ ← fail_if (negb (expectedGeneration =? 0)) (Errorf "manifest chain ended before generation zero");
  Ok manifests.

(** The loop of [loadHistory]. *)
Fixpoint history_chain (fuel bundleFuel : nat) (state : State) (key : string) (expectedGeneration collected : Z)
    (behindCheckpoint : bool) (bundles : bundle_cache) : result (list manifestEntry) :=
  if bool_decide (key = EmptyString) then Ok [] else
  match fuel with
  | O => Err OutOfFuel
  | S fuel =>
      match readManifestWithSourceCache bundleFuel state key expectedGeneration bundles with
      | Err e => if errors_Is e ErrNotFound && behindCheckpoint then Ok [] else Err e
      | Ok (manifest, bundle, bundles) =>
          let entry := mkEntry key manifest bundle in
          if mf_Generation manifest =? 1 then
            _ ← fail_if (negb (bool_decide (mf_Parent manifest = EmptyString)))
                  (Errorf "generation one manifest %s has a parent");
            Ok [entry]
          else
            let checkpoint := bool_decide (mf_Kind manifest = "checkpoint") in
            _ ← fail_if (bool_decide (mf_Parent manifest = EmptyString) && negb checkpoint)
                  (Errorf "manifest history ended before generation one");
            _ ← fail_if (maxChain <? collected + 1) (Errorf "manifest history is too long");
            rest ← history_chain fuel bundleFuel state (mf_Parent manifest) (u64 (expectedGeneration - 1))
                     (collected + 1) (behindCheckpoint || checkpoint) bundles;
            Ok (entry :: rest)
      end
  end.

Definition loadHistory (bundleFuel : nat) (state : State) : result (list manifestEntry) :=
  if st_Generation state =? 0 then Ok []
  else history_chain chain_fuel bundleFuel state (st_Manifest state) (st_Generation state) 0 false ∅.

Record RestoreOptions : Type := mkRestoreOptions { opt_Generation : Z; opt_Timestamp : Z }.

Definition selects (opts : RestoreOptions) (entry : manifestEntry) : bool :=
  (negb (opt_Generation opts =? 0) && (mf_Generation (e_manifest entry) =? opt_Generation opts)) ||
  (negb (time_IsZero (opt_Timestamp opts)) &&
   negb (time_After (mf_CreatedAt (e_manifest entry)) (opt_Timestamp opts))).

Definition selectHistory (bundleFuel : nat) (state : State) (opts : RestoreOptions) : result manifestEntry :=
  history ← loadHistory bundleFuel state;
  match list_find (fun e => selects opts e = true) history with
  | Some (_, entry) => Ok entry
  | None =>
      if negb (opt_Generation opts =? 0) then Err (Errorf "generation %d is not retained for volume %s")
      else Err (Errorf "no generation at or before %s is retained for volume %s")
  end.

(** ** What is read was decoded *)

Lemma search_bundles_decoded fuel state key g ref cache m src cache' :
  search_bundles fuel state key g ref cache = Ok (Some (m, src), cache') → ∃ body, decodeManifest state key body g = Ok m.
Proof.
  revert ref cache. induction fuel as [|fuel IH]; intros [ref|] cache; cbn [search_bundles]; try done; case_if; try done.
  intros ([bundle cache1] & _ & Hs)%result_bind_Ok. case_if_in Hs; [|by eapply IH]. destruct (find_bundled key bundle) as [entry|]; [|done].
  apply result_bind_Ok in Hs as (m' & Hd & [= <- _ _]). by exists (bm_Body entry).
Qed.

Lemma readManifest_decoded fuel state key g cache m src cache' :
  readManifestWithSourceCache fuel state key g cache = Ok (m, src, cache') → ∃ body, decodeManifest state key body g = Ok m.
Proof.
  unfold readManifestWithSourceCache. destruct (st_InlineManifests state !! key) as [body|].
  { intros (m' & Hd & [= <- _ _])%result_bind_Ok. by exists body. }
  intros ([[[m' src']|] cache1] & Hs & Hr)%result_bind_Ok; [injection Hr as <- _ _; by eapply search_bundles_decoded|].
  apply result_bind_Ok in Hr as (data & _ & Hr). apply result_bind_Ok in Hr as (m' & Hd & [= <- _ _]). by exists data.
Qed.
End manifest.
