(* ===== verification/Plan.v ===== *)
(** * Restore plans ([internal/replica/remote.go]: plans and restores)

    [restorePlan] turns the manifest chain into disjoint segment references,
    [applyDeltaToPlan] maintains such a plan as deltas are published,
    [applyObjectRefs] writes a plan into a sparse image. *)
From S2P Require Import Prelude Extents Codec File Segment Types Manifest.
Local Open Scope Z_scope.

(** ** Plans *)

Definition with_extents (ref : ObjectRef) (extents : list Extent) : ObjectRef :=
  mkObjectRef (ref_Key ref) (ref_SourceManifest ref) (ref_SourceBundle ref) (ref_SourceIndex ref)
    (ref_InlineData ref) (ref_SHA256 ref) (ref_Bytes ref) (ref_Blocks ref) extents [].

Definition with_source (ref : ObjectRef) (manifest bundle : string) (index : Z) (inline : bytes) : ObjectRef :=
  mkObjectRef (ref_Key ref) manifest bundle index inline (ref_SHA256 ref) (ref_Bytes ref) (ref_Blocks ref)
    (ref_Extents ref) (ref_ZeroExtents ref).

(** [restorePlan], one reference: inline data is located by its manifest. *)
Definition locate_inline (entry : manifestEntry) (index : Z) (original : ObjectRef) : ObjectRef :=
  if negb (bool_decide (ref_InlineData original = [])) && negb (bool_decide (e_key entry = EmptyString)) then
    with_source original (e_key entry) (e_bundle entry) (u32 index) (ref_InlineData original)
  else original.

(** The inner loop of [restorePlan]: the references of one manifest. *)
Fixpoint plan_segments (entry : manifestEntry) (covered : list Extent) (index : Z) (segments : list ObjectRef)
    : list ObjectRef :=
  match segments with
  | [] => []
  | original :: rest =>
      let original := locate_inline entry index original in
      let visible := subtractExtents (ref_Extents original) covered in
      let nonZero := subtractExtents visible (ref_ZeroExtents original) in
      let refs := plan_segments entry covered (index + 1) rest in
      if bool_decide (nonZero = []) then refs else with_extents original nonZero :: refs
  end.

(** The outer loop of [restorePlan]. *)
Fixpoint plan_entries (covered : list Extent) (entries : list manifestEntry) : list ObjectRef :=
  match entries with
  | [] => []
  | entry :: rest =>
      let segments := mf_Segments (e_manifest entry) in
      plan_segments entry covered 0 segments ++
      plan_entries (unionExtents covered (concat (ref_Extents <$> segments))) rest
  end.

(** The two loops of [applyDeltaToPlan]. *)
Fixpoint delta_refs (delta : list ObjectRef) : list ObjectRef :=
  match delta with
  | [] => []
  | original :: rest =>
      let visible := subtractExtents (ref_Extents original) (ref_ZeroExtents original) in
      if bool_decide (visible = []) then delta_refs rest else with_extents original visible :: delta_refs rest
  end.

Fixpoint surviving_refs (covered : list Extent) (current : list ObjectRef) : list ObjectRef :=
  match current with
  | [] => []
  | original :: rest =>
      let visible := subtractExtents (ref_Extents original) covered in
      if bool_decide (visible = []) then surviving_refs covered rest
      else with_extents original visible :: surviving_refs covered rest
  end.

Definition applyDeltaToPlan (current delta : list ObjectRef) : list ObjectRef :=
  let covered := foldl (fun covered original => unionExtents covered (ref_Extents original)) [] delta in
  delta_refs delta ++ surviving_refs covered current.

(** [checkpointRefs] of a prepared manifest with key [key]. *)
Fixpoint checkpointRefs (key : string) (index : Z) (segments : list ObjectRef) : list ObjectRef :=
  match segments with
  | [] => []
  | ref :: rest =>
      (if bool_decide (ref_InlineData ref = []) then ref
       else with_source ref key (ref_SourceBundle ref) (u32 index) []) :: checkpointRefs key (index + 1) rest
  end.

Definition checkpointReadyRefs (refs : list ObjectRef) : list ObjectRef :=
  (fun ref =>
     if bool_decide (ref_SourceManifest ref = EmptyString) then ref
     else with_source ref (ref_SourceManifest ref) (ref_SourceBundle ref) (ref_SourceIndex ref) []) <$> refs.

Section restore.
Context `{Digest} `{Gzip} `{Json Manifest} `{Json manifestBundle}.
Context (Get : string → result bytes).

Definition restorePlan (bundleFuel : nat) (state : State) : result (list ObjectRef) :=
  manifests ← restoreManifests Get bundleFuel state;
  Ok (plan_entries [] manifests).

(** ** [manifestSourceLoader]

    Its fields apart from the store are the volume's identity, the inline
    manifests and the head of the bundle chain; the bundle cache is passed
    along. *)
Record loader : Type := mkLoader {
  ld_volumeID : string;
  ld_inline : gmap string bytes;
  ld_head : option ManifestBundleRef;
}.

Definition newManifestSourceLoader (state : State) : loader :=
  mkLoader (st_ID state) (st_InlineManifests state) (st_ManifestBundle state).

(** The reading part of [loadBundleLocked]. *)
Definition fetch_bundle (l : loader) (bundleKey : string) : result manifestBundle :=
  data ← wrap_err "read manifest bundle %s" (Get bundleKey);
  _ ← fail_if (negb (HasSuffix bundleKey ("/manifest-bundles/" +:+ hex_EncodeToString (sha256 data) +:+ ".json")))
        (Errorf "manifest bundle %s checksum mismatch");
  bundle ← wrap_err "decode manifest bundle %s" (Unmarshal data);
  _ ← fail_if (negb (bool_decide (mb_Format bundle = Format)) ||
               negb (bool_decide (mb_VolumeID bundle = ld_volumeID l)) || bool_decide (mb_Manifests bundle = []))
        (Errorf "invalid manifest bundle %s");
  Ok bundle.

Definition loadBundleLocked (l : loader) (cache : bundle_cache) (bundleKey : string)
    : bundle_cache * result manifestBundle :=
  match cache !! bundleKey with
  | Some bundle => (cache, Ok bundle)
  | None =>
      match fetch_bundle l bundleKey with
      | Ok bundle => (<[bundleKey := bundle]> cache, Ok bundle)
      | Err e => (cache, Err e)
      end
  end.

Definition manifestBody (l : loader) (cache : bundle_cache) (bundleKey manifestKey : string)
    : bundle_cache * result bytes :=
  match loadBundleLocked l cache bundleKey with
  | (cache, Err e) => (cache, Err e)
  | (cache, Ok bundle) =>
      match find_bundled manifestKey bundle with
      | Some entry => (cache, Ok (bm_Body entry))
      | None => (cache, Err (Errorf "manifest %s is absent from bundle %s"))
      end
  end.

(** [searchBundleChain] from [ref] on: the body and the keys visited. *)
Fixpoint searchBundleChain (fuel : nat) (l : loader) (cache : bundle_cache) (manifestKey : string)
    (ref : option ManifestBundleRef) : bundle_cache * result (option bytes * list string) :=
  match ref with
  | None => (cache, Ok (None, []))
  | Some ref =>
      match fuel with
      | O => (cache, Err OutOfFuel)
      | S fuel =>
          match loadBundleLocked l cache (bref_Key ref) with
          | (cache, Err e) => (cache, Err e)
          | (cache, Ok bundle) =>
              match find_bundled manifestKey bundle with
              | Some entry => (cache, Ok (Some (bm_Body entry), [bref_Key ref]))
              | None =>
                  match searchBundleChain fuel l cache manifestKey (mb_Parent bundle) with
                  | (cache, Ok (body, path)) => (cache, Ok (body, bref_Key ref :: path))
                  | (cache, Err e) => (cache, Err e)
                  end
              end
          end
      end
  end.

Definition resolve (fuel : nat) (l : loader) (cache : bundle_cache) (manifestKey : string)
    : bundle_cache * result bytes :=
  match ld_inline l !! manifestKey with
  | Some body => (cache, Ok body)
  | None =>
      match searchBundleChain fuel l cache manifestKey (ld_head l) with
      | (cache, Ok (Some body, _)) => (cache, Ok body)
      | (cache, Ok (None, _)) => (cache, Get manifestKey)
      | (cache, Err e) => if errors_Is e ErrNotFound then (cache, Get manifestKey) else (cache, Err e)
      end
  end.

Definition findBundlePath (fuel : nat) (l : loader) (cache : bundle_cache) (manifestKey : string)
    : bundle_cache * result (option (list string)) :=
  match ld_inline l !! manifestKey with
  | Some _ => (cache, Ok None)
  | None =>
      match searchBundleChain fuel l cache manifestKey (ld_head l) with
      | (cache, Ok (Some _, path)) => (cache, Ok (Some path))
      | (cache, Ok (None, _)) => (cache, Ok None)
      | (cache, Err e) => (cache, Err e)
      end
  end.

(** The checks of [inlineSegment] on the manifest body it found. *)
Definition inline_data (ref : ObjectRef) (sourceBody : bytes) : result bytes :=
  _ ← fail_if (negb (HasSuffix (ref_SourceManifest ref)
                       ("/manifests/" +:+ hex_EncodeToString (sha256 sourceBody) +:+ ".json")))
        (Errorf "inline segment manifest %s checksum mismatch");
  source ← wrap_err "decode inline segment manifest %s" (Unmarshal sourceBody);
  match mf_Segments source !! Z.to_nat (ref_SourceIndex ref) with
  | None => Err (Errorf "inline segment index %d is outside manifest %s")
  | Some sourceRef =>
      _ ← fail_if (bool_decide (ref_InlineData sourceRef = []) ||
                   negb (bool_decide (ref_SHA256 sourceRef = ref_SHA256 ref)) ||
                   negb (ref_Bytes sourceRef =? ref_Bytes ref) || negb (ref_Blocks sourceRef =? ref_Blocks ref) ||
                   negb (Z.of_nat (length (ref_InlineData sourceRef)) =? ref_Bytes ref) ||
                   negb (bool_decide (hex_EncodeToString (sha256 (ref_InlineData sourceRef)) = ref_SHA256 ref)))
            (Errorf "inline segment %d in manifest %s does not match its reference");
      Ok (ref_InlineData sourceRef)
  end.

Definition inlineSegment (fuel : nat) (l : loader) (cache : bundle_cache) (ref : ObjectRef)
    : bundle_cache * result bytes :=
  let '(cache, sourceBody) :=
    if bool_decide (ref_SourceBundle ref = EmptyString) then resolve fuel l cache (ref_SourceManifest ref)
    else manifestBody l cache (ref_SourceBundle ref) (ref_SourceManifest ref) in
  (cache, body ← wrap_err "read inline segment manifest %s" sourceBody; inline_data ref body).

(** ** Applying a plan *)

(** The first half of [applyObjectRef]: the segment's bytes. *)
Definition segment_data (fuel : nat) (l : loader) (cache : bundle_cache) (ref : ObjectRef)
    : bundle_cache * result bytes :=
  if bool_decide (ref_InlineData ref = []) then
    if bool_decide (ref_SourceManifest ref = EmptyString) then
      (cache, wrap_err "read segment %s" (Get (ref_Key ref)))
    else inlineSegment fuel l cache ref
  else (cache, Ok (ref_InlineData ref)).

(** The checks of [applyObjectRef] on the bytes: the runs to write. *)
Definition segment_runs (ref : ObjectRef) (data : bytes) : result (list decodedRun) :=
  runs ← wrap_err "decode segment %s"
           (decodeSegment (mkSegment data (ref_SHA256 ref) (ref_Bytes ref) (ref_Blocks ref) [] []));
  _ ← fail_if (negb (extentsContain (extent <$> runs) (ref_Extents ref)))
        (Errorf "segment %s does not contain its manifest extents");
  Ok runs.

(** The nil slice of Go is the empty list here. *)
Definition slice_arg (es : list Extent) : option (list Extent) :=
  if bool_decide (es = []) then None else Some es.

Definition applyObjectRef (fuel : nat) (l : loader) (cache : bundle_cache) (f : File) (size : Z) (ref : ObjectRef)
    : bundle_cache * File * option error :=
  match segment_data fuel l cache ref with
  | (cache, Err e) => (cache, f, Some e)
  | (cache, Ok data) =>
      match segment_runs ref data with
      | Err e => (cache, f, Some e)
      | Ok runs =>
          match applyRuns f size runs (slice_arg (ref_Extents ref)) with
          | (f, Some e) => (cache, f, Some (Wrap "apply segment %s" e))
          | (f, None) => (cache, f, None)
          end
      end
  end.

(** [applyObjectRefs] hands the references to up to four workers; [refs] is
    the order in which they take effect.  The first error stops the rest. *)
Fixpoint applyObjectRefs (fuel : nat) (l : loader) (cache : bundle_cache) (f : File) (size : Z)
    (refs : list ObjectRef) : File * option error :=
  match refs with
  | [] => (f, None)
  | ref :: rest =>
      match applyObjectRef fuel l cache f size ref with
      | (cache, f, Some e) => (f, Some e)
      | (cache, f, None) => applyObjectRefs fuel l cache f size rest
      end
  end.

(** [createSparseImage]; [created] is the error of creating or truncating the
    file, or the outcomes the system will give the calls on it. *)
Definition createSparseImage (created : result (list IOutcome)) (size : Z) : result File :=
  script ← created; Ok (mkFile (replicate (Z.to_nat size) x00) script).

(** [RestoreState]; [schedule] is the order in which the workers finish. *)
Definition RestoreState (fuel : nat) (created : result (list IOutcome)) (schedule : list ObjectRef → list ObjectRef) (state : State)
    : result (File * option error) :=
  _ ← validateState (st_Name state) state;
  refs ← restorePlan fuel state;
  f ← createSparseImage created (st_Size state);
  Ok (applyObjectRefs fuel (newManifestSourceLoader state) ∅ f (st_Size state) (schedule refs)).
End restore.

(** ** Well-formed references *)

Definition ref_wf (hi : Z) (ref : ObjectRef) : Prop :=
  wf_extents hi (ref_Extents ref) ∧ wf_extents hi (ref_ZeroExtents ref) ∧
  ∀ b, covers (ref_ZeroExtents ref) b → covers (ref_Extents ref) b.

(** The blocks of a reference, and of a list of references, in order. *)
Definition ref_blocks (ref : ObjectRef) : list Z := concat (expand <$> ref_Extents ref).
Definition refs_blocks (refs : list ObjectRef) : list Z := concat (ref_blocks <$> refs).

(** References that never name a block twice. *)
Definition disjoint_refs (refs : list ObjectRef) : Prop := NoDup (refs_blocks refs).

Definition segments_wf (hi : Z) (refs : list ObjectRef) : Prop := Forall (ref_wf hi) refs ∧ disjoint_refs refs.

(** The reference that covers block [b]. *)
Fixpoint ref_for (refs : list ObjectRef) (b : Z) : option ObjectRef :=
  match refs with
  | [] => None
  | ref :: rest => if decide (covers (ref_Extents ref) b) then Some ref else ref_for rest b
  end.

(** A reference apart from its extents: where its data is. *)
Definition located (ref : ObjectRef) : ObjectRef := with_extents ref [].

Lemma elem_of_ref_blocks ref b : b ∈ ref_blocks ref ↔ covers (ref_Extents ref) b.
Proof. symmetry. apply covers_expand. Qed.

Lemma refs_blocks_cons ref refs : refs_blocks (ref :: refs) = ref_blocks ref ++ refs_blocks refs.
Proof. done. Qed.

Lemma elem_of_refs_blocks refs b : b ∈ refs_blocks refs ↔ is_Some (ref_for refs b).
Proof.
  induction refs as [|r refs IH]; cbn [ref_for].
  { split; [by intros ?%elem_of_nil|by intros [? ?]]. }
  rewrite refs_blocks_cons, elem_of_app, elem_of_ref_blocks, IH.
  destruct (decide _); split; eauto; tauto.
Qed.

Lemma ref_for_elem refs b r : ref_for refs b = Some r → r ∈ refs ∧ covers (ref_Extents r) b.
Proof.
  induction refs as [|x refs IH]; cbn [ref_for]; [done|]. destruct (decide _).
  - intros [= <-]. split; [apply list_elem_of_here|done].
  - intros [? ?]%IH. split; [by apply list_elem_of_further|done].
Qed.

Lemma disjoint_refs_cons r refs :
  disjoint_refs (r :: refs) → disjoint_refs refs ∧ ∀ b, covers (ref_Extents r) b → ref_for refs b = None.
Proof.
  unfold disjoint_refs. rewrite refs_blocks_cons. intros (_ & Hno & Hnd)%NoDup_app. split; [done|].
  intros b Hb. apply eq_None_not_Some. rewrite <-elem_of_refs_blocks. apply Hno. by apply elem_of_ref_blocks.
Qed.

Lemma disjoint_refs_intro r refs :
  NoDup (ref_blocks r) → disjoint_refs refs → (∀ b, covers (ref_Extents r) b → ref_for refs b = None) →
  disjoint_refs (r :: refs).
Proof.
  intros Hr Hrs Hno. unfold disjoint_refs. rewrite refs_blocks_cons. apply NoDup_app. split_and!; [done| |done].
  intros b Hb%elem_of_ref_blocks. rewrite elem_of_refs_blocks, (Hno b Hb). by intros [? ?].
Qed.

Lemma disjoint_refs_app xs ys :
  disjoint_refs xs → disjoint_refs ys → (∀ b, is_Some (ref_for xs b) → ref_for ys b = None) →
  disjoint_refs (xs ++ ys).
Proof.
  intros Hx Hy Hno. unfold disjoint_refs, refs_blocks in *. rewrite fmap_app, concat_app. apply NoDup_app.
  split_and!; [done| |done]. intros b Hb%elem_of_refs_blocks Hyb.
  change (b ∈ refs_blocks ys) in Hyb. rewrite elem_of_refs_blocks, (Hno b Hb) in Hyb. by destruct Hyb.
Qed.

Lemma ref_for_app xs ys b :
  ref_for (xs ++ ys) b = match ref_for xs b with Some r => Some r | None => ref_for ys b end.
Proof. induction xs as [|x xs IH]; [done|]. cbn [app ref_for]. by destruct (decide _). Qed.

(** Disjoint references can be listed in any order. *)
Lemma ref_for_Permutation xs ys b : disjoint_refs xs → xs ≡ₚ ys → ref_for xs b = ref_for ys b.
Proof.
  intros Hd Hp. revert Hd. induction Hp as [|x xs ys Hp IH|x y xs|xs ys zs Hp1 IH1 Hp2 IH2]; intros Hd.
  - done.
  - cbn [ref_for]. destruct (decide _); [done|]. apply IH. by apply disjoint_refs_cons in Hd as [? _].
  - cbn [ref_for]. apply disjoint_refs_cons in Hd as [_ Hno]. specialize (Hno b). cbn [ref_for] in Hno.
    destruct (decide (covers (ref_Extents x) b)), (decide (covers (ref_Extents y) b)); try done.
    by specialize (Hno ltac:(done)).
  - rewrite IH1 by done. apply IH2. unfold disjoint_refs, refs_blocks in *. by rewrite <-Hp1.
Qed.

Lemma wf_extents_NoDup lo hi es : wf_from lo hi es → NoDup (concat (expand <$> es)).
Proof.
  revert lo. induction es as [|e es IH]; intros lo; cbn [wf_from fmap list_fmap concat]; [constructor|].
  intros (_ & _ & _ & Hwf). apply NoDup_app. split_and!; [apply NoDup_seqZ| |by eapply IH].
  intros b Hb%elem_of_expand Hc%covers_expand. apply (wf_from_covers _ _ _ _ Hwf) in Hc. unfold in_extent in Hb. lia.
Qed.

Lemma block_count_length lo hi es : wf_from lo hi es → Z.of_nat (length (concat (expand <$> es))) = block_count es.
Proof.
  intros Hwf. apply block_count_concat. revert lo Hwf. induction es as [|e es IH]; intros lo; [constructor|].
  intros (_ & Hpos & _ & Hwf). constructor; [done|by eapply IH].
Qed.

(** ** Validated manifests *)

(** The fields of a decoded reference are in their Go ranges. *)
Definition ref_typed (ref : ObjectRef) : Prop :=
  Forall extent_u64 (ref_Extents ref) ∧ Forall extent_u64 (ref_ZeroExtents ref).

Definition manifest_typed (m : Manifest) : Prop := Forall ref_typed (mf_Segments m).

Section validated.
Context `{Digest} (hi : Z) (Hhi : block_bound hi).

Lemma validate_ref_wf name kind ref blocks :
  ref_typed ref → validate_ref name kind hi ref = Ok blocks →
  ref_wf hi ref ∧ ref_Extents ref ≠ [] ∧ blocks = block_count (ref_Extents ref) ∧ 0 ≤ blocks.
Proof.
  intros [Hte Htz] Hv. unfold validate_ref in Hv.
  apply result_bind_Ok in Hv as (u1 & H1%fail_if_Ok & Hv). apply result_bind_Ok in Hv as (u2 & _ & Hv).
  apply result_bind_Ok in Hv as (kinds & _ & Hv). apply result_bind_Ok in Hv as (u3 & _ & Hv).
  apply result_bind_Ok in Hv as (bl & Hbl & Hv). apply result_bind_Ok in Hv as (u4 & H4%fail_if_Ok & Hv).
  injection Hv as ->. destruct (validateExtents (ref_Extents ref) hi) as [n|] eqn:He; [|done].
  apply result_bind_Ok in Hbl as (u5 & _ & Hbl). injection Hbl as ->.
  apply validateExtents_spec in He as [Hwf ->]; [|done..].
  apply orb_false_iff in H4 as [Hz Hc]. unfold is_err in Hz.
  destruct (validateExtents (ref_ZeroExtents ref) hi) as [nz|] eqn:Hez; [|done].
  apply validateExtents_spec in Hez as [Hwfz _]; [|done..]. apply negb_false_iff in Hc.
  rewrite (extentsContain_from 0 0 hi hi) in Hc by done.
  apply orb_false_iff in H1 as [_ Hne]. apply bool_decide_eq_false in Hne.
  split_and!; [by split_and!|done|done|]. unfold block_bound in Hhi.
  pose proof (block_count_bound 0 hi (ref_Extents ref) ltac:(lia) Hwf). lia.
Qed.

Lemma validate_refs_wf name kind refs acc n acc' n' :
  Forall ref_typed refs → validate_refs name kind hi refs acc n = Ok (acc', n') →
  Forall (ref_wf hi) refs ∧ Forall (fun r => ref_Extents r ≠ []) refs ∧
  acc' = acc ++ concat (ref_Extents <$> refs) ∧
  n' = n + Z.of_nat (length (refs_blocks refs)).
Proof.
  revert acc n. induction refs as [|r refs IH]; intros acc n Hty Hv.
  { injection Hv as <- <-. cbn. rewrite app_nil_r. split_and!; try constructor. lia. }
  apply Forall_cons in Hty as [Htr Hty]. cbn [validate_refs] in Hv.
  apply result_bind_Ok in Hv as (blocks & Hr & Hv). apply result_bind_Ok in Hv as (u1 & _ & Hv).
  apply validate_ref_wf in Hr as (Hwf & Hne & -> & _); [|done]. apply IH in Hv as (Hwfs & Hnes & -> & ->); [|done].
  split_and!; [by constructor|by constructor| |].
  - cbn [fmap list_fmap concat]. by rewrite <-app_assoc.
  - rewrite refs_blocks_cons, length_app. destruct Hwf as (Hwf & _). unfold ref_blocks.
    rewrite Nat2Z.inj_add, (block_count_length 0 hi) by done. lia.
Qed.

Lemma expand_concat refs : concat (expand <$> concat (ref_Extents <$> refs)) = refs_blocks refs.
Proof.
  induction refs as [|r refs IH]; [done|]. cbn [fmap list_fmap concat]. rewrite fmap_app, concat_app.
  by rewrite refs_blocks_cons, <-IH.
Qed.

(** Counting every block once means that no block is counted twice. *)
Lemma counted_disjoint refs :
  Forall (ref_wf hi) refs →
  block_count (unionExtents [] (concat (ref_Extents <$> refs))) = Z.of_nat (length (refs_blocks refs)) →
  disjoint_refs refs.
Proof.
  intros Hwf Hcount.
  destruct (union_spec hi [] (concat (ref_Extents <$> refs)) Hhi) as [Hn Hc]; [done| |].
  { apply Forall_concat, Forall_fmap. eapply Forall_impl; [exact Hwf|]. intros r (Hr & _). by apply wf_extents_in. }
  apply normal_extents_wf in Hn. set (u := unionExtents [] _) in *.
  rewrite <-(block_count_length 0 hi u Hn) in Hcount. apply Nat2Z.inj in Hcount.
  unfold disjoint_refs. apply NoDup_ListNoDup.
  apply (List.NoDup_incl_NoDup (l := concat (expand <$> u))).
  - apply NoDup_ListNoDup. by eapply wf_extents_NoDup.
  - lia.
  - intros b Hb. apply list_elem_of_In in Hb. apply list_elem_of_In. rewrite <-expand_concat.
    rewrite <-covers_expand in Hb |- *. rewrite Hc, covers_nil in Hb. tauto.
Qed.
End validated.

Lemma validateManifest_wf `{Digest} state m g :
  let hi := st_Size state `quot` st_BlockSize state in
  block_bound hi → manifest_typed m → validateManifest state m g = Ok tt →
  segments_wf hi (mf_Segments m) ∧ Forall (fun r => ref_Extents r ≠ []) (mf_Segments m) ∧
  mf_Generation m = g ∧ g ≠ 0 ∧ (mf_Kind m = "delta" ∨ mf_Kind m = "checkpoint").
Proof.
  intros hi Hhi Hty Hv. unfold validateManifest in Hv.
  apply result_bind_Ok in Hv as (u1 & _ & Hv). apply result_bind_Ok in Hv as (u2 & Hg%fail_if_Ok & Hv).
  apply result_bind_Ok in Hv as (u3 & Hk & Hv). fold hi in Hv.
  apply result_bind_Ok in Hv as ([exts n] & Hrefs & Hv).
  apply (validate_refs_wf hi Hhi) in Hrefs as (Hwf & Hne & -> & ->); [|done]. cbn [app] in Hv.
  destruct (validateExtents _ hi) as [c|] eqn:Hc; [|done]. apply fail_if_Ok in Hv. zbool. subst c.
  split_and!; try done.
  - split; [done|]. apply (counted_disjoint hi Hhi); [done|].
    destruct (union_spec hi [] (concat (ref_Extents <$> mf_Segments m)) Hhi) as [Hn _]; [done| |].
    { apply Forall_concat, Forall_fmap. eapply Forall_impl; [exact Hwf|]. intros r (Hr & _). by apply wf_extents_in. }
    apply normal_extents_wf in Hn. rewrite validateExtents_complete in Hc by done. injection Hc as Hc. lia.
  - destruct (bool_decide (mf_Kind m = "delta")) eqn:Hd; [left; by apply bool_decide_eq_true in Hd|right].
    apply fail_if_Ok, negb_false_iff, bool_decide_eq_true in Hk. done.
Qed.

(** ** What a plan selects *)

Section plans.
Context (hi : Z) (Hhi : block_bound hi).

Fixpoint locate_all (entry : manifestEntry) (index : Z) (segments : list ObjectRef) : list ObjectRef :=
  match segments with
  | [] => []
  | s :: rest => locate_inline entry index s :: locate_all entry (index + 1) rest
  end.

Lemma locate_inline_extents entry index r :
  ref_Extents (locate_inline entry index r) = ref_Extents r ∧
  ref_ZeroExtents (locate_inline entry index r) = ref_ZeroExtents r.
Proof. unfold locate_inline. by destruct (negb _ && negb _). Qed.

Lemma locate_all_blocks entry index refs : ref_blocks <$> locate_all entry index refs = ref_blocks <$> refs.
Proof.
  revert index. induction refs as [|r refs IH]; intros index; [done|]. cbn [locate_all fmap list_fmap]. f_equal; [|apply IH].
  unfold ref_blocks. by destruct (locate_inline_extents entry index r) as [-> _].
Qed.

Lemma locate_all_wf entry index refs : segments_wf hi refs → segments_wf hi (locate_all entry index refs).
Proof.
  intros [Hwf Hd]. split.
  - clear Hd. revert index. induction Hwf as [|r refs Hr _ IH]; intros index; constructor; [|apply IH].
    unfold ref_wf in *. by destruct (locate_inline_extents entry index r) as [-> ->].
  - unfold disjoint_refs, refs_blocks in *. by rewrite locate_all_blocks.
Qed.

(** The newest reference to block [b] in a chain, newest manifest first. *)
Fixpoint newest (entries : list manifestEntry) (b : Z) : option ObjectRef :=
  match entries with
  | [] => None
  | entry :: rest =>
      match ref_for (locate_all entry 0 (mf_Segments (e_manifest entry))) b with
      | Some r => Some r
      | None => newest rest b
      end
  end.

(** It supplies the block unless it records it as zero. *)
Definition nonzero_ref (r : option ObjectRef) (b : Z) : option ObjectRef :=
  match r with
  | Some r => if decide (covers (ref_ZeroExtents r) b) then None else Some r
  | None => None
  end.

Definition entries_wf (entries : list manifestEntry) : Prop :=
  Forall (fun e => segments_wf hi (mf_Segments (e_manifest e))) entries.

(** What restricting a reference to some of its blocks leaves. *)
Definition restricted (r : ObjectRef) (es : list Extent) : list ObjectRef :=
  if bool_decide (es = []) then [] else [with_extents r es].

Lemma restricted_for r es b :
  located <$> ref_for (restricted r es) b = if decide (covers es b) then Some (located r) else None.
Proof.
  unfold restricted. case_bool_decide as Hes.
  - subst. rewrite decide_False; [done|]. by intros ?%covers_nil.
  - cbn [ref_for with_extents ref_Extents]. by destruct (decide _).
Qed.

Definition plan_ref_wf (r : ObjectRef) : Prop := wf_extents hi (ref_Extents r) ∧ ref_Extents r ≠ [].

Lemma restricted_wf r es : wf_extents hi es → Forall plan_ref_wf (restricted r es).
Proof. intros Hes. unfold restricted. case_bool_decide; repeat constructor; done. Qed.

Lemma restricted_disjoint r es rest :
  wf_extents hi es → disjoint_refs rest → (∀ b, covers es b → ref_for rest b = None) →
  disjoint_refs (restricted r es ++ rest).
Proof.
  intros Hes Hd Hno. unfold restricted. case_bool_decide; [done|]. cbn [app].
  apply disjoint_refs_intro; [|done|done]. by eapply wf_extents_NoDup.
Qed.

Lemma plan_segments_unfold entry covered index r rest :
  plan_segments entry covered index (r :: rest) =
  restricted (locate_inline entry index r)
    (subtractExtents (subtractExtents (ref_Extents r) covered) (ref_ZeroExtents r)) ++
  plan_segments entry covered (index + 1) rest.
Proof.
  cbn [plan_segments]. destruct (locate_inline_extents entry index r) as [-> ->].
  unfold restricted. by case_bool_decide.
Qed.

Lemma nonzero_extents_spec r covered :
  ref_wf hi r → wf_extents hi covered →
  wf_extents hi (subtractExtents (subtractExtents (ref_Extents r) covered) (ref_ZeroExtents r)) ∧
  ∀ b, covers (subtractExtents (subtractExtents (ref_Extents r) covered) (ref_ZeroExtents r)) b ↔
    covers (ref_Extents r) b ∧ ¬ covers covered b ∧ ¬ covers (ref_ZeroExtents r) b.
Proof.
  intros (He & Hz & _) Hc. destruct (subtractExtents_spec hi _ _ Hhi He Hc) as [H1 H2].
  destruct (subtractExtents_spec hi _ _ Hhi H1 Hz) as [H3 H4]. split; [done|]. intros b. rewrite H4, H2. tauto.
Qed.

Lemma plan_segments_spec entry covered index segs :
  segments_wf hi segs → wf_extents hi covered →
  Forall plan_ref_wf (plan_segments entry covered index segs) ∧
  disjoint_refs (plan_segments entry covered index segs) ∧
  ∀ b, located <$> ref_for (plan_segments entry covered index segs) b =
    if decide (covers covered b) then None
    else located <$> nonzero_ref (ref_for (locate_all entry index segs) b) b.
Proof.
  intros [Hwf Hd] Hc. revert index Hd. induction Hwf as [|r segs Hr _ IH]; intros index Hd.
  { split_and!; [constructor|apply NoDup_nil_2|]. intros b. by destruct (decide _). }
  destruct (disjoint_refs_cons _ _ Hd) as [Hd' Hno]. destruct (IH (index + 1) Hd') as (Hp & Hdis & Hfor). clear IH.
  destruct (nonzero_extents_spec r covered Hr Hc) as [Hnw Hnc]. rewrite plan_segments_unfold.
  set (nz := subtractExtents _ _) in *. destruct (locate_inline_extents entry index r) as [HlE HlZ].
  assert (∀ b, covers (ref_Extents r) b → ref_for (plan_segments entry covered (index + 1) segs) b = None ∧
    ref_for (locate_all entry (index + 1) segs) b = None) as Hrest.
  { intros b Hb. assert (ref_for (locate_all entry (index + 1) segs) b = None) as Hl.
    { specialize (Hno b Hb). apply eq_None_not_Some. apply eq_None_not_Some in Hno. contradict Hno.
      rewrite <-elem_of_refs_blocks in Hno |- *. unfold refs_blocks in *. by rewrite locate_all_blocks in Hno. }
    split; [|done]. specialize (Hfor b). rewrite Hl in Hfor. cbn [nonzero_ref fmap option_fmap option_map] in Hfor.
    destruct (ref_for (plan_segments _ _ _ _) b); [by destruct (decide _)|done]. }
  split_and!.
  - apply Forall_app. split; [by apply restricted_wf|done].
  - apply restricted_disjoint; [done..|]. intros b [Hb _]%Hnc. by apply Hrest.
  - intros b. rewrite ref_for_app. specialize (Hfor b). pose proof (restricted_for (locate_inline entry index r) nz b) as Hres.
    cbn [locate_all ref_for]. rewrite HlE. specialize (Hrest b). specialize (Hnc b).
    destruct (ref_for (restricted _ nz) b) as [x|]; cbn [fmap option_fmap option_map] in *.
    + destruct (decide (covers nz b)) as [Hnz|]; [|done]. destruct Hnc as [Hnc _]. destruct (Hnc Hnz) as (HE & HC & HZ).
      rewrite decide_False by done. rewrite decide_True by done. cbn [nonzero_ref]. rewrite HlZ, decide_False by done. done.
    + destruct (decide (covers nz b)) as [|Hnz]; [done|]. rewrite Hfor. destruct (decide (covers covered b)) as [|HC]; [done|].
      destruct (decide (covers (ref_Extents r) b)) as [HE|HE]; [|done].
      destruct (Hrest HE) as [_ ->]. cbn [nonzero_ref]. rewrite HlZ. destruct (decide (covers (ref_ZeroExtents r) b)); [done|tauto].
Qed.

Lemma covered_extents_in segs : segments_wf hi segs → Forall (extent_in hi) (concat (ref_Extents <$> segs)).
Proof.
  intros [Hwf _]. apply Forall_concat, Forall_fmap. eapply Forall_impl; [exact Hwf|]. intros r (Hr & _). by apply wf_extents_in.
Qed.

Lemma covers_segments entry index segs b :
  covers (concat (ref_Extents <$> segs)) b ↔ is_Some (ref_for (locate_all entry index segs) b).
Proof.
  rewrite covers_expand, expand_concat, <-elem_of_refs_blocks. unfold refs_blocks. by rewrite locate_all_blocks.
Qed.

Lemma plan_entries_spec covered entries :
  entries_wf entries → wf_extents hi covered →
  Forall plan_ref_wf (plan_entries covered entries) ∧ disjoint_refs (plan_entries covered entries) ∧
  ∀ b, located <$> ref_for (plan_entries covered entries) b =
    if decide (covers covered b) then None else located <$> nonzero_ref (newest entries b) b.
Proof.
  intros Hwf. revert covered. induction Hwf as [|e entries He _ IH]; intros covered Hc.
  { split_and!; [constructor|apply NoDup_nil_2|]. intros b. by destruct (decide _). }
  set (segs := mf_Segments (e_manifest e)) in *. cbn [plan_entries]. fold segs.
  destruct (union_spec hi covered (concat (ref_Extents <$> segs)) Hhi Hc) as [Hun Huc]; [by apply covered_extents_in|].
  apply normal_extents_wf in Hun. destruct (IH _ Hun) as (Hp & Hd & Hfor).
  destruct (plan_segments_spec e covered 0 segs He Hc) as (Hps & Hds & Hfs).
  assert (∀ b, is_Some (ref_for (plan_segments e covered 0 segs) b) → ref_for (plan_entries (unionExtents covered (concat (ref_Extents <$> segs))) entries) b = None) as Hno.
  { intros b Hb. specialize (Hfs b). specialize (Hfor b). rewrite decide_True in Hfor.
    - destruct (ref_for (plan_entries _ entries) b); [discriminate Hfor|done].
    - apply Huc. right. apply (covers_segments e 0). destruct Hb as [x Hx]. rewrite Hx in Hfs.
      destruct (decide (covers covered b)); [discriminate Hfs|]. destruct (ref_for (locate_all e 0 segs) b); [eauto|discriminate Hfs]. }
  split_and!; [by apply Forall_app|by apply disjoint_refs_app|].
  intros b. rewrite ref_for_app. specialize (Hfs b). specialize (Hfor b). cbn [newest]. fold segs.
  pose proof (covers_segments e 0 segs b) as Hcs. specialize (Huc b).
  destruct (ref_for (plan_segments e covered 0 segs) b) as [x|] eqn:Hx; cbn [fmap option_fmap option_map] in *.
  - destruct (decide (covers covered b)); [done|]. by destruct (ref_for (locate_all e 0 segs) b).
  - rewrite Hfor. destruct (decide (covers covered b)) as [Hcb|Hcb].
    + rewrite decide_True by tauto. done.
    + destruct (ref_for (locate_all e 0 segs) b) as [y|].
      * rewrite decide_True by (apply Huc; right; apply Hcs; eauto). done.
      * rewrite decide_False; [done|]. rewrite Huc, Hcs. intros [|[? ?]]; done.
Qed.
End plans.

(** ** Incremental plans *)

Section incremental.
Context (hi : Z) (Hhi : block_bound hi).

Lemma delta_refs_unfold r rest :
  delta_refs (r :: rest) = restricted r (subtractExtents (ref_Extents r) (ref_ZeroExtents r)) ++ delta_refs rest.
Proof. cbn [delta_refs]. unfold restricted. by case_bool_decide. Qed.

Lemma surviving_refs_unfold covered r rest :
  surviving_refs covered (r :: rest) =
  restricted r (subtractExtents (ref_Extents r) covered) ++ surviving_refs covered rest.
Proof. cbn [surviving_refs]. unfold restricted. by case_bool_decide. Qed.

Lemma delta_refs_spec delta :
  segments_wf hi delta →
  ∀ b, located <$> ref_for (delta_refs delta) b = located <$> nonzero_ref (ref_for delta b) b.
Proof.
  intros [Hwf Hd] b. induction Hwf as [|r delta (He & Hz & Hsub) _ IH]; [done|].
  destruct (disjoint_refs_cons _ _ Hd) as [Hd' Hno]. specialize (IH Hd').
  rewrite delta_refs_unfold, ref_for_app. cbn [ref_for].
  destruct (subtractExtents_spec hi _ _ Hhi He Hz) as [Hw Hc].
  pose proof (restricted_for r (subtractExtents (ref_Extents r) (ref_ZeroExtents r)) b) as Hres.
  specialize (Hc b). specialize (Hno b).
  destruct (ref_for (restricted _ _) b) as [x|]; cbn [fmap option_fmap option_map] in *.
  - destruct (decide (covers (subtractExtents _ _) b)) as [Hs|]; [|done]. destruct Hc as [Hc _]. destruct (Hc Hs) as [HE HZ].
    rewrite decide_True by done. cbn [nonzero_ref]. by rewrite decide_False by done.
  - destruct (decide (covers (subtractExtents _ _) b)) as [|Hs]; [done|].
    destruct (decide (covers (ref_Extents r) b)) as [HE|HE]; [|done].
    cbn [nonzero_ref]. rewrite decide_True by (destruct (decide (covers (ref_ZeroExtents r) b)); tauto).
    rewrite IH, (Hno HE). done.
Qed.

Lemma surviving_refs_spec covered current :
  wf_extents hi covered → Forall (plan_ref_wf hi) current →
  ∀ b, located <$> ref_for (surviving_refs covered current) b =
    if decide (covers covered b) then None else located <$> ref_for current b.
Proof.
  intros Hcov Hwf b. induction Hwf as [|r current [He _] _ IH]; [by destruct (decide _)|].
  rewrite surviving_refs_unfold, ref_for_app. cbn [ref_for].
  destruct (subtractExtents_spec hi _ _ Hhi He Hcov) as [Hw Hc]. specialize (Hc b).
  pose proof (restricted_for r (subtractExtents (ref_Extents r) covered) b) as Hres.
  destruct (ref_for (restricted _ _) b) as [x|]; cbn [fmap option_fmap option_map] in *.
  - destruct (decide (covers (subtractExtents _ _) b)) as [Hs|]; [|done]. destruct Hc as [Hc _]. destruct (Hc Hs) as [HE HC].
    by rewrite decide_False, decide_True by done.
  - destruct (decide (covers (subtractExtents _ _) b)) as [|Hs]; [done|]. rewrite IH.
    destruct (decide (covers covered b)) as [|HC]; [done|].
    rewrite decide_False; [done|]. tauto.
Qed.

Lemma delta_covered delta covered :
  Forall (ref_wf hi) delta → wf_extents hi covered →
  let c := foldl (fun covered original => unionExtents covered (ref_Extents original)) covered delta in
  wf_extents hi c ∧ ∀ b, covers c b ↔ covers covered b ∨ is_Some (ref_for delta b).
Proof.
  intros Hwf. revert covered. induction Hwf as [|r delta (He & _) _ IH]; intros covered Hc; cbv zeta; cbn [foldl ref_for].
  { split; [done|]. intros b. split; [tauto|]. intros [?|[? ?]]; done. }
  destruct (union_spec hi covered (ref_Extents r) Hhi Hc) as [Hn Hu]; [by apply wf_extents_in|].
  apply normal_extents_wf in Hn. destruct (IH _ Hn) as [Hw Hcs]. split; [done|]. intros b. rewrite Hcs, Hu.
  destruct (decide (covers (ref_Extents r) b)); split; intros; intuition eauto.
Qed.

(** Publishing [delta] on top of a plan. *)
Lemma applyDeltaToPlan_spec current delta :
  Forall (plan_ref_wf hi) current → segments_wf hi delta →
  ∀ b, located <$> ref_for (applyDeltaToPlan current delta) b =
    match ref_for delta b with
    | Some r => located <$> nonzero_ref (Some r) b
    | None => located <$> ref_for current b
    end.
Proof.
  intros Hcur Hdel b. unfold applyDeltaToPlan. rewrite ref_for_app.
  destruct (delta_covered delta [] (proj1 Hdel)) as [Hw Hc]; [done|]. specialize (Hc b). rewrite covers_nil in Hc.
  pose proof (delta_refs_spec delta Hdel b) as Hd.
  pose proof (surviving_refs_spec _ current Hw Hcur b) as Hs.
  destruct (ref_for (delta_refs delta) b) as [x|]; cbn [fmap option_fmap option_map] in *.
  - by destruct (ref_for delta b).
  - rewrite Hs. destruct (ref_for delta b) as [r|].
    + rewrite decide_True by (apply Hc; eauto). by rewrite <-Hd.
    + rewrite decide_False; [done|]. rewrite Hc. intros [|[? ?]]; done.
Qed.

Definition ready (ref : ObjectRef) : ObjectRef :=
  if bool_decide (ref_SourceManifest ref = EmptyString) then ref
  else with_source ref (ref_SourceManifest ref) (ref_SourceBundle ref) (ref_SourceIndex ref) [].

Lemma ready_extents r : ref_Extents (ready r) = ref_Extents r ∧ ref_ZeroExtents (ready r) = ref_ZeroExtents r.
Proof. unfold ready. by case_bool_decide. Qed.

Lemma ref_for_ready refs b : ref_for (checkpointReadyRefs refs) b = ready <$> ref_for refs b.
Proof.
  induction refs as [|r refs IH]; [done|]. change (checkpointReadyRefs (r :: refs)) with (ready r :: checkpointReadyRefs refs).
  cbn [ref_for]. destruct (ready_extents r) as [-> _]. destruct (decide _); [done|apply IH].
Qed.

Lemma nonzero_ready r b : nonzero_ref (ready <$> r) b = ready <$> nonzero_ref r b.
Proof.
  destruct r as [r|]; [|done]. cbn [fmap option_fmap option_map nonzero_ref]. destruct (ready_extents r) as [_ ->].
  by destruct (decide _).
Qed.

Lemma located_ready r : located (ready r) = ready (located r).
Proof. unfold ready, located. cbn [ref_SourceManifest with_extents]. by case_bool_decide. Qed.

Lemma checkpointReady_wf refs : segments_wf hi refs → segments_wf hi (checkpointReadyRefs refs).
Proof.
  intros [Hwf Hd]. split.
  - apply Forall_fmap. eapply Forall_impl; [exact Hwf|]. intros r Hr. change (ref_wf hi (ready r)).
    unfold ref_wf in *. by destruct (ready_extents r) as [-> ->].
  - unfold disjoint_refs, refs_blocks in *. assert (ref_blocks <$> checkpointReadyRefs refs = ref_blocks <$> refs) as ->; [|done].
    unfold checkpointReadyRefs. rewrite <-list_fmap_compose. apply list_fmap_ext. intros i r _. cbn [compose].
    change (ref_blocks (ready r) = ref_blocks r). unfold ref_blocks. by destruct (ready_extents r) as [-> _].
Qed.

Lemma plan_ref_wf_ready refs : Forall (plan_ref_wf hi) refs → Forall (plan_ref_wf hi) (checkpointReadyRefs refs).
Proof.
  intros Hwf. apply Forall_fmap. eapply Forall_impl; [exact Hwf|]. intros r Hr. change (plan_ref_wf hi (ready r)).
  unfold plan_ref_wf in *. by destruct (ready_extents r) as [-> _].
Qed.

(** Inline data excludes any other storage, as [validateManifest] checks. *)
Definition inline_alone (r : ObjectRef) : Prop :=
  ref_InlineData r ≠ [] → ref_SourceManifest r = EmptyString ∧ ref_SourceBundle r = EmptyString.

Lemma checkpointRefs_locate key m index segs :
  key ≠ EmptyString → Forall inline_alone segs →
  checkpointRefs key index segs = checkpointReadyRefs (locate_all (mkEntry key m EmptyString) index segs).
Proof.
  intros Hkey Hin. revert index. induction Hin as [|r segs Hr _ IH]; intros index; [done|].
  cbn [checkpointRefs locate_all]. change (checkpointReadyRefs (?x :: ?xs)) with (ready x :: checkpointReadyRefs xs).
  f_equal; [|apply IH]. unfold locate_inline. cbn [e_key e_bundle]. rewrite (bool_decide_eq_false_2 (key = EmptyString)) by done.
  destruct r as [rk rs rb ri [|x data] rsha rby rbl re rz]; cbn [ref_InlineData].
  - rewrite !bool_decide_eq_true_2 by done. cbn [negb andb]. unfold ready. cbn [ref_SourceManifest]. by case_bool_decide.
  - rewrite !bool_decide_eq_false_2 by done. cbn [negb andb]. unfold ready, with_source. cbn [ref_SourceManifest].
    rewrite bool_decide_eq_false_2 by done. destruct (Hr ltac:(done)) as [_ Hb]. cbn in Hb |- *. by subst.
Qed.

(** The plan a lease maintains is the plan a fresh restore would compute.
    Publishing manifest [m] under [key] updates the lease's plan with
    [applyDeltaToPlan]; for every block the updated plan names the same data,
    at the same location, as [restorePlan] (made ready for a checkpoint)
    selects from the chain with [m] on top, and no block otherwise. *)
Theorem applyDeltaToPlan_incremental entries key m b :
  entries_wf hi entries → segments_wf hi (mf_Segments m) → Forall inline_alone (mf_Segments m) → key ≠ EmptyString →
  let current := checkpointReadyRefs (plan_entries [] entries) in
  let fresh := checkpointReadyRefs (plan_entries [] (mkEntry key m EmptyString :: entries)) in
  located <$> ref_for (applyDeltaToPlan current (checkpointRefs key 0 (mf_Segments m))) b =
  located <$> ref_for fresh b.
Proof.
  intros Hent Hm Hin Hkey current fresh. set (e := mkEntry key m EmptyString).
  assert (entries_wf hi (e :: entries)) as Hent' by (by constructor).
  destruct (plan_entries_spec hi Hhi [] entries Hent) as (Hp & _ & Hfor); [done|].
  destruct (plan_entries_spec hi Hhi [] (e :: entries) Hent') as (_ & _ & Hfor'); [done|].
  specialize (Hfor b). specialize (Hfor' b). rewrite decide_False in Hfor, Hfor' by (by intros ?%covers_nil).
  rewrite (checkpointRefs_locate key m) by done. fold e.
  rewrite applyDeltaToPlan_spec by (by apply plan_ref_wf_ready || by apply checkpointReady_wf, locate_all_wf).
  unfold current, fresh. rewrite !ref_for_ready. cbn [newest e_manifest e] in Hfor'.
  assert (∀ o : option ObjectRef, located <$> (ready <$> o) = ready <$> (located <$> o)) as Hcomm.
  { intros [o|]; [|done]. cbn. f_equal. apply located_ready. }
  rewrite !Hcomm. fold e. rewrite Hfor'.
  destruct (ref_for (locate_all e 0 (mf_Segments m)) b) as [r|]; cbn [fmap option_fmap option_map].
  - change (Some (ready r)) with (ready <$> Some r). by rewrite nonzero_ready, Hcomm.
  - by rewrite <-Hfor.
Qed.
End incremental.
