(* ===== verification/Restore.v ===== *)
(** * Restoring a volume ([internal/replica/remote.go])

    What [restoreManifests], [restorePlan] and [RestoreState] (all in
    [Manifest] and [Plan]) compute: the newest version of every block, the
    replay of the published generations, and that the walks end. *)
From S2P Require Import Prelude Extents Codec File Segment Types Manifest Plan.
Local Open Scope Z_scope.

(** ** Restoring *)

Section restored.
Context `{Digest} `{Gzip} `{Json Manifest} `{Json manifestBundle}.
Context (Get : string → result bytes).

(** The bundle cache only remembers what was read. *)
Definition cache_ok (l : loader) (cache : bundle_cache) : Prop :=
  ∀ k b, cache !! k = Some b → fetch_bundle Get l k = Ok b.

Lemma loadBundleLocked_cache l cache k :
  cache_ok l cache →
  (loadBundleLocked Get l cache k).2 = fetch_bundle Get l k ∧ cache_ok l (loadBundleLocked Get l cache k).1.
Proof.
  intros Hc. unfold loadBundleLocked. destruct (cache !! k) as [b|] eqn:Hk; [by rewrite (Hc k b Hk)|].
  destruct (fetch_bundle Get l k) as [b|e] eqn:Hf; cbn [fst snd]; split; try done.
  intros k' b'. rewrite lookup_insert_Some. intros [[<- <-]|[_ Hk']]; [done|by apply Hc].
Qed.

Lemma searchBundleChain_cache fuel l key ref c1 c2 :
  cache_ok l c1 → cache_ok l c2 →
  (searchBundleChain Get fuel l c1 key ref).2 = (searchBundleChain Get fuel l c2 key ref).2 ∧
  cache_ok l (searchBundleChain Get fuel l c1 key ref).1.
Proof.
  revert ref c1 c2. induction fuel as [|fuel IH]; intros [ref|] c1 c2 Hk1 Hk2; cbn [searchBundleChain]; try done.
  destruct (loadBundleLocked_cache l c1 (bref_Key ref) Hk1) as [Hr1 Hc1].
  destruct (loadBundleLocked_cache l c2 (bref_Key ref) Hk2) as [Hr2 Hc2].
  destruct (loadBundleLocked Get l c1 _) as [c1' r1], (loadBundleLocked Get l c2 _) as [c2' r2].
  cbn [fst snd] in *. subst r1 r2. destruct (fetch_bundle Get l (bref_Key ref)) as [b|e]; [|done].
  destruct (find_bundled key b); [done|]. destruct (IH (mb_Parent b) c1' c2' Hc1 Hc2) as [Heq Hok].
  destruct (searchBundleChain Get fuel l c1' _ _) as [d1 [[]|]], (searchBundleChain Get fuel l c2' _ _) as [d2 [[]|]];
    cbn [fst snd] in *; simplify_eq; done.
Qed.

Lemma segment_data_cache fuel l cache ref :
  cache_ok l cache →
  (segment_data Get fuel l cache ref).2 = (segment_data Get fuel l ∅ ref).2 ∧
  cache_ok l (segment_data Get fuel l cache ref).1.
Proof.
  intros Hc. assert (cache_ok l ∅) as He by (intros k b; by rewrite lookup_empty).
  unfold segment_data. case_bool_decide; [|done]. case_bool_decide; [done|]. unfold inlineSegment.
  case_bool_decide.
  - unfold resolve. destruct (ld_inline l !! _); [done|].
    destruct (searchBundleChain_cache fuel l (ref_SourceManifest ref) (ld_head l) cache ∅ Hc He) as [Heq Hok].
    destruct (searchBundleChain Get fuel l cache _ _) as [c1 r1], (searchBundleChain Get fuel l ∅ _ _) as [c2 r2].
    cbn [fst snd] in *. subst r2. destruct r1 as [[[body|] path]|e]; [done..|]. by destruct (errors_Is e ErrNotFound).
  - unfold manifestBody.
    destruct (loadBundleLocked_cache l cache (ref_SourceBundle ref) Hc) as [Hr1 Hc1].
    destruct (loadBundleLocked_cache l ∅ (ref_SourceBundle ref) He) as [Hr2 _].
    destruct (loadBundleLocked Get l cache _) as [c1' r1], (loadBundleLocked Get l ∅ _) as [c2' r2].
    cbn [fst snd] in *. subst r1 r2. destruct (fetch_bundle Get l _) as [b|e]; [|done].
    by destruct (find_bundled _ b).
Qed.

(** The runs a reference stands for, when its data can be read. *)
Definition ref_runs (fuel : nat) (l : loader) (ref : ObjectRef) : result (list decodedRun) :=
  data ← (segment_data Get fuel l ∅ ref).2; segment_runs ref data.

(** What the data of a reference gives block [b]. *)
Definition ref_content (fuel : nat) (l : loader) (ref : ObjectRef) (b : Z) : option bytes :=
  match (segment_data Get fuel l ∅ ref).2 with
  | Ok data =>
      match decodeSegment (mkSegment data (ref_SHA256 ref) (ref_Bytes ref) (ref_Blocks ref) [] []) with
      | Ok runs => runs_lookup runs b
      | Err _ => None
      end
  | Err _ => None
  end.

Lemma ref_runs_content fuel l ref runs b : ref_runs fuel l ref = Ok runs → ref_content fuel l ref b = runs_lookup runs b.
Proof.
  unfold ref_runs, ref_content. destruct (segment_data Get fuel l ∅ ref).2 as [data|]; [|done].
  cbn [mbind result_mbind]. unfold segment_runs. intros Hr. apply result_bind_Ok in Hr as (runs' & Hd%wrap_err_Ok & Hr).
  rewrite Hd. apply result_bind_Ok in Hr as (_ & _ & Hr). by injection Hr as ->.
Qed.

Lemma runs_lookup_covers runs b : covers (extent <$> runs) b → is_Some (runs_lookup runs b).
Proof.
  induction runs as [|r runs IH]; cbn [fmap list_fmap runs_lookup]; [by intros ?%covers_nil|].
  intros [Hin|Hc]%covers_cons.
  - destruct (runs_lookup runs b); [eauto|]. rewrite decide_True by done. eauto.
  - destruct (IH Hc) as [d ->]. eauto.
Qed.

(** The runs of a reference cover its extents. *)
Lemma ref_runs_covers fuel l ref runs imageBlocks b :
  imageBlocks ≤ maxImageBlocks → wf_extents imageBlocks (ref_Extents ref) → ref_runs fuel l ref = Ok runs →
  covers (ref_Extents ref) b → covers (extent <$> runs) b.
Proof.
  intros Himg Hwf Hruns Hcov. unfold ref_runs in Hruns. apply result_bind_Ok in Hruns as (data & _ & Hruns). unfold segment_runs in Hruns.
  apply result_bind_Ok in Hruns as (runs' & Hd%wrap_err_Ok & Hruns). apply result_bind_Ok in Hruns as (u & Hcont%fail_if_Ok & Hruns).
  injection Hruns as ->. apply negb_false_iff in Hcont. apply decodeSegment_spec in Hd as (_ & Hrwf & _ & _).
  assert (wf_extents maxImageBlocks (ref_Extents ref)) as Hwf' by (eapply wf_from_hi; [|exact Hwf]; lia).
  rewrite (extentsContain_from 0 0 maxImageBlocks maxImageBlocks) in Hcont by (done || apply maxImageBlocks_bound). by apply Hcont.
Qed.

Lemma applyObjectRef_spec fuel l cache f imageBlocks ref runs :
  image_of f imageBlocks → plan_ref_wf imageBlocks ref → cache_ok l cache → ref_runs fuel l ref = Ok runs →
  ∃ cache' c', applyObjectRef Get fuel l cache f (imageBlocks * DefaultBlockSize) ref = (cache', mkFile c' [], None) ∧
    cache_ok l cache' ∧ length c' = length (content f) ∧
    ∀ b, 0 ≤ b < imageBlocks → read_block blockBytes c' b =
      if decide (covers (ref_Extents ref) b) then default [] (runs_lookup runs b)
      else read_block blockBytes (content f) b.
Proof.
  intros Him [Hwf Hne] Hc Hruns. unfold ref_runs in Hruns. pose proof Him as (_ & Himg & _).
  destruct (segment_data_cache fuel l cache ref Hc) as [Heq Hok]. rewrite <-Heq in Hruns.
  unfold applyObjectRef. destruct (segment_data Get fuel l cache ref) as [cache' [data|e]]; [|done].
  cbn [fst snd mbind result_mbind] in *. rewrite Hruns. unfold segment_runs in Hruns.
  apply result_bind_Ok in Hruns as (runs' & Hd%wrap_err_Ok & Hruns). apply result_bind_Ok in Hruns as (u & Hcont%fail_if_Ok & Hruns).
  injection Hruns as ->. apply negb_false_iff in Hcont. apply decodeSegment_spec in Hd as (Hrw & Hrwf & _ & _).
  assert (wf_extents maxImageBlocks (ref_Extents ref)) as Hwf' by (eapply wf_from_hi; [|exact Hwf]; lia).
  rewrite (extentsContain_from 0 0 maxImageBlocks maxImageBlocks) in Hcont by (done || apply maxImageBlocks_bound).
  unfold slice_arg. rewrite bool_decide_eq_false_2 by done. unfold applyRuns.
  rewrite (proj2 (Z.ltb_ge (imageBlocks * DefaultBlockSize) 0)) by (unfold DefaultBlockSize; lia).
  rewrite Z.quot_mul by (unfold DefaultBlockSize; lia).
  destruct (apply_runs_loop_spec f imageBlocks (ref_Extents ref) runs Him Hrw Hwf') as (c' & -> & Hlen & Hb).
  { intros b Hcb _ _ _. apply (wf_from_covers _ _ _ _ Hwf) in Hcb. lia. }
  exists cache', c'. split_and!; [done..|]. intros b Hbr. rewrite Hb by done.
  destruct (decide (covers (ref_Extents ref) b)) as [Hcb|]; [|done].
  destruct (runs_lookup_covers runs b (Hcont b Hcb)) as [d ->]. done.
Qed.

(** Every reference of the plan can be read and decoded. *)
Definition readable (fuel : nat) (l : loader) (ref : ObjectRef) : Prop := is_ok (ref_runs fuel l ref) = true.

Lemma applyObjectRefs_spec fuel l cache f imageBlocks refs :
  image_of f imageBlocks → Forall (plan_ref_wf imageBlocks) refs → disjoint_refs refs → cache_ok l cache →
  Forall (readable fuel l) refs →
  ∃ c', applyObjectRefs Get fuel l cache f (imageBlocks * DefaultBlockSize) refs = (mkFile c' [], None) ∧
    length c' = length (content f) ∧
    ∀ b, 0 ≤ b < imageBlocks → read_block blockBytes c' b =
      match ref_for refs b with
      | Some ref => default [] (ref_content fuel l ref b)
      | None => read_block blockBytes (content f) b
      end.
Proof.
  intros Him Hwf Hd Hc Hread. revert f cache Him Hc Hd.
  induction Hwf as [|r refs Hr _ IH]; intros f cache Him Hc Hd.
  { exists (content f). destruct f as [c sc], Him as [Hsc _]. cbn [content script] in *. subst. by split_and!. }
  apply Forall_cons in Hread as [Hrr Hread]. unfold readable in Hrr.
  destruct (ref_runs fuel l r) as [runs|] eqn:Hruns; [|done].
  destruct (applyObjectRef_spec fuel l cache f imageBlocks r runs Him Hr Hc Hruns) as (cache' & c1 & Ha & Hc' & Hl1 & Hb1).
  destruct (disjoint_refs_cons _ _ Hd) as [Hd' Hno].
  destruct (IH Hread (mkFile c1 []) cache') as (c' & Has & Hl & Hb); [by eapply image_of_same|done..|].
  exists c'. cbn [applyObjectRefs]. rewrite Ha. split_and!; [done|cbn [content] in Hl; congruence|].
  intros b Hbr. rewrite Hb by done. cbn [ref_for content]. specialize (Hno b).
  rewrite Hb1 by done. destruct (decide (covers (ref_Extents r) b)) as [Hcb|Hcb]; [|done].
  rewrite (Hno Hcb). by rewrite (ref_runs_content _ _ _ _ _ Hruns).
Qed.

(** The content of a reference does not depend on the extents it is cut to. *)
Lemma ref_content_located fuel l r r' b : located r = located r' → ref_content fuel l r b = ref_content fuel l r' b.
Proof.
  intros Hloc. destruct r as [k sm sb si inl sha n bl e z], r' as [k' sm' sb' si' inl' sha' n' bl' e' z'].
  by injection Hloc as <- <- <- <- <- <- <- <-.
Qed.

(** *** The restored image *)

Definition zero_block : bytes := replicate blockBytes x00.

(** The content of block [b] according to the chain, newest manifest first. *)
Definition chain_block (fuel : nat) (l : loader) (entries : list manifestEntry) (b : Z) : bytes :=
  match nonzero_ref (newest entries b) b with
  | Some ref => default [] (ref_content fuel l ref b)
  | None => zero_block
  end.

(** A new sparse image on a file without I/O errors. *)
Definition sparse_image (size : Z) : File := mkFile (replicate (Z.to_nat size) x00) [].

Lemma sparse_image_spec imageBlocks :
  0 ≤ imageBlocks ≤ maxImageBlocks →
  let f := sparse_image (imageBlocks * DefaultBlockSize) in
  image_of f imageBlocks ∧ length (content f) = (Z.to_nat imageBlocks * blockBytes)%nat ∧
  ∀ b, 0 ≤ b < imageBlocks → read_block blockBytes (content f) b = zero_block.
Proof.
  intros Himg. cbv zeta. unfold sparse_image. cbn [content].
  rewrite Z_to_nat_blocks by lia. pose proof blockBytes_Z as HZ. split_and!.
  - split_and!; [done|lia|lia|]. cbn [content]. rewrite length_replicate. nia.
  - by rewrite length_replicate.
  - intros b Hb. unfold read_block, zero_block. rewrite drop_replicate, take_replicate. f_equal. nia.
Qed.

Lemma apply_plan_spec fuel l imageBlocks entries order :
  0 ≤ imageBlocks ≤ maxImageBlocks → entries_wf imageBlocks entries →
  order ≡ₚ plan_entries [] entries → Forall (readable fuel l) order →
  ∃ c', applyObjectRefs Get fuel l ∅ (sparse_image (imageBlocks * DefaultBlockSize))
      (imageBlocks * DefaultBlockSize) order = (mkFile c' [], None) ∧
    length c' = (Z.to_nat imageBlocks * blockBytes)%nat ∧
    ∀ b, 0 ≤ b < imageBlocks → read_block blockBytes c' b = chain_block fuel l entries b.
Proof.
  intros Himg Hent Hord Hread.
  assert (block_bound imageBlocks) as Hhi by (pose proof maxImageBlocks_bound; unfold block_bound in *; lia).
  destruct (plan_entries_spec imageBlocks Hhi [] entries Hent) as (Hp & Hd & Hfor); [done|].
  destruct (sparse_image_spec imageBlocks Himg) as (Him & Hlen & Hz).
  assert (disjoint_refs order) as Hdo by (unfold disjoint_refs, refs_blocks in *; by rewrite Hord).
  destruct (applyObjectRefs_spec fuel l ∅ _ imageBlocks order Him) as (c' & Ha & Hl & Hb); [by rewrite Hord|done| |done|].
  { intros k b. by rewrite lookup_empty. }
  exists c'. split_and!; [done|congruence|]. intros b Hbr. rewrite Hb by done. rewrite Hz by done.
  unfold chain_block. specialize (Hfor b). rewrite decide_False in Hfor by (by intros ?%covers_nil).
  rewrite (ref_for_Permutation order (plan_entries [] entries)) by done.
  destruct (ref_for (plan_entries [] entries) b) as [r|] eqn:Hr.
  - destruct (nonzero_ref (newest entries b) b) as [r'|]; [|discriminate Hfor].
    cbn [fmap option_fmap option_map] in Hfor. apply (inj Some) in Hfor.
    by rewrite (ref_content_located fuel l r r').
  - destruct (nonzero_ref (newest entries b) b); [discriminate Hfor|done].
Qed.
End restored.

(** ** Chains that were read *)

Section chains.
Context `{Digest} `{Gzip} `{Json Manifest} `{Json manifestBundle}.
Context (Get : string → result bytes).
(** [encoding/json] refuses numbers outside the field's type. *)
Context (json_typed : ∀ body (m : Manifest), Unmarshal body = Ok m → manifest_typed m).
Context (state : State) (imageBlocks : Z).
Context (Hgeom : st_Size state = imageBlocks * DefaultBlockSize ∧ st_BlockSize state = DefaultBlockSize ∧
                 0 ≤ imageBlocks ≤ maxImageBlocks).

Lemma image_block_bound : block_bound imageBlocks.
Proof using Hgeom. pose proof maxImageBlocks_bound. unfold block_bound in *. lia. Qed.

Lemma state_blocks : st_Size state `quot` st_BlockSize state = imageBlocks.
Proof using Hgeom. destruct Hgeom as (-> & -> & _). apply Z.quot_mul. unfold DefaultBlockSize. lia. Qed.

(** What holds of a manifest that was read. *)
Definition manifest_ok (m : Manifest) : Prop :=
  segments_wf imageBlocks (mf_Segments m) ∧ Forall (fun r => ref_Extents r ≠ []) (mf_Segments m).

Lemma decodeManifest_ok key body g m :
  decodeManifest state key body g = Ok m →
  manifest_ok m ∧ key = manifest_key (st_Name state) body ∧ Unmarshal body = Ok m ∧ (g ≠ 0 → mf_Generation m = g).
Proof using json_typed Hgeom.
  unfold decodeManifest. intros Hd. apply result_bind_Ok in Hd as (m' & Hun%wrap_err_Ok & Hd).
  apply result_bind_Ok in Hd as (u1 & Hkey%fail_if_Ok & Hd). apply result_bind_Ok in Hd as ([] & Hv & Hd).
  injection Hd as ->. apply negb_false_iff, bool_decide_eq_true in Hkey.
  apply validateManifest_wf in Hv as (Hs & Hne & Hg & _); [|rewrite state_blocks; apply image_block_bound|by eapply json_typed].
  rewrite state_blocks in Hs. split_and!; [by split|done|done|]. intros Hnz. by rewrite (proj2 (Z.eqb_neq g 0) Hnz) in Hg.
Qed.

Lemma search_bundles_ok fuel key g ref cache m src cache' :
  search_bundles Get fuel state key g ref cache = Ok (Some (m, src), cache') → manifest_ok m.
Proof using json_typed Hgeom.
  revert ref cache. induction fuel as [|fuel IH]; intros [ref|] cache; cbn [search_bundles]; try done.
  { by case_if. }
  case_if; [|done]. intros Hs. apply result_bind_Ok in Hs as ([bundle cache1] & _ & Hs).
  case_if_in Hs; [|by eapply IH]. destruct (find_bundled key bundle); [|done].
  apply result_bind_Ok in Hs as (m' & Hd & Hs). injection Hs as -> _ _. by apply decodeManifest_ok in Hd as [? _].
Qed.

Lemma readManifest_ok fuel key g cache m src cache' :
  readManifestWithSourceCache Get fuel state key g cache = Ok (m, src, cache') → manifest_ok m.
Proof using json_typed Hgeom.
  unfold readManifestWithSourceCache. destruct (st_InlineManifests state !! key).
  - intros Hr. apply result_bind_Ok in Hr as (m' & Hd & Hr). injection Hr as -> _ _. by apply decodeManifest_ok in Hd as [? _].
  - intros Hr. apply result_bind_Ok in Hr as ([[[m' src']|] cache1] & Hs & Hr).
    + injection Hr as -> _ _. by eapply search_bundles_ok.
    + apply result_bind_Ok in Hr as (data & _ & Hr). apply result_bind_Ok in Hr as (m' & Hd & Hr).
      injection Hr as -> _ _. by apply decodeManifest_ok in Hd as [? _].
Qed.

Lemma restore_chain_ok fuel bundleFuel key g n cache entries g' :
  restore_chain Get fuel bundleFuel state key g n cache = Ok (entries, g') →
  Forall (fun e => manifest_ok (e_manifest e)) entries.
Proof using json_typed Hgeom.
  revert key g n cache entries g'. induction fuel as [|fuel IH]; intros key g n cache entries g'; cbn [restore_chain].
  { case_bool_decide; [|done]. intros [= <- _]. constructor. }
  case_bool_decide; [intros [= <- _]; constructor|]. intros Hr.
  apply result_bind_Ok in Hr as ([[m src] cache1] & Hm & Hr). apply readManifest_ok in Hm.
  destruct (bool_decide (mf_Kind m = "checkpoint")); [injection Hr as <- _; by apply Forall_singleton|].
  apply result_bind_Ok in Hr as (u & _ & Hr). apply result_bind_Ok in Hr as ([rest ex] & Hrest & Hr).
  injection Hr as <- _. constructor; [done|]. by eapply IH.
Qed.

Lemma restoreManifests_ok bundleFuel entries :
  restoreManifests Get bundleFuel state = Ok entries → entries_wf imageBlocks entries.
Proof using json_typed Hgeom.
  unfold restoreManifests. intros Hr. apply result_bind_Ok in Hr as ([es g] & Hc & Hr).
  apply result_bind_Ok in Hr as (u & _ & Hr). injection Hr as ->. apply restore_chain_ok in Hc.
  eapply Forall_impl; [exact Hc|]. by intros e [? _].
Qed.

(** A restore plan selects the newest version of every block.  Whenever
    [restorePlan] succeeds, its references lie inside the volume, never name a
    block twice, and name block [b] exactly when the newest manifest of the
    chain that mentions [b] does not record it as zero, with the location of
    that manifest's data. *)
Theorem restorePlan_newest bundleFuel entries refs :
  restoreManifests Get bundleFuel state = Ok entries → restorePlan Get bundleFuel state = Ok refs →
  Forall (plan_ref_wf imageBlocks) refs ∧ disjoint_refs refs ∧
  ∀ b, located <$> ref_for refs b = located <$> nonzero_ref (newest entries b) b.
Proof using json_typed Hgeom.
  intros Hm Hp. unfold restorePlan in Hp. rewrite Hm in Hp. injection Hp as <-.
  destruct (plan_entries_spec imageBlocks image_block_bound [] entries (restoreManifests_ok _ _ Hm)) as (H1' & H2' & H3'); [done|].
  split_and!; [done..|]. intros b. rewrite H3', decide_False; [done|]. by intros ?%covers_nil.
Qed.

(** [RestoreState] writes exactly what the chain says.  Whatever order the
    workers apply the references in, when every reference of the plan can be
    read and decoded the restore succeeds, the image has the volume's size, and
    each block is the content of the newest manifest that mentions it, or zero
    when that manifest records it as zero or no manifest mentions it. *)
Theorem RestoreState_correct fuel schedule entries :
  validateState (st_Name state) state = Ok tt → restoreManifests Get fuel state = Ok entries →
  (∀ refs, schedule refs ≡ₚ refs) →
  Forall (readable Get fuel (newManifestSourceLoader state)) (plan_entries [] entries) →
  ∃ c, RestoreState Get fuel (Ok []) schedule state = Ok (mkFile c [], None) ∧
    length c = Z.to_nat (st_Size state) ∧
    ∀ b, 0 ≤ b < imageBlocks →
      read_block blockBytes c b = chain_block Get fuel (newManifestSourceLoader state) entries b.
Proof using json_typed Hgeom.
  intros Hval Hm Hsched Hread. destruct Hgeom as (Hsize & _ & Himg).
  destruct (apply_plan_spec Get fuel (newManifestSourceLoader state) imageBlocks entries (schedule (plan_entries [] entries)))
    as (c & Ha & Hl & Hb); [done|by eapply restoreManifests_ok|apply Hsched|by rewrite Hsched|].
  exists c. unfold RestoreState, restorePlan. rewrite Hval, Hm. unfold createSparseImage. cbn [mbind result_mbind]. fold (sparse_image (st_Size state)). rewrite Hsize, Ha.
  split_and!; [done| |done]. by rewrite Z_to_nat_blocks by lia.
Qed.

(** *** Publishing and restoring *)

(** Manifest entry [e] was made of generation [g]: its references are those of
    the segments [EncodeSegments] produced, and their bytes are in the store. *)
Definition published_as (fuel : nat) (e : manifestEntry) (g : Generation) : Prop :=
  generation_wf imageBlocks g ∧ size (GenBlocks g) ≠ 0%nat ∧
  ∃ n segs, EncodeSegments (Some g) n = Ok segs ∧
    Forall2 (fun seg ref => ref_SHA256 ref = seg_SHA256 seg ∧ ref_Bytes ref = seg_Bytes seg ∧
                            ref_Blocks ref = seg_Blocks seg ∧ ref_Extents ref = seg_Extents seg ∧
                            ref_ZeroExtents ref = seg_ZeroExtents seg ∧
                            (segment_data Get fuel (newManifestSourceLoader state) ∅ ref).2 = Ok (seg_Data seg))
      segs (locate_all e 0 (mf_Segments (e_manifest e))).

(** The image after replaying the generations, newest first. *)
Fixpoint replay (gens : list Generation) (b : Z) : bytes :=
  match gens with
  | [] => zero_block
  | g :: rest => default (replay rest b) (GenBlocks g !! b)
  end.

Lemma decodeSegment_extents seg es zs :
  decodeSegment (mkSegment (seg_Data seg) (seg_SHA256 seg) (seg_Bytes seg) (seg_Blocks seg) es zs) = decodeSegment seg.
Proof. by destruct seg. Qed.

Lemma published_refs fuel g parts segs refs b :
  blocks_ok g (concat parts) →
  Forall2 (segment_of g) parts segs →
  Forall2 (fun seg ref => ref_SHA256 ref = seg_SHA256 seg ∧ ref_Bytes ref = seg_Bytes seg ∧
                          ref_Blocks ref = seg_Blocks seg ∧ ref_Extents ref = seg_Extents seg ∧
                          ref_ZeroExtents ref = seg_ZeroExtents seg ∧
                          (segment_data Get fuel (newManifestSourceLoader state) ∅ ref).2 = Ok (seg_Data seg))
    segs refs →
  match ref_for refs b with
  | Some r => b ∈ concat parts ∧
      if decide (covers (ref_ZeroExtents r) b) then isZero (block_data g b) = true
      else ref_content Get fuel (newManifestSourceLoader state) r b = Some (block_data g b)
  | None => b ∉ concat parts
  end.
Proof.
  intros Hok Hsegs. revert refs. induction Hsegs as [|part seg parts segs Hof Hsegs IH]; intros refs Hrefs.
  { apply Forall2_nil_inv_l in Hrefs as ->. cbn. apply not_elem_of_nil. }
  apply Forall2_cons_inv_l in Hrefs as (r & refs' & (Hsha & Hby & Hbl & Hex & Hze & Hdata) & Hrefs & ->).
  apply Forall_app in Hok as [Hokp Hok]. specialize (IH Hok refs' Hrefs). cbn [ref_for concat].
  destruct Hof as (_ & _ & _ & _ & _ & Hcat & _ & Hzero & _ & Hdec).
  rewrite Hex. destruct (decide (covers (seg_Extents seg) b)) as [Hc|Hc].
  - assert (b ∈ part) as Hin by (rewrite <-Hcat; by apply covers_expand).
    split; [apply elem_of_app; by left|]. rewrite Hze. destruct (decide _) as [Hz|Hz]; [by apply Hzero in Hz as [_ ?]|].
    unfold ref_content. rewrite Hdata, Hsha, Hby, Hbl, decodeSegment_extents, Hdec.
    rewrite runs_lookup_encoded by by rewrite Hcat. by rewrite decide_True by done.
  - assert (b ∉ part) as Hnin by (rewrite <-Hcat; by rewrite <-covers_expand).
    destruct (ref_for refs' b).
    + destruct IH as [IH1 IH2]. split; [apply elem_of_app; by right|done].
    + rewrite elem_of_app. tauto.
Qed.

Lemma block_data_zero g b :
  generation_wf imageBlocks g → is_Some (GenBlocks g !! b) → isZero (block_data g b) = true → block_data g b = zero_block.
Proof.
  intros [Hwf _] [d Hd] Hz. apply isZero_spec in Hz. unfold block_data in *. rewrite Hd in *. cbn [from_option id] in *.
  destruct (Hwf b d Hd) as [_ Hlen]. rewrite Hz, Hlen. done.
Qed.

Lemma chain_replay fuel entries gens b :
  Forall2 (published_as fuel) entries gens →
  chain_block Get fuel (newManifestSourceLoader state) entries b = replay gens b.
Proof using Hgeom.
  destruct Hgeom as (_ & _ & Himg). induction 1 as [|e g entries gens Hpub _ IH]; [done|].
  destruct Hpub as (Hwf & Hne & n & segs & Henc & Hrefs).
  destruct (EncodeSegments_spec g n imageBlocks Himg Hwf Hne) as (segs' & parts & Henc' & Hof & Hcat & _).
  rewrite Henc in Henc'. injection Henc' as <-.
  destruct (generation_blocks imageBlocks g Himg Hwf) as (Hok & _).
  pose proof (published_refs fuel g parts segs _ b ltac:(by rewrite Hcat) Hof Hrefs) as Hfor.
  destruct (sortedBlocks_spec g) as (_ & Hin & _). rewrite Hcat in Hfor.
  unfold chain_block in *. cbn [newest replay].
  destruct (ref_for (locate_all e 0 _) b) as [r|]; cbn [nonzero_ref].
  - destruct Hfor as [Hb Hcont]. apply Hin in Hb as [d Hd]. rewrite Hd. cbn [from_option id].
    assert (block_data g b = d) as Hbdd by (unfold block_data; by rewrite Hd).
    destruct (decide _) as [Hz|Hz].
    + rewrite <-Hbdd. symmetry. apply block_data_zero; [done|by exists d|done].
    + by rewrite Hcont, Hbdd.
  - rewrite IH. destruct (GenBlocks g !! b) eqn:Hd; [destruct Hfor; apply Hin; eauto|done].
Qed.

(** Every reference of a plan is a cut of one of the chain. *)
Lemma plan_segments_elem e covered index segs x :
  Forall (ref_wf imageBlocks) segs → wf_extents imageBlocks covered → x ∈ plan_segments e covered index segs →
  ∃ r es, r ∈ locate_all e index segs ∧ x = with_extents r es ∧ wf_extents imageBlocks es ∧
    ∀ b, covers es b → covers (ref_Extents r) b.
Proof using Hgeom.
  intros Hwf Hc. revert index. induction Hwf as [|r segs Hr _ IH]; intros index Hx; [by apply elem_of_nil in Hx|].
  rewrite plan_segments_unfold in Hx. apply elem_of_app in Hx as [Hx|Hx].
  - destruct (nonzero_extents_spec imageBlocks image_block_bound r covered Hr Hc) as [Hw Hs].
    unfold restricted in Hx. case_bool_decide; [by apply elem_of_nil in Hx|]. apply list_elem_of_singleton in Hx as ->.
    eexists _, _. split_and!; [apply list_elem_of_here|done|done|]. destruct (locate_inline_extents e index r) as [-> _].
    by intros b [? _]%Hs.
  - destruct (IH _ Hx) as (r' & es & Hin & ? & ? & ?). exists r', es. split_and!; [by apply list_elem_of_further|done..].
Qed.

Lemma plan_entries_elem covered entries x :
  entries_wf imageBlocks entries → wf_extents imageBlocks covered → x ∈ plan_entries covered entries →
  ∃ e r es, e ∈ entries ∧ r ∈ locate_all e 0 (mf_Segments (e_manifest e)) ∧ x = with_extents r es ∧
    wf_extents imageBlocks es ∧ ∀ b, covers es b → covers (ref_Extents r) b.
Proof using Hgeom.
  intros Hwf. revert covered. induction Hwf as [|e entries He _ IH]; intros covered Hc Hx; [by apply elem_of_nil in Hx|].
  cbn [plan_entries] in Hx. apply elem_of_app in Hx as [Hx|Hx].
  - destruct (plan_segments_elem e covered 0 _ x (proj1 He) Hc Hx) as (r & es & ? & ? & ? & ?).
    exists e, r, es. split_and!; [apply list_elem_of_here|done..].
  - destruct (IH _ ltac:(apply normal_extents_wf, union_spec; [apply image_block_bound|done|by apply covered_extents_in]) Hx)
      as (e' & r & es & ? & ? & ? & ? & ?). exists e', r, es. split_and!; [by apply list_elem_of_further|done..].
Qed.

Lemma published_readable fuel entries gens :
  Forall2 (published_as fuel) entries gens → entries_wf imageBlocks entries →
  Forall (readable Get fuel (newManifestSourceLoader state)) (plan_entries [] entries).
Proof using Hgeom.
  intros Hpub Hwf. apply Forall_forall. intros x Hx. destruct Hgeom as (_ & _ & Himg).
  destruct (plan_entries_elem [] entries x Hwf ltac:(done) Hx) as (e & r & es & He & Hr & -> & Hes & Hsub).
  apply list_elem_of_lookup in He as [i Hi]. destruct (Forall2_lookup_l _ _ _ _ _ Hpub Hi) as (g & _ & Hg).
  destruct Hg as (Hgw & Hne & n & segs & Henc & Hrefs).
  destruct (EncodeSegments_spec g n imageBlocks Himg Hgw Hne) as (segs' & parts & Henc' & Hof & _ & _).
  rewrite Henc in Henc'. injection Henc' as <-.
  apply list_elem_of_lookup in Hr as [k Hk]. destruct (Forall2_lookup_r _ _ _ _ _ Hrefs Hk) as (seg & Hseg & Hm).
  destruct Hm as (Hsha & Hby & Hbl & Hex & _ & Hdata). destruct (Forall2_lookup_r _ _ _ _ _ Hof Hseg) as (part & _ & Hso).
  destruct Hso as (_ & _ & _ & _ & Hsw & _ & _ & _ & _ & Hdec).
  unfold readable, ref_runs. change (segment_data Get fuel ?l ∅ (with_extents r es)) with (segment_data Get fuel l ∅ r).
  rewrite Hdata. cbn [mbind result_mbind]. unfold segment_runs. cbn [with_extents ref_SHA256 ref_Bytes ref_Blocks ref_Extents].
  rewrite Hsha, Hby, Hbl, decodeSegment_extents, Hdec. cbn [wrap_err mbind result_mbind].
  assert (extentsContain (extent <$> (encoded_run g <$> seg_Extents seg)) es = true) as ->; [|done].
  assert (extent <$> (encoded_run g <$> seg_Extents seg) = seg_Extents seg) as ->.
  { rewrite <-list_fmap_compose. by rewrite <-(list_fmap_id (seg_Extents seg)) at 2. }
  apply (extentsContain_from 0 0 maxImageBlocks imageBlocks);
    [apply maxImageBlocks_bound|apply image_block_bound|lia|lia|done|done|].
  intros b Hb. rewrite <-Hex. by apply Hsub.
Qed.

(** C8: restoring a published history replays it.  If the manifests of the
    chain were made of generations by [EncodeSegments] and their data is in the
    store, then the image [RestoreState] writes holds for each block the data
    of the newest generation that wrote it, and zeros if none did: the same as
    applying the generations one after the other to an empty image. *)
Theorem restore_replays_history fuel schedule entries gens :
  validateState (st_Name state) state = Ok tt → restoreManifests Get fuel state = Ok entries →
  (∀ refs, schedule refs ≡ₚ refs) → Forall2 (published_as fuel) entries gens →
  ∃ c, RestoreState Get fuel (Ok []) schedule state = Ok (mkFile c [], None) ∧
    length c = Z.to_nat (st_Size state) ∧
    ∀ b, 0 ≤ b < imageBlocks → read_block blockBytes c b = replay gens b.
Proof using json_typed Hgeom.
  intros Hval Hm Hsched Hpub. pose proof (restoreManifests_ok _ _ Hm) as Hwf.
  pose proof (published_readable fuel entries gens Hpub Hwf) as Hread. destruct Hgeom as (Hsize & _ & Himg).
  destruct (apply_plan_spec Get fuel (newManifestSourceLoader state) imageBlocks entries (schedule (plan_entries [] entries)))
    as (c & Ha & Hl & Hb); [done|by eapply restoreManifests_ok|apply Hsched|by rewrite Hsched|].
  exists c. unfold RestoreState, restorePlan. rewrite Hval, Hm. unfold createSparseImage. cbn [mbind result_mbind]. fold (sparse_image (st_Size state)). rewrite Hsize, Ha.
  split_and!; [done|by rewrite Z_to_nat_blocks by lia|].
  intros b Hbr. rewrite Hb by done. by apply chain_replay.
Qed.
End chains.

(** ** Termination of the walks *)

Lemma bind_fuel {A B} (r : result A) (f : A → result B) :
  r ≠ Err OutOfFuel → (∀ a, r = Ok a → f a ≠ Err OutOfFuel) → (r ≫= f) ≠ Err OutOfFuel.
Proof. destruct r; cbn; [|congruence]. intros _ Hf. by apply Hf. Qed.

Lemma fail_if_fuel c msg : fail_if c (Errorf msg) ≠ Err OutOfFuel.
Proof. by destruct c. Qed.

Lemma wrap_err_fuel {A} msg (r : result A) : wrap_err msg r ≠ Err OutOfFuel.
Proof. by destruct r. Qed.

(** Chains of guards and wrapped calls never report exhausted fuel. *)
Ltac no_fuel :=
  repeat first
    [ discriminate | apply fail_if_fuel | apply wrap_err_fuel
    | apply bind_fuel; [|intros [] _ || intros [? ?] _ || intros ? _] | case_if | case_bool_decide
    | match goal with
      | |- (match ?x with _ => _ end) ≠ _ => destruct x
      | |- (let '(_, _) := ?x in _) ≠ _ => destruct x
      end ].

Section walks.
Context `{Digest} `{Json Manifest} `{Json manifestBundle}.
Context (Get : string → result bytes) (state : State).

Lemma validate_refs_fuel name kind hi refs acc n : validate_refs name kind hi refs acc n ≠ Err OutOfFuel.
Proof.
  revert acc n. induction refs as [|r refs IH]; intros acc n; [done|]. cbn [validate_refs].
  apply bind_fuel; [|intros blocks _; apply bind_fuel; [apply fail_if_fuel|intros _ _; apply IH]].
  unfold validate_ref, ref_storage. no_fuel.
Qed.

Lemma decodeManifest_fuel key body g : decodeManifest state key body g ≠ Err OutOfFuel.
Proof.
  unfold decodeManifest. do 2 (apply bind_fuel; [first [apply wrap_err_fuel|apply fail_if_fuel]|intros ? _]).
  apply bind_fuel; [|done]. unfold validateManifest.
  do 2 (apply bind_fuel; [apply fail_if_fuel|intros ? _]). apply bind_fuel; [case_if; apply fail_if_fuel|intros ? _].
  apply bind_fuel; [apply validate_refs_fuel|intros [? ?] _]. destruct (validateExtents _ _); [apply fail_if_fuel|done].
Qed.

Lemma bundle_generations_fuel bundle first x y ms : bundle_generations state bundle first x y ms ≠ Err OutOfFuel.
Proof.
  revert first x y. induction ms as [|e ms IH]; intros first x y; [done|].
  cbn [bundle_generations]. apply bind_fuel; [apply wrap_err_fuel|intros ? _].
  apply bind_fuel; [apply fail_if_fuel|intros ? _]. apply IH.
Qed.

Lemma readManifestBundle_fuel ref : readManifestBundle Get state ref ≠ Err OutOfFuel.
Proof.
  unfold readManifestBundle.
  do 4 (apply bind_fuel; [first [apply wrap_err_fuel|apply fail_if_fuel]|intros ? _]).
  apply bind_fuel; [destruct (mb_Parent _); [apply fail_if_fuel|done]|intros ? _].
  apply bind_fuel; [|intros [? ?] _; no_fuel].
  apply bundle_generations_fuel.
Qed.

(** The bundle under [k] names the bundle under [k'] as its parent. *)
Definition parent_key (k k' : string) : Prop :=
  ∃ ref bundle parent, readManifestBundle Get state ref = Ok bundle ∧ mb_Parent bundle = Some parent ∧ bref_Key ref = k ∧ bref_Key parent = k'.

(** Bundles are named by the digest of their bytes and a bundle's bytes hold the
    name of its parent, so a cycle of bundles is a cycle of the digest. *)
Context (acyclic : ∀ k, ¬ tc parent_key k k).

(** The bundles behind the head, with the number of steps to them. *)
Inductive on_chain : nat → ManifestBundleRef → Prop :=
  | chain_head ref : st_ManifestBundle state = Some ref → on_chain 0 ref
  | chain_parent i ref bundle parent :
      on_chain i ref → readManifestBundle Get state ref = Ok bundle → mb_Parent bundle = Some parent → on_chain (S i) parent.

Lemma on_chain_unique i ref ref' : on_chain i ref → on_chain i ref' → ref = ref'.
Proof.
  intros Hc. revert ref'. induction Hc as [ref Hh|i ref b p _ IH Hb Hp]; intros ref' Hc'; inversion Hc' as [? Hh'|? ref1 b1 p1 Hc1 Hb1 Hp1]; subst; [congruence|].
  specialize (IH _ Hc1) as <-. rewrite Hb in Hb1. congruence.
Qed.

Lemma on_chain_below i ref j ref' : on_chain i ref → on_chain (i + S j) ref' → tc parent_key (bref_Key ref) (bref_Key ref').
Proof.
  intros Hc. revert ref'. induction j as [|j IH]; intros ref' Hc'.
  - rewrite Nat.add_1_r in Hc'. inversion Hc' as [|? ref1 b p Hc1 Hb Hp]; subst. rewrite (on_chain_unique _ _ _ Hc Hc1).
    apply tc_once. by exists ref1, b, ref'.
  - rewrite Nat.add_succ_r in Hc'. inversion Hc' as [|? ref1 b p Hc1 Hb Hp]; subst. eapply tc_r; [by apply IH|]. by exists ref1, b, ref'.
Qed.

(** A key stands for one reference of the chain. *)
Lemma on_chain_key i j ref ref' : on_chain i ref → on_chain j ref' → bref_Key ref = bref_Key ref' → ref = ref'.
Proof using acyclic.
  intros Hi Hj Hk. destruct (Nat.lt_trichotomy i j) as [Hlt|[->|Hlt]].
  - exfalso. apply (acyclic (bref_Key ref)). rewrite Hk at 2. apply (on_chain_below i _ (j - S i)); [done|]. by replace (i + S (j - S i))%nat with j by lia.
  - by eapply on_chain_unique.
  - exfalso. apply (acyclic (bref_Key ref)). rewrite Hk at 1. apply (on_chain_below j _ (i - S j)); [done|]. by replace (j + S (i - S j))%nat with i by lia.
Qed.

(** The cached bundles are bundles of the chain. *)
Definition cache_chained (cache : bundle_cache) : Prop :=
  ∀ k bundle, cache !! k = Some bundle → ∃ i ref, on_chain i ref ∧ bref_Key ref = k ∧ readManifestBundle Get state ref = Ok bundle.

(** The generations of a bundle are above those of its parent. *)
Lemma parent_below ref bundle parent :
  readManifestBundle Get state ref = Ok bundle → mb_Parent bundle = Some parent → 0 < bref_LastGeneration parent < bref_LastGeneration ref.
Proof.
  unfold readManifestBundle. intros Hb Hp. do 3 (apply result_bind_Ok in Hb as (? & _ & Hb)). apply result_bind_Ok in Hb as (? & Hv%fail_if_Ok & Hb).
  apply result_bind_Ok in Hb as (? & Hpar & Hb). apply result_bind_Ok in Hb as ([first previous] & Hg & Hb).
  apply result_bind_Ok in Hb as (? & _ & [= ->]). rewrite Hp in Hpar. apply fail_if_Ok in Hpar.
  apply orb_false_iff in Hv as [Hv Hne]. apply orb_false_iff in Hv as [Hv Hl]. apply orb_false_iff in Hpar as [Hval Hlt].
  apply bool_decide_eq_false in Hne. destruct (mb_Manifests bundle) as [|e es]; [done|]. cbn [bundle_generations] in Hg.
  apply result_bind_Ok in Hg as (m & _ & Hg). apply result_bind_Ok in Hg as (? & Hr%fail_if_Ok & _).
  apply negb_false_iff in Hval. unfold validManifestBundleRef in Hval. rewrite !andb_true_iff in Hval. zbool. lia.
Qed.

Definition chain_fuel_of (ref : option ManifestBundleRef) : nat :=
  match ref with Some ref => S (Z.to_nat (bref_LastGeneration ref)) | None => 0 end.

Lemma search_bundles_fuel fuel key g ref cache :
  (chain_fuel_of ref ≤ fuel)%nat → (∀ r, ref = Some r → ∃ i, on_chain i r) → cache_chained cache →
  search_bundles Get fuel state key g ref cache ≠ Err OutOfFuel ∧
  ∀ found cache', search_bundles Get fuel state key g ref cache = Ok (found, cache') → cache_chained cache'.
Proof using acyclic.
  revert ref cache. induction fuel as [|fuel IH]; intros [ref|] cache Hfuel Hon Hc; cbn [search_bundles];
    try (split; [done|]; by intros ? ? [= _ <-]).
  { cbn in Hfuel. lia. }
  case_if; [|split; [done|]; by intros ? ? [= _ <-]]. destruct (Hon ref eq_refl) as [i Hi].
  assert (∀ bundle cache1,
    (match cache !! bref_Key ref with
     | Some bundle => Ok (bundle, cache)
     | None => bundle ← readManifestBundle Get state ref; Ok (bundle, <[bref_Key ref := bundle]> cache)
     end) = Ok (bundle, cache1) → cache_chained cache1 ∧ readManifestBundle Get state ref = Ok bundle) as Hload.
  { intros bundle cache1. destruct (cache !! bref_Key ref) as [b|] eqn:Hk.
    - intros [= <- <-]. split; [done|]. destruct (Hc _ _ Hk) as (j & ref' & Hj & Heq & Hb). by rewrite (on_chain_key i j ref ref').
    - intros Hr. apply result_bind_Ok in Hr as (b & Hb & Hr). injection Hr as <- <-.
      split; [|done]. intros k b'. rewrite lookup_insert_Some. intros [[<- <-]|[_ Hk']]; [by exists i, ref|by apply Hc]. }
  destruct (match cache !! bref_Key ref with Some bundle => _ | None => _ end) as [[bundle cache1]|e] eqn:Hr.
  - destruct (Hload bundle cache1 eq_refl) as [Hc1 Hb]. cbn [mbind result_mbind]. case_if.
    + destruct (find_bundled key bundle); [|split; [done|]; by intros ? ? [= _ <-]].
      pose proof (decodeManifest_fuel key (bm_Body b) g) as Hd.
      destruct (decodeManifest state key (bm_Body b) g); cbn [mbind result_mbind]; split; try congruence; by intros ? ? [= _ <-].
    + apply IH; [| |done].
      * destruct (mb_Parent bundle) as [p|] eqn:Hp; cbn [chain_fuel_of] in *; [|lia]. pose proof (parent_below _ _ _ Hb Hp). lia.
      * intros r Hp. exists (S i). by eapply chain_parent.
  - cbn [mbind result_mbind]. split; [|done]. intros [= ->].
    destruct (cache !! bref_Key ref); [done|]. pose proof (readManifestBundle_fuel ref) as Hb.
    destruct (readManifestBundle Get state ref); cbn [mbind result_mbind] in Hr; congruence.
Qed.

Lemma head_on_chain r : st_ManifestBundle state = Some r → ∃ i, on_chain i r.
Proof. intros Hr. exists 0%nat. by constructor. Qed.

Lemma readManifest_fuel fuel key g cache :
  (chain_fuel_of (st_ManifestBundle state) ≤ fuel)%nat → cache_chained cache →
  readManifestWithSourceCache Get fuel state key g cache ≠ Err OutOfFuel ∧
  ∀ m src cache', readManifestWithSourceCache Get fuel state key g cache = Ok (m, src, cache') → cache_chained cache'.
Proof using acyclic.
  intros Hf Hc. unfold readManifestWithSourceCache. destruct (st_InlineManifests state !! key) as [body|].
  - pose proof (decodeManifest_fuel key body g) as Hd.
    destruct (decodeManifest state key body g); cbn [mbind result_mbind]; split; try congruence; by intros ? ? ? [= _ _ <-].
  - destruct (search_bundles_fuel fuel key g (st_ManifestBundle state) cache Hf (head_on_chain) Hc) as [Hs Hs'].
    destruct (search_bundles _ _ _ _ _ _ _) as [[[[m src]|] cache1]|e]; cbn [mbind result_mbind].
    + specialize (Hs' _ _ eq_refl). split; [done|]. by intros ? ? ? [= _ _ <-].
    + specialize (Hs' _ _ eq_refl). split.
      * apply bind_fuel; [apply wrap_err_fuel|intros d _]. apply bind_fuel; [apply decodeManifest_fuel|done].
      * intros m src cache' Hr. apply result_bind_Ok in Hr as (d & _ & Hr). apply result_bind_Ok in Hr as (m' & _ & Hr).
        by injection Hr as _ _ <-.
    + split; [congruence|done].
Qed.

Lemma restore_chain_fuel fuel bundleFuel key g n cache :
  (chain_fuel_of (st_ManifestBundle state) ≤ bundleFuel)%nat → cache_chained cache →
  n ≤ maxChain → maxChain + 1 ≤ Z.of_nat fuel + n →
  restore_chain Get fuel bundleFuel state key g n cache ≠ Err OutOfFuel.
Proof using acyclic.
  intros Hb. revert key g n cache. induction fuel as [|fuel IH]; intros key g n cache Hc Hn Hfuel; [lia|].
  cbn [restore_chain]. case_if; [done|]. destruct (readManifest_fuel bundleFuel key g cache Hb Hc) as [Hr Hr'].
  apply bind_fuel; [done|]. intros [[m src] cache1] Heq. specialize (Hr' _ _ _ Heq). case_if; [done|].
  apply bind_fuel; [apply fail_if_fuel|]. intros u Hlen%fail_if_Ok. zbool.
  apply bind_fuel; [|by intros [? ?] _]. apply IH; [done|lia|lia].
Qed.

Lemma history_chain_fuel fuel bundleFuel key g n behind cache :
  (chain_fuel_of (st_ManifestBundle state) ≤ bundleFuel)%nat → cache_chained cache →
  n ≤ maxChain → maxChain + 1 ≤ Z.of_nat fuel + n →
  history_chain Get fuel bundleFuel state key g n behind cache ≠ Err OutOfFuel.
Proof using acyclic.
  intros Hb. revert key g n behind cache. induction fuel as [|fuel IH]; intros key g n behind cache Hc Hn Hfuel; [lia|].
  cbn [history_chain]. case_if; [done|]. destruct (readManifest_fuel bundleFuel key g cache Hb Hc) as [Hr Hr'].
  destruct (readManifestWithSourceCache _ _ _ _ _ _) as [[[m src] cache1]|e]; [|case_if; congruence].
  specialize (Hr' _ _ _ eq_refl). case_if; [apply bind_fuel; [apply fail_if_fuel|done]|].
  apply bind_fuel; [apply fail_if_fuel|intros ? _]. apply bind_fuel; [apply fail_if_fuel|].
  intros u Hlen%fail_if_Ok. zbool. apply bind_fuel; [|done]. apply IH; [done|lia|lia].
Qed.

(** C19: the walks along the history terminate on every store whose bundles form
    no cycle (a bundle is named by the digest of its bytes, which hold its
    parent's name): given as many steps for the bundles as the number of the last
    generation in the head's bundle, neither [restoreManifests] nor [loadHistory]
    runs out of steps, whatever the store answers and however damaged its
    documents are: they return a chain or one of the code's own errors. *)
Theorem chain_walks_terminate bundleFuel :
  (chain_fuel_of (st_ManifestBundle state) ≤ bundleFuel)%nat →
  restoreManifests Get bundleFuel state ≠ Err OutOfFuel ∧ loadHistory Get bundleFuel state ≠ Err OutOfFuel.
Proof using acyclic.
  intros Hb. assert (cache_chained ∅) as Hc by (intros k b; by rewrite lookup_empty).
  assert (maxChain + 1 ≤ Z.of_nat chain_fuel + 0) as Hfuel by (unfold chain_fuel, maxChain; lia).
  split.
  - unfold restoreManifests. apply bind_fuel; [apply restore_chain_fuel; [done|done|unfold maxChain; lia|done]|].
    intros [es g] _. apply bind_fuel; [apply fail_if_fuel|done].
  - unfold loadHistory. case_if; [done|]. apply history_chain_fuel; [done|done|unfold maxChain; lia|done].
Qed.
End walks.

(** ** Witnesses *)

(** One volume of four blocks with one published generation, its manifest
    inline in the state and its segment in the store. *)
Definition sample_segment : Segment :=
  match @EncodeSegment toy_digest plain_gzip (Some sample_generation) with
  | Ok s => s
  | Err _ => mkSegment [] EmptyString 0 0 [] []
  end.

Definition sample_ref : ObjectRef :=
  mkObjectRef ("volumes/vol/segments/1-1-" +:+ seg_SHA256 sample_segment +:+ ".seg.gz") EmptyString EmptyString 0 []
    (seg_SHA256 sample_segment) (seg_Bytes sample_segment) (seg_Blocks sample_segment)
    (seg_Extents sample_segment) (seg_ZeroExtents sample_segment).

Definition sample_manifest : Manifest := mkManifest Format "id" 1 3 "delta" EmptyString [sample_ref] 0.

Definition sample_manifest_json : Json Manifest.
Proof.
  refine {| Marshal := fun _ => Ok [x6d];
            Unmarshal := fun b => if bytes_Equal b [x6d] then Ok sample_manifest else Err (Errorf "json");
            marshalable := fun a => a = sample_manifest |}.
  intros a ->. by exists [x6d].
Defined.

Definition no_bundle_json : Json manifestBundle.
Proof.
  by refine {| Marshal := fun _ => Err (Errorf "json"); Unmarshal := fun _ => Err (Errorf "json");
               marshalable := fun _ => False |}.
Defined.

Definition sample_manifest_key : string := @manifest_key toy_digest "vol" [x6d].

Definition sample_volume : State :=
  mkState Format "id" "vol" (4 * DefaultBlockSize) DefaultBlockSize "ext4" 1 sample_manifest_key
    {[ sample_manifest_key := [x6d] ]} None 0 3 false None.

Definition sample_get (key : string) : result bytes :=
  if bool_decide (key = ref_Key sample_ref) then Ok (seg_Data sample_segment) else Err ErrNotFound.

Definition sample_entry : manifestEntry := mkEntry sample_manifest_key sample_manifest EmptyString.

Lemma sample_extents : ref_Extents sample_ref = [mkExtent 1 2] ∧ ref_ZeroExtents sample_ref = [mkExtent 2 1].
Proof. vm_compute. split; reflexivity. Qed.

Lemma sample_typed body m : @Unmarshal _ sample_manifest_json body = Ok m → manifest_typed m.
Proof.
  cbn [Unmarshal sample_manifest_json]. case_if; [|done]. intros [= <-]. apply Forall_singleton.
  destruct sample_extents as [He Hz]. unfold ref_typed. rewrite He, Hz.
  split; apply Forall_singleton; unfold extent_u64, is_u64; cbn; lia.
Qed.

Lemma sample_geometry :
  st_Size sample_volume = 4 * DefaultBlockSize ∧ st_BlockSize sample_volume = DefaultBlockSize ∧ 0 ≤ 4 ≤ maxImageBlocks.
Proof. split_and!; [reflexivity..|lia|by vm_compute]. Qed.

Lemma sample_manifests :
  @restoreManifests toy_digest sample_manifest_json no_bundle_json sample_get 0 sample_volume = Ok [sample_entry].
Proof. vm_compute. reflexivity. Qed.

Lemma sample_valid : @validateState toy_digest sample_manifest_json (st_Name sample_volume) sample_volume = Ok tt.
Proof. vm_compute. reflexivity. Qed.

Lemma sample_segments_wf : segments_wf 4 (mf_Segments sample_manifest).
Proof.
  apply (@validateManifest_wf toy_digest sample_volume sample_manifest 1).
  - vm_compute. intuition congruence.
  - apply (sample_typed [x6d]). reflexivity.
  - vm_compute. reflexivity.
Qed.

Lemma restorePlan_newest_witness :
  ∃ refs, @restorePlan toy_digest sample_manifest_json no_bundle_json sample_get 0 sample_volume = Ok refs ∧
    disjoint_refs refs ∧ located <$> ref_for refs 1 = located <$> nonzero_ref (newest [sample_entry] 1) 1.
Proof.
  exists (plan_entries [] [sample_entry]).
  assert (@restorePlan toy_digest sample_manifest_json no_bundle_json sample_get 0 sample_volume =
    Ok (plan_entries [] [sample_entry])) as Hp by (unfold restorePlan; rewrite sample_manifests; reflexivity).
  destruct (@restorePlan_newest toy_digest sample_manifest_json no_bundle_json sample_get sample_typed sample_volume 4
    sample_geometry 0 [sample_entry] _ sample_manifests Hp) as (_ & Hd & Hf).
  split; [exact Hp|]. split; [exact Hd|]. apply Hf.
Defined.

Lemma sample_published :
  @published_as toy_digest plain_gzip sample_manifest_json no_bundle_json sample_get sample_volume 4 0 sample_entry
    sample_generation.
Proof.
  split; [exact sample_generation_wf|]. split; [by vm_compute|]. exists 0, [sample_segment].
  split; [vm_compute; reflexivity|]. apply Forall2_cons_2; [|apply Forall2_nil_2].
  split_and!; vm_compute; reflexivity.
Qed.

Lemma RestoreState_correct_witness :
  ∃ c, @RestoreState toy_digest plain_gzip sample_manifest_json no_bundle_json sample_get 0 (Ok []) reverse sample_volume =
      Ok (mkFile c [], None) ∧ Z.of_nat (length c) = 16384.
Proof.
  destruct (@RestoreState_correct toy_digest plain_gzip sample_manifest_json no_bundle_json sample_get sample_typed
    sample_volume 4 sample_geometry 0 reverse [sample_entry] sample_valid sample_manifests) as (c & Hr & Hl & _).
  - intros refs. apply reverse_Permutation.
  - apply Forall_singleton. vm_compute. reflexivity.
  - exists c. split; [exact Hr|]. rewrite Hl, Z2Nat.id by by vm_compute. reflexivity.
Defined.

Lemma restore_replays_history_witness :
  ∃ c, @RestoreState toy_digest plain_gzip sample_manifest_json no_bundle_json sample_get 0 (Ok []) id sample_volume =
      Ok (mkFile c [], None) ∧
    read_block blockBytes c 1 = replicate blockBytes x01 ∧ read_block blockBytes c 3 = zero_block.
Proof.
  destruct (@restore_replays_history toy_digest plain_gzip sample_manifest_json no_bundle_json sample_get sample_typed
    sample_volume 4 sample_geometry 0 id [sample_entry] [sample_generation] sample_valid sample_manifests)
    as (c & Hr & _ & Hb).
  - done.
  - apply Forall2_cons_2; [exact sample_published|apply Forall2_nil_2].
  - exists c. split; [exact Hr|]. split; [rewrite (Hb 1) by lia|rewrite (Hb 3) by lia]; reflexivity.
Defined.

Lemma applyDeltaToPlan_incremental_witness :
  located <$> ref_for (applyDeltaToPlan [] (checkpointRefs "k" 0 [sample_ref])) 1 =
  located <$> ref_for (checkpointReadyRefs (plan_entries [] [mkEntry "k" sample_manifest EmptyString])) 1.
Proof.
  apply (applyDeltaToPlan_incremental 4 ltac:(vm_compute; intuition congruence) [] "k" sample_manifest 1).
  - apply Forall_nil_2.
  - exact sample_segments_wf.
  - apply Forall_singleton. intros Hne. by destruct Hne.
  - discriminate.
Defined.

