(* ===== verification/Hydrator.v ===== *)
(** * The contract between the device and a lazy image

    [Device] (device.go) calls the [LazyImage] it was given before it reads or
    overwrites the local image, and after it has overwritten it.  [Hydrator] is
    that set of operations on the image file both work on; [HydratorLaws] is
    what the device relies on: an image has a logical content, block by block,
    which hydration makes visible in the file and never changes, and which a
    committed write replaces. *)
From S2P Require Import Prelude Extents Codec File Segment.
Local Open Scope Z_scope.

Class Hydrator (L : Type) : Type := {
  Hydrate : L → File → Z → Z → L * File * option error;
  PrepareWrite : L → File → Z → Z → L * File * option error;
  CommitWrite : L → Z → Z → L;
  HydratorClose : L → L * option error;
}.

(** Block [b] has a byte in [off, off+len). *)
Definition touches (off len b : Z) : Prop :=
  b * DefaultBlockSize < off + len ∧ off < (b + 1) * DefaultBlockSize ∧ 0 < len.

(** Block [b] is only partly inside [off, off+len). *)
Definition partly (off len b : Z) : Prop :=
  touches off len b ∧ (b * DefaultBlockSize < off ∨ off + len < (b + 1) * DefaultBlockSize).

#[export] Instance touches_dec off len b : Decision (touches off len b).
Proof. unfold touches. apply _. Defined.

Class HydratorLaws (L : Type) `{Hydrator L} : Type := {
  (** [hyd_inv n l f]: [l] is open on the image [f] of [n] blocks. *)
  hyd_inv : Z → L → File → Prop;
  (** The logical content of a block. *)
  hyd_view : L → File → Z → bytes;
  hyd_image n l f : hyd_inv n l f → image_of f n ∧ Z.of_nat (length (content f)) = n * DefaultBlockSize;
  hyd_view_length n l f b : hyd_inv n l f → 0 ≤ b < n → length (hyd_view l f b) = blockBytes;
  hyd_hydrate n l f off len l' f' err :
    hyd_inv n l f → 0 ≤ off → 0 ≤ len → off + len ≤ n * DefaultBlockSize →
    Hydrate l f off len = (l', f', err) →
    hyd_inv n l' f' ∧ (∀ b, 0 ≤ b < n → hyd_view l' f' b = hyd_view l f b) ∧
    (err = None → ∀ b, touches off len b → read_block blockBytes (content f') b = hyd_view l f b);
  hyd_prepare n l f off len l' f' err :
    hyd_inv n l f → 0 ≤ off → 0 ≤ len → off + len ≤ n * DefaultBlockSize →
    PrepareWrite l f off len = (l', f', err) →
    hyd_inv n l' f' ∧ (∀ b, 0 ≤ b < n → hyd_view l' f' b = hyd_view l f b) ∧
    (err = None → ∀ b, partly off len b → read_block blockBytes (content f') b = hyd_view l f b);
  hyd_commit n l f off len c :
    hyd_inv n l f → 0 ≤ off → 0 ≤ len → off + len ≤ n * DefaultBlockSize →
    length c = length (content f) →
    (∀ b, 0 ≤ b < n → ¬ touches off len b → read_block blockBytes c b = read_block blockBytes (content f) b) →
    hyd_inv n (CommitWrite l off len) (mkFile c []) ∧
    ∀ b, 0 ≤ b < n → hyd_view (CommitWrite l off len) (mkFile c []) b =
      if decide (touches off len b) then read_block blockBytes c b else hyd_view l f b;
}.

(** A device opened without a lazy image. *)
#[export] Instance eager : Hydrator Empty_set := {
  Hydrate l f _ _ := (l, f, None);
  PrepareWrite l f _ _ := (l, f, None);
  CommitWrite l _ _ := l;
  HydratorClose l := (l, None);
}.

#[export, refine] Instance eager_laws : HydratorLaws Empty_set := {
  hyd_inv _ l _ := match l with end;
  hyd_view l _ _ := match l with end;
}.
Proof. all: by intros ? []. Defined.
