(* ===== verification/Device.v ===== *)
(** * The block device ([internal/replica/device.go])

    The device keeps the disposable local image and the set of blocks changed
    since the last seal.  The changed blocks live in buffers that are shared
    with sealed generations and recycled through a pool, so buffers are
    locations of a heap and the maps of the code map blocks to locations. *)
From S2P Require Import Prelude Extents Codec File Segment Hydrator.
Local Open Scope Z_scope.

Abbreviation loc := nat.

(** A sealed generation: the block map it took over from the device.
    [sg_snapshot] is the content of its blocks when it was sealed (a
    specification field). *)
Record Sealed : Type := mkSealed { sg_blocks : gmap Z loc; sg_bytes : Z; sg_snapshot : gmap Z bytes }.

(** The callbacks the device makes. *)
Inductive event : Type := EvBackpressure | EvDirty | EvDirtyChange (bytes : Z).

(** [Device].  Callbacks are recorded in [dv_events]; [dv_picks] are the
    answers of [blockPool.Get] to come: the index of the pooled buffer it
    returns, or none.  [dv_sealed] lists the generations that were sealed or
    replayed and not released (a specification field). *)
Record Device (L : Type) : Type := mkDevice {
  dv_file : File;
  dv_size : Z;
  dv_maxDirty : Z;
  dv_dirty : Z;
  dv_active : gmap Z loc;
  dv_heap : gmap loc bytes;
  dv_pool : list loc;
  dv_next : loc;
  dv_picks : list (option nat);
  dv_onBackpressure : bool;
  dv_onDirty : bool;
  dv_onDirtyChange : bool;
  dv_events : list event;
  dv_dirtyThreshold : Z;
  dv_dirtyNotified : bool;
  dv_onFlush : bool;
  dv_onDurableFlush : bool;
  dv_skipLocalFlush : bool;
  dv_localDirty : bool;
  dv_hydrator : option L;
  dv_closed : bool;
  dv_queuedFlush : bool;
  dv_sealed : list Sealed;
}.
Arguments mkDevice {L}.
Arguments dv_file {L}. Arguments dv_size {L}. Arguments dv_maxDirty {L}. Arguments dv_dirty {L}.
Arguments dv_active {L}. Arguments dv_heap {L}. Arguments dv_pool {L}. Arguments dv_next {L}. Arguments dv_picks {L}.
Arguments dv_onBackpressure {L}. Arguments dv_onDirty {L}. Arguments dv_onDirtyChange {L}. Arguments dv_events {L}.
Arguments dv_dirtyThreshold {L}. Arguments dv_dirtyNotified {L}. Arguments dv_onFlush {L}.
Arguments dv_onDurableFlush {L}. Arguments dv_skipLocalFlush {L}. Arguments dv_localDirty {L}.
Arguments dv_hydrator {L}. Arguments dv_closed {L}. Arguments dv_queuedFlush {L}. Arguments dv_sealed {L}.

Section device.
Context {L : Type} `{Hydrator L}.
Implicit Types d : Device L.

(** Field updates. *)
Definition set_image (f : File) (h : option L) d : Device L :=
  mkDevice f (dv_size d) (dv_maxDirty d) (dv_dirty d) (dv_active d) (dv_heap d) (dv_pool d) (dv_next d) (dv_picks d)
    (dv_onBackpressure d) (dv_onDirty d) (dv_onDirtyChange d) (dv_events d) (dv_dirtyThreshold d) (dv_dirtyNotified d)
    (dv_onFlush d) (dv_onDurableFlush d) (dv_skipLocalFlush d) (dv_localDirty d) h (dv_closed d) (dv_queuedFlush d)
    (dv_sealed d).
Definition set_buffers (dirty : Z) (active : gmap Z loc) (heap : gmap loc bytes) (pool : list loc) (next : loc)
    (picks : list (option nat)) (sealed : list Sealed) d : Device L :=
  mkDevice (dv_file d) (dv_size d) (dv_maxDirty d) dirty active heap pool next picks
    (dv_onBackpressure d) (dv_onDirty d) (dv_onDirtyChange d) (dv_events d) (dv_dirtyThreshold d) (dv_dirtyNotified d)
    (dv_onFlush d) (dv_onDurableFlush d) (dv_skipLocalFlush d) (dv_localDirty d) (dv_hydrator d) (dv_closed d)
    (dv_queuedFlush d) sealed.
Definition set_flags (events : list event) (threshold : Z) (notified localDirty : bool) d : Device L :=
  mkDevice (dv_file d) (dv_size d) (dv_maxDirty d) (dv_dirty d) (dv_active d) (dv_heap d) (dv_pool d) (dv_next d) (dv_picks d)
    (dv_onBackpressure d) (dv_onDirty d) (dv_onDirtyChange d) events threshold notified
    (dv_onFlush d) (dv_onDurableFlush d) (dv_skipLocalFlush d) localDirty (dv_hydrator d) (dv_closed d)
    (dv_queuedFlush d) (dv_sealed d).
Definition set_handlers (bp dirty change flush durable skip queued : bool) d : Device L :=
  mkDevice (dv_file d) (dv_size d) (dv_maxDirty d) (dv_dirty d) (dv_active d) (dv_heap d) (dv_pool d) (dv_next d) (dv_picks d)
    bp dirty change (dv_events d) (dv_dirtyThreshold d) (dv_dirtyNotified d)
    flush durable skip (dv_localDirty d) (dv_hydrator d) (dv_closed d) queued (dv_sealed d).
Definition set_closed_dirty d : Device L :=
  mkDevice (dv_file d) (dv_size d) (dv_maxDirty d) 0 (dv_active d) (dv_heap d) (dv_pool d) (dv_next d) (dv_picks d)
    (dv_onBackpressure d) (dv_onDirty d) (dv_onDirtyChange d) (dv_events d) (dv_dirtyThreshold d) (dv_dirtyNotified d)
    (dv_onFlush d) (dv_onDurableFlush d) (dv_skipLocalFlush d) (dv_localDirty d) (dv_hydrator d) true
    (dv_queuedFlush d) (dv_sealed d).

Definition emit (e : event) d : Device L :=
  set_flags (dv_events d ++ [e]) (dv_dirtyThreshold d) (dv_dirtyNotified d) (dv_localDirty d) d.

(** ** Opening and handlers *)

(** [OpenDevice]: [opened] is the error of opening or truncating the file [f],
    [picks] what the pool of the new device will answer. *)
Definition OpenDevice (opened : option error) (picks : list (option nat)) (f : File) (size maxDirty : Z) : result (Device L) :=
  _ ← fail_if ((size <=? 0) || negb (size `rem` DefaultBlockSize =? 0))
        (Errorf "image size must be a positive multiple of %d");
  let maxDirty := if maxDirty <=? 0 then Z.shiftl 256 20 else maxDirty in
  match opened with
  | Some e => Err e
  | None => Ok (mkDevice (Truncate f size) size maxDirty 0 ∅ ∅ [] 0 picks false false false [] 0 false false false false false None false false [])
  end.

Definition SetBackpressureHandler d : Device L :=
  set_handlers true (dv_onDirty d) (dv_onDirtyChange d) (dv_onFlush d) (dv_onDurableFlush d) (dv_skipLocalFlush d)
    (dv_queuedFlush d) d.

Definition SetDirtyHandler (threshold : Z) d : Device L :=
  set_flags (dv_events d) threshold ((0 <? threshold) && (threshold <=? dv_dirty d)) (dv_localDirty d)
    (set_handlers (dv_onBackpressure d) true (dv_onDirtyChange d) (dv_onFlush d) (dv_onDurableFlush d)
      (dv_skipLocalFlush d) (dv_queuedFlush d) d).

Definition SetDirtyObserver d : Device L :=
  set_handlers (dv_onBackpressure d) (dv_onDirty d) true (dv_onFlush d) (dv_onDurableFlush d) (dv_skipLocalFlush d)
    (dv_queuedFlush d) d.

Definition observeDirtyLocked d : Device L :=
  if dv_onDirtyChange d then emit (EvDirtyChange (dv_dirty d)) d else d.

Definition SetFlushHandler d : Device L :=
  set_handlers (dv_onBackpressure d) (dv_onDirty d) (dv_onDirtyChange d) true false false false d.

Definition SetDurableFlushHandler d : Device L :=
  set_handlers (dv_onBackpressure d) (dv_onDirty d) (dv_onDirtyChange d) false true true true d.

Definition SetLazyImage (image : option L) d : Device L := set_image (dv_file d) image d.

Definition notifyDirtyLocked d : Device L :=
  if negb (dv_onDirty d) || (dv_dirtyThreshold d <=? 0) || dv_dirtyNotified d || (dv_dirty d <? dv_dirtyThreshold d) then d
  else emit EvDirty (set_flags (dv_events d) (dv_dirtyThreshold d) true (dv_localDirty d) d).

(** ** Blocks and buffers *)

Definition blockRange (off length : Z) : Z * Z :=
  let first := off `quot` DefaultBlockSize in
  if length =? 0 then (first, first) else (first, (off + length - 1) `quot` DefaultBlockSize + 1).

Definition newBlockCount (first last : Z) d : Z :=
  Z.of_nat (length (filter (fun b => dv_active d !! b = None) (seqZ first (last - first)))).

(** [newBlock]: a buffer from the pool, with whatever it holds, or a new one. *)
Definition newBlock d : Device L * loc :=
  let '(pick, picks) := match dv_picks d with [] => (None, []) | p :: rest => (p, rest) end in
  match pick ≫= fun i => dv_pool d !! i with
  | Some buf =>
      (set_buffers (dv_dirty d) (dv_active d) (dv_heap d)
         (match pick with Some i => take i (dv_pool d) ++ drop (S i) (dv_pool d) | None => dv_pool d end)
         (dv_next d) picks (dv_sealed d) d, buf)
  | None =>
      (set_buffers (dv_dirty d) (dv_active d) (<[dv_next d := replicate blockBytes x00]> (dv_heap d)) (dv_pool d)
         (S (dv_next d)) picks (dv_sealed d) d, dv_next d)
  end.

(** [d.active[block]], or a new buffer that becomes it. *)
Definition active_buffer (block : Z) d : Device L * loc * bool :=
  match dv_active d !! block with
  | Some buf => (d, buf, true)
  | None =>
      let '(d, buf) := newBlock d in
      (set_buffers (dv_dirty d + DefaultBlockSize) (<[block := buf]> (dv_active d)) (dv_heap d) (dv_pool d) (dv_next d)
         (dv_picks d) (dv_sealed d) d, buf, false)
  end.

Definition set_heap (heap : gmap loc bytes) d : Device L :=
  set_buffers (dv_dirty d) (dv_active d) heap (dv_pool d) (dv_next d) (dv_picks d) (dv_sealed d) d.

Definition buffer (buf : loc) d : bytes := default [] (dv_heap d !! buf).

(** [d.file.ReadAt(buf, off)]; the error unless it is [io.EOF]. *)
Definition read_into (buf : loc) (off : Z) d : Device L * option error :=
  let '(f, got, err) := ReadAt (dv_file d) (length (buffer buf d)) off in
  let d := set_heap (<[buf := write_bytes (buffer buf d) 0 got]> (dv_heap d)) (set_image f (dv_hydrator d) d) in
  (d, match err with Some e => if errors_Is e ErrEOF then None else Some e | None => None end).

(** [capture] over the blocks [blocks]. *)
Fixpoint capture (blocks : list Z) d : Device L * option error :=
  match blocks with
  | [] => (d, None)
  | block :: rest =>
      let '(d, buf, _) := active_buffer block d in
      match read_into buf (block * DefaultBlockSize) d with
      | (d, Some e) => (d, Some e)
      | (d, None) => capture rest d
      end
  end.

(** [captureWrite] over the blocks [blocks]. *)
Fixpoint captureWrite (data : bytes) (off : Z) (blocks : list Z) d : Device L * option error :=
  match blocks with
  | [] => (d, None)
  | block :: rest =>
      let writeEnd := off + Z.of_nat (length data) in
      let blockOff := block * DefaultBlockSize in
      let start := Z.max off blockOff in
      let e := Z.min writeEnd (blockOff + DefaultBlockSize) in
      let '(d, buf, exists_) := active_buffer block d in
      let '(d, err) :=
        if negb exists_ && (negb (start =? blockOff) || negb (e =? blockOff + DefaultBlockSize))
        then read_into buf blockOff d else (d, None) in
      match err with
      | Some err => (d, Some err)
      | None =>
          let part := take (Z.to_nat (e - start)) (drop (Z.to_nat (start - off)) data) in
          captureWrite data off rest
            (set_heap (<[buf := write_bytes (buffer buf d) (Z.to_nat (start - blockOff)) part]> (dv_heap d)) d)
      end
  end.

(** ** Reading and writing *)

Definition dev_ReadAt (n : Z) (off : Z) d : Device L * bytes * option error :=
  if dv_closed d then (d, [], Some ErrDeviceClosed) else
  if (off <? 0) || (dv_size d <=? off) then (d, [], Some ErrEOF) else
  let n := if dv_size d - off <? n then dv_size d - off else n in
  match match dv_hydrator d with
        | Some l => let '(l, f, err) := Hydrate l (dv_file d) off n in (set_image f (Some l) d, err)
        | None => (d, None)
        end with
  | (d, Some e) => (d, [], Some e)
  | (d, None) =>
      let '(f, got, err) := ReadAt (dv_file d) (Z.to_nat n) off in
      (set_image f (dv_hydrator d) d, got, err)
  end.

(** The outcome of a call that may wait on [d.ready]. *)
Inductive io_result : Type := Blocked (reported : bool) | Done (n : Z) (err : option error).

(** The wait loop of [WriteAt] and [Trim]: [None] when the call may go on, else
    it waits, after the first wait has been reported.  The loop is entered
    again, with [reported] as it was left, when the condition is signalled. *)
Definition must_wait (first last : Z) d : bool :=
  negb (dv_closed d) && (0 <? dv_dirty d) &&
  (dv_maxDirty d <? dv_dirty d + newBlockCount first last d * DefaultBlockSize).

Definition wait (reported : bool) d : Device L * io_result :=
  if negb reported && dv_onBackpressure d then (emit EvBackpressure d, Blocked true) else (d, Blocked reported).

Definition prepare (off len : Z) d : Device L * option error :=
  match dv_hydrator d with
  | Some l => let '(l, f, err) := PrepareWrite l (dv_file d) off len in (set_image f (Some l) d, err)
  | None => (d, None)
  end.

Definition commit (off len : Z) d : Device L :=
  match dv_hydrator d with
  | Some l => set_image (dv_file d) (Some (CommitWrite l off len)) d
  | None => d
  end.

Definition block_list (range : Z * Z) : list Z := seqZ range.1 (range.2 - range.1).

Definition dev_WriteAt (reported : bool) (p : bytes) (off : Z) d : Device L * io_result :=
  let len := Z.of_nat (length p) in
  if dv_closed d then (d, Done 0 (Some ErrDeviceClosed)) else
  if (off <? 0) || (dv_size d - off <? len) then (d, Done 0 (Some ErrShortWrite)) else
  let '(first, last) := blockRange off len in
  if must_wait first last d then wait reported d else
  match prepare off len d with
  | (d, Some e) => (d, Done 0 (Some e))
  | (d, None) =>
      let '(f, n, err) := WriteAt (dv_file d) p off in
      let d := set_image f (dv_hydrator d) d in
      if 0 <? n then
        let d := set_flags (dv_events d) (dv_dirtyThreshold d) (dv_dirtyNotified d) true d in
        match captureWrite (take (Z.to_nat n) p) off (block_list (blockRange off n)) d with
        | (d, Some captureErr) => (d, Done n (Some captureErr))
        | (d, None) => (notifyDirtyLocked (observeDirtyLocked (commit off n d)), Done n err)
        end
      else (d, Done n err)
  end.

(** The loop that writes zeros when the hole cannot be punched. *)
Fixpoint write_zeros (fuel : nat) (f : File) (off written length : Z) : File * option error :=
  if written <? length then
    match fuel with
    | O => (f, Some OutOfFuel)
    | S fuel =>
        let n := Z.min (Z.min length (Z.shiftl 1 20)) (length - written) in
        match WriteAt f (replicate (Z.to_nat n) x00) (off + written) with
        | (f, _, Some e) => (f, Some e)
        | (f, _, None) => write_zeros fuel f off (written + n) length
        end
    end
  else (f, None).

Definition Trim (reported : bool) (off length : Z) d : Device L * io_result :=
  if dv_closed d then (d, Done 0 (Some ErrDeviceClosed)) else
  if (off <? 0) || (length <? 0) || (dv_size d - off <? length) then (d, Done 0 (Some (Errorf "trim outside device"))) else
  let '(first, last) := blockRange off length in
  if must_wait first last d then wait reported d else
  match prepare off length d with
  | (d, Some e) => (d, Done 0 (Some e))
  | (d, None) =>
      let '(f, err) :=
        match PunchHole (dv_file d) off length with
        | (f, None) => (f, None)
        | (f, Some _) => write_zeros (Z.to_nat length) f off 0 length
        end in
      let d := set_image f (dv_hydrator d) d in
      match err with
      | Some e => (d, Done 0 (Some e))
      | None =>
          match capture (block_list (first, last)) d with
          | (d, Some e) => (d, Done 0 (Some e))
          | (d, None) =>
              let d := commit off length d in
              let d := if 0 <? length then set_flags (dv_events d) (dv_dirtyThreshold d) (dv_dirtyNotified d) true d else d in
              (notifyDirtyLocked (observeDirtyLocked d), Done 0 None)
          end
      end
  end.

(** ** Sealing and flushing *)

Definition contents (blocks : gmap Z loc) d : gmap Z bytes := (fun buf => buffer buf d) <$> blocks.

Definition sealLocked d : Device L * option Sealed :=
  if bool_decide (dv_active d = ∅) then (d, None) else
  let g := mkSealed (dv_active d) (Z.of_nat (size (dv_active d)) * DefaultBlockSize) (contents (dv_active d) d) in
  (set_buffers (dv_dirty d) ∅ (dv_heap d) (dv_pool d) (dv_next d) (dv_picks d) (dv_sealed d ++ [g]) d, Some g).

Definition Seal d : Device L * option Sealed := sealLocked d.

(** The generation as the journal and the encoder read it, now. *)
Definition sealed_generation (g : Sealed) d : Generation := mkGeneration (contents (sg_blocks g) d) (sg_bytes g) 0.

Definition QueuedFlushEnabled d : bool := dv_queuedFlush d.

(** [BeginDurableFlush]: the generation handed to the flush handler. *)
Definition BeginDurableFlush d : Device L * result (option Sealed) :=
  if dv_closed d then (d, Err ErrDeviceClosed) else
  if negb (dv_onDurableFlush d) then (d, Err (Errorf "durable flush is not configured")) else
  let '(d, g) := sealLocked d in (d, Ok g).

(** What [Flush] goes on to do once the lock is released: fail, wait for the
    durable handler it gave a generation, run the flush handler, or return. *)
Inductive flush_action : Type := FlushErr (e : error) | FlushDurable (g : option Sealed) | FlushHandler | FlushDone.

(** [Flush]; [sync] is the outcome of fdatasync. *)
Definition Flush (sync : option error) d : Device L * flush_action :=
  if dv_closed d then (d, FlushErr ErrDeviceClosed) else
  let '(d, err) :=
    if negb (dv_skipLocalFlush d) && dv_localDirty d then
      match sync with
      | Some e => (d, Some e)
      | None => (set_flags (dv_events d) (dv_dirtyThreshold d) (dv_dirtyNotified d) false d, None)
      end
    else (d, None) in
  match err with
  | Some e => (d, FlushErr e)
  | None =>
      if dv_onDurableFlush d then let '(d, g) := sealLocked d in (d, FlushDurable g)
      else if dv_onFlush d then (d, FlushHandler) else (d, FlushDone)
  end.

(** [Release]: generation number [i] of the sealed ones.  The last loop puts
    its buffers into the pool. *)
Definition sealed_Bytes (g : Sealed) d : Z :=
  if negb (sg_bytes g =? 0) then sg_bytes g
  else foldr Z.add 0 ((fun p => Z.of_nat (length (buffer p.2 d))) <$> map_to_list (sg_blocks g)).

Definition Release (i : nat) d : Device L :=
  match dv_sealed d !! i with
  | None => d
  | Some g =>
      let dirty := dv_dirty d - sealed_Bytes g d in
      let dirty := if dirty <? 0 then 0 else dirty in
      let d := set_buffers dirty (dv_active d) (dv_heap d) (dv_pool d) (dv_next d) (dv_picks d)
                 (take i (dv_sealed d) ++ drop (S i) (dv_sealed d)) d in
      let d := set_flags (dv_events d) (dv_dirtyThreshold d)
                 (if dirty <? dv_dirtyThreshold d then false else dv_dirtyNotified d) (dv_localDirty d) d in
      let d := observeDirtyLocked d in
      set_buffers (dv_dirty d) (dv_active d) (dv_heap d) (dv_pool d ++ (map_to_list (sg_blocks g)).*2) (dv_next d)
        (dv_picks d) (dv_sealed d) d
  end.

Definition DirtyBytes d : Z := dv_dirty d.

(** ** Marking, replaying, closing *)

(** [captureNonZero] over the blocks [blocks]. *)
Fixpoint captureNonZero (blocks : list Z) d : Device L * option error :=
  match blocks with
  | [] => (d, None)
  | block :: rest =>
      let '(f, got, err) := ReadAt (dv_file d) blockBytes (block * DefaultBlockSize) in
      let d := set_image f (dv_hydrator d) d in
      let buf := write_bytes (replicate blockBytes x00) 0 got in
      match match err with Some e => if errors_Is e ErrEOF then None else Some e | None => None end with
      | Some e => (d, Some e)
      | None =>
          captureNonZero rest
            (if isZero buf then d
             else set_buffers (dv_dirty d + DefaultBlockSize) (<[block := dv_next d]> (dv_active d))
                    (<[dv_next d := buf]> (dv_heap d)) (dv_pool d) (S (dv_next d)) (dv_picks d) (dv_sealed d) d)
      end
  end.

Definition markByScan d : Device L * option error :=
  captureNonZero (block_list (0, dv_size d `quot` DefaultBlockSize)) d.

(** What lseek answers at an offset: the next data and the hole after it
    ([None] when there is none), no more data, or a failure of either call. *)
Inductive seek_result : Type := SeekData (data : Z) (hole : option Z) | SeekEnd | SeekFails.

Fixpoint mark_loop (seeks : list seek_result) (off : Z) d : Device L * option error :=
  if off <? dv_size d then
    match seeks with
    | [] | SeekEnd :: _ => (d, None)
    | SeekFails :: _ => markByScan d
    | SeekData data hole :: rest =>
        let hole := default (dv_size d) hole in
        match captureNonZero (block_list (blockRange data (hole - data))) d with
        | (d, Some e) => (d, Some e)
        | (d, None) => mark_loop rest hole d
        end
    end
  else (d, None).

Definition MarkAllocated (seeks : list seek_result) d : Device L * option error :=
  if dv_closed d then (d, Some ErrDeviceClosed) else mark_loop seeks 0 d.

(** [Replay]: the generations as the journal holds them; the blocks of one
    generation come in any order, here the order of [map_to_list]. *)
Fixpoint replay_blocks (blocks : list (Z * bytes)) d : Device L * option error :=
  match blocks with
  | [] => (d, None)
  | (block, data) :: rest =>
      if negb (Z.of_nat (length data) =? DefaultBlockSize) || (dv_size d `quot` DefaultBlockSize <=? block) then
        (d, Some (Errorf "invalid journal block %d"))
      else
        let offset := block * DefaultBlockSize in
        match WriteAt (dv_file d) data offset with
        | (f, _, Some e) => (set_image f (dv_hydrator d) d, Some e)
        | (f, _, None) => replay_blocks rest (commit offset DefaultBlockSize (set_image f (dv_hydrator d) d))
        end
  end.

(** The buffers of a generation enter the heap when it is replayed. *)
Fixpoint adopt (blocks : list (Z * bytes)) d : Device L * gmap Z loc :=
  match blocks with
  | [] => (d, ∅)
  | (block, data) :: rest =>
      let buf := dv_next d in
      let d := set_buffers (dv_dirty d) (dv_active d) (<[buf := data]> (dv_heap d)) (dv_pool d) (S buf) (dv_picks d)
                 (dv_sealed d) d in
      let '(d, m) := adopt rest d in (d, <[block := buf]> m)
  end.

Fixpoint replay_generations (gens : list Generation) d : Device L * option error :=
  match gens with
  | [] => (d, None)
  | g :: rest =>
      match replay_blocks (map_to_list (GenBlocks g)) d with
      | (d, Some e) => (d, Some e)
      | (d, None) =>
          let '(d, blocks) := adopt (map_to_list (GenBlocks g)) d in
          let sealed := mkSealed blocks (gen_bytes g) (GenBlocks g) in
          replay_generations rest
            (set_buffers (dv_dirty d + Generation_Bytes (Some g)) (dv_active d) (dv_heap d) (dv_pool d) (dv_next d)
               (dv_picks d) (dv_sealed d ++ [sealed]) d)
      end
  end.

Definition Replay (gens : list Generation) d : Device L * option error :=
  if dv_closed d then (d, Some ErrDeviceClosed) else
  match replay_generations gens d with
  | (d, Some e) => (d, Some e)
  | (d, None) => (observeDirtyLocked d, None)
  end.

(** [Close]; [close] is the outcome of closing the file. *)
Definition dev_Close (close : option error) d : Device L * option error :=
  if dv_closed d then (d, None) else
  let d := observeDirtyLocked (set_closed_dirty d) in
  match dv_hydrator d with
  | Some l => let '(l, err) := HydratorClose l in (set_image (dv_file d) (Some l) d, errors_Join close err)
  | None => (d, close)
  end.

(** The part of [Driver.mountVolume] that brings the device up: open it on the
    restored image, attach the lazy image, replay the journal's generations. *)
Definition start_device (opened : option error) (picks : list (option nat)) (f : File) (size maxDirty : Z) (lazyImage : option L)
    (recovered : list Generation) : result (Device L) :=
  d ← OpenDevice opened picks f size maxDirty;
  let d := SetDirtyObserver (SetLazyImage lazyImage d) in
  d ← (if 0 <? Z.of_nat (length recovered) then
         match Replay recovered d with
         | (_, Some e) => Err (Errorf "replay local journal: %w")
         | (d, None) => Ok d
         end
       else Ok d);
  Ok (SetBackpressureHandler d).
End device.
