(* ===== verification/DeviceProps.v ===== *)
(** * Correctness of the block device

    The logical content of the device, the invariant that ties the local image,
    the captured buffers, the pool and the sealed generations together, what
    every operation does to them, and runs of operations. *)
From S2P Require Import Prelude Extents Codec File Segment Hydrator Device.
Local Open Scope Z_scope.

(** ** The invariant *)

Section invariant.
Context {L : Type} `{HydratorLaws L}.
Context (n : Z) (Hn : 0 < n ≤ maxImageBlocks).
Implicit Types d : Device L.

(** The logical content of block [b]: what a read of it returns. *)
Definition dev_view d (b : Z) : bytes :=
  match dv_hydrator d with
  | Some l => hyd_view l (dv_file d) b
  | None => read_block blockBytes (content (dv_file d)) b
  end.

Definition image_inv d : Prop :=
  dv_size d = n * DefaultBlockSize ∧
  match dv_hydrator d with
  | Some l => hyd_inv n l (dv_file d)
  | None => image_of (dv_file d) n ∧ Z.of_nat (length (content (dv_file d))) = n * DefaultBlockSize
  end.

(** Who owns which buffer: a block of the active map, the pool, or a sealed
    generation. *)
Definition sealed_locs (g : Sealed) : list loc := (map_to_list (sg_blocks g)).*2.
Definition owned d : list loc :=
  (map_to_list (dv_active d)).*2 ++ dv_pool d ++ concat (sealed_locs <$> dv_sealed d).

Definition buffer_ok (next : loc) (heap : gmap loc bytes) (buf : loc) : Prop :=
  (buf < next)%nat ∧ ∃ bs, heap !! buf = Some bs ∧ length bs = blockBytes.

Definition buffers_inv d : Prop :=
  NoDup (owned d) ∧ Forall (buffer_ok (dv_next d) (dv_heap d)) (owned d).

(** Sealed generations hold what they held when they were sealed. *)
Definition sealed_inv d : Prop :=
  Forall (fun g => contents (sg_blocks g) d = sg_snapshot g ∧
                   sg_bytes g = Z.of_nat (size (sg_blocks g)) * DefaultBlockSize ∧ sg_blocks g ≠ ∅) (dv_sealed d).

(** The active buffers mirror the image, and every other block is as it was at
    the last seal ([base]). *)
Definition active_inv (base : Z → bytes) d : Prop :=
  (∀ b buf, dv_active d !! b = Some buf → 0 ≤ b < n ∧ dv_heap d !! buf = Some (dev_view d b)) ∧
  (∀ b, 0 ≤ b < n → dv_active d !! b = None → dev_view d b = base b).

(** The dirty counter is the size of everything unpublished. *)
Definition dirty_inv d : Prop :=
  dv_closed d = false →
  dv_dirty d = Z.of_nat (size (dv_active d)) * DefaultBlockSize + foldr Z.add 0 (sg_bytes <$> dv_sealed d).

Definition dev_inv (base : Z → bytes) d : Prop :=
  image_inv d ∧ buffers_inv d ∧ sealed_inv d ∧ active_inv base d ∧ dirty_inv d.

(** *** Images *)

Definition file_inv d : Prop :=
  image_of (dv_file d) n ∧ Z.of_nat (length (content (dv_file d))) = n * DefaultBlockSize.

Lemma image_inv_file d : image_inv d → file_inv d.
Proof. intros [_ Hi]. destruct (dv_hydrator d); [by eapply hyd_image|done]. Qed.

Lemma file_block_length d b :
  file_inv d → 0 ≤ b < n → (Z.to_nat b * blockBytes + blockBytes ≤ length (content (dv_file d)))%nat.
Proof. intros [_ Hl] Hb. pose proof blockBytes_Z. nia. Qed.

Lemma dev_view_length d b : image_inv d → 0 ≤ b < n → length (dev_view d b) = blockBytes.
Proof.
  intros Hi Hb. pose proof (file_block_length d b (image_inv_file d Hi) Hb) as Hl. unfold dev_view. destruct Hi as [_ Hi].
  destruct (dv_hydrator d); [by eapply hyd_view_length|]. by apply read_block_length.
Qed.

(** *** Buffers *)

Lemma owned_active d b buf : dv_active d !! b = Some buf → buf ∈ owned d.
Proof.
  intros Hb. apply elem_of_app. left. apply list_elem_of_fmap. exists (b, buf). split; [done|].
  by apply elem_of_map_to_list.
Qed.

Lemma owned_sealed d g b buf : g ∈ dv_sealed d → sg_blocks g !! b = Some buf → buf ∈ owned d.
Proof.
  intros Hg Hb. unfold owned. rewrite !elem_of_app. right. right. apply elem_of_concat.
  exists (sealed_locs g). split.
  - apply list_elem_of_fmap. exists (b, buf). split; [done|]. by apply elem_of_map_to_list.
  - apply list_elem_of_fmap. by exists g.
Qed.

(** Buffers of different owners are different. *)
Lemma active_inj d b1 b2 buf :
  buffers_inv d → dv_active d !! b1 = Some buf → dv_active d !! b2 = Some buf → b1 = b2.
Proof.
  intros [Hnd _] H1 H2. unfold owned in Hnd. apply NoDup_app in Hnd as (Hnd & _ & _).
  apply elem_of_map_to_list in H1, H2. apply list_elem_of_lookup in H1 as [i Hi], H2 as [k Hk].
  assert (i = k) as ->.
  { eapply NoDup_lookup; [exact Hnd|..]; rewrite list_lookup_fmap; [by rewrite Hi|by rewrite Hk]. }
  congruence.
Qed.

Lemma active_not_sealed d b buf g b' :
  buffers_inv d → dv_active d !! b = Some buf → g ∈ dv_sealed d → sg_blocks g !! b' = Some buf → False.
Proof.
  intros [Hnd _] Hb Hg Hb'. unfold owned in Hnd. apply NoDup_app in Hnd as (_ & Hno & _).
  apply (Hno buf).
  - apply list_elem_of_fmap. exists (b, buf). split; [done|]. by apply elem_of_map_to_list.
  - apply elem_of_app. right. apply elem_of_concat. exists (sealed_locs g). split.
    + apply list_elem_of_fmap. exists (b', buf). split; [done|]. by apply elem_of_map_to_list.
    + apply list_elem_of_fmap. by exists g.
Qed.

(** *** Capturing blocks *)

(** Everything but the buffers, the active map and the dirty counter. *)
Definition rest_of d :=
  (dv_file d, dv_size d, dv_maxDirty d, dv_hydrator d, dv_closed d, dv_sealed d,
   (dv_events d, dv_dirtyThreshold d, dv_dirtyNotified d, dv_localDirty d),
   (dv_onBackpressure d, dv_onDirty d, dv_onDirtyChange d, dv_onFlush d, dv_onDurableFlush d, dv_skipLocalFlush d,
    dv_queuedFlush d)).

(** From [d] to [d'] the blocks [blocks] were captured with the content [c]. *)
Record captured (d d' : Device L) (blocks : list Z) (c : Z → bytes) : Prop := {
  cap_rest : rest_of d' = rest_of d;
  cap_buffers : buffers_inv d';
  cap_sealed : sealed_inv d';
  cap_in b : b ∈ blocks → ∃ buf, dv_active d' !! b = Some buf ∧ dv_heap d' !! buf = Some (c b);
  cap_out b : b ∉ blocks → dv_active d' !! b = dv_active d !! b ∧
    ∀ buf, dv_active d !! b = Some buf → dv_heap d' !! buf = dv_heap d !! buf;
  cap_dirty : dv_dirty d' - Z.of_nat (size (dv_active d')) * DefaultBlockSize =
              dv_dirty d - Z.of_nat (size (dv_active d)) * DefaultBlockSize;
}.

Lemma captured_nil d c : buffers_inv d → sealed_inv d → captured d d [] c.
Proof. intros Hb Hs. split; try done. by intros b ?%elem_of_nil. Qed.

Lemma captured_trans d d1 d2 b bs c :
  captured d d1 [b] c → captured d1 d2 bs c → b ∉ bs → captured d d2 (b :: bs) c.
Proof.
  intros H1 H2 Hb. split.
  - rewrite (cap_rest _ _ _ _ H2). apply (cap_rest _ _ _ _ H1).
  - apply (cap_buffers _ _ _ _ H2).
  - apply (cap_sealed _ _ _ _ H2).
  - intros x [->|Hx]%elem_of_cons; [|by apply (cap_in _ _ _ _ H2)].
    destruct (cap_in _ _ _ _ H1 b) as (buf & Ha & Hh); [by apply list_elem_of_singleton|].
    destruct (cap_out _ _ _ _ H2 b Hb) as [Ha2 Hh2]. exists buf. rewrite Ha2. split; [done|]. by rewrite Hh2.
  - intros x Hx. apply not_elem_of_cons in Hx as [Hxb Hxs].
    destruct (cap_out _ _ _ _ H1 x) as [Ha1 Hh1]; [by rewrite list_elem_of_singleton|].
    destruct (cap_out _ _ _ _ H2 x Hxs) as [Ha2 Hh2]. rewrite Ha2, Ha1. split; [done|].
    intros buf Hbuf. rewrite Hh2 by congruence. by apply Hh1.
  - rewrite (cap_dirty _ _ _ _ H2). apply (cap_dirty _ _ _ _ H1).
Qed.

Lemma contents_ext blocks d d' :
  (∀ b buf, blocks !! b = Some buf → dv_heap d' !! buf = dv_heap d !! buf) → contents blocks d' = contents blocks d.
Proof.
  intros Heq. apply map_eq. intros b. unfold contents. rewrite !lookup_fmap.
  destruct (blocks !! b) as [buf|] eqn:Hb; [|done]. cbn [fmap option_fmap option_map]. unfold buffer. by rewrite (Heq b buf Hb).
Qed.

(** Overwriting the buffer of an active block. *)
Lemma set_heap_captured d b buf bs c :
  buffers_inv d → sealed_inv d → dv_active d !! b = Some buf → length bs = blockBytes → c b = bs →
  captured d (set_heap (<[buf := bs]> (dv_heap d)) d) [b] c.
Proof.
  intros Hbuf Hs Ha Hlen Hc. split; try done.
  - destruct Hbuf as [Hnd Hok]. split; [done|]. eapply Forall_impl; [exact Hok|]. intros x [Hlt (xs & Hx & Hl)].
    split; [done|]. cbn [set_heap set_buffers dv_heap]. destruct (decide (x = buf)) as [->|].
    + exists bs. by rewrite lookup_insert_eq.
    + exists xs. by rewrite lookup_insert_ne.
  - apply Forall_forall. intros g Hg. unfold sealed_inv in Hs. rewrite Forall_forall in Hs.
    destruct (Hs g Hg) as (Hcont & Hby & Hne). split_and!; [|done|done]. rewrite <-Hcont. apply contents_ext.
    intros b' buf' Hb'. cbn [set_heap set_buffers dv_heap]. apply lookup_insert_ne. intros ->.
    by eapply active_not_sealed.
  - intros x ->%list_elem_of_singleton. exists buf. split; [done|]. cbn [set_heap set_buffers dv_heap].
    by rewrite lookup_insert_eq, Hc.
  - intros x Hx. split; [done|]. intros buf' Hb'. cbn [set_heap set_buffers dv_heap]. apply lookup_insert_ne. intros ->.
    apply Hx, list_elem_of_singleton. by eapply active_inj.
Qed.

(** A buffer nobody owns. *)
Lemma newBlock_spec d :
  buffers_inv d →
  let '(d', buf) := newBlock d in
  rest_of d' = rest_of d ∧ dv_active d' = dv_active d ∧ dv_dirty d' = dv_dirty d ∧
  NoDup (buf :: owned d') ∧ Forall (buffer_ok (dv_next d') (dv_heap d')) (buf :: owned d') ∧
  (∀ x, x ∈ owned d' → dv_heap d' !! x = dv_heap d !! x) ∧ (∀ x, x ∈ owned d' → x ∈ owned d).
Proof.
  intros [Hnd Hok]. unfold newBlock.
  set (pk := match dv_picks d with [] => (None, []) | p :: rest => (p, rest) end). destruct pk as [pick picks].
  destruct (pick ≫= fun i => dv_pool d !! i) as [buf|] eqn:Hpick.
  - destruct pick as [i|]; [|done]. cbn in Hpick.
    assert (owned d ≡ₚ buf :: owned (set_buffers (dv_dirty d) (dv_active d) (dv_heap d)
       (take i (dv_pool d) ++ drop (S i) (dv_pool d)) (dv_next d) picks (dv_sealed d) d)) as Hp.
    { unfold owned. cbn [set_buffers dv_active dv_pool dv_sealed].
      rewrite <-(take_drop_middle _ _ _ Hpick) at 1. rewrite <-!app_assoc, <-!app_comm_cons.
      rewrite (app_assoc _ (take i _)), <-Permutation_middle, <-app_assoc. done. }
    split_and!; try done.
    + by rewrite <-Hp.
    + by rewrite <-Hp.
    + intros x Hx. rewrite Hp. by apply list_elem_of_further.
  - split_and!; try done.
    + apply NoDup_cons. split; [|done]. intros Hin. rewrite Forall_forall in Hok. destruct (Hok _ Hin) as [? _]. lia.
    + cbn [set_buffers dv_next dv_heap]. apply Forall_cons. split.
      * split; [lia|]. exists (replicate blockBytes x00). by rewrite lookup_insert_eq, length_replicate.
      * eapply Forall_impl; [exact Hok|]. intros x [Hlt (xs & Hx & Hl)]. split; [lia|]. exists xs.
        rewrite lookup_insert_ne by lia. done.
    + intros x Hx. cbn [set_buffers dv_heap]. apply lookup_insert_ne. intros <-. rewrite Forall_forall in Hok.
      destruct (Hok _ Hx) as [? _]. lia.
Qed.

(** The buffer of a block about to be captured: its old content if the block
    was active, anything of a block's length otherwise. *)
Lemma active_buffer_spec b d :
  buffers_inv d → sealed_inv d →
  let '(d', buf, ex) := active_buffer b d in
  dv_active d' !! b = Some buf ∧ ex = bool_decide (is_Some (dv_active d !! b)) ∧
  (ex = true → d' = d) ∧ captured d d' [b] (fun _ => buffer buf d') ∧ length (buffer buf d') = blockBytes.
Proof.
  intros Hbuf Hs. unfold active_buffer. destruct (dv_active d !! b) as [buf|] eqn:Ha.
  { pose proof Hbuf as [_ Hok]. rewrite Forall_forall in Hok. destruct (Hok buf) as [_ (bs & Hbs & Hl)]; [by eapply owned_active|].
    split_and!; try done.
    - split; try done. intros x ->%list_elem_of_singleton. exists buf. unfold buffer. by rewrite Hbs.
    - unfold buffer. by rewrite Hbs. }
  pose proof (newBlock_spec d Hbuf) as Hnew. destruct (newBlock d) as [d1 buf].
  destruct Hnew as (Hrest & Hact & Hdirty & Hnd & Hok & Hheap & Hsub).
  assert (dv_sealed d1 = dv_sealed d) as Hseal by (unfold rest_of in Hrest; congruence).
  set (d2 := set_buffers _ _ _ _ _ _ _ d1).
  assert (owned d2 ≡ₚ buf :: owned d1) as Hown.
  { unfold owned, d2. cbn [set_buffers dv_active dv_pool dv_sealed]. rewrite map_to_list_insert by by rewrite Hact.
    done. }
  pose proof (Forall_inv Hok) as [_ (bs & Hbs & Hl)].
  split_and!; [by apply lookup_insert_eq|by rewrite bool_decide_eq_false_2 by by intros [? ?]|done| |unfold buffer, d2; cbn; by rewrite Hbs].
  split.
  - done.
  - split; [by rewrite Hown|by rewrite Hown].
  - unfold sealed_inv, d2. cbn [set_buffers dv_sealed]. rewrite Hseal. unfold sealed_inv in Hs. rewrite Forall_forall in Hs |- *.
    intros g Hg. destruct (Hs g Hg) as (Hcont & Hby & Hne). split_and!; [|done|done]. rewrite <-Hcont. apply contents_ext.
    intros b' buf' Hb'. cbn [dv_heap]. apply Hheap. eapply owned_sealed; [by rewrite Hseal|done].
  - intros x ->%list_elem_of_singleton. exists buf. split; [by apply lookup_insert_eq|].
    unfold buffer, d2. cbn [set_buffers dv_heap]. by rewrite Hbs.
  - intros x Hx. unfold d2. cbn [set_buffers dv_active dv_heap]. assert (x ≠ b) by (intros ->; by apply Hx, list_elem_of_singleton).
    rewrite lookup_insert_ne, Hact by done. split; [done|]. intros buf' Hb'. apply Hheap. eapply owned_active. by rewrite Hact.
  - unfold d2. cbn [set_buffers dv_dirty dv_active]. rewrite map_size_insert_None by by rewrite Hact. rewrite Hact, Hdirty. lia.
Qed.

(** *** One block of a write *)

Lemma block_write c1 data off b X :
  0 ≤ off → 0 ≤ b < n → Z.of_nat (length c1) = n * DefaultBlockSize →
  off + Z.of_nat (length data) ≤ n * DefaultBlockSize → touches off (Z.of_nat (length data)) b →
  length X = blockBytes →
  let c2 := write_bytes c1 (Z.to_nat off) data in
  (partly off (Z.of_nat (length data)) b → X = read_block blockBytes c1 b ∨ X = read_block blockBytes c2 b) →
  let blockOff := b * DefaultBlockSize in
  let start := Z.max off blockOff in
  let e := Z.min (off + Z.of_nat (length data)) (blockOff + DefaultBlockSize) in
  write_bytes X (Z.to_nat (start - blockOff)) (take (Z.to_nat (e - start)) (drop (Z.to_nat (start - off)) data)) =
  read_block blockBytes c2 b.
Proof.
  intros Hoff Hb Hl Hfit (Ht1 & Ht2 & Ht3) HX c2 Hpart blockOff start e.
  pose proof blockBytes_Z as HZ. unfold DefaultBlockSize in *.
  assert (length c2 = length c1) as Hl2 by (apply write_bytes_length; lia).
  set (part := take _ _).
  assert (length part = Z.to_nat (e - start)) as Hlp.
  { unfold part. rewrite length_take, length_drop. unfold e, start, blockOff in *. lia. }
  assert (Z.to_nat (start - blockOff) + length part ≤ length X)%nat as Hfitp.
  { rewrite Hlp, HX. unfold e, start, blockOff in *. lia. }
  apply list_eq_same_length with blockBytes.
  - apply read_block_length. nia.
  - by rewrite write_bytes_length.
  - intros i x y Hi. rewrite write_bytes_lookup by done. rewrite Hlp, read_block_lookup by done.
    unfold c2 at 1. rewrite write_bytes_lookup by lia.
    case_decide as Hin; case_decide as Hin2.
    + unfold part. rewrite lookup_take_lt by (unfold e, start, blockOff in *; lia). rewrite lookup_drop.
      replace (Z.to_nat (start - off) + (i - Z.to_nat (start - blockOff)))%nat
        with (Z.to_nat b * blockBytes + i - Z.to_nat off)%nat by (unfold e, start, blockOff in *; nia).
      congruence.
    + exfalso. apply Hin2. unfold e, start, blockOff in *. nia.
    + exfalso. apply Hin. unfold e, start, blockOff in *. nia.
    + destruct Hpart as [->| ->].
      * split; [done|]. unfold e, start, blockOff in *.
        destruct (decide (b * 4096 < off)); [by left|right].
        destruct (decide (off + Z.of_nat (length data) < (b + 1) * 4096)); [done|]. exfalso. apply Hin. lia.
      * rewrite read_block_lookup by done. congruence.
      * rewrite read_block_lookup by done. unfold c2. rewrite write_bytes_lookup by lia. rewrite decide_False by done. congruence.
Qed.

(** A block outside the write. *)
Lemma block_untouched c1 data off b :
  0 ≤ off → 0 ≤ b < n → Z.of_nat (length c1) = n * DefaultBlockSize →
  off + Z.of_nat (length data) ≤ n * DefaultBlockSize → ¬ touches off (Z.of_nat (length data)) b →
  read_block blockBytes (write_bytes c1 (Z.to_nat off) data) b = read_block blockBytes c1 b.
Proof.
  intros Hoff Hb Hl Hfit Ht. pose proof blockBytes_Z as HZ. unfold touches, DefaultBlockSize in *.
  assert (length (write_bytes c1 (Z.to_nat off) data) = length c1) as Hl2 by (apply write_bytes_length; lia).
  apply list_eq_same_length with blockBytes; [apply read_block_length; nia..|].
  intros i x y Hi. rewrite !read_block_lookup, write_bytes_lookup by (done || lia).
  case_decide; [|congruence]. exfalso. apply Ht. nia.
Qed.

Lemma read_into_spec d b buf c :
  file_inv d → buffers_inv d → sealed_inv d → 0 ≤ b < n → dv_active d !! b = Some buf →
  c b = read_block blockBytes (content (dv_file d)) b →
  ∃ d', read_into buf (b * DefaultBlockSize) d = (d', None) ∧ captured d d' [b] c.
Proof.
  intros Hi Hbuf Hs Hb Ha Hc. pose proof (file_block_length d b Hi Hb) as Hfl.
  pose proof Hi as [(Hscr & _ & _) _]. pose proof blockBytes_Z as HZ.
  pose proof Hbuf as [_ Hok]. rewrite Forall_forall in Hok. destruct (Hok buf) as [_ (bs & Hbs & Hl)]; [by eapply owned_active|].
  unfold read_into, buffer. rewrite Hbs. cbn [from_option id]. rewrite Hl. unfold ReadAt, next_io. rewrite Hscr.
  assert (Z.to_nat (b * DefaultBlockSize) = Z.to_nat b * blockBytes)%nat as -> by (apply Z_to_nat_blocks; lia).
  fold (read_block blockBytes (content (dv_file d)) b). rewrite read_block_length by done.
  rewrite (proj2 (Nat.ltb_ge blockBytes blockBytes)) by lia. eexists. split; [done|].
  assert (set_image (dv_file d) (dv_hydrator d) d = d) as -> by by destruct d.
  apply set_heap_captured; [done..| |].
  - rewrite write_bytes_length; [done|]. rewrite read_block_length by done. lia.
  - rewrite Hc. rewrite write_bytes_in_range by (rewrite read_block_length by done; lia).
    rewrite read_block_length by done. cbn [take app Nat.add]. rewrite drop_ge by lia. by rewrite app_nil_r.
Qed.

Lemma captured_compose d d1 d2 b c1 c2 : captured d d1 [b] c1 → captured d1 d2 [b] c2 → captured d d2 [b] c2.
Proof.
  intros H1 H2. split.
  - rewrite (cap_rest _ _ _ _ H2). apply (cap_rest _ _ _ _ H1).
  - apply (cap_buffers _ _ _ _ H2).
  - apply (cap_sealed _ _ _ _ H2).
  - apply (cap_in _ _ _ _ H2).
  - intros x Hx. destruct (cap_out _ _ _ _ H1 x Hx) as [Ha1 Hh1], (cap_out _ _ _ _ H2 x Hx) as [Ha2 Hh2].
    rewrite Ha2, Ha1. split; [done|]. intros buf Hb. rewrite Hh2 by congruence. by apply Hh1.
  - rewrite (cap_dirty _ _ _ _ H2). apply (cap_dirty _ _ _ _ H1).
Qed.

Lemma captured_file_inv d d' blocks c : captured d d' blocks c → file_inv d → file_inv d'.
Proof.
  intros Hc Hi. pose proof (cap_rest _ _ _ _ Hc) as Hr. unfold rest_of in Hr.
  assert (dv_file d' = dv_file d) as Hf by (by simplify_eq). unfold file_inv in *. by rewrite Hf.
Qed.

Lemma captured_file d d' blocks c : captured d d' blocks c → dv_file d' = dv_file d.
Proof. intros Hc. pose proof (cap_rest _ _ _ _ Hc) as Hr. unfold rest_of in Hr. by simplify_eq. Qed.

Lemma captureWrite_spec data off blocks d c1 :
  file_inv d → buffers_inv d → sealed_inv d → 0 ≤ off → Z.of_nat (length c1) = n * DefaultBlockSize →
  off + Z.of_nat (length data) ≤ n * DefaultBlockSize →
  content (dv_file d) = write_bytes c1 (Z.to_nat off) data → NoDup blocks →
  Forall (fun b => 0 ≤ b < n ∧ touches off (Z.of_nat (length data)) b) blocks →
  (∀ b buf, b ∈ blocks → dv_active d !! b = Some buf → partly off (Z.of_nat (length data)) b →
    dv_heap d !! buf = Some (read_block blockBytes c1 b)) →
  ∃ d', captureWrite data off blocks d = (d', None) ∧
    captured d d' blocks (read_block blockBytes (content (dv_file d))).
Proof.
  intros Hi Hbuf Hs Hoff Hl Hfit. revert d Hi Hbuf Hs.
  induction blocks as [|b blocks IH]; intros d Hi Hbuf Hs Hcon Hnd Hall Hold.
  { exists d. split; [done|]. by apply captured_nil. }
  apply NoDup_cons in Hnd as [Hnb Hnd]. apply Forall_cons in Hall as [[Hb Ht] Hall].
  set (c2 := read_block blockBytes (content (dv_file d))). cbn [captureWrite].
  set (blockOff := b * DefaultBlockSize). set (start := Z.max off blockOff).
  set (e := Z.min (off + Z.of_nat (length data)) (blockOff + DefaultBlockSize)).
  pose proof (active_buffer_spec b d Hbuf Hs) as Hab. destruct (active_buffer b d) as [[d1 buf] ex].
  destruct Hab as (Ha1 & Hex & Hsame & Hcap1 & Hlen1).
  pose proof (captured_file_inv _ _ _ _ Hcap1 Hi) as Hi1. pose proof (captured_file _ _ _ _ Hcap1) as Hf1.
  assert (∃ d2, (if negb ex && (negb (start =? blockOff) || negb (e =? blockOff + DefaultBlockSize))
      then read_into buf blockOff d1 else (d1, None)) = (d2, None) ∧
    captured d d2 [b] (fun _ => buffer buf d2) ∧ dv_active d2 !! b = Some buf ∧ length (buffer buf d2) = blockBytes ∧
    (partly off (Z.of_nat (length data)) b → buffer buf d2 = read_block blockBytes c1 b ∨ buffer buf d2 = c2 b))
    as (d2 & Heq2 & Hcap2 & Ha2 & Hlen2 & Hor).
  { destruct ex eqn:Hexb; cbn [negb andb].
    - specialize (Hsame eq_refl). subst d1. exists d. split_and!; try done. intros Hp. left.
      unfold buffer. rewrite (Hold b buf); [done|apply list_elem_of_here|done|done].
    - destruct (negb (start =? blockOff) || negb (e =? blockOff + DefaultBlockSize)) eqn:Hpartial.
      + destruct (read_into_spec d1 b buf c2) as (d2 & Hr & Hc2);
          [done|apply Hcap1|apply Hcap1|done|done|by rewrite Hf1|].
        destruct (cap_in _ _ _ _ Hc2 b) as (buf' & Ha' & Hh'); [by apply list_elem_of_singleton|].
        assert (buf' = buf) as ->.
        { pose proof (captured_compose _ _ _ _ _ _ Hcap1 Hc2) as Hcc. clear -Ha' Hr Ha1.
          unfold read_into in Hr. destruct (ReadAt _ _ _) as [[? ?] ?]. injection Hr as <- _.
          cbn [set_heap set_buffers set_image dv_active] in Ha'. congruence. }
        exists d2. assert (buffer buf d2 = c2 b) as Hb2 by (unfold buffer; by rewrite Hh').
        split_and!; [done| |done| |by right].
        * apply (captured_compose d d1 d2 b _ _ Hcap1). destruct Hc2. split; try done.
          intros x ->%list_elem_of_singleton. exists buf. rewrite Hb2. done.
        * rewrite Hb2. apply read_block_length. by apply file_block_length.
      + exists d1. split_and!; try done. intros [_ Hp]. exfalso. apply orb_false_iff in Hpartial as [Hp1 Hp2].
        zbool. unfold start, e, blockOff, DefaultBlockSize in *. lia. }
  rewrite Heq2.
  assert (write_bytes (buffer buf d2) (Z.to_nat (start - blockOff))
      (take (Z.to_nat (e - start)) (drop (Z.to_nat (start - off)) data)) = c2 b) as Hwb.
  { unfold c2. rewrite Hcon. apply block_write; try done. unfold c2 in Hor. by rewrite Hcon in Hor. }
  rewrite Hwb. set (d3 := set_heap _ d2).
  assert (captured d d3 [b] c2) as Hcap3.
  { apply (captured_compose d d2 d3 b _ _ Hcap2). apply set_heap_captured; [apply Hcap2|apply Hcap2|done| |done].
    apply read_block_length. by apply file_block_length. }
  pose proof (captured_file _ _ _ _ Hcap3) as Hf3.
  destruct (IH d3) as (d' & Hw & Hc'); [by eapply captured_file_inv|apply Hcap3|apply Hcap3|by rewrite Hf3|done|done| |].
  { intros x bufx Hx Hax Hp. assert (x ∉ [b]) as Hxb by (intros ->%list_elem_of_singleton; done).
    destruct (cap_out _ _ _ _ Hcap3 x Hxb) as [Hax3 Hhx3]. rewrite Hax3 in Hax. rewrite Hhx3 by done.
    apply (Hold x); [by apply list_elem_of_further|done|done]. }
  exists d'. split; [done|]. rewrite Hf3 in Hc'. by apply (captured_trans d d3 d').
Qed.

Lemma capture_spec blocks d :
  file_inv d → buffers_inv d → sealed_inv d → NoDup blocks → Forall (fun b => 0 ≤ b < n) blocks →
  ∃ d', capture blocks d = (d', None) ∧ captured d d' blocks (read_block blockBytes (content (dv_file d))).
Proof.
  revert d. induction blocks as [|b blocks IH]; intros d Hi Hbuf Hs Hnd Hall.
  { exists d. split; [done|]. by apply captured_nil. }
  apply NoDup_cons in Hnd as [Hnb Hnd]. apply Forall_cons in Hall as [Hb Hall]. cbn [capture].
  pose proof (active_buffer_spec b d Hbuf Hs) as Hab. destruct (active_buffer b d) as [[d1 buf] ex].
  destruct Hab as (Ha1 & _ & _ & Hcap1 & _).
  pose proof (captured_file_inv _ _ _ _ Hcap1 Hi) as Hi1. pose proof (captured_file _ _ _ _ Hcap1) as Hf1.
  destruct (read_into_spec d1 b buf (read_block blockBytes (content (dv_file d)))) as (d2 & -> & Hc2);
    [done|apply Hcap1|apply Hcap1|done|done|by rewrite Hf1|].
  pose proof (captured_compose _ _ _ _ _ _ Hcap1 Hc2) as Hcap2. pose proof (captured_file _ _ _ _ Hcap2) as Hf2.
  destruct (IH d2) as (d' & Hw & Hc'); [by eapply captured_file_inv|apply Hcap2|apply Hcap2|done|done|].
  exists d'. split; [done|]. rewrite Hf2 in Hc'. by apply (captured_trans d d2 d').
Qed.

(** *** Ranges *)

Lemma elem_of_block_list off len b :
  0 ≤ off → 0 ≤ len → b ∈ block_list (blockRange off len) ↔ touches off len b.
Proof.
  intros Hoff Hlen. unfold blockRange, block_list, touches, DefaultBlockSize. case_if; cbn [fst snd]; rewrite elem_of_seqZ.
  - split; lia.
  - rewrite !Z.quot_div_nonneg by lia. split; intros Hb.
    + pose proof (Z.div_mod off 4096 ltac:(lia)). pose proof (Z.mod_pos_bound off 4096 ltac:(lia)).
      pose proof (Z.div_mod (off + len - 1) 4096 ltac:(lia)). pose proof (Z.mod_pos_bound (off + len - 1) 4096 ltac:(lia)). lia.
    + pose proof (Z.div_mod off 4096 ltac:(lia)). pose proof (Z.mod_pos_bound off 4096 ltac:(lia)).
      pose proof (Z.div_mod (off + len - 1) 4096 ltac:(lia)). pose proof (Z.mod_pos_bound (off + len - 1) 4096 ltac:(lia)). lia.
Qed.

Lemma block_list_NoDup r : NoDup (block_list r).
Proof. apply NoDup_seqZ. Qed.

Lemma touches_range off len b :
  0 ≤ off → off + len ≤ n * DefaultBlockSize → touches off len b → 0 ≤ b < n.
Proof. unfold touches, DefaultBlockSize. lia. Qed.

(** *** Hydration around a write *)

(** Two devices that agree on everything but the image. *)
Definition same_buffers d d' : Prop :=
  dv_active d' = dv_active d ∧ dv_heap d' = dv_heap d ∧ dv_pool d' = dv_pool d ∧ dv_next d' = dv_next d ∧
  dv_sealed d' = dv_sealed d ∧ dv_dirty d' = dv_dirty d ∧ dv_closed d' = dv_closed d ∧ dv_maxDirty d' = dv_maxDirty d.

Lemma same_buffers_trans d1 d2 d3 : same_buffers d1 d2 → same_buffers d2 d3 → same_buffers d1 d3.
Proof.
  intros (Ha1 & Hh1 & Hp1 & Hn1 & Hs1 & Hd1 & Hc1 & Hm1) (Ha2 & Hh2 & Hp2 & Hn2 & Hs2 & Hd2 & Hc2 & Hm2).
  unfold same_buffers. rewrite Ha2, Hh2, Hp2, Hn2, Hs2, Hd2, Hc2, Hm2. done.
Qed.

Lemma dev_inv_same base d d' :
  dev_inv base d → same_buffers d d' → image_inv d' → (∀ b, 0 ≤ b < n → dev_view d' b = dev_view d b) → dev_inv base d'.
Proof.
  intros (Hi & Hbuf & Hs & [Ha1 Ha2] & Hd) (Hac & Hh & Hp & Hnx & Hse & Hdi & Hcl & _) Hi' Hv.
  split; [done|]. split; [|split; [|split]].
  - unfold buffers_inv, owned. by rewrite Hac, Hh, Hp, Hnx, Hse.
  - unfold sealed_inv, contents, buffer in *. rewrite Hse, Hh. done.
  - split.
    + intros b buf. rewrite Hac, Hh. intros Hb. destruct (Ha1 b buf Hb) as [Hr Hhb]. split; [done|]. by rewrite Hv.
    + intros b Hb. rewrite Hac. intros Hnone. rewrite Hv by done. by apply Ha2.
  - unfold dirty_inv in *. by rewrite Hac, Hse, Hdi, Hcl.
Qed.

Lemma prepare_spec base d off len d' err :
  dev_inv base d → 0 ≤ off → 0 ≤ len → off + len ≤ n * DefaultBlockSize → prepare off len d = (d', err) →
  dev_inv base d' ∧ same_buffers d d' ∧ (∀ b, 0 ≤ b < n → dev_view d' b = dev_view d b) ∧
  (err = None → ∀ b, partly off len b → read_block blockBytes (content (dv_file d')) b = dev_view d b).
Proof.
  intros Hinv Hoff Hlen Hfit Hp. unfold prepare in Hp. destruct (dv_hydrator d) as [l|] eqn:Hh.
  - destruct (PrepareWrite l (dv_file d) off len) as [[l' f'] e] eqn:Hpw. injection Hp as <- <-.
    pose proof Hinv as ([Hsz Hi] & _). rewrite Hh in Hi.
    destruct (hyd_prepare n l (dv_file d) off len l' f' e Hi Hoff Hlen Hfit Hpw) as (Hi' & Hv & Hm).
    assert (∀ b, 0 ≤ b < n → dev_view (set_image f' (Some l') d) b = dev_view d b) as Hv'.
    { intros b Hb. unfold dev_view. cbn [set_image dv_hydrator dv_file]. rewrite Hh. by apply Hv. }
    assert (same_buffers d (set_image f' (Some l') d)) as Hsame by done.
    split_and!; [|done..|].
    + eapply dev_inv_same; [done|done|by split|done].
    + intros He b Hb. cbn [set_image dv_file]. unfold dev_view. rewrite Hh. by apply Hm.
  - injection Hp as <- <-. split_and!; try done. intros _ b _. unfold dev_view. by rewrite Hh.
Qed.

(** Capturing [blocks] makes the dirty counter grow by the blocks that were not
    active. *)
Lemma captured_size d d' blocks c :
  captured d d' blocks c → NoDup blocks →
  size (dv_active d') = (size (dv_active d) + length (filter (fun b => dv_active d !! b = None) blocks))%nat.
Proof.
  intros Hcap Hnd. rewrite <-!size_dom.
  assert (dom (dv_active d') = dom (dv_active d) ∪ list_to_set (filter (fun b => dv_active d !! b = None) blocks)) as ->.
  { apply set_eq. intros b. rewrite elem_of_union, elem_of_list_to_set, list_elem_of_filter, !elem_of_dom.
    destruct (decide (b ∈ blocks)) as [Hb|Hb].
    - destruct (cap_in _ _ _ _ Hcap b Hb) as (buf & -> & _). split; [|by eauto]. intros _.
      destruct (dv_active d !! b); [left; by eauto|by right].
    - destruct (cap_out _ _ _ _ Hcap b Hb) as [-> _]. naive_solver. }
  rewrite size_union, size_list_to_set; [done|by apply NoDup_filter|].
  intros b Hb. rewrite elem_of_list_to_set, list_elem_of_filter. intros [Hnone _]. apply elem_of_dom in Hb as [? Hb]. congruence.
Qed.

Lemma captured_dirty d d' blocks c :
  captured d d' blocks c → NoDup blocks →
  dv_dirty d' = dv_dirty d + Z.of_nat (length (filter (fun b => dv_active d !! b = None) blocks)) * DefaultBlockSize.
Proof.
  intros Hcap Hnd. pose proof (cap_dirty _ _ _ _ Hcap) as Hd. rewrite (captured_size _ _ _ _ Hcap Hnd) in Hd. lia.
Qed.

Definition grown d d' (blocks : list Z) : Prop :=
  dv_sealed d' = dv_sealed d ∧ dv_closed d' = dv_closed d ∧ dv_maxDirty d' = dv_maxDirty d ∧
  dv_dirty d' = dv_dirty d + Z.of_nat (length (filter (fun b => dv_active d !! b = None) blocks)) * DefaultBlockSize.

(** The call went through the wait loop and captured the blocks of [range]. *)
Definition accepted d d' (range : Z * Z) : Prop :=
  must_wait range.1 range.2 d = false ∧ grown d d' (block_list range).

Lemma grown_same d d' : same_buffers d d' → grown d d' [].
Proof. intros (_ & _ & _ & _ & ? & ? & ? & ?). unfold grown. cbn. rewrite Z.add_0_r. done. Qed.

Lemma grown_trans d d1 d2 d' blocks :
  same_buffers d d1 → grown d1 d2 blocks →
  dv_sealed d' = dv_sealed d2 → dv_closed d' = dv_closed d2 → dv_maxDirty d' = dv_maxDirty d2 → dv_dirty d' = dv_dirty d2 →
  grown d d' blocks.
Proof.
  intros (Ha & _ & _ & _ & ? & Hd & ? & ?) (? & ? & ? & Hd2) ? ? ? Hd3. rewrite Ha, Hd in Hd2. unfold grown.
  split_and!; congruence.
Qed.

(** Committing an overwrite of the file, whatever happened to the buffers. *)
Lemma commit_image d0 d2 off len c :
  image_inv d0 → 0 ≤ off → 0 ≤ len → off + len ≤ n * DefaultBlockSize →
  length c = length (content (dv_file d0)) →
  (∀ b, 0 ≤ b < n → ¬ touches off len b → read_block blockBytes c b = read_block blockBytes (content (dv_file d0)) b) →
  dv_file d2 = mkFile c [] → dv_size d2 = dv_size d0 → dv_hydrator d2 = dv_hydrator d0 →
  image_inv (commit off len d2) ∧
  (∀ b, 0 ≤ b < n → dev_view (commit off len d2) b =
    if decide (touches off len b) then read_block blockBytes c b else dev_view d0 b) ∧
  same_buffers d2 (commit off len d2).
Proof.
  intros [Hsz Hi] Hoff Hlen Hfit Hcl Hout Hf2 Hsz2 Hh2.
  unfold commit, image_inv, dev_view. rewrite Hh2. destruct (dv_hydrator d0) as [l|] eqn:Hh.
  - destruct (hyd_commit n l (dv_file d0) off len c Hi Hoff Hlen Hfit Hcl Hout) as [Hci Hcv].
    cbn [set_image dv_size dv_hydrator dv_file]. rewrite Hf2, Hsz2. split_and!; try done.
  - rewrite Hh2, Hf2, Hsz2. cbn [content]. destruct Hi as [Him Hl]. split_and!; try done.
    + by eapply image_of_same.
    + by rewrite Hcl.
    + intros b Hb. destruct (decide _); [done|]. by apply Hout.
Qed.

(** After the file was overwritten with [c] and the touched blocks captured. *)
Lemma commit_spec base d0 d1 d2 off len c :
  dev_inv base d0 → 0 ≤ off → 0 ≤ len → off + len ≤ n * DefaultBlockSize →
  length c = length (content (dv_file d0)) →
  (∀ b, 0 ≤ b < n → ¬ touches off len b → read_block blockBytes c b = read_block blockBytes (content (dv_file d0)) b) →
  d1 = set_image (mkFile c []) (dv_hydrator d0) d0 →
  captured d1 d2 (block_list (blockRange off len)) (read_block blockBytes c) →
  dev_inv base (commit off len d2) ∧
  (∀ b, 0 ≤ b < n → dev_view (commit off len d2) b =
    (if decide (touches off len b) then read_block blockBytes c b else dev_view d0 b)) ∧
  grown d0 (commit off len d2) (block_list (blockRange off len)).
Proof.
  intros ((Hsz & Hi) & Hbuf & Hs & [Ha1 Ha2] & Hd) Hoff Hlen Hfit Hcl Hout -> Hcap.
  pose proof (cap_rest _ _ _ _ Hcap) as Hr. unfold rest_of in Hr.
  cbn [set_image dv_file dv_size dv_maxDirty dv_hydrator dv_closed dv_sealed dv_events dv_dirtyThreshold dv_dirtyNotified
       dv_localDirty dv_onBackpressure dv_onDirty dv_onDirtyChange dv_onFlush dv_onDurableFlush dv_skipLocalFlush dv_queuedFlush] in Hr.
  assert (dv_file d2 = mkFile c [] ∧ dv_size d2 = dv_size d0 ∧ dv_hydrator d2 = dv_hydrator d0 ∧
    dv_sealed d2 = dv_sealed d0 ∧ dv_closed d2 = dv_closed d0 ∧ dv_maxDirty d2 = dv_maxDirty d0)
    as (Hf2 & Hsz2 & Hh2 & Hse2 & Hcl2 & Hmd2) by (by simplify_eq).
  destruct (commit_image d0 d2 off len c) as (Hi' & Hv & Hsame); [by split|done..|].
  destruct Hsame as (Hac & Hhp & Hp & Hnx & Hse & Hdi & Hclo & Hmd).
  split; [|split; [done|]; unfold grown; rewrite Hse, Hdi, Hclo, Hmd, (captured_dirty _ _ _ _ Hcap) by apply block_list_NoDup; done].
  split; [done|]. split; [|split; [|split]].
  - pose proof (cap_buffers _ _ _ _ Hcap). unfold buffers_inv, owned in *. by rewrite Hac, Hhp, Hp, Hnx, Hse.
  - pose proof (cap_sealed _ _ _ _ Hcap). unfold sealed_inv, contents, buffer in *. by rewrite Hse, Hhp.
  - assert (∀ b, b ∈ block_list (blockRange off len) ↔ touches off len b) as Hbl by (intros b; by apply elem_of_block_list).
    split.
    + intros b buf. rewrite Hac, Hhp. intros Hb. destruct (decide (touches off len b)) as [Ht|Ht].
      * pose proof (touches_range off len b Hoff Hfit Ht) as Hbr. split; [done|]. rewrite Hv, decide_True by done.
        destruct (cap_in _ _ _ _ Hcap b) as (buf' & Hb' & Hh'); [by apply Hbl|]. congruence.
      * destruct (cap_out _ _ _ _ Hcap b) as [Hb' Hh']; [by rewrite Hbl|]. cbn [set_image dv_active dv_heap] in Hb', Hh'.
        rewrite Hb' in Hb. destruct (Ha1 b buf Hb) as [Hbr Hhb]. split; [done|]. rewrite Hv, decide_False by done.
        by rewrite Hh'.
    + intros b Hbr. rewrite Hac. intros Hnone. destruct (decide (touches off len b)) as [Ht|Ht].
      * destruct (cap_in _ _ _ _ Hcap b) as (buf' & Hb' & Hh'); [by apply Hbl|]. congruence.
      * destruct (cap_out _ _ _ _ Hcap b) as [Hb' _]; [by rewrite Hbl|]. cbn [set_image dv_active] in Hb'.
        rewrite Hv, decide_False by done. apply Ha2; [done|]. congruence.
  - unfold dirty_inv in *. rewrite Hac, Hse, Hdi, Hclo, Hcl2, Hse2. intros Hc. specialize (Hd Hc).
    pose proof (cap_dirty _ _ _ _ Hcap) as Hcd. cbn [set_image dv_dirty dv_active] in Hcd. lia.
Qed.

(** Events and flags do not matter. *)
Lemma dev_inv_flags base d ev th no ld : dev_inv base d → dev_inv base (set_flags ev th no ld d).
Proof. intros Hinv. exact Hinv. Qed.

Lemma dev_view_flags d ev th no ld b : dev_view (set_flags ev th no ld d) b = dev_view d b.
Proof. done. Qed.

Lemma observe_flags d : ∃ ev, observeDirtyLocked d = set_flags ev (dv_dirtyThreshold d) (dv_dirtyNotified d) (dv_localDirty d) d.
Proof. unfold observeDirtyLocked, emit. destruct (dv_onDirtyChange d); [eauto|]. exists (dv_events d). by destruct d. Qed.

Lemma notify_flags d : ∃ ev no, notifyDirtyLocked d = set_flags ev (dv_dirtyThreshold d) no (dv_localDirty d) d.
Proof. unfold notifyDirtyLocked, emit. case_if; [|eauto]. exists (dv_events d), (dv_dirtyNotified d). by destruct d. Qed.

Lemma notify_observe base d :
  dev_inv base d → dev_inv base (notifyDirtyLocked (observeDirtyLocked d)) ∧
  (∀ b, dev_view (notifyDirtyLocked (observeDirtyLocked d)) b = dev_view d b) ∧
  same_buffers d (notifyDirtyLocked (observeDirtyLocked d)).
Proof.
  intros Hinv. destruct (observe_flags d) as [ev ->]. edestruct notify_flags as (ev' & no & ->). done.
Qed.

Lemma wait_spec base reported d d' r :
  dev_inv base d → wait reported d = (d', r) →
  dev_inv base d' ∧ (∀ b, dev_view d' b = dev_view d b) ∧ same_buffers d d' ∧ ∃ rep, r = Blocked rep.
Proof.
  intros Hinv. unfold wait. destruct (negb reported && dv_onBackpressure d); intros [= <- <-]; split_and!; by eauto.
Qed.

(** ** The device as one array of bytes *)

(** The logical disk: what reading the whole device returns. *)
Definition dev_disk d : bytes := concat (dev_view d <$> seqZ 0 n).

Lemma views_length d : image_inv d → Forall (fun bs => length bs = blockBytes) (dev_view d <$> seqZ 0 n).
Proof.
  intros Hi. apply Forall_fmap, Forall_forall. intros b Hb. apply elem_of_seqZ in Hb. cbn [compose].
  apply dev_view_length; [done|lia].
Qed.

Lemma concat_length_blocks (ds : list bytes) :
  Forall (fun bs => length bs = blockBytes) ds → length (concat ds) = (length ds * blockBytes)%nat.
Proof. induction 1 as [|x ds Hx _ IH]; [done|]. cbn [concat length]. rewrite length_app, IH, Hx. lia. Qed.

Lemma dev_disk_length d : image_inv d → Z.of_nat (length (dev_disk d)) = n * DefaultBlockSize.
Proof.
  intros Hi. unfold dev_disk. rewrite concat_length_blocks by by apply views_length.
  rewrite length_fmap, length_seqZ. pose proof blockBytes_Z. nia.
Qed.

Lemma dev_disk_block d b : image_inv d → 0 ≤ b < n → read_block blockBytes (dev_disk d) b = dev_view d b.
Proof.
  intros Hi Hb. unfold read_block, dev_disk.
  pose proof (concat_block (dev_view d <$> seqZ 0 n) (Z.to_nat b) (views_length d Hi)) as Hc.
  rewrite list_lookup_fmap, lookup_seqZ_lt in Hc by lia.
  rewrite length_fmap, length_seqZ in Hc. specialize (Hc ltac:(lia)).
  cbn [fmap option_fmap option_map] in Hc. replace (0 + Z.of_nat (Z.to_nat b)) with b in Hc by lia.
  injection Hc as Hc. by rewrite Hc.
Qed.

(** A disk is determined by its blocks. *)
Lemma disk_ext (x y : bytes) :
  Z.of_nat (length x) = n * DefaultBlockSize → Z.of_nat (length y) = n * DefaultBlockSize →
  (∀ b, 0 ≤ b < n → read_block blockBytes x b = read_block blockBytes y b) → x = y.
Proof.
  intros Hx Hy Hb. pose proof blockBytes_Z as HZ. pose proof blockBytes_pos as Hpos. unfold DefaultBlockSize in *.
  apply list_eq_same_length with (length x); [lia|done|]. intros i a b Hi.
  set (k := (i / blockBytes)%nat). pose proof (Nat.div_mod_eq i blockBytes) as Hdm. fold k in Hdm.
  pose proof (Nat.mod_upper_bound i blockBytes ltac:(lia)) as Hm.
  assert (0 ≤ Z.of_nat k < n) as Hk by nia. specialize (Hb (Z.of_nat k) Hk).
  apply (f_equal (fun l => l !! (i mod blockBytes)%nat)) in Hb. rewrite !read_block_lookup in Hb by done.
  rewrite Nat2Z.id in Hb. replace (k * blockBytes + i `mod` blockBytes)%nat with i in Hb by lia. congruence.
Qed.

Lemma dev_disk_ext d d' :
  image_inv d → image_inv d' → (∀ b, 0 ≤ b < n → dev_view d' b = dev_view d b) → dev_disk d' = dev_disk d.
Proof.
  intros Hi Hi' Hv. apply disk_ext; [by apply dev_disk_length..|].
  intros b Hb. rewrite !dev_disk_block by done. by apply Hv.
Qed.

(** Overwriting the file under a prepared image overwrites the disk. *)
Lemma disk_write d c1 p off c2 d' :
  image_inv d → image_inv d' → 0 ≤ off → off + Z.of_nat (length p) ≤ n * DefaultBlockSize →
  Z.of_nat (length c1) = n * DefaultBlockSize → c2 = write_bytes c1 (Z.to_nat off) p →
  (∀ b, partly off (Z.of_nat (length p)) b → read_block blockBytes c1 b = dev_view d b) →
  (∀ b, 0 ≤ b < n → dev_view d' b =
    if decide (touches off (Z.of_nat (length p)) b) then read_block blockBytes c2 b else dev_view d b) →
  dev_disk d' = write_bytes (dev_disk d) (Z.to_nat off) p.
Proof.
  intros Hi Hi' Hoff Hfit Hl -> Hm Hv. pose proof (dev_disk_length d Hi) as Hdl.
  apply disk_ext; [by apply dev_disk_length| |].
  - rewrite write_bytes_length; [done|lia].
  - intros b Hb. rewrite dev_disk_block, Hv by done. case_decide as Ht.
    + assert (length (dev_view d b) = blockBytes) as HX by by apply dev_view_length.
      rewrite <-(block_write c1 p off b (dev_view d b)); [|done..|intros Hp; left; symmetry; by apply Hm].
      rewrite <-(block_write (dev_disk d) p off b (dev_view d b)); [done..|].
      intros _. left. by rewrite dev_disk_block.
    + rewrite block_untouched by done. by rewrite dev_disk_block.
Qed.

Lemma write_nil c off : (off ≤ length c)%nat → write_bytes c off [] = c.
Proof. intros Hoff. rewrite write_bytes_in_range by (cbn; lia). cbn [length app]. by rewrite Nat.add_0_r, take_drop. Qed.

(** A write does what it says, and when the image is local, the range fits and
    there is room, it is done. *)
Lemma WriteAt_full base reported p off d d' r :
  dev_inv base d → dv_closed d = false → dev_WriteAt reported p off d = (d', r) →
  dev_inv base d' ∧
  match r with
  | Done k None => 0 ≤ off ∧ off + Z.of_nat (length p) ≤ n * DefaultBlockSize ∧ k = Z.of_nat (length p) ∧
      dev_disk d' = write_bytes (dev_disk d) (Z.to_nat off) p ∧
      accepted d d' (blockRange off (Z.of_nat (length p)))
  | _ => dev_disk d' = dev_disk d ∧ grown d d' []
  end ∧
  (dv_hydrator d = None → 0 ≤ off → off + Z.of_nat (length p) ≤ n * DefaultBlockSize →
   must_wait (blockRange off (Z.of_nat (length p))).1 (blockRange off (Z.of_nat (length p))).2 d = false →
   r = Done (Z.of_nat (length p)) None).
Proof.
  intros Hinv Hcl Hw. unfold dev_WriteAt in Hw. rewrite Hcl in Hw. pose proof Hinv as (Hi & _). pose proof Hi as [Hsz _].
  destruct ((off <? 0) || (dv_size d - off <? Z.of_nat (length p))) eqn:Hrange; [injection Hw as <- <-; split_and!; try done; [by apply grown_same|lia]|]. zbool.
  destruct (blockRange off (Z.of_nat (length p))) as [first last] eqn:Hbr.
  destruct (must_wait first last d) eqn:Hmw.
  { destruct (wait_spec base reported d d' r Hinv Hw) as (Hinv' & Hv & Hsame & rep & ->). split; [done|].
    cbn [fst snd]. split; [|by rewrite Hmw]. split; [|by apply grown_same]. apply dev_disk_ext; [done|apply Hinv'|]. intros b _. apply Hv. }
  destruct (prepare off (Z.of_nat (length p)) d) as [d1 err] eqn:Hp.
  destruct (prepare_spec base d off (Z.of_nat (length p)) d1 err Hinv) as (Hinv1 & Hsame & Hv1 & Hm1); [lia|lia|lia|done|].
  pose proof Hinv1 as (Hi1 & Hbuf1 & Hs1 & (Ha1 & _) & _).
  destruct err as [e|].
  { injection Hw as <- <-. split; [done|]. split; [split; [by apply dev_disk_ext|by apply grown_same]|].
    intros Hh. unfold prepare in Hp. by rewrite Hh in Hp. }
  specialize (Hm1 eq_refl). pose proof (image_inv_file d1 Hi1) as [(Hscr & _ & _) Hl1].
  unfold WriteAt, next_io in Hw. rewrite Hscr in Hw. cbv iota beta in Hw.
  set (c2 := write_bytes (content (dv_file d1)) (Z.to_nat off) p) in *.
  assert (length c2 = length (content (dv_file d1))) as Hlc by (apply write_bytes_length; lia).
  rewrite Hscr in Hw. destruct (0 <? Z.of_nat (length p)) eqn:Hpos; zbool.
  - rewrite Nat2Z.id, take_ge in Hw by lia.
    set (d2 := set_flags _ _ _ true (set_image (mkFile c2 []) (dv_hydrator d1) d1)) in Hw.
    assert (∀ b, b ∈ block_list (blockRange off (Z.of_nat (length p))) ↔ touches off (Z.of_nat (length p)) b) as Hbl.
    { intros b. apply elem_of_block_list; lia. }
    destruct (captureWrite_spec p off (block_list (blockRange off (Z.of_nat (length p)))) d2 (content (dv_file d1)))
      as (d3 & Hcap & Hcd); [|done|done|lia|done|lia|done|apply block_list_NoDup| | |].
    { split; [by apply (image_of_same (dv_file d1)); [apply image_inv_file|]|]. cbn [d2 set_flags set_image dv_file content]. by rewrite Hlc. }
    { apply Forall_forall. intros b Hb%Hbl. split; [|done]. eapply touches_range; [| |done]; lia. }
    { intros b buf Hb Hab Hpb. cbn [d2 set_flags set_image dv_active dv_heap] in *. destruct (Ha1 b buf Hab) as [Hbn Hhb].
      rewrite Hhb, Hm1 by done. by rewrite Hv1. }
    rewrite Hcap in Hw. injection Hw as <- <-.
    set (d1' := set_flags (dv_events d1) (dv_dirtyThreshold d1) (dv_dirtyNotified d1) true d1).
    assert (dev_inv base d1') as Hinv1' by exact Hinv1.
    destruct (commit_spec base d1' d2 d3 off (Z.of_nat (length p)) c2 Hinv1') as (Hinv3 & Hv3 & Hg3); [lia|lia|lia|done| |done|done|].
    { intros b Hb Ht. apply block_untouched; [lia|done|done|lia|done]. }
    destruct (notify_observe base (commit off (Z.of_nat (length p)) d3) Hinv3) as (Hinv4 & Hv4 & Hsame4).
    split; [done|]. split; [|done]. do 2 (split; [lia|]). split; [done|]. split.
    2: { split; [done|]. rewrite <-Hbr. eapply grown_trans; [exact Hsame|exact Hg3|apply Hsame4..]. }
    apply (disk_write d (content (dv_file d1)) p off c2); [done|apply Hinv4|lia|lia|done|done|done|].
    intros b Hb. rewrite Hv4, Hv3 by done. case_decide; [done|]. by apply Hv1.
  - injection Hw as <- <-. assert (p = []) as -> by (destruct p; [done|cbn in Hpos; lia]).
    assert (set_image (mkFile c2 []) (dv_hydrator d1) d1 = d1) as ->.
    { unfold c2. rewrite write_nil by lia. destruct d1 as [[c sc]]. cbn in Hscr |- *. by rewrite Hscr. }
    split; [done|]. split; [|done]. cbn [length Z.of_nat] in Hbr. do 2 (split; [lia|]). split; [done|]. split.
    2: { split; [done|]. unfold blockRange in Hbr. cbn [Z.eqb] in Hbr. injection Hbr as <- <-. unfold block_list. cbn [fst snd].
         rewrite Z.sub_diag. by apply grown_same. }
    rewrite write_nil; [by apply dev_disk_ext|].
    pose proof (dev_disk_length d Hi). cbn in *. lia.
Qed.

Lemma WriteAt_spec base reported p off d d' r :
  dev_inv base d → dv_closed d = false → dev_WriteAt reported p off d = (d', r) →
  dev_inv base d' ∧
  match r with
  | Done k None => 0 ≤ off ∧ off + Z.of_nat (length p) ≤ n * DefaultBlockSize ∧ k = Z.of_nat (length p) ∧
      dev_disk d' = write_bytes (dev_disk d) (Z.to_nat off) p ∧
      accepted d d' (blockRange off (Z.of_nat (length p)))
  | _ => dev_disk d' = dev_disk d ∧ grown d d' []
  end.
Proof. intros Hinv Hcl Hw. by destruct (WriteAt_full base reported p off d d' r Hinv Hcl Hw) as (? & ? & _). Qed.

Lemma Trim_full base reported off len d d' r :
  dev_inv base d → dv_closed d = false → Trim reported off len d = (d', r) →
  dev_inv base d' ∧
  match r with
  | Done _ None => 0 ≤ off ∧ 0 ≤ len ∧ off + len ≤ n * DefaultBlockSize ∧
      dev_disk d' = write_bytes (dev_disk d) (Z.to_nat off) (replicate (Z.to_nat len) x00) ∧
      accepted d d' (blockRange off len)
  | _ => dev_disk d' = dev_disk d ∧ grown d d' []
  end ∧
  (dv_hydrator d = None → 0 ≤ off → 0 ≤ len → off + len ≤ n * DefaultBlockSize →
   must_wait (blockRange off len).1 (blockRange off len).2 d = false → r = Done 0 None).
Proof.
  intros Hinv Hcl Hw. unfold Trim in Hw. rewrite Hcl in Hw. pose proof Hinv as (Hi & _). pose proof Hi as [Hsz _].
  destruct ((off <? 0) || (len <? 0) || (dv_size d - off <? len)) eqn:Hrange; [injection Hw as <- <-; split_and!; try done; [by apply grown_same|lia]|]. zbool.
  destruct (blockRange off len) as [first last] eqn:Hbr.
  destruct (must_wait first last d) eqn:Hmw.
  { destruct (wait_spec base reported d d' r Hinv Hw) as (Hinv' & Hv & Hsame & rep & ->). split; [done|].
    cbn [fst snd]. split; [|by rewrite Hmw]. split; [|by apply grown_same]. apply dev_disk_ext; [done|apply Hinv'|]. intros b _. apply Hv. }
  destruct (prepare off len d) as [d1 err] eqn:Hp.
  destruct (prepare_spec base d off len d1 err Hinv) as (Hinv1 & Hsame & Hv1 & Hm1); [lia|lia|lia|done|].
  pose proof Hinv1 as (Hi1 & Hbuf1 & Hs1 & (Ha1 & _) & _).
  destruct err as [e|].
  { injection Hw as <- <-. split; [done|]. split; [split; [by apply dev_disk_ext|by apply grown_same]|].
    intros Hh. unfold prepare in Hp. by rewrite Hh in Hp. }
  specialize (Hm1 eq_refl). pose proof (image_inv_file d1 Hi1) as [(Hscr & _ & _) Hl1].
  unfold PunchHole, next_io in Hw. rewrite Hscr in Hw.
  set (zs := replicate (Z.to_nat len) x00).
  assert (Nat.min (Z.to_nat len) (length (content (dv_file d1)) - Z.to_nat off) = Z.to_nat len) as Hmin by lia.
  cbv iota beta zeta in Hw. rewrite Hmin, Hscr in Hw. fold zs in Hw.
  assert (Z.of_nat (length zs) = len) as Hlz by (unfold zs; rewrite length_replicate; lia).
  set (c2 := write_bytes (content (dv_file d1)) (Z.to_nat off) zs) in *.
  assert (length c2 = length (content (dv_file d1))) as Hlc by (apply write_bytes_length; lia).
  set (d2 := set_image (mkFile c2 []) (dv_hydrator d1) d1) in *.
  assert (∀ b, b ∈ block_list (first, last) ↔ touches off len b) as Hbl.
  { intros b. rewrite <-Hbr. apply elem_of_block_list; lia. }
  destruct (capture_spec (block_list (first, last)) d2) as (d3 & Hcap & Hcd); [|done|done|apply block_list_NoDup| |].
  { split; [by apply (image_of_same (dv_file d1)); [apply image_inv_file|]|]. cbn [d2 set_image dv_file content]. by rewrite Hlc. }
  { apply Forall_forall. intros b Hb%Hbl. eapply touches_range; [| |done]; lia. }
  rewrite Hcap in Hw. injection Hw as <- <-. rewrite <-Hbr in Hcd.
  destruct (commit_spec base d1 d2 d3 off len c2 Hinv1) as (Hinv3 & Hv3 & Hg3); [lia|lia|lia|done| |done|done|].
  { intros b Hb Ht. apply block_untouched; [lia|done|done|lia|by rewrite Hlz]. }
  set (d4 := if 0 <? len then _ else _).
  assert (dev_inv base d4 ∧ (∀ b, dev_view d4 b = dev_view (commit off len d3) b) ∧ same_buffers (commit off len d3) d4)
    as (Hinv4 & Hv4 & Hsame4) by (unfold d4; by case_if).
  destruct (notify_observe base d4 Hinv4) as (Hinv5 & Hv5 & Hsame5).
  split; [done|]. split; [|done]. do 3 (split; [lia|]). split.
  2: { split; [done|]. rewrite <-Hbr. pose proof (same_buffers_trans _ _ _ Hsame4 Hsame5) as Hsame'.
       eapply grown_trans; [exact Hsame|exact Hg3|apply Hsame'..]. }
  apply (disk_write d (content (dv_file d1)) zs off c2); [done|apply Hinv5|lia|lia|done|done|by rewrite Hlz|].
  intros b Hb. rewrite Hlz, Hv5, Hv4, Hv3 by done. case_decide; [done|]. by apply Hv1.
Qed.

Lemma Trim_spec base reported off len d d' r :
  dev_inv base d → dv_closed d = false → Trim reported off len d = (d', r) →
  dev_inv base d' ∧
  match r with
  | Done _ None => 0 ≤ off ∧ 0 ≤ len ∧ off + len ≤ n * DefaultBlockSize ∧
      dev_disk d' = write_bytes (dev_disk d) (Z.to_nat off) (replicate (Z.to_nat len) x00) ∧
      accepted d d' (blockRange off len)
  | _ => dev_disk d' = dev_disk d ∧ grown d d' []
  end.
Proof. intros Hinv Hcl Hw. by destruct (Trim_full base reported off len d d' r Hinv Hcl Hw) as (? & ? & _). Qed.

(** Two disks that agree on the touched blocks agree on the bytes. *)
Lemma read_range (x y : bytes) off len :
  Z.of_nat (length x) = n * DefaultBlockSize → Z.of_nat (length y) = n * DefaultBlockSize →
  0 ≤ off → 0 ≤ len → off + len ≤ n * DefaultBlockSize →
  (∀ b, touches off len b → read_block blockBytes x b = read_block blockBytes y b) →
  take (Z.to_nat len) (drop (Z.to_nat off) x) = take (Z.to_nat len) (drop (Z.to_nat off) y).
Proof.
  intros Hx Hy Hoff Hlen Hfit Hb. pose proof blockBytes_Z as HZ. pose proof blockBytes_pos as Hpos.
  unfold touches, DefaultBlockSize in *.
  apply list_eq_same_length with (Z.to_nat len); [rewrite length_take, length_drop; lia..|].
  intros i a b Hi. rewrite !lookup_take_lt, !lookup_drop by done.
  set (j := (Z.to_nat off + i)%nat). set (k := (j / blockBytes)%nat).
  pose proof (Nat.div_mod_eq j blockBytes) as Hdm. fold k in Hdm.
  pose proof (Nat.mod_upper_bound j blockBytes ltac:(lia)) as Hm.
  specialize (Hb (Z.of_nat k) ltac:(nia)).
  apply (f_equal (fun l => l !! (j mod blockBytes)%nat)) in Hb. rewrite !read_block_lookup in Hb by done.
  rewrite Nat2Z.id in Hb. replace (k * blockBytes + j `mod` blockBytes)%nat with j in Hb by lia. congruence.
Qed.

Lemma ReadAt_spec base len off d d' got err :
  dev_inv base d → dv_closed d = false → 0 ≤ len → dev_ReadAt len off d = (d', got, err) →
  dev_inv base d' ∧ dev_disk d' = dev_disk d ∧ same_buffers d d' ∧
  (err = None → 0 ≤ off < n * DefaultBlockSize ∧ got = take (Z.to_nat len) (drop (Z.to_nat off) (dev_disk d))).
Proof.
  intros Hinv Hcl Hlen Hr. unfold dev_ReadAt in Hr. rewrite Hcl in Hr. pose proof Hinv as (Hi & _). pose proof Hi as [Hsz Hhy].
  destruct ((off <? 0) || (dv_size d <=? off)) eqn:Hrange; [by injection Hr as <- <- <-|]. zbool.
  set (m := if dv_size d - off <? len then dv_size d - off else len) in *.
  assert (0 ≤ m ∧ m ≤ len ∧ off + m ≤ n * DefaultBlockSize ∧ (m = len ∨ off + m = n * DefaultBlockSize)) as (Hm0 & Hml & Hmf & Hmc).
  { unfold m. case_if; lia. }
  assert (∃ d1 e, match dv_hydrator d with
      | Some l => let '(l, f, err) := Hydrate l (dv_file d) off m in (set_image f (Some l) d, err)
      | None => (d, None)
      end = (d1, e) ∧ dev_inv base d1 ∧ same_buffers d d1 ∧ (∀ b, 0 ≤ b < n → dev_view d1 b = dev_view d b) ∧
      (e = None → ∀ b, touches off m b → read_block blockBytes (content (dv_file d1)) b = dev_view d b))
    as (d1 & e & Heq & Hinv1 & Hsame & Hv1 & Hm1).
  { destruct (dv_hydrator d) as [l|] eqn:Hh.
    - destruct (Hydrate l (dv_file d) off m) as [[l' f'] e] eqn:Hhyd.
      destruct (hyd_hydrate n l (dv_file d) off m l' f' e Hhy) as (Hi' & Hv & Hm); [lia|lia|lia|done|].
      exists (set_image f' (Some l') d), e.
      assert (∀ b, 0 ≤ b < n → dev_view (set_image f' (Some l') d) b = dev_view d b) as Hv'.
      { intros b Hb. unfold dev_view. cbn [set_image dv_hydrator dv_file]. rewrite Hh. by apply Hv. }
      split; [done|]. split; [|split; [done|split; [done|]]].
      + eapply dev_inv_same; [done|done|by split|done].
      + intros He b Hb. cbn [set_image dv_file]. unfold dev_view. rewrite Hh. by apply Hm.
    - exists d, None. split_and!; try done. intros _ b _. unfold dev_view. by rewrite Hh. }
  rewrite Heq in Hr. pose proof Hinv1 as (Hi1 & _).
  assert (dev_disk d1 = dev_disk d) as Hdd by (by apply dev_disk_ext).
  destruct e as [e|]; [by injection Hr as <- <- <-|]. specialize (Hm1 eq_refl).
  pose proof (image_inv_file d1 Hi1) as [(Hscr & _ & _) Hl1]. pose proof (dev_disk_length d Hi) as Hdl.
  unfold ReadAt, next_io in Hr. rewrite Hscr in Hr.
  assert (take (Z.to_nat m) (drop (Z.to_nat off) (content (dv_file d1))) =
    take (Z.to_nat m) (drop (Z.to_nat off) (dev_disk d))) as Hgot.
  { apply read_range; try done; try lia. intros b Ht. rewrite Hm1 by done.
    rewrite dev_disk_block; [done|done|]. eapply touches_range; [| |done]; lia. }
  rewrite Hgot in Hr. rewrite (proj2 (Nat.ltb_ge _ _)) in Hr by (rewrite length_take, length_drop; lia).
  injection Hr as <- <- <-.
  assert (set_image (dv_file d1) (dv_hydrator d1) d1 = d1) as -> by by destruct d1.
  split; [done|]. split; [done|]. split; [done|]. intros _. split; [lia|].
  destruct Hmc as [->|Hmc]; [done|]. rewrite !take_ge; [done|rewrite length_drop; lia..].
Qed.

(** *** Sealing and releasing *)

Lemma contents_active base d b :
  active_inv base d → contents (dv_active d) d !! b = if decide (is_Some (dv_active d !! b)) then Some (dev_view d b) else None.
Proof.
  intros [Ha _]. unfold contents. rewrite lookup_fmap. destruct (dv_active d !! b) as [buf|] eqn:Hb.
  - rewrite decide_True by eauto. cbn [fmap option_fmap option_map]. destruct (Ha b buf Hb) as [_ Hh]. unfold buffer. by rewrite Hh.
  - by rewrite decide_False by by intros [? ?].
Qed.

(** The logical content is the base with the active blocks on top. *)
Lemma view_split base d b :
  active_inv base d → 0 ≤ b < n → dev_view d b = default (base b) (contents (dv_active d) d !! b).
Proof.
  intros Ha Hb. rewrite (contents_active base) by done. destruct (decide _) as [|Hn']; [done|].
  cbn [from_option]. apply Ha; [done|]. by apply eq_None_not_Some.
Qed.

Lemma seal_spec base d d' g :
  dev_inv base d → sealLocked d = (d', g) →
  dev_inv (dev_view d) d' ∧ dv_active d' = ∅ ∧ (∀ b, dev_view d' b = dev_view d b) ∧
  match g with
  | Some g => dv_sealed d' = dv_sealed d ++ [g] ∧ sg_snapshot g = contents (dv_active d) d
  | None => d' = d ∧ dv_active d = ∅
  end.
Proof.
  intros (Hi & Hbuf & Hs & Ha & Hd) Hseal. unfold sealLocked in Hseal. case_bool_decide as Hempty.
  { injection Hseal as <- <-. split_and!; try done. split_and!; try done. destruct Ha as [Ha1 Ha2]. by split. }
  injection Hseal as <- <-. set (g := mkSealed _ _ _). split_and!; try done. split; [done|].
  split; [|split; [|split]].
  - destruct Hbuf as [Hnd Hok].
    assert (owned (set_buffers (dv_dirty d) ∅ (dv_heap d) (dv_pool d) (dv_next d) (dv_picks d) (dv_sealed d ++ [g]) d) ≡ₚ owned d) as Hp.
    { unfold owned. cbn [set_buffers dv_active dv_pool dv_sealed]. rewrite map_to_list_empty, fmap_app, concat_app.
      cbn [fmap list_fmap concat app]. rewrite app_nil_r. unfold sealed_locs at 2. cbn [g sg_blocks].
      rewrite !app_assoc, (Permutation_app_comm _ ((map_to_list (dv_active d)).*2)). by rewrite <-!app_assoc. }
    split; [by rewrite Hp|by rewrite Hp].
  - unfold sealed_inv in *. cbn [set_buffers dv_sealed]. apply Forall_app. split; [done|]. by apply Forall_singleton.
  - split; [|done]. intros b buf. cbn [set_buffers dv_active]. by rewrite lookup_empty.
  - unfold dirty_inv in *. cbn [set_buffers dv_dirty dv_active dv_sealed dv_closed]. intros Hc. rewrite (Hd Hc), map_size_empty.
    rewrite fmap_app, sum_app. cbn [fmap list_fmap foldr g sg_bytes]. lia.
Qed.

Lemma Release_spec base i d :
  dev_inv base d → dev_inv base (Release i d) ∧ (∀ b, dev_view (Release i d) b = dev_view d b) ∧
  (dv_closed d = false → ∀ g, dv_sealed d !! i = Some g → dv_dirty (Release i d) = dv_dirty d - sg_bytes g).
Proof.
  intros Hinv. unfold Release. destruct (dv_sealed d !! i) as [g|] eqn:Hg; [|by split_and!].
  pose proof Hinv as (Hi & (Hnd & Hok) & Hs & Ha & Hd). pose proof (take_drop_perm _ _ _ Hg) as Hperm.
  assert (sg_bytes g = Z.of_nat (size (sg_blocks g)) * DefaultBlockSize ∧ sg_blocks g ≠ ∅) as [Hby Hne].
  { unfold sealed_inv in Hs. rewrite Forall_forall in Hs. by apply Hs, (list_elem_of_lookup_2 _ i). }
  assert (0 < sg_bytes g) as Hpos.
  { rewrite Hby. assert (size (sg_blocks g) ≠ 0%nat) by (by apply map_size_non_empty_iff). unfold DefaultBlockSize. lia. }
  assert (sealed_Bytes g d = sg_bytes g) as -> by (unfold sealed_Bytes; by rewrite (proj2 (Z.eqb_neq (sg_bytes g) 0)) by lia).
  set (rest := take i (dv_sealed d) ++ drop (S i) (dv_sealed d)) in *.
  assert (foldr Z.add 0 (sg_bytes <$> dv_sealed d) = sg_bytes g + foldr Z.add 0 (sg_bytes <$> rest)) as Hsum
    by (rewrite Hperm at 1; done).
  assert (Forall (fun x => 0 ≤ x) (sg_bytes <$> rest)) as Hrest.
  { apply Forall_fmap, Forall_forall. intros x Hx. cbn [compose]. unfold sealed_inv in Hs. rewrite Forall_forall in Hs.
    destruct (Hs x) as (_ & -> & _); [rewrite Hperm; by apply list_elem_of_further|]. unfold DefaultBlockSize. lia. }
  pose proof (sum_nonneg _ Hrest) as Hge.
  assert (dv_closed d = false → 0 ≤ dv_dirty d - sg_bytes g) as Hnn.
  { intros Hc. rewrite (Hd Hc). unfold DefaultBlockSize. lia. }
  set (dirty := if dv_dirty d - sg_bytes g <? 0 then 0 else dv_dirty d - sg_bytes g).
  assert (dv_closed d = false → dirty = dv_dirty d - sg_bytes g) as Hdirty.
  { intros Hc. specialize (Hnn Hc). unfold dirty. by rewrite (proj2 (Z.ltb_ge _ 0)) by done. }
  match goal with |- context [observeDirtyLocked ?x] => destruct (observe_flags x) as [ev ->] end.
  cbn [set_flags set_buffers dv_dirty dv_active dv_heap dv_pool dv_next dv_picks dv_sealed].
  split_and!; [|done|intros Hc g0 [= <-]; cbn [set_flags set_buffers dv_dirty]; by apply Hdirty]. split; [done|]. split; [|split; [|split]].
  - match goal with |- buffers_inv ?x => assert (owned x ≡ₚ owned d) as Hp end.
    { unfold owned. cbn [set_flags set_buffers dv_active dv_pool dv_sealed]. fold rest.
      rewrite Hperm. cbn [fmap list_fmap concat]. unfold sealed_locs at 2. by rewrite <-!app_assoc. }
    split; [by rewrite Hp|rewrite Hp; exact Hok].
  - unfold sealed_inv in *. cbn [set_flags set_buffers dv_sealed]. fold rest. rewrite Hperm in Hs.
    apply Forall_cons in Hs as [_ Hs]. exact Hs.
  - exact Ha.
  - unfold dirty_inv in *. cbn [set_flags set_buffers dv_dirty dv_active dv_sealed dv_closed]. fold rest dirty.
    intros Hc. rewrite (Hdirty Hc), (Hd Hc), Hsum. lia.
Qed.
(** *** Runs of operations *)

Lemma dev_inv_base base base' d : (∀ b, 0 ≤ b < n → base b = base' b) → dev_inv base d → dev_inv base' d.
Proof.
  intros Heq (Hi & Hbuf & Hs & [Ha1 Ha2] & Hd). do 3 (split; [done|]). split; [|done]. split; [done|]. intros b Hb Hnone. rewrite <-Heq by done. by apply Ha2.
Qed.

(** The operations of an open device; [OpFlush] carries the outcome of the
    local sync. *)
Inductive dev_op : Type :=
  | OpWrite (reported : bool) (p : bytes) (off : Z)
  | OpTrim (reported : bool) (off len : Z)
  | OpRead (len : nat) (off : Z)
  | OpSeal
  | OpFlush (sync : option error)
  | OpBeginDurableFlush
  | OpRelease (i : nat).

(** The device after an operation, the generation it sealed, and the bytes it
    reported as written. *)
Definition dev_op_run (o : dev_op) d : Device L * option Sealed * option (Z * bytes) :=
  match o with
  | OpWrite reported p off =>
      let '(d, r) := dev_WriteAt reported p off d in
      (d, None, match r with Done _ None => Some (off, p) | _ => None end)
  | OpTrim reported off len =>
      let '(d, r) := Trim reported off len d in
      (d, None, match r with Done _ None => Some (off, replicate (Z.to_nat len) x00) | _ => None end)
  | OpRead len off => let '(d, _, _) := dev_ReadAt (Z.of_nat len) off d in (d, None, None)
  | OpSeal => let '(d, g) := Seal d in (d, g, None)
  | OpFlush sync => let '(d, a) := Flush sync d in (d, match a with FlushDurable g => g | _ => None end, None)
  | OpBeginDurableFlush => let '(d, r) := BeginDurableFlush d in (d, match r with Ok g => g | Err _ => None end, None)
  | OpRelease i => (Release i d, None, None)
  end.

Fixpoint dev_run (ops : list dev_op) d : Device L * list Sealed * list (Z * bytes) :=
  match ops with
  | [] => (d, [], [])
  | o :: ops =>
      let '(d, g, w) := dev_op_run o d in
      let '(d, gs, ws) := dev_run ops d in
      (d, option_list g ++ gs, option_list w ++ ws)
  end.

(** Replaying snapshots, oldest first, and writes. *)
Definition overlay (base : Z → bytes) (snapshot : gmap Z bytes) (b : Z) : bytes := default (base b) (snapshot !! b).
Definition write_disk (disk : bytes) (w : Z * bytes) : bytes := write_bytes disk (Z.to_nat w.1) w.2.

Definition rebased (base : Z → bytes) (gs : list Sealed) : Z → bytes := foldl overlay base (sg_snapshot <$> gs).

Lemma grown_sealed d d' bs : grown d d' bs → dv_closed d = false → dv_closed d' = false ∧ dv_sealed d' = dv_sealed d.
Proof. intros (-> & -> & _). done. Qed.

Lemma seal_step base d d' g :
  dev_inv base d → dv_closed d = false → sealLocked d = (d', g) →
  dev_inv (rebased base (option_list g)) d' ∧ dv_closed d' = false ∧ dv_sealed d' = dv_sealed d ++ option_list g ∧
  (∀ b, dev_view d' b = dev_view d b).
Proof.
  intros Hinv Hcl Hs. pose proof Hs as Hs'. unfold sealLocked in Hs'.
  destruct (seal_spec base d d' g Hinv Hs) as (Hinv' & _ & Hv & Hg). pose proof Hinv as (_ & _ & _ & Ha & _).
  destruct g as [g|]; cbn [option_list].
  - destruct Hg as [Hsl Hsn]. split; [|split; [|done]].
    + eapply dev_inv_base; [|exact Hinv']. intros b Hb. change (dev_view d b = default (base b) (sg_snapshot g !! b)).
      rewrite Hsn. by apply view_split.
    + case_bool_decide; by injection Hs' as <- _.
  - destruct Hg as [-> _]. by rewrite app_nil_r.
Qed.

Lemma dev_op_spec base o d d' g w :
  dev_inv base d → dv_closed d = false → dev_op_run o d = (d', g, w) →
  dev_inv (rebased base (option_list g)) d' ∧ dv_closed d' = false ∧
  dev_disk d' = foldl write_disk (dev_disk d) (option_list w) ∧
  (∀ x, x ∈ dv_sealed d' → x ∈ dv_sealed d ++ option_list g).
Proof.
  intros Hinv Hcl Ho. pose proof Hinv as (Hi & _).
  assert (∀ x, sealLocked d = (d', x) → g = x → w = None → dev_inv (rebased base (option_list g)) d' ∧ dv_closed d' = false ∧
    dev_disk d' = foldl write_disk (dev_disk d) (option_list w) ∧ (∀ x, x ∈ dv_sealed d' → x ∈ dv_sealed d ++ option_list g)) as Hseal.
  { intros x Hs -> ->. destruct (seal_step base d d' x Hinv Hcl Hs) as (Hinv' & Hcl' & -> & Hv).
    split; [done|]. split; [done|]. split; [|done]. apply dev_disk_ext; [done|apply Hinv'|intros b _; apply Hv]. }
  destruct o as [rep p off|rep off len|len off| |sync| |i]; cbn [dev_op_run] in Ho.
  - destruct (dev_WriteAt rep p off d) as [d1 r] eqn:Hw. injection Ho as <- <- <-.
    destruct (WriteAt_spec base rep p off d d1 r Hinv Hcl Hw) as [Hinv' Hr]. split; [done|].
    destruct r as [rp|k [e|]]; cbn [option_list app]; rewrite app_nil_r.
    + destruct Hr as [Hd Hg]. destruct (grown_sealed _ _ _ Hg Hcl) as [Hc Hs]. by rewrite Hs.
    + destruct Hr as [Hd Hg]. destruct (grown_sealed _ _ _ Hg Hcl) as [Hc Hs]. by rewrite Hs.
    + destruct Hr as (_ & _ & _ & Hd & _ & Hg). destruct (grown_sealed _ _ _ Hg Hcl) as [Hc Hs]. by rewrite Hs.
  - destruct (Trim rep off len d) as [d1 r] eqn:Hw. injection Ho as <- <- <-.
    destruct (Trim_spec base rep off len d d1 r Hinv Hcl Hw) as [Hinv' Hr]. split; [done|].
    destruct r as [rp|k [e|]]; cbn [option_list app]; rewrite app_nil_r.
    + destruct Hr as [Hd Hg]. destruct (grown_sealed _ _ _ Hg Hcl) as [Hc Hs]. by rewrite Hs.
    + destruct Hr as [Hd Hg]. destruct (grown_sealed _ _ _ Hg Hcl) as [Hc Hs]. by rewrite Hs.
    + destruct Hr as (_ & _ & _ & Hd & _ & Hg). destruct (grown_sealed _ _ _ Hg Hcl) as [Hc Hs]. by rewrite Hs.
  - destruct (dev_ReadAt (Z.of_nat len) off d) as [[d1 got] e] eqn:Hr. injection Ho as <- <- <-.
    destruct (ReadAt_spec base (Z.of_nat len) off d d1 got e Hinv Hcl ltac:(lia) Hr) as (Hinv' & Hd & Hsame & _).
    destruct (grown_sealed _ _ _ (grown_same _ _ Hsame) Hcl) as [Hc Hs]. rewrite app_nil_r, Hs. done.
  - unfold Seal in Ho. destruct (sealLocked d) as [d1 x]. injection Ho as <- <- <-. by eapply Hseal.
  - unfold Flush in Ho. rewrite Hcl in Ho. cbv iota in Ho.
    set (p := if negb (dv_skipLocalFlush d) && dv_localDirty d then _ else _) in Ho.
    assert (∃ ld, p = (set_flags (dv_events d) (dv_dirtyThreshold d) (dv_dirtyNotified d) ld d, p.2)) as [ld Hp].
    { exists (dv_localDirty p.1). unfold p. case_if; [destruct sync|]; by destruct d. }
    rewrite Hp in Ho. set (d1 := set_flags _ _ _ _ d) in Ho. assert (dev_inv base d1) as Hinv1 by exact Hinv.
    destruct p.2.
    { injection Ho as <- <- <-. cbn [option_list]. rewrite app_nil_r. split_and!; [done..|]. done. }
    destruct (dv_onDurableFlush d1).
    + destruct (sealLocked d1) as [d2 x] eqn:Hs. injection Ho as <- <- <-.
      destruct (seal_step base d1 d2 x Hinv1 Hcl Hs) as (Hinv' & Hcl' & -> & Hv).
      split; [done|]. split; [done|]. split; [|done]. apply dev_disk_ext; [done|apply Hinv'|intros b _; apply Hv].
    + cbn [option_list]. destruct (dv_onFlush d1); injection Ho as <- <- <-; cbn [option_list]; rewrite app_nil_r; done.
  - unfold BeginDurableFlush in Ho. rewrite Hcl in Ho. destruct (dv_onDurableFlush d); cbn [negb] in Ho.
    + destruct (sealLocked d) as [d1 x]. injection Ho as <- <- <-. by eapply Hseal.
    + injection Ho as <- <- <-. cbn [option_list]. by rewrite app_nil_r.
  - injection Ho as <- <- <-. cbn [option_list]. rewrite app_nil_r.
    destruct (Release_spec base i d Hinv) as (Hinv' & Hv & _). split; [done|].
    split; [|split].
    + unfold Release. destruct (dv_sealed d !! i); [|done]. by edestruct observe_flags as [ev ->].
    + apply dev_disk_ext; [done|apply Hinv'|intros b _; apply Hv].
    + intros x. unfold Release. destruct (dv_sealed d !! i) as [g|] eqn:Hg; [|done].
      edestruct observe_flags as [ev ->]. cbn [set_flags set_buffers dv_sealed]. intros Hx.
      rewrite (take_drop_perm _ _ _ Hg). by apply list_elem_of_further.
Qed.
End invariant.
