(* ===== verification/DeviceTheorems.v ===== *)
(** * The device over whole runs

    Replaying the journal's generations at start-up, and what holds after any
    sequence of reads, writes, trims, flushes, seals and releases: the device is
    a flat array of bytes, the sealed generations reproduce it, sealed
    generations never change, and the dirty counter is exact and bounded. *)
From S2P Require Import Prelude Extents Codec File Segment Hydrator Device DeviceProps.
Local Open Scope Z_scope.

Section replay.
Context {L : Type} `{HydratorLaws L}.
Context (n : Z) (Hn : 0 < n ≤ maxImageBlocks).
Implicit Types d : Device L.

Definition blocks_ok (blocks : list (Z * bytes)) : Prop :=
  NoDup blocks.*1 ∧ Forall (fun p => 0 ≤ p.1 < n ∧ length p.2 = blockBytes) blocks.

Lemma touches_block b b' : touches (b * DefaultBlockSize) DefaultBlockSize b' ↔ b' = b.
Proof. unfold touches, DefaultBlockSize. lia. Qed.

Lemma replay_blocks_spec blocks d :
  image_inv n d → blocks_ok blocks →
  ∃ d', replay_blocks blocks d = (d', None) ∧ image_inv n d' ∧ same_buffers d d' ∧
    ∀ b, 0 ≤ b < n → dev_view d' b = overlay (dev_view d) (list_to_map blocks) b.
Proof using Hn.
  revert d. induction blocks as [|[b data] blocks IH]; intros d Hi [Hnd Hall].
  { exists d. split_and!; try done. }
  cbn [fmap list_fmap fst] in Hnd. apply NoDup_cons in Hnd as [Hnb Hnd]. apply Forall_cons in Hall as [[Hb Hl] Hall].
  cbn [fst snd] in Hb, Hl. cbn [replay_blocks]. pose proof blockBytes_Z as HZ. pose proof Hi as [Hsz _].
  rewrite Hsz, Z.quot_mul by done. rewrite Hl, HZ. rewrite (proj2 (Z.eqb_eq _ _)) by done.
  rewrite (proj2 (Z.leb_gt n b)) by lia. cbn [negb orb].
  pose proof (image_inv_file n d Hi) as Hfi. pose proof (file_block_length n Hn d b Hfi Hb) as Hbl. pose proof Hfi as [(Hscr & _ & _) Hfl].
  unfold WriteAt, next_io. rewrite Hscr. cbv iota beta.
  assert (Z.to_nat (b * DefaultBlockSize) = (Z.to_nat b * blockBytes)%nat) as Hoff by nia.
  set (c := write_bytes (content (dv_file d)) (Z.to_nat (b * DefaultBlockSize)) data).
  set (d1 := set_image (mkFile c []) (dv_hydrator d) d).
  assert (length c = length (content (dv_file d))) as Hlc by (apply write_bytes_length; lia).
  assert (∀ x, 0 ≤ x < n → read_block blockBytes c x = if decide (x = b) then data else read_block blockBytes (content (dv_file d)) x) as Hrb.
  { intros x Hx. apply list_eq_same_length with blockBytes.
    - case_decide; [done|]. apply read_block_length. by apply (file_block_length n Hn d x).
    - apply read_block_length. rewrite Hlc. nia.
    - intros i u v Hi'. rewrite read_block_lookup by done. unfold c. rewrite write_bytes_lookup by lia.
      case_decide as Hin; case_decide as Hxb; subst; rewrite ?read_block_lookup by done.
      + replace (Z.to_nat b * blockBytes + i - Z.to_nat (b * DefaultBlockSize))%nat with i by lia. congruence.
      + exfalso. apply Hxb. nia.
      + exfalso. apply Hin. nia.
      + congruence. }
  destruct (commit_image n d d1 (b * DefaultBlockSize) DefaultBlockSize c) as (Hi2 & Hv2 & Hs2);
    [done|unfold DefaultBlockSize; nia..|done| |done|done|done|].
  { intros x Hx Ht. rewrite touches_block in Ht. rewrite Hrb by done. by rewrite decide_False. }
  destruct (IH (commit (b * DefaultBlockSize) DefaultBlockSize d1) Hi2) as (d' & Hr & Hi' & Hs' & Hv'); [by split|].
  exists d'. rewrite Hscr. fold c. fold d1. split; [done|]. split; [done|].
  split; [by apply (same_buffers_trans _ d1); [|eapply same_buffers_trans]|].
  intros x Hx. rewrite Hv' by done. unfold overlay. cbn [list_to_map foldr]. cbn [fst snd].
  rewrite Hv2 by done. rewrite Hrb by done.
  destruct (decide (x = b)) as [->|Hxb].
  - rewrite lookup_insert_eq. cbn [from_option id]. rewrite decide_True by by apply touches_block.
    assert (list_to_map (M := gmap Z bytes) blocks !! b = None) as -> by (by apply not_elem_of_list_to_map_1). done.
  - rewrite lookup_insert_ne by done. rewrite decide_False; [done|]. by rewrite touches_block.
Qed.

(** Replaying depends on the base block by block. *)
Lemma overlay_ext (f g : Z → bytes) ss b : f b = g b → foldl overlay f ss b = foldl overlay g ss b.
Proof.
  revert f g. induction ss as [|s ss IH]; intros f g Heq; [done|]. cbn [foldl]. apply IH. unfold overlay. by rewrite Heq.
Qed.

(** The buffers of a generation get fresh locations. *)
Lemma adopt_spec blocks d :
  NoDup blocks.*1 →
  let '(d', m) := adopt blocks d in
  (rest_of d' = rest_of d ∧ dv_active d' = dv_active d ∧ dv_pool d' = dv_pool d ∧ dv_dirty d' = dv_dirty d) ∧
  (dv_next d ≤ dv_next d')%nat ∧ (∀ x, (x < dv_next d)%nat → dv_heap d' !! x = dv_heap d !! x) ∧
  (∀ b, (m !! b ≫= fun buf => dv_heap d' !! buf) = list_to_map (M := gmap Z bytes) blocks !! b) ∧
  (∀ b buf, m !! b = Some buf → (dv_next d ≤ buf < dv_next d')%nat ∧ is_Some (dv_heap d' !! buf)) ∧
  NoDup (map_to_list m).*2.
Proof.
  revert d. induction blocks as [|[b data] blocks IH]; intros d Hnd; cbn [adopt].
  { do 3 (split; [done|]). split; [|split].
    - intros b. by rewrite lookup_empty.
    - intros b buf. by rewrite lookup_empty.
    - rewrite map_to_list_empty. constructor. }
  cbn [fmap list_fmap fst] in Hnd. apply NoDup_cons in Hnd as [Hnb Hnd].
  set (d1 := set_buffers _ _ _ _ _ _ _ d). specialize (IH d1 Hnd). destruct (adopt blocks d1) as [d' m].
  destruct IH as (Hrest & Hnx & Hold & Hm & Hfresh & Hdup). cbn [d1 set_buffers dv_next dv_heap] in Hnx, Hold, Hfresh.
  assert (m !! b = None) as Hmb.
  { specialize (Hm b). rewrite not_elem_of_list_to_map_1 in Hm by done.
    destruct (m !! b) as [buf|] eqn:Hmb; [|done]. destruct (Hfresh b buf Hmb) as [_ [x Hx]]. cbn in Hm. congruence. }
  split; [exact Hrest|]. split; [lia|]. split.
  { intros x Hx. rewrite Hold by lia. apply lookup_insert_ne. lia. }
  split; [|split].
  - intros x. cbn [list_to_map foldr fst snd]. destruct (decide (x = b)) as [->|Hxb].
    + rewrite !lookup_insert_eq. cbn [mbind option_bind]. rewrite Hold by lia. apply lookup_insert_eq.
    + rewrite !lookup_insert_ne by done. apply Hm.
  - intros x buf. destruct (decide (x = b)) as [->|Hxb].
    + rewrite lookup_insert_eq. intros [= <-]. split; [lia|]. rewrite Hold by lia. rewrite lookup_insert_eq. by eexists.
    + rewrite lookup_insert_ne by done. intros Hx. destruct (Hfresh x buf Hx) as [? ?]. split; [lia|done].
  - rewrite map_to_list_insert by done. cbn [fmap list_fmap snd]. apply NoDup_cons. split; [|done].
    intros ([x buf] & Heq & Hin)%list_elem_of_fmap. cbn [snd] in Heq. apply elem_of_map_to_list in Hin.
    destruct (Hfresh x buf Hin) as [? _]. lia.
Qed.

(** What the journal returns for an image of [n] blocks. *)
Definition gen_ok (g : Generation) : Prop :=
  GenBlocks g ≠ ∅ ∧ gen_bytes g = Z.of_nat (size (GenBlocks g)) * DefaultBlockSize ∧
  ∀ b data, GenBlocks g !! b = Some data → 0 ≤ b < n ∧ length data = blockBytes.

Lemma gen_blocks_ok g : gen_ok g → blocks_ok (map_to_list (GenBlocks g)).
Proof.
  intros (_ & _ & Hok). split; [apply NoDup_fst_map_to_list|]. apply Forall_forall. intros [b data] Hin%elem_of_map_to_list.
  by apply Hok.
Qed.

(** Adding an adopted generation to the sealed ones. *)
Lemma adopted_inv g d d' m :
  image_inv n d → buffers_inv d → sealed_inv d → dirty_inv d → dv_active d = ∅ → gen_ok g →
  adopt (map_to_list (GenBlocks g)) d = (d', m) →
  let s := mkSealed m (gen_bytes g) (GenBlocks g) in
  let d'' := set_buffers (dv_dirty d' + Generation_Bytes (Some g)) (dv_active d') (dv_heap d') (dv_pool d') (dv_next d')
               (dv_picks d') (dv_sealed d' ++ [s]) d' in
  image_inv n d'' ∧ buffers_inv d'' ∧ sealed_inv d'' ∧ dirty_inv d'' ∧ dv_active d'' = ∅ ∧
  dv_closed d'' = dv_closed d ∧ dv_sealed d'' = dv_sealed d ++ [s] ∧ (∀ b, dev_view d'' b = dev_view d b).
Proof.
  intros Hi [Hnd Hok] Hs Hd Hact Hg Had s d''. pose proof (adopt_spec (map_to_list (GenBlocks g)) d) as Ha.
  rewrite Had in Ha. destruct Ha as ((Hrest & Hac & Hpo & Hdi) & Hnx & Hold & Hm & Hfresh & Hdup); [apply NoDup_fst_map_to_list|].
  unfold rest_of in Hrest.
  assert (dv_file d' = dv_file d ∧ dv_size d' = dv_size d ∧ dv_hydrator d' = dv_hydrator d ∧ dv_closed d' = dv_closed d ∧
    dv_sealed d' = dv_sealed d) as (Hf & Hsz & Hh & Hcl & Hse) by (by simplify_eq).
  assert (contents m d' = GenBlocks g) as Hcont.
  { apply map_eq. intros b. unfold contents, buffer. rewrite lookup_fmap. specialize (Hm b). rewrite list_to_map_to_list in Hm.
    destruct (m !! b) as [buf|] eqn:Hb; [|done]. destruct (Hfresh b buf Hb) as [_ [x Hx]].
    cbn [fmap option_fmap option_map mbind option_bind] in Hm |- *. rewrite <-Hm, Hx. done. }
  assert (size m = size (GenBlocks g)) as Hsize by (rewrite <-Hcont; unfold contents; by rewrite map_size_fmap).
  destruct Hg as (Hne & Hby & Hbl).
  assert (∀ x, x ∈ owned d → (x < dv_next d)%nat) as Hlt by (rewrite Forall_forall in Hok; intros x Hx; by apply Hok).
  assert (owned d'' ≡ₚ sealed_locs s ++ owned d) as Hown.
  { unfold owned, d''. cbn [set_buffers dv_active dv_pool dv_sealed]. rewrite Hac, Hpo, Hse, fmap_app, concat_app.
    cbn [fmap list_fmap concat]. rewrite app_nil_r, !app_assoc. by rewrite (Permutation_app_comm (_ ++ _) (sealed_locs s)), <-!app_assoc. }
  assert (∀ x, x ∈ sealed_locs s → ∃ b, m !! b = Some x) as Hloc.
  { intros x ([b buf] & -> & Hin%elem_of_map_to_list)%list_elem_of_fmap. by exists b. }
  split; [|split; [split|split; [|split; [|split; [|split; [|split]]]]]].
  - unfold image_inv, d''. cbn [set_buffers dv_size dv_hydrator dv_file]. by rewrite Hsz, Hh, Hf.
  - rewrite Hown. apply NoDup_app. split_and!; [done| |done]. intros x (b & Hx)%Hloc Hin. destruct (Hfresh b x Hx) as [? _].
    specialize (Hlt x Hin). lia.
  - rewrite Hown. apply Forall_app. split.
    + apply Forall_forall. intros x (b & Hx)%Hloc. destruct (Hfresh b x Hx) as [? [bs Hbs]]. split; [cbn [d'' set_buffers dv_next]; lia|].
      exists bs. split; [done|]. specialize (Hm b). rewrite list_to_map_to_list, Hx in Hm. cbn [mbind option_bind] in Hm.
      rewrite Hbs in Hm. symmetry in Hm. by destruct (Hbl _ _ Hm).
    + rewrite Forall_forall in Hok |- *. intros x Hx. destruct (Hok x Hx) as [Hxn (bs & Hbs & Hl)].
      split; [cbn [d'' set_buffers dv_next]; lia|]. exists bs. cbn [d'' set_buffers dv_heap]. by rewrite Hold.
  - unfold sealed_inv, d''. cbn [set_buffers dv_sealed]. rewrite Hse. apply Forall_app. split.
    + unfold sealed_inv in Hs. rewrite Forall_forall in Hs |- *. intros x Hx. destruct (Hs x Hx) as (Hc & ? & ?).
      split_and!; [|done|done]. rewrite <-Hc. apply contents_ext. intros b buf Hb. cbn [set_buffers dv_heap]. apply Hold, Hlt.
      by eapply owned_sealed.
    + apply Forall_singleton. split_and!; [exact Hcont|cbn [s sg_bytes sg_blocks]; by rewrite Hsize|].
      cbn [s sg_blocks]. intros ->. apply Hne. rewrite <-Hcont. done.
  - unfold dirty_inv in *. cbn [d'' set_buffers dv_dirty dv_active dv_sealed dv_closed]. rewrite Hcl, Hdi, Hac, Hse. intros Hc.
    rewrite (Hd Hc), fmap_app, sum_app. cbn [fmap list_fmap foldr s sg_bytes].
    assert (Generation_Bytes (Some g) = gen_bytes g) as ->; [|lia].
    unfold Generation_Bytes. destruct (gen_bytes g =? 0) eqn:Hz; cbn [negb]; [|done]. exfalso. zbool.
    assert (size (GenBlocks g) ≠ 0%nat) by (by apply map_size_non_empty_iff). unfold DefaultBlockSize in *. lia.
  - cbn [d'' set_buffers dv_active]. congruence.
  - done.
  - cbn [d'' set_buffers dv_sealed]. by rewrite Hse.
  - intros b. unfold dev_view, d''. cbn [set_buffers dv_hydrator dv_file]. by rewrite Hh, Hf.
Qed.

Lemma replay_generations_spec base gens d :
  dev_inv n base d → dv_active d = ∅ → Forall gen_ok gens →
  ∃ d' new, replay_generations gens d = (d', None) ∧ dev_inv n (dev_view d') d' ∧ dv_active d' = ∅ ∧
    dv_closed d' = dv_closed d ∧ dv_sealed d' = dv_sealed d ++ new ∧ sg_snapshot <$> new = GenBlocks <$> gens ∧
    ∀ b, 0 ≤ b < n → dev_view d' b = foldl overlay (dev_view d) (GenBlocks <$> gens) b.
Proof using Hn.
  revert base d. induction gens as [|g gens IH]; intros base d Hinv Hact Hok.
  { exists d, []. pose proof Hinv as (Hi & Hbuf & Hs & [Ha _] & Hd). split; [done|]. split; [|by rewrite app_nil_r].
    do 3 (split; [done|]). split; [|done]. by split. }
  apply Forall_cons in Hok as [Hg Hok]. cbn [replay_generations]. pose proof Hinv as (Hi & Hbuf & Hs & Ha & Hd).
  destruct (replay_blocks_spec (map_to_list (GenBlocks g)) d Hi) as (d1 & -> & Hi1 & Hsame & Hv1); [by apply gen_blocks_ok|].
  assert (buffers_inv d1 ∧ sealed_inv d1 ∧ dirty_inv d1 ∧ dv_active d1 = ∅) as (Hbuf1 & Hs1 & Hd1 & Hact1).
  { destruct Hsame as (Hac & Hh & Hp & Hnx & Hse & Hdi & Hcl & _). unfold buffers_inv, owned, sealed_inv, contents, buffer, dirty_inv in *.
    rewrite Hac, Hh, Hp, Hnx, Hse, Hdi, Hcl. done. }
  destruct (adopt (map_to_list (GenBlocks g)) d1) as [d2 m] eqn:Had.
  destruct (adopted_inv g d1 d2 m Hi1 Hbuf1 Hs1 Hd1 Hact1 Hg Had) as (Hi3 & Hbuf3 & Hs3 & Hd3 & Hact3 & Hcl3 & Hse3 & Hv3).
  set (d3 := set_buffers _ _ _ _ _ _ _ d2) in *.
  assert (dev_inv n (dev_view d3) d3) as Hinv3.
  { do 3 (split; [done|]). split; [|done]. split; [|done]. intros b buf. rewrite Hact3. by rewrite lookup_empty. }
  destruct (IH _ d3 Hinv3 Hact3 Hok) as (d' & new & Hr & Hinv' & Hact' & Hcl' & Hse' & Hnew & Hv').
  assert (dv_closed d1 = dv_closed d ∧ dv_sealed d1 = dv_sealed d) as [Hcl1 Hse1] by (split; apply Hsame).
  eexists d', (_ :: new). split; [exact Hr|]. split; [done|]. split; [done|]. split; [congruence|].
  split; [rewrite Hse', Hse3, Hse1, <-app_assoc; done|]. split.
  { cbn [fmap list_fmap sg_snapshot]. f_equal. exact Hnew. }
  intros b Hb. rewrite Hv' by done. cbn [fmap list_fmap foldl]. apply overlay_ext. rewrite Hv3, Hv1 by done.
  by rewrite list_to_map_to_list.
Qed.
End replay.

Section runs.
Context {L : Type} `{HydratorLaws L}.
Context (n : Z) (Hn : 0 < n ≤ maxImageBlocks).
Implicit Types d : Device L.

Lemma rebased_app base gs1 gs2 : rebased base (gs1 ++ gs2) = rebased (rebased base gs1) gs2.
Proof. unfold rebased. by rewrite fmap_app, foldl_app. Qed.

Lemma dev_run_spec base ops d d' gs ws :
  dev_inv n base d → dv_closed d = false → dev_run ops d = (d', gs, ws) →
  dev_inv n (rebased base gs) d' ∧ dv_closed d' = false ∧ dev_disk n d' = foldl write_disk (dev_disk n d) ws ∧
  (∀ x, x ∈ dv_sealed d' → x ∈ dv_sealed d ++ gs).
Proof using Hn.
  revert base d gs ws. induction ops as [|o ops IH]; intros base d gs ws Hinv Hcl Hr; cbn [dev_run] in Hr.
  { injection Hr as <- <- <-. rewrite app_nil_r. done. }
  destruct (dev_op_run o d) as [[d1 g] w] eqn:Ho. destruct (dev_run ops d1) as [[d2 gs2] ws2] eqn:Hr2.
  injection Hr as <- <- <-. destruct (dev_op_spec n Hn base o d d1 g w Hinv Hcl Ho) as (Hinv1 & Hcl1 & Hd1 & Hs1).
  destruct (IH _ d1 gs2 ws2 Hinv1 Hcl1 Hr2) as (Hinv2 & Hcl2 & Hd2 & Hs2).
  rewrite rebased_app, foldl_app, <-Hd1. do 3 (split; [done|]). intros x Hx. specialize (Hs2 x Hx). rewrite app_assoc.
  apply elem_of_app in Hs2 as [Hs2|Hs2]; apply elem_of_app; [left; by apply Hs1|by right].
Qed.

Lemma dev_run_app ops1 ops2 d :
  dev_run (ops1 ++ ops2) d =
  let '(d1, gs1, ws1) := dev_run ops1 d in let '(d2, gs2, ws2) := dev_run ops2 d1 in (d2, gs1 ++ gs2, ws1 ++ ws2).
Proof.
  revert d. induction ops1 as [|o ops1 IH]; intros d; cbn [app dev_run].
  { by destruct (dev_run ops2 d) as [[? ?] ?]. }
  destruct (dev_op_run o d) as [[d1 g] w]. rewrite IH. destruct (dev_run ops1 d1) as [[d2 gs1] ws1].
  destruct (dev_run ops2 d2) as [[d3 gs2] ws2]. by rewrite !app_assoc.
Qed.

Lemma new_block_count d range :
  newBlockCount range.1 range.2 d = Z.of_nat (length (filter (fun b => dv_active d !! b = None) (block_list range))).
Proof. done. Qed.

Lemma dirty_nonneg base d : dev_inv n base d → dv_closed d = false → 0 ≤ dv_dirty d.
Proof.
  intros (_ & _ & Hs & _ & Hd) Hcl. rewrite (Hd Hcl). pose proof (sum_nonneg (sg_bytes <$> dv_sealed d)) as Hge.
  assert (Forall (fun x => 0 ≤ x) (sg_bytes <$> dv_sealed d)) as Hf.
  { apply Forall_fmap. unfold sealed_inv in Hs. eapply Forall_impl; [exact Hs|]. intros g (_ & Hb & _). cbn [compose].
    rewrite Hb. unfold DefaultBlockSize. lia. }
  specialize (Hge Hf). unfold DefaultBlockSize. lia.
Qed.

(** What the wait loop guarantees of the counter. *)
Lemma accepted_bound base d d' range :
  dev_inv n base d → dv_closed d = false → accepted d d' range →
  dv_dirty d' ≤ Z.max (dv_maxDirty d) (newBlockCount range.1 range.2 d * DefaultBlockSize).
Proof.
  intros Hinv Hcl (Hw & _ & _ & _ & Hd). pose proof (dirty_nonneg base d Hinv Hcl) as Hge.
  rewrite <-new_block_count in Hd. unfold must_wait in Hw. rewrite Hcl in Hw. cbn [negb andb] in Hw.
  rewrite Hd. destruct (0 <? dv_dirty d) eqn:Hp; cbn [andb] in Hw; zbool; lia.
Qed.

(** A call only waits while something is dirty and the limit would be passed. *)
Lemma wait_reason first last d :
  must_wait first last d = true →
  0 < dv_dirty d ∧ dv_maxDirty d < dv_dirty d + newBlockCount first last d * DefaultBlockSize.
Proof. unfold must_wait. intros Hw. zbool. lia. Qed.

(** The counter is exact. *)
Lemma dirty_exact base d :
  dev_inv n base d → dv_closed d = false →
  DirtyBytes d = Z.of_nat (size (dv_active d)) * DefaultBlockSize +
                 foldr Z.add 0 ((fun g => Z.of_nat (size (sg_blocks g)) * DefaultBlockSize) <$> dv_sealed d).
Proof.
  intros (_ & _ & Hs & _ & Hd) Hcl. unfold DirtyBytes. rewrite (Hd Hcl). f_equal. f_equal.
  unfold sealed_inv in Hs. rewrite Forall_forall in Hs. apply list_fmap_ext. intros i g Hg. apply Hs. by eapply list_elem_of_lookup_2.
Qed.

(** What a write does to the counter. *)
Lemma write_bound base reported p off d d' r :
  dev_inv n base d → dv_closed d = false → dev_WriteAt reported p off d = (d', r) →
  match r with
  | Done _ None => DirtyBytes d' ≤
      Z.max (dv_maxDirty d) (newBlockCount (blockRange off (Z.of_nat (length p))).1 (blockRange off (Z.of_nat (length p))).2 d * DefaultBlockSize)
  | Done _ (Some _) => DirtyBytes d' = DirtyBytes d
  | Blocked _ => DirtyBytes d' = DirtyBytes d ∧ 0 < DirtyBytes d
  end.
Proof using Hn.
  intros Hinv Hcl Hw. destruct (WriteAt_spec n Hn _ reported p off d d' r Hinv Hcl Hw) as [_ Hres].
  unfold DirtyBytes. destruct r as [rep|k [e|]].
  - destruct Hres as (_ & _ & _ & _ & Hd). cbn [length filter list_filter Z.of_nat] in Hd. split; [cbn in Hd; lia|].
    unfold dev_WriteAt in Hw. rewrite Hcl in Hw. case_match; [done|]. destruct (blockRange off (Z.of_nat (length p))) as [first last].
    destruct (must_wait first last d) eqn:Hm; [by apply wait_reason in Hm as [? _]|].
    repeat case_match; simplify_eq.
  - destruct Hres as (_ & _ & _ & _ & Hd). cbn in Hd. lia.
  - destruct Hres as (_ & _ & _ & _ & Hacc). by eapply accepted_bound.
Qed.

(** *** The limit never changes *)

Lemma newBlock_limit d : dv_maxDirty (newBlock d).1 = dv_maxDirty d.
Proof. unfold newBlock. destruct (dv_picks d) as [|pick picks]; [done|]. by destruct (pick ≫= _). Qed.

Lemma active_buffer_limit block d : dv_maxDirty (active_buffer block d).1.1 = dv_maxDirty d.
Proof.
  unfold active_buffer. destruct (dv_active d !! block); [done|]. pose proof (newBlock_limit d) as Hl. by destruct (newBlock d).
Qed.

Lemma read_into_limit buf off d : dv_maxDirty (read_into buf off d).1 = dv_maxDirty d.
Proof. unfold read_into. by destruct (ReadAt _ _ _) as [[? ?] ?]. Qed.

Lemma capture_limit blocks d : dv_maxDirty (capture blocks d).1 = dv_maxDirty d.
Proof.
  revert d. induction blocks as [|block blocks IH]; intros d; cbn [capture]; [done|].
  pose proof (active_buffer_limit block d) as <-. destruct (active_buffer block d) as [[d1 buf] ex]. cbn [fst].
  pose proof (read_into_limit buf (block * DefaultBlockSize) d1) as <-. destruct (read_into _ _ d1) as [d2 [e|]]; [done|apply IH].
Qed.

Lemma captureWrite_limit data off blocks d : dv_maxDirty (captureWrite data off blocks d).1 = dv_maxDirty d.
Proof.
  revert d. induction blocks as [|block blocks IH]; intros d; cbn [captureWrite]; [done|].
  pose proof (active_buffer_limit block d) as <-. destruct (active_buffer block d) as [[d1 buf] ex]. cbn [fst].
  destruct (negb ex && _).
  - pose proof (read_into_limit buf (block * DefaultBlockSize) d1) as <-. destruct (read_into _ _ d1) as [d2 [e|]]; [done|]. by rewrite IH.
  - by rewrite IH.
Qed.

Lemma prepare_limit off len d : dv_maxDirty (prepare off len d).1 = dv_maxDirty d.
Proof. unfold prepare. destruct (dv_hydrator d); [|done]. by destruct (PrepareWrite _ _ _ _) as [[? ?] ?]. Qed.

Lemma commit_limit off len d : dv_maxDirty (commit off len d) = dv_maxDirty d.
Proof. unfold commit. by destruct (dv_hydrator d). Qed.

Lemma wait_limit reported d : dv_maxDirty (wait reported d).1 = dv_maxDirty d.
Proof. unfold wait. by destruct (_ && _). Qed.

Lemma notify_limit d : dv_maxDirty (notifyDirtyLocked (observeDirtyLocked d)) = dv_maxDirty d.
Proof. destruct (observe_flags d) as [ev ->]. set (d1 := set_flags _ _ _ _ d). by destruct (notify_flags d1) as (ev' & no & ->). Qed.

Lemma WriteAt_limit reported p off d : dv_maxDirty (dev_WriteAt reported p off d).1 = dv_maxDirty d.
Proof.
  unfold dev_WriteAt. destruct (dv_closed d); [done|]. destruct (_ || _); [done|]. destruct (blockRange _ _) as [first last].
  destruct (must_wait _ _ _); [apply wait_limit|]. rewrite <-(prepare_limit off (Z.of_nat (length p)) d).
  destruct (prepare _ _ d) as [d1 [e|]]; [done|]. cbn [fst]. destruct (WriteAt _ _ _) as [[f k] err]. destruct (0 <? k); [|done].
  set (d2 := set_flags _ _ _ _ _). set (bs := block_list _). set (part := take _ _).
  pose proof (captureWrite_limit part off bs d2) as Hl.
  change (dv_maxDirty d1) with (dv_maxDirty d2). rewrite <-Hl. destruct (captureWrite part off bs d2) as [d3 [e|]]; [done|]. cbn [fst].
  by rewrite notify_limit, commit_limit.
Qed.

Lemma Trim_limit reported off len d : dv_maxDirty (Trim reported off len d).1 = dv_maxDirty d.
Proof.
  unfold Trim. destruct (dv_closed d); [done|]. destruct (_ || _); [done|]. destruct (blockRange _ _) as [first last].
  destruct (must_wait _ _ _); [apply wait_limit|]. rewrite <-(prepare_limit off len d).
  destruct (prepare _ _ d) as [d1 [e|]]; [done|]. cbn [fst]. assert (∀ f, dv_maxDirty (match capture (block_list (first, last)) (set_image f (dv_hydrator d1) d1) with
    | (d, Some e) => (d, Done 0 (Some e))
    | (d, None) => let d := commit off len d in
        let d := if 0 <? len then set_flags (dv_events d) (dv_dirtyThreshold d) (dv_dirtyNotified d) true d else d in
        (notifyDirtyLocked (observeDirtyLocked d), Done 0 None)
    end).1 = dv_maxDirty d1) as Hl.
  { intros f. set (d2 := set_image _ _ _). set (bs := block_list _). change (dv_maxDirty d1) with (dv_maxDirty d2).
    rewrite <-(capture_limit bs d2). destruct (capture bs d2) as [d3 [e|]]; [done|]. cbn [fst]. rewrite notify_limit.
    destruct (0 <? len); apply commit_limit. }
  destruct (PunchHole _ _ _) as [f [e|]]; [|apply Hl]. destruct (write_zeros _ _ _ _ _) as [f' [e'|]]; [done|apply Hl].
Qed.

Lemma ReadAt_limit len off d : dv_maxDirty (dev_ReadAt len off d).1.1 = dv_maxDirty d.
Proof.
  unfold dev_ReadAt. destruct (dv_closed d); [done|]. destruct (_ || _); [done|]. destruct (dv_hydrator d).
  - destruct (Hydrate _ _ _ _) as [[? ?] [?|]]; [done|]. by destruct (ReadAt _ _ _) as [[? ?] ?].
  - by destruct (ReadAt _ _ _) as [[? ?] ?].
Qed.

Lemma seal_limit d : dv_maxDirty (sealLocked d).1 = dv_maxDirty d.
Proof. unfold sealLocked. by case_bool_decide. Qed.

Lemma Flush_limit sync d : dv_maxDirty (Flush sync d).1 = dv_maxDirty d.
Proof.
  unfold Flush. destruct (dv_closed d); [done|].
  assert (∀ d1, dv_maxDirty (if dv_onDurableFlush d1 then let '(d, g) := sealLocked d1 in (d, FlushDurable g)
    else if dv_onFlush d1 then (d1, FlushHandler) else (d1, FlushDone)).1 = dv_maxDirty d1) as Hl.
  { intros d1. destruct (dv_onDurableFlush d1); [|by destruct (dv_onFlush d1)]. rewrite <-(seal_limit d1). by destruct (sealLocked d1). }
  destruct (negb _ && _); [destruct sync; [done|]|]; exact (Hl _).
Qed.

Lemma Release_limit i d : dv_maxDirty (Release i d) = dv_maxDirty d.
Proof. unfold Release. destruct (dv_sealed d !! i); [|done]. set (d1 := set_flags _ _ _ _ _). by destruct (observe_flags d1) as [ev ->]. Qed.

Lemma dev_op_limit o d : dv_maxDirty (dev_op_run o d).1.1 = dv_maxDirty d.
Proof.
  destruct o as [rep p off|rep off len|len off| |sync| |i]; cbn [dev_op_run].
  - rewrite <-(WriteAt_limit rep p off d). by destruct (dev_WriteAt _ _ _ _) as [? []].
  - rewrite <-(Trim_limit rep off len d). by destruct (Trim _ _ _ _) as [? []].
  - rewrite <-(ReadAt_limit (Z.of_nat len) off d). by destruct (dev_ReadAt _ _ _) as [[? ?] ?].
  - rewrite <-(seal_limit d). unfold Seal. by destruct (sealLocked d).
  - rewrite <-(Flush_limit sync d). by destruct (Flush sync d).
  - unfold BeginDurableFlush. destruct (dv_closed d); [done|]. destruct (negb _); [done|]. rewrite <-(seal_limit d). by destruct (sealLocked d).
  - apply Release_limit.
Qed.

Lemma dev_run_limit ops d : dv_maxDirty (dev_run ops d).1.1 = dv_maxDirty d.
Proof.
  revert d. induction ops as [|o ops IH]; intros d; cbn [dev_run]; [done|]. rewrite <-(dev_op_limit o d).
  destruct (dev_op_run o d) as [[d1 g] w]. cbn [fst]. rewrite <-(IH d1). by destruct (dev_run ops d1) as [[? ?] ?].
Qed.

Lemma replay_blocks_limit blocks d : dv_maxDirty (replay_blocks blocks d).1 = dv_maxDirty d.
Proof.
  revert d. induction blocks as [|[b data] blocks IH]; intros d; cbn [replay_blocks]; [done|]. destruct (_ || _); [done|].
  destruct (WriteAt _ _ _) as [[f k] [e|]]; [done|]. by rewrite IH, commit_limit.
Qed.

Lemma adopt_limit blocks d : dv_maxDirty (adopt blocks d).1 = dv_maxDirty d.
Proof.
  revert d. induction blocks as [|[b data] blocks IH]; intros d; cbn [adopt]; [done|]. set (d1 := set_buffers _ _ _ _ _ _ _ _).
  change (dv_maxDirty d) with (dv_maxDirty d1). rewrite <-(IH d1). by destruct (adopt blocks d1).
Qed.

Lemma replay_limit gens d : dv_maxDirty (replay_generations gens d).1 = dv_maxDirty d.
Proof.
  revert d. induction gens as [|g gens IH]; intros d; cbn [replay_generations]; [done|].
  rewrite <-(replay_blocks_limit (map_to_list (GenBlocks g)) d). destruct (replay_blocks _ d) as [d1 [e|]]; [done|]. cbn [fst].
  rewrite <-(adopt_limit (map_to_list (GenBlocks g)) d1). destruct (adopt _ d1) as [d2 m]. cbn [fst]. by rewrite IH.
Qed.

(** *** Starting the device *)

Definition image_ok (f : File) (lazyImage : option L) : Prop :=
  match lazyImage with
  | Some l => hyd_inv n l f
  | None => image_of f n ∧ Z.of_nat (length (content f)) = n * DefaultBlockSize
  end.

Definition image_view (f : File) (lazyImage : option L) (b : Z) : bytes :=
  match lazyImage with Some l => hyd_view l f b | None => read_block blockBytes (content f) b end.

Lemma image_ok_length f lazyImage : image_ok f lazyImage → Z.of_nat (length (content f)) = n * DefaultBlockSize.
Proof. destruct lazyImage as [l|]; [by intros [_ ?]%hyd_image|by intros [_ ?]]. Qed.

(** The limit of a device opened with [maxDirty]. *)
Definition dirty_limit (maxDirty : Z) : Z := if maxDirty <=? 0 then Z.shiftl 256 20 else maxDirty.

Lemma OpenDevice_ok picks f maxDirty :
  Z.of_nat (length (content f)) = n * DefaultBlockSize →
  OpenDevice (L := L) None picks f (n * DefaultBlockSize) maxDirty =
  Ok (mkDevice f (n * DefaultBlockSize) (dirty_limit maxDirty) 0 ∅ ∅ [] 0 picks
        false false false [] 0 false false false false false None false false []).
Proof using Hn.
  intros Hl. unfold OpenDevice. rewrite Z.rem_mul by done. rewrite Truncate_same by done. by rewrite (proj2 (Z.leb_gt (n * DefaultBlockSize) 0)) by (unfold DefaultBlockSize; lia).
Qed.

Lemma fresh_inv picks f maxDirty lazyImage d0 :
  image_ok f lazyImage → OpenDevice None picks f (n * DefaultBlockSize) maxDirty = Ok d0 →
  dev_inv n (image_view f lazyImage) (SetDirtyObserver (SetLazyImage lazyImage d0)).
Proof using Hn.
  intros Hok. rewrite OpenDevice_ok by by eapply image_ok_length. intros [= <-].
  split; [done|]. split; [|split; [|split]].
  - split; [constructor|]. by apply Forall_nil.
  - by apply Forall_nil.
  - split; [|done]. intros b buf Hb. cbn [SetDirtyObserver SetLazyImage set_image set_handlers dv_active] in Hb.
    by rewrite lookup_empty in Hb.
  - intros _. done.
Qed.

Lemma start_spec picks f maxDirty lazyImage gens :
  image_ok f lazyImage → Forall (gen_ok n) gens →
  ∃ d, start_device None picks f (n * DefaultBlockSize) maxDirty lazyImage gens = Ok d ∧
    dev_inv n (dev_view d) d ∧ dv_closed d = false ∧ dv_active d = ∅ ∧
    sg_snapshot <$> dv_sealed d = GenBlocks <$> gens ∧
    (∀ b, 0 ≤ b < n → dev_view d b = foldl overlay (image_view f lazyImage) (GenBlocks <$> gens) b).
Proof using Hn.
  intros Hok Hgens. unfold start_device. pose proof (image_ok_length f lazyImage Hok) as Hlen.
  destruct (OpenDevice None picks f (n * DefaultBlockSize) maxDirty) as [d0|e] eqn:Ho; [|by rewrite OpenDevice_ok in Ho by done].
  pose proof (fresh_inv picks f maxDirty lazyImage d0 Hok Ho) as Hinv.
  assert (dv_closed d0 = false ∧ dv_active d0 = ∅ ∧ dv_sealed d0 = []) as (Hcl & Hact & Hse).
  { rewrite OpenDevice_ok in Ho by done. by injection Ho as <-. }
  assert (∀ b, dev_view (SetDirtyObserver (SetLazyImage lazyImage d0)) b = image_view f lazyImage b) as Hv.
  { intros b. rewrite OpenDevice_ok in Ho by done. by injection Ho as <-. }
  cbn [mbind result_mbind]. set (d1 := SetDirtyObserver (SetLazyImage lazyImage d0)) in *.
  destruct (replay_generations_spec n Hn _ gens d1 Hinv Hact Hgens) as (d2 & new & Hr & Hinv2 & Hact2 & Hcl2 & Hse2 & Hnew & Hv2).
  assert (dv_sealed d1 = []) as Hse1 by exact Hse. rewrite Hse1 in Hse2.
  assert (dv_closed d1 = false) as Hcl1 by done. unfold Replay. rewrite Hcl1, Hr. rewrite Hcl1 in Hcl2.
  assert (∀ b, 0 ≤ b < n → dev_view d2 b = foldl overlay (image_view f lazyImage) (GenBlocks <$> gens) b) as Hv'.
  { intros b Hb. rewrite Hv2 by done. by apply overlay_ext. }
  assert (sg_snapshot <$> dv_sealed d2 = GenBlocks <$> gens) as Hsn by (by rewrite Hse2).
  destruct gens as [|g gens]; cbn [length Z.of_nat Z.ltb Z.compare].
  - cbn [replay_generations] in Hr. assert (d1 = d2) as Heq by congruence. exists (SetBackpressureHandler d2). by rewrite Heq.
  - destruct (observe_flags d2) as [ev ->]. eexists. split; [done|]. by split_and!.
Qed.

Lemma start_limit picks f maxDirty lazyImage gens d :
  image_ok f lazyImage → start_device None picks f (n * DefaultBlockSize) maxDirty lazyImage gens = Ok d → dv_maxDirty d = dirty_limit maxDirty.
Proof using Hn.
  intros Hok. unfold start_device. rewrite OpenDevice_ok by by eapply image_ok_length. cbn [mbind result_mbind].
  set (d0 := SetDirtyObserver _). change (dirty_limit maxDirty) with (dv_maxDirty d0). destruct (0 <? _).
  - unfold Replay. change (dv_closed d0) with false. cbv iota. rewrite <-(replay_limit gens d0).
    destruct (replay_generations gens d0) as [d1 [e|]]; [done|]. destruct (observe_flags d1) as [ev ->]. by intros [= <-].
  - by intros [= <-].
Qed.

(** ** Claims *)

(** C11: while its local file has no I/O error, the device is a flat array of
    bytes.  Started on an image and the generations of the journal it is that
    image with the generations replayed in order; after any sequence of reads,
    writes, trims, flushes, seals and releases, whichever pooled buffers it gets
    and whichever fetches of a lazy image fail, its content is that initial
    content with exactly the writes and trims that were reported as successful
    applied in order.  (A local write that fails half-way does change bytes:
    [short_write_loses_unfetched_bytes] of Mount.v.) *)
Theorem device_refines_disk picks f maxDirty lazyImage gens ops :
  image_ok f lazyImage → Forall (gen_ok n) gens →
  ∃ d d' gs ws,
    start_device None picks f (n * DefaultBlockSize) maxDirty lazyImage gens = Ok d ∧ dev_run ops d = (d', gs, ws) ∧
    (∀ b, 0 ≤ b < n → read_block blockBytes (dev_disk n d) b = foldl overlay (image_view f lazyImage) (GenBlocks <$> gens) b) ∧
    dev_disk n d' = foldl write_disk (dev_disk n d) ws.
Proof using Hn.
  intros Hok Hg. destruct (start_spec picks f maxDirty lazyImage gens Hok Hg) as (d & Hs & Hinv & Hcl & _ & _ & Hv).
  destruct (dev_run ops d) as [[d' gs] ws] eqn:Hr.
  destruct (dev_run_spec _ ops d d' gs ws Hinv Hcl Hr) as (_ & _ & Hd & _).
  exists d, d', gs, ws. do 2 (split; [done|]). split; [|done].
  intros b Hb. rewrite <-Hv, dev_disk_block by (done || apply Hinv). done.
Qed.

(** C10: while its local file has no I/O error, nothing is lost on the way to
    the remote: after any run that ends with a seal, whichever pooled buffers
    (with whatever they hold) the captures get, the blocks of all generations
    sealed during the run, replayed in order over the content the device had at
    the start, are the content of the device, block by block.  (With a failing
    local read this is false: [failed_capture_seals_stale_block].) *)
Theorem sealed_generations_reproduce_device picks f maxDirty lazyImage gens ops :
  image_ok f lazyImage → Forall (gen_ok n) gens →
  ∃ d d' gs ws,
    start_device None picks f (n * DefaultBlockSize) maxDirty lazyImage gens = Ok d ∧
    dev_run (ops ++ [OpSeal]) d = (d', gs, ws) ∧ dv_active d' = ∅ ∧
    ∀ b, 0 ≤ b < n → dev_view d' b = foldl overlay (dev_view d) (sg_snapshot <$> gs) b.
Proof using Hn.
  intros Hok Hg. destruct (start_spec picks f maxDirty lazyImage gens Hok Hg) as (d & Hs & Hinv & Hcl & _).
  destruct (dev_run (ops ++ [OpSeal]) d) as [[d' gs] ws] eqn:Hr.
  destruct (dev_run_spec _ _ d d' gs ws Hinv Hcl Hr) as ((_ & _ & _ & [_ Hb] & _) & _).
  assert (dv_active d' = ∅) as Hact; [|exists d, d', gs, ws; do 3 (split; [done|]); intros b Hbn; apply Hb; [done|by rewrite Hact]].
  rewrite dev_run_app in Hr. destruct (dev_run ops d) as [[d1 gs1] ws1] eqn:Hr1.
  destruct (dev_run_spec _ _ d d1 gs1 ws1 Hinv Hcl Hr1) as (Hinv1 & _). cbn [dev_run dev_op_run] in Hr. unfold Seal in Hr.
  destruct (sealLocked d1) as [d2 g] eqn:Hsl. injection Hr as <- _ _.
  by destruct (seal_spec n _ d1 d2 g Hinv1 Hsl) as (_ & ? & _).
Qed.

(** C12: a sealed generation is immutable until it is released: however long the
    device is written, trimmed and sealed after a seal, and whichever pooled
    buffers those writes reuse, the generation still holds the bytes its blocks
    had when it was sealed. *)
Theorem sealed_generation_immutable base d d1 g ops d2 gs ws :
  dev_inv n base d → dv_closed d = false → Seal d = (d1, Some g) → dev_run ops d1 = (d2, gs, ws) → g ∈ dv_sealed d2 →
  GenBlocks (sealed_generation g d2) = contents (dv_active d) d ∧
  Generation_Bytes (Some (sealed_generation g d2)) = Z.of_nat (size (dv_active d)) * DefaultBlockSize.
Proof using Hn.
  intros Hinv Hcl Hseal Hr Hg. destruct (seal_step n base d d1 (Some g) Hinv Hcl Hseal) as (Hinv1 & Hcl1 & _ & _).
  destruct (seal_spec n base d d1 (Some g) Hinv Hseal) as (_ & _ & _ & _ & Hsn).
  destruct (dev_run_spec _ ops d1 d2 gs ws Hinv1 Hcl1 Hr) as ((_ & _ & Hs & _) & _).
  unfold sealed_inv in Hs. rewrite Forall_forall in Hs. destruct (Hs g Hg) as (Hc & Hby & Hne).
  cbn [sealed_generation GenBlocks]. rewrite Hc, Hsn. split; [done|].
  assert (size (sg_blocks g) = size (dv_active d)) as Hsz.
  { rewrite <-(map_size_fmap (fun buf => buffer buf d) (dv_active d)). change (size (sg_blocks g) = size (contents (dv_active d) d)).
    rewrite <-Hsn, <-Hc. unfold contents. by rewrite map_size_fmap. }
  assert (size (sg_blocks g) ≠ 0%nat) by (by apply map_size_non_empty_iff).
  unfold Generation_Bytes. cbn [sealed_generation gen_bytes]. rewrite Hby, Hsz.
  rewrite (proj2 (Z.eqb_neq _ 0)); [done|]. unfold DefaultBlockSize. lia.
Qed.

(** A read returns the bytes of the disk: inside the device it yields
    exactly the requested bytes, cut at the end of the device, or fails without
    changing anything the device holds; outside it is [io.EOF]. *)
Theorem ReadAt_returns_disk base len off d :
  dev_inv n base d → dv_closed d = false → 0 ≤ len →
  ∃ d' got err, dev_ReadAt len off d = (d', got, err) ∧ dev_disk n d' = dev_disk n d ∧
    (err = None → got = take (Z.to_nat len) (drop (Z.to_nat off) (dev_disk n d))) ∧
    (off < 0 ∨ n * DefaultBlockSize ≤ off → err = Some ErrEOF ∧ d' = d).
Proof using Hn.
  intros Hinv Hcl Hlen. destruct (dev_ReadAt len off d) as [[d' got] err] eqn:Hr.
  destruct (ReadAt_spec n Hn base len off d d' got err Hinv Hcl Hlen Hr) as (_ & Hd & _ & Hok).
  exists d', got, err. do 2 (split; [done|]). split; [intros He; by apply Hok|].
  intros Hout. pose proof Hinv as ([Hsz _] & _). unfold dev_ReadAt in Hr. rewrite Hcl, Hsz in Hr.
  rewrite (proj2 (orb_true_iff _ _)) in Hr by lia. by injection Hr as <- <- <-.
Qed.

(** C18: the dirty counter is exact and bounded.  After any run of reads,
    writes, trims, flushes, seals and releases of a device that was started on a
    local file without I/O errors, the counter is the bytes of the blocks changed
    since the last seal plus those of the generations that are sealed or replayed
    and not released.  A write that is let through leaves it within the larger of
    the configured limit and the write's own new blocks, and one that fails
    leaves it as it was; a write only waits while something is dirty that a
    release can take away.  The marking of an image ([MarkAllocated]) is not part
    of such a run. *)
Theorem dirty_exact_and_bounded picks f maxDirty lazyImage gens ops reported p off :
  image_ok f lazyImage → Forall (gen_ok n) gens →
  ∃ d d' gs ws d'' r,
    start_device None picks f (n * DefaultBlockSize) maxDirty lazyImage gens = Ok d ∧
    dev_run ops d = (d', gs, ws) ∧ dev_WriteAt reported p off d' = (d'', r) ∧
    DirtyBytes d' = Z.of_nat (size (dv_active d')) * DefaultBlockSize +
                    foldr Z.add 0 ((fun g => Z.of_nat (size (sg_blocks g)) * DefaultBlockSize) <$> dv_sealed d') ∧
    match r with
    | Done _ None => DirtyBytes d'' ≤
        Z.max (dirty_limit maxDirty)
          (newBlockCount (blockRange off (Z.of_nat (length p))).1 (blockRange off (Z.of_nat (length p))).2 d' * DefaultBlockSize)
    | Done _ (Some _) => DirtyBytes d'' = DirtyBytes d'
    | Blocked _ => DirtyBytes d'' = DirtyBytes d' ∧ 0 < DirtyBytes d'
    end.
Proof using Hn.
  intros Hok Hg. destruct (start_spec picks f maxDirty lazyImage gens Hok Hg) as (d & Hs & Hinv & Hcl & _).
  destruct (dev_run ops d) as [[d' gs] ws] eqn:Hr. destruct (dev_WriteAt reported p off d') as [d'' r] eqn:Hw.
  destruct (dev_run_spec _ ops d d' gs ws Hinv Hcl Hr) as (Hinv' & Hcl' & _).
  exists d, d', gs, ws, d'', r. do 3 (split; [done|]). split; [by eapply dirty_exact|].
  assert (dv_maxDirty d' = dirty_limit maxDirty) as <- by (rewrite <-(start_limit _ _ _ _ _ _ Hok Hs), <-(dev_run_limit ops d), Hr; done).
  by eapply write_bound.
Qed.
End runs.

(** ** Witnesses *)

Definition sample_image : File := mkFile (replicate (2 * blockBytes) x00) [].
Definition sample_recovered : list Generation := [mkGeneration {[1 := replicate blockBytes x41]} 4096 1].
Definition sample_ops : list dev_op := [OpWrite false [x42; x43] 4095; OpSeal; OpTrim false 0 100; OpRead 10 4090; OpRelease 0;
  OpWrite false [x44] 4096].
(** The last write gets the buffer of the generation that was released. *)
Definition sample_picks : list (option nat) := [None; None; None; Some 0%nat].

Lemma two_blocks : 0 < 2 ≤ maxImageBlocks.
Proof. by vm_compute. Qed.

Lemma sample_image_ok : image_ok 2 (L := Empty_set) sample_image None.
Proof. split; [split; [done|]|]; by vm_compute. Qed.

Lemma sample_recovered_ok : Forall (gen_ok 2) sample_recovered.
Proof.
  apply Forall_singleton. split; [apply map_non_empty_singleton|]. split; [done|].
  intros b data. cbn [GenBlocks]. intros [<- <-]%lookup_singleton_Some. rewrite length_replicate. lia.
Qed.

Lemma device_refines_disk_witness :
  ∃ d d' gs ws,
    start_device (L := Empty_set) None sample_picks sample_image 8192 0 None sample_recovered = Ok d ∧ dev_run sample_ops d = (d', gs, ws) ∧
    (∀ b, 0 ≤ b < 2 → read_block blockBytes (dev_disk 2 d) b =
       foldl overlay (image_view (L := Empty_set) sample_image None) (GenBlocks <$> sample_recovered) b) ∧
    dev_disk 2 d' = foldl write_disk (dev_disk 2 d) ws.
Proof.
  apply (device_refines_disk 2 two_blocks sample_picks sample_image 0 None sample_recovered sample_ops).
  - apply sample_image_ok.
  - apply sample_recovered_ok.
Defined.

Lemma sealed_generations_reproduce_device_witness :
  ∃ d d' gs ws,
    start_device (L := Empty_set) None sample_picks sample_image 8192 0 None sample_recovered = Ok d ∧
    dev_run (sample_ops ++ [OpSeal]) d = (d', gs, ws) ∧ dv_active d' = ∅ ∧
    ∀ b, 0 ≤ b < 2 → dev_view d' b = foldl overlay (dev_view d) (sg_snapshot <$> gs) b.
Proof.
  apply (sealed_generations_reproduce_device 2 two_blocks sample_picks sample_image 0 None sample_recovered sample_ops).
  - apply sample_image_ok.
  - apply sample_recovered_ok.
Defined.

(** A device that has just been opened, and the same with one write. *)
Definition fresh_device (f : File) (maxDirty : Z) : Device Empty_set :=
  mkDevice f (Z.of_nat (length (content f))) maxDirty 0 ∅ ∅ [] 0 [] false false false [] 0 false false false false false None false false [].
Definition sample_device : Device Empty_set := fresh_device sample_image 4096.
Definition written_device : Device Empty_set := (dev_op_run (OpWrite false [x42; x43] 100) sample_device).1.1.

Lemma sample_device_inv : dev_inv 2 (image_view (L := Empty_set) sample_image None) sample_device.
Proof.
  split; [split; [done|apply sample_image_ok]|]. split; [|split; [|split]].
  - split; [constructor|]. by apply Forall_nil.
  - by apply Forall_nil.
  - split; [|done]. intros b buf Hb. cbn [sample_device fresh_device dv_active] in Hb. by rewrite lookup_empty in Hb.
  - intros _. done.
Qed.

Lemma written_device_inv : dev_inv 2 (image_view (L := Empty_set) sample_image None) written_device.
Proof.
  unfold written_device. destruct (dev_op_run (OpWrite false [x42; x43] 100) sample_device) as [[d' g] w] eqn:Ho.
  destruct (dev_op_spec 2 two_blocks _ _ sample_device d' g w sample_device_inv eq_refl Ho) as (Hinv & _).
  cbn [dev_op_run] in Ho. destruct (dev_WriteAt false [x42; x43] 100 sample_device) as [d1 r]. injection Ho as <- <- _.
  exact Hinv.
Qed.

Lemma sealed_generation_immutable_witness :
  let d1 := (Seal written_device).1 in
  ∃ g, Seal written_device = (d1, Some g) ∧
    let d2 := (dev_run [OpWrite false [x44] 100; OpTrim false 0 50] d1).1.1 in
    GenBlocks (sealed_generation g d2) = contents (dv_active written_device) written_device ∧
    Generation_Bytes (Some (sealed_generation g d2)) = Z.of_nat (size (dv_active written_device)) * DefaultBlockSize.
Proof.
  intros d1. eexists. split; [vm_compute; reflexivity|]. intros d2.
  eapply (sealed_generation_immutable 2 two_blocks _ written_device d1 _ [OpWrite false [x44] 100; OpTrim false 0 50] d2);
    [exact written_device_inv|by vm_compute|by vm_compute|by vm_compute|].
  apply (list_elem_of_lookup_2 _ 0). by vm_compute.
Defined.

Lemma ReadAt_returns_disk_witness :
  ∃ d' got err, dev_ReadAt 10 95 written_device = (d', got, err) ∧ dev_disk 2 d' = dev_disk 2 written_device ∧
    (err = None → got = take (Z.to_nat 10) (drop (Z.to_nat 95) (dev_disk 2 written_device))) ∧
    (95 < 0 ∨ 2 * DefaultBlockSize ≤ 95 → err = Some ErrEOF ∧ d' = written_device).
Proof. eapply (ReadAt_returns_disk 2 two_blocks _ 10 95 written_device); [exact written_device_inv|by vm_compute|done]. Defined.

(** The limit is one block and the journal has filled it: the write has to wait. *)
Lemma dirty_exact_and_bounded_witness :
  ∃ d d' gs ws d'' r,
    start_device (L := Empty_set) None sample_picks sample_image 8192 4096 None sample_recovered = Ok d ∧
    dev_run [OpSeal] d = (d', gs, ws) ∧ dev_WriteAt false [x44] 0 d' = (d'', r) ∧ r = Blocked true ∧
    DirtyBytes d' = Z.of_nat (size (dv_active d')) * DefaultBlockSize +
                    foldr Z.add 0 ((fun g => Z.of_nat (size (sg_blocks g)) * DefaultBlockSize) <$> dv_sealed d') ∧
    DirtyBytes d'' = DirtyBytes d' ∧ 0 < DirtyBytes d'.
Proof.
  destruct (dirty_exact_and_bounded 2 two_blocks sample_picks sample_image 4096 None sample_recovered [OpSeal] false [x44] 0
    sample_image_ok sample_recovered_ok) as (d & d' & gs & ws & d'' & r & Hs & Hr & Hw & Hexact & Hbound).
  assert (r = Blocked true) as ->.
  { transitivity (match start_device (L := Empty_set) None sample_picks sample_image (2 * DefaultBlockSize) 4096 None sample_recovered with
      | Ok d => (dev_WriteAt false [x44] 0 (dev_run [OpSeal] d).1.1).2 | Err _ => Blocked false end); [|by vm_compute].
    rewrite Hs, Hr. cbn [fst]. by rewrite Hw. }
  exists d, d', gs, ws, d'', (Blocked true). split_and!; [exact Hs|exact Hr|exact Hw|reflexivity|exact Hexact|apply Hbound..].
Defined.

(** ** Findings *)

(** A write whose capture cannot read back the rest of the block has put a
    buffer with other content into the active set: the write is reported as
    failed, and the next seal still publishes that buffer, over 4095 bytes the
    write never touched. *)
Lemma failed_capture_seals_stale_block :
  let d0 := fresh_device (mkFile (replicate (2 * blockBytes) x41) [IOk; IShort 0]) 0 in
  let '(d1, r) := dev_WriteAt false [x42] 0 d0 in
  (∃ e, r = Done 1 (Some e)) ∧
  read_block blockBytes (content (dv_file d1)) 0 = x42 :: replicate (blockBytes - 1) x41 ∧
  match Seal d1 with
  | (_, Some g) => sg_snapshot g !! 0 = Some (replicate blockBytes x00)
  | (_, None) => False
  end.
Proof. vm_compute. split; [eexists; reflexivity|]. split; reflexivity. Qed.

(** A block that lies in two data ranges of the sparse image is counted twice
    by [MarkAllocated] and once by the generation: after the release half of it
    stays in the dirty counter although nothing is unpublished. *)
Lemma marked_twice_stays_dirty :
  let d0 := fresh_device (mkFile (replicate 100 x41 ++ replicate 1948 x00 ++ replicate 100 x41 ++ replicate 6044 x00) []) 0 in
  let '(d1, err) := MarkAllocated [SeekData 0 (Some 1024); SeekData 2048 (Some 3072); SeekEnd] d0 in
  err = None ∧ dv_dirty d1 = 8192 ∧ size (dv_active d1) = 1%nat ∧
  let d2 := Release 0 (Seal d1).1 in
  dv_dirty d2 = 4096 ∧ dv_active d2 = ∅ ∧ dv_sealed d2 = [].
Proof. by vm_compute. Qed.
