(* ===== verification/Lazy.v ===== *)
(** * The lazy image ([internal/replica/lazy.go])

    A volume is mounted over an empty sparse image; segments are fetched and
    applied when a block they own is first read or partly overwritten, and
    never over a block that was written since.  The file is shared with the
    device, so the operations take and return it. *)
From S2P Require Import Prelude Extents Codec File Segment Types Manifest Plan Restore Hydrator.
Local Open Scope Z_scope.

Record lazyExtent : Type := mkLazyExtent { le_Extent : Extent; le_ref : nat }.

(** [LazyImage]; the context and the file handle are not part of it.
    [lz_faults] are the transient failures of the store to come: what the next
    call of [applyObjectRef] meets before it can read, if anything. *)
Record LazyImage : Type := mkLazyImage {
  lz_manifests : loader;
  lz_cache : bundle_cache;
  lz_size : Z;
  lz_refs : list ObjectRef;
  lz_sources : list lazyExtent;
  lz_loaded : list bool;
  lz_overridden : list Extent;
  lz_closed : bool;
  lz_faults : list (option error);
}.

(** The result of sorting by [Start]; different extents have different starts. *)
Definition source_le (a b : lazyExtent) : Prop := Start (le_Extent a) ≤ Start (le_Extent b).

#[export] Instance source_le_dec a b : Decision (source_le a b).
Proof. unfold source_le. apply _. Defined.

#[export] Instance source_le_total : Total source_le.
Proof. intros a b. unfold source_le. lia. Qed.

#[export] Instance source_le_trans : Transitive source_le.
Proof. intros a b c. unfold source_le. lia. Qed.

Fixpoint ref_sources (refIndex : nat) (refs : list ObjectRef) : list lazyExtent :=
  match refs with
  | [] => []
  | ref :: rest => ((fun e => mkLazyExtent e refIndex) <$> ref_Extents ref) ++ ref_sources (S refIndex) rest
  end.

Definition lazy_sources (refs : list ObjectRef) : list lazyExtent := merge_sort source_le (ref_sources 0 refs).

Definition with_selected (ref : ObjectRef) (selected : list Extent) : ObjectRef :=
  mkObjectRef (ref_Key ref) (ref_SourceManifest ref) (ref_SourceBundle ref) (ref_SourceIndex ref) (ref_InlineData ref)
    (ref_SHA256 ref) (ref_Bytes ref) (ref_Blocks ref) selected (ref_ZeroExtents ref).

Definition is_loaded (l : LazyImage) (index : nat) : bool := default false (lz_loaded l !! index).

Definition set_loaded (index : nat) (l : LazyImage) : LazyImage :=
  mkLazyImage (lz_manifests l) (lz_cache l) (lz_size l) (lz_refs l) (lz_sources l) (<[index := true]> (lz_loaded l))
    (lz_overridden l) (lz_closed l) (lz_faults l).

Definition set_fetch (cache : bundle_cache) (faults : list (option error)) (l : LazyImage) : LazyImage :=
  mkLazyImage (lz_manifests l) cache (lz_size l) (lz_refs l) (lz_sources l) (lz_loaded l)
    (lz_overridden l) (lz_closed l) faults.

Section lazy.
Context `{Digest} `{Gzip} `{Json Manifest} `{Json manifestBundle}.
Context (Get : string → result bytes) (fuel : nat).

(** [Remote.PrepareLazyRestore]; [created] is the outcome of creating the file
    (see [createSparseImage]). *)
Definition PrepareLazyRestore (created : result (list IOutcome)) (faults : list (option error)) (state : State) : result (LazyImage * File) :=
  _ ← validateState (st_Name state) state;
  refs ← restorePlan Get fuel state;
  f ← createSparseImage created (st_Size state);
  Ok (mkLazyImage (newManifestSourceLoader state) ∅ (st_Size state) refs (lazy_sources refs)
        (replicate (length refs) false) [] false faults, f).

(** The loop that collects the wanted references, from [first] on. *)
Fixpoint wanted_refs (l : LazyImage) (requested : list Extent) (lastEnd : Z) (sources : list lazyExtent)
    (wanted : gset nat) : gset nat :=
  match sources with
  | [] => wanted
  | source :: rest =>
      if lastEnd <=? Start (le_Extent source) then wanted
      else if is_loaded l (le_ref source) || bool_decide (intersectExtent (le_Extent source) requested = []) then
        wanted_refs l requested lastEnd rest wanted
      else
        let visible := subtractExtents (intersectExtent (le_Extent source) requested) (lz_overridden l) in
        wanted_refs l requested lastEnd rest (if bool_decide (visible = []) then wanted else {[le_ref source]} ∪ wanted)
  end.

(** [applyObjectRef] as the lazy image meets it. *)
Definition fetch_ref (l : LazyImage) (f : File) (ref : ObjectRef) : LazyImage * File * option error :=
  let '(fault, faults) := match lz_faults l with [] => (None, []) | x :: rest => (x, rest) end in
  match fault with
  | Some e => (set_fetch (lz_cache l) faults l, f, Some e)
  | None =>
      let '(cache, f, err) := applyObjectRef Get fuel (lz_manifests l) (lz_cache l) f (lz_size l) ref in
      (set_fetch cache faults l, f, err)
  end.

Fixpoint load_refs (l : LazyImage) (f : File) (indexes : list nat) : LazyImage * File * option error :=
  match indexes with
  | [] => (l, f, None)
  | index :: rest =>
      match lz_refs l !! index with
      | None => (l, f, Some Panic)
      | Some ref =>
          let selected := subtractExtents (ref_Extents ref) (lz_overridden l) in
          if bool_decide (selected = []) then load_refs (set_loaded index l) f rest
          else
            match fetch_ref l f (with_selected ref selected) with
            | (l, f, Some e) => (l, f, Some e)
            | (l, f, None) => load_refs (set_loaded index l) f rest
            end
      end
  end.

Definition hydrateLocked (l : LazyImage) (f : File) (requested : list Extent) : LazyImage * File * option error :=
  if lz_closed l then (l, f, Some ErrDeviceClosed) else
  match head requested, last requested with
  | Some firstRequested, Some lastRequested =>
      let first := sort_Search (length (lz_sources l)) (fun i =>
        match lz_sources l !! i with
        | Some s => Start firstRequested <? extent_end (le_Extent s)
        | None => false
        end) in
      let wanted := wanted_refs l requested (extent_end lastRequested) (drop first (lz_sources l)) ∅ in
      load_refs l f (merge_sort le (elements wanted))
  | _, _ => (l, f, None)
  end.

Definition lazy_Hydrate (l : LazyImage) (f : File) (off length : Z) : LazyImage * File * option error :=
  hydrateLocked l f (byteRangeExtents off length (lz_size l)).

Definition write_boundaries (off length : Z) : list Extent :=
  let e := off + length in
  let boundaries := if off `rem` DefaultBlockSize =? 0 then [] else [mkExtent (off `quot` DefaultBlockSize) 1] in
  if e `rem` DefaultBlockSize =? 0 then boundaries
  else
    let last := (e - 1) `quot` DefaultBlockSize in
    match boundaries with
    | b :: _ => if Start b =? last then boundaries else boundaries ++ [mkExtent last 1]
    | [] => [mkExtent last 1]
    end.

Definition lazy_PrepareWrite (l : LazyImage) (f : File) (off length : Z) : LazyImage * File * option error :=
  if lz_closed l then (l, f, Some ErrDeviceClosed)
  else if length <=? 0 then (l, f, None)
  else hydrateLocked l f (write_boundaries off length).

Definition lazy_CommitWrite (l : LazyImage) (off length : Z) : LazyImage :=
  if lz_closed l then l
  else mkLazyImage (lz_manifests l) (lz_cache l) (lz_size l) (lz_refs l) (lz_sources l) (lz_loaded l)
         (unionExtents (lz_overridden l) (byteRangeExtents off length (lz_size l))) (lz_closed l) (lz_faults l).

(** [Close]; closing the file succeeds. *)
Definition lazy_Close (l : LazyImage) : LazyImage * option error :=
  if lz_closed l then (l, None)
  else (mkLazyImage (lz_manifests l) (lz_cache l) (lz_size l) (lz_refs l) (lz_sources l) (lz_loaded l)
          (lz_overridden l) true (lz_faults l), None).
End lazy.
