(* ===== verification/LazyProps.v ===== *)
(** * Correctness of the lazy image

    The logical content of a lazy image, that hydration makes it visible in the
    file without changing it, and that writes are never clobbered: [LazyImage]
    is an instance of [HydratorLaws], so every theorem about the device holds
    of a device over a lazy image. *)
From S2P Require Import Prelude Extents Codec File Segment Types Manifest Plan Restore Hydrator Lazy.
Local Open Scope Z_scope.

(** ** Sources *)

Lemma sorted_disjoint_wf lo hi es :
  StronglySorted start_le es → Forall (fun e => lo ≤ Start e ∧ 0 < Blocks e ∧ Start e + Blocks e ≤ hi) es →
  NoDup (concat (expand <$> es)) → wf_from lo hi es.
Proof.
  intros Hs. revert lo. induction Hs as [|e es Hs IH Hle]; intros lo Hall Hnd; [done|].
  apply Forall_cons in Hall as [(Hlo & Hpos & Hhi) Hall]. cbn [fmap list_fmap concat] in Hnd.
  apply NoDup_app in Hnd as (_ & Hno & Hnd). cbn [wf_from]. split_and!; [done..|]. apply IH; [|done].
  rewrite Forall_forall in Hall, Hle |- *. intros x Hx. destruct (Hall x Hx) as (_ & Hp & Hh). specialize (Hle x Hx). unfold start_le in Hle.
  split_and!; [|done..]. destruct (decide (Start e + Blocks e ≤ Start x)) as [|Hlt]; [done|]. exfalso.
  apply (Hno (Start x)).
  - apply elem_of_expand. unfold in_extent. lia.
  - apply covers_expand. unfold covers. apply Exists_exists. exists x. split; [done|]. unfold in_extent. lia.
Qed.

Lemma wf_from_drop lo hi es k : 0 ≤ lo → wf_from lo hi es → ∃ lo', 0 ≤ lo' ∧ wf_from lo' hi (drop k es).
Proof.
  revert lo k. induction es as [|e es IH]; intros lo k Hlo Hwf; [exists lo; by rewrite drop_nil|].
  destruct k as [|k]; [by exists lo|]. destruct Hwf as (? & ? & ? & Hwf). apply (IH (Start e + Blocks e)); [lia|done].
Qed.

Lemma ref_sources_elem k refs s :
  s ∈ ref_sources k refs ↔ ∃ i r, refs !! i = Some r ∧ le_ref s = (k + i)%nat ∧ le_Extent s ∈ ref_Extents r.
Proof.
  revert k. induction refs as [|r refs IH]; intros k; cbn [ref_sources].
  { split; [by intros ?%elem_of_nil|]. by intros (i & r & Hi & _). }
  rewrite elem_of_app, IH, list_elem_of_fmap. split.
  - intros [(e & -> & He)|(i & x & Hi & Hr & He)].
    + exists 0%nat, r. split_and!; [done|cbn; lia|done].
    + exists (S i), x. split_and!; [done|lia|done].
  - intros (i & x & Hi & Hr & He). destruct i as [|i].
    + injection Hi as ->. left. exists (le_Extent s). split; [|done]. destruct s. cbn in *. f_equal. lia.
    + right. exists i, x. split_and!; [done|lia|done].
Qed.

Lemma ref_sources_extents k refs : le_Extent <$> ref_sources k refs = concat (ref_Extents <$> refs).
Proof.
  revert k. induction refs as [|r refs IH]; intros k; [done|]. cbn [ref_sources]. rewrite fmap_app, IH.
  cbn [fmap list_fmap concat]. f_equal. rewrite <-list_fmap_compose. cbn [compose]. apply list_fmap_id.
Qed.

Lemma lazy_sources_elem refs s :
  s ∈ lazy_sources refs ↔ ∃ r, refs !! le_ref s = Some r ∧ le_Extent s ∈ ref_Extents r.
Proof.
  unfold lazy_sources. rewrite merge_sort_Permutation, ref_sources_elem. split.
  - intros (i & r & Hi & -> & He). by exists r.
  - intros (r & Hr & He). by exists (le_ref s), r.
Qed.

Lemma lazy_sources_wf n refs :
  Forall (plan_ref_wf n) refs → disjoint_refs refs → wf_from 0 n (le_Extent <$> lazy_sources refs).
Proof.
  intros Hwf Hd. apply sorted_disjoint_wf.
  - assert (StronglySorted source_le (lazy_sources refs)) as Hs.
    { unfold lazy_sources. apply StronglySorted_merge_sort; apply _. }
    induction Hs as [|s ss Hs IH Hle]; cbn [fmap list_fmap]; constructor; [done|]. apply Forall_fmap.
    eapply Forall_impl; [exact Hle|]. done.
  - apply Forall_fmap, Forall_forall. intros s (r & Hr & He)%lazy_sources_elem. cbn [compose].
    rewrite Forall_forall in Hwf. destruct (Hwf r) as [Hrw _]; [by eapply list_elem_of_lookup_2|].
    destruct (wf_from_extent_in 0 n _ (le_Extent s) ltac:(lia) Hrw He) as [(? & ? & ?) ?]. lia.
  - unfold lazy_sources. rewrite merge_sort_Permutation, ref_sources_extents, expand_concat. done.
Qed.

(** A decoded block is complete. *)
Lemma runs_lookup_length runs b x : Forall run_wf runs → runs_lookup runs b = Some x → length x = blockBytes.
Proof.
  induction 1 as [|r runs (Hin & Hp & Hl) _ IH]; cbn [runs_lookup]; [done|].
  destruct (runs_lookup runs b) as [d|]; [intros [= <-]; by apply IH|]. case_decide as Hb; [|done]. intros [= <-].
  unfold run_block. pose proof blockBytes_Z. unfold in_extent in Hb. rewrite length_take, length_drop. nia.
Qed.

(** ** The logical content *)

Section props.
Context `{Digest} `{Gzip} `{Json Manifest} `{Json manifestBundle}.
Context (Get : string → result bytes) (fuel : nat).

(** The reference that owns block [b], and the one it still has to be fetched
    from. *)
Definition owner (l : LazyImage) (b : Z) : option (nat * ObjectRef) :=
  list_find (fun r => covers (ref_Extents r) b) (lz_refs l).

Definition pending_ref (l : LazyImage) (b : Z) : option ObjectRef :=
  match owner l b with
  | Some (i, r) => if is_loaded l i || bool_decide (covers (lz_overridden l) b) then None else Some r
  | None => None
  end.

(** Data that cannot be read has no content; a read of it fails. *)
Definition lazy_view (l : LazyImage) (f : File) (b : Z) : bytes :=
  match pending_ref l b with
  | Some r => default zero_block (ref_content Get fuel (lz_manifests l) r b)
  | None => read_block blockBytes (content f) b
  end.

Definition lazy_inv (n : Z) (l : LazyImage) (f : File) : Prop :=
  (image_of f n ∧ Z.of_nat (length (content f)) = n * DefaultBlockSize) ∧ lz_size l = n * DefaultBlockSize ∧
  lz_closed l = false ∧
  (Forall (plan_ref_wf n) (lz_refs l) ∧ disjoint_refs (lz_refs l) ∧ lz_sources l = lazy_sources (lz_refs l)) ∧
  length (lz_loaded l) = length (lz_refs l) ∧ wf_extents n (lz_overridden l) ∧
  cache_ok Get (lz_manifests l) (lz_cache l).

Lemma lazy_bound n l f : lazy_inv n l f → block_bound n.
Proof. intros ((Him & _) & _). destruct Him as (_ & ? & _). pose proof maxImageBlocks_bound. unfold block_bound in *. lia. Qed.

(** *** What is wanted *)

Lemma owner_elem l b i r : owner l b = Some (i, r) → lz_refs l !! i = Some r ∧ covers (ref_Extents r) b.
Proof. intros (? & ? & _)%list_find_Some. done. Qed.

(** Disjoint references: any reference that covers a block is its owner. *)
Lemma owner_unique l b i r :
  disjoint_refs (lz_refs l) → lz_refs l !! i = Some r → covers (ref_Extents r) b → owner l b = Some (i, r).
Proof.
  unfold owner. generalize (lz_refs l) as refs. intros refs Hd Hi Hc. revert i Hi. induction refs as [|x refs IH]; intros i Hi; [done|].
  apply disjoint_refs_cons in Hd as [Hd Hno]. cbn [list_find]. destruct (decide (covers (ref_Extents x) b)) as [Hx|Hx].
  - destruct i as [|i]; [by injection Hi as ->|]. exfalso. specialize (Hno b Hx).
    assert (is_Some (ref_for refs b)) as [y Hy]; [|congruence].
    apply elem_of_refs_blocks. unfold refs_blocks. apply elem_of_concat. exists (ref_blocks r).
    split; [by apply elem_of_ref_blocks|]. apply list_elem_of_fmap. exists r. split; [done|]. by eapply list_elem_of_lookup_2.
  - destruct i as [|i]; [by injection Hi as ->|]. rewrite (IH Hd i Hi). done.
Qed.

Lemma wanted_refs_mono l requested lastEnd sources wanted : wanted ⊆ wanted_refs l requested lastEnd sources wanted.
Proof.
  revert wanted. induction sources as [|s ss IH]; intros wanted; cbn [wanted_refs]; [done|].
  case_if; [done|]. destruct (is_loaded _ _ || _); [apply IH|].
  destruct (bool_decide (subtractExtents _ _ = [])); [apply IH|]. etransitivity; [|apply IH]. set_solver.
Qed.

Lemma wanted_refs_sound l requested lastEnd sources wanted x :
  x ∈ wanted_refs l requested lastEnd sources wanted →
  x ∈ wanted ∨ ∃ s, s ∈ sources ∧ le_ref s = x ∧ is_loaded l x = false.
Proof.
  revert wanted. induction sources as [|s ss IH]; intros wanted; cbn [wanted_refs]; [by left|].
  case_if; [by left|]. destruct (is_loaded l (le_ref s)) eqn:Hl; cbn [orb].
  - intros Hx. destruct (IH _ Hx) as [?|(s' & ? & ?)]; [by left|]. right. exists s'. split; [by apply list_elem_of_further|done].
  - intros Hx. assert (∃ w, x ∈ wanted_refs l requested lastEnd ss w ∧ (x ∈ w → x ∈ wanted ∨ x = le_ref s)) as (w & Hw & Hin).
    { revert Hx. destruct (bool_decide (intersectExtent _ _ = [])); [intros Hx; exists wanted; auto|]. intros Hx.
      eexists. split; [exact Hx|]. destruct (bool_decide _); set_solver. }
    destruct (IH _ Hw) as [Hx'|(s' & ? & ?)].
    + destruct (Hin Hx') as [?| ->]; [by left|]. right. exists s. split; [apply list_elem_of_here|done].
    + right. exists s'. split; [by apply list_elem_of_further|done].
Qed.

Lemma wanted_refs_complete n l lo requested lastEnd sources wanted s b :
  block_bound n → 0 ≤ lo → wf_from lo n (le_Extent <$> sources) → wf_extents n requested → wf_extents n (lz_overridden l) →
  s ∈ sources → in_extent (le_Extent s) b → covers requested b → b < lastEnd →
  is_loaded l (le_ref s) = false → ¬ covers (lz_overridden l) b →
  le_ref s ∈ wanted_refs l requested lastEnd sources wanted.
Proof.
  intros Hn. revert lo wanted. induction sources as [|x ss IH]; intros lo wanted Hlo Hwf Hreq Hov Hs Hin Hc Hlast Hl Hno.
  { by apply elem_of_nil in Hs. }
  cbn [fmap list_fmap wf_from] in Hwf. destruct Hwf as (Hx1 & Hx2 & Hx3 & Hwf). cbn [wanted_refs].
  assert (Start (le_Extent x) ≤ b) as Hxb.
  { apply elem_of_cons in Hs as [->|Hs]; [unfold in_extent in Hin; lia|].
    assert (covers (le_Extent <$> ss) b) as Hcov.
    { apply Exists_exists. exists (le_Extent s). split; [|done]. apply list_elem_of_fmap. by exists s. }
    apply (wf_from_covers _ _ _ _ Hwf) in Hcov. lia. }
  rewrite (proj2 (Z.leb_gt lastEnd _)) by lia.
  assert (∀ w, s ∈ ss → le_ref s ∈ wanted_refs l requested lastEnd ss w) as Hrest.
  { intros w Hs'. eapply (IH (Start (le_Extent x) + Blocks (le_Extent x))); try done. lia. }
  apply elem_of_cons in Hs as [->|Hs].
  - rewrite Hl. cbn [orb]. destruct (intersectExtent_spec 0 n (le_Extent x) requested) as [Hiw Hic]; [done|lia|split_and!; lia|done|].
    assert (covers (intersectExtent (le_Extent x) requested) b) as Hib by (by apply Hic).
    rewrite bool_decide_eq_false_2 by (intros He; rewrite He in Hib; by apply covers_nil in Hib).
    destruct (subtractExtents_spec n (intersectExtent (le_Extent x) requested) (lz_overridden l)) as [_ Hsc];
      [done|eapply wf_from_weaken; [|exact Hiw]; lia|done|].
    assert (covers (subtractExtents (intersectExtent (le_Extent x) requested) (lz_overridden l)) b) as Hsb by (by apply Hsc).
    rewrite bool_decide_eq_false_2 by (intros He; rewrite He in Hsb; by apply covers_nil in Hsb).
    apply wanted_refs_mono. set_solver.
  - case_if; by apply Hrest.
Qed.

(** *** Fetching *)

(** Two images with the same references, of which the second knows more. *)
Definition same_plan (l l' : LazyImage) : Prop :=
  lz_refs l' = lz_refs l ∧ lz_overridden l' = lz_overridden l ∧ lz_sources l' = lz_sources l ∧
  (∀ i, is_loaded l i = true → is_loaded l' i = true).

Lemma same_plan_trans l1 l2 l3 : same_plan l1 l2 → same_plan l2 l3 → same_plan l1 l3.
Proof. intros (? & ? & ? & Hl1) (? & ? & ? & Hl2). split_and!; [congruence..|]. intros i Hi. by apply Hl2, Hl1. Qed.

Lemma lazy_view_fetch cache faults l f b : lazy_view (set_fetch cache faults l) f b = lazy_view l f b.
Proof. done. Qed.

Lemma is_loaded_set l i j :
  (i < length (lz_loaded l))%nat → is_loaded (set_loaded i l) j = if decide (j = i) then true else is_loaded l j.
Proof.
  intros Hi. unfold is_loaded. cbn [set_loaded lz_loaded]. destruct (decide (j = i)) as [->|Hne].
  - by rewrite list_lookup_insert_eq.
  - by rewrite list_lookup_insert_ne by done.
Qed.

Lemma lazy_inv_loaded n l f f' i cache faults :
  lazy_inv n l f → image_of f' n → length (content f') = length (content f) → cache_ok Get (lz_manifests l) cache →
  lazy_inv n (set_loaded i (set_fetch cache faults l)) f'.
Proof.
  intros ((_ & Hlen) & Hsz & Hcl & Hrefs & Hld & Hov & _) Him Hl Hc. split; [split; [done|by rewrite Hl]|].
  split_and!; try done; try apply Hrefs. cbn [set_loaded set_fetch lz_loaded lz_refs]. by rewrite length_insert.
Qed.

(** Marking a reference as loaded once its visible blocks are in the file. *)
Lemma loaded_view n l f f' i r cache faults :
  lazy_inv n l f → lz_refs l !! i = Some r → is_loaded l i = false →
  (∀ b, 0 ≤ b < n → read_block blockBytes (content f') b =
    if decide (covers (ref_Extents r) b ∧ ¬ covers (lz_overridden l) b)
    then default zero_block (ref_content Get fuel (lz_manifests l) r b) else read_block blockBytes (content f) b) →
  ∀ b, 0 ≤ b < n → lazy_view (set_loaded i (set_fetch cache faults l)) f' b = lazy_view l f b.
Proof.
  intros (_ & _ & _ & (_ & Hd & _) & Hld & _) Hi Hnl Hc b Hb. unfold lazy_view, pending_ref.
  change (owner (set_loaded i (set_fetch cache faults l)) b) with (owner l b).
  change (lz_overridden (set_loaded i (set_fetch cache faults l))) with (lz_overridden l).
  change (lz_manifests (set_loaded i (set_fetch cache faults l))) with (lz_manifests l).
  assert (i < length (lz_loaded l))%nat as Hlt by (rewrite Hld; by eapply lookup_lt_Some).
  assert (∀ j, is_loaded (set_loaded i (set_fetch cache faults l)) j = if decide (j = i) then true else is_loaded l j) as Hset
    by (intros j; exact (is_loaded_set (set_fetch cache faults l) i j Hlt)).
  rewrite Hc by done.
  destruct (owner l b) as [[j x]|] eqn:Ho.
  - apply owner_elem in Ho as [Hj Hx]. rewrite Hset. destruct (decide (j = i)) as [->|Hne].
    + assert (x = r) as -> by congruence. rewrite Hnl. cbn [orb].
      case_bool_decide; [by rewrite decide_False by tauto|by rewrite decide_True by tauto].
    + rewrite decide_False; [done|]. intros [Hr _]. apply Hne.
      pose proof (owner_unique l b i r Hd Hi Hr). pose proof (owner_unique l b j x Hd Hj Hx). congruence.
  - rewrite decide_False; [done|]. intros [Hr _]. rewrite (owner_unique l b i r Hd Hi Hr) in Ho. done.
Qed.

Lemma fetch_ref_spec n l f ref :
  lazy_inv n l f → plan_ref_wf n ref →
  ∃ cache faults f' err, fetch_ref Get fuel l f ref = (set_fetch cache faults l, f', err) ∧
    cache_ok Get (lz_manifests l) cache ∧
    match err with
    | Some _ => f' = f
    | None => image_of f' n ∧ length (content f') = length (content f) ∧
        ∀ b, 0 ≤ b < n → read_block blockBytes (content f') b =
          if decide (covers (ref_Extents ref) b) then default zero_block (ref_content Get fuel (lz_manifests l) ref b)
          else read_block blockBytes (content f) b
    end.
Proof.
  intros ((Him & Hlen) & Hsz & _ & _ & _ & _ & Hc) Hwf. unfold fetch_ref.
  set (ff := match lz_faults l with [] => (None, []) | x :: rest => (x, rest) end). destruct ff as [[e|] faults].
  { by exists (lz_cache l), faults, f, (Some e). }
  rewrite Hsz. destruct (ref_runs Get fuel (lz_manifests l) ref) as [runs|e] eqn:Hruns.
  - destruct (applyObjectRef_spec Get fuel (lz_manifests l) (lz_cache l) f n ref runs Him Hwf Hc Hruns) as (cache' & c' & -> & Hc' & Hl & Hb).
    exists cache', faults, (mkFile c' []), None. split; [done|]. split; [done|]. split; [by eapply image_of_same|]. split; [done|].
    intros b Hbn. cbn [content]. rewrite Hb by done. case_decide as Hcov; [|done]. rewrite (ref_runs_content _ _ _ _ _ _ Hruns).
    assert (is_Some (runs_lookup runs b)) as [x ->]; [|done]. apply runs_lookup_covers.
    destruct Him as (_ & Himg & _), Hwf as [Hwf _]. by apply (ref_runs_covers Get fuel (lz_manifests l) ref runs n b); [lia|..].
  - unfold applyObjectRef. destruct (segment_data_cache Get fuel (lz_manifests l) (lz_cache l) ref Hc) as [Heq Hok].
    unfold ref_runs in Hruns. rewrite <-Heq in Hruns.
    destruct (segment_data Get fuel (lz_manifests l) (lz_cache l) ref) as [cache' [data|e']]; cbn [fst snd] in *.
    + cbn [mbind result_mbind] in Hruns. rewrite Hruns. by exists cache', faults, f, (Some e).
    + by exists cache', faults, f, (Some e').
Qed.

(** The reference cut to its visible blocks. *)
Lemma selected_spec n l f r :
  lazy_inv n l f → plan_ref_wf n r →
  wf_extents n (subtractExtents (ref_Extents r) (lz_overridden l)) ∧
  ∀ b, covers (subtractExtents (ref_Extents r) (lz_overridden l)) b ↔ covers (ref_Extents r) b ∧ ¬ covers (lz_overridden l) b.
Proof.
  intros Hinv [Hwf _]. pose proof (lazy_bound n l f Hinv). destruct Hinv as (_ & _ & _ & _ & _ & Hov & _).
  by apply subtractExtents_spec.
Qed.

Lemma load_refs_spec n indexes l f l' f' err :
  lazy_inv n l f → NoDup indexes → Forall (fun i => (i < length (lz_refs l))%nat ∧ is_loaded l i = false) indexes →
  load_refs Get fuel l f indexes = (l', f', err) →
  lazy_inv n l' f' ∧ same_plan l l' ∧ (∀ b, 0 ≤ b < n → lazy_view l' f' b = lazy_view l f b) ∧
  (err = None → ∀ i, i ∈ indexes → is_loaded l' i = true).
Proof.
  revert l f. induction indexes as [|i rest IH]; intros l f Hinv Hnd Hall Hl; cbn [load_refs] in Hl.
  { injection Hl as <- <- <-. split_and!; try done. by intros _ i ?%elem_of_nil. }
  apply NoDup_cons in Hnd as [Hni Hnd]. apply Forall_cons in Hall as [[Hi Hnl] Hall].
  destruct (lookup_lt_is_Some_2 _ _ Hi) as [r Hr]. rewrite Hr in Hl.
  pose proof Hinv as ((Him & Hlen) & _ & _ & (Hwf & _) & Hld & _ & Hc).
  assert (plan_ref_wf n r) as Hrw by (rewrite Forall_forall in Hwf; by apply Hwf, (list_elem_of_lookup_2 _ i)).
  destruct (selected_spec n l f r Hinv Hrw) as [Hsw Hsc]. set (selected := subtractExtents _ _) in *.
  (* the rest of the loop, once reference [i] is loaded *)
  assert (∀ cache faults f1, image_of f1 n → length (content f1) = length (content f) → cache_ok Get (lz_manifests l) cache →
    (∀ b, 0 ≤ b < n → read_block blockBytes (content f1) b =
      if decide (covers (ref_Extents r) b ∧ ¬ covers (lz_overridden l) b)
      then default zero_block (ref_content Get fuel (lz_manifests l) r b) else read_block blockBytes (content f) b) →
    load_refs Get fuel (set_loaded i (set_fetch cache faults l)) f1 rest = (l', f', err) →
    lazy_inv n l' f' ∧ same_plan l l' ∧ (∀ b, 0 ≤ b < n → lazy_view l' f' b = lazy_view l f b) ∧
    (err = None → ∀ x, x ∈ i :: rest → is_loaded l' x = true)) as Hgo.
  { intros cache faults f1 Him1 Hlen1 Hc1 Hb1 Hl1. set (l1 := set_loaded i (set_fetch cache faults l)) in *.
    assert (∀ j, is_loaded l1 j = if decide (j = i) then true else is_loaded l j) as Hset.
    { intros j. apply (is_loaded_set (set_fetch cache faults l)). cbn [set_fetch lz_loaded]. lia. }
    destruct (IH l1 f1) as (Hinv' & Hsame & Hv & Hdone); [by eapply lazy_inv_loaded|done| |done|].
    { rewrite Forall_forall in Hall |- *. intros j Hj. destruct (Hall j Hj) as [Hjl Hjn]. split; [done|].
      rewrite Hset, decide_False; [done|]. by intros ->. }
    split; [done|]. split.
    { eapply same_plan_trans; [|exact Hsame]. split_and!; [done..|]. intros j Hj. rewrite Hset. by case_decide. }
    split.
    { intros b Hb. rewrite Hv by done. by eapply loaded_view. }
    intros He x [->|Hx]%elem_of_cons; [|by apply Hdone]. destruct Hsame as (_ & _ & _ & Hm). apply Hm.
    by rewrite Hset, decide_True. }
  case_bool_decide as Hsel.
  - eapply (Hgo (lz_cache l) (lz_faults l) f); try done.
    intros b Hb. rewrite decide_False; [done|]. rewrite <-Hsc, Hsel, covers_nil. tauto.
  - destruct (fetch_ref_spec n l f (with_selected r selected) Hinv) as (cache & faults & f1 & e1 & Hf & Hc1 & Hres); [by split|].
    rewrite Hf in Hl. destruct e1 as [e|].
    + injection Hl as <- <- <-. subst f1. split; [|done]. destruct Hinv as (Hi1 & Hi2 & Hi3 & Hi4 & Hi5 & Hi6 & _). do 6 (split; [done|]). exact Hc1.
    + destruct Hres as (Him1 & Hlen1 & Hb1). eapply (Hgo cache faults f1); try done.
      intros b Hb. rewrite Hb1 by done. cbn [with_selected ref_Extents].
      destruct (decide (covers selected b)) as [Hcov|Hcov].
      * rewrite decide_True by by apply Hsc. done.
      * rewrite decide_False; [done|]. by rewrite <-Hsc.
Qed.

(** A sorted list of requested extents. *)
Lemma requested_bounds n requested x y b :
  wf_extents n requested → block_bound n → head requested = Some x → last requested = Some y → covers requested b →
  Start x ≤ b < extent_end y.
Proof.
  intros Hwf Hn Hx Hy Hb. destruct requested as [|e es]; [done|]. injection Hx as ->.
  assert (∀ lo es, 0 ≤ lo → wf_from lo n es → last es = Some y → covers es b → b < extent_end y) as Hlast.
  { clear -Hn. intros lo es. revert lo. induction es as [|e es IH]; intros lo Hlo Hwf Hy Hb; [done|].
    destruct Hwf as (H1' & H2' & H3' & Hwf). apply covers_cons in Hb. destruct es as [|e2 es].
    - cbn in Hy. injection Hy as ->. destruct Hb as [Hb|Hb%covers_nil]; [|done]. unfold in_extent in Hb.
      rewrite (extent_end_small n) by (done || split_and!; lia). lia.
    - change (last (e2 :: es) = Some y) in Hy. destruct Hb as [Hb|Hb]; [|by eapply (IH (Start e + Blocks e)); [lia|..]].
      destruct Hwf as (H4' & H5' & H6' & Hwf'). unfold in_extent in Hb.
      assert (e2 ∈ e2 :: es ∧ y ∈ e2 :: es) as [_ Hin] by (split; [apply list_elem_of_here|by apply last_Some_elem_of]).
      assert (Start e2 ≤ Start y ∧ extent_in n y ∧ 0 < Blocks y) as (Hsy & Hyin & Hyp).
      { assert (wf_from (Start e2) n (e2 :: es)) as Hw2 by (cbn [wf_from]; split_and!; try done; lia).
        destruct (wf_from_extent_in (Start e2) n (e2 :: es) y ltac:(lia) Hw2 Hin) as [? ?].
        pose proof (wf_from_starts _ _ _ Hw2) as Hst. rewrite Forall_forall in Hst. by specialize (Hst y Hin). }
      rewrite (extent_end_small n) by done. lia. }
  split.
  - destruct Hwf as (H1' & H2' & H3' & Hwf). apply covers_cons in Hb as [Hb|Hb]; [unfold in_extent in Hb; lia|].
    apply (wf_from_covers _ _ _ _ Hwf) in Hb. lia.
  - by eapply (Hlast 0); [lia|..].
Qed.

Lemma sources_search n l f requested x s b :
  lazy_inv n l f → wf_extents n requested → head requested = Some x → covers requested b →
  s ∈ lz_sources l → in_extent (le_Extent s) b →
  let first := sort_Search (length (lz_sources l)) (fun i =>
    match lz_sources l !! i with Some s => Start x <? extent_end (le_Extent s) | None => false end) in
  s ∈ drop first (lz_sources l) ∧ ∃ lo, 0 ≤ lo ∧ wf_from lo n (le_Extent <$> drop first (lz_sources l)).
Proof.
  intros Hinv Hreq Hx Hb Hs Hin first. pose proof (lazy_bound n l f Hinv) as Hn.
  destruct Hinv as (_ & _ & _ & (Hwf & Hd & Hsrc) & _). pose proof (lazy_sources_wf n _ Hwf Hd) as Hsw. rewrite <-Hsrc in Hsw.
  assert (∃ lo, 0 ≤ lo ∧ wf_from lo n (le_Extent <$> drop first (lz_sources l))) as Hdrop.
  { rewrite fmap_drop. by apply (wf_from_drop 0). }
  split; [|done]. apply list_elem_of_lookup in Hs as [i Hi].
  destruct (decide (first ≤ i)%nat) as [Hle|Hlt].
  { apply list_elem_of_lookup. exists (i - first)%nat. rewrite lookup_drop. by replace (first + (i - first))%nat with i by lia. }
  exfalso.
  assert (∀ j e, lz_sources l !! j = Some e → extent_end (le_Extent e) = Start (le_Extent e) + Blocks (le_Extent e)) as Hend.
  { intros j e He. apply (extent_end_small n); [done|].
    destruct (wf_from_extent_in 0 n (le_Extent <$> lz_sources l) (le_Extent e) ltac:(lia) Hsw) as [? _]; [|done].
    apply list_elem_of_fmap. exists e. split; [done|]. by eapply list_elem_of_lookup_2. }
  set (g := fun i => match lz_sources l !! i with Some s => Start x <? extent_end (le_Extent s) | None => false end) in first.
  assert (∀ i j, (i ≤ j < length (lz_sources l))%nat → g i = true → g j = true) as Hmono.
  { intros a c [Hac Hc] Ha. unfold g in *. destruct (lookup_lt_is_Some_2 _ _ Hc) as [ec Hec]. rewrite Hec.
    destruct (lz_sources l !! a) as [ea|] eqn:Hea; [|done]. rewrite (Hend a ea Hea) in Ha. rewrite (Hend c ec Hec). zbool.
    pose proof (wf_ends_mono 0 n (le_Extent <$> lz_sources l) a c (le_Extent ea) (le_Extent ec) Hsw Hac) as Hm.
    rewrite !list_lookup_fmap, Hea, Hec in Hm. specialize (Hm eq_refl eq_refl). apply Z.ltb_lt. lia. }
  destruct (sort_Search_bounded g (length (lz_sources l)) Hmono) as (_ & Hbelow).
  fold first in Hbelow. specialize (Hbelow i ltac:(lia)). unfold g in Hbelow. rewrite Hi, (Hend i s Hi) in Hbelow. zbool.
  assert (Start x ≤ b).
  { destruct requested as [|e es]; [done|]. injection Hx as ->. destruct Hreq as (? & ? & ? & Hreq).
    apply covers_cons in Hb as [Hb|Hb]; [unfold in_extent in Hb; lia|]. apply (wf_from_covers _ _ _ _ Hreq) in Hb. lia. }
  unfold in_extent in Hin. lia.
Qed.

Lemma hydrateLocked_spec n l f requested l' f' err :
  lazy_inv n l f → wf_extents n requested → hydrateLocked Get fuel l f requested = (l', f', err) →
  lazy_inv n l' f' ∧ (∀ b, 0 ≤ b < n → lazy_view l' f' b = lazy_view l f b) ∧
  (err = None → ∀ b, covers requested b → read_block blockBytes (content f') b = lazy_view l f b).
Proof.
  intros Hinv Hreq Hh. pose proof (lazy_bound n l f Hinv) as Hn. unfold hydrateLocked in Hh.
  pose proof Hinv as (_ & _ & Hcl & (Hwf & Hd & Hsrc) & Hld & Hov & _). rewrite Hcl in Hh.
  destruct (head requested) as [x|] eqn:Hx.
  2: { injection Hh as <- <- <-. destruct requested; [|done]. split_and!; try done. by intros _ b ?%covers_nil. }
  destruct (last requested) as [y|] eqn:Hy.
  2: { apply last_None in Hy as ->. done. }
  set (first := sort_Search _ _) in Hh. set (wanted := wanted_refs l requested (extent_end y) (drop first (lz_sources l)) ∅) in Hh.
  destruct (load_refs_spec n (merge_sort le (elements wanted)) l f l' f' err Hinv) as (Hinv' & Hsame & Hv & Hdone); [| |done|].
  { rewrite merge_sort_Permutation. apply NoDup_elements. }
  { rewrite merge_sort_Permutation. apply Forall_forall. intros i Hi%elem_of_elements.
    apply wanted_refs_sound in Hi as [?%elem_of_empty|(s & Hs & <- & Hl)]; [done|]. split; [|done].
    assert (s ∈ lz_sources l) as Hs' by (rewrite <-(take_drop first (lz_sources l)); apply elem_of_app; by right).
    rewrite Hsrc in Hs'. apply lazy_sources_elem in Hs' as (r & Hr & _). by eapply lookup_lt_Some. }
  split; [done|]. split; [done|]. intros He b Hb. specialize (Hdone He).
  assert (0 ≤ b < n) as Hbn by (by apply (wf_from_covers _ _ _ _ Hreq) in Hb).
  rewrite <-Hv by done. unfold lazy_view. assert (pending_ref l' b = None) as ->; [|done].
  unfold pending_ref. destruct Hsame as (Hr' & Ho' & _ & Hm). assert (owner l' b = owner l b) as Hown by (unfold owner; by rewrite Hr').
  rewrite Hown, Ho'. destruct (owner l b) as [[i r]|] eqn:Ho; [|done].
  destruct (bool_decide (covers (lz_overridden l) b)) eqn:Hbo; [by rewrite orb_true_r|]. apply bool_decide_eq_false in Hbo.
  apply owner_elem in Ho as [Hi Hr]. assert (is_loaded l' i = true) as ->; [|done].
  destruct (is_loaded l i) eqn:Hil; [by apply Hm|]. apply Hdone. rewrite merge_sort_Permutation. apply elem_of_elements.
  assert (∃ e, e ∈ ref_Extents r ∧ in_extent e b) as (e & He' & Hin) by (by apply Exists_exists in Hr as (e & ? & ?); exists e).
  pose (s := mkLazyExtent e i).
  assert (s ∈ lz_sources l) as Hs by (rewrite Hsrc; apply lazy_sources_elem; by exists r).
  destruct (sources_search n l f requested x s b Hinv Hreq Hx Hb Hs Hin) as (Hsd & lo & Hlo & Hwd).
  destruct (requested_bounds n requested x y b Hreq Hn Hx Hy Hb) as [_ Hlast].
  by apply (wanted_refs_complete n l lo requested (extent_end y) (drop first (lz_sources l)) ∅ s b).
Qed.

(** *** The contract with the device *)

Lemma byteRange_wf n off len :
  0 ≤ n ≤ maxImageBlocks → wf_extents n (byteRangeExtents off len (n * DefaultBlockSize)).
Proof.
  intros Hn. pose proof (blocks_int64 n Hn) as Hi. unfold byteRangeExtents, DefaultBlockSize in *.
  destruct (_ || _) eqn:E; [done|]. zbool. set (k := if _ <? _ then _ else _).
  assert (k = Z.min len (n * 4096 - off)) as Hk by (subst k; case_if; lia). clearbody k. rewrite Hk. clear k Hk.
  set (k := Z.min len (n * 4096 - off)). rewrite !Z.quot_div_nonneg by lia.
  pose proof (Z.div_mod off 4096 ltac:(lia)). pose proof (Z.mod_pos_bound off 4096 ltac:(lia)).
  pose proof (Z.div_mod (off + k - 1) 4096 ltac:(lia)). pose proof (Z.mod_pos_bound (off + k - 1) 4096 ltac:(lia)).
  rewrite u64_small by (subst k; lia). unfold wf_extents. cbn [wf_from Start Blocks]. subst k. lia.
Qed.

Lemma byteRange_touches n off len b :
  0 ≤ n ≤ maxImageBlocks → 0 ≤ off → off + len ≤ n * DefaultBlockSize →
  covers (byteRangeExtents off len (n * DefaultBlockSize)) b ↔ touches off len b.
Proof.
  intros Hn Hoff Hfit. pose proof (blocks_int64 n Hn). rewrite byteRangeExtents_spec by done. unfold touches, DefaultBlockSize in *. split.
  - intros (_ & i & Hi & _ & <-). pose proof (Z.div_mod i 4096 ltac:(lia)). pose proof (Z.mod_pos_bound i 4096 ltac:(lia)). lia.
  - intros (Ht1 & Ht2 & Ht3). split; [done|]. exists (Z.max off (b * 4096)).
    pose proof (Z.div_mod (Z.max off (b * 4096)) 4096 ltac:(lia)). pose proof (Z.mod_pos_bound (Z.max off (b * 4096)) 4096 ltac:(lia)). lia.
Qed.

Lemma boundaries_spec n off len :
  0 ≤ off → 0 < len → off + len ≤ n * DefaultBlockSize →
  wf_extents n (write_boundaries off len) ∧ ∀ b, partly off len b → covers (write_boundaries off len) b.
Proof.
  intros Hoff Hlen Hfit. unfold write_boundaries, partly, touches, DefaultBlockSize in *.
  rewrite !Z.rem_mod_nonneg, !Z.quot_div_nonneg by lia.
  pose proof (Z.div_mod off 4096 ltac:(lia)). pose proof (Z.mod_pos_bound off 4096 ltac:(lia)).
  pose proof (Z.div_mod (off + len) 4096 ltac:(lia)). pose proof (Z.mod_pos_bound (off + len) 4096 ltac:(lia)).
  pose proof (Z.div_mod (off + len - 1) 4096 ltac:(lia)). pose proof (Z.mod_pos_bound (off + len - 1) 4096 ltac:(lia)).
  assert (∀ e b, covers [e] b ↔ in_extent e b) as Hone.
  { intros e b. rewrite covers_cons, covers_nil. tauto. }
  unfold wf_extents. destruct (off `mod` 4096 =? 0) eqn:Ho, ((off + len) `mod` 4096 =? 0) eqn:He; zbool.
  - split; [done|]. intros b [? ?]. lia.
  - split; [cbn [wf_from Start Blocks]; lia|]. intros b [? ?]. rewrite Hone. unfold in_extent. cbn [Start Blocks]. lia.
  - split; [cbn [wf_from Start Blocks]; lia|]. intros b [? ?]. rewrite Hone. unfold in_extent. cbn [Start Blocks]. lia.
  - cbn [Start]. destruct (off `div` 4096 =? (off + len - 1) `div` 4096) eqn:Heq; zbool.
    + split; [cbn [wf_from Start Blocks]; lia|]. intros b [? ?]. rewrite Hone. unfold in_extent. cbn [Start Blocks]. lia.
    + split; [cbn [app wf_from Start Blocks]; lia|]. intros b [? ?]. rewrite covers_app, !Hone. unfold in_extent. cbn [Start Blocks]. lia.
Qed.

Lemma lazy_commit_spec n l f off len c :
  lazy_inv n l f → 0 ≤ off → 0 ≤ len → off + len ≤ n * DefaultBlockSize → length c = length (content f) →
  (∀ b, 0 ≤ b < n → ¬ touches off len b → read_block blockBytes c b = read_block blockBytes (content f) b) →
  lazy_inv n (lazy_CommitWrite l off len) (mkFile c []) ∧
  ∀ b, 0 ≤ b < n → lazy_view (lazy_CommitWrite l off len) (mkFile c []) b =
    if decide (touches off len b) then read_block blockBytes c b else lazy_view l f b.
Proof.
  intros Hinv Hoff Hlen Hfit Hl Hout. pose proof (lazy_bound n l f Hinv) as Hn.
  destruct Hinv as ((Him & Hfl) & Hsz & Hcl & Hrefs & Hld & Hov & Hc). pose proof Him as (_ & Himg & _).
  pose proof (byteRange_wf n off len Himg) as Hbw.
  destruct (union_spec n (lz_overridden l) (byteRangeExtents off len (n * DefaultBlockSize)) Hn Hov) as [Hnorm Hcov].
  { apply wf_extents_in. done. }
  unfold lazy_CommitWrite. rewrite Hcl, Hsz. split.
  - split; [split; [by eapply image_of_same|cbn [content]; by rewrite Hl]|]. split; [done|]. split; [done|]. split; [done|].
    split; [done|]. split; [by apply normal_extents_wf|done].
  - intros b Hb. unfold lazy_view, pending_ref. cbn [lz_overridden lz_manifests content].
    match goal with |- context [owner ?x b] => change (owner x b) with (owner l b) end.
    destruct (owner l b) as [[i r]|].
    + match goal with |- context [is_loaded ?x i] => change (is_loaded x i) with (is_loaded l i) end.
      destruct (decide (touches off len b)) as [Ht|Ht].
      * rewrite (bool_decide_eq_true_2 (covers (unionExtents _ _) b)); [by rewrite orb_true_r|].
        apply Hcov. right. by apply byteRange_touches.
      * assert (covers (unionExtents (lz_overridden l) (byteRangeExtents off len (n * DefaultBlockSize))) b ↔ covers (lz_overridden l) b) as Hiff.
        { rewrite Hcov, byteRange_touches by done. tauto. }
        rewrite (bool_decide_ext _ _ Hiff). destruct (is_loaded l i || bool_decide _); [|done]. by apply Hout.
    + case_decide; [done|]. by apply Hout.
Qed.

Lemma lazy_view_length n l f b : lazy_inv n l f → 0 ≤ b < n → length (lazy_view l f b) = blockBytes.
Proof.
  intros ((Him & _) & _) Hb. unfold lazy_view. destruct (pending_ref l b) as [r|].
  - destruct (ref_content Get fuel (lz_manifests l) r b) as [x|] eqn:Hx; cbn [default from_option id]; [|apply length_replicate].
    unfold ref_content in Hx. destruct (segment_data Get fuel (lz_manifests l) ∅ r).2; [|done].
    destruct (decodeSegment _) as [runs|] eqn:Hdec; [|done]. apply decodeSegment_spec in Hdec as (Hrw & _).
    by eapply runs_lookup_length.
  - apply read_block_length. by apply (image_block_in f n b).
Qed.
End props.
