(* ===== verification/Mount.v ===== *)
(** * A mounted volume: a device over a lazy image

    [LazyImage] keeps the contract of [HydratorLaws], so the device theorems
    apply to a device over a lazy image; a lazily restored volume reads like an
    eagerly restored one. *)
From S2P Require Import Prelude Extents Codec File Segment Types Manifest Plan Restore Hydrator Device DeviceProps DeviceTheorems Lazy LazyProps.
Local Open Scope Z_scope.

Section contract.
Context `{Digest} `{Gzip} `{Json Manifest} `{Json manifestBundle}.
Context (Get : string → result bytes) (fuel : nat).

Definition lazy_hydrator : Hydrator LazyImage := {|
  Hydrate := lazy_Hydrate Get fuel;
  PrepareWrite := lazy_PrepareWrite Get fuel;
  CommitWrite := lazy_CommitWrite;
  HydratorClose := lazy_Close;
|}.

Lemma lazy_Hydrate_spec n l f off len l' f' err :
  lazy_inv Get n l f → 0 ≤ off → 0 ≤ len → off + len ≤ n * DefaultBlockSize → lazy_Hydrate Get fuel l f off len = (l', f', err) →
  lazy_inv Get n l' f' ∧ (∀ b, 0 ≤ b < n → lazy_view Get fuel l' f' b = lazy_view Get fuel l f b) ∧
  (err = None → ∀ b, touches off len b → read_block blockBytes (content f') b = lazy_view Get fuel l f b).
Proof.
  intros Hinv Hoff Hlen Hfit Hh. pose proof Hinv as (((_ & Himg & _) & _) & Hsz & _). unfold lazy_Hydrate in Hh. rewrite Hsz in Hh.
  destruct (hydrateLocked_spec Get fuel n l f _ l' f' err Hinv (byteRange_wf n off len Himg) Hh) as (Hi & Hv & Hm).
  split; [done|]. split; [done|]. intros He b Hb. apply Hm; [done|]. by apply byteRange_touches.
Qed.

Lemma lazy_PrepareWrite_spec n l f off len l' f' err :
  lazy_inv Get n l f → 0 ≤ off → 0 ≤ len → off + len ≤ n * DefaultBlockSize → lazy_PrepareWrite Get fuel l f off len = (l', f', err) →
  lazy_inv Get n l' f' ∧ (∀ b, 0 ≤ b < n → lazy_view Get fuel l' f' b = lazy_view Get fuel l f b) ∧
  (err = None → ∀ b, partly off len b → read_block blockBytes (content f') b = lazy_view Get fuel l f b).
Proof.
  intros Hinv Hoff Hlen Hfit Hh. pose proof Hinv as (_ & _ & Hcl & _). unfold lazy_PrepareWrite in Hh. rewrite Hcl in Hh.
  destruct (len <=? 0) eqn:Hz; zbool.
  { injection Hh as <- <- <-. split; [done|]. split; [done|]. intros _ b [(_ & _ & ?) _]. lia. }
  destruct (boundaries_spec n off len Hoff Hz Hfit) as [Hbw Hbc].
  destruct (hydrateLocked_spec Get fuel n l f _ l' f' err Hinv Hbw Hh) as (Hi & Hv & Hm).
  split; [done|]. split; [done|]. intros He b Hb. apply Hm; [done|]. by apply Hbc.
Qed.

Definition lazy_laws : @HydratorLaws LazyImage lazy_hydrator.
Proof.
  refine (@Build_HydratorLaws LazyImage lazy_hydrator (lazy_inv Get) (lazy_view Get fuel) _ _ _ _ _).
  - by intros n l f [? _].
  - intros n l f b. apply lazy_view_length.
  - exact lazy_Hydrate_spec.
  - exact lazy_PrepareWrite_spec.
  - intros n l f off len c. apply lazy_commit_spec.
Defined.

(** Sequences of hydrations: reads and the preparation of writes. *)
Inductive lazy_op : Type := LzHydrate (off len : Z) | LzPrepareWrite (off len : Z).

Definition lazy_op_ok (n : Z) (o : lazy_op) : Prop :=
  match o with
  | LzHydrate off len | LzPrepareWrite off len => 0 ≤ off ∧ 0 ≤ len ∧ off + len ≤ n * DefaultBlockSize
  end.

Definition lazy_op_run (o : lazy_op) (l : LazyImage) (f : File) : LazyImage * File * option error :=
  match o with
  | LzHydrate off len => lazy_Hydrate Get fuel l f off len
  | LzPrepareWrite off len => lazy_PrepareWrite Get fuel l f off len
  end.

Fixpoint lazy_run (ops : list lazy_op) (l : LazyImage) (f : File) : LazyImage * File :=
  match ops with
  | [] => (l, f)
  | o :: ops => let '(l, f, _) := lazy_op_run o l f in lazy_run ops l f
  end.

Lemma hydrate_overridden l f requested l' f' err n :
  lazy_inv Get n l f → wf_extents n requested → hydrateLocked Get fuel l f requested = (l', f', err) →
  lz_overridden l' = lz_overridden l.
Proof.
  intros Hinv Hw Hh. unfold hydrateLocked in Hh. destruct (lz_closed l); [by injection Hh as <- _ _|].
  destruct (head requested), (last requested); try (by injection Hh as <- _ _).
  revert Hh. generalize (merge_sort le (elements (wanted_refs l requested (extent_end e0) (drop (sort_Search (length (lz_sources l))
    (fun i => match lz_sources l !! i with Some s => Start e <? extent_end (le_Extent s) | None => false end)) (lz_sources l)) ∅))) as idx.
  intros idx. clear Hinv Hw. revert l f. induction idx as [|i idx IH]; intros l f; cbn [load_refs]; [by intros [= <- _ _]|].
  destruct (lz_refs l !! i); [|by intros [= <- _ _]]. case_bool_decide; [by intros Hh%IH|]. unfold fetch_ref.
  destruct (match lz_faults l with [] => _ | _ => _ end) as [[x|] fs]; [by intros [= <- _ _]|].
  destruct (applyObjectRef _ _ _ _ _ _ _) as [[c f1] [x|]]; [by intros [= <- _ _]|]. intros Hh. by apply IH in Hh.
Qed.

Lemma lazy_run_spec n ops l f l' f' :
  lazy_inv Get n l f → Forall (lazy_op_ok n) ops → lazy_run ops l f = (l', f') →
  lazy_inv Get n l' f' ∧ (∀ b, 0 ≤ b < n → lazy_view Get fuel l' f' b = lazy_view Get fuel l f b) ∧
  lz_overridden l' = lz_overridden l.
Proof.
  revert l f. induction ops as [|o ops IH]; intros l f Hinv Hok Hr; cbn [lazy_run] in Hr; [by injection Hr as <- <-|].
  apply Forall_cons in Hok as [Ho Hok]. destruct (lazy_op_run o l f) as [[l1 f1] err] eqn:Hop.
  assert (lazy_inv Get n l1 f1 ∧ (∀ b, 0 ≤ b < n → lazy_view Get fuel l1 f1 b = lazy_view Get fuel l f b) ∧
    lz_overridden l1 = lz_overridden l) as (Hinv1 & Hv1 & Hov1).
  { pose proof Hinv as (((_ & Himg & _) & _) & Hsz & Hcl & _).
    destruct o as [off len|off len]; cbn [lazy_op_run lazy_op_ok] in *; destruct Ho as (Hoff & Hlen & Hfit).
    - destruct (lazy_Hydrate_spec n l f off len l1 f1 err Hinv Hoff Hlen Hfit Hop) as (? & ? & _). do 2 (split; [done|]).
      eapply hydrate_overridden; [exact Hinv|apply (byteRange_wf n off len Himg)|]. unfold lazy_Hydrate in Hop. rewrite Hsz in Hop. exact Hop.
    - destruct (lazy_PrepareWrite_spec n l f off len l1 f1 err Hinv Hoff Hlen Hfit Hop) as (? & ? & _). do 2 (split; [done|]).
      unfold lazy_PrepareWrite in Hop. rewrite Hcl in Hop. destruct (len <=? 0) eqn:Hz; [by injection Hop as <- _ _|]. zbool.
      eapply hydrate_overridden; [exact Hinv| |exact Hop]. by apply boundaries_spec. }
  destruct (IH l1 f1 Hinv1 Hok Hr) as (Hinv' & Hv' & Hov'). split; [done|]. split; [|congruence].
  intros b Hb. rewrite Hv' by done. by apply Hv1.
Qed.
End contract.

(** ** Lazy and eager restore *)

Section mounted.
Context `{Digest} `{Gzip} `{Json Manifest} `{Json manifestBundle}.
Context (Get : string → result bytes).
Context (json_typed : ∀ body (m : Manifest), Unmarshal body = Ok m → manifest_typed m).
Context (state : State) (imageBlocks : Z).
Context (Hgeom : st_Size state = imageBlocks * DefaultBlockSize ∧ st_BlockSize state = DefaultBlockSize ∧
                 0 ≤ imageBlocks ≤ maxImageBlocks).

Lemma owner_ref_for l b : snd <$> owner l b = ref_for (lz_refs l) b.
Proof.
  unfold owner. induction (lz_refs l) as [|r refs IH]; [done|]. cbn [list_find ref_for].
  destruct (decide (covers (ref_Extents r) b)); [done|]. rewrite <-IH.
  by destruct (list_find (fun r => covers (ref_Extents r) b) refs) as [[? ?]|].
Qed.

(** A readable reference has the data of every block it covers. *)
Lemma readable_content fuel l r b :
  plan_ref_wf imageBlocks r → readable Get fuel l r → covers (ref_Extents r) b → is_Some (ref_content Get fuel l r b).
Proof using Hgeom.
  intros [Hwf _] Hread Hcov. unfold readable in Hread. destruct (ref_runs Get fuel l r) as [runs|] eqn:Hruns; [|done].
  rewrite (ref_runs_content Get _ _ _ _ b Hruns). apply runs_lookup_covers. destruct Hgeom as (_ & _ & Himg).
  by apply (ref_runs_covers Get fuel l r runs imageBlocks b); [lia|..].
Qed.

Lemma fresh_lazy_view fuel entries faults b :
  restoreManifests Get fuel state = Ok entries →
  Forall (readable Get fuel (newManifestSourceLoader state)) (plan_entries [] entries) → 0 ≤ b < imageBlocks →
  let refs := plan_entries [] entries in
  lazy_view Get fuel (mkLazyImage (newManifestSourceLoader state) ∅ (st_Size state) refs (lazy_sources refs)
      (replicate (length refs) false) [] false faults) (sparse_image (st_Size state)) b =
  chain_block Get fuel (newManifestSourceLoader state) entries b.
Proof using json_typed Hgeom.
  intros Hm Hread Hb refs. pose proof (restoreManifests_ok Get json_typed state imageBlocks Hgeom _ _ Hm) as Hent.
  destruct (plan_entries_spec imageBlocks (image_block_bound state imageBlocks Hgeom) [] entries Hent) as (Hp & Hd & Hfor); [done|].
  destruct Hgeom as (Hsize & _ & Himg). rewrite Hsize. destruct (sparse_image_spec imageBlocks Himg) as (_ & _ & Hz).
  set (l := mkLazyImage _ _ _ _ _ _ _ _ _). unfold lazy_view, pending_ref, chain_block.
  specialize (Hfor b). rewrite decide_False in Hfor by (by intros ?%covers_nil).
  pose proof (owner_ref_for l b) as Ho. change (lz_refs l) with refs in Ho. fold refs in Hfor.
  destruct (owner l b) as [[i r]|] eqn:Hown; cbn [fmap option_fmap option_map snd] in Ho; rewrite <-Ho in Hfor.
  - apply owner_elem in Hown as [Hi Hcov].
    assert (is_loaded l i = false) as ->.
    { unfold is_loaded. cbn [l lz_loaded]. destruct (replicate (length refs) false !! i) as [x|] eqn:Hx; [|done].
      by apply lookup_replicate in Hx as [-> _]. }
    rewrite bool_decide_eq_false_2 by by intros ?%covers_nil. cbn [orb].
    destruct (nonzero_ref (newest entries b) b) as [r'|]; [|discriminate Hfor].
    cbn [fmap option_fmap option_map] in Hfor. apply (inj Some) in Hfor.
    rewrite <-(ref_content_located Get fuel _ r r' b Hfor). assert (r ∈ refs) as Hr by (by eapply list_elem_of_lookup_2).
    rewrite Forall_forall in Hp, Hread. destruct (readable_content fuel (newManifestSourceLoader state) r b) as [x Hx]; [by apply Hp|by apply Hread|done|].
    change (lz_manifests l) with (newManifestSourceLoader state). by rewrite Hx.
  - destruct (nonzero_ref (newest entries b) b); [discriminate Hfor|]. by apply Hz.
Qed.

Lemma fresh_lazy_inv fuel entries faults :
  restoreManifests Get fuel state = Ok entries →
  let refs := plan_entries [] entries in
  lazy_inv Get imageBlocks (mkLazyImage (newManifestSourceLoader state) ∅ (st_Size state) refs (lazy_sources refs)
      (replicate (length refs) false) [] false faults) (sparse_image (st_Size state)).
Proof using json_typed Hgeom.
  intros Hm refs. pose proof (restoreManifests_ok Get json_typed state imageBlocks Hgeom _ _ Hm) as Hent.
  destruct (plan_entries_spec imageBlocks (image_block_bound state imageBlocks Hgeom) [] entries Hent) as (Hp & Hd & _); [done|].
  destruct Hgeom as (Hsize & _ & Himg). rewrite Hsize. destruct (sparse_image_spec imageBlocks Himg) as (Him & Hl & _).
  split; [split; [done|]; rewrite Hl; pose proof blockBytes_Z; nia|]. split; [done|]. split; [done|]. split; [done|].
  split; [cbn [lz_loaded lz_refs]; by rewrite length_replicate|]. split; [done|]. intros k x. cbn [lz_cache]. by rewrite lookup_empty.
Qed.

(** Hydration never changes what a volume holds.  After any sequence of
    reads and write preparations, successful or failed, on an image that keeps
    its invariant, a read that succeeds leaves in the file, for every block it
    touches, the content the image had at the start, and a block that was
    written since the mount still has the bytes that were written. *)
Theorem hydration_preserves_image fuel n l f ops l' f' off len l'' f'' :
  lazy_inv Get n l f → Forall (lazy_op_ok n) ops → lazy_run Get fuel ops l f = (l', f') →
  lazy_op_ok n (LzHydrate off len) → lazy_Hydrate Get fuel l' f' off len = (l'', f'', None) →
  (∀ b, touches off len b → read_block blockBytes (content f'') b = lazy_view Get fuel l f b) ∧
  (∀ b, covers (lz_overridden l) b → read_block blockBytes (content f'') b = read_block blockBytes (content f) b).
Proof.
  intros Hinv Hok Hr (Hoff & Hlen & Hfit) Hh. destruct (lazy_run_spec Get fuel n ops l f l' f' Hinv Hok Hr) as (Hinv' & Hv & Hov).
  destruct (lazy_run_spec Get fuel n (ops ++ [LzHydrate off len]) l f l'' f'' Hinv) as (_ & Hv2 & Hov2).
  { apply Forall_app. split; [done|]. by apply Forall_singleton. }
  { clear -Hr Hh. revert l f Hr. induction ops as [|o ops IH]; intros l f Hr; cbn [app lazy_run lazy_op_run] in *.
    - injection Hr as -> ->. by rewrite Hh.
    - destruct (lazy_op_run Get fuel o l f) as [[l1 f1] e]. by apply IH. }
  destruct (lazy_Hydrate_spec Get fuel n l' f' off len l'' f'' None Hinv' Hoff Hlen Hfit Hh) as (_ & _ & Hm). split.
  - intros b Hb. rewrite Hm by done. apply Hv. unfold touches, DefaultBlockSize in *. lia.
  - intros b Hb. pose proof Hinv as (_ & _ & _ & _ & _ & How & _). pose proof (wf_from_covers _ _ _ _ How Hb) as Hbn.
    assert (∀ l f, lz_overridden l = lz_overridden l'' → lazy_view Get fuel l f b = read_block blockBytes (content f) b) as Hread.
    { intros l0 f0 H0'. unfold lazy_view, pending_ref. rewrite H0', Hov2, (bool_decide_eq_true_2 _ Hb).
      destruct (owner l0 b) as [[i r]|]; [|done]. by rewrite orb_true_r. }
    rewrite <-(Hread l'' f''), <-(Hread l f) by done. by apply Hv2.
Qed.

(** A lazily restored volume is the eagerly restored one.  When the plan of
    a valid state can be read, [PrepareLazyRestore] succeeds, and the logical
    content of the image it returns is, block by block, what [RestoreState]
    would have written. *)
Theorem lazy_restore_equals_eager fuel schedule entries faults :
  validateState (st_Name state) state = Ok tt → restoreManifests Get fuel state = Ok entries →
  (∀ refs, schedule refs ≡ₚ refs) →
  Forall (readable Get fuel (newManifestSourceLoader state)) (plan_entries [] entries) →
  ∃ l f c, PrepareLazyRestore Get fuel (Ok []) faults state = Ok (l, f) ∧
    RestoreState Get fuel (Ok []) schedule state = Ok (mkFile c [], None) ∧ lazy_inv Get imageBlocks l f ∧
    ∀ b, 0 ≤ b < imageBlocks → lazy_view Get fuel l f b = read_block blockBytes c b.
Proof using json_typed Hgeom.
  intros Hval Hm Hsched Hread. pose proof Hgeom as (Hsize & _ & Himg).
  destruct (apply_plan_spec Get fuel (newManifestSourceLoader state) imageBlocks entries (schedule (plan_entries [] entries)))
    as (c & Ha & Hl & Hb); [done|by eapply restoreManifests_ok|apply Hsched|by rewrite Hsched|].
  eexists _, _, c. unfold PrepareLazyRestore, RestoreState, restorePlan. rewrite Hval, Hm. cbn [mbind result_mbind createSparseImage].
  split; [done|]. split; [by fold (sparse_image (st_Size state)); rewrite Hsize, Ha|]. split; [by apply (fresh_lazy_inv fuel)|].
  intros b Hbn. rewrite Hb by done. by apply fresh_lazy_view.
Qed.

(** C14: a mounted volume serves its history.  When every reference of the
    restore plan can be read and the local file can be created and has no I/O
    error, a device started over a lazily restored image and the recovered
    journal reads as the restored volume with the journal's generations on top,
    and stays a flat array of bytes (changed by exactly the writes and trims
    reported as done) under reads, writes, trims, flushes, seals and releases,
    whatever transient failures the store has while blocks are fetched and
    whichever pooled buffers the device gets.  (A local write that fails half-way
    breaks this: [short_write_loses_unfetched_bytes].) *)
Theorem lazy_mount_serves_volume fuel schedule entries faults picks maxDirty gens ops :
  0 < imageBlocks →
  validateState (st_Name state) state = Ok tt → restoreManifests Get fuel state = Ok entries →
  (∀ refs, schedule refs ≡ₚ refs) →
  Forall (readable Get fuel (newManifestSourceLoader state)) (plan_entries [] entries) → Forall (gen_ok imageBlocks) gens →
  ∃ l f c d d' gs ws,
    PrepareLazyRestore Get fuel (Ok []) faults state = Ok (l, f) ∧ RestoreState Get fuel (Ok []) schedule state = Ok (mkFile c [], None) ∧
    @start_device _ (lazy_hydrator Get fuel) None picks f (st_Size state) maxDirty (Some l) gens = Ok d ∧
    @dev_run _ (lazy_hydrator Get fuel) ops d = (d', gs, ws) ∧
    (∀ b, 0 ≤ b < imageBlocks → read_block blockBytes (@dev_disk _ _ (lazy_laws Get fuel) imageBlocks d) b =
       foldl overlay (read_block blockBytes c) (GenBlocks <$> gens) b) ∧
    @dev_disk _ _ (lazy_laws Get fuel) imageBlocks d' = foldl write_disk (@dev_disk _ _ (lazy_laws Get fuel) imageBlocks d) ws.
Proof using json_typed Hgeom.
  intros Hpos Hval Hm Hsched Hread Hgens. pose proof Hgeom as (Hsize & _ & Himg).
  destruct (apply_plan_spec Get fuel (newManifestSourceLoader state) imageBlocks entries (schedule (plan_entries [] entries)))
    as (c & Ha & Hl & Hb); [done|by eapply restoreManifests_ok|apply Hsched|by rewrite Hsched|].
  pose proof (fresh_lazy_inv fuel entries faults Hm) as Hinv. cbv zeta in Hinv.
  set (l := mkLazyImage _ _ _ _ _ _ _ _ faults) in Hinv. set (f := sparse_image (st_Size state)) in *.
  assert (0 < imageBlocks ≤ maxImageBlocks) as Hn by lia.
  destruct (@start_spec _ _ (lazy_laws Get fuel) imageBlocks Hn picks f maxDirty (Some l) gens Hinv Hgens) as (d & Hs & Hdi & Hcl & _ & _ & Hv).
  destruct (@dev_run _ (lazy_hydrator Get fuel) ops d) as [[d' gs] ws] eqn:Hr.
  destruct (@dev_run_spec _ _ (lazy_laws Get fuel) imageBlocks Hn _ ops d d' gs ws Hdi Hcl Hr) as (_ & _ & Hd & _).
  exists l, f, c, d, d', gs, ws. unfold PrepareLazyRestore, RestoreState, restorePlan. rewrite Hval, Hm. cbn [mbind result_mbind createSparseImage].
  split; [done|]. split; [by fold (sparse_image (st_Size state)); rewrite Hsize, Ha|]. split; [by rewrite Hsize|]. split; [done|]. split; [|done].
  intros b Hbn. rewrite dev_disk_block by (done || apply Hdi). rewrite Hv by done. apply overlay_ext.
  cbn [image_view hyd_view lazy_laws]. rewrite Hb by done. by apply fresh_lazy_view.
Qed.
End mounted.

(** ** Witnesses *)

Section sample.
#[local] Existing Instances toy_digest plain_gzip sample_manifest_json no_bundle_json.

Definition sample_plan : list ObjectRef := plan_entries [] [sample_entry].
Definition sample_lazy : LazyImage :=
  mkLazyImage (newManifestSourceLoader sample_volume) ∅ (st_Size sample_volume) sample_plan (lazy_sources sample_plan)
    (replicate (length sample_plan) false) [] false [Some ErrIO].
Definition sample_sparse : File := sparse_image (st_Size sample_volume).

Lemma sample_readable : Forall (readable sample_get 0 (newManifestSourceLoader sample_volume)) (plan_entries [] [sample_entry]).
Proof. apply Forall_singleton. vm_compute. reflexivity. Qed.

Lemma sample_lazy_inv : lazy_inv sample_get 4 sample_lazy sample_sparse.
Proof. exact (fresh_lazy_inv sample_get sample_typed sample_volume 4 sample_geometry 0 [sample_entry] [Some ErrIO] sample_manifests). Qed.

(** The first fetch fails, the second succeeds. *)
Lemma hydration_preserves_image_witness :
  let '(l', f') := lazy_run sample_get 0 [LzHydrate 4096 10] sample_lazy sample_sparse in
  let '(l'', f'', err) := lazy_Hydrate sample_get 0 l' f' 4100 5 in
  err = None ∧ read_block blockBytes (content f'') 1 = lazy_view sample_get 0 sample_lazy sample_sparse 1.
Proof.
  destruct (lazy_run sample_get 0 [LzHydrate 4096 10] sample_lazy sample_sparse) as [l' f'] eqn:Hr.
  destruct (lazy_Hydrate sample_get 0 l' f' 4100 5) as [[l'' f''] err] eqn:Hh.
  assert (err = None) as ->.
  { assert ((lazy_Hydrate sample_get 0 (lazy_run sample_get 0 [LzHydrate 4096 10] sample_lazy sample_sparse).1
      (lazy_run sample_get 0 [LzHydrate 4096 10] sample_lazy sample_sparse).2 4100 5).2 = None) as He by (vm_compute; reflexivity).
    rewrite Hr in He. cbn [fst snd] in He. rewrite Hh in He. exact He. }
  split; [reflexivity|].
  refine (proj1 (hydration_preserves_image sample_get 0 4 sample_lazy sample_sparse [LzHydrate 4096 10] l' f' 4100 5 l'' f''
    sample_lazy_inv _ Hr _ Hh) 1 _).
  - apply Forall_singleton. vm_compute. intuition congruence.
  - vm_compute. intuition congruence.
  - vm_compute. intuition congruence.
Defined.

Lemma lazy_restore_equals_eager_witness :
  ∃ l f c, PrepareLazyRestore sample_get 0 (Ok []) [] sample_volume = Ok (l, f) ∧
    RestoreState sample_get 0 (Ok []) reverse sample_volume = Ok (mkFile c [], None) ∧ lazy_inv sample_get 4 l f ∧
    ∀ b, 0 ≤ b < 4 → lazy_view sample_get 0 l f b = read_block blockBytes c b.
Proof.
  apply (lazy_restore_equals_eager sample_get sample_typed sample_volume 4 sample_geometry 0 reverse [sample_entry] []).
  - exact sample_valid.
  - exact sample_manifests.
  - intros refs. apply reverse_Permutation.
  - exact sample_readable.
Defined.

Definition sample_gens : list Generation := [mkGeneration {[3 := replicate blockBytes x41]} 4096 1].

Lemma lazy_mount_serves_volume_witness :
  ∃ l f c d d' gs ws,
    PrepareLazyRestore sample_get 0 (Ok []) [Some ErrIO] sample_volume = Ok (l, f) ∧
    RestoreState sample_get 0 (Ok []) id sample_volume = Ok (mkFile c [], None) ∧
    @start_device _ (lazy_hydrator sample_get 0) None sample_picks f (st_Size sample_volume) 0 (Some l) sample_gens = Ok d ∧
    @dev_run _ (lazy_hydrator sample_get 0) sample_ops d = (d', gs, ws) ∧
    (∀ b, 0 ≤ b < 4 → read_block blockBytes (@dev_disk _ _ (lazy_laws sample_get 0) 4 d) b =
       foldl overlay (read_block blockBytes c) (GenBlocks <$> sample_gens) b) ∧
    @dev_disk _ _ (lazy_laws sample_get 0) 4 d' = foldl write_disk (@dev_disk _ _ (lazy_laws sample_get 0) 4 d) ws.
Proof.
  apply (lazy_mount_serves_volume sample_get sample_typed sample_volume 4 sample_geometry 0 id [sample_entry] [Some ErrIO] sample_picks 0
    sample_gens sample_ops).
  - lia.
  - exact sample_valid.
  - exact sample_manifests.
  - intros refs. reflexivity.
  - exact sample_readable.
  - apply Forall_singleton. split; [apply map_non_empty_singleton|]. split; [reflexivity|].
    intros b data. cbn [GenBlocks]. intros [<- <-]%lookup_singleton_Some. rewrite length_replicate. lia.
Defined.

(** ** Finding *)

(** A write that covers a whole block needs no fetch before it; when the local
    file system writes only part of it (a full disk), the rest of the block was
    never fetched, is captured as zeros and marked as overridden: the error is
    returned, but the published bytes of that block are gone from the volume. *)
Lemma short_write_loses_unfetched_bytes :
  let f := mkFile (content sample_sparse) [IShort 100] in
  let l := mkLazyImage (newManifestSourceLoader sample_volume) ∅ (st_Size sample_volume) sample_plan (lazy_sources sample_plan)
             (replicate (length sample_plan) false) [] false [] in
  match @start_device _ (lazy_hydrator sample_get 0) None [] f (st_Size sample_volume) 0 (Some l) [] with
  | Ok d =>
      let '(d', r) := @dev_WriteAt _ (lazy_hydrator sample_get 0) false (replicate blockBytes x42) 4096 d in
      lazy_view sample_get 0 l f 1 = replicate blockBytes x01 ∧
      r = Done 100 (Some ErrIO) ∧
      (@dev_ReadAt _ (lazy_hydrator sample_get 0) 4096 4096 d').1.2 = replicate 100 x42 ++ replicate (blockBytes - 100) x00 ∧
      match Seal d' with
      | (_, Some g) => sg_snapshot g !! 1 = Some (replicate 100 x42 ++ replicate (blockBytes - 100) x00)
      | (_, None) => False
      end
  | Err _ => False
  end.
Proof. vm_compute. split_and!; reflexivity. Qed.
End sample.
