(* ===== verification/Lease.v ===== *)
(** * Leases and publication ([internal/replica/remote.go])

    A lease is a node's view of a volume head: the state it last committed and
    the cursor of that version.  Every operation is a function on a [World]:
    the object store, the lease and what the environment does.  Each call to
    the store consumes an [event]: what others do before it takes effect, and
    whether the request or its answer gets lost.  Calls made without holding
    the mutex of the lease also let other operations of this lease happen. *)
From stdpp Require Import pretty.
From S2P Require Import Prelude Extents Codec Segment Types Store Head Manifest Plan.
Local Open Scope Z_scope.

(** ** The head interface ([volumeHead]) *)
Class VolumeHead (S : Type) : Type := {
  head_read : S → string → S * result (bytes * string);
  head_commit : S → string → bytes → string → State → S * result string;
  head_owns : string → string → bool;
  head_remove : S → string → S * option error;
}.

#[export] Instance conditionalHead {S} `{Store S} : VolumeHead S := {
  head_read s name := (s, ch_read s name);
  head_commit s name body prev _ := ch_commit s name body prev;
  head_owns := ch_owns;
  head_remove := ch_remove;
}.

(** ** Data *)

Record preparedManifest : Type := mkPrepared { pm_manifest : Manifest; pm_body : bytes; pm_key : string }.

Record preparedManifestBundle : Type := mkPreparedBundle {
  pb_ref : ManifestBundleRef;
  pb_body : bytes;
  pb_keys : gset string;
  pb_uploaded : bool;
}.

(** [pendingCommit]: a commit whose outcome is unknown.  The closure [commit]
    is the candidate with, for a publication, the manifest, and the bundle;
    [pc_id] is the identity of the allocation. *)
Record pendingCommit : Type := mkPending {
  pc_id : Z;
  pc_body : bytes;
  pc_candidate : State;
  pc_prepared : option preparedManifest;
  pc_bundle : option preparedManifestBundle;
}.

(** [ls_archiving] is the bundle that the background archiver holds;
    [ls_allocated] counts the pending commits allocated so far. *)
Record Lease : Type := mkLease {
  ls_state : State;
  ls_etag : string;
  ls_lost : bool;
  ls_plan : list ObjectRef;
  ls_planKnown : bool;
  ls_pending : option pendingCommit;
  ls_adopted : option Manifest;
  ls_bundleInFlight : string;
  ls_archiving : option preparedManifestBundle;
  ls_readyBundle : option preparedManifestBundle;
  ls_allocated : Z;
}.

Definition with_lost (l : Lease) : Lease :=
  mkLease (ls_state l) (ls_etag l) true (ls_plan l) (ls_planKnown l) (ls_pending l) (ls_adopted l) (ls_bundleInFlight l) (ls_archiving l) (ls_readyBundle l) (ls_allocated l).
Definition with_pending (p : option pendingCommit) (l : Lease) : Lease :=
  mkLease (ls_state l) (ls_etag l) (ls_lost l) (ls_plan l) (ls_planKnown l) p (ls_adopted l) (ls_bundleInFlight l) (ls_archiving l) (ls_readyBundle l) (ls_allocated l).
Definition with_adopted (a : option Manifest) (l : Lease) : Lease :=
  mkLease (ls_state l) (ls_etag l) (ls_lost l) (ls_plan l) (ls_planKnown l) (ls_pending l) a (ls_bundleInFlight l) (ls_archiving l) (ls_readyBundle l) (ls_allocated l).
Definition with_ready (b : option preparedManifestBundle) (l : Lease) : Lease :=
  mkLease (ls_state l) (ls_etag l) (ls_lost l) (ls_plan l) (ls_planKnown l) (ls_pending l) (ls_adopted l) (ls_bundleInFlight l) (ls_archiving l) b (ls_allocated l).
Definition with_archiving (key : string) (b : option preparedManifestBundle) (l : Lease) : Lease :=
  mkLease (ls_state l) (ls_etag l) (ls_lost l) (ls_plan l) (ls_planKnown l) (ls_pending l) (ls_adopted l) key b (ls_readyBundle l) (ls_allocated l).
Definition with_plan (plan : list ObjectRef) (known : bool) (l : Lease) : Lease :=
  mkLease (ls_state l) (ls_etag l) (ls_lost l) plan known (ls_pending l) (ls_adopted l) (ls_bundleInFlight l) (ls_archiving l) (ls_readyBundle l) (ls_allocated l).
Definition with_head (state : State) (etag : string) (l : Lease) : Lease :=
  mkLease state etag (ls_lost l) (ls_plan l) (ls_planKnown l) (ls_pending l) (ls_adopted l) (ls_bundleInFlight l) (ls_archiving l) (ls_readyBundle l) (ls_allocated l).

(** Updates of a state document. *)
Definition set_lease (lease : option LeaseRecord) (st : State) : State :=
  mkState (st_Format st) (st_ID st) (st_Name st) (st_Size st) (st_BlockSize st) (st_Filesystem st) (st_Generation st) (st_Manifest st)
    (st_InlineManifests st) (st_ManifestBundle st) (st_Checkpoint st) (st_Epoch st) (st_Deleting st) lease.
Definition set_epoch (epoch : Z) (st : State) : State :=
  mkState (st_Format st) (st_ID st) (st_Name st) (st_Size st) (st_BlockSize st) (st_Filesystem st) (st_Generation st) (st_Manifest st)
    (st_InlineManifests st) (st_ManifestBundle st) (st_Checkpoint st) epoch (st_Deleting st) (st_Lease st).
Definition set_deleting (st : State) : State :=
  mkState (st_Format st) (st_ID st) (st_Name st) (st_Size st) (st_BlockSize st) (st_Filesystem st) (st_Generation st) (st_Manifest st)
    (st_InlineManifests st) (st_ManifestBundle st) (st_Checkpoint st) (st_Epoch st) true (st_Lease st).
Definition set_archive (inline : gmap string bytes) (bundle : option ManifestBundleRef) (st : State) : State :=
  mkState (st_Format st) (st_ID st) (st_Name st) (st_Size st) (st_BlockSize st) (st_Filesystem st) (st_Generation st) (st_Manifest st)
    inline bundle (st_Checkpoint st) (st_Epoch st) (st_Deleting st) (st_Lease st).
Definition set_generation (generation : Z) (manifest : string) (checkpoint : Z) (st : State) : State :=
  mkState (st_Format st) (st_ID st) (st_Name st) (st_Size st) (st_BlockSize st) (st_Filesystem st) generation manifest
    (st_InlineManifests st) (st_ManifestBundle st) checkpoint (st_Epoch st) (st_Deleting st) (st_Lease st).

Definition extend_lease (expires : Z) (r : LeaseRecord) : LeaseRecord :=
  mkLeaseRecord (Holder r) (Token r) (lease_Epoch r) expires (MountedAt r).

Definition isImmutableObject (prefix key : string) : bool :=
  HasPrefix key (prefix +:+ "manifests/") || HasPrefix key (prefix +:+ "manifest-bundles/") || HasPrefix key (prefix +:+ "segments/").

(** ** Bundles of manifests *)

Section bundles.
Context `{Digest} `{Json Manifest} `{Json manifestBundle}.

Definition prepared_of (snapshot : State) (manifest : Manifest) (body : bytes) : preparedManifest :=
  mkPrepared manifest body (manifest_key (st_Name snapshot) body).

Definition prepareManifest (snapshot : State) (manifest : Manifest) : result preparedManifest :=
  body ← Marshal manifest; Ok (prepared_of snapshot manifest body).

Definition inlineManifestBytes (manifests : gmap string bytes) : Z :=
  map_fold (fun _ body total => total + Z.of_nat (length body)) 0 manifests.

Definition bundle_keys (bundle : option preparedManifestBundle) : gset string :=
  match bundle with Some b => pb_keys b | None => ∅ end.

Definition inlineManifestBytesAfterBundle (manifests : gmap string bytes) (bundle : option preparedManifestBundle) : Z :=
  inlineManifestBytes (filter (fun kv => kv.1 ∉ bundle_keys bundle) manifests).

(** The entries of a bundle with their generations, in the order of the map;
    [sort.Slice] then sorts them by generation. *)
Fixpoint bundle_entries (snapshot : State) (inline : list (string * bytes)) : result (list (bundledManifest * Z)) :=
  match inline with
  | [] => Ok []
  | (key, body) :: rest =>
      manifest ← decodeManifest snapshot key body 0;
      entries ← bundle_entries snapshot rest;
      Ok ((mkBundled key body, mf_Generation manifest) :: entries)
  end.

Definition generation_le (a b : bundledManifest * Z) : Prop := a.2 ≤ b.2.
#[export] Instance generation_le_dec : RelDecision generation_le := fun a b => decide (a.2 ≤ b.2).

Definition prepareManifestBundle (snapshot : State) : result (option preparedManifestBundle) :=
  if bool_decide (st_InlineManifests snapshot = ∅) then Ok None else
  entries ← bundle_entries snapshot (map_to_list (st_InlineManifests snapshot));
  let entries := merge_sort generation_le entries in
  let first := default 0 (snd <$> head entries) in
  let last := default 0 (snd <$> last entries) in
  let bundle := mkBundle Format (st_ID snapshot) first last (st_ManifestBundle snapshot) entries.*1 in
  body ← Marshal bundle;
  Ok (Some (mkPreparedBundle (mkBundleRef (bundle_key (st_Name snapshot) body) first last) body
              (list_to_set (bm_Key ∘ fst <$> entries)) false)).

Definition attachBundleToRefs (refs : list ObjectRef) (bundle : preparedManifestBundle) : list ObjectRef :=
  (fun ref =>
     if bool_decide (ref_SourceManifest ref ∈ pb_keys bundle)
     then with_source ref (ref_SourceManifest ref) (bref_Key (pb_ref bundle)) (ref_SourceIndex ref) (ref_InlineData ref)
     else ref) <$> refs.

Definition bundle_parent_key (ref : option ManifestBundleRef) : string :=
  match ref with Some r => bref_Key r | None => EmptyString end.

Definition manifestBundleApplies (state : State) (bundle : preparedManifestBundle) : bool :=
  match Unmarshal (pb_body bundle) with
  | Ok decoded =>
      bool_decide (bundle_parent_key (st_ManifestBundle state) = bundle_parent_key (mb_Parent decoded)) &&
      bool_decide (pb_keys bundle ⊆ dom (st_InlineManifests state))
  | Err _ => false
  end.

Definition applyManifestBundle (state : State) (bundle : preparedManifestBundle) : State :=
  set_archive (filter (fun kv => kv.1 ∉ pb_keys bundle) (st_InlineManifests state)) (Some (pb_ref bundle)) state.

Definition apply_bundle (state : State) (bundle : option preparedManifestBundle) : State :=
  match bundle with Some b => applyManifestBundle state b | None => state end.
End bundles.

(** ** The environment *)

Inductive fault : Type := Delivered | LostRequest (e : error) | LostResponse (e : error).

Section lease.
Context {S : Type} `{Store S} `{VolumeHead S} `{Digest} `{Json State} `{Json Manifest} `{Json manifestBundle}.

Record event : Type := mkEvent {
  ev_others : S → S;
  ev_unlocked : S * Lease → S * Lease;
  ev_fault : fault;
}.

Record World : Type := mkWorld {
  w_store : S;
  w_lease : Lease;
  w_events : list event;
  w_clock : nat → Z;
  w_ticks : nat;
}.

Definition set_store (s : S) (w : World) : World := mkWorld s (w_lease w) (w_events w) (w_clock w) (w_ticks w).
Definition on_lease (f : Lease → Lease) (w : World) : World := mkWorld (w_store w) (f (w_lease w)) (w_events w) (w_clock w) (w_ticks w).

(** [r.now()] *)
Definition now (w : World) : World * Z :=
  (mkWorld (w_store w) (w_lease w) (w_events w) (w_clock w) (Datatypes.S (w_ticks w)), w_clock w (w_ticks w)).

Definition faulty {A} (f : fault) (op : S → S * result A) (s : S) : S * result A :=
  match f with
  | Delivered => op s
  | LostRequest e => (s, Err e)
  | LostResponse e => ((op s).1, Err e)
  end.

(** A call to the store with the mutex held. *)
Definition call {A} (op : S → S * result A) (w : World) : World * result A :=
  match w_events w with
  | [] => let '(s, r) := op (w_store w) in (set_store s w, r)
  | e :: rest =>
      let '(s, r) := faulty (ev_fault e) op (ev_others e (w_store w)) in
      (mkWorld s (w_lease w) rest (w_clock w) (w_ticks w), r)
  end.

(** A call to the store without the mutex. *)
Definition call_unlocked {A} (op : S → S * result A) (w : World) : World * result A :=
  match w_events w with
  | [] => let '(s, r) := op (w_store w) in (set_store s w, r)
  | e :: rest =>
      let '(s, l) := ev_unlocked e (w_store w, w_lease w) in
      let '(s, r) := faulty (ev_fault e) op s in
      (mkWorld s l rest (w_clock w) (w_ticks w), r)
  end.

Context (TTL : Z).

(** [r.ttl()] *)
Definition ttl : Z := if 0 <? TTL then TTL else 30 * 10 ^ 9.

Definition readHeadBody (name : string) (s : S) : S * result (bytes * string) := head_read s name.


(** ** Commits *)

Definition applyCommitLocked (candidate : State) (etag : string) (bundle : option preparedManifestBundle) (l : Lease) : Lease :=
  let l := with_head candidate etag l in
  match bundle with
  | None => l
  | Some b =>
      let l := with_plan (attachBundleToRefs (ls_plan l) b) (ls_planKnown l) l in
      match ls_readyBundle l with
      | Some ready => if bool_decide (bref_Key (pb_ref ready) = bref_Key (pb_ref b)) then with_ready None l else l
      | None => l
      end
  end.

Definition applyManifestCommitLocked (candidate : State) (etag : string) (prepared : preparedManifest)
    (bundle : option preparedManifestBundle) (l : Lease) : Lease :=
  let l := with_adopted None (applyCommitLocked candidate etag bundle l) in
  let manifest := pm_manifest prepared in
  if bool_decide (mf_Kind manifest = "delta") then
    if ls_planKnown l then with_plan (applyDeltaToPlan (ls_plan l) (checkpointRefs (pm_key prepared) 0 (mf_Segments manifest))) true l else l
  else if bool_decide (mf_Kind manifest = "checkpoint") then with_plan (mf_Segments manifest) true l
  else l.

(** The closure of a pending commit. *)
Definition pending_commit (pending : pendingCommit) (etag : string) (l : Lease) : Lease :=
  match pc_prepared pending with
  | Some prepared => applyManifestCommitLocked (pc_candidate pending) etag prepared (pc_bundle pending) l
  | None => applyCommitLocked (pc_candidate pending) etag (pc_bundle pending) l
  end.

Definition not_held (l : Lease) : bool := ls_lost l || bool_decide (st_Lease (ls_state l) = None).

Definition resolvePending (w : World) : World * result unit :=
  match ls_pending (w_lease w) with
  | None => (w, Ok tt)
  | Some pending =>
      if not_held (w_lease w) then (w, Ok tt) else
      match call_unlocked (readHeadBody (st_Name (ls_state (w_lease w)))) w with
      | (w, Err e) => (w, Err e)
      | (w, Ok (currentBody, currentCursor)) =>
          if negb (bool_decide (pc_id <$> ls_pending (w_lease w) = Some (pc_id pending))) then (w, Ok tt) else
          let w := on_lease (with_pending None) w in
          if bytes_Equal currentBody (pc_body pending) then
            let w := on_lease (pending_commit pending currentCursor) w in
            match pc_prepared pending with
            | Some prepared => (on_lease (with_adopted (Some (pm_manifest prepared))) w, Ok tt)
            | None => (w, Ok tt)
            end
          else (w, Ok tt)
      end
  end.

Definition commitState (body : bytes) (candidate : State) (w : World) : World * result string :=
  let name := st_Name (ls_state (w_lease w)) in
  match call (fun s => head_commit s name body (ls_etag (w_lease w)) candidate) w with
  | (w, Ok etag) => (w, Ok etag)
  | (w, Err e) =>
      match call (readHeadBody name) w with
      | (w, Ok (currentBody, currentCursor)) => if bytes_Equal currentBody body then (w, Ok currentCursor) else (w, Err e)
      | (w, Err _) => (w, Err e)
      end
  end.

(** [l.pending = &pendingCommit{...}] *)
Definition remember (body : bytes) (candidate : State) (prepared : option preparedManifest) (bundle : option preparedManifestBundle) (l : Lease) : Lease :=
  mkLease (ls_state l) (ls_etag l) (ls_lost l) (ls_plan l) (ls_planKnown l)
    (Some (mkPending (ls_allocated l) body candidate prepared bundle)) (ls_adopted l) (ls_bundleInFlight l) (ls_archiving l) (ls_readyBundle l)
    (ls_allocated l + 1).

Definition readyManifestBundleLocked (l : Lease) : Lease * option preparedManifestBundle :=
  match ls_readyBundle l with
  | Some b => if manifestBundleApplies (ls_state l) b then (l, Some b) else (with_ready None l, None)
  | None => (with_ready None l, None)
  end.

Definition readyManifestBundle (snapshot : State) (l : Lease) : Lease * option preparedManifestBundle :=
  let '(l, bundle) := readyManifestBundleLocked l in
  match bundle with
  | Some b => (l, if manifestBundleApplies snapshot b then Some b else None)
  | None => (l, None)
  end.

Definition renewLocked (w : World) : World :=
  match st_Lease (ls_state (w_lease w)) with
  | None => w
  | Some record =>
      let '(w, t) := now w in
      if time_After (ExpiresAt record) (t + ttl `quot` 2) then w else
      let '(w, t) := now w in
      let candidate := set_lease (Some (extend_lease (t + ttl) record)) (ls_state (w_lease w)) in
      match Marshal candidate with
      | Err _ => w
      | Ok body =>
          match commitState body candidate w with
          | (w, Ok etag) => on_lease (applyCommitLocked candidate etag None) w
          | (w, Err e) => if errors_Is e ErrPreconditionFailed then on_lease with_lost w else w
          end
      end
  end.

Definition update (mutate : World → State → World * result State) (w : World) : World * result unit :=
  match resolvePending w with
  | (w, Err e) => (w, Err e)
  | (w, Ok _) =>
      if not_held (w_lease w) then (w, Err ErrLeaseLost) else
      let '(l, bundle) := readyManifestBundleLocked (w_lease w) in
      let w := on_lease (fun _ => l) w in
      match mutate w (apply_bundle (ls_state l) bundle) with
      | (w, Err e) => (w, Err e)
      | (w, Ok candidate) =>
          match Marshal candidate with
          | Err e => (w, Err e)
          | Ok body =>
              match commitState body candidate w with
              | (w, Ok etag) => (on_lease (applyCommitLocked candidate etag bundle) w, Ok tt)
              | (w, Err e) =>
                  if errors_Is e ErrPreconditionFailed then (on_lease with_lost w, Err ErrLeaseLost)
                  else (on_lease (remember body candidate None bundle) w, Err e)
              end
          end
      end
  end.

Definition Renew : World → World * result unit :=
  update (fun w st =>
    let '(w, t) := now w in
    match st_Lease st with
    | Some record => (w, Ok (set_lease (Some (extend_lease (t + ttl) record)) st))
    | None => (w, Err Panic)
    end).

(** [Release]; [waited] is the outcome of waiting for the background bundle. *)
Definition lease_Release (waited : option error) (w : World) : World * result unit :=
  match waited with
  | Some e => (w, Err e)
  | None => update (fun w st => (w, Ok (set_lease None st))) w
  end.
End lease.
