(* ===== verification/Publish.v ===== *)
(** * Publication ([internal/replica/remote.go]: [Publish], [PublishCheckpoint])

    A publication takes a snapshot of the lease's state, uploads segments,
    bundle and manifest without the mutex, and then commits a new head.  The
    uploads run in parallel: they happen in the order that [schedule] gives,
    and a request cancelled after a failure is one whose request is lost. *)
From stdpp Require Import pretty.
From S2P Require Import Prelude Extents Codec Segment Types Store Head Manifest Plan Lease.
Local Open Scope Z_scope.

Section publish.
Context {S : Type} `{Store S} `{VolumeHead S} `{Digest} `{Json State} `{Json Manifest} `{Json manifestBundle}.
Context (TTL : Z).
Implicit Types w : World (S := S).

(** ** Uploads *)

(** [PutIfAbsent] of an immutable object; an object that is there already must
    have the same content. *)
Definition put_immutable (key : string) (data : bytes) (failed exists_ : string) w : World * option error :=
  match call_unlocked (fun s => store_PutIfAbsent s key data) w with
  | (w, Ok _) => (w, None)
  | (w, Err e) =>
      if negb (errors_Is e ErrPreconditionFailed) then (w, Some (Wrap failed e)) else
      match call_unlocked (fun s => (s, store_Get s key)) w with
      | (w, Ok existing) => (w, if bytes_Equal (obj_Data existing) data then None else Some (Errorf exists_))
      | (w, Err _) => (w, Some (Errorf exists_))
      end
  end.

Definition segmentKey (name : string) (epoch generation : Z) (digest : string) : string :=
  VolumePrefix name +:+ "segments/e" +:+ pretty epoch +:+ "-g" +:+ pretty generation +:+ "-" +:+ digest +:+ ".seg.gz".

Definition segmentReference (snapshot : State) (segment : Segment) : ObjectRef :=
  let key := segmentKey (st_Name snapshot) (st_Epoch snapshot) (u64 (st_Generation snapshot + 1)) (seg_SHA256 segment) in
  if Z.of_nat (length (seg_Data segment)) <=? inlineSegmentLimit then
    mkObjectRef EmptyString EmptyString EmptyString 0 (seg_Data segment) (seg_SHA256 segment) (seg_Bytes segment) (seg_Blocks segment)
      (seg_Extents segment) (seg_ZeroExtents segment)
  else
    mkObjectRef key EmptyString EmptyString 0 [] (seg_SHA256 segment) (seg_Bytes segment) (seg_Blocks segment)
      (seg_Extents segment) (seg_ZeroExtents segment).

Definition uploadSegment (snapshot : State) (segment : Segment) w : World * option error :=
  let ref := segmentReference snapshot segment in
  if negb (bool_decide (ref_InlineData ref = [])) then (w, None)
  else put_immutable (ref_Key ref) (seg_Data segment) "upload segment" "segment object %s exists with different content" w.

Definition uploadManifestBundle (bundle : preparedManifestBundle) w : World * option error :=
  put_immutable (bref_Key (pb_ref bundle)) (pb_body bundle) "upload manifest bundle" "manifest bundle %s exists with different content" w.

Definition uploadManifest (prepared : preparedManifest) w : World * option error :=
  put_immutable (pm_key prepared) (pm_body prepared) "upload manifest" "manifest object %s exists with different content" w.

Inductive upload : Type := UpSegment (segment : Segment) | UpBundle (bundle : preparedManifestBundle) | UpManifest (prepared : preparedManifest).

Definition run_upload (snapshot : State) (u : upload) w : World * option error :=
  match u with
  | UpSegment segment => uploadSegment snapshot segment w
  | UpBundle bundle => uploadManifestBundle bundle w
  | UpManifest prepared => uploadManifest prepared w
  end.

(** All the uploads of a publication; the first error is kept. *)
Fixpoint run_uploads (snapshot : State) (us : list upload) (firstErr : option error) w : World * option error :=
  match us with
  | [] => (w, firstErr)
  | u :: us =>
      let '(w, err) := run_upload snapshot u w in
      run_uploads snapshot us (match firstErr with Some e => Some e | None => err end) w
  end.

(** ** [commitManifest] *)

Definition sameLogicalManifest (a b : Manifest) : bool :=
  bool_decide (mkManifest (mf_Format a) (mf_VolumeID a) (mf_Generation a) (mf_Epoch a) (mf_Kind a) (mf_Parent a) (mf_Segments a) zero_time =
               mkManifest (mf_Format b) (mf_VolumeID b) (mf_Generation b) (mf_Epoch b) (mf_Kind b) (mf_Parent b) (mf_Segments b) zero_time).

(** The candidate document of a publication. *)
Definition publish_candidate (t : Z) (prepared : preparedManifest) (embed : bool) (bundle : option preparedManifestBundle) (state : State) : State :=
  let candidate := apply_bundle state bundle in
  let candidate :=
    match st_Lease candidate with
    | Some record => set_lease (Some (extend_lease (t + ttl TTL) record)) candidate
    | None => candidate
    end in
  let manifest := pm_manifest prepared in
  let candidate :=
    set_generation (mf_Generation manifest) (pm_key prepared)
      (if bool_decide (mf_Kind manifest = "checkpoint") then mf_Generation manifest else st_Checkpoint candidate) candidate in
  if embed then set_archive (<[pm_key prepared := pm_body prepared]> (st_InlineManifests candidate)) (st_ManifestBundle candidate) candidate
  else candidate.

Definition adopts (l : Lease) (manifest : Manifest) : bool :=
  match ls_adopted l with Some adopted => sameLogicalManifest adopted manifest | None => false end.

Definition commitManifest (snapshot : State) (prepared : preparedManifest) (embed : bool) (bundle : option preparedManifestBundle) w
    : World * result unit :=
  match resolvePending w with
  | (w, Err e) => (w, Err e)
  | (w, Ok _) =>
      let l := w_lease w in
      if not_held l then (w, Err ErrLeaseLost) else
      if adopts l (pm_manifest prepared) then (renewLocked TTL (on_lease (with_adopted None) w), Ok tt) else
      if negb (st_Generation (ls_state l) =? st_Generation snapshot) || negb (bool_decide (st_Manifest (ls_state l) = st_Manifest snapshot)) ||
         negb (st_Epoch (ls_state l) =? st_Epoch snapshot) then (w, Err (Errorf "volume head changed during publish")) else
      if match bundle with Some b => negb (manifestBundleApplies (ls_state l) b) | None => false end
      then (w, Err (Errorf "manifest bundle no longer matches volume state")) else
      let '(w, t) := now w in
      let candidate := publish_candidate t prepared embed bundle (ls_state l) in
      match Marshal candidate with
      | Err e => (w, Err e)
      | Ok stateBody =>
          match commitState stateBody candidate w with
          | (w, Ok etag) => (on_lease (applyManifestCommitLocked candidate etag prepared bundle) w, Ok tt)
          | (w, Err e) =>
              if errors_Is e ErrPreconditionFailed then (on_lease with_lost w, Err ErrLeaseLost)
              else (on_lease (remember stateBody candidate (Some prepared) bundle) w, Err (Wrap "publish volume head" e))
          end
      end
  end.

(** ** Background archiving of inline manifests *)

(** [startManifestBundleArchive], up to the start of the goroutine. *)
Definition startManifestBundleArchive (l : Lease) : Lease :=
  if not_held l || negb (bool_decide (ls_bundleInFlight l = EmptyString)) || negb (bool_decide (ls_readyBundle l = None)) ||
     (inlineManifestBytes (st_InlineManifests (ls_state l)) <? manifestBundleTarget) then l
  else
    match prepareManifestBundle (ls_state l) with
    | Ok (Some bundle) => with_archiving (bref_Key (pb_ref bundle)) (Some bundle) l
    | _ => l
    end.

(** The goroutine: the upload, then the end of it with the mutex. *)
Definition archive (w : World (S := S)) : World * result unit :=
  match ls_archiving (w_lease w) with
  | None => (w, Ok tt)
  | Some bundle =>
      let '(w, err) := uploadManifestBundle bundle w in
      let l := w_lease w in
      let l := with_archiving (if bool_decide (ls_bundleInFlight l = bref_Key (pb_ref bundle)) then EmptyString else ls_bundleInFlight l) None l in
      let l := match err with
               | None => if manifestBundleApplies (ls_state l) bundle
                         then with_ready (Some (mkPreparedBundle (pb_ref bundle) (pb_body bundle) (pb_keys bundle) true)) l else l
               | Some _ => l
               end in
      (on_lease (fun _ => l) w, Ok tt)
  end.

(** ** [publishPrepared] *)

(** How a manifest will be stored: inside the state ([embed]), as an object of
    its own ([archiveCurrent]), and the bundle the commit attaches. *)
Definition storage_plan (snapshot : State) (prepared : preparedManifest) (bundle : option preparedManifestBundle) (archiveCurrent : bool)
    : result (bool * bool * option preparedManifestBundle) :=
  let size := Z.of_nat (length (pm_body prepared)) in
  let archiveCurrent := archiveCurrent || (inlineManifestLimit <? size) in
  let embed := negb archiveCurrent && (size <=? inlineManifestLimit) &&
               (inlineManifestBytesAfterBundle (st_InlineManifests snapshot) bundle + size <=? inlineManifestStateLimit) in
  '(embed, archiveCurrent, bundle) ←
    (if negb embed && bool_decide (bundle = None) && negb archiveCurrent then
       bundle ← prepareManifestBundle snapshot;
       Ok (if size <=? inlineManifestLimit then (true, archiveCurrent, bundle) else (embed, true, bundle))
     else Ok (embed, archiveCurrent, bundle));
  Ok (embed, archiveCurrent || negb embed, bundle).

Definition publishPrepared (schedule : list upload → list upload) (snapshot : State) (prepared : preparedManifest) (segments : list Segment)
    (bundle : option preparedManifestBundle) (archiveCurrent : bool) w : World * result unit :=
  let '(l, bundle) :=
    if bool_decide (bundle = None) && negb archiveCurrent then readyManifestBundle snapshot (w_lease w) else (w_lease w, bundle) in
  let w := on_lease (fun _ => l) w in
  match storage_plan snapshot prepared bundle archiveCurrent with
  | Err e => (w, Err e)
  | Ok (embed, archiveCurrent, bundle) =>
      let uploads := (UpSegment <$> segments) ++
        match bundle with Some b => if pb_uploaded b then [] else [UpBundle b] | None => [] end ++
        (if archiveCurrent then [UpManifest prepared] else []) in
      match run_uploads snapshot (schedule uploads) None w with
      | (w, Some e) => (w, Err e)
      | (w, None) =>
          match commitManifest snapshot prepared embed bundle w with
          | (w, Ok _) => (on_lease startManifestBundleArchive w, Ok tt)
          | (w, Err e) => (w, Err e)
          end
      end
  end.

(** ** [Publish] *)

Definition segment_matches (segment : Segment) : bool :=
  negb (bool_decide (seg_Data segment = [])) && negb (bool_decide (seg_Extents segment = [])) &&
  bool_decide (seg_SHA256 segment = hex_EncodeToString (sha256 (seg_Data segment))) &&
  (seg_Bytes segment =? Z.of_nat (length (seg_Data segment))).

(** The loop over the extents of the segments. *)
Fixpoint generation_extents (maxBlocks : Z) (segments : list Segment) (extents : list Extent) (total : Z) : result (list Extent * Z) :=
  match segments with
  | [] => Ok (extents, total)
  | segment :: rest =>
      blocks ← match validateExtents (seg_Extents segment) maxBlocks with
               | Ok blocks => _ ← fail_if (negb (blocks =? u64 (seg_Blocks segment))) (Errorf "segment %d has invalid extents"); Ok blocks
               | Err _ => Err (Errorf "segment %d has invalid extents")
               end;
      _ ← fail_if (is_err (validateExtents (seg_ZeroExtents segment) maxBlocks) ||
                   negb (extentsContain (seg_Extents segment) (seg_ZeroExtents segment))) (Errorf "segment %d has invalid zero extents");
      _ ← fail_if (MaxUint64 - blocks <? total) (Errorf "segment block count overflows");
      generation_extents maxBlocks rest (extents ++ seg_Extents segment) (total + blocks)
  end.

Definition check_generation (maxBlocks : Z) (segments : list Segment) : result unit :=
  '(extents, total) ← generation_extents maxBlocks segments [] 0;
  match validateExtents (unionExtents [] extents) maxBlocks with
  | Ok covered => fail_if (negb (covered =? total)) (Errorf "segments overlap within generation")
  | Err _ => Err (Errorf "segments overlap within generation")
  end.

Definition sameSegmentReference (ref : ObjectRef) (segment : Segment) : bool :=
  bool_decide (ref_SHA256 ref = seg_SHA256 segment) && (ref_Bytes ref =? seg_Bytes segment) && (ref_Blocks ref =? seg_Blocks segment) &&
  bool_decide (ref_Extents ref = seg_Extents segment) && bool_decide (ref_ZeroExtents ref = seg_ZeroExtents segment).

Fixpoint same_references (refs : list ObjectRef) (segments : list Segment) : bool :=
  match refs, segments with
  | [], [] => true
  | ref :: refs, segment :: segments => sameSegmentReference ref segment && same_references refs segments
  | _, _ => false
  end.

Definition consumeAdoptedPublishLocked (segments : list Segment) (l : Lease) : option Lease :=
  match ls_adopted l with
  | Some adopted =>
      if bool_decide (mf_Kind adopted = "delta") && (mf_Generation adopted =? st_Generation (ls_state l)) &&
         (mf_Epoch adopted =? st_Epoch (ls_state l)) && same_references (mf_Segments adopted) segments
      then Some (with_adopted None l) else None
  | None => None
  end.

Definition next_manifest (snapshot : State) (kind : string) (refs : list ObjectRef) (created : Z) : Manifest :=
  mkManifest Format (st_ID snapshot) (u64 (st_Generation snapshot + 1)) (st_Epoch snapshot) kind (st_Manifest snapshot) refs created.

Definition Publish (schedule : list upload → list upload) (segments : list Segment) w : World * result unit :=
  if bool_decide (segments = []) then (w, Err (Errorf "cannot publish an empty generation")) else
  if negb (forallb segment_matches segments) then (w, Err (Errorf "segment %d metadata does not match its data")) else
  match resolvePending w with
  | (w, Err e) => (w, Err e)
  | (w, Ok _) =>
      let l := w_lease w in
      if not_held l then (w, Err ErrLeaseLost) else
      match consumeAdoptedPublishLocked segments l with
      | Some l => (renewLocked TTL (on_lease (fun _ => l) w), Ok tt)
      | None =>
          let snapshot := ls_state l in
          match check_generation (u64 (st_Size snapshot `quot` st_BlockSize snapshot)) segments with
          | Err e => (w, Err e)
          | Ok _ =>
              let '(w, t) := now w in
              match prepareManifest snapshot (next_manifest snapshot "delta" (segmentReference snapshot <$> segments) t) with
              | Err e => (w, Err e)
              | Ok prepared => publishPrepared schedule snapshot prepared segments None false w
              end
          end
      end
  end.

(** [PublishCheckpoint]; [fetched] are the answers of the store to the reads of
    the restore plan, [fuel] the bound of the walk over bundles. *)
Definition PublishCheckpoint (fetched : string → result bytes) (fuel : nat) (schedule : list upload → list upload) w : World * result unit :=
  let l := w_lease w in
  if not_held l then (w, Err ErrLeaseLost) else
  let snapshot := ls_state l in
  match (if ls_planKnown l then Ok (ls_plan l) else restorePlan fetched fuel snapshot) with
  | Err e => (w, Err e)
  | Ok refs =>
      match prepareManifestBundle snapshot with
      | Err e => (w, Err e)
      | Ok bundle =>
          let refs := match bundle with Some b => attachBundleToRefs refs b | None => refs end in
          let refs := checkpointReadyRefs refs in
          let '(w, t) := now w in
          match prepareManifest snapshot (next_manifest snapshot "checkpoint" refs t) with
          | Err e => (w, Err e)
          | Ok prepared => publishPrepared schedule snapshot prepared [] bundle true w
          end
      end
  end.
End publish.
