(* ===== verification/Volumes.v ===== *)
(** * Volumes ([internal/replica/remote.go]: the operations of [Remote])

    Acquiring, breaking, listing, restoring and deleting volumes. *)
From stdpp Require Import pretty.
From S2P Require Import Prelude Extents Codec File Segment Types Store Head Manifest Plan Lease Publish.
Local Open Scope Z_scope.

(** [validVolumeName]: a letter or digit, then letters, digits, [_], [.], [-]. *)
Definition alphanumeric (c : Ascii.ascii) : bool :=
  let z := Z.of_N (Ascii.N_of_ascii c) in
  ((97 <=? z) && (z <=? 122)) || ((65 <=? z) && (z <=? 90)) || ((48 <=? z) && (z <=? 57)).

Definition name_char (c : Ascii.ascii) : bool :=
  let z := Z.of_N (Ascii.N_of_ascii c) in alphanumeric c || (z =? 95) || (z =? 46) || (z =? 45).

Fixpoint all_chars (f : Ascii.ascii → bool) (s : string) : bool :=
  match s with EmptyString => true | String c t => f c && all_chars f t end.

Definition validVolumeName (name : string) : bool :=
  match name with EmptyString => false | String c t => alphanumeric c && all_chars name_char t end.

(** [strings.Cut(s, "/")] *)
Fixpoint cut_slash (s : string) : option (string * string) :=
  match s with
  | EmptyString => None
  | String c t =>
      if Ascii.eqb c (Ascii.ascii_of_nat 47) then Some (EmptyString, t)
      else '(before, after) ← cut_slash t; Some (String c before, after)
  end.

Definition headVolumeName (key : string) : option string :=
  rest ← CutPrefix key "volumes/";
  '(name, tail) ← cut_slash rest;
  if validVolumeName name && (bool_decide (tail = "state.json") || HasPrefix tail "heads/") then Some name else None.

Record CreateOptions : Type := mkCreateOptions { co_Size : Z; co_Filesystem : string }.

Section volumes.
Context {S : Type} `{Store S} `{VolumeHead S} `{Digest} `{Gzip} `{Json State} `{Json Manifest} `{Json manifestBundle}.
Context (TTL : Z).
Implicit Types w : World (S := S).

Definition Inspect (name : string) w : World * result (State * string) :=
  match call_unlocked (readHeadBody name) w with
  | (w, Err e) => (w, Err e)
  | (w, Ok (body, cursor)) =>
      (w, state ← wrap_err "decode volume state" (Unmarshal body);
          _ ← validateState name state;
          Ok (state, cursor))
  end.

(** The document a new volume starts from; [id] is a fresh UUID. *)
Definition new_volume (name id : string) (opts : CreateOptions) : State :=
  mkState Format id name (co_Size opts) DefaultBlockSize
    (if bool_decide (co_Filesystem opts = EmptyString) then "ext4" else co_Filesystem opts) 0 EmptyString ∅ None 0 0 false None.

(** The checks of [Acquire] on what [Inspect] returned: the state to start
    from, its cursor and whether the volume is new. *)
Definition acquire_base (name id : string) (opts : CreateOptions) (t : Z) (inspected : result (State * string)) : result (State * string * bool) :=
  match inspected with
  | Err e =>
      if errors_Is e ErrNotFound then
        _ ← fail_if ((co_Size opts <=? 0) || negb (co_Size opts `rem` DefaultBlockSize =? 0))
              (Errorf "new volume size must be a positive multiple of %d");
        Ok (new_volume name id opts, EmptyString, true)
      else Err e
  | Ok (state, etag) =>
      _ ← fail_if (st_Deleting state) (Errorf "volume %s is being deleted");
      _ ← match st_Lease state with
          | Some record => fail_if (time_After (ExpiresAt record) t) (ErrHeld (Holder record) (ExpiresAt record))
          | None => Ok tt
          end;
      _ ← fail_if ((0 <? co_Size opts) && negb (co_Size opts =? st_Size state)) (Errorf "volume %s has size %d, requested %d");
      _ ← fail_if (negb (bool_decide (co_Filesystem opts = EmptyString)) && negb (bool_decide (co_Filesystem opts = st_Filesystem state)))
            (Errorf "volume %s uses %s, requested %s");
      Ok (state, etag, false)
  end.

(** The document with the new lease. *)
Definition acquired (holder token : string) (t : Z) (state : State) : State :=
  let epoch := u64 (st_Epoch state + 1) in
  set_lease (Some (mkLeaseRecord holder token epoch (t + ttl TTL) t)) (set_epoch epoch state).

Definition new_lease (state : State) (etag : string) : Lease :=
  mkLease state etag false [] (st_Generation state =? 0) None None EmptyString None None 0.

(** [Acquire]; [id] and [token] are fresh UUIDs. *)
Definition Acquire (name holder id token : string) (opts : CreateOptions) w : World * result (Lease * bool) :=
  if negb (validVolumeName name) then (w, Err (Errorf "invalid volume name %q")) else
  let '(w, t) := now w in
  let '(w, inspected) := Inspect name w in
  match acquire_base name id opts t inspected with
  | Err e => (w, Err e)
  | Ok (base, etag, created) =>
      let state := acquired holder token t base in
      match Marshal state with
      | Err e => (w, Err e)
      | Ok body =>
          let '(w, committed) := call_unlocked (fun s => head_commit s name body etag state) w in
          let '(w, committed) :=
            match committed with
            | Ok etag => (w, Ok etag)
            | Err e =>
                match call_unlocked (readHeadBody name) w with
                | (w, Ok (currentBody, currentCursor)) => (w, if bytes_Equal currentBody body then Ok currentCursor else Err e)
                | (w, Err _) => (w, Err e)
                end
            end in
          match committed with
          | Ok etag => (w, Ok (startManifestBundleArchive (new_lease state etag), created))
          | Err e => (w, Err (if errors_Is e ErrPreconditionFailed then Wrap "acquire %s" ErrLeaseLost else e))
          end
      end
  end.

Definition Break (name expectedToken : string) w : World * result unit :=
  match Inspect name w with
  | (w, Err e) => (w, Err e)
  | (w, Ok (state, etag)) =>
      match st_Lease state with
      | None => (w, Ok tt)
      | Some record =>
          if negb (bool_decide (expectedToken = EmptyString)) && negb (bool_decide (Token record = expectedToken))
          then (w, Err (Wrap "lease holder changed while awaiting confirmation" ErrLeaseLost)) else
          let state := set_epoch (u64 (st_Epoch state + 1)) (set_lease None state) in
          match Marshal state with
          | Err e => (w, Err e)
          | Ok body =>
              match call_unlocked (fun s => head_commit s name body etag state) w with
              | (w, Ok _) => (w, Ok tt)
              | (w, Err e) => (w, Err (if errors_Is e ErrPreconditionFailed then Wrap "lease changed while breaking it" ErrLeaseLost else e))
              end
          end
      end
  end.

(** ** [Delete] *)

(** The objects of the volume, apart from its head. *)
Fixpoint delete_objects (name : string) (keys : list string) w : World * option error :=
  match keys with
  | [] => (w, None)
  | key :: rest =>
      if head_owns name key then delete_objects name rest w else
      match call_unlocked (fun s => let '(s, e) := store_Delete s key in (s, match e with Some e => Err e | None => Ok tt end)) w with
      | (w, Err e) => (w, Some e)
      | (w, Ok _) => delete_objects name rest w
      end
  end.

Definition deleted_state (state : State) : State :=
  set_epoch (u64 (st_Epoch state + 1)) (set_lease None (set_deleting state)).

(** [Delete] once the lease is out of the way. *)
Definition delete_volume (name : string) (state : State) (etag : string) w : World * result unit :=
  let state := deleted_state state in
  match Marshal state with
  | Err e => (w, Err e)
  | Ok body =>
      let '(w, committed) := call_unlocked (fun s => head_commit s name body etag state) w in
      let '(w, failed) :=
        match committed with
        | Ok _ => (w, None)
        | Err e =>
            match call_unlocked (readHeadBody name) w with
            | (w, Ok (currentBody, _)) => (w, if bytes_Equal currentBody body then None else Some e)
            | (w, Err _) => (w, Some e)
            end
        end in
      match failed with
      | Some e => (w, Err e)
      | None =>
          match call_unlocked (fun s => (s, store_List s (VolumePrefix name))) w with
          | (w, Err e) => (w, Err e)
          | (w, Ok keys) =>
              match delete_objects name keys w with
              | (w, Some e) => (w, Err e)
              | (w, None) =>
                  call_unlocked (fun s => let '(s, e) := head_remove s name in (s, match e with Some e => Err e | None => Ok tt end)) w
              end
          end
      end
  end.

Definition Delete (name : string) w : World * result unit :=
  match Inspect name w with
  | (w, Err e) => (w, Err e)
  | (w, Ok (state, etag)) =>
      match st_Lease state with
      | Some record =>
          let '(w, t) := now w in
          if time_After (ExpiresAt record) t then (w, Err (ErrHeld (Holder record) (ExpiresAt record))) else delete_volume name state etag w
      | None => delete_volume name state etag w
      end
  end.

(** ** Listing *)

Definition Exists (name : string) w : World * result bool :=
  match Inspect name w with
  | (w, Ok _) => (w, Ok true)
  | (w, Err e) => (w, if errors_Is e ErrNotFound then Ok false else Err e)
  end.

Fixpoint list_volumes (mode : HeadMode) (keys : list string) (seen : gset string) w : World * result (list State) :=
  match keys with
  | [] => (w, Ok [])
  | key :: rest =>
      match headVolumeName key with
      | None => list_volumes mode rest seen w
      | Some name =>
          if bool_decide (name ∈ seen) then list_volumes mode rest seen w else
          if bool_decide (mode = ConditionalHead) && HasPrefix key (HeadPrefix name) then (w, Err foreignHeadError) else
          let '(w, inspected) := Inspect name w in
          match inspected with
          | Ok (state, _) =>
              let '(w, states) := list_volumes mode rest ({[name]} ∪ seen) w in
              (w, states ← states; Ok (state :: states))
          | Err e => if errors_Is e ErrNotFound then list_volumes mode rest ({[name]} ∪ seen) w else (w, Err e)
          end
      end
  end.

Definition ListVolumes (mode : HeadMode) w : World * result (list State) :=
  match call_unlocked (fun s => (s, store_List s "volumes/")) w with
  | (w, Err e) => (w, Err e)
  | (w, Ok keys) => list_volumes mode keys ∅ w
  end.

Definition in_family (base : string) (state : State) : bool :=
  bool_decide (st_Name state = base) || HasPrefix (st_Name state) (base +:+ ".r-").

Fixpoint delete_all (states : list State) w : World * result unit :=
  match states with
  | [] => (w, Ok tt)
  | state :: rest =>
      match Delete (st_Name state) w with
      | (w, Err e) => (w, Err e)
      | (w, Ok _) => delete_all rest w
      end
  end.

Definition DeleteFamily (mode : HeadMode) (base : string) w : World * result unit :=
  match ListVolumes mode w with
  | (w, Err e) => (w, Err e)
  | (w, Ok states) => delete_all (List.filter (in_family base) states) w
  end.

(** ** [RestoreWithOptions]

    [fetched] are the answers of the store to the reads of the restore. *)
Definition restore_target (fetched : string → result bytes) (fuel : nat) (opts : RestoreOptions) (state : State) : result State :=
  _ ← fail_if (negb (opt_Generation opts =? 0) && negb (time_IsZero (opt_Timestamp opts)))
        (Errorf "generation and timestamp are mutually exclusive");
  if negb (opt_Generation opts =? 0) || negb (time_IsZero (opt_Timestamp opts)) then
    entry ← selectHistory fetched fuel state opts;
    let generation := mf_Generation (e_manifest entry) in
    Ok (set_generation generation (e_key entry) (if generation <? st_Checkpoint state then 0 else st_Checkpoint state) state)
  else Ok state.

Definition RestoreWithOptions (fetched : string → result bytes) (fuel : nat) (created : result (list IOutcome))
    (schedule : list ObjectRef → list ObjectRef) (name : string) (opts : RestoreOptions) w : World * result (State * result (File * option error)) :=
  match Inspect name w with
  | (w, Err e) => (w, Err e)
  | (w, Ok (state, _)) =>
      (w, state ← restore_target fetched fuel opts state; Ok (state, RestoreState fetched fuel created schedule state))
  end.
End volumes.
