(* ===== verification/History.v ===== *)
(** * The history of a volume

    The abstract machine behind a volume head: one document that changes by
    named transitions.  Its label is the manifest that a transition publishes.
    The history of a head is a chain: every published manifest names the one
    before it, and nothing published is ever dropped. *)
From S2P Require Import Prelude Extents Codec Segment Types Manifest Lease Volumes.
Local Open Scope Z_scope.

Section history.
Context `{Digest} `{Json Manifest}.

(** What no transition changes. *)
Definition same_volume (a b : State) : Prop :=
  st_Format a = st_Format b ∧ st_ID a = st_ID b ∧ st_Name a = st_Name b ∧ st_Size a = st_Size b ∧ st_BlockSize a = st_BlockSize b ∧
  st_Filesystem a = st_Filesystem b.

Definition same_history (a b : State) : Prop :=
  same_volume a b ∧ st_Generation a = st_Generation b ∧ st_Manifest a = st_Manifest b ∧ st_Checkpoint a = st_Checkpoint b.

(** The same holder goes on holding the lease. *)
Definition keeps_lease (a b : State) : Prop :=
  st_Epoch a = st_Epoch b ∧ st_Deleting a = st_Deleting b ∧
  ∃ r r', st_Lease a = Some r ∧ st_Lease b = Some r' ∧ Token r = Token r' ∧ Holder r = Holder r' ∧ lease_Epoch r = lease_Epoch r'.

(** [new] publishes the manifest [m] with the bytes [body] on top of [old]. *)
Definition publishes (old new : State) (m : Manifest) (body : bytes) : Prop :=
  same_volume old new ∧ Marshal m = Ok body ∧ st_Manifest new = manifest_key (st_Name old) body ∧ st_Generation new = mf_Generation m ∧
  mf_Generation m = u64 (st_Generation old + 1) ∧ mf_Parent m = st_Manifest old ∧ mf_VolumeID m = st_ID old ∧ mf_Epoch m = st_Epoch old ∧
  st_Checkpoint new = (if bool_decide (mf_Kind m = "checkpoint") then mf_Generation m else st_Checkpoint old).

Inductive volume_step : option State → list (Manifest * bytes) → option State → Prop :=
  | vs_create st :
      st_Generation st = 0 → st_Manifest st = EmptyString → st_Epoch st = 1 → st_Deleting st = false → is_Some (st_Lease st) →
      volume_step None [] (Some st)
  | vs_acquire old new r :
      same_history old new → st_Deleting old = false → st_Deleting new = false → st_Epoch new = u64 (st_Epoch old + 1) →
      st_Lease new = Some r → lease_Epoch r = st_Epoch new → (∀ r0, st_Lease old = Some r0 → ExpiresAt r0 ≤ MountedAt r) →
      volume_step (Some old) [] (Some new)
  | vs_keep old new : same_history old new → keeps_lease old new → volume_step (Some old) [] (Some new)
  | vs_publish old new m body : publishes old new m body → keeps_lease old new → volume_step (Some old) [(m, body)] (Some new)
  | vs_release old new :
      same_history old new → is_Some (st_Lease old) → st_Lease new = None → st_Epoch new = st_Epoch old → st_Deleting new = st_Deleting old →
      volume_step (Some old) [] (Some new)
  | vs_break old new :
      same_history old new → is_Some (st_Lease old) → st_Lease new = None → st_Epoch new = u64 (st_Epoch old + 1) → st_Deleting new = st_Deleting old →
      volume_step (Some old) [] (Some new)
  | vs_delete old new :
      same_history old new → st_Lease new = None → st_Epoch new = u64 (st_Epoch old + 1) → st_Deleting new = true →
      volume_step (Some old) [] (Some new).

(** Runs of the machine; the published manifests, newest first. *)
Inductive volume_run : option State → list (Manifest * bytes) → option State → Prop :=
  | vr_nil a : volume_run a [] a
  | vr_snoc a ms b new c : volume_run a ms b → volume_step b new c → volume_run a (new ++ ms) c.

Definition descends (a b : option State) : Prop := ∃ ms, volume_run a ms b.

Lemma volume_run_trans a ms b ns c : volume_run a ms b → volume_run b ns c → volume_run a (ns ++ ms) c.
Proof.
  intros Hab Hbc. revert a ms Hab. induction Hbc as [b|b ns c new d _ IH Hstep]; intros a ms Hab; [done|].
  rewrite <-app_assoc. eapply vr_snoc; [by apply IH|done].
Qed.

#[export] Instance descends_preorder : PreOrder descends.
Proof.
  split; [intros a; exists []; constructor|]. intros a b c [ms Hab] [ns Hbc]. exists (ns ++ ms). by eapply volume_run_trans.
Qed.

Lemma descends_step a ms b : volume_step a ms b → descends a b.
Proof. intros Hs. exists (ms ++ []). by eapply vr_snoc; [constructor|]. Qed.

(** ** The chain of manifests *)

(** [ms] leads from the manifest [key] of generation [g] down to [key0], [g0]. *)
Fixpoint linked (name : string) (ms : list (Manifest * bytes)) (key : string) (g : Z) (key0 : string) (g0 : Z) : Prop :=
  match ms with
  | [] => key = key0 ∧ g = g0
  | (m, body) :: rest =>
      key = manifest_key name body ∧ Marshal m = Ok body ∧ mf_Generation m = g ∧
      ∃ below, g = u64 (below + 1) ∧ linked name rest (mf_Parent m) below key0 g0
  end.

Lemma same_volume_trans a b c : same_volume a b → same_volume b c → same_volume a c.
Proof. unfold same_volume. naive_solver congruence. Qed.

Lemma same_volume_refl a : same_volume a a.
Proof. done. Qed.

Lemma volume_step_some a ms c : volume_step (Some a) ms c → ∃ b, c = Some b.
Proof. inversion 1; eauto. Qed.

Lemma volume_step_linked a ms b :
  volume_step (Some a) ms (Some b) →
  same_volume a b ∧ linked (st_Name a) ms (st_Manifest b) (st_Generation b) (st_Manifest a) (st_Generation a).
Proof.
  intros Hs. inversion Hs as [|? ? ? Hh|? ? Hh|? ? m body Hp|? ? Hh|? ? Hh|? ? Hh]; subst;
    try (destruct Hh as (Hv & Hg & Hm & _); split; [done|]; by split).
  destruct Hp as (Hv & Hb & Hm & Hg & Hn & Hpar & _). split; [done|]. cbn [linked]. do 2 (split; [done|]).
  split; [done|]. exists (st_Generation a). split; [congruence|]. by split.
Qed.

Lemma linked_app name ms ns k g k1 g1 k0 g0 :
  linked name ns k g k1 g1 → linked name ms k1 g1 k0 g0 → linked name (ns ++ ms) k g k0 g0.
Proof.
  revert k g. induction ns as [|[m body] ns IH]; intros k g; cbn [linked app]; [by intros [-> ->]|].
  intros (Hk & Hm & Hg & below & Hb & Hrest) Hms. do 3 (split; [done|]). exists below. split; [done|]. by apply IH.
Qed.

Lemma volume_run_linked_from o ms c :
  volume_run o ms c → ∀ a, o = Some a → ∃ b, c = Some b ∧ same_volume a b ∧
    linked (st_Name a) ms (st_Manifest b) (st_Generation b) (st_Manifest a) (st_Generation a).
Proof.
  induction 1 as [o|o ms c new d _ IH Hstep]; intros a ->; [exists a; by repeat split|].
  destruct (IH a eq_refl) as (b & -> & Hv & Hl). destruct (volume_step_some _ _ _ Hstep) as [b' ->].
  apply volume_step_linked in Hstep as [Hv' Hl']. exists b'. split; [done|]. split; [by eapply same_volume_trans|].
  eapply linked_app; [|exact Hl]. destruct Hv as (_ & _ & -> & _). done.
Qed.

(** A later head reaches an earlier one through the manifests published in
    between, each naming its predecessor. *)
Lemma volume_run_linked a ms b :
  volume_run (Some a) ms (Some b) →
  same_volume a b ∧ linked (st_Name a) ms (st_Manifest b) (st_Generation b) (st_Manifest a) (st_Generation a).
Proof. intros Hr. destruct (volume_run_linked_from _ _ _ Hr a eq_refl) as (b' & [= <-] & ?). done. Qed.

Lemma linked_generation name ms k g k0 g0 :
  linked name ms k g k0 g0 → is_u64 g0 → g = u64 (g0 + Z.of_nat (length ms)).
Proof.
  revert k g. induction ms as [|[m body] ms IH]; intros k g; cbn [linked length].
  - intros [_ ->] Hg. rewrite Z.add_0_r, u64_small by done. done.
  - intros (_ & _ & _ & below & -> & Hl) Hg. rewrite (IH _ _ Hl Hg). unfold u64.
    rewrite Zplus_mod_idemp_l. f_equal. lia.
Qed.
End history.
