(* ===== verification/LeaseProps.v ===== *)
(** * Leases follow the history of their volume

    Against any head that satisfies [HeadLaws]: whatever faults and other nodes
    do, each operation of a lease moves the head along the abstract machine of
    [History], and the lease's own state stays a version of the head. *)
From S2P Require Import Prelude Extents Codec Segment Types Store Head Manifest Plan Lease Publish Volumes History.
Local Open Scope Z_scope.

(** ** What a lease relies on *)

(** [head_at] is the current document and its cursor; [version s n c b] says
    that the cursor [c] stood for the document [b] at some time up to [s]. *)
Class HeadLaws (S : Type) `{Store S} `{VolumeHead S} : Type := {
  head_ok : S → Prop;
  head_at : S → string → option (bytes * string);
  version : S → string → string → bytes → Prop;
  version_nonempty s n c b : head_ok s → version s n c b → c ≠ EmptyString;
  version_unique s n c b1 b2 : head_ok s → version s n c b1 → version s n c b2 → b1 = b2;
  version_current s n b c : head_ok s → head_at s n = Some (b, c) → version s n c b;
  head_read_law s n s' r : head_ok s → head_read s n = (s', r) →
    head_ok s' ∧ head_at s' n = head_at s n ∧ (∀ c b, version s n c b → version s' n c b) ∧
    ∀ x, r = Ok x → head_at s n = Some x;
  head_commit_law s n b prev st s' r : head_ok s → head_commit s n b prev st = (s', r) →
    head_ok s' ∧ (∀ c x, version s n c x → version s' n c x) ∧
    match r with
    | Ok c => head_at s' n = Some (b, c) ∧
        (if bool_decide (prev = EmptyString) then head_at s n = None else ∃ old, head_at s n = Some (old, prev))
    | Err _ => head_at s' n = head_at s n
    end;
  head_frame s n k d : head_ok s → head_owns n k = false →
    let s' := (store_PutIfAbsent s k d).1 in
    head_ok s' ∧ head_at s' n = head_at s n ∧ ∀ c b, version s n c b → version s' n c b;
}.

(** The conditional head over a store that honours preconditions. *)
#[export, refine] Instance conditional_laws {S} `{ConditionalStore S} : HeadLaws S := {
  head_ok s := store_inv s ∧ honours s;
  head_at s n := (fun o => (obj_Data o, obj_ETag o)) <$> objects s !! StateKey n;
  version s n c b := tagged s (StateKey n) c b;
}.
Proof.
  - intros s n c b [Hi _] Ht. by eapply tagged_nonempty.
  - intros s n c b1 b2 [Hi _] Ha Hb. by eapply tagged_unique.
  - intros s n b c [Hi _] Ho. apply fmap_Some in Ho as (o & Ho & [= -> ->]). by apply tagged_current.
  - intros s n s' r [Hi Hh] Hr. cbn [head_read conditionalHead] in Hr. injection Hr as <- <-. do 3 (split; [done|]).
    intros x. unfold ch_read. rewrite get_law by done. destruct (objects s !! StateKey n); cbn; [by intros [= <-]|done].
  - intros s n b prev st s' r [Hi Hh] Hc. cbn [head_commit conditionalHead] in Hc. revert Hc. unfold ch_commit.
    destruct (bool_decide (prev = EmptyString)) eqn:Hp.
    + assert (store_PutIfAbsent s (StateKey n) b = (s', r) →
        (store_inv s' ∧ honours s') ∧ (∀ c x, tagged s (StateKey n) c x → tagged s' (StateKey n) c x) ∧
        match r with
        | Ok c => (fun o => (obj_Data o, obj_ETag o)) <$> objects s' !! StateKey n = Some (b, c) ∧
            (fun o => (obj_Data o, obj_ETag o)) <$> objects s !! StateKey n = None
        | Err _ => (fun o => (obj_Data o, obj_ETag o)) <$> objects s' !! StateKey n = (fun o => (obj_Data o, obj_ETag o)) <$> objects s !! StateKey n
        end) as Hput.
      { intros Hput. destruct (putIfAbsent_law _ _ _ _ _ Hi Hh Hput) as (Hi' & Hh' & Ht & Hr). split; [done|]. split; [by intros; apply Ht|].
        destruct (objects s !! StateKey n) eqn:Ho; [destruct Hr as [-> ->]; by rewrite Ho|]. destruct Hr as (e & -> & ->). by rewrite lookup_insert_eq. }
      destruct (list_law s (HeadPrefix n) Hi) as (keys & -> & _). destruct keys; [exact Hput|]. by intros [= <- <-].
    + intros Hput. destruct (putIfMatch_law _ _ _ _ _ _ Hi Hh Hput) as (Hi' & Hh' & Ht & Hr). split; [done|]. split; [by intros; apply Ht|].
      destruct (objects s !! StateKey n) as [o|] eqn:Ho; [|destruct Hr as [-> ->]; by rewrite Ho].
      case_bool_decide as He; [|destruct Hr as [-> ->]; by rewrite Ho].
      destruct Hr as (e & -> & ->). rewrite lookup_insert_eq. split; [done|]. exists (obj_Data o). by rewrite <-He.
  - intros s n k d [Hi Hh] Ho. cbn [head_owns conditionalHead] in Ho. unfold ch_owns in Ho. apply bool_decide_eq_false in Ho.
    destruct (store_PutIfAbsent s k d) as [s' r] eqn:Hput. destruct (putIfAbsent_law _ _ _ _ _ Hi Hh Hput) as (Hi' & Hh' & Ht & Hr).
    cbn [fst]. split; [done|]. split; [|by intros; apply Ht].
    destruct (objects s !! k); [by destruct Hr as [-> _]|]. destruct Hr as (e & _ & ->). by rewrite lookup_insert_ne.
Defined.

Section leases.
Context {S : Type} `{HeadLaws S} `{Digest} `{Json State} `{Json Manifest} `{Json manifestBundle}.
Context (TTL : Z) (name : string).
(** [encoding/json] gives a state document back as it was written. *)
Context (state_round_trip : ∀ (st : State) b, Marshal st = Ok b → Unmarshal b = Ok st).
(** The head is none of the immutable objects. *)
Context (not_head : ∀ k, isImmutableObject (VolumePrefix name) k = true → head_owns name k = false).
Implicit Types (s : S) (l : Lease) (w : World (S := S)).

(** ** Invariants *)

(** The document of the head. *)
Definition vol s : option State :=
  '(b, _) ← head_at s name; match Unmarshal b with Ok st => Some st | Err _ => None end.

Definition store_ok s : Prop :=
  head_ok s ∧ ∀ b c, head_at s name = Some (b, c) → ∃ st, Marshal st = Ok b ∧ st_Name st = name.

(** What may happen to the store: the head moves along its history. *)
Definition rel s s' : Prop :=
  store_ok s' ∧ descends (vol s) (vol s') ∧ ∀ c b, version s name c b → version s' name c b.

Definition published_in (st : State) (m : Manifest) : Prop :=
  ∃ body, Marshal m = Ok body ∧ st_Manifest st = manifest_key name body ∧ st_Generation st = mf_Generation m.

Definition pending_ok l (pc : pendingCommit) : Prop :=
  Marshal (pc_candidate pc) = Ok (pc_body pc) ∧ same_volume (ls_state l) (pc_candidate pc) ∧ pc_id pc < ls_allocated l ∧
  match pc_prepared pc with
  | Some prepared => published_in (pc_candidate pc) (pm_manifest prepared)
  | None => ∀ m, ls_adopted l = Some m → published_in (pc_candidate pc) m
  end.

(** The cursor of a lease stands for its state, and the head descends from it. *)
Definition head_of s l : Prop :=
  ∃ b, Marshal (ls_state l) = Ok b ∧ version s name (ls_etag l) b ∧ descends (Some (ls_state l)) (vol s).

(** Bundles waiting to be uploaded are not the head; ready ones are uploaded. *)
Definition bundles_ok l : Prop :=
  (∀ b, ls_archiving l = Some b → head_owns name (bref_Key (pb_ref b)) = false) ∧
  (∀ b, ls_readyBundle l = Some b → pb_uploaded b = true).

Definition bundles_kept l l' : Prop :=
  ls_archiving l' = ls_archiving l ∧ (ls_readyBundle l' = ls_readyBundle l ∨ ls_readyBundle l' = None).

Definition lease_ok s l : Prop :=
  bundles_ok l ∧ st_Name (ls_state l) = name ∧ (ls_lost l = false → head_of s l) ∧
  (∀ m, ls_adopted l = Some m → published_in (ls_state l) m) ∧
  (∀ pc, ls_pending l = Some pc → pending_ok l pc).

(** What happens to a lease between two states of it. *)
Definition lease_rel l l' : Prop :=
  same_volume (ls_state l) (ls_state l') ∧ ls_allocated l ≤ ls_allocated l' ∧
  ∀ pc, ls_pending l' = Some pc → ls_pending l = Some pc ∨ ls_allocated l ≤ pc_id pc.

Definition event_ok (e : event (S := S)) : Prop :=
  (∀ s, store_ok s → rel s (ev_others e s)) ∧
  (∀ s l, store_ok s → lease_ok s l → ∀ s' l', ev_unlocked e (s, l) = (s', l') →
     rel s s' ∧ lease_ok s' l' ∧ lease_rel l l').

Definition world_ok w : Prop := store_ok (w_store w) ∧ lease_ok (w_store w) (w_lease w) ∧ Forall event_ok (w_events w).

(** A lease that is not lost was not lost before, and its state comes after. *)
Definition forward l l' : Prop :=
  ls_lost l' = false → ls_lost l = false ∧ descends (Some (ls_state l)) (Some (ls_state l')).

(** What the other goroutines of the node do to the lease moves it forward. *)
Definition event_forward (e : event (S := S)) : Prop :=
  ∀ s l s' l', store_ok s → lease_ok s l → ev_unlocked e (s, l) = (s', l') → forward l l'.

Definition moves_forward w w' : Prop :=
  Forall event_forward (w_events w) → forward (w_lease w) (w_lease w') ∧ Forall event_forward (w_events w').

(** What an operation may do to the world. *)
Definition moves w w' : Prop :=
  world_ok w' ∧ rel (w_store w) (w_store w') ∧ lease_rel (w_lease w) (w_lease w') ∧ moves_forward w w'.

(** [st] lies between the states of the lease at the start and at the end. *)
Definition in_turn w w' (st : State) : Prop :=
  Forall event_forward (w_events w) →
  ls_lost (w_lease w) = false ∧ descends (Some (ls_state (w_lease w))) (Some st) ∧
  (ls_lost (w_lease w') = false → descends (Some st) (Some (ls_state (w_lease w')))).

Lemma bundles_ok_kept l l' : bundles_kept l l' → bundles_ok l → bundles_ok l'.
Proof.
  intros [Ha Hr] [Hb1 Hb2]. split; [by rewrite Ha|]. intros b Hb. destruct Hr as [Heq|Heq]; rewrite Heq in Hb; [by apply Hb2|done].
Qed.

Lemma rel_refl s : store_ok s → rel s s.
Proof. intros Hs. by split. Qed.

Lemma rel_trans s1 s2 s3 : rel s1 s2 → rel s2 s3 → rel s1 s3.
Proof. intros (_ & Hd & Hv) (Hs & Hd' & Hv'). split; [done|]. split; [by etrans|]. eauto. Qed.

Lemma lease_rel_refl l : lease_rel l l.
Proof. split; [done|]. split; [lia|]. by left. Qed.

Lemma lease_rel_trans l1 l2 l3 : lease_rel l1 l2 → lease_rel l2 l3 → lease_rel l1 l3.
Proof.
  intros (Hv & Ha & Hp) (Hv' & Ha' & Hp'). split; [by eapply same_volume_trans|]. split; [lia|]. intros pc Hpc.
  destruct (Hp' pc Hpc) as [Hpc'|Hid]; [by apply Hp|right; lia].
Qed.

Lemma lease_rel_fields l l' :
  same_volume (ls_state l) (ls_state l') → ls_allocated l' = ls_allocated l → ls_pending l' = ls_pending l ∨ ls_pending l' = None → lease_rel l l'.
Proof. intros Hv Ha Hp. split; [done|]. split; [lia|]. intros pc Hpc. destruct Hp as [Heq|Heq]; rewrite Heq in Hpc; [by left|done]. Qed.

Hint Resolve lease_rel_refl : core.

Lemma forward_refl l : forward l l.
Proof. by split. Qed.

Lemma forward_trans l1 l2 l3 : forward l1 l2 → forward l2 l3 → forward l1 l3.
Proof. intros H12 H23 Hl. destruct (H23 Hl) as [Hl2 Hd]. destruct (H12 Hl2) as [Hl1 Hd']. split; [done|]. by etrans. Qed.

Lemma forward_same l l' : ls_state l' = ls_state l → ls_lost l' = ls_lost l → forward l l'.
Proof. intros Hs Hl Hf. rewrite Hs. split; [by rewrite <-Hl|done]. Qed.

Hint Resolve forward_refl : core.

Lemma moves_refl w : world_ok w → moves w w.
Proof. intros Hw. split; [done|]. split; [apply rel_refl, Hw|]. split; [done|]. intros He. by split. Qed.

Lemma moves_trans w1 w2 w3 : moves w1 w2 → moves w2 w3 → moves w1 w3.
Proof.
  intros (_ & Hr & Hv & Hf) (Hw & Hr' & Hv' & Hf'). split; [done|]. split; [by eapply rel_trans|]. split; [by eapply lease_rel_trans|].
  intros He. destruct (Hf He) as [Hf1 He1]. destruct (Hf' He1) as [Hf2 He2]. split; [by eapply forward_trans|done].
Qed.

Lemma in_turn_before w w1 w' st : moves w w1 → in_turn w1 w' st → in_turn w w' st.
Proof.
  intros (_ & _ & _ & Hf) Hin He. destruct (Hf He) as [Hfw He1]. destruct (Hin He1) as (Hl1 & Hd & Hend).
  destruct (Hfw Hl1) as [Hl Hd0]. split; [done|]. split; [by etrans|done].
Qed.

(** The state that the lease has now. *)
Lemma in_turn_here w w' : ls_lost (w_lease w) = false → moves w w' → in_turn w w' (ls_state (w_lease w)).
Proof. intros Hl (_ & _ & _ & Hf) He. destruct (Hf He) as [Hfw _]. do 2 (split; [done|]). intros Hl'. by apply Hfw. Qed.

Lemma in_turn_after w w1 w' st : moves w w1 → moves w1 w' → in_turn w w1 st → in_turn w w' st.
Proof.
  intros (_ & _ & _ & Hf) (_ & _ & _ & Hf') Hin He. destruct (Hin He) as (Hl & Hd & Hend). do 2 (split; [done|]).
  intros Hl'. destruct (Hf He) as [_ He1]. destruct (Hf' He1) as [Hfw _]. destruct (Hfw Hl') as [Hl1 Hd']. etrans; [by apply Hend|done].
Qed.

Lemma lease_ok_rel s s' l : lease_ok s l → rel s s' → lease_ok s' l.
Proof.
  intros (Hbk & Hn & Hh & Ha & Hp) (_ & Hd & Hv). split; [done|]. split; [done|]. split; [|done]. intros Hl. destruct (Hh Hl) as (b & Hb & Hver & Hdesc).
  exists b. split; [done|]. split; [by apply Hv|by etrans].
Qed.

(** ** Calls to the store *)

(** The requests an operation makes change the head along its history. *)
Definition safe_op {A} s0 (op : S → S * result A) : Prop := ∀ s, rel s0 s → rel s (op s).1.

Lemma faulty_spec {A} f (op : S → S * result A) s s' r :
  store_ok s → rel s (op s).1 → faulty f op s = (s', r) → rel s s' ∧ ∀ a, r = Ok a → op s = (s', Ok a).
Proof.
  intros Hs Hop. destruct f; cbn [faulty]; intros Hr.
  - rewrite Hr in Hop. split; [done|]. by intros a ->.
  - injection Hr as <- <-. split; [by apply rel_refl|done].
  - injection Hr as <- <-. by split.
Qed.

Lemma call_spec {A} (op : S → S * result A) w w' r :
  world_ok w → safe_op (w_store w) op → call op w = (w', r) →
  moves w w' ∧ w_lease w' = w_lease w ∧ ∀ a, r = Ok a → ∃ s, rel (w_store w) s ∧ op s = (w_store w', Ok a).
Proof.
  intros (Hs & Hl & He) Hop. unfold call. destruct w as [s l evs clk t]. cbn [w_store w_lease w_events w_clock w_ticks] in *.
  pose proof (rel_refl s Hs) as Hrr. destruct evs as [|e evs].
  - destruct (op s) as [s1 r1] eqn:Hop1. intros [= <- <-]. pose proof (Hop s Hrr) as Hr. rewrite Hop1 in Hr. cbn [fst] in Hr.
    split; [|split; [done|intros a ->; by exists s]]. split; [|by split_and!]. split; [apply Hr|]. split; [by eapply lease_ok_rel|done].
  - apply Forall_cons in He as [[Hev _] He]. pose proof (Hev s Hs) as Hr1. destruct (faulty _ _ _) as [s1 r1] eqn:Hf. intros [= <- <-].
    destruct (faulty_spec _ _ _ _ _ (proj1 Hr1) (Hop _ Hr1) Hf) as [Hr2 Hok]. pose proof (rel_trans _ _ _ Hr1 Hr2) as Hr.
    split; [|split; [done|intros a Ha; eexists; split; [exact Hr1|by apply Hok]]].
    split; [|split_and!; [done|done|intros [_ ?]%Forall_cons; by split]]. split; [apply Hr|]. split; [by eapply lease_ok_rel|done].
Qed.

Lemma call_unlocked_spec {A} (op : S → S * result A) w w' r :
  world_ok w → safe_op (w_store w) op → call_unlocked op w = (w', r) →
  moves w w' ∧ ∀ a, r = Ok a → ∃ s, rel (w_store w) s ∧ op s = (w_store w', Ok a).
Proof.
  intros (Hs & Hl & He) Hop. unfold call_unlocked. destruct w as [s l evs clk t]. cbn [w_store w_lease w_events w_clock w_ticks] in *.
  pose proof (rel_refl s Hs) as Hrr. destruct evs as [|e evs].
  - destruct (op s) as [s1 r1] eqn:Hop1. intros [= <- <-]. pose proof (Hop s Hrr) as Hr. rewrite Hop1 in Hr. cbn [fst] in Hr.
    split; [|intros a ->; by exists s]. split; [|by split_and!]. split; [apply Hr|]. split; [by eapply lease_ok_rel|done].
  - apply Forall_cons in He as [[_ Hev] He]. destruct (ev_unlocked e (s, l)) as [s0 l0] eqn:Hu.
    destruct (Hev s l Hs Hl _ _ Hu) as (Hr1 & Hl1 & Hv). destruct (faulty _ _ _) as [s1 r1] eqn:Hf. intros [= <- <-].
    destruct (faulty_spec _ _ _ _ _ (proj1 Hr1) (Hop _ Hr1) Hf) as [Hr2 Hok]. pose proof (rel_trans _ _ _ Hr1 Hr2) as Hr.
    split; [|intros a Ha; eexists; split; [exact Hr1|by apply Hok]].
    split; [|split_and!; [done|done|intros [Hfw ?]%Forall_cons; split; [by eapply Hfw|done]]]. split; [apply Hr|]. split; [by eapply lease_ok_rel|done].
Qed.

Lemma vol_of s b c st : head_at s name = Some (b, c) → Marshal st = Ok b → vol s = Some st.
Proof. intros Hh Hm. unfold vol. rewrite Hh. cbn [mbind option_bind]. by rewrite (state_round_trip _ _ Hm). Qed.

Lemma rel_same s s' :
  store_ok s → head_ok s' → head_at s' name = head_at s name → (∀ c b, version s name c b → version s' name c b) → rel s s'.
Proof.
  intros [Hs Hd] Hs' Hh Hv. split; [split; [done|by rewrite Hh]|]. split; [|done]. unfold vol. by rewrite Hh.
Qed.

Lemma read_safe s0 : safe_op s0 (readHeadBody name).
Proof.
  intros s Hr. unfold readHeadBody. destruct (head_read s name) as [s' r] eqn:Hread.
  destruct (head_read_law _ _ _ _ (proj1 (proj1 Hr)) Hread) as (Hok & Hh & Hv & _). by apply rel_same; [apply Hr|..].
Qed.

(** What a read that answers has seen. *)
Lemma read_seen w w' b c :
  (∃ s, rel (w_store w) s ∧ readHeadBody name s = (w_store w', Ok (b, c))) → world_ok w' →
  head_at (w_store w') name = Some (b, c) ∧ version (w_store w') name c b.
Proof.
  intros (s & Hr & Hread) Hw. destruct (head_read_law _ _ _ _ (proj1 (proj1 Hr)) Hread) as (Hok & Hh & _ & Hx).
  rewrite (Hx _ eq_refl) in Hh. split; [done|]. by apply version_current.
Qed.

(** Replacing a version of the head by a successor of it. *)
Lemma replace_safe s0 st etag b ms candidate body :
  Marshal st = Ok b → version s0 name etag b → volume_step (Some st) ms (Some candidate) → Marshal candidate = Ok body → st_Name candidate = name →
  safe_op s0 (fun s => head_commit s name body etag candidate).
Proof.
  intros Hb Hver Hstep Hm Hname s (Hs & Hd & Hv). destruct (head_commit s name body etag candidate) as [s' r] eqn:Hc. cbn [fst].
  pose proof Hs as [Hok _]. destruct (head_commit_law _ _ _ _ _ _ _ Hok Hc) as (Hok' & Hv' & Hr). apply Hv in Hver.
  destruct r as [c|e]; [|by apply rel_same]. destruct Hr as [Hnew Hold].
  rewrite bool_decide_eq_false_2 in Hold by exact (version_nonempty _ _ _ _ Hok Hver). destruct Hold as [old Hold].
  assert (old = b) as -> by (eapply version_unique; [exact Hok| |exact Hver]; by eapply version_current).
  split; [split; [done|]; intros b' c' Hh; rewrite Hnew in Hh; injection Hh as <- <-; by exists candidate|].
  split; [|done]. rewrite (vol_of s b _ _ Hold Hb), (vol_of s' body _ _ Hnew Hm). by eapply descends_step.
Qed.

(** Creating the head. *)
Lemma create_safe s0 candidate body :
  volume_step None [] (Some candidate) → Marshal candidate = Ok body → st_Name candidate = name →
  safe_op s0 (fun s => head_commit s name body EmptyString candidate).
Proof.
  intros Hstep Hm Hname s (Hs & Hd & Hv). destruct (head_commit s name body EmptyString candidate) as [s' r] eqn:Hc. cbn [fst].
  pose proof Hs as [Hok _]. destruct (head_commit_law _ _ _ _ _ _ _ Hok Hc) as (Hok' & Hv' & Hr).
  destruct r as [c|e]; [|by apply rel_same]. destruct Hr as [Hnew Hold]. cbn in Hold.
  split; [split; [done|]; intros b' c' Hh; rewrite Hnew in Hh; injection Hh as <- <-; by exists candidate|].
  split; [|done]. rewrite (vol_of s' body _ _ Hnew Hm). unfold vol. rewrite Hold. by eapply descends_step.
Qed.

Lemma commit_safe s0 l ms candidate body :
  head_of s0 l → volume_step (Some (ls_state l)) ms (Some candidate) → Marshal candidate = Ok body → st_Name candidate = name →
  safe_op s0 (fun s => head_commit s name body (ls_etag l) candidate).
Proof. intros (b & Hb & Hver & _). by apply (replace_safe s0 (ls_state l) (ls_etag l) b). Qed.

(** What a commit that answers has done. *)
Lemma commit_seen w w' prev candidate body c :
  (∃ s, rel (w_store w) s ∧ head_commit s name body prev candidate = (w_store w', Ok c)) → Marshal candidate = Ok body →
  version (w_store w') name c body ∧ descends (Some candidate) (vol (w_store w')).
Proof.
  intros (s & Hr & Hcommit) Hm. destruct (head_commit_law _ _ _ _ _ _ _ (proj1 (proj1 Hr)) Hcommit) as (Hok' & _ & Hnew & _).
  split; [by apply version_current|]. by rewrite (vol_of _ _ _ _ Hnew Hm).
Qed.

Lemma commitState_spec w ms candidate body w' r :
  world_ok w → ls_lost (w_lease w) = false → volume_step (Some (ls_state (w_lease w))) ms (Some candidate) → Marshal candidate = Ok body →
  st_Name candidate = name → commitState body candidate w = (w', r) →
  moves w w' ∧ w_lease w' = w_lease w ∧
  ∀ etag, r = Ok etag → version (w_store w') name etag body ∧ descends (Some candidate) (vol (w_store w')).
Proof.
  intros Hw Hlost Hstep Hm Hname. pose proof Hw as (Hs & Hl & _). pose proof Hl as (_ & Hn & Hhead & _). unfold commitState. rewrite Hn.
  destruct (call _ w) as [w1 r1] eqn:Hc.
  destruct (call_spec _ _ _ _ Hw (commit_safe _ _ _ _ _ (Hhead Hlost) Hstep Hm Hname) Hc) as (Hmv & Hl1 & Hok).
  destruct r1 as [etag|e].
  - intros [= <- <-]. split; [done|]. split; [done|]. intros etag' [= <-]. eapply commit_seen; [by apply Hok|done].
  - destruct (call (readHeadBody name) w1) as [w2 r2] eqn:Hread.
    destruct (call_spec _ _ _ _ (proj1 Hmv) (read_safe _) Hread) as (Hmv2 & Hl2 & Hok2).
    pose proof (moves_trans _ _ _ Hmv Hmv2) as Hmoves. assert (w_lease w2 = w_lease w) as Hlw by congruence.
    destruct r2 as [[b c]|e2]; [|intros [= <- <-]; done]. unfold bytes_Equal. case_bool_decide as Hb; intros [= <- <-]; [|done].
    subst b. split; [done|]. split; [done|]. intros etag [= <-].
    destruct (read_seen w1 w2 body c (Hok2 _ eq_refl) (proj1 Hmv2)) as [Hat Hver]. split; [done|]. by rewrite (vol_of _ _ _ _ Hat Hm).
Qed.

(** ** Changes of the lease *)

Lemma on_lease_forward w f :
  world_ok w → lease_ok (w_store w) (f (w_lease w)) → lease_rel (w_lease w) (f (w_lease w)) → forward (w_lease w) (f (w_lease w)) →
  moves w (on_lease f w).
Proof. intros (Hs & Hl & He) Hl' Hv Hf. split; [done|]. split; [by apply rel_refl|]. split; [done|]. by split. Qed.

(** A change that leaves the state alone. *)
Lemma on_lease_moves w f :
  world_ok w → lease_ok (w_store w) (f (w_lease w)) → lease_rel (w_lease w) (f (w_lease w)) →
  ls_state (f (w_lease w)) = ls_state (w_lease w) → ls_lost (f (w_lease w)) = ls_lost (w_lease w) → moves w (on_lease f w).
Proof. intros Hw Hl Hv Hs Hlo. apply on_lease_forward; [done..|]. by apply forward_same. Qed.

(** A lease whose state has become the committed document [candidate]. *)
Lemma lease_ok_commit s l l' candidate body :
  lease_ok s l → Marshal candidate = Ok body → st_Name candidate = name → same_volume (ls_state l) candidate →
  version s name (ls_etag l') body → descends (Some candidate) (vol s) → ls_state l' = candidate →
  (ls_adopted l' = ls_adopted l ∧ same_history (ls_state l) candidate ∨ ls_adopted l' = None) →
  (ls_pending l' = ls_pending l ∨ ls_pending l' = None) → ls_allocated l' = ls_allocated l → bundles_kept l l' → lease_ok s l' ∧ lease_rel l l'.
Proof.
  intros (Hbk & Hn & Hh & Ha & Hp) Hm Hname Hv Hver Hd Hst Hadopt Hpend Halloc Hkept.
  split; [split; [by eapply bundles_ok_kept|]; split; [by rewrite Hst|]; split; [|split]|].
  - intros _. exists body. by rewrite Hst.
  - intros m Hm'. destruct Hadopt as [[Heq (_ & Hg & Hk & _)]|Heq]; rewrite Heq in Hm'; [|done].
    destruct (Ha m Hm') as (b & Hb & Hkey & Hgen). exists b. rewrite Hst, <-Hg, <-Hk. done.
  - intros pc Hpc. destruct Hpend as [Heq|Heq]; rewrite Heq in Hpc; [|done]. destruct (Hp pc Hpc) as (Hb & Hv' & Hid & Hpr).
    split; [done|]. split; [rewrite Hst; eapply same_volume_trans; [|exact Hv']; unfold same_volume in *; naive_solver|].
    split; [by rewrite Halloc|].
    destruct (pc_prepared pc); [done|]. intros m Hm'. destruct Hadopt as [[Heq' _]|Heq']; rewrite Heq' in Hm'; [by apply Hpr|done].
  - split; [by rewrite Hst|]. split; [lia|]. intros pc Hpc. destruct Hpend as [Heq|Heq]; rewrite Heq in Hpc; [by left|done].
Qed.

(** [l'] is [l] with the committed document [candidate] under [etag]. *)
Definition committed l candidate etag l' : Prop :=
  ls_state l' = candidate ∧ ls_etag l' = etag ∧ ls_pending l' = ls_pending l ∧ ls_allocated l' = ls_allocated l ∧ ls_lost l' = ls_lost l ∧ bundles_kept l l'.

Lemma applyCommitLocked_fields candidate etag bundle l :
  committed l candidate etag (applyCommitLocked candidate etag bundle l) ∧
  ls_adopted (applyCommitLocked candidate etag bundle l) = ls_adopted l.
Proof.
  unfold applyCommitLocked, committed, bundles_kept. destruct bundle as [b|]; [|cbn; tauto]. cbn [ls_readyBundle with_plan with_head].
  destruct (ls_readyBundle l) as [ready|] eqn:Hr; [case_bool_decide|]; cbn; rewrite ?Hr; tauto.
Qed.

Lemma applyManifestCommitLocked_fields candidate etag prepared bundle l :
  committed l candidate etag (applyManifestCommitLocked candidate etag prepared bundle l) ∧
  ls_adopted (applyManifestCommitLocked candidate etag prepared bundle l) = None.
Proof.
  unfold applyManifestCommitLocked. destruct (applyCommitLocked_fields candidate etag bundle l) as [Hf _].
  case_bool_decide; [by destruct (ls_planKnown _)|]. by case_bool_decide.
Qed.

(** A commit that has gone through, applied to the lease. *)
Lemma commit_applied w w1 f candidate body etag :
  moves w w1 → w_lease w1 = w_lease w → Marshal candidate = Ok body → st_Name candidate = name →
  same_volume (ls_state (w_lease w)) candidate → descends (Some (ls_state (w_lease w))) (Some candidate) →
  version (w_store w1) name etag body → descends (Some candidate) (vol (w_store w1)) →
  committed (w_lease w) candidate etag (f (w_lease w)) →
  (ls_adopted (f (w_lease w)) = ls_adopted (w_lease w) ∧ same_history (ls_state (w_lease w)) candidate ∨ ls_adopted (f (w_lease w)) = None) →
  moves w (on_lease f w1).
Proof.
  intros Hmv Hl Hm Hname Hv Hstep Hver Hd (Hst & Het & Hpe & Hal & Hlo & Hbk) Had. eapply moves_trans; [exact Hmv|]. pose proof (proj1 Hmv) as Hw1.
  pose proof Hw1 as (_ & Hlok & _). rewrite Hl in Hlok.
  destruct (lease_ok_commit (w_store w1) (w_lease w) (f (w_lease w)) candidate body) as [Hok Hrel]; try done;
    [by rewrite Het|by left|].
  apply on_lease_forward; [done|by rewrite Hl..|]. rewrite Hl. intros Hlost. rewrite Hst. split; [congruence|done].
Qed.

Lemma lost_moves w : world_ok w → moves w (on_lease with_lost w).
Proof.
  intros Hw. pose proof Hw as (_ & (Hbk & Hn & Hh & Ha & Hp) & _). apply on_lease_forward; [done| |apply lease_rel_fields; [done..|by left]|done].
  do 4 (split; [done|]). intros pc Hpc. apply (Hp pc Hpc).
Qed.

Lemma resolvePending_spec w w' r : world_ok w → resolvePending w = (w', r) → moves w w'.
Proof.
  intros Hw. unfold resolvePending. destruct (ls_pending (w_lease w)) as [pending|] eqn:Hpend; [|intros [= <- <-]; by apply moves_refl].
  destruct (not_held (w_lease w)); [intros [= <- <-]; by apply moves_refl|].
  pose proof Hw as (_ & (_ & Hn & _) & _). rewrite Hn. destruct (call_unlocked _ w) as [w1 r1] eqn:Hc.
  destruct (call_unlocked_spec _ _ _ _ Hw (read_safe _) Hc) as [Hmv Hok]. destruct r1 as [[b c]|e]; [|by intros [= <- <-]].
  case_bool_decide as Hid; cbn [negb]; [|by intros [= <- <-]].
  pose proof Hmv as (Hw1 & _ & (_ & _ & Hkeep) & _). pose proof Hw1 as (Hs1 & Hl1 & He1). pose proof Hw as (_ & (_ & _ & _ & _ & Hp0) & _).
  assert (ls_pending (w_lease w1) = Some pending) as Hsame.
  { destruct (ls_pending (w_lease w1)) as [pc|] eqn:Hpc; [|done]. injection Hid as Hid. destruct (Hkeep pc eq_refl) as [Heq|Hge]; [congruence|].
    destruct (Hp0 pending Hpend) as (_ & _ & Hlt & _). lia. }
  pose proof Hl1 as (Hbk1 & Hn1 & Hh1 & Ha1 & Hp1). destruct (Hp1 pending Hsame) as (Hbody & Hv & Hlt & Hpr).
  assert (moves w1 (on_lease (with_pending None) w1)) as Hnone.
  { apply on_lease_moves; [done|by split| |done|done]. apply lease_rel_fields; [done..|by right]. }
  unfold bytes_Equal. case_bool_decide as Hb; [|intros [= <- <-]; by eapply moves_trans]. subst b.
  destruct (read_seen w w1 (pc_body pending) c) as [Hat Hver]; [by apply Hok|done|].
  assert (descends (Some (pc_candidate pending)) (vol (w_store w1))) as Hd by by rewrite (vol_of _ _ _ _ Hat Hbody).
  assert (st_Name (pc_candidate pending) = name) as Hname by (destruct Hv as (_ & _ & <- & _); done).
  set (l2 := match pc_prepared pending with
             | Some prepared => with_adopted (Some (pm_manifest prepared)) (pending_commit pending c (with_pending None (w_lease w1)))
             | None => pending_commit pending c (with_pending None (w_lease w1)) end).
  assert (committed (with_pending None (w_lease w1)) (pc_candidate pending) c l2 ∧ ∀ m, ls_adopted l2 = Some m → published_in (pc_candidate pending) m)
    as [(Hst & Het & Hpe & Hal & Hlo2 & Hbk2) Had].
  { subst l2. unfold pending_commit. destruct (pc_prepared pending) as [prepared|].
    - split; [apply applyManifestCommitLocked_fields|]. by intros m [= <-].
    - destruct (applyCommitLocked_fields (pc_candidate pending) c (pc_bundle pending) (with_pending None (w_lease w1))) as [Hf Ha].
      split; [done|]. intros m Hm. apply Hpr. by rewrite Ha in Hm. }
  assert (moves w1 (on_lease (fun _ => l2) w1)) as Hfinal.
  { apply on_lease_forward; [done| | |].
    - split; [by eapply bundles_ok_kept|]. split; [by rewrite Hst|]. split; [intros _; exists (pc_body pending); by rewrite Hst, Het|]. split; [by rewrite Hst|].
      intros pc Hpc. by rewrite Hpe in Hpc.
    - apply lease_rel_fields; [by rewrite Hst|done|by right].
    - intros Hlost. rewrite Hlo2 in Hlost. split; [done|]. destruct (Hh1 Hlost) as (_ & _ & _ & Hfrom).
      rewrite Hst, <-(vol_of _ _ _ _ Hat Hbody). done. }
  pose proof (moves_trans _ _ _ Hmv Hfinal) as Hgo. subst l2. destruct (pc_prepared pending); intros [= <- <-]; exact Hgo.
Qed.

(** ** [renewLocked] and [update] *)

(** Only the clock has moved. *)
Definition quiet w w' : Prop := w_store w' = w_store w ∧ w_lease w' = w_lease w ∧ w_events w' = w_events w.

Lemma quiet_ok w w' : quiet w w' → world_ok w → world_ok w'.
Proof. intros (Hs & Hl & He). unfold world_ok. by rewrite Hs, Hl, He. Qed.

Lemma quiet_moves w w' : quiet w w' → world_ok w → moves w w'.
Proof.
  intros Hq Hw. split; [by eapply quiet_ok|]. destruct Hq as (Hs & Hl & He). rewrite Hs, Hl. split; [apply rel_refl, Hw|]. split; [done|].
  unfold moves_forward. rewrite Hl, He. by split.
Qed.

Lemma now_quiet w w' t : now w = (w', t) → quiet w w'.
Proof. by intros [= <- <-]. Qed.

Lemma set_lease_keeps st r expires :
  st_Lease st = Some r → same_history st (set_lease (Some (extend_lease expires r)) st) ∧ keeps_lease st (set_lease (Some (extend_lease expires r)) st).
Proof. intros Hr. split; [done|]. split; [done|]. split; [done|]. by exists r, (extend_lease expires r). Qed.

Lemma apply_bundle_fields st bundle :
  same_history st (apply_bundle st bundle) ∧ st_Lease (apply_bundle st bundle) = st_Lease st ∧
  st_Epoch (apply_bundle st bundle) = st_Epoch st ∧ st_Deleting (apply_bundle st bundle) = st_Deleting st.
Proof. by destruct bundle. Qed.

Lemma same_history_trans a b c : same_history a b → same_history b c → same_history a c.
Proof. intros (Hv & Hg & Hm & Hc) (Hv' & Hg' & Hm' & Hc'). split; [by eapply same_volume_trans|]. naive_solver congruence. Qed.

Lemma held l : not_held l = false → ls_lost l = false ∧ ∃ r, st_Lease (ls_state l) = Some r.
Proof.
  unfold not_held. intros [Hl Hr]%orb_false_iff. apply bool_decide_eq_false in Hr. split; [done|].
  destruct (st_Lease (ls_state l)) as [r|]; [by exists r|done].
Qed.

Lemma renewLocked_spec w : world_ok w → ls_lost (w_lease w) = false → moves w (renewLocked TTL w).
Proof.
  intros Hw Hlost. unfold renewLocked. destruct (st_Lease (ls_state (w_lease w))) as [record|] eqn:Hr; [|by apply moves_refl].
  destruct (now w) as [w1 t1] eqn:Hn1. apply now_quiet in Hn1. pose proof (quiet_moves _ _ Hn1 Hw) as Hm1.
  destruct (time_After _ _); [done|]. destruct (now w1) as [w2 t2] eqn:Hn2. apply now_quiet in Hn2.
  pose proof (moves_trans _ _ _ Hm1 (quiet_moves _ _ Hn2 (proj1 Hm1))) as Hm2.
  assert (w_lease w2 = w_lease w) as Hl2 by (destruct Hn1 as (_ & ? & _), Hn2 as (_ & ? & _); congruence).
  set (candidate := set_lease _ _). destruct (Marshal candidate) as [body|] eqn:Hm; [|done].
  destruct (set_lease_keeps (ls_state (w_lease w2)) record (t2 + ttl TTL)) as [Hh Hk]; [by rewrite Hl2|]. fold candidate in Hh, Hk.
  assert (st_Name candidate = name) as Hname by (destruct (proj1 Hm2) as (_ & (_ & Hn & _) & _); done).
  destruct (commitState body candidate w2) as [w3 r] eqn:Hc.
  destruct (commitState_spec w2 [] candidate body w3 r) as (Hm3 & Hl3 & Hok); try done; [apply Hm2|by rewrite Hl2|by apply vs_keep|].
  destruct r as [etag|e].
  - destruct (Hok etag eq_refl) as [Hver Hd]. eapply moves_trans; [exact Hm2|].
    destruct (applyCommitLocked_fields candidate etag None (w_lease w2)) as [Hf Ha].
    eapply commit_applied; try done; [by eapply descends_step, vs_keep|by left].
  - pose proof (moves_trans _ _ _ Hm2 Hm3) as Hgo. destruct (errors_Is _ _); [|done].
    eapply moves_trans; [exact Hgo|]. apply lost_moves, Hgo.
Qed.

(** The lease after a commit whose outcome is unknown. *)
Lemma remember_moves w body candidate prepared bundle :
  world_ok w → Marshal candidate = Ok body → same_volume (ls_state (w_lease w)) candidate →
  match prepared with
  | Some p => published_in candidate (pm_manifest p)
  | None => same_history (ls_state (w_lease w)) candidate
  end → moves w (on_lease (remember body candidate prepared bundle) w).
Proof.
  intros Hw Hm Hv Hp. pose proof Hw as (_ & (Hbk & Hn & Hh & Ha & Hpend) & _). apply on_lease_moves; [done| | |done|done].
  - do 4 (split; [done|]). intros pc [= <-]. split; [done|]. split; [done|]. split; [cbn; lia|].
    cbn [pc_prepared pc_candidate]. destruct prepared; [done|]. intros m Hm'. destruct (Ha m Hm') as (b & Hb & Hk & Hg).
    destruct Hp as (_ & Hg' & Hk' & _). exists b. rewrite <-Hk', <-Hg'. done.
  - split; [done|]. split; [cbn; lia|]. intros pc [= <-]. right. cbn. lia.
Qed.

Lemma ready_moves w l b : world_ok w → readyManifestBundleLocked (w_lease w) = (l, b) → moves w (on_lease (fun _ => l) w) ∧ ls_state l = ls_state (w_lease w) ∧
  ls_lost l = ls_lost (w_lease w) ∧ ls_adopted l = ls_adopted (w_lease w).
Proof.
  intros Hw Hr. assert (l = w_lease w ∨ l = with_ready None (w_lease w)) as Hl.
  { unfold readyManifestBundleLocked in Hr. destruct (ls_readyBundle (w_lease w)); [destruct (manifestBundleApplies _ _)|]; injection Hr as <- _; tauto. }
  pose proof Hw as (_ & Hok & _).
  assert (lease_ok (w_store w) l ∧ lease_rel (w_lease w) l) as [Hok' Hrel].
  { destruct Hl as [-> | ->]; [done|]. split; [split; [split; [apply Hok|done]|apply Hok]|]. apply lease_rel_fields; [done..|by left]. }
  assert (ls_state l = ls_state (w_lease w) ∧ ls_lost l = ls_lost (w_lease w)) as [Hs Hlo] by (by destruct Hl as [-> | ->]).
  split; [by apply on_lease_moves|]. by destruct Hl as [-> | ->].
Qed.

(** What a change of the document may do: a transition that publishes nothing. *)
Definition mutates (mutate : World (S := S) → State → World (S := S) * result State) : Prop :=
  ∀ w st w' r, mutate w st = (w', r) → quiet w w' ∧
    ∀ candidate base, r = Ok candidate → same_history base st → st_Lease st = st_Lease base → st_Epoch st = st_Epoch base →
      st_Deleting st = st_Deleting base → is_Some (st_Lease base) →
      volume_step (Some base) [] (Some candidate) ∧ same_history base candidate.

Lemma update_spec mutate w w' r : mutates mutate → world_ok w → update mutate w = (w', r) → moves w w'.
Proof.
  intros Hmut Hw. unfold update. destruct (resolvePending w) as [w1 r1] eqn:Hres. apply resolvePending_spec in Hres as Hm1; [|done].
  destruct r1; [|by intros [= <- <-]]. destruct (not_held (w_lease w1)) eqn:Hheld; [by intros [= <- <-]|]. apply held in Hheld as [Hlost (rec & Hrec)].
  destruct (readyManifestBundleLocked (w_lease w1)) as [l bundle] eqn:Hready. apply ready_moves in Hready as (Hm2 & Hst & Hlo & _); [|apply Hm1].
  set (w2 := on_lease (fun _ => l) w1) in *. pose proof (moves_trans _ _ _ Hm1 Hm2) as Hgo2.
  destruct (mutate w2 (apply_bundle (ls_state l) bundle)) as [w3 r3] eqn:Hmu. destruct (Hmut _ _ _ _ Hmu) as [Hq Hcand].
  pose proof (moves_trans _ _ _ Hgo2 (quiet_moves _ _ Hq (proj1 Hgo2))) as Hgo3.
  destruct r3 as [candidate|e]; [|by intros [= <- <-]]. destruct (Marshal candidate) as [body|e] eqn:Hm; [|by intros [= <- <-]].
  destruct (apply_bundle_fields (ls_state l) bundle) as (Hbh & Hbl & Hbe & Hbd).
  destruct (Hcand candidate (ls_state l) eq_refl Hbh Hbl Hbe Hbd) as [Hstep Hhist]; [rewrite Hst; by exists rec|].
  assert (w_lease w3 = l) as Hl3 by (destruct Hq as (_ & -> & _); done).
  assert (st_Name candidate = name) as Hname.
  { destruct (proj1 Hgo3) as (_ & (_ & Hn & _) & _). rewrite Hl3 in Hn. destruct Hhist as [(_ & _ & <- & _) _]. done. }
  destruct (commitState body candidate w3) as [w4 r4] eqn:Hc.
  destruct (commitState_spec w3 [] candidate body w4 r4) as (Hm4 & Hl4 & Hok); try done; [apply Hgo3|by rewrite Hl3, Hlo|by rewrite Hl3|].
  pose proof (moves_trans _ _ _ Hgo3 Hm4) as Hgo4. destruct r4 as [etag|e].
  - intros [= <- <-]. destruct (Hok etag eq_refl) as [Hver Hd]. eapply moves_trans; [exact Hgo3|].
    destruct (applyCommitLocked_fields candidate etag bundle (w_lease w3)) as [Hf Ha].
    eapply commit_applied; try done; [rewrite Hl3; apply Hhist|rewrite Hl3; by eapply descends_step|left; by rewrite Hl3 in *].
  - destruct (errors_Is _ _); intros [= <- <-]; (eapply moves_trans; [exact Hgo4|]); [apply lost_moves, Hgo4|].
    apply remember_moves; [apply Hgo4|done|rewrite Hl4, Hl3; apply Hhist|by rewrite Hl4, Hl3].
Qed.

Lemma Renew_spec w w' r : world_ok w → Renew TTL w = (w', r) → moves w w'.
Proof.
  apply update_spec. intros w0 st w1 r1. destruct (now w0) as [w2 t] eqn:Hn. apply now_quiet in Hn.
  destruct (st_Lease st) as [rec|] eqn:Hrec; intros [= <- <-]; (split; [done|]); [|done]. intros candidate base [= <-] Hh Hl He Hd Hs.
  destruct (set_lease_keeps st rec (t + ttl TTL) Hrec) as [Hh2 (He2 & Hd2 & r1 & r2 & Hr1 & Hr2 & Hrest)].
  pose proof (same_history_trans _ _ _ Hh Hh2) as Hh3. split; [|done]. apply vs_keep; [done|].
  split; [congruence|]. split; [congruence|]. exists r1, r2. split; [congruence|done].
Qed.

Lemma lease_Release_spec waited w w' r : world_ok w → lease_Release waited w = (w', r) → moves w w'.
Proof.
  intros Hw. unfold lease_Release. destruct waited; [intros [= <- <-]; by apply moves_refl|].
  apply update_spec; [|done]. intros w0 st w1 r1 [= <- <-]. split; [done|]. intros candidate base [= <-] Hh Hl He Hd Hs.
  assert (same_history base (set_lease None st)) as Hh2 by (by eapply same_history_trans). split; [|done]. by apply vs_release.
Qed.

(** ** Uploads *)

Lemma put_safe s0 k d : head_owns name k = false → safe_op s0 (fun s => store_PutIfAbsent s k d).
Proof.
  intros Hk s [Hs _]. destruct (head_frame s name k d (proj1 Hs) Hk) as (Hok & Hh & Hv). by apply rel_same.
Qed.

Lemma get_safe s0 k : safe_op s0 (fun s => (s, store_Get s k)).
Proof. intros s [Hs _]. by apply rel_refl. Qed.

Lemma put_immutable_spec k d e1 e2 w w' r : head_owns name k = false → world_ok w → put_immutable k d e1 e2 w = (w', r) → moves w w'.
Proof.
  intros Hk Hw. unfold put_immutable. destruct (call_unlocked _ w) as [w1 r1] eqn:Hc.
  apply call_unlocked_spec in Hc as [Hm _]; [|done|by apply put_safe]. destruct r1; [by intros [= <- <-]|].
  destruct (negb _); [by intros [= <- <-]|]. destruct (call_unlocked _ w1) as [w2 r2] eqn:Hc2.
  apply call_unlocked_spec in Hc2 as [Hm2 _]; [|apply Hm|apply get_safe]. pose proof (moves_trans _ _ _ Hm Hm2).
  destruct r2; by intros [= <- <-].
Qed.

(** Uploads that do not touch the head. *)
Definition upload_ok (snapshot : State) (u : upload) : Prop :=
  match u with
  | UpSegment segment => st_Name snapshot = name ∧ seg_Data segment ≠ []
  | UpBundle bundle => head_owns name (bref_Key (pb_ref bundle)) = false
  | UpManifest prepared => head_owns name (pm_key prepared) = false
  end.

Lemma string_app_assoc' (a b c : string) : a +:+ b +:+ c = (a +:+ b) +:+ c.
Proof. induction a as [|x a IH]; [done|]. change (String x (a +:+ b +:+ c) = String x ((a +:+ b) +:+ c)). by rewrite IH. Qed.

Lemma manifest_key_owns body : head_owns name (manifest_key name body) = false.
Proof.
  apply not_head. unfold isImmutableObject, manifest_key. rewrite string_app_assoc', HasPrefix_app. done.
Qed.

Lemma bundle_key_owns body : head_owns name (bundle_key name body) = false.
Proof.
  apply not_head. unfold isImmutableObject, bundle_key. rewrite (string_app_assoc' (VolumePrefix name) "manifest-bundles/"), HasPrefix_app.
  by rewrite orb_true_r.
Qed.

Lemma segment_key_owns epoch generation digest : head_owns name (segmentKey name epoch generation digest) = false.
Proof.
  apply not_head. unfold isImmutableObject, segmentKey.
  change ("segments/e" +:+ ?x) with ("segments/" +:+ ("e" +:+ x)).
  rewrite (string_app_assoc' (VolumePrefix name) "segments/"), HasPrefix_app. by rewrite orb_true_r.
Qed.

Lemma run_upload_spec snapshot u w w' r : upload_ok snapshot u → world_ok w → run_upload snapshot u w = (w', r) → moves w w'.
Proof.
  intros Hu Hw. destruct u as [segment|bundle|prepared]; cbn [run_upload].
  - unfold uploadSegment. destruct (negb _) eqn:Hin; [intros [= <- <-]; by apply moves_refl|]. apply put_immutable_spec; [|done].
    destruct Hu as [Hn Hd]. unfold segmentReference in *. destruct (_ <=? _); cbn [ref_Key ref_InlineData] in *; [|rewrite Hn; apply segment_key_owns].
    by apply negb_false_iff, bool_decide_eq_true in Hin.
  - by apply put_immutable_spec.
  - by apply put_immutable_spec.
Qed.

Lemma run_uploads_spec snapshot us first w w' r :
  Forall (upload_ok snapshot) us → world_ok w → run_uploads snapshot us first w = (w', r) → moves w w'.
Proof.
  intros Hus. revert first w. induction Hus as [|u us Hu _ IH]; intros first w Hw; cbn [run_uploads]; [intros [= <- <-]; by apply moves_refl|].
  destruct (run_upload snapshot u w) as [w1 e] eqn:Hr. apply run_upload_spec in Hr; [|done..]. intros Hrest.
  eapply moves_trans; [exact Hr|]. eapply IH; [apply Hr|done].
Qed.

(** ** [commitManifest] *)

(** A manifest prepared on top of [snapshot]. *)
Definition prepared_ok (snapshot : State) (prepared : preparedManifest) : Prop :=
  Marshal (pm_manifest prepared) = Ok (pm_body prepared) ∧ pm_key prepared = manifest_key name (pm_body prepared) ∧
  ∃ kind refs t, pm_manifest prepared = next_manifest snapshot kind refs t.

Lemma publish_candidate_spec snapshot prepared embed bundle t st r :
  prepared_ok snapshot prepared → same_volume snapshot st → st_Name st = name → st_Lease st = Some r →
  st_Generation st = st_Generation snapshot → st_Manifest st = st_Manifest snapshot → st_Epoch st = st_Epoch snapshot →
  let candidate := publish_candidate TTL t prepared embed bundle st in
  publishes st candidate (pm_manifest prepared) (pm_body prepared) ∧ keeps_lease st candidate.
Proof.
  intros (Hm & Hk & kind & refs & tm & Hman) Hv Hn Hr Hg Hmf He candidate.
  destruct (apply_bundle_fields st bundle) as ((Hbv & Hbg & Hbm & Hbc) & Hbl & Hbe & Hbd).
  assert (∃ base, candidate = (if embed then set_archive (<[pm_key prepared := pm_body prepared]> (st_InlineManifests base)) (st_ManifestBundle base) base else base)
    ∧ same_volume st base ∧ st_Manifest base = pm_key prepared ∧ st_Generation base = mf_Generation (pm_manifest prepared) ∧
    st_Checkpoint base = (if bool_decide (mf_Kind (pm_manifest prepared) = "checkpoint") then mf_Generation (pm_manifest prepared) else st_Checkpoint st) ∧
    keeps_lease st base) as (base & Hcand & Hsv & Hb1 & Hb2 & Hb3 & Hkl).
  { subst candidate. unfold publish_candidate. rewrite Hbl, Hr. eexists. split; [done|]. cbn. rewrite <-Hbc.
    split; [done|]. do 3 (split; [done|]). split; [done|]. split; [done|]. by exists r, (extend_lease (t + ttl TTL) r). }
  assert (publishes st base (pm_manifest prepared) (pm_body prepared)) as Hpub.
  { split; [done|]. split; [done|]. rewrite Hn, Hb1, Hk. split; [done|]. split; [done|]. rewrite Hman. cbn [next_manifest mf_Generation mf_Parent mf_VolumeID mf_Epoch mf_Kind].
    rewrite Hg, Hmf, He. destruct Hv as (_ & Hid & _). rewrite Hman in Hb3. done. }
  rewrite Hcand. destruct embed; done.
Qed.

Lemma commitManifest_spec snapshot prepared embed bundle w w' r :
  prepared_ok snapshot prepared → world_ok w → same_volume snapshot (ls_state (w_lease w)) →
  commitManifest TTL snapshot prepared embed bundle w = (w', r) →
  moves w w' ∧ (r = Ok tt → ∃ st m, descends (Some st) (vol (w_store w')) ∧ published_in st m ∧ sameLogicalManifest m (pm_manifest prepared) = true ∧ in_turn w w' st).
Proof.
  intros Hprep Hw Hsv. unfold commitManifest. destruct (resolvePending w) as [w1 r1] eqn:Hres. apply resolvePending_spec in Hres as Hm1; [|done].
  destruct r1; [|by intros [= <- <-]]. destruct (not_held (w_lease w1)) eqn:Hheld; [by intros [= <- <-]|]. apply held in Hheld as [Hlost (rec & Hrec)].
  assert (same_volume snapshot (ls_state (w_lease w1))) as Hsv1 by (eapply same_volume_trans; [exact Hsv|apply Hm1]).
  pose proof (proj1 Hm1) as Hw1. pose proof Hw1 as (Hs1 & (Hbk & Hn1 & Hh1 & Ha1 & Hp1) & He1).
  destruct (adopts (w_lease w1) (pm_manifest prepared)) eqn:Had.
  - unfold adopts in Had. destruct (ls_adopted (w_lease w1)) as [m|] eqn:Hadm; [|done]. intros [= <- <-].
    assert (moves w1 (on_lease (with_adopted None) w1)) as Hm2.
    { apply on_lease_moves; [done| |apply lease_rel_fields; [done..|by left]|done|done]. do 3 (split; [done|]). split; [done|].
      intros pc Hpc. destruct (Hp1 pc Hpc) as (? & ? & ? & Hpr). do 3 (split; [done|]). by destruct (pc_prepared pc). }
    pose proof (renewLocked_spec _ (proj1 Hm2) Hlost) as Hm3. pose proof (moves_trans _ _ _ Hm2 Hm3) as Hm23.
    split; [by eapply moves_trans|]. intros _. destruct (Hh1 Hlost) as (b & _ & _ & Hd). exists (ls_state (w_lease w1)), m.
    split; [etrans; [exact Hd|apply Hm23]|]. split; [by apply Ha1|]. split; [done|]. eapply in_turn_before, in_turn_here; [done|done|done].
  - destruct (_ || _) eqn:Hchk; [by intros [= <- <-]|]. rewrite !orb_false_iff, !negb_false_iff, !Z.eqb_eq, bool_decide_eq_true in Hchk.
    destruct Hchk as [[Hg Hmf] He]. destruct (match bundle with Some b => _ | None => false end); [by intros [= <- <-]|].
    destruct (now w1) as [w2 t] eqn:Hnow. apply now_quiet in Hnow as Hq. pose proof (quiet_moves _ _ Hq Hw1) as Hm2. destruct Hq as (Hqs & Hql & _).
    pose proof (moves_trans _ _ _ Hm1 Hm2) as Hgo2. set (candidate := publish_candidate _ _ _ _ _ _).
    destruct (Marshal candidate) as [body|e] eqn:Hm; [|by intros [= <- <-]].
    destruct (publish_candidate_spec snapshot prepared embed bundle t (ls_state (w_lease w1)) rec) as [Hpub Hkeep]; try done.
    fold candidate in Hpub, Hkeep. pose proof Hpub as (Hcv & Hmm & Hck & Hcg & _).
    assert (st_Name candidate = name) as Hname by (destruct Hcv as (_ & _ & <- & _); done).
    assert (published_in candidate (pm_manifest prepared)) as Hpin by (exists (pm_body prepared); by rewrite <-Hn1).
    destruct (commitState body candidate w2) as [w3 r3] eqn:Hc.
    destruct (commitState_spec w2 [(pm_manifest prepared, pm_body prepared)] candidate body w3 r3) as (Hm3 & Hl3 & Hok); try done;
      [apply Hm2|by rewrite Hql|rewrite Hql; by apply vs_publish|].
    pose proof (moves_trans _ _ _ Hgo2 Hm3) as Hgo3.
    assert (descends (Some (ls_state (w_lease w1))) (Some candidate)) as Hfrom by (by eapply descends_step, vs_publish).
    destruct r3 as [etag|e].
    + intros [= <- <-]. destruct (Hok etag eq_refl) as [Hver Hd]. split.
      * eapply moves_trans; [exact Hgo2|]. destruct (applyManifestCommitLocked_fields candidate etag prepared bundle (w_lease w2)) as [Hf Ha].
        eapply commit_applied; try done; [by rewrite Hql|by rewrite Hql|by right].
      * intros _. exists candidate, (pm_manifest prepared). split; [exact Hd|]. split; [done|]. split; [by apply bool_decide_eq_true|].
        eapply in_turn_before; [exact Hm1|]. intros _. split; [done|]. split; [done|]. intros _.
        destruct (applyManifestCommitLocked_fields candidate etag prepared bundle (w_lease w3)) as [(Hst' & _) _]. cbn [on_lease w_lease]. by rewrite Hst'.
    + destruct (errors_Is _ _); intros [= <- <-]; (split; [|done]); (eapply moves_trans; [exact Hgo3|]); [apply lost_moves, Hgo3|].
      apply remember_moves; [apply Hgo3|done|by rewrite Hl3, Hql|done].
Qed.

(** ** Publication *)

Lemma prepared_bundle_owns snapshot b :
  st_Name snapshot = name → prepareManifestBundle snapshot = Ok (Some b) → head_owns name (bref_Key (pb_ref b)) = false.
Proof.
  intros Hn. unfold prepareManifestBundle. case_bool_decide; [done|]. destruct (bundle_entries _ _); [|done]. cbn [mbind result_mbind].
  destruct (Marshal _) as [body|]; [|done]. cbn [mbind result_mbind]. intros [= <-]. cbn [pb_ref bref_Key]. rewrite Hn. apply bundle_key_owns.
Qed.

Definition bundle_ok (b : preparedManifestBundle) : Prop := pb_uploaded b = true ∨ head_owns name (bref_Key (pb_ref b)) = false.

Lemma storage_plan_bundle snapshot prepared bundle archiveCurrent embed archive' bundle' :
  st_Name snapshot = name → (∀ b, bundle = Some b → bundle_ok b) →
  storage_plan snapshot prepared bundle archiveCurrent = Ok (embed, archive', bundle') → ∀ b, bundle' = Some b → bundle_ok b.
Proof.
  intros Hn Hb. unfold storage_plan. destruct (negb _ && bool_decide (bundle = None) && negb _).
  - destruct (prepareManifestBundle snapshot) as [nb|] eqn:Hp; cbn [mbind result_mbind]; [|done].
    intros Hr b Hb'. right. eapply (prepared_bundle_owns snapshot); [done|]. rewrite Hp. f_equal.
    destruct (_ <=? _) in Hr; cbn in Hr; injection Hr as _ _ ->; done.
  - cbn [mbind result_mbind]. intros [= _ _ <-]. done.
Qed.

Lemma archive_start_ok s l : lease_ok s l → lease_ok s (startManifestBundleArchive l).
Proof.
  intros Hl. unfold startManifestBundleArchive. destruct (_ || _); [done|]. destruct (prepareManifestBundle (ls_state l)) as [[b|]|] eqn:Hp; try done.
  destruct Hl as ([_ Hr] & Hn & Hrest). split; [|by split]. split; [|done]. intros b' [= <-]. by eapply prepared_bundle_owns.
Qed.

Lemma archive_start_rel l : lease_rel l (startManifestBundleArchive l).
Proof.
  unfold startManifestBundleArchive. destruct (_ || _); [done|]. destruct (prepareManifestBundle (ls_state l)) as [[b|]|]; try done.
  apply lease_rel_fields; [done..|by left].
Qed.

Lemma archive_start_moves w : world_ok w → moves w (on_lease startManifestBundleArchive w).
Proof.
  intros Hw. apply on_lease_moves; [done|apply archive_start_ok, Hw|apply archive_start_rel|..];
    unfold startManifestBundleArchive; (destruct (_ || _); [done|]); by destruct (prepareManifestBundle _) as [[b|]|].
Qed.

Lemma publishPrepared_spec schedule snapshot prepared segments bundle archiveCurrent w w' r :
  (∀ us, schedule us ≡ₚ us) → prepared_ok snapshot prepared → st_Name snapshot = name →
  Forall (fun segment => seg_Data segment ≠ []) segments → (∀ b, bundle = Some b → bundle_ok b) →
  world_ok w → same_volume snapshot (ls_state (w_lease w)) →
  publishPrepared TTL schedule snapshot prepared segments bundle archiveCurrent w = (w', r) →
  moves w w' ∧ (r = Ok tt → ∃ st m, descends (Some st) (vol (w_store w')) ∧ published_in st m ∧ sameLogicalManifest m (pm_manifest prepared) = true ∧ in_turn w w' st).
Proof.
  intros Hsch Hprep Hn Hseg Hb Hw Hsv. unfold publishPrepared.
  destruct (if _ && _ then readyManifestBundle snapshot (w_lease w) else (w_lease w, bundle)) as [l bundle1] eqn:Hready.
  assert (moves w (on_lease (fun _ => l) w) ∧ ls_state l = ls_state (w_lease w) ∧ ∀ b, bundle1 = Some b → bundle_ok b) as (Hm1 & Hst & Hb1).
  { destruct (_ && _) in Hready; [|injection Hready as <- <-; split; [by apply on_lease_moves; [done|apply Hw|..]|done]].
    unfold readyManifestBundle in Hready. destruct (readyManifestBundleLocked (w_lease w)) as [l0 b0] eqn:Hlock.
    destruct (ready_moves w l0 b0 Hw Hlock) as (Hm & Hst & _).
    assert (∀ b, b0 = Some b → bundle_ok b) as Hb0.
    { intros b ->. unfold readyManifestBundleLocked in Hlock. destruct (ls_readyBundle (w_lease w)) as [rb|] eqn:Hrb; [|done].
      destruct (manifestBundleApplies _ rb); [|done]. injection Hlock as _ ->. left. destruct Hw as (_ & ((_ & Hr) & _) & _). by apply Hr. }
    destruct b0 as [b0|]; [|injection Hready as <- <-; done]. destruct (manifestBundleApplies snapshot b0); injection Hready as <- <-; [|done].
    split; [done|]. split; [done|]. intros b [= <-]. by apply Hb0. }
  destruct (storage_plan snapshot prepared bundle1 archiveCurrent) as [[[embed archive'] bundle2]|e] eqn:Hplan; [|by intros [= <- <-]].
  pose proof (storage_plan_bundle _ _ _ _ _ _ _ Hn Hb1 Hplan) as Hb2. set (us := (UpSegment <$> segments) ++ _).
  assert (Forall (upload_ok snapshot) (schedule us)) as Hus.
  { rewrite Hsch. subst us. rewrite !Forall_app. split; [|split].
    - apply Forall_fmap. eapply Forall_impl; [exact Hseg|]. by intros x Hx.
    - destruct bundle2 as [b|]; [|done]. destruct (pb_uploaded b) eqn:Hu; [done|]. constructor; [|done]. destruct (Hb2 b eq_refl); [congruence|done].
    - destruct archive'; [|done]. constructor; [|done]. cbn [upload_ok]. destruct Hprep as (_ & -> & _). apply manifest_key_owns. }
  destruct (run_uploads snapshot (schedule us) None (on_lease (fun _ => l) w)) as [w2 r2] eqn:Hup.
  apply run_uploads_spec in Hup as Hm2; [|done|apply Hm1]. pose proof (moves_trans _ _ _ Hm1 Hm2) as Hgo. destruct r2; [by intros [= <- <-]|].
  destruct (commitManifest TTL snapshot prepared embed bundle2 w2) as [w3 r3] eqn:Hcm.
  destruct (commitManifest_spec snapshot prepared embed bundle2 w2 w3 r3) as [Hm3 Hok]; try done; [apply Hgo|eapply same_volume_trans; [exact Hsv|apply Hgo]|].
  pose proof (moves_trans _ _ _ Hgo Hm3) as Hgo3. destruct r3 as [[]|e]; intros [= <- <-]; [|done].
  pose proof (archive_start_moves _ (proj1 Hgo3)) as Hm4. split; [by eapply moves_trans|]. intros _.
  destruct (Hok eq_refl) as (st & m & Hd & Hpin & Hsame & Hin). exists st, m. split; [done|]. split; [done|]. split; [done|].
  eapply in_turn_after; [exact Hgo3|exact Hm4|]. by apply (in_turn_before w w2).
Qed.

(** The segments are in a manifest that the head descends from. *)
Definition durable s (segments : list Segment) : Prop :=
  ∃ st m, descends (Some st) (vol s) ∧ published_in st m ∧ mf_Kind m = "delta" ∧ same_references (mf_Segments m) segments = true.

(** They came into it while the lease was at that point of its history. *)
Definition placed w w' (segments : list Segment) : Prop :=
  ∃ st m, descends (Some st) (vol (w_store w')) ∧ published_in st m ∧ mf_Kind m = "delta" ∧ same_references (mf_Segments m) segments = true ∧ in_turn w w' st.

Lemma placed_durable w w' segments : placed w w' segments → durable (w_store w') segments.
Proof. intros (st & m & ? & ? & ? & ? & _). by exists st, m. Qed.

Lemma same_references_refl snapshot segments : same_references (segmentReference snapshot <$> segments) segments = true.
Proof.
  induction segments as [|g gs IH]; [done|]. cbn [fmap list_fmap same_references]. rewrite IH, andb_true_r.
  unfold sameSegmentReference, segmentReference. destruct (_ <=? _); cbn; rewrite !Z.eqb_refl, !bool_decide_eq_true_2 by done; done.
Qed.

Lemma sameLogical_fields a b : sameLogicalManifest a b = true → mf_Kind a = mf_Kind b ∧ mf_Segments a = mf_Segments b.
Proof. unfold sameLogicalManifest. rewrite bool_decide_eq_true. by intros [= ? ? ? ? ? ? ?]. Qed.

Lemma consume_spec segments l l' :
  consumeAdoptedPublishLocked segments l = Some l' →
  l' = with_adopted None l ∧ ∃ m, ls_adopted l = Some m ∧ mf_Kind m = "delta" ∧ same_references (mf_Segments m) segments = true.
Proof.
  unfold consumeAdoptedPublishLocked. destruct (ls_adopted l) as [m|]; [|done]. destruct (_ && _) eqn:Had; [|done]. intros [= <-].
  apply andb_true_iff in Had as [[[Hk _]%andb_true_iff _]%andb_true_iff Hsame]. apply bool_decide_eq_true in Hk.
  split; [done|]. by exists m.
Qed.

Lemma forget_adopted_moves w : world_ok w → moves w (on_lease (fun _ => with_adopted None (w_lease w)) w).
Proof.
  intros Hw. pose proof Hw as (_ & (Hbk & Hn & Hh & Ha & Hp) & _).
  apply on_lease_moves; [done| |apply lease_rel_fields; [done..|by left]|done|done]. do 3 (split; [done|]). split; [done|].
  intros pc Hpc. destruct (Hp pc Hpc) as (? & ? & ? & Hpr). do 3 (split; [done|]). by destruct (pc_prepared pc).
Qed.

Lemma Publish_spec schedule segments w w' r :
  (∀ us, schedule us ≡ₚ us) → world_ok w → Publish TTL schedule segments w = (w', r) →
  moves w w' ∧ (r = Ok tt → placed w w' segments).
Proof.
  intros Hsch Hw. unfold Publish. case_bool_decide; [intros [= <- <-]; split; [by apply moves_refl|done]|].
  destruct (forallb segment_matches segments) eqn:Hmatch; cbn [negb]; [|intros [= <- <-]; split; [by apply moves_refl|done]].
  destruct (resolvePending w) as [w1 r1] eqn:Hres. apply resolvePending_spec in Hres as Hm1; [|done].
  destruct r1; [|by intros [= <- <-]]. destruct (not_held (w_lease w1)) eqn:Hheld; [by intros [= <- <-]|]. apply held in Hheld as [Hlost (rec & Hrec)].
  pose proof (proj1 Hm1) as Hw1. pose proof Hw1 as (Hs1 & (Hbk & Hn1 & Hh1 & Ha1 & Hp1) & He1).
  destruct (consumeAdoptedPublishLocked segments (w_lease w1)) as [l'|] eqn:Hcon.
  - apply consume_spec in Hcon as (-> & m & Hadm & Hk & Hsame). intros [= <- <-]. pose proof (forget_adopted_moves w1 Hw1) as Hm2.
    pose proof (renewLocked_spec _ (proj1 Hm2) Hlost) as Hm3. pose proof (moves_trans _ _ _ Hm2 Hm3) as Hm23.
    split; [by eapply moves_trans|]. intros _. destruct (Hh1 Hlost) as (b & _ & _ & Hd). exists (ls_state (w_lease w1)), m.
    split; [etrans; [exact Hd|apply Hm23]|]. split; [by apply Ha1|]. split; [done|]. split; [done|]. eapply in_turn_before, in_turn_here; done.
  - destruct (check_generation _ _); [|by intros [= <- <-]]. destruct (now w1) as [w2 t] eqn:Hnow. apply now_quiet in Hnow as Hq.
    pose proof (moves_trans _ _ _ Hm1 (quiet_moves _ _ Hq Hw1)) as Hgo. destruct Hq as (_ & Hql & _).
    unfold prepareManifest. destruct (Marshal _) as [body|e] eqn:Hm; cbn [mbind result_mbind]; [|by intros [= <- <-]]. intros Hpp.
    assert (Forall (fun g => seg_Data g ≠ []) segments) as Hne.
    { apply Forall_forall. intros g Hg. rewrite forallb_forall in Hmatch. specialize (Hmatch g (proj1 (list_elem_of_In _ _) Hg)).
      unfold segment_matches in Hmatch. rewrite !andb_true_iff, !negb_true_iff, !bool_decide_eq_false in Hmatch. apply Hmatch. }
    eapply publishPrepared_spec in Hpp as [Hm3 Hok]; [|done| |done|done|done|apply Hgo|by rewrite Hql].
    2:{ split; [done|]. split; [by cbn; rewrite Hn1|]. by eexists _, _, _. }
    split; [by eapply moves_trans|]. intros Hr. destruct (Hok Hr) as (st & m & Hd & Hpin & [Hk Hs]%sameLogical_fields & Hin).
    exists st, m. split; [done|]. split; [done|]. split; [by rewrite Hk|]. split; [rewrite Hs; apply same_references_refl|]. by eapply in_turn_before.
Qed.

(** What is durable is linked from the head of every store that can follow. *)
Lemma durable_linked s later segments :
  durable s segments → rel s later →
  ∃ head ms m body,
    vol later = Some head ∧ Marshal m = Ok body ∧
    linked (st_Name head) ms (st_Manifest head) (st_Generation head) (manifest_key name body) (mf_Generation m) ∧
    mf_Kind m = "delta" ∧ same_references (mf_Segments m) segments = true.
Proof.
  intros (st & m & Hd0 & (body & Hm & Hk & Hg) & Hkind & Hsame) (_ & Hd & _).
  destruct (transitivity Hd0 Hd) as [ms Hrun]. destruct (volume_run_linked_from _ _ _ Hrun st eq_refl) as (head & Hv & (_ & _ & Hname & _) & Hl).
  exists head, ms, m, body. rewrite <-Hk, <-Hg, <-Hname. done.
Qed.

Lemma PublishCheckpoint_spec fetched fuel schedule w w' r :
  (∀ us, schedule us ≡ₚ us) → world_ok w → PublishCheckpoint TTL fetched fuel schedule w = (w', r) → moves w w'.
Proof.
  intros Hsch Hw. unfold PublishCheckpoint. destruct (not_held (w_lease w)); [intros [= <- <-]; by apply moves_refl|].
  destruct (if ls_planKnown (w_lease w) then _ else _); [|intros [= <- <-]; by apply moves_refl].
  destruct (prepareManifestBundle (ls_state (w_lease w))) as [bundle|] eqn:Hb; [|intros [= <- <-]; by apply moves_refl].
  destruct (now w) as [w1 t] eqn:Hnow. apply now_quiet in Hnow as Hq. pose proof (quiet_moves _ _ Hq Hw) as Hm1. destruct Hq as (_ & Hql & _).
  unfold prepareManifest. destruct (Marshal _) as [body|e] eqn:Hm; cbn [mbind result_mbind]; [|by intros [= <- <-]]. intros Hpp.
  pose proof Hw as (_ & (_ & Hn & _) & _).
  eapply publishPrepared_spec in Hpp as [Hm3 _]; [by eapply moves_trans|done| |done|done| |apply Hm1|by rewrite Hql].
  - split; [done|]. split; [by cbn; rewrite Hn|]. by eexists _, _, _.
  - intros b ->. right. by eapply prepared_bundle_owns.
Qed.

Lemma archive_spec w w' r : world_ok w → archive w = (w', r) → moves w w'.
Proof.
  intros Hw. unfold archive. destruct (ls_archiving (w_lease w)) as [b|] eqn:Ha; [|intros [= <- <-]; by apply moves_refl].
  destruct (uploadManifestBundle b w) as [w1 err] eqn:Hup. pose proof Hw as (_ & ((Hao & _) & _) & _).
  apply put_immutable_spec in Hup as Hm1; [|by apply Hao|done]. intros [= <- <-]. eapply moves_trans; [exact Hm1|].
  pose proof (proj1 Hm1) as Hw1. pose proof Hw1 as (_ & ((Hao1 & Hr1) & Hn & Hh & Had & Hp) & _). set (l0 := with_archiving _ None (w_lease w1)).
  assert (lease_ok (w_store w1) l0) as Hok0 by (split; [by split|]; by split).
  apply on_lease_moves; [done| | |by destruct err; [|destruct (manifestBundleApplies _ b)]..].
  - destruct err; [done|]. destruct (manifestBundleApplies _ b); [|done]. destruct Hok0 as ([Hx _] & Hrest). split; [|done]. split; [done|].
    by intros b' [= <-].
  - destruct err; [|destruct (manifestBundleApplies _ b)]; (apply lease_rel_fields; [done..|by left]).
Qed.

(** ** Volumes *)

Lemma Inspect_spec w w' r :
  world_ok w → Inspect name w = (w', r) →
  moves w w' ∧ ∀ st c, r = Ok (st, c) → st_Name st = name ∧ ∃ b, Marshal st = Ok b ∧ version (w_store w') name c b.
Proof.
  intros Hw. unfold Inspect. destruct (call_unlocked _ w) as [w1 r1] eqn:Hc. apply call_unlocked_spec in Hc as [Hm Hok]; [|done|apply read_safe].
  destruct r1 as [[b c]|e]; [|by intros [= <- <-]]. intros [= <- <-]. split; [done|]. intros st c' Hr.
  destruct (read_seen w w1 b c) as [Hat Hver]; [by apply Hok|apply Hm|]. destruct (proj1 (proj1 Hm)) as [_ Hdoc]. destruct (Hdoc _ _ Hat) as (st0 & Hm0 & Hn0).
  rewrite (state_round_trip _ _ Hm0) in Hr. cbn in Hr. destruct (validateState name st0); cbn in Hr; [|done]. injection Hr as <- <-.
  split; [done|]. by exists b.
Qed.

(** A lease on the document [state] just committed. *)
Lemma new_lease_ok s state etag body :
  Marshal state = Ok body → st_Name state = name → version s name etag body → descends (Some state) (vol s) →
  lease_ok s (startManifestBundleArchive (new_lease state etag)).
Proof.
  intros Hm Hn Hver Hd. apply archive_start_ok. split; [done|]. split; [done|]. split; [|done]. intros _. by exists body.
Qed.

(** [Acquire] from the commit on. *)
Lemma acquire_commit w state etag body (committed : result string) w1 w2 (r2 : result string) :
  world_ok w → Marshal state = Ok body → st_Name state = name → safe_op (w_store w) (fun s => head_commit s name body etag state) →
  call_unlocked (fun s => head_commit s name body etag state) w = (w1, committed) →
  match committed with
  | Ok etag => (w1, Ok etag)
  | Err e =>
      match call_unlocked (readHeadBody name) w1 with
      | (w, Ok (currentBody, currentCursor)) => (w, if bytes_Equal currentBody body then Ok currentCursor else Err e)
      | (w, Err _) => (w, Err e)
      end
  end = (w2, r2) →
  moves w w2 ∧ ∀ c, r2 = Ok c → version (w_store w2) name c body ∧ descends (Some state) (vol (w_store w2)).
Proof.
  intros Hw Hm Hn Hsafe Hc. destruct (call_unlocked_spec _ _ _ _ Hw Hsafe Hc) as [Hm1 Hok]. destruct committed as [c|e].
  - intros [= <- <-]. split; [done|]. intros c' [= <-]. eapply commit_seen; [by apply Hok|done].
  - destruct (call_unlocked (readHeadBody name) w1) as [w3 r3] eqn:Hread.
    destruct (call_unlocked_spec _ _ _ _ (proj1 Hm1) (read_safe _) Hread) as [Hm2 Hok2]. pose proof (moves_trans _ _ _ Hm1 Hm2) as Hgo.
    destruct r3 as [[b c]|e3]; [|by intros [= <- <-]]. intros [= <- <-]. split; [done|]. unfold bytes_Equal. case_bool_decide as Hb; [|done]. subst b.
    intros c' [= <-]. destruct (read_seen w1 w3 body c (Hok2 _ eq_refl) (proj1 Hm2)) as [Hat Hver]. split; [done|]. by rewrite (vol_of _ _ _ _ Hat Hm).
Qed.

Lemma acquire_step id opts t inspected base etag created holder token :
  acquire_base name id opts t inspected = Ok (base, etag, created) →
  (created = true ∧ etag = EmptyString ∧ volume_step None [] (Some (acquired TTL holder token t base)) ∧ st_Name base = name) ∨
  (inspected = Ok (base, etag) ∧ volume_step (Some base) [] (Some (acquired TTL holder token t base))).
Proof.
  unfold acquire_base. destruct inspected as [[st c]|e].
  - intros Ha. right. apply result_bind_Ok in Ha as (? & Hdel & Ha). apply fail_if_Ok in Hdel.
    apply result_bind_Ok in Ha as (? & Hle & Ha). apply result_bind_Ok in Ha as (? & _ & Ha). apply result_bind_Ok in Ha as (? & _ & Ha).
    injection Ha as <- <- <-. split; [done|]. eapply vs_acquire; try done. intros r0 Hr0. rewrite Hr0 in Hle. apply fail_if_Ok in Hle.
    unfold time_After in Hle. apply Z.ltb_ge in Hle. done.
  - destruct (errors_Is e ErrNotFound); [|done]. intros Ha. left. apply result_bind_Ok in Ha as (? & _ & Ha). injection Ha as <- <- <-.
    do 2 (split; [done|]). split; [|done]. by apply vs_create.
Qed.

Lemma Acquire_spec holder id token opts w w' r :
  world_ok w → Acquire TTL name holder id token opts w = (w', r) → moves w w' ∧ ∀ l created, r = Ok (l, created) → lease_ok (w_store w') l.
Proof.
  intros Hw. unfold Acquire. destruct (validVolumeName name); cbn [negb]; [|intros [= <- <-]; split; [by apply moves_refl|done]].
  destruct (now w) as [w1 t] eqn:Hnow. apply now_quiet in Hnow as Hq. pose proof (quiet_moves _ _ Hq Hw) as Hm1.
  destruct (Inspect name w1) as [w2 inspected] eqn:Hins. apply Inspect_spec in Hins as [Hm2 Hdoc]; [|apply Hm1]. pose proof (moves_trans _ _ _ Hm1 Hm2) as Hgo.
  destruct (acquire_base name id opts t inspected) as [[[base etag] created]|e] eqn:Hbase; [|by intros [= <- <-]].
  destruct (Marshal (acquired TTL holder token t base)) as [body|e] eqn:Hm; [|by intros [= <- <-]].
  assert (st_Name (acquired TTL holder token t base) = name ∧
    safe_op (w_store w2) (fun s => head_commit s name body etag (acquired TTL holder token t base))) as [Hn Hsafe].
  { destruct (acquire_step id opts t inspected base etag created holder token Hbase) as [(_ & -> & Hstep & Hn)|[-> Hstep]].
    - split; [done|]. by apply create_safe.
    - destruct (Hdoc _ _ eq_refl) as (Hn & b & Hb & Hver). split; [done|]. by eapply replace_safe. }
  destruct (call_unlocked _ w2) as [w3 committed] eqn:Hc. destruct (match committed with Ok etag => _ | Err e => _ end) as [w4 r4] eqn:Hread.
  destruct (acquire_commit w2 _ etag body committed w3 w4 r4 (proj1 Hgo) Hm Hn Hsafe Hc Hread) as [Hm4 Hok].
  pose proof (moves_trans _ _ _ Hgo Hm4) as Hgo4. destruct r4 as [c|e]; intros [= <- <-]; (split; [done|]); [|done].
  intros l cr [= <- <-]. destruct (Hok c eq_refl) as [Hver Hd]. by eapply new_lease_ok.
Qed.

Lemma Break_spec expected w w' r : world_ok w → Break name expected w = (w', r) → moves w w'.
Proof.
  intros Hw. unfold Break. destruct (Inspect name w) as [w1 inspected] eqn:Hins. apply Inspect_spec in Hins as [Hm1 Hdoc]; [|done].
  destruct inspected as [[st etag]|e]; [|by intros [= <- <-]]. destruct (st_Lease st) as [rec|] eqn:Hrec; [|by intros [= <- <-]].
  destruct (_ && _); [by intros [= <- <-]|]. set (new := set_epoch _ _). destruct (Marshal new) as [body|e] eqn:Hm; [|by intros [= <- <-]].
  destruct (Hdoc _ _ eq_refl) as (Hn & b & Hb & Hver).
  assert (volume_step (Some st) [] (Some new)) as Hstep by by apply vs_break.
  destruct (call_unlocked _ w1) as [w2 r2] eqn:Hc. apply call_unlocked_spec in Hc as [Hm2 _]; [|apply Hm1|by eapply replace_safe].
  pose proof (moves_trans _ _ _ Hm1 Hm2) as Hgo. destruct r2; by intros [= <- <-].
Qed.
End leases.
