(* ===== verification/LeaseTheorems.v ===== *)
(** * What leases guarantee

    The theorems about leases over any head with [HeadLaws], with the
    conditional head of the in-memory store as their instance. *)
From S2P Require Import Prelude Extents Codec Segment Types Store Head Manifest Plan Restore Lease Publish Volumes History LeaseProps.
Local Open Scope Z_scope.

Section theorems.
Context {S : Type} `{HeadLaws S} `{Digest} `{Gzip} `{Json State} `{Json Manifest} `{Json manifestBundle}.
Context (TTL : Z) (name : string).
Implicit Types w : World (S := S).

(** The operations on a lease, with what their environment gives them. *)
Inductive lease_op : Type :=
  | OpRenew
  | OpRelease (waited : option error)
  | OpPublish (schedule : list upload → list upload) (segments : list Segment)
  | OpCheckpoint (fetched : string → result bytes) (fuel : nat) (schedule : list upload → list upload)
  | OpArchive
  | OpBreak (token : string)
  | OpAcquire (holder id token : string) (opts : CreateOptions).

Definition op_ok (op : lease_op) : Prop :=
  match op with
  | OpPublish schedule _ | OpCheckpoint _ _ schedule => ∀ us, schedule us ≡ₚ us
  | _ => True
  end.

Definition run_op (op : lease_op) w : World (S := S) * result unit :=
  match op with
  | OpRenew => Renew TTL w
  | OpRelease waited => lease_Release waited w
  | OpPublish schedule segments => Publish TTL schedule segments w
  | OpCheckpoint fetched fuel schedule => PublishCheckpoint TTL fetched fuel schedule w
  | OpArchive => archive w
  | OpBreak token => Break name token w
  | OpAcquire holder id token opts =>
      (* the new lease takes the place of the old one *)
      match Acquire TTL name holder id token opts w with
      | (w, Ok (l, _)) => (on_lease (fun _ => l) w, Ok tt)
      | (w, Err e) => (w, Err e)
      end
  end.

Fixpoint run_ops (ops : list lease_op) w : World (S := S) :=
  match ops with
  | [] => w
  | op :: ops => run_ops ops (run_op op w).1
  end.

Context (state_round_trip : ∀ (st : State) b, Marshal st = Ok b → Unmarshal b = Ok st).
Context (not_head : ∀ k, isImmutableObject (VolumePrefix name) k = true → head_owns name k = false).

Lemma run_op_spec op w : op_ok op → world_ok name w → world_ok name (run_op op w).1 ∧ rel name (w_store w) (w_store (run_op op w).1).
Proof using state_round_trip not_head.
  intros Hop Hw. destruct (run_op op w) as [w' r] eqn:Hr. cbn [fst].
  assert (moves name w w' → world_ok name w' ∧ rel name (w_store w) (w_store w')) as Hgo by by intros (? & ? & _).
  destruct op as [|waited|schedule segments|fetched fuel schedule| |token|holder id token opts]; cbn [run_op op_ok] in *.
  - by eapply Hgo, Renew_spec.
  - by eapply Hgo, lease_Release_spec.
  - eapply Hgo, (Publish_spec TTL name); done.
  - by eapply Hgo, PublishCheckpoint_spec.
  - by eapply Hgo, archive_spec.
  - by eapply Hgo, Break_spec.
  - destruct (Acquire TTL name holder id token opts w) as [w1 r1] eqn:Ha.
    destruct (Acquire_spec TTL name state_round_trip not_head holder id token opts w w1 r1 Hw Ha) as [(Hw1 & Hrel & _) Hl].
    destruct r1 as [[l c]|e]; injection Hr as <- <-; [|done]. split; [|done]. destruct Hw1 as (Hs & _ & He). split; [done|]. split; [by eapply Hl|done].
Qed.


(** C1: an acknowledged publication is never lost.  When [Publish] returns
    without an error, then in every store that can follow, walking back along
    the parents from the manifest of the head leads through well-linked
    manifests to one that holds exactly the published segments: their digests,
    sizes and extents. *)
Theorem acknowledged_publish_never_lost schedule segments w w' :
  (∀ us, schedule us ≡ₚ us) → world_ok name w → Publish TTL schedule segments w = (w', Ok tt) →
  ∀ later, rel name (w_store w') later →
  ∃ head ms m body,
    vol name later = Some head ∧ Marshal m = Ok body ∧
    linked (st_Name head) ms (st_Manifest head) (st_Generation head) (manifest_key name body) (mf_Generation m) ∧
    mf_Kind m = "delta" ∧ same_references (mf_Segments m) segments = true.
Proof using state_round_trip not_head.
  intros Hsch Hw Hp later Hrel.
  destruct (Publish_spec TTL name state_round_trip not_head schedule segments w w' _ Hsch Hw Hp) as [_ Hdur].
  eapply durable_linked; [by eapply placed_durable, Hdur|exact Hrel].
Qed.
End theorems.

(** ** The conditional head of the in-memory store *)

Lemma StateKey_prefix name : StateKey name = VolumePrefix name +:+ "state.json".
Proof.
  unfold StateKey, VolumePrefix. rewrite <-!string_app_assoc'. done.
Qed.

(** The state document is none of the immutable objects. *)
Lemma conditional_not_head {S} `{Store S} name k :
  isImmutableObject (VolumePrefix name) k = true → head_owns (S := S) name k = false.
Proof.
  intros Hk. cbn [head_owns conditionalHead]. unfold ch_owns. apply bool_decide_eq_false. intros ->. revert Hk.
  unfold isImmutableObject. rewrite StateKey_prefix, !HasPrefix_both. done.
Qed.

(** A volume that one node creates and publishes to.  The answer to the first
    commit of the publication is lost, and so is the read that follows; the
    node tries again. *)
Definition lease_time : Z := 1700000000 * 10 ^ 9.
Definition lease_ttl : Z := 30 * 10 ^ 9.
Definition lease_opts : CreateOptions := mkCreateOptions (4 * DefaultBlockSize) EmptyString.
Definition lease_doc0 : State := acquired lease_ttl "node" "token" lease_time (new_volume "vol" "id" lease_opts).
Definition lease_manifest : Manifest := next_manifest lease_doc0 "delta" [segmentReference lease_doc0 sample_segment] lease_time.
Definition lease_manifest_json : Json Manifest := table_json [lease_manifest].
Definition lease_prepared : preparedManifest := @prepared_of toy_digest lease_doc0 lease_manifest (be_encode 2 0).
Definition lease_doc1 : State := publish_candidate lease_ttl lease_time lease_prepared true None lease_doc0.
Definition lease_state_json : Json State := table_json [lease_doc0; lease_doc1].
Definition lease_bundle_json : Json manifestBundle := no_bundle_json.
#[local] Existing Instances toy_digest plain_gzip lease_state_json lease_manifest_json lease_bundle_json.

Definition no_lease : Lease := with_lost (new_lease (new_volume "vol" EmptyString lease_opts) EmptyString).
Definition calm (f : fault) : event (S := Memory) := mkEvent id id f.
Definition lease_world : World (S := Memory) :=
  mkWorld NewMemory no_lease [calm Delivered; calm Delivered; calm (LostResponse ErrIO); calm (LostRequest ErrIO)] (fun _ => lease_time) 0.

Definition lease_start : list lease_op := [OpAcquire "node" "id" "token" lease_opts; OpPublish id [sample_segment]].
Definition lease_retry : World (S := Memory) := run_ops lease_ttl "vol" lease_start lease_world.

Lemma lease_exact (st : State) b : Marshal st = Ok b → Unmarshal b = Ok st.
Proof. apply table_exact. done. Qed.

Lemma lease_world_ok : world_ok "vol" lease_world.
Proof.
  split; [split; [split; [apply NewMemory_inv|done]|]; intros b c Hh; vm_compute in Hh; discriminate Hh|]. split.
  - split; [by split|]. split; [done|]. by split.
  - assert (∀ f, event_ok "vol" (calm f)) as Hcalm.
    { intros f. split; [by intros s Hs; apply rel_refl|]. intros s l Hs Hl s' l' [= <- <-]. split; [by apply rel_refl|]. split; [done|apply lease_rel_refl]. }
    repeat (constructor; [apply Hcalm|]). constructor.
Qed.

Lemma lease_retry_ok : world_ok "vol" lease_retry.
Proof.
  unfold lease_retry, lease_start. cbn [run_ops].
  apply run_op_spec; [apply lease_exact|apply conditional_not_head|by intros us|].
  apply run_op_spec; [apply lease_exact|apply conditional_not_head|done|apply lease_world_ok].
Qed.

(** The first attempt fails although its commit took effect. *)
Lemma lease_first_attempt :
  (run_op lease_ttl "vol" (OpPublish id [sample_segment]) (run_op lease_ttl "vol" (OpAcquire "node" "id" "token" lease_opts) lease_world).1).2
    = Err (Wrap "publish volume head" ErrIO) ∧
  vol "vol" (w_store lease_retry) = Some lease_doc1 ∧ ls_state (w_lease lease_retry) = lease_doc0.
Proof. vm_compute. done. Qed.


Lemma acknowledged_publish_never_lost_witness :
  ∃ head ms m body,
    vol "vol" (w_store lease_retry) = Some head ∧ Marshal m = Ok body ∧
    linked (st_Name head) ms (st_Manifest head) (st_Generation head) (manifest_key "vol" body) (mf_Generation m) ∧
    mf_Kind m = "delta" ∧ same_references (mf_Segments m) [sample_segment] = true.
Proof.
  assert (Publish lease_ttl id [sample_segment] lease_retry = ((Publish lease_ttl id [sample_segment] lease_retry).1, Ok tt)) as Hok.
  { vm_compute. reflexivity. }
  destruct (acknowledged_publish_never_lost lease_ttl "vol" lease_exact (conditional_not_head "vol") id [sample_segment] lease_retry _
      (fun us => Permutation_refl us) lease_retry_ok Hok (w_store (Publish lease_ttl id [sample_segment] lease_retry).1)) as (head & ms & m & body & Hv & Hrest).
  { apply rel_refl.
    destruct (Publish_spec lease_ttl "vol" lease_exact (conditional_not_head "vol") id [sample_segment] lease_retry _ _
      (fun us => Permutation_refl us) lease_retry_ok Hok) as [[(Hs & _) _] _]. exact Hs. }
  exists head, ms, m, body. split; [|exact Hrest]. rewrite <-Hv. vm_compute. reflexivity.
Defined.

(** ** A renewal whose answer is lost costs the lease

    [update] and [commitManifest] remember a commit whose outcome is unknown;
    [renewLocked] does not. *)
Definition renewed_doc (expires : Z) : State :=
  match st_Lease lease_doc1 with Some r => set_lease (Some (extend_lease expires r)) lease_doc1 | None => lease_doc1 end.
Definition renewal_state_json : Json State :=
  table_json [lease_doc0; lease_doc1; renewed_doc (lease_time + 50 * 10 ^ 9); renewed_doc (lease_time + 51 * 10 ^ 9)].
Definition renewal_clock (tick : nat) : Z :=
  if (tick <? 3)%nat then lease_time else if (tick <? 5)%nat then lease_time + 20 * 10 ^ 9 else lease_time + 21 * 10 ^ 9.
Definition renewal_world : World (S := Memory) :=
  mkWorld NewMemory no_lease
    [calm Delivered; calm Delivered; calm (LostResponse ErrIO); calm (LostRequest ErrIO); calm Delivered; calm (LostResponse ErrIO); calm (LostRequest ErrIO)]
    renewal_clock 0.

#[local] Existing Instance renewal_state_json | 0.

(** A node publishes; the answer of the renewal inside its second attempt is
    lost.  The publication succeeds, and the next renewal reports a lost lease
    although the head still carries this node's lease and no other node has
    done anything. *)
Theorem lost_renewal_loses_lease :
  let w0 := run_ops lease_ttl "vol" lease_start renewal_world in
  let w := (Publish lease_ttl id [sample_segment] w0).1 in
  (Publish lease_ttl id [sample_segment] w0).2 = Ok tt ∧
  (Renew lease_ttl w).2 = Err ErrLeaseLost ∧
  vol "vol" (w_store w) = Some (renewed_doc (lease_time + 50 * 10 ^ 9)) ∧
  (Token <$> st_Lease (renewed_doc (lease_time + 50 * 10 ^ 9))) = Some "token".
Proof. vm_compute. done. Qed.
