(* ===== verification/Garbage.v ===== *)
(** * Garbage collection ([internal/replica/remote.go]: [collectGarbage])

    Objects outside the retained history are first named in a garbage record,
    and deleted once the record is older than the grace period. *)
From stdpp Require Import pretty.
From S2P Require Import Prelude Extents Codec File Segment Types Store Head Manifest Plan Lease Publish.
Local Open Scope Z_scope.

Record GCOptions : Type := mkGCOptions { gco_HistoryRetention : Z; gco_GracePeriod : Z }.
Record GCResult : Type := mkGCResult { gcr_Marked : Z; gcr_Deleted : Z }.

(** ** What is retained *)

(** The index of the last retained manifest: the newest checkpoint that is old
    enough, or the end of the history. *)
Fixpoint keep_through (cutoff : Z) (history : list manifestEntry) : nat :=
  match history with
  | [] => 0
  | entry :: rest =>
      if bool_decide (mf_Kind (e_manifest entry) = "checkpoint") && negb (time_After (mf_CreatedAt (e_manifest entry)) cutoff) then 0
      else match rest with [] => 0 | _ => Datatypes.S (keep_through cutoff rest) end
  end.

Definition retained (cutoff : Z) (history : list manifestEntry) : list manifestEntry :=
  take (Datatypes.S (keep_through cutoff history)) history.

(** [keep[key] = struct{}{}], unless the key is empty. *)
Definition keep_key (key : string) (keep : gset string) : gset string :=
  if bool_decide (key = EmptyString) then keep else {[key]} ∪ keep.

Section keep.
Context `{Digest} `{Json manifestBundle}.
Context (fetched : string → result bytes) (fuel : nat) (l : loader).

(** The references of one manifest; [cache] are the bundles loaded so far. *)
Fixpoint keep_refs (refs : list ObjectRef) (cache : bundle_cache) (keep : gset string) : result (bundle_cache * gset string) :=
  match refs with
  | [] => Ok (cache, keep)
  | ref :: rest =>
      let keep := keep_key (ref_SourceBundle ref) (keep_key (ref_SourceManifest ref) (keep_key (ref_Key ref) keep)) in
      if negb (bool_decide (ref_SourceManifest ref = EmptyString)) && bool_decide (ref_SourceBundle ref = EmptyString) &&
         bool_decide (ref_InlineData ref = []) then
        match findBundlePath fetched fuel l cache (ref_SourceManifest ref) with
        | (_, Err e) => Err (Wrap "locate inline segment source %s" e)
        | (cache, Ok path) => keep_refs rest cache (list_to_set (default [] path) ∪ keep)
        end
      else keep_refs rest cache keep
  end.

Fixpoint keep_entries (entries : list manifestEntry) (cache : bundle_cache) (keep : gset string) : result (gset string) :=
  match entries with
  | [] => Ok keep
  | entry :: rest =>
      '(cache, keep) ← keep_refs (mf_Segments (e_manifest entry)) cache (keep_key (e_bundle entry) (keep_key (e_key entry) keep));
      keep_entries rest cache keep
  end.
End keep.

Section collect.
Context {S : Type} `{Store S} `{VolumeHead S} `{Digest} `{Json Manifest} `{Json manifestBundle} `{Json gcRecord}.
Implicit Types w : World (S := S).

(** The keys to keep of a volume with this history; [fetched] are the answers of
    the store to the reads of the history and of the bundles. *)
Definition keep_set (fetched : string → result bytes) (fuel : nat) (state : State) (cutoff : Z) (history : list manifestEntry) : result (gset string) :=
  keep_entries fetched fuel (newManifestSourceLoader state) (retained cutoff history) ∅ ∅.

(** ** The sweep *)

Record sweep : Type := mkSweep { sw_marked : gset string; sw_deleted : gset string; sw_count : Z }.

(** [r.Store.Delete] as a call that answers. *)
Definition delete_object (key : string) : S → S * result unit :=
  fun s => let '(s, e) := store_Delete s key in (s, match e with Some e => Err e | None => Ok tt end).

(** The objects of a record whose time has come. *)
Fixpoint delete_garbage (prefix : string) (keep : gset string) (candidates : list string) (sw : sweep) w : World * sweep * option error :=
  match candidates with
  | [] => (w, sw, None)
  | candidate :: rest =>
      if bool_decide (candidate ∈ keep) || negb (isImmutableObject prefix candidate) then delete_garbage prefix keep rest sw w else
      match call_unlocked (delete_object candidate) w with
      | (w, Err e) => (w, sw, Some (Wrap "delete garbage object %s" e))
      | (w, Ok _) => delete_garbage prefix keep rest (mkSweep (sw_marked sw) ({[candidate]} ∪ sw_deleted sw) (sw_count sw + 1)) w
      end
  end.

Definition stillHeld (l : Lease) : option error := if not_held l then Some ErrLeaseLost else None.

(** One garbage record. *)
Definition sweep_record (state : State) (opts : GCOptions) (keep : gset string) (t : Z) (key : string) (sw : sweep) w : World * sweep * option error :=
  match call_unlocked (fun s => (s, store_Get s key)) w with
  | (w, Err e) => (w, sw, Some e)
  | (w, Ok obj) =>
      match Unmarshal (obj_Data obj) with
      | Err e => (w, sw, Some (Wrap "decode garbage record %s" e))
      | Ok record =>
          if negb (bool_decide (gc_Format record = Format)) || negb (bool_decide (gc_VolumeID record = st_ID state)) || time_IsZero (gc_CreatedAt record)
          then (w, sw, Some (Errorf "invalid garbage record %s")) else
          let sw := mkSweep (list_to_set (gc_Objects record) ∪ sw_marked sw) (sw_deleted sw) (sw_count sw) in
          if time_After (gc_CreatedAt record + gco_GracePeriod opts) t then (w, sw, None) else
          match stillHeld (w_lease w) with
          | Some e => (w, sw, Some e)
          | None =>
              match delete_garbage (VolumePrefix (st_Name state)) keep (gc_Objects record) sw w with
              | (w, sw, Some e) => (w, sw, Some e)
              | (w, sw, None) =>
                  match call_unlocked (delete_object key) w with
                  | (w, Err e) => (w, sw, Some (Wrap "delete garbage record %s" e))
                  | (w, Ok _) => (w, sw, None)
                  end
              end
          end
      end
  end.

Fixpoint sweep_records (state : State) (opts : GCOptions) (keep : gset string) (t : Z) (keys : list string) (sw : sweep) w : World * sweep * option error :=
  match keys with
  | [] => (w, sw, None)
  | key :: rest =>
      if negb (HasPrefix key (VolumePrefix (st_Name state) +:+ "gc/")) then sweep_records state opts keep t rest sw w else
      match sweep_record state opts keep t key sw w with
      | (w, sw, Some e) => (w, sw, Some e)
      | (w, sw, None) => sweep_records state opts keep t rest sw w
      end
  end.

(** ** The marks *)

Definition candidate (prefix : string) (keep : gset string) (sw : sweep) (key : string) : bool :=
  isImmutableObject prefix key && negb (bool_decide (key ∈ keep)) && negb (bool_decide (key ∈ sw_deleted sw)) && negb (bool_decide (key ∈ sw_marked sw)).

Definition objectsPerRecord : nat := 1000.

Definition record_key (name : string) (t : Z) (body : bytes) : string :=
  VolumePrefix name +:+ "gc/" +:+ pretty t +:+ "-" +:+ hex_EncodeToString (take 8 (sha256 body)) +:+ ".json".

(** The records of the new candidates; [fuel] bounds the number of batches. *)
Fixpoint mark (fuel : nat) (state : State) (t : Z) (candidates : list string) (marked : Z) w : World * Z * option error :=
  match fuel, candidates with
  | _, [] => (w, marked, None)
  | O, _ => (w, marked, Some OutOfFuel)
  | Datatypes.S fuel, _ =>
      let batch := take objectsPerRecord candidates in
      match Marshal (mkGcRecord Format (st_ID state) t batch) with
      | Err e => (w, marked, Some e)
      | Ok body =>
          match call_unlocked (fun s => store_PutIfAbsent s (record_key (st_Name state) t body) body) w with
          | (w, Err e) =>
              if errors_Is e ErrPreconditionFailed then mark fuel state t (drop objectsPerRecord candidates) (marked + Z.of_nat (length batch)) w
              else (w, marked, Some (Wrap "write garbage record" e))
          | (w, Ok _) => mark fuel state t (drop objectsPerRecord candidates) (marked + Z.of_nat (length batch)) w
          end
      end
  end.

(** [collectGarbage]; the result so far is returned with an error too. *)
Definition collectGarbage (fetched : string → result bytes) (fuel : nat) (state : State) (opts : GCOptions) w : World * GCResult * option error :=
  match loadHistory fetched fuel state with
  | Err e => (w, mkGCResult 0 0, Some e)
  | Ok history =>
      let '(w, kept) :=
        if bool_decide (history = []) then (w, Ok ∅)
        else let '(w, t) := now w in (w, keep_set fetched fuel state (t - gco_HistoryRetention opts) history) in
      match kept with
      | Err e => (w, mkGCResult 0 0, Some e)
      | Ok keep =>
          match call_unlocked (fun s => (s, store_List s (VolumePrefix (st_Name state)))) w with
          | (w, Err e) => (w, mkGCResult 0 0, Some e)
          | (w, Ok keys) =>
              let '(w, t) := now w in
              match sweep_records state opts keep t keys (mkSweep ∅ ∅ 0) w with
              | (w, sw, Some e) => (w, mkGCResult 0 (sw_count sw), Some e)
              | (w, sw, None) =>
                  let candidates := merge_sort String.le (List.filter (candidate (VolumePrefix (st_Name state)) keep sw) keys) in
                  match (if bool_decide (candidates = []) then None else stillHeld (w_lease w)) with
                  | Some e => (w, mkGCResult 0 (sw_count sw), Some e)
                  | None =>
                      let '(w, marked, err) := mark (length candidates) state t candidates 0 w in
                      (w, mkGCResult marked (sw_count sw), err)
                  end
              end
          end
      end
  end.

Definition CollectGarbage (fetched : string → result bytes) (fuel : nat) (opts : GCOptions) w : World * GCResult * option error :=
  if (gco_HistoryRetention opts <? 0) || (gco_GracePeriod opts <? 0) then (w, mkGCResult 0 0, Some (Errorf "garbage collection durations cannot be negative")) else
  if not_held (w_lease w) then (w, mkGCResult 0 0, Some ErrLeaseLost) else
  collectGarbage fetched fuel (ls_state (w_lease w)) opts w.
End collect.
