(* ===== verification/GarbageProps.v ===== *)
(** * Garbage collection removes only garbage

    What a collection may delete: objects outside the retained history that a
    record of the volume has named for at least the grace period; and a
    collection does not change what a restore of the head writes. *)
From stdpp Require Import pretty.
From S2P Require Import Prelude Extents Codec File Segment Types Store Head Manifest Plan Restore Lease Publish Garbage.
Local Open Scope Z_scope.

Section collect.
Context {S : Type} `{ConditionalStore S} `{Digest} `{Json Manifest} `{Json manifestBundle} `{Json gcRecord}.
Context (state : State) (opts : GCOptions) (k : string) (d : bytes).
Implicit Types (s : S) (w : World (S := S)).

Definition gc_prefix : string := VolumePrefix (st_Name state) +:+ "gc/".

(** The data [d] is there at [k]; the key is a hash, and nothing else is ever
    stored at it. *)
Definition holds s : Prop := ∃ e, objects s !! k = Some (mkObject d e).
Definition present w : Prop := holds (w_store w).
Definition only_that s : Prop := objects s !! k = None ∨ holds s.

(** What other nodes and this node's other calls leave alone: the data at [k],
    and the garbage records. *)
Definition leaves_alone (e : event (S := S)) : Prop :=
  ∀ s l, store_inv s → honours s →
    let s' := (ev_unlocked e (s, l)).1 in
    store_inv s' ∧ honours s' ∧ (holds s → holds s') ∧ (only_that s → only_that s') ∧
    ∀ key, HasPrefix key gc_prefix = true → objects s' !! key = objects s !! key.

Definition gc_world w : Prop :=
  store_inv (w_store w) ∧ honours (w_store w) ∧ only_that (w_store w) ∧ Forall leaves_alone (w_events w).

(** The records are those of [s0], or gone. *)
Definition records_from (m0 : gmap string Object) w : Prop :=
  ∀ key x, HasPrefix key gc_prefix = true → objects (w_store w) !! key = Some x → m0 !! key = Some x.

(** A call that changes at most the object [target], and can only remove [k]. *)
Definition only_changes {A} (target : string) (op : S → S * result A) : Prop :=
  ∀ s, store_inv s → honours s →
    store_inv (op s).1 ∧ honours (op s).1 ∧ (∀ key, key ≠ target → objects (op s).1 !! key = objects s !! key) ∧
    (k = target → objects (op s).1 !! k = objects s !! k ∨ objects (op s).1 !! k = None).

Lemma faulty_only {A} f target (op : S → S * result A) : only_changes target op → only_changes target (faulty f op).
Proof. intros Hop s Hi Hh. destruct f; cbn [faulty fst]; [by apply Hop| |by apply Hop]. split; [done|]. split; [done|]. split; [done|]. by left. Qed.

Lemma only_changes_that {A} target (op : S → S * result A) s :
  only_changes target op → store_inv s → honours s → only_that s → only_that (op s).1 ∧ (k ≠ target → holds s → holds (op s).1).
Proof.
  intros Hop Hi Hh Ht. destruct (Hop s Hi Hh) as (_ & _ & Ho & Hr). unfold only_that, holds in *. destruct (decide (k = target)) as [Heq|Hne].
  - split; [|done]. destruct (Hr Heq) as [-> | ->]; [done|by left].
  - rewrite (Ho k Hne). done.
Qed.

Lemma call_only {A} target (op : S → S * result A) w w' r :
  only_changes target op → gc_world w → call_unlocked op w = (w', r) →
  gc_world w' ∧ (k ≠ target → present w → present w') ∧
  ∀ key, HasPrefix key gc_prefix = true → key ≠ target → objects (w_store w') !! key = objects (w_store w) !! key.
Proof.
  intros Hop (Hi & Hh & Ht & He). unfold call_unlocked, present. destruct w as [s l evs clk t]. cbn [w_store w_lease w_events w_clock w_ticks] in *.
  destruct evs as [|e evs].
  - destruct (Hop s Hi Hh) as (Hi' & Hh' & Ho & _). destruct (only_changes_that target op s Hop Hi Hh Ht) as [Ht' Hp'].
    destruct (op s) as [s1 r1]. intros [= <- <-]. split; [done|]. cbn [fst w_store set_store] in *. split; [done|]. intros key _. by apply Ho.
  - apply Forall_cons in He as [Hle He]. specialize (Hle s l Hi Hh). destruct (ev_unlocked e (s, l)) as [s0 l0]. cbn [fst] in Hle.
    destruct Hle as (Hi0 & Hh0 & Hp0 & Ht0 & Ho0). pose proof (faulty_only (ev_fault e) target op Hop) as Hf. destruct (Hf s0 Hi0 Hh0) as (Hi' & Hh' & Ho & _).
    destruct (only_changes_that target _ s0 Hf Hi0 Hh0 (Ht0 Ht)) as [Ht' Hp'].
    destruct (faulty (ev_fault e) op s0) as [s1 r1]. intros [= <- <-]. split; [done|]. cbn [fst w_store] in *.
    split; [by auto|]. intros key Hw Hk. by rewrite (Ho key Hk), Ho0.
Qed.

Lemma delete_only key : only_changes key (delete_object key).
Proof.
  intros s Hi Hh. unfold delete_object. pose proof (delete_honours s key Hh) as Hh'. destruct (store_Delete s key) as [s' e] eqn:Hd.
  destruct (delete_law _ _ _ _ Hi Hd) as (Hi' & _ & Ho). cbn [fst] in *. split; [done|]. split; [done|]. split.
  - intros key' Hne. by rewrite Ho, lookup_delete_ne.
  - intros ->. right. by rewrite Ho, lookup_delete_eq.
Qed.

Lemma put_only key body : k ≠ key → only_changes key (fun s => store_PutIfAbsent s key body).
Proof.
  intros Hkey s Hi Hh. destruct (store_PutIfAbsent s key body) as [s' r] eqn:Hp. destruct (putIfAbsent_law _ _ _ _ _ Hi Hh Hp) as (Hi' & Hh' & _ & Hr). cbn [fst].
  split; [done|]. split; [done|]. split; [|done]. intros key' Hne. destruct (objects s !! key); [by destruct Hr as [-> _]|].
  destruct Hr as (e & _ & ->). by rewrite lookup_insert_ne.
Qed.

(** Reads change nothing. *)
Lemma call_pure {A} (f : S → result A) w w' r :
  gc_world w → call_unlocked (fun s => (s, f s)) w = (w', r) →
  gc_world w' ∧ (present w → present w') ∧ (∀ key, HasPrefix key gc_prefix = true → objects (w_store w') !! key = objects (w_store w) !! key) ∧
  ∀ a, r = Ok a → f (w_store w') = Ok a.
Proof.
  intros Hw Hc. assert (∀ target, only_changes target (fun s => (s, f s))) as Hpure
    by (intros target s Hi Hh; split; [done|]; split; [done|]; split; [done|]; by left).
  assert (∀ key, key ≠ key +:+ "x") as Hother by (intros key; induction key as [|c key IH]; [done|]; intros Heq; injection Heq as Heq; by apply IH).
  split; [by destruct (call_only EmptyString _ _ _ _ (Hpure _) Hw Hc)|].
  split; [destruct (call_only (k +:+ "x") _ _ _ _ (Hpure _) Hw Hc) as (_ & Hp & _); by apply Hp|].
  split; [intros key Hk; destruct (call_only (key +:+ "x") _ _ _ _ (Hpure _) Hw Hc) as (_ & _ & Ho); by apply Ho|].
  intros a ->. revert Hc. unfold call_unlocked.
  destruct (w_events w) as [|e evs]; [by intros [= <- ?]|]. destruct (ev_unlocked e _) as [s0 l0]. destruct (ev_fault e); cbn [faulty]; by intros [= <- ?].
Qed.

(** ** The sweep *)

Definition prefix : string := VolumePrefix (st_Name state).

Lemma immutable_not_record key : isImmutableObject prefix key = true → HasPrefix key gc_prefix = false.
Proof.
  intros Hi. apply not_true_iff_false. intros Hg. unfold isImmutableObject in Hi. rewrite !orb_true_iff in Hi. unfold gc_prefix, prefix in *.
  destruct Hi as [[Hi|Hi]|Hi]; destruct (HasPrefix_comparable _ _ _ Hi Hg) as [Hc|Hc]; rewrite HasPrefix_both in Hc; done.
Qed.

(** Deleting the garbage of a record: only what it names, is not kept and is
    immutable. *)
Lemma delete_garbage_spec keep cands sw w w' sw' err m0 :
  gc_world w → records_from m0 w → delete_garbage prefix keep cands sw w = (w', sw', err) →
  gc_world w' ∧ records_from m0 w' ∧
  (present w → present w' ∨ (k ∈ cands ∧ k ∉ keep ∧ isImmutableObject prefix k = true)).
Proof.
  revert sw w. induction cands as [|c cands IH]; intros sw w Hw Hr; cbn [delete_garbage]; [intros [= <- <- <-]; by auto|].
  assert (∀ sw, delete_garbage prefix keep cands sw w = (w', sw', err) →
    gc_world w' ∧ records_from m0 w' ∧ (present w → present w' ∨ (k ∈ c :: cands ∧ k ∉ keep ∧ isImmutableObject prefix k = true))) as Hskip.
  { intros sw0 Hd. destruct (IH _ _ Hw Hr Hd) as (? & ? & Hcase). split; [done|]. split; [done|]. intros [?|[? ?]]%Hcase; [by left|].
    right. split; [by right|done]. }
  destruct (bool_decide (c ∈ keep)) eqn:Hk; cbn [orb]; [by apply Hskip|].
  destruct (isImmutableObject prefix c) eqn:Him; cbn [negb]; [|by apply Hskip].
  clear Hskip. apply bool_decide_eq_false in Hk. destruct (call_unlocked (delete_object c) w) as [w1 r1] eqn:Hc.
  destruct (call_only c _ _ _ _ (delete_only c) Hw Hc) as (Hw1 & Hp1 & Ho1).
  assert (records_from m0 w1) as Hr1.
  { intros key x Hp Hx. apply Hr; [done|]. rewrite <-Hx. symmetry. apply Ho1; [done|]. intros ->. rewrite (immutable_not_record c Him) in Hp. done. }
  assert (present w → present w1 ∨ (k = c ∧ k ∉ keep ∧ isImmutableObject prefix k = true)) as Hkc.
  { intros Hp. destruct (decide (k = c)) as [Heq|Hne]; [right; split; [done|]; by rewrite Heq|left; by apply Hp1]. }
  destruct r1 as [u|e].
  - intros Hd. destruct (IH _ _ Hw1 Hr1 Hd) as (Hw2 & Hr2 & Hcase). split; [done|]. split; [done|].
    intros [Hp|[Heq Hrest]]%Hkc; [apply Hcase in Hp as [?|[? ?]]; [by left|right; split; [by right|done]]|]. right. split; [rewrite Heq; by left|done].
  - intros [= <- <- <-]. split; [done|]. split; [done|]. intros [?|[Heq Hrest]]%Hkc; [by left|]. right. split; [rewrite Heq; by left|done].
Qed.

(** A deleted record is gone, or the request was lost. *)
Lemma call_delete key w w' r :
  gc_world w → HasPrefix key gc_prefix = true → call_unlocked (delete_object key) w = (w', r) →
  objects (w_store w') !! key = objects (w_store w) !! key ∨ objects (w_store w') !! key = None.
Proof.
  assert (∀ s, store_inv s → objects (delete_object key s).1 !! key = None) as Hdel.
  { intros s Hi. unfold delete_object. destruct (store_Delete s key) as [s' e] eqn:Hd. destruct (delete_law _ _ _ _ Hi Hd) as (_ & _ & Ho).
    cbn [fst]. by rewrite Ho, lookup_delete_eq. }
  intros (Hi & Hh & _ & He) Hk. unfold call_unlocked. destruct w as [s l evs clk t]. cbn [w_store w_lease w_events w_clock w_ticks] in *.
  destruct evs as [|e evs].
  - specialize (Hdel s Hi). destruct (delete_object key s) as [s1 r1]. intros [= <- <-]. by right.
  - apply Forall_cons in He as [Hle He]. specialize (Hle s l Hi Hh). destruct (ev_unlocked e (s, l)) as [s0 l0]. cbn [fst] in Hle.
    destruct Hle as (Hi0 & Hh0 & _ & _ & Ho0). specialize (Hdel s0 Hi0).
    destruct (ev_fault e); cbn [faulty]; [destruct (delete_object key s0)| |destruct (delete_object key s0)]; intros [= <- <-];
      first [by right|left; by apply Ho0].
Qed.

(** Why the object at [k] may be gone: it is outside what is kept and a record
    that the volume had at the start names it, and was made at least the grace
    period before [t]. *)
Definition garbage (m0 : gmap string Object) (keep : gset string) (t : Z) : Prop :=
  k ∉ keep ∧ isImmutableObject prefix k = true ∧
  ∃ key x record, HasPrefix key gc_prefix = true ∧ m0 !! key = Some x ∧ Unmarshal (obj_Data x) = Ok record ∧
    gc_VolumeID record = st_ID state ∧ k ∈ gc_Objects record ∧ gc_CreatedAt record + gco_GracePeriod opts ≤ t.

Context (Hk : HasPrefix k gc_prefix = false).

Lemma sweep_record_spec keep t key sw w w' sw' err m0 :
  gc_world w → records_from m0 w → HasPrefix key gc_prefix = true → sweep_record state opts keep t key sw w = (w', sw', err) →
  gc_world w' ∧ records_from m0 w' ∧ (present w → present w' ∨ garbage m0 keep t).
Proof using Hk.
  intros Hw Hr Hkey. unfold sweep_record. destruct (call_unlocked (fun s => (s, store_Get s key)) w) as [w1 r1] eqn:Hc.
  destruct (call_pure _ _ _ _ Hw Hc) as (Hw1 & Hp1 & Ho1 & Hget).
  assert (records_from m0 w1) as Hr1 by (intros key' x Hp Hx; apply Hr; [done|]; rewrite <-Hx; symmetry; by apply Ho1).
  assert (∀ sw0 err0, (w1, sw0, err0) = (w', sw', err) → gc_world w' ∧ records_from m0 w' ∧ (present w → present w' ∨ garbage m0 keep t)) as Hstop.
  { intros sw0 err0 [= <- _ _]. split; [done|]. split; [done|]. intros Hp. left. by apply Hp1. }
  destruct r1 as [obj|e]; [|by apply Hstop]. specialize (Hget obj eq_refl). rewrite get_law in Hget by apply Hw1.
  destruct (objects (w_store w1) !! key) as [x|] eqn:Hobj; [|done]. injection Hget as ->.
  destruct (Unmarshal (obj_Data obj)) as [record|e] eqn:Hrec; [|by apply Hstop].
  destruct (_ || _) eqn:Hvalid; [by apply Hstop|]. rewrite !orb_false_iff, !negb_false_iff, !bool_decide_eq_true in Hvalid. destruct Hvalid as [[_ Hid] _].
  set (sw1 := mkSweep _ _ _). destruct (time_After _ _) eqn:Hage; [by apply Hstop|]. unfold time_After in Hage. apply Z.ltb_ge in Hage.
  destruct (stillHeld (w_lease w1)); [by apply Hstop|].
  destruct (delete_garbage (VolumePrefix (st_Name state)) keep (gc_Objects record) sw1 w1) as [[w2 sw2] err2] eqn:Hdel.
  destruct (delete_garbage_spec keep _ _ _ _ _ _ m0 Hw1 Hr1 Hdel) as (Hw2 & Hr2 & Hk2).
  assert (present w → present w2 ∨ garbage m0 keep t) as Hk2'.
  { intros Hp. destruct (Hk2 (Hp1 Hp)) as [?|(Hin & Hnk & Him)]; [by left|]. right. split; [done|]. split; [done|]. exists key, obj, record.
    split; [done|]. split; [by apply Hr1|]. done. }
  destruct err2; [intros [= <- <- <-]; done|]. destruct (call_unlocked (delete_object key) w2) as [w3 r3] eqn:Hc3.
  destruct (call_only key _ _ _ _ (delete_only key) Hw2 Hc3) as (Hw3 & Hp3 & Ho3).
  assert (records_from m0 w3) as Hr3.
  { intros key' x Hp Hx. destruct (decide (key' = key)) as [->|Hne].
    - destruct (call_delete key _ _ _ Hw2 Hp Hc3) as [Heq|Hnone]; [|congruence]. apply Hr2; [done|]. congruence.
    - apply Hr2; [done|]. rewrite <-Hx. symmetry. by apply Ho3. }
  assert (present w → present w3 ∨ garbage m0 keep t) as Hk3.
  { intros [Hp|?]%Hk2'; [|by right]. left. apply Hp3; [|done]. intros Heq. by rewrite Heq, Hkey in Hk. }
  destruct r3; intros [= <- <- <-]; done.
Qed.

Lemma sweep_records_spec keep t keys sw w w' sw' err m0 :
  gc_world w → records_from m0 w → sweep_records state opts keep t keys sw w = (w', sw', err) →
  gc_world w' ∧ (present w → present w' ∨ garbage m0 keep t).
Proof using Hk.
  revert sw w. induction keys as [|key keys IH]; intros sw w Hw Hr; cbn [sweep_records]; [intros [= <- <- <-]; split; [done|by left]|].
  destruct (HasPrefix key _) eqn:Hp; cbn [negb]; [|by apply IH].
  destruct (sweep_record state opts keep t key sw w) as [[w1 sw1] [e|]] eqn:Hs;
    destruct (sweep_record_spec _ _ _ _ _ _ _ _ m0 Hw Hr Hp Hs) as (Hw1 & Hr1 & Hk1); [intros [= <- <- <-]; exact (conj Hw1 Hk1)|].
  intros Hrest. destruct (IH _ _ Hw1 Hr1 Hrest) as [Hw2 Hk2]. split; [done|].
  intros [?|?]%Hk1; [by apply Hk2|by right].
Qed.

(** ** The marks *)

Lemma record_key_prefix t body : HasPrefix (record_key (st_Name state) t body) gc_prefix = true.
Proof. unfold record_key, gc_prefix. rewrite HasPrefix_both. apply HasPrefix_app. Qed.

Lemma mark_spec fuel t cands n w w' n' err :
  gc_world w → mark fuel state t cands n w = (w', n', err) → gc_world w' ∧ (present w → present w').
Proof using Hk.
  revert cands n w. induction fuel as [|fuel IH]; intros [|c cands] n w Hw; cbn [mark]; try (intros [= <- <- <-]; by split).
  destruct (Marshal _) as [body|e]; [|intros [= <- <- <-]; by split].
  assert (k ≠ record_key (st_Name state) t body) as Hne by (intros Heq; by rewrite Heq, record_key_prefix in Hk).
  destruct (call_unlocked _ w) as [w1 r1] eqn:Hc. destruct (call_only _ _ _ _ _ (put_only _ _ Hne) Hw Hc) as (Hw1 & Hp1 & _). specialize (Hp1 Hne).
  assert (∀ n, mark fuel state t (drop objectsPerRecord (c :: cands)) n w1 = (w', n', err) → gc_world w' ∧ (present w → present w')) as Hnext.
  { intros n0 Hm. destruct (IH _ _ _ Hw1 Hm) as [? ?]. split; [done|]. by auto. }
  destruct r1 as [u|e]; [by apply Hnext|]. destruct (errors_Is e _); [by apply Hnext|]. intros [= <- <- <-]. by split.
Qed.

(** ** The whole collection *)

(** Calls take no time of their own: the clock moves when it is read. *)
Lemma call_clock {A} (op : S → S * result A) w w' r :
  call_unlocked op w = (w', r) → w_clock w' = w_clock w ∧ w_ticks w' = w_ticks w.
Proof.
  unfold call_unlocked. destruct (w_events w) as [|e evs]; [destruct (op _); by intros [= <- <-]|].
  destruct (ev_unlocked e _) as [s l]. destruct (faulty _ _ _). by intros [= <- <-].
Qed.

Lemma now_spec w : gc_world w → gc_world (now w).1 ∧ w_store (now w).1 = w_store w.
Proof. by destruct w. Qed.

(** What a collection keeps that begins at time [t0]. *)
Definition collected_keep (fetched : string → result bytes) (fuel : nat) (t0 : Z) (keep : gset string) : Prop :=
  ∃ history, loadHistory fetched fuel state = Ok history ∧
    (if bool_decide (history = []) then Ok ∅ else keep_set fetched fuel state (t0 - gco_HistoryRetention opts) history) = Ok keep.

Lemma collected_keep_unique fetched fuel t0 keep keep' :
  collected_keep fetched fuel t0 keep → collected_keep fetched fuel t0 keep' → keep = keep'.
Proof. intros (history & Hh & Hset) (history' & Hh' & Hset'). rewrite Hh in Hh'. injection Hh' as <-. rewrite Hset in Hset'. by injection Hset'. Qed.

(** A collection that cannot tell what to keep changes nothing. *)
Lemma collectGarbage_starts fetched fuel w w' res err :
  collectGarbage fetched fuel state opts w = (w', res, err) →
  w_store w' = w_store w ∨ ∃ keep, collected_keep fetched fuel (w_clock w (w_ticks w)) keep.
Proof.
  unfold collectGarbage. destruct (loadHistory fetched fuel state) as [history|e] eqn:Hh; [|intros [= <- _ _]; by left].
  destruct (bool_decide (history = [])) eqn:Hnil; [intros _; right; exists ∅, history; by rewrite Hnil|].
  destruct (now w) as [w0 t0] eqn:Hn. injection Hn as <- <-. destruct (keep_set _ _ _ _ _) as [keep|e] eqn:Hset; [|intros [= <- _ _]; by left].
  intros _. right. exists keep, history. by rewrite Hnil.
Qed.

Lemma collectGarbage_spec fetched fuel w w' res err :
  gc_world w → collectGarbage fetched fuel state opts w = (w', res, err) → present w →
  gc_world w' ∧ (present w' ∨ ∃ keep n, collected_keep fetched fuel (w_clock w (w_ticks w)) keep ∧
    (w_ticks w ≤ n ≤ Datatypes.S (w_ticks w))%nat ∧ garbage (objects (w_store w)) keep (w_clock w n)).
Proof using Hk.
  intros Hw Hgc Hp. revert Hgc. unfold collectGarbage.
  destruct (loadHistory fetched fuel state) as [history|e] eqn:Hh; [|intros [= <- <- <-]; split; [done|by left]].
  set (first := if bool_decide (history = []) then _ else _).
  assert (gc_world first.1 ∧ w_store first.1 = w_store w ∧
    (w_clock first.1 = w_clock w ∧ w_ticks w ≤ w_ticks first.1 ≤ Datatypes.S (w_ticks w))%nat ∧
    ∀ keep, first.2 = Ok keep → collected_keep fetched fuel (w_clock w (w_ticks w)) keep) as Hfirst.
  { subst first. case_bool_decide as Hnil.
    - cbn [fst snd]. split; [done|]. split; [done|]. split; [split; [done|cbn; lia]|]. intros keep [= <-]. exists history. by rewrite (bool_decide_eq_true_2 _ Hnil).
    - destruct (now w) as [w0 t0] eqn:Hn. destruct (now_spec w Hw) as [Hw0 Hs0]. rewrite Hn in Hw0, Hs0. cbn [fst snd] in *.
      injection Hn as <- <-. cbn [w_clock w_ticks]. split; [done|]. split; [done|]. split; [split; [done|cbn; lia]|]. intros keep Hkeep. exists history. by rewrite (bool_decide_eq_false_2 _ Hnil). }
  destruct first as [w0 kept]. cbn [fst snd] in Hfirst. destruct Hfirst as (Hw0 & Hs0 & [Hc0 Ht0] & Hkept).
  assert (present w0) as Hp0 by (unfold present; by rewrite Hs0). rewrite <-Hs0.
  destruct kept as [keep|e]; [|intros [= <- <- <-]; split; [done|by left]]. specialize (Hkept keep eq_refl).
  destruct (call_unlocked _ w0) as [w1 r1] eqn:Hc. destruct (call_pure _ _ _ _ Hw0 Hc) as (Hw1 & Hp1 & Ho1 & _). specialize (Hp1 Hp0).
  destruct r1 as [keys|e]; [|intros [= <- <- <-]; split; [done|by left]].
  destruct (call_clock _ _ _ _ Hc) as [Hc1 Ht1].
  destruct (now w1) as [w2 t] eqn:Hn. destruct (now_spec w1 Hw1) as [Hw2 Hs2]. rewrite Hn in Hw2, Hs2. cbn [fst] in Hw2, Hs2.
  assert (t = w_clock w (w_ticks w1)) as Ht by (injection Hn as _ <-; by rewrite Hc1, Hc0).
  assert (present w2) as Hp2 by (unfold present; by rewrite Hs2).
  assert (records_from (objects (w_store w0)) w2) as Hr2.
  { intros key x Hx Ho. rewrite Hs2 in Ho. rewrite <-Ho. symmetry. by apply Ho1. }
  destruct (sweep_records state opts keep t keys _ w2) as [[w3 sw] serr] eqn:Hsw.
  destruct (sweep_records_spec _ _ _ _ _ _ _ _ _ Hw2 Hr2 Hsw) as [Hw3 Hk3]. specialize (Hk3 Hp2).
  assert (∀ wx, gc_world wx → (present w3 → present wx) →
    gc_world wx ∧ (present wx ∨ ∃ keep n, collected_keep fetched fuel (w_clock w (w_ticks w)) keep ∧
      (w_ticks w ≤ n ≤ Datatypes.S (w_ticks w))%nat ∧ garbage (objects (w_store w0)) keep (w_clock w n))) as Hdone.
  { intros wx Hwx Hx. split; [done|]. destruct Hk3 as [Hp3|Hg]; [left; by apply Hx|right; exists keep, (w_ticks w1)].
    split; [done|]. split; [by rewrite Ht1|]. by rewrite <-Ht. }
  destruct serr as [e|]; [intros [= <- <- <-]; by apply Hdone|].
  set (cands := merge_sort _ _). destruct (if bool_decide (cands = []) then _ else _) as [e|]; [intros [= <- <- <-]; by apply Hdone|].
  destruct (mark _ state t cands 0 w3) as [[w4 n] merr] eqn:Hm. destruct (mark_spec _ _ _ _ _ _ _ _ Hw3 Hm) as [Hw4 Hk4].
  intros [= <- <- <-]. by apply Hdone.
Qed.
End collect.
