(* ===== verification/GarbageTheorems.v ===== *)
(** * What a collection preserves

    A collection deletes only objects outside the retained history that a record
    has named for the grace period, and a restore of the head is the same after
    it. *)
From S2P Require Import Prelude Extents Codec File Segment Types Store Head Manifest Plan Restore Lease Publish Volumes Garbage GarbageProps.
Local Open Scope Z_scope.

(** ** The kept keys *)

Section kept.
Context `{Digest} `{Gzip} `{Json Manifest} `{Json manifestBundle}.
Context (Get : string → result bytes) (fuel : nat) (state : State).

Notation l := (newManifestSourceLoader state).

(** What the collection keeps of one reference. *)
Definition ref_kept (keep : gset string) (ref : ObjectRef) : Prop :=
  (ref_Key ref ≠ EmptyString → ref_Key ref ∈ keep) ∧
  (ref_SourceManifest ref ≠ EmptyString → ref_SourceManifest ref ∈ keep) ∧
  (ref_SourceBundle ref ≠ EmptyString → ref_SourceBundle ref ∈ keep) ∧
  (ref_SourceManifest ref ≠ EmptyString → ref_SourceBundle ref = EmptyString → ref_InlineData ref = [] →
   ∃ path, (findBundlePath Get fuel l ∅ (ref_SourceManifest ref)).2 = Ok path ∧ ∀ key, key ∈ default [] path → key ∈ keep).

Definition entry_kept (keep : gset string) (e : manifestEntry) : Prop :=
  (e_key e ≠ EmptyString → e_key e ∈ keep) ∧ (e_bundle e ≠ EmptyString → e_bundle e ∈ keep) ∧
  Forall (ref_kept keep) (mf_Segments (e_manifest e)).

Lemma keep_key_subset key keep : keep ⊆ keep_key key keep.
Proof. unfold keep_key. case_bool_decide; set_solver. Qed.

Lemma keep_key_in key keep : key ≠ EmptyString → key ∈ keep_key key keep.
Proof. intros Hne. unfold keep_key. rewrite bool_decide_eq_false_2 by done. set_solver. Qed.

Lemma ref_kept_mono keep keep' ref : keep ⊆ keep' → ref_kept keep ref → ref_kept keep' ref.
Proof.
  intros Hsub (Hk & Hm & Hb & Hp). split; [by auto|]. split; [by auto|]. split; [by auto|]. intros Hn1 Hn2 Hn3.
  destruct (Hp Hn1 Hn2 Hn3) as (path & Hpath & Hin). exists path. split; [done|]. by auto.
Qed.

Lemma entry_kept_mono keep keep' e : keep ⊆ keep' → entry_kept keep e → entry_kept keep' e.
Proof.
  intros Hsub (Hk & Hb & Hs). split; [by auto|]. split; [by auto|]. eapply Forall_impl; [done|]. intros ref. by apply ref_kept_mono.
Qed.

Lemma findBundlePath_cache cache key :
  cache_ok Get l cache →
  (findBundlePath Get fuel l cache key).2 = (findBundlePath Get fuel l ∅ key).2 ∧ cache_ok Get l (findBundlePath Get fuel l cache key).1.
Proof.
  intros Hc. assert (cache_ok Get l ∅) as He by (intros k b; by rewrite lookup_empty).
  unfold findBundlePath. destruct (ld_inline l !! key); [done|].
  destruct (searchBundleChain_cache Get fuel l key (ld_head l) cache ∅ Hc He) as [Heq Hok].
  destruct (searchBundleChain Get fuel l cache _ _) as [c1 r1], (searchBundleChain Get fuel l ∅ _ _) as [c2 r2].
  cbn [fst snd] in *. subst r2. by destruct r1 as [[[body|] path]|e].
Qed.

Lemma keep_refs_spec refs cache keep cache' keep' :
  cache_ok Get l cache → keep_refs Get fuel l refs cache keep = Ok (cache', keep') →
  cache_ok Get l cache' ∧ keep ⊆ keep' ∧ Forall (ref_kept keep') refs.
Proof.
  revert cache keep. induction refs as [|ref refs IH]; intros cache keep Hc; cbn [keep_refs]; [by intros [= <- <-]|].
  set (keep0 := keep_key (ref_SourceBundle ref) _).
  assert (keep ⊆ keep0 ∧ (ref_Key ref ≠ EmptyString → ref_Key ref ∈ keep0) ∧
    (ref_SourceManifest ref ≠ EmptyString → ref_SourceManifest ref ∈ keep0) ∧ (ref_SourceBundle ref ≠ EmptyString → ref_SourceBundle ref ∈ keep0)) as (Hs0 & Hk0 & Hm0 & Hb0).
  { subst keep0. pose proof keep_key_subset. pose proof keep_key_in. set_solver. }
  destruct (negb _ && _ && _) eqn:Hcond.
  - destruct (findBundlePath_cache cache (ref_SourceManifest ref) Hc) as [Heq Hok].
    destruct (findBundlePath Get fuel l cache _) as [c1 [path|e]]; [|done]. cbn [fst snd] in *. intros Hrest.
    destruct (IH _ _ Hok Hrest) as (Hc' & Hsub & Hrefs). split; [done|]. split; [set_solver|]. constructor; [|done].
    split; [set_solver|]. split; [set_solver|]. split; [set_solver|]. intros _ _ _. exists path. split; [done|]. intros key Hkey. apply Hsub. set_solver.
  - intros Hrest. destruct (IH _ _ Hc Hrest) as (Hc' & Hsub & Hrefs). split; [done|]. split; [set_solver|]. constructor; [|done].
    split; [set_solver|]. split; [set_solver|]. split; [set_solver|]. intros Hn1 Hn2 Hn3. 
    by rewrite (bool_decide_eq_false_2 _ Hn1), (bool_decide_eq_true_2 _ Hn2), (bool_decide_eq_true_2 _ Hn3) in Hcond.
Qed.

Lemma keep_entries_spec entries cache keep keep' :
  cache_ok Get l cache → keep_entries Get fuel l entries cache keep = Ok keep' →
  keep ⊆ keep' ∧ Forall (entry_kept keep') entries.
Proof.
  revert cache keep. induction entries as [|e entries IH]; intros cache keep Hc; cbn [keep_entries]; [by intros [= <-]|].
  set (keep0 := keep_key (e_bundle e) _).
  assert (keep ⊆ keep0 ∧ (e_key e ≠ EmptyString → e_key e ∈ keep0) ∧ (e_bundle e ≠ EmptyString → e_bundle e ∈ keep0)) as (Hs0 & Hk0 & Hb0).
  { subst keep0. pose proof keep_key_subset. pose proof keep_key_in. set_solver. }
  intros ([c1 keep1] & Hrefs & Hrest)%result_bind_Ok. destruct (keep_refs_spec _ _ _ _ _ Hc Hrefs) as (Hc1 & Hs1 & Hr1).
  destruct (IH _ _ Hc1 Hrest) as (Hs2 & He2). split; [set_solver|]. constructor; [|done].
  split; [set_solver|]. split; [set_solver|]. eapply Forall_impl; [exact Hr1|]. intros ref. by apply ref_kept_mono.
Qed.
End kept.

(** ** Reading after a collection *)

Section preserved.
Context `{Digest} `{Gzip} `{Json Manifest} `{Json manifestBundle}.
Context (Get Get' : string → result bytes) (fuel : nat) (state : State) (keep : gset string).

Notation l := (newManifestSourceLoader state).

(** The objects of the volume that are never changed. *)
Definition immutable (key : string) : Prop := isImmutableObject (VolumePrefix (st_Name state)) key = true.

Context (Hkeep : ∀ key d, key ∈ keep → immutable key → Get key = Ok d → Get' key = Ok d).
Context (Hgone : ∀ key d, immutable key → Get key = Ok d → Get' key = Ok d ∨ Get' key = Err ErrNotFound).
Context (Hempty : ∀ d, Get EmptyString ≠ Ok d).
(** Bundles lead to bundles of the volume. *)
Context (Hhead : ∀ ref, st_ManifestBundle state = Some ref → immutable (bref_Key ref)).
Context (Hparent : ∀ key b ref, fetch_bundle Get l key = Ok b → mb_Parent b = Some ref → immutable (bref_Key ref)).

Lemma fetch_bundle_kept key b : key ∈ keep → immutable key → fetch_bundle Get l key = Ok b → fetch_bundle Get' l key = Ok b.
Proof using Hkeep.
  intros Hk Him. unfold fetch_bundle. intros (data & Hd%wrap_err_Ok & Hrest)%result_bind_Ok. by rewrite (Hkeep _ _ Hk Him Hd).
Qed.

Lemma fetch_bundle_gone key b :
  immutable key → fetch_bundle Get l key = Ok b → fetch_bundle Get' l key = Ok b ∨ ∃ e, fetch_bundle Get' l key = Err e ∧ errors_Is e ErrNotFound = true.
Proof using Hgone.
  intros Him. pose proof (fun d => Hgone key d Him) as Hd'. unfold fetch_bundle.
  intros (data & Hd%wrap_err_Ok & Hrest)%result_bind_Ok. destruct (Hd' data Hd) as [->| ->]; [by left|]. right. by eexists.
Qed.

(** A walk that found the manifest, with every bundle of it kept, finds it again. *)
Lemma searchBundleChain_kept fuel' key ref body path :
  (∀ r, ref = Some r → immutable (bref_Key r)) →
  (searchBundleChain Get fuel' l ∅ key ref).2 = Ok (Some body, path) → (∀ k, k ∈ path → k ∈ keep) →
  (searchBundleChain Get' fuel' l ∅ key ref).2 = Ok (Some body, path).
Proof using Hkeep Hparent.
  assert (∀ G, cache_ok G l ∅) as Hnil by (intros G k b; by rewrite lookup_empty).
  revert ref path. induction fuel' as [|fuel' IH]; intros [ref|] path Him; cbn [searchBundleChain]; try done. specialize (Him ref eq_refl).
  destruct (loadBundleLocked_cache Get l ∅ (bref_Key ref) (Hnil Get)) as [Hr Hc].
  destruct (loadBundleLocked_cache Get' l ∅ (bref_Key ref) (Hnil Get')) as [Hr' Hc'].
  destruct (loadBundleLocked Get l ∅ _) as [c r], (loadBundleLocked Get' l ∅ _) as [c' r']. cbn [fst snd] in *. subst r r'.
  destruct (fetch_bundle Get l (bref_Key ref)) as [b|e] eqn:Hf; [|done].
  intros Hs Hin. assert (bref_Key ref ∈ keep) as Hk.
  { apply Hin. destruct (find_bundled key b); [|destruct (searchBundleChain Get fuel' l c _ _) as [? [[]|]]]; cbn [snd] in Hs; simplify_eq; by left. }
  rewrite (fetch_bundle_kept _ _ Hk Him Hf). destruct (find_bundled key b); [done|].
  destruct (searchBundleChain_cache Get fuel' l key (mb_Parent b) c ∅ Hc (Hnil Get)) as [He _].
  destruct (searchBundleChain_cache Get' fuel' l key (mb_Parent b) c' ∅ Hc' (Hnil Get')) as [He' _].
  destruct (searchBundleChain Get fuel' l c _ _) as [d [[body1 path1]|e1]]; cbn [snd] in *; [|done]. simplify_eq.
  rewrite (IH (mb_Parent b) path1) in He'; [|intros r; by apply (Hparent _ _ _ Hf)|done|intros k Hk1; apply Hin; by right].
  destruct (searchBundleChain Get' fuel' l c' _ _) as [d' r']. cbn [snd] in *. by subst r'.
Qed.

(** A walk that found nothing finds nothing, or meets a bundle that is gone. *)
Lemma searchBundleChain_absent fuel' key ref path :
  (∀ r, ref = Some r → immutable (bref_Key r)) →
  (searchBundleChain Get fuel' l ∅ key ref).2 = Ok (None, path) →
  (searchBundleChain Get' fuel' l ∅ key ref).2 = Ok (None, path) ∨
  ∃ e, (searchBundleChain Get' fuel' l ∅ key ref).2 = Err e ∧ errors_Is e ErrNotFound = true.
Proof using Hgone Hparent.
  assert (∀ G, cache_ok G l ∅) as Hnil by (intros G k b; by rewrite lookup_empty).
  revert ref path. induction fuel' as [|fuel' IH]; intros [ref|] path Him; cbn [searchBundleChain]; try done; try (by left).
  specialize (Him ref eq_refl).
  destruct (loadBundleLocked_cache Get l ∅ (bref_Key ref) (Hnil Get)) as [Hr Hc].
  destruct (loadBundleLocked_cache Get' l ∅ (bref_Key ref) (Hnil Get')) as [Hr' Hc'].
  destruct (loadBundleLocked Get l ∅ _) as [c r], (loadBundleLocked Get' l ∅ _) as [c' r']. cbn [fst snd] in *. subst r r'.
  destruct (fetch_bundle Get l (bref_Key ref)) as [b|e] eqn:Hf; [|done].
  destruct (fetch_bundle_gone _ _ Him Hf) as [->|(e & -> & He)]; [|intros _; right; by exists e]. destruct (find_bundled key b); [done|].
  destruct (searchBundleChain_cache Get fuel' l key (mb_Parent b) c ∅ Hc (Hnil Get)) as [He _].
  destruct (searchBundleChain_cache Get' fuel' l key (mb_Parent b) c' ∅ Hc' (Hnil Get')) as [He' _].
  destruct (searchBundleChain Get fuel' l c _ _) as [d [[body1 path1]|e1]]; cbn [snd] in *; [|done]. intros ?; simplify_eq.
  specialize (IH (mb_Parent b) path1 (fun r => Hparent _ _ r Hf) (eq_sym He)). rewrite <-He' in IH.
  destruct (searchBundleChain Get' fuel' l c' _ _) as [d' r']. cbn [snd] in *. destruct IH as [->|(e & -> & Hn)]; [by left|right; by exists e].
Qed.

(** The keys of a reference are those of objects of the volume. *)
Definition ref_named (ref : ObjectRef) : Prop :=
  (ref_Key ref ≠ EmptyString → immutable (ref_Key ref)) ∧
  (ref_SourceManifest ref ≠ EmptyString → immutable (ref_SourceManifest ref)) ∧
  (ref_SourceManifest ref ≠ EmptyString → ref_SourceBundle ref ≠ EmptyString → immutable (ref_SourceBundle ref)).

Lemma ref_storage_named ref k : ref_storage (st_Name state) ref = Ok k → ref_named ref.
Proof.
  unfold ref_storage, ref_named, immutable, isImmutableObject.
  intros (k1 & Hs1 & (k2 & _ & (k3 & Hs3 & _)%result_bind_Ok)%result_bind_Ok)%result_bind_Ok. split; [|split].
  - intros Hne. rewrite bool_decide_eq_false_2 in Hs1 by done. apply result_bind_Ok in Hs1 as (? & Hs1%fail_if_Ok & _).
    apply orb_false_iff in Hs1 as [->%negb_false_iff _]. by rewrite !orb_true_r.
  - intros Hne. rewrite bool_decide_eq_false_2 in Hs3 by done. apply result_bind_Ok in Hs3 as (? & Hs3%fail_if_Ok & _).
    apply orb_false_iff in Hs3 as [->%negb_false_iff _]. done.
  - intros Hne Hb. rewrite bool_decide_eq_false_2 in Hs3 by done. apply result_bind_Ok in Hs3 as (? & _ & Hs3).
    apply result_bind_Ok in Hs3 as (? & Hs3%fail_if_Ok & _). rewrite (bool_decide_eq_false_2 _ Hb) in Hs3. cbn [negb andb] in Hs3.
    apply orb_false_iff in Hs3 as [->%negb_false_iff _]. by rewrite orb_true_r.
Qed.

Lemma validate_refs_named kind n refs es k r : validate_refs (st_Name state) kind n refs es k = Ok r → Forall ref_named refs.
Proof.
  revert es k. induction refs as [|ref refs IH]; intros es k; cbn [validate_refs]; [constructor|].
  intros (blocks & Hv & (? & _ & Hrest)%result_bind_Ok)%result_bind_Ok. constructor; [|by eapply IH].
  unfold validate_ref in Hv. do 2 apply result_bind_Ok in Hv as (? & _ & Hv). apply result_bind_Ok in Hv as (kinds & Hs & _). by eapply ref_storage_named.
Qed.

Lemma manifest_key_named body : immutable (manifest_key (st_Name state) body).
Proof. unfold immutable, isImmutableObject, manifest_key. by rewrite HasPrefix_both, HasPrefix_app. Qed.

Lemma bundle_key_named body : immutable (bundle_key (st_Name state) body).
Proof. unfold immutable, isImmutableObject, bundle_key. by rewrite !HasPrefix_both, HasPrefix_app, orb_true_r. Qed.

Lemma decodeManifest_named key body g m : decodeManifest state key body g = Ok m → immutable key ∧ Forall ref_named (mf_Segments m).
Proof.
  intros (m' & _ & (? & Hk%fail_if_Ok & (? & Hv & [= <-])%result_bind_Ok)%result_bind_Ok)%result_bind_Ok.
  apply negb_false_iff, bool_decide_eq_true in Hk. split; [rewrite Hk; apply manifest_key_named|]. unfold validateManifest in Hv.
  do 3 apply result_bind_Ok in Hv as (? & _ & Hv). apply result_bind_Ok in Hv as (refs & Hr & _). by eapply validate_refs_named.
Qed.

(** What could be read of a reference can still be read, and is the same. *)
Definition reads_same (ref : ObjectRef) : Prop :=
  ∀ data, (segment_data Get fuel l ∅ ref).2 = Ok data → (segment_data Get' fuel l ∅ ref).2 = Ok data.

Lemma resolve_kept ref body :
  ref_kept Get fuel state keep ref → ref_named ref → ref_SourceManifest ref ≠ EmptyString → ref_SourceBundle ref = EmptyString → ref_InlineData ref = [] →
  (resolve Get fuel l ∅ (ref_SourceManifest ref)).2 = Ok body → (resolve Get' fuel l ∅ (ref_SourceManifest ref)).2 = Ok body.
Proof using Hkeep Hgone Hhead Hparent.
  intros (_ & Hm & _ & Hp) (_ & Hnm & _) Hsm Hsb Hin. specialize (Hm Hsm). specialize (Hnm Hsm). destruct (Hp Hsm Hsb Hin) as (path & Hfind & Hpath). unfold findBundlePath, resolve in *.
  destruct (ld_inline l !! ref_SourceManifest ref); [done|].
  destruct (searchBundleChain Get fuel l ∅ _ _) as [c r] eqn:Hs. destruct r as [[[body'|] p]|e]; cbn [snd] in Hfind; [injection Hfind as <-| |done].
  - pose proof (searchBundleChain_kept fuel (ref_SourceManifest ref) (ld_head l) body' p) as Hs'. rewrite Hs in Hs'. specialize (Hs' Hhead eq_refl Hpath).
    destruct (searchBundleChain Get' fuel l ∅ _ _) as [c' r']. cbn [snd] in Hs'. by subst r'.
  - pose proof (searchBundleChain_absent fuel (ref_SourceManifest ref) (ld_head l) p) as Hs'. rewrite Hs in Hs'. specialize (Hs' Hhead eq_refl).
    destruct (searchBundleChain Get' fuel l ∅ _ _) as [c' r']. cbn [snd] in Hs'. cbn [snd]. intros Hb. apply (Hkeep _ _ Hm Hnm) in Hb.
    destruct Hs' as [->|(e & -> & Hn)]; [|rewrite Hn]; done.
Qed.

Lemma segment_data_kept ref : ref_kept Get fuel state keep ref → ref_named ref → reads_same ref.
Proof using Hkeep Hgone Hempty Hhead Hparent.
  intros Hkept Hnamed data. pose proof Hnamed as (Hnk & _ & Hnb). unfold segment_data. case_bool_decide as Hin; [|done]. pose proof Hkept as (Hk & Hm & Hb & _). case_bool_decide as Hsm; cbn [snd].
  { rewrite !wrap_err_Ok. destruct (decide (ref_Key ref = EmptyString)) as [Heq|Hne]; [rewrite Heq; by intros ?%Hempty|]. by apply Hkeep; auto. }
  unfold inlineSegment. case_bool_decide as Hsb.
  - pose proof (fun body => resolve_kept ref body Hkept Hnamed Hsm Hsb Hin) as Hres.
    destruct (resolve Get fuel l ∅ _) as [c r], (resolve Get' fuel l ∅ _) as [c' r']. cbn [snd] in *.
    intros (body & Hbody%wrap_err_Ok & Hrest)%result_bind_Ok. by rewrite (Hres body Hbody).
  - unfold manifestBody, loadBundleLocked. rewrite !lookup_empty.
    destruct (fetch_bundle Get l (ref_SourceBundle ref)) as [b|e] eqn:Hf; [|done]. rewrite (fetch_bundle_kept _ _ (Hb Hsb) (Hnb Hsm Hsb) Hf).
    by destruct (find_bundled _ _).
Qed.

Lemma applyObjectRefs_kept f size refs c c' f' :
  cache_ok Get l c → cache_ok Get' l c' → Forall reads_same refs →
  applyObjectRefs Get fuel l c f size refs = (f', None) → applyObjectRefs Get' fuel l c' f size refs = (f', None).
Proof.
  intros Hc Hc' Hrefs. revert f c c' Hc Hc'. induction Hrefs as [|ref refs Href _ IH]; intros f c c' Hc Hc'; cbn [applyObjectRefs]; [done|].
  unfold applyObjectRef. destruct (segment_data_cache Get fuel l c ref Hc) as [Hd Hok], (segment_data_cache Get' fuel l c' ref Hc') as [Hd' Hok'].
  specialize (Href). destruct (segment_data Get fuel l c ref) as [c1 r1], (segment_data Get' fuel l c' ref) as [c1' r1']. cbn [fst snd] in *.
  destruct r1 as [data|e]; [|done]. specialize (Href data (eq_sym Hd)). assert (r1' = Ok data) as -> by congruence.
  destruct (segment_runs ref data) as [runs|e]; [|done]. destruct (applyRuns f size runs _) as [f1 [e|]]; [done|]. by apply IH.
Qed.

(** The references of a plan are those of the chain, cut. *)
Lemma plan_segments_from e covered index segs x :
  x ∈ plan_segments e covered index segs → ∃ r i es, r ∈ segs ∧ x = with_extents (locate_inline e i r) es.
Proof.
  revert index. induction segs as [|r segs IH]; intros index; cbn [plan_segments]; [by intros ?%elem_of_nil|].
  case_bool_decide; [|rewrite elem_of_cons; intros [->|Hx]; [eexists r, _, _; split; [by left|done]|]];
    [intros Hx|]; destruct (IH _ Hx) as (r' & i & es & Hin & ->); exists r', i, es; (split; [by right|done]).
Qed.

Lemma plan_entries_from covered entries x :
  x ∈ plan_entries covered entries → ∃ e r i es, e ∈ entries ∧ r ∈ mf_Segments (e_manifest e) ∧ x = with_extents (locate_inline e i r) es.
Proof.
  revert covered. induction entries as [|e entries IH]; intros covered; cbn [plan_entries]; [by intros ?%elem_of_nil|].
  rewrite elem_of_app. intros [(r & i & es & Hin & ->)%plan_segments_from|Hx]; [exists e, r, i, es; split; [by left|done]|].
  destruct (IH _ Hx) as (e' & r & i & es & He & Hr & ->). exists e', r, i, es. split; [by right|done].
Qed.

Lemma plan_kept entries :
  Forall (entry_kept Get fuel state keep) entries → Forall (fun e => Forall ref_named (mf_Segments (e_manifest e))) entries →
  Forall reads_same (plan_entries [] entries).
Proof using Hkeep Hgone Hempty Hhead Hparent.
  intros Hkept Hnamed. apply Forall_forall. intros x (e & r & i & es & He & Hr & ->)%plan_entries_from.
  pose proof (proj1 (Forall_forall _ _) Hnamed e He) as Hn. apply (proj1 (Forall_forall _ _) Hn r) in Hr as Hrn.
  apply (proj1 (Forall_forall _ _) Hkept) in He as (_ & _ & Hrefs). apply (proj1 (Forall_forall _ _) Hrefs) in Hr.
  unfold locate_inline. destruct (decide (ref_InlineData r = [])) as [Hin|Hin].
  - rewrite (bool_decide_eq_true_2 _ Hin). cbn [negb andb]. apply (segment_data_kept (with_extents r es)); [exact Hr|exact Hrn].
  - intros data. unfold segment_data. assert (ref_InlineData (with_extents (if negb (bool_decide (ref_InlineData r = [])) && negb (bool_decide (e_key e = EmptyString)) then
      with_source r (e_key e) (e_bundle e) (u32 i) (ref_InlineData r) else r) es) ≠ []) as Hne by by destruct (_ && _).
    by rewrite (bool_decide_eq_false_2 _ Hne).
Qed.

(** ** The chain *)

(** The bundles that the search for generation [g] reads. *)
Definition bundle_at (G : string → result bytes) (key : string) (bundle : manifestBundle) : Prop :=
  ∃ ref, bref_Key ref = key ∧ readManifestBundle G state ref = Ok bundle.

Inductive walked (G : string → result bytes) (g : Z) : ManifestBundleRef → Prop :=
  | walked_head ref : st_ManifestBundle state = Some ref → g ≤ bref_LastGeneration ref → walked G g ref
  | walked_parent ref bundle parent : walked G g ref → g < bref_FirstGeneration ref → bundle_at G (bref_Key ref) bundle →
      mb_Parent bundle = Some parent → g ≤ bref_LastGeneration parent → walked G g parent.

Definition cache_at (cache : bundle_cache) : Prop := ∀ key b, cache !! key = Some b → bundle_at Get key b.

Lemma readManifestBundle_kept ref b :
  bref_Key ref ∈ keep → readManifestBundle Get state ref = Ok b → readManifestBundle Get' state ref = Ok b.
Proof using Hkeep.
  intros Hk. unfold readManifestBundle. intros (data & Hd%wrap_err_Ok & Hrest)%result_bind_Ok.
  pose proof Hrest as (? & Hkey%fail_if_Ok & _)%result_bind_Ok. apply negb_false_iff, bool_decide_eq_true in Hkey.
  assert (immutable (bref_Key ref)) as Him by (rewrite Hkey; apply bundle_key_named). by rewrite (Hkeep _ _ Hk Him Hd).
Qed.

Lemma search_bundles_kept fuel' key g ref cache found cache' :
  cache_at cache → (∀ r, ref = Some r → g ≤ bref_LastGeneration r → walked Get g r) → (g ≠ 0 → ∀ r, walked Get g r → bref_Key r ∈ keep) →
  search_bundles Get fuel' state key g ref cache = Ok (found, cache') →
  search_bundles Get' fuel' state key g ref cache = Ok (found, cache') ∧ cache_at cache'.
Proof using Hkeep.
  intros Hc Href Hw. revert ref cache Hc Href. induction fuel' as [|fuel' IH]; intros [r|] cache Hc Href; cbn [search_bundles];
    try (by intros [= <- <-]); case_if; try (by intros [= <- <-]); try done.
  zbool. specialize (Href r eq_refl). assert (g ≠ 0 ∧ walked Get g r) as [Hg Hr] by (split; [|apply Href]; naive_solver lia).
  intros ([b cache1] & Hb & Hrest)%result_bind_Ok.
  assert (bundle_at Get (bref_Key r) b ∧ cache_at cache1 ∧
    match cache !! bref_Key r with Some b => Ok (b, cache) | None => b ← readManifestBundle Get' state r; Ok (b, <[bref_Key r:=b]> cache) end = Ok (b, cache1))
    as (Hb1 & Hc1 & ->).
  { destruct (cache !! bref_Key r) as [b0|] eqn:Hlk; [injection Hb as <- <-; by split; [apply Hc|]|].
    apply result_bind_Ok in Hb as (b0 & Hread & [= <- <-]). split; [by exists r|]. split.
    - intros k b1. rewrite lookup_insert_Some. intros [[<- <-]|[_ Hk]]; [by exists r|by apply Hc].
    - by rewrite (readManifestBundle_kept r b0 (Hw Hg r Hr) Hread). }
  cbn [mbind result_mbind]. case_if_in Hrest.
  - destruct (find_bundled key b); [|by injection Hrest as <- <-]. split; [done|].
    apply result_bind_Ok in Hrest as (m & _ & [= _ <-]). done.
  - apply IH; [done| |done]. intros p Hp Hlast. zbool. by eapply walked_parent.
Qed.

Lemma readManifest_kept fuel' key g cache m bundle cache' :
  cache_at cache → (g ≠ 0 → ∀ r, walked Get g r → bref_Key r ∈ keep) → key ∈ keep →
  readManifestWithSourceCache Get fuel' state key g cache = Ok (m, bundle, cache') →
  readManifestWithSourceCache Get' fuel' state key g cache = Ok (m, bundle, cache') ∧ cache_at cache'.
Proof using Hkeep.
  intros Hc Hw Hk. unfold readManifestWithSourceCache. destruct (st_InlineManifests state !! key).
  { intros (m' & Hd & [= <- <- <-])%result_bind_Ok. by rewrite Hd. }
  intros ([found cache1] & Hs & Hr)%result_bind_Ok.
  destruct (search_bundles_kept fuel' key g (st_ManifestBundle state) cache found cache1 Hc) as [-> Hc1]; [intros r Hsome; by apply walked_head|done|done|].
  cbn [mbind result_mbind]. destruct found as [[m' b']|]; [by injection Hr as <- <- <-|].
  apply result_bind_Ok in Hr as (data & Hd%wrap_err_Ok & Hr). pose proof Hr as (m' & [Him _]%decodeManifest_named & _)%result_bind_Ok.
  rewrite (Hkeep _ _ Hk Him Hd). split; [done|]. apply result_bind_Ok in Hr as (m'' & _ & [= _ _ <-]). done.
Qed.

Lemma decodeManifest_generation key body g m : g ≠ 0 → decodeManifest state key body g = Ok m → mf_Generation m = g.
Proof.
  intros Hg (m' & _ & (? & _ & (? & Hv & [= <-])%result_bind_Ok)%result_bind_Ok)%result_bind_Ok. unfold validateManifest in Hv.
  apply result_bind_Ok in Hv as (? & _ & Hv). apply result_bind_Ok in Hv as (? & Hgen%fail_if_Ok & _).
  rewrite (proj2 (Z.eqb_neq g 0) Hg) in Hgen. apply orb_false_iff in Hgen as [Hgen _]. apply negb_false_iff, Z.eqb_eq in Hgen. done.
Qed.

Lemma readManifest_generation fuel' key g cache m b cache' :
  g ≠ 0 → readManifestWithSourceCache Get fuel' state key g cache = Ok (m, b, cache') → mf_Generation m = g.
Proof. intros Hg [body Hd]%readManifest_decoded. by eapply decodeManifest_generation. Qed.

Lemma restore_chain_kept fuel' key g n cache entries g' :
  cache_at cache → restore_chain Get fuel' fuel state key g n cache = Ok (entries, g') →
  Forall (fun e => e_key e ≠ EmptyString → e_key e ∈ keep) entries →
  Forall (fun e => ∀ r, walked Get (mf_Generation (e_manifest e)) r → bref_Key r ∈ keep) entries →
  restore_chain Get' fuel' fuel state key g n cache = Ok (entries, g').
Proof using Hkeep.
  revert key g n cache entries. induction fuel' as [|fuel' IH]; intros key g n cache entries Hc; cbn [restore_chain]; case_bool_decide; try done.
  intros ([[m b] cache1] & Hr & Hrest)%result_bind_Ok Hkeys Hwalks.
  assert (∃ rest, entries = mkEntry key m b :: rest) as [rest ->].
  { case_bool_decide; [injection Hrest as <- _; by eexists|]. apply result_bind_Ok in Hrest as (? & _ & Hrest).
    apply result_bind_Ok in Hrest as ([rest g1] & _ & [= <- _]). by eexists. }
  apply Forall_cons in Hkeys as [Hkey Hkeys], Hwalks as [Hwalk Hwalks]. cbn [e_key e_manifest] in *.
  destruct (readManifest_kept fuel key g cache m b cache1 Hc) as [-> Hc1]; [|by apply Hkey|done|].
  { intros Hg. by rewrite <-(readManifest_generation _ _ _ _ _ _ _ Hg Hr). }
  cbn [mbind result_mbind]. case_bool_decide; [done|]. apply result_bind_Ok in Hrest as ([] & -> & Hrest). cbn [mbind result_mbind].
  apply result_bind_Ok in Hrest as ([rest' g1] & Hrest & [= <- <-]). by rewrite (IH _ _ _ _ _ Hc1 Hrest Hkeys Hwalks).
Qed.

Lemma restore_chain_named fuel' key g n cache entries g' :
  restore_chain Get fuel' fuel state key g n cache = Ok (entries, g') → Forall (fun e => Forall ref_named (mf_Segments (e_manifest e))) entries.
Proof.
  revert key g n cache entries. induction fuel' as [|fuel' IH]; intros key g n cache entries; cbn [restore_chain]; case_bool_decide; try done;
    try (intros [= <- _]; constructor).
  intros ([[m b] cache1] & [body [_ Hm]%decodeManifest_named]%readManifest_decoded & Hrest)%result_bind_Ok.
  case_bool_decide; [injection Hrest as <- _; by constructor|]. apply result_bind_Ok in Hrest as (? & _ & Hrest).
  apply result_bind_Ok in Hrest as ([rest g1] & Hrest & [= <- <-]). constructor; [done|]. by eapply IH.
Qed.

(** The restored chain is within the retained history. *)
Lemma restore_chain_retained cutoff fuel' key g n n' behind cache entries g' history :
  restore_chain Get fuel' fuel state key g n cache = Ok (entries, g') →
  history_chain Get fuel' fuel state key g n' behind cache = Ok history →
  ∃ rest, retained cutoff history = entries ++ rest.
Proof.
  revert key g n n' behind cache entries history. induction fuel' as [|fuel' IH]; intros key g n n' behind cache entries history;
    cbn [restore_chain history_chain]; case_bool_decide as Hkey; try done; try (intros [= <- _] _; by eexists).
  intros ([[m b] cache1] & Hr & Hrest)%result_bind_Ok. rewrite Hr. intros Hh.
  assert (∃ hrest, history = mkEntry key m b :: hrest) as [hrest ->].
  { case_if_in Hh; apply result_bind_Ok in Hh as (? & _ & Hh); [injection Hh as <-; by eexists|].
    apply result_bind_Ok in Hh as (? & _ & Hh). apply result_bind_Ok in Hh as (? & _ & [= <-]). by eexists. }
  unfold retained. cbn [take]. destruct (decide (mf_Kind m = "checkpoint")) as [Hkind|Hkind];
    [rewrite (bool_decide_eq_true_2 _ Hkind) in Hrest; injection Hrest as <- _; by eexists|rewrite (bool_decide_eq_false_2 _ Hkind) in Hrest].
  apply result_bind_Ok in Hrest as (? & _ & Hrest). apply result_bind_Ok in Hrest as ([rest g1] & Hrest & [= <- <-]).
  cbn [keep_through e_manifest]. rewrite (bool_decide_eq_false_2 _ Hkind). cbn [andb].
  case_if_in Hh; apply result_bind_Ok in Hh as (? & Hp%fail_if_Ok & Hh).
  - injection Hh as <-. apply negb_false_iff, bool_decide_eq_true in Hp. rewrite Hp in Hrest.
    assert (rest = []) as -> by (destruct fuel'; cbn [restore_chain] in Hrest; rewrite bool_decide_eq_true_2 in Hrest by done; by injection Hrest as <- _).
    by eexists.
  - apply result_bind_Ok in Hh as (? & _ & Hh). apply result_bind_Ok in Hh as (hrest' & Hh & [= <-]).
    destruct (IH _ _ _ _ _ _ _ _ Hrest Hh) as [tail Htail]. unfold retained in Htail. exists tail. cbn [app]. f_equal.
    destruct hrest' as [|h hrest]; [|done]. cbn [take] in *. done.
Qed.

(** Every bundle on the way to a manifest of the chain holds one of the chain. *)
Definition bundles_held (entries : list manifestEntry) : Prop :=
  ∀ e r, e ∈ entries → walked Get (mf_Generation (e_manifest e)) r → ∃ e', e' ∈ entries ∧ e_bundle e' = bref_Key r.

Lemma validManifestBundleRef_key name ref : validManifestBundleRef name ref = true → bref_Key ref ≠ EmptyString.
Proof. unfold validManifestBundleRef. intros Hv Heq. by rewrite Heq in Hv. Qed.

Lemma walked_key g r : validateState (st_Name state) state = Ok tt → walked Get g r → bref_Key r ≠ EmptyString.
Proof.
  intros Hv [r0 Hh0 _|r0 b p _ _ (ref & _ & Hread) Hp _].
  - unfold validateState in Hv. do 6 (apply result_bind_Ok in Hv as (? & _ & Hv)). rewrite Hh0 in Hv. apply fail_if_Ok, negb_false_iff in Hv.
    by eapply validManifestBundleRef_key.
  - unfold readManifestBundle in Hread. do 4 (apply result_bind_Ok in Hread as (? & _ & Hread)).
    apply result_bind_Ok in Hread as (? & Hpar & Hread). apply result_bind_Ok in Hread as ([? ?] & _ & Hread).
    apply result_bind_Ok in Hread as (? & _ & [= ->]). rewrite Hp in Hpar. apply fail_if_Ok, orb_false_iff in Hpar as [Hpar%negb_false_iff _].
    by eapply validManifestBundleRef_key.
Qed.

(** The chain that a restore reads is kept. *)
Lemma restored_kept opts t0 entries :
  validateState (st_Name state) state = Ok tt → restoreManifests Get fuel state = Ok entries →
  collected_keep state opts Get fuel t0 keep → Forall (entry_kept Get fuel state keep) entries.
Proof.
  intros Hval Hr (history & Hh & Hcase). unfold restoreManifests in Hr.
  apply result_bind_Ok in Hr as ([entries' g] & Hr & Hrest). apply result_bind_Ok in Hrest as (? & _ & [= ->]).
  unfold loadHistory in Hh. destruct (st_Generation state =? 0) eqn:Hgen.
  - unfold validateState in Hval. do 4 (apply result_bind_Ok in Hval as (? & _ & Hval)). apply result_bind_Ok in Hval as (? & Hm%fail_if_Ok & _).
    rewrite Hgen in Hm. apply negb_false_iff, Bool.eqb_prop in Hm. symmetry in Hm. apply bool_decide_eq_true in Hm. rewrite Hm in Hr.
    unfold chain_fuel in Hr. destruct (Z.to_nat (maxChain + 2)); cbn [restore_chain] in Hr; injection Hr as <- _; constructor.
  - destruct (restore_chain_retained 0 chain_fuel _ _ _ _ _ _ _ _ _ Hr Hh) as [rest0 Hrest0]. case_bool_decide as Hnil.
    + rewrite Hnil in *. unfold retained in Hrest0. cbn [take] in Hrest0. symmetry in Hrest0. apply app_eq_nil in Hrest0 as [-> _]. constructor.
    + rename Hcase into Hk. destruct (restore_chain_retained (t0 - gco_HistoryRetention opts) chain_fuel _ _ _ _ _ _ _ _ _ Hr Hh) as [rest Hret].
      apply keep_entries_spec in Hk as [_ Hkept]; [|intros k b; by rewrite lookup_empty]. rewrite Hret in Hkept. by apply Forall_app in Hkept as [? _].
Qed.

Lemma RestoreState_kept opts t0 created schedule entries f :
  collected_keep state opts Get fuel t0 keep → restoreManifests Get fuel state = Ok entries → bundles_held entries → (∀ refs, schedule refs ≡ₚ refs) →
  RestoreState Get fuel created schedule state = Ok (f, None) → RestoreState Get' fuel created schedule state = Ok (f, None).
Proof using Hkeep Hgone Hempty Hhead Hparent.
  intros Hck Hm Hheld Hsched. unfold RestoreState, restorePlan. rewrite Hm. intros ([] & Hval & Hr)%result_bind_Ok. rewrite Hval.
  cbn [mbind result_mbind] in *. apply result_bind_Ok in Hr as (f0 & Hf0 & Hr). injection Hr as Hr. pose proof (restored_kept opts t0 entries Hval Hm Hck) as Hkept.
  assert (Forall (fun e => Forall ref_named (mf_Segments (e_manifest e))) entries) as Hnamed.
  { unfold restoreManifests in Hm. apply result_bind_Ok in Hm as ([entries' g] & Hc & Hrest).
    apply result_bind_Ok in Hrest as (? & _ & [= ->]). by eapply restore_chain_named. }
  assert (restoreManifests Get' fuel state = Ok entries) as ->.
  { unfold restoreManifests in *. apply result_bind_Ok in Hm as ([entries' g] & Hc & Hrest).
    assert (entries' = entries) as -> by by apply result_bind_Ok in Hrest as (? & _ & [= ->]).
    rewrite (restore_chain_kept chain_fuel _ _ _ ∅ entries g); [done| |done|eapply Forall_impl; [exact Hkept|]; by intros e [? _]|].
    - intros k b. by rewrite lookup_empty.
    - apply Forall_forall. intros e He r Hw. destruct (Hheld e r He Hw) as (e' & He' & Hb). rewrite <-Hb.
      apply (proj1 (Forall_forall _ _) Hkept) in He' as (_ & Hbundle & _). apply Hbundle. rewrite Hb. by eapply walked_key. }
  cbn [mbind result_mbind]. rewrite Hf0. cbn [mbind result_mbind]. f_equal. eapply applyObjectRefs_kept; [| | |exact Hr]; [intros k b; by rewrite lookup_empty..|].
  rewrite Hsched. by apply plan_kept.
Qed.
End preserved.

(** ** The theorems *)

Section theorems.
Context {S : Type} `{ConditionalStore S} `{Digest} `{Gzip} `{Json Manifest} `{Json manifestBundle} `{Json gcRecord}.
Implicit Types (s : S) (w : World (S := S)).

(** What a read of the store answers. *)
Definition stored s (key : string) : result bytes :=
  match objects s !! key with Some o => Ok (obj_Data o) | None => Err ErrNotFound end.

Lemma stored_holds s k d : stored s k = Ok d ↔ holds k d s.
Proof.
  unfold stored, holds. split.
  - destruct (objects s !! k) as [[d' e]|]; [|done]. intros [= ->]. by exists e.
  - by intros [e ->].
Qed.

(** C24: A collection deletes only garbage.  Whatever calls fail and whatever
    other calls run in between, as long as they leave alone the volume's garbage
    records and what is stored under the key [k], an immutable object is still
    there after [CollectGarbage], or: it is outside what the retained history
    references, and a garbage record that the volume had when the collection began
    names it and was at least the grace period old when the collection read the
    clock (its first or second reading, [w_clock w n]). *)
Theorem gc_only_removes_garbage fuel opts w w' res err k d :
  isImmutableObject (VolumePrefix (st_Name (ls_state (w_lease w)))) k = true →
  gc_world (ls_state (w_lease w)) k d w → stored (w_store w) k = Ok d →
  CollectGarbage (stored (w_store w)) fuel opts w = (w', res, err) →
  stored (w_store w') k = Ok d ∨
  ∃ keep n, collected_keep (ls_state (w_lease w)) opts (stored (w_store w)) fuel (w_clock w (w_ticks w)) keep ∧
    (w_ticks w ≤ n ≤ Datatypes.S (w_ticks w))%nat ∧
    garbage (ls_state (w_lease w)) opts k (objects (w_store w)) keep (w_clock w n).
Proof.
  rewrite !stored_holds. intros Him Hw Hp. unfold CollectGarbage. case_if; [intros [= <- _ _]; by left|]. case_if; [intros [= <- _ _]; by left|].
  intros Hgc. eapply (collectGarbage_spec _ _ k d); [by apply immutable_not_record|done..].
Qed.

(** C7: A collection does not change what a restore writes.  Take a volume whose
    head [state] can be restored to the image [f], whose bundles lead to bundles of
    the volume, and where every bundle on the way to a manifest of the restored
    chain holds a manifest of that chain ([bundles_held]).  Then after a collection
    of the volume, whatever its calls answered and whatever ran in between that
    left alone the immutable objects and the garbage records of the volume (others
    may commit heads, publish and delete elsewhere), [state] is still restored to
    [f]. *)
Theorem gc_preserves_restore fuel created schedule opts state w w' res err entries f :
  (∀ k d, immutable state k → stored (w_store w) k = Ok d → gc_world state k d w) →
  objects (w_store w) !! EmptyString = None →
  (∀ key b ref, fetch_bundle (stored (w_store w)) (newManifestSourceLoader state) key = Ok b → mb_Parent b = Some ref → immutable state (bref_Key ref)) →
  restoreManifests (stored (w_store w)) fuel state = Ok entries → bundles_held (stored (w_store w)) state entries →
  (∀ refs, schedule refs ≡ₚ refs) → RestoreState (stored (w_store w)) fuel created schedule state = Ok (f, None) →
  collectGarbage (stored (w_store w)) fuel state opts w = (w', res, err) →
  RestoreState (stored (w_store w')) fuel created schedule state = Ok (f, None).
Proof.
  intros Hquiet Hempty Hparent Hm Hheld Hsched Hr Hgc.
  assert (∀ k d, immutable state k → stored (w_store w) k = Ok d →
    stored (w_store w') k = Ok d ∨ stored (w_store w') k = Err ErrNotFound ∧
      ∃ keep, collected_keep state opts (stored (w_store w)) fuel (w_clock w (w_ticks w)) keep ∧ k ∉ keep) as Hafter.
  { intros k d Him Hd. destruct (collectGarbage_spec state opts k d (immutable_not_record _ _ Him) _ _ _ _ _ _ (Hquiet k d Him Hd) Hgc (proj1 (stored_holds _ _ _) Hd))
      as [(_ & _ & [Hnone|Hp] & _) [Hp'|(keep & n & Hck & _ & Hnk & _)]]; try (left; by apply stored_holds).
    right. split; [unfold stored; by rewrite Hnone|]. by exists keep. }
  destruct (collectGarbage_starts _ _ _ _ _ _ _ _ Hgc) as [->|[keep Hck]]; [done|].
  apply (RestoreState_kept (stored (w_store w)) _ fuel state keep) with (opts := opts) (t0 := w_clock w (w_ticks w)) (entries := entries); [..|done|done|done|done|done].
  - intros key d Hin Him Hd. destruct (Hafter key d Him Hd) as [?|(_ & keep' & Hck' & Hnk)]; [done|].
    by rewrite (collected_keep_unique _ _ _ _ _ _ _ Hck' Hck) in Hnk.
  - intros key d Him Hd. destruct (Hafter key d Him Hd) as [?|[? _]]; by auto.
  - intros d. unfold stored. by rewrite Hempty.
  - intros ref Href. unfold RestoreState in Hr. apply result_bind_Ok in Hr as (? & Hval & _). unfold validateState in Hval.
    do 6 (apply result_bind_Ok in Hval as (? & _ & Hval)). rewrite Href in Hval. apply fail_if_Ok, negb_false_iff in Hval.
    unfold validManifestBundleRef in Hval. rewrite !andb_true_iff in Hval. destruct Hval as [[[Hp _] _] _].
    unfold immutable, isImmutableObject. by rewrite Hp, orb_true_r.
  - exact Hparent.
Qed.

(** ** Progress *)

(** Nothing else runs and every call is answered. *)
Definition undisturbed w : Prop :=
  store_inv (w_store w) ∧ honours (w_store w) ∧ w_events w = [] ∧ not_held (w_lease w) = false.

Lemma call_undisturbed {A} target k (op : S → S * result A) w :
  undisturbed w → only_changes k target op →
  ∃ w', call_unlocked op w = (w', (op (w_store w)).2) ∧ undisturbed w' ∧ w_store w' = (op (w_store w)).1 ∧ w_clock w' = w_clock w.
Proof.
  intros (Hi & Hh & He & Hl) Hop. destruct (Hop _ Hi Hh) as (Hi' & Hh' & _). unfold call_unlocked. rewrite He.
  destruct (op (w_store w)) as [s r]. by eexists.
Qed.

Context (state : State) (opts : GCOptions).
Notation prefix := (VolumePrefix (st_Name state)).

(** No object appears outside the records, and the records change only at [key]. *)
Definition shrinks (key : option string) w w' : Prop :=
  (∀ k, objects (w_store w) !! k = None → objects (w_store w') !! k = None) ∧
  (∀ k, HasPrefix k (gc_prefix state) = true → Some k ≠ key → objects (w_store w') !! k = objects (w_store w) !! k).

Lemma delete_undisturbed key w :
  undisturbed w → ∃ w', call_unlocked (delete_object key) w = (w', Ok tt) ∧ undisturbed w' ∧
    objects (w_store w') = delete key (objects (w_store w)) ∧ w_clock w' = w_clock w.
Proof.
  intros Hw. destruct (call_undisturbed key key (delete_object key) w Hw (delete_only key key)) as (w' & -> & Hw' & Hs & Hc). exists w'.
  unfold delete_object in *. destruct (store_Delete (w_store w) key) as [s e] eqn:Hd. destruct (delete_law _ _ _ _ (proj1 Hw) Hd) as (_ & -> & Ho).
  cbn [fst snd] in *. by rewrite Hs.
Qed.

Lemma delete_garbage_undisturbed keep cands sw w :
  undisturbed w → ∃ w' sw', delete_garbage prefix keep cands sw w = (w', sw', None) ∧ undisturbed w' ∧ shrinks None w w' ∧
    ∀ k, k ∈ cands → k ∉ keep → isImmutableObject prefix k = true → objects (w_store w') !! k = None.
Proof.
  revert sw w. induction cands as [|c cands IH]; intros sw w Hw; cbn [delete_garbage].
  { exists w, sw. split; [done|]. split; [done|]. split; [done|]. by intros k ?%elem_of_nil. }
  destruct (bool_decide (c ∈ keep) || negb (isImmutableObject prefix c)) eqn:Hskip.
  { destruct (IH sw w Hw) as (w' & sw' & -> & Hw' & Hsh & Hgone). exists w', sw'. split; [done|]. split; [done|]. split; [done|].
    intros k [->|Hin]%elem_of_cons Hnk Him; [|by apply Hgone]. rewrite Him, (bool_decide_eq_false_2 _ Hnk) in Hskip. done. }
  apply orb_false_iff in Hskip as [_ Him%negb_false_iff]. destruct (delete_undisturbed c w Hw) as (w1 & -> & Hw1 & Ho & _).
  destruct (IH (mkSweep (sw_marked sw) ({[c]} ∪ sw_deleted sw) (sw_count sw + 1)) w1 Hw1) as (w' & sw' & -> & Hw' & [Hnone Hrec] & Hgone).
  exists w', sw'. split; [done|]. split; [done|]. split; [split|].
  - intros k Hk. apply Hnone. rewrite Ho. by apply lookup_delete_None; right.
  - intros k Hk _. rewrite Hrec, Ho by done. apply lookup_delete_ne. intros ->. by rewrite (immutable_not_record state k Him) in Hk.
  - intros k [->|Hin]%elem_of_cons Hnk Hik; [|by apply Hgone]. apply Hnone. by rewrite Ho, lookup_delete_eq.
Qed.

(** A record of this volume. *)
Definition valid_record (o : Object) (record : gcRecord) : Prop :=
  Unmarshal (obj_Data o) = Ok record ∧ gc_Format record = Format ∧ gc_VolumeID record = st_ID state ∧ time_IsZero (gc_CreatedAt record) = false.

Lemma sweep_record_undisturbed keep t key o record sw w :
  undisturbed w → HasPrefix key (gc_prefix state) = true → objects (w_store w) !! key = Some o → valid_record o record →
  ∃ w' sw', sweep_record state opts keep t key sw w = (w', sw', None) ∧ undisturbed w' ∧ shrinks (Some key) w w' ∧
    (gc_CreatedAt record + gco_GracePeriod opts ≤ t →
     ∀ k, k ∈ gc_Objects record → k ∉ keep → isImmutableObject prefix k = true → objects (w_store w') !! k = None).
Proof.
  intros Hw Hkey Ho (Hun & Hf & Hid & Hz). unfold sweep_record.
  destruct (call_undisturbed key key (fun s => (s, store_Get s key)) w Hw) as (w1 & -> & Hw1 & Hs1 & _).
  { intros s Hi Hh. split; [done|]. split; [done|]. split; [done|]. by left. }
  cbn [fst snd] in *. rewrite get_law, Ho by apply Hw. rewrite Hun, Hf, Hid, Hz, !bool_decide_eq_true_2 by done. cbn [negb orb].
  set (sw1 := mkSweep _ _ _). unfold time_After. destruct (t <? _) eqn:Hage; zbool.
  { exists w1, sw1. split; [done|]. split; [done|]. split; [by split; rewrite Hs1|]. lia. }
  unfold stillHeld. destruct Hw1 as (Hi1 & Hh1 & He1 & Hl1). rewrite Hl1.
  destruct (delete_garbage_undisturbed keep (gc_Objects record) sw1 w1) as (w2 & sw2 & -> & Hw2 & [Hn2 Hr2] & Hg2); [done|].
  destruct (delete_undisturbed key w2 Hw2) as (w3 & -> & Hw3 & Ho3 & _). exists w3, sw2. split; [done|]. split; [done|]. rewrite Hs1 in *. split; [split|].
  - intros k Hk. rewrite Ho3. apply lookup_delete_None. right. by apply Hn2.
  - intros k Hk Hne. rewrite Ho3, lookup_delete_ne by congruence. by apply Hr2.
  - intros _ k Hin Hnk Him. rewrite Ho3. apply lookup_delete_None. right. by apply Hg2.
Qed.

Lemma sweep_records_undisturbed keep t keys sw w :
  undisturbed w → NoDup keys →
  (∀ key, key ∈ keys → HasPrefix key (gc_prefix state) = true → ∃ o record, objects (w_store w) !! key = Some o ∧ valid_record o record) →
  ∃ w' sw', sweep_records state opts keep t keys sw w = (w', sw', None) ∧ undisturbed w' ∧
    (∀ k, objects (w_store w) !! k = None → objects (w_store w') !! k = None) ∧
    ∀ key o record k, key ∈ keys → HasPrefix key (gc_prefix state) = true → objects (w_store w) !! key = Some o → valid_record o record →
      gc_CreatedAt record + gco_GracePeriod opts ≤ t → k ∈ gc_Objects record → k ∉ keep → isImmutableObject prefix k = true →
      objects (w_store w') !! k = None.
Proof.
  revert sw w. induction keys as [|key keys IH]; intros sw w Hw Hnd Hrecs; cbn [sweep_records].
  { exists w, sw. split; [done|]. split; [done|]. split; [done|]. by intros key o record k ?%elem_of_nil. }
  apply NoDup_cons in Hnd as [Hnin Hnd]. destruct (HasPrefix key _) eqn:Hp; cbn [negb].
  2:{ destruct (IH sw w Hw Hnd) as (w' & sw' & -> & Hw' & Hn & Hg); [intros key' Hin; apply Hrecs; by right|]. exists w', sw'.
      split; [done|]. split; [done|]. split; [done|]. intros key' o record k [->|Hin]%elem_of_cons Hkey; [unfold gc_prefix in Hkey; congruence|by apply Hg]. }
  destruct (Hrecs key) as (o & record & Ho & Hv); [by left|done|].
  destruct (sweep_record_undisturbed keep t key o record sw w Hw Hp Ho Hv) as (w1 & sw1 & -> & Hw1 & [Hn1 Hr1] & Hg1).
  assert (∀ key', key' ∈ keys → HasPrefix key' (gc_prefix state) = true → objects (w_store w1) !! key' = objects (w_store w) !! key') as Hsame.
  { intros key' Hin Hp'. apply Hr1; [done|]. intros [= ->]. done. }
  destruct (IH sw1 w1 Hw1 Hnd) as (w' & sw' & -> & Hw' & Hn & Hg).
  { intros key' Hin Hp'. rewrite Hsame by done. apply Hrecs; [by right|done]. }
  exists w', sw'. split; [done|]. split; [done|]. split; [by auto|]. intros key' o' record' k [->|Hin]%elem_of_cons Hp' Ho' Hv' Hdue Hk Hnk Him.
  - rewrite Ho in Ho'. injection Ho' as <-. destruct Hv as [Hu _], Hv' as [Hu' _]. rewrite Hu in Hu'. injection Hu' as <-. by apply Hn, Hg1.
  - eapply Hg; [done|done|by rewrite Hsame|done..].
Qed.

Lemma mark_undisturbed fuel t cands n w :
  undisturbed w → (length cands ≤ fuel)%nat → (∀ objs, is_ok (Marshal (mkGcRecord Format (st_ID state) t objs)) = true) →
  ∃ w' n', mark fuel state t cands n w = (w', n', None) ∧
    ∀ k, HasPrefix k (gc_prefix state) = false → objects (w_store w') !! k = objects (w_store w) !! k.
Proof.
  intros Hw Hf Hm. revert cands n w Hw Hf. induction fuel as [|fuel IH]; intros [|c cands] n w Hw Hf; cbn [mark]; try (by eexists _, _); [cbn in Hf; lia|].
  specialize (Hm (take objectsPerRecord (c :: cands))). destruct (Marshal _) as [body|e]; [|done].
  assert (length (drop objectsPerRecord (c :: cands)) ≤ fuel)%nat as Hlen by (rewrite length_drop; cbn [length] in *; unfold objectsPerRecord; lia).
  set (key := record_key _ _ _). pose proof (put_only EmptyString key body) as Hput.
  destruct (call_undisturbed key EmptyString (fun s => store_PutIfAbsent s key body) w Hw) as (w1 & -> & Hw1 & Hs1 & _); [by apply Hput|].
  destruct (store_PutIfAbsent (w_store w) key body) as [s1 r1] eqn:Hp. destruct Hw as (Hi & Hh & _).
  destruct (putIfAbsent_law _ _ _ _ _ Hi Hh Hp) as (_ & _ & _ & Hcase). cbn [fst snd] in *.
  assert (∀ k, HasPrefix k (gc_prefix state) = false → objects (w_store w1) !! k = objects (w_store w) !! k) as Hsame.
  { intros k Hk. rewrite Hs1. destruct (objects (w_store w) !! key); [by destruct Hcase as [-> _]|]. destruct Hcase as (e & _ & ->).
    apply lookup_insert_ne. intros Heq. rewrite <-Heq in Hk. unfold key in Hk. by rewrite record_key_prefix in Hk. }
  assert (∃ w' n', mark fuel state t (drop objectsPerRecord (c :: cands)) (n + Z.of_nat (length (take objectsPerRecord (c :: cands)))) w1 = (w', n', None) ∧
    ∀ k, HasPrefix k (gc_prefix state) = false → objects (w_store w') !! k = objects (w_store w) !! k) as Hnext.
  { destruct (IH _ (n + Z.of_nat (length (take objectsPerRecord (c :: cands)))) w1 Hw1 Hlen) as (w' & n' & -> & Ho). exists w', n'. split; [done|].
    intros k Hk. by rewrite Ho, Hsame. }
  destruct (objects (w_store w) !! key); [destruct Hcase as [_ ->]|destruct Hcase as (e & -> & _)]; exact Hnext.
Qed.

(** C25: A collection does its work.  When every call is answered, the lease is
    held, what to keep can be told, and the volume's records are well formed,
    [CollectGarbage] succeeds, and every object that a record has named for the
    grace period and that is not kept is gone. *)
Theorem gc_collects_due_garbage fuel w keep :
  undisturbed w → ls_state (w_lease w) = state → 0 ≤ gco_HistoryRetention opts → 0 ≤ gco_GracePeriod opts →
  collected_keep state opts (stored (w_store w)) fuel (w_clock w (w_ticks w)) keep →
  (∀ key o, HasPrefix key (gc_prefix state) = true → objects (w_store w) !! key = Some o → ∃ record, valid_record o record) →
  (∀ t objs, is_ok (Marshal (mkGcRecord Format (st_ID state) t objs)) = true) →
  ∃ w' res, CollectGarbage (stored (w_store w)) fuel opts w = (w', res, None) ∧
    ∀ key o record k, HasPrefix key (gc_prefix state) = true → objects (w_store w) !! key = Some o → valid_record o record →
      (∀ n, gc_CreatedAt record + gco_GracePeriod opts ≤ w_clock w n) →
      k ∈ gc_Objects record → k ∉ keep → isImmutableObject prefix k = true → stored (w_store w') k = Err ErrNotFound.
Proof.
  intros Hw Hst Hret Hgrace (history & Hh & Hk) Hrecs Hm. unfold CollectGarbage. rewrite (proj2 (proj2 (proj2 Hw))), Hst.
  replace ((gco_HistoryRetention opts <? 0) || (gco_GracePeriod opts <? 0)) with false by (symmetry; apply orb_false_iff; split; apply Z.ltb_ge; lia).
  unfold collectGarbage. rewrite Hh.
  set (first := if bool_decide (history = []) then _ else _).
  assert (first.2 = Ok keep ∧ undisturbed first.1 ∧ w_store first.1 = w_store w ∧ w_clock first.1 = w_clock w) as Hfirst.
  { subst first. destruct (bool_decide (history = [])); [done|]. destruct (now w) as [w0 t0] eqn:Hn. injection Hn as <- <-. done. }
  destruct first as [w0 kept]. cbn [fst snd] in Hfirst. destruct Hfirst as (-> & Hw0 & Hs0 & Hc0).
  destruct (call_undisturbed EmptyString EmptyString (fun s => (s, store_List s prefix)) w0 Hw0) as (w1 & -> & Hw1 & Hs1 & Hc1).
  { intros s Hi Hh'. split; [done|]. split; [done|]. split; [done|]. by left. }
  cbn [fst snd] in *. rewrite Hs0 in *. destruct (list_law (w_store w) prefix (proj1 Hw)) as (keys & -> & Hnd & Hkeys).
  destruct (now w1) as [w2 t] eqn:Hn. injection Hn as Hw2 Ht.
  assert (undisturbed w2 ∧ w_store w2 = w_store w ∧ t = w_clock w (w_ticks w1)) as (Hu2 & Hs2 & Ht2) by (subst w2 t; rewrite Hc1, Hc0; done).
  clear Hw2 Ht. destruct (sweep_records_undisturbed keep t keys (mkSweep ∅ ∅ 0) w2 Hu2 Hnd) as (w3 & sw & -> & Hw3 & _ & Hg3).
  { intros key Hin Hp. apply Hkeys in Hin as [[o Ho] _]. rewrite Hs2. destruct (Hrecs key o Hp Ho) as [record Hv]. by exists o, record. }
  set (cands := merge_sort _ _). replace (if bool_decide (cands = []) then None else stillHeld (w_lease w3)) with (@None error).
  2:{ unfold stillHeld. rewrite (proj2 (proj2 (proj2 Hw3))). by case_if. }
  destruct (mark_undisturbed (length cands) t cands 0 w3 Hw3) as (w4 & n & -> & Ho4); [lia|by intros objs|]. eexists _, _. split; [done|].
  intros key o record k Hp Ho Hv Hdue Hin Hnk Him. unfold stored. rewrite (Ho4 k (immutable_not_record state k Him)).
  rewrite (Hg3 key o record k); [done|..|done|done|done]; try done; [|by rewrite Hs2|by rewrite Ht2].
  apply Hkeys. split; [by eexists|]. unfold gc_prefix in Hp. by eapply HasPrefix_trans.
Qed.
End theorems.

(** ** A volume with an old garbage record, its manifest in a bundle *)

Definition gc_bundle : manifestBundle := mkBundle Format "id" 1 1 None [mkBundled sample_manifest_key [x6d]].
Definition gc_bundle_json : Json manifestBundle.
Proof.
  refine {| Marshal := fun _ => Ok [x62];
            Unmarshal := fun b => if bytes_Equal b [x62] then Ok gc_bundle else Err (Errorf "json");
            marshalable := fun a => a = gc_bundle |}.
  intros a ->. by exists [x62].
Defined.
Definition gc_bundle_key : string := @bundle_key toy_digest "vol" [x62].
Definition gc_entry : manifestEntry := mkEntry sample_manifest_key sample_manifest gc_bundle_key.

Definition gc_volume : State :=
  acquired (30 * 10 ^ 9) "node" "token" 1
    (mkState Format "id" "vol" (4 * DefaultBlockSize) DefaultBlockSize "ext4" 1 sample_manifest_key ∅ (Some (mkBundleRef gc_bundle_key 1 1)) 0 3 false None).
Definition gc_old : string := "volumes/vol/segments/old".
Definition gc_old_record : gcRecord := mkGcRecord Format "id" 1 [gc_old].
Definition gc_old_key : string := "volumes/vol/gc/1-old.json".
Definition gc_record_json : Json gcRecord.
Proof.
  refine {| Marshal := fun _ => Ok [x67];
            Unmarshal := fun b => if bytes_Equal b [x67] then Ok gc_old_record else Err (Errorf "json");
            marshalable := fun a => a = gc_old_record |}.
  intros a ->. by exists [x67].
Defined.
#[local] Existing Instances toy_digest plain_gzip sample_manifest_json gc_bundle_json gc_record_json.

Definition gc_store : Memory :=
  (mem_Put (mem_Put (mem_Put (mem_Put NewMemory (ref_Key sample_ref) (seg_Data sample_segment)).1 gc_bundle_key [x62]).1 gc_old [x01]).1 gc_old_key [x67]).1.
Definition gc_example : World (S := Memory) := mkWorld gc_store (new_lease gc_volume EmptyString) [] (fun _ => 1000) 0.
Definition gc_opts : GCOptions := mkGCOptions 0 10.
Definition gc_after : World (S := Memory) := (CollectGarbage (stored gc_store) 1 gc_opts gc_example).1.1.
Definition gc_kept : gset string := {[ref_Key sample_ref; sample_manifest_key; gc_bundle_key]}.

Lemma gc_store_inv : store_inv gc_store ∧ honours gc_store.
Proof.
  assert (∀ m k d, store_inv m ∧ honours m → store_inv (mem_Put m k d).1 ∧ honours (mem_Put m k d).1) as Hput.
  { intros m k d [Hi Hh]. split; [|exact (put_honours (S := Memory) m k d Hh)]. destruct (mem_Put m k d) as [m' r] eqn:Hp. by destruct (put_law (S := Memory) m k d m' r Hi Hp). }
  unfold gc_store. do 4 apply Hput. split; [apply NewMemory_inv|done].
Qed.

Lemma gc_example_keep keep : collected_keep gc_volume gc_opts (stored gc_store) 1 1000 keep ↔ keep = gc_kept.
Proof.
  assert (collected_keep gc_volume gc_opts (stored gc_store) 1 1000 gc_kept) as Hk.
  { exists [gc_entry]. split; [vm_compute; reflexivity|]. cbn [bool_decide decide]. vm_compute. reflexivity. }
  split; [intros Hkeep; by eapply collected_keep_unique|by intros ->].
Qed.

Lemma gc_only_removes_garbage_witness :
  stored (w_store gc_after) gc_old = Err ErrNotFound ∧ garbage gc_volume gc_opts gc_old (objects gc_store) gc_kept 1000.
Proof.
  assert (stored (w_store gc_after) gc_old = Err ErrNotFound) as Hgone by (vm_compute; reflexivity). split; [done|].
  destruct (CollectGarbage (stored gc_store) 1 gc_opts gc_example) as [[w' res] err] eqn:Hgc.
  assert (w' = gc_after) as Hw' by (unfold gc_after; by rewrite Hgc).
  destruct (gc_only_removes_garbage 1 gc_opts gc_example w' res err gc_old [x01]) as [Hp|(keep & n & Hk & _ & Hg)].
  - vm_compute. reflexivity.
  - destruct gc_store_inv as [Hi Hh]. split; [done|]. split; [done|]. split; [|constructor]. right. apply stored_holds. vm_compute. reflexivity.
  - vm_compute. reflexivity.
  - exact Hgc.
  - rewrite Hw', Hgone in Hp. done.
  - apply gc_example_keep in Hk as ->. exact Hg.
Defined.

Lemma gc_image : { f | RestoreState (stored gc_store) 1 (Ok []) id gc_volume = Ok (f, None) }.
Proof.
  destruct (RestoreState (stored gc_store) 1 (Ok []) id gc_volume) as [[f [e|]]|e] eqn:Hr; [exfalso|by exists f|exfalso]; by vm_compute in Hr.
Defined.

Lemma gc_example_collect :
  CollectGarbage (stored gc_store) 1 gc_opts gc_example = collectGarbage (stored gc_store) 1 gc_volume gc_opts gc_example.
Proof.
  unfold CollectGarbage. change ((gco_HistoryRetention gc_opts <? 0) || (gco_GracePeriod gc_opts <? 0)) with false.
  change (not_held (w_lease gc_example)) with false. change (ls_state (w_lease gc_example)) with gc_volume. cbv iota. done.
Qed.

(** The head of the volume leads to one bundle, which holds the manifest. *)
Lemma gc_bundles_held : bundles_held (stored gc_store) gc_volume [gc_entry] ∧ walked gc_volume (stored gc_store) 1 (mkBundleRef gc_bundle_key 1 1).
Proof.
  split; [|by apply walked_head]. intros e r ->%list_elem_of_singleton Hw. exists gc_entry. split; [by apply list_elem_of_singleton|].
  cbn [e_manifest gc_entry] in Hw. induction Hw as [r Hr _|r b p Hw IH Hlt Hb Hp _]; [by injection Hr as <-|].
  exfalso. destruct Hb as (ref & _ & Hread). unfold readManifestBundle in Hread.
  apply result_bind_Ok in Hread as (data & _ & Hread). apply result_bind_Ok in Hread as (? & _ & Hread).
  apply result_bind_Ok in Hread as (b' & Hu%wrap_err_Ok & Hread). cbn [Unmarshal gc_bundle_json] in Hu.
  destruct (bytes_Equal _ _); [|discriminate Hu]. injection Hu as <-. do 2 apply result_bind_Ok in Hread as (? & _ & Hread).
  apply result_bind_Ok in Hread as ([? ?] & _ & Hread). apply result_bind_Ok in Hread as (? & _ & Hread). injection Hread as <-. discriminate Hp.
Qed.

Lemma gc_preserves_restore_witness :
  RestoreState (stored (w_store gc_after)) 1 (Ok []) id gc_volume = Ok (proj1_sig gc_image, None).
Proof.
  destruct (collectGarbage (stored gc_store) 1 gc_volume gc_opts gc_example) as [[w' res] err] eqn:Hgc.
  assert (w' = gc_after) as <- by (unfold gc_after; by rewrite gc_example_collect, Hgc).
  apply (gc_preserves_restore 1 (Ok []) id gc_opts gc_volume gc_example w' res err [gc_entry]).
  - intros k d _ Hd. destruct gc_store_inv as [Hi Hh]. split; [done|]. split; [done|]. split; [|constructor]. right. by apply stored_holds.
  - vm_compute. reflexivity.
  - intros key b ref. unfold fetch_bundle. intros (data & _ & (? & _ & (b' & Hu%wrap_err_Ok & (? & _ & [= ->])%result_bind_Ok)%result_bind_Ok)%result_bind_Ok)%result_bind_Ok.
    cbn [Unmarshal gc_bundle_json] in Hu. destruct (bytes_Equal _ _); [|discriminate Hu]. injection Hu as <-. discriminate.
  - vm_compute. reflexivity.
  - exact (proj1 gc_bundles_held).
  - done.
  - apply (proj2_sig gc_image).
  - exact Hgc.
Defined.

Lemma gc_collects_due_garbage_witness :
  ∃ w' res, CollectGarbage (stored gc_store) 1 gc_opts gc_example = (w', res, None) ∧ stored (w_store w') gc_old = Err ErrNotFound.
Proof.
  destruct gc_store_inv as [Hi Hh].
  destruct (gc_collects_due_garbage gc_volume gc_opts 1 gc_example gc_kept) as (w' & res & Hgc & Hgone).
  - split; [done|]. split; [done|]. by split.
  - done.
  - done.
  - done.
  - by apply gc_example_keep.
  - intros key o Hp Ho. exists gc_old_record.
    assert (key = gc_old_key) as ->.
    { revert Ho. change (objects (w_store gc_example)) with (mem_objects gc_store). unfold gc_store, NewMemory. cbn [mem_Put mem_store fst mem_objects].
      rewrite !lookup_insert_Some, lookup_empty. intros [[<- _]|[_ [[<- _]|[_ [[<- _]|[_ [[<- _]|[_ ?]]]]]]]]; first done; try done; exfalso; revert Hp; vm_compute; done. }
    revert Ho. vm_compute. intros [= <-]. by repeat split.
  - done.
  - exists w', res. split; [exact Hgc|]. destruct (objects (w_store gc_example) !! gc_old_key) as [o|] eqn:Ho; [|by vm_compute in Ho].
    apply (Hgone gc_old_key o gc_old_record); [reflexivity|exact Ho|..|reflexivity].
    + revert Ho. vm_compute. intros [= <-]. by repeat split.
    + intros n. vm_compute. discriminate.
    + by left.
    + unfold gc_kept. rewrite !elem_of_union, !elem_of_singleton. intros [[Heq|Heq]|Heq]; revert Heq; vm_compute; discriminate.
Defined.
