(* ===== verification/Syncer.v ===== *)
(** * The replication worker ([internal/replica/syncer.go])

    The queue of sealed generations, the worker that publishes them and the
    calls that feed it, as atomic steps: a step is one critical section, one
    call to a collaborator or one channel operation, so that the calls of other
    goroutines fall between any two of them.  The collaborators (device, lease,
    journal) are the operations of the class [Ports]. *)
From S2P Require Import Prelude Extents Codec File Segment Types.
Local Open Scope Z_scope.

(** ** What the worker calls *)

Class Ports (E : Type) : Type := {
  (** [device.sealLocked] *)
  port_seal : E → E * option Generation;
  (** [device.Release] *)
  port_release : Generation → E → E;
  (** [journal.Enqueue]: the generation with its sequence number, and the
      channels that report its flush and its record. *)
  port_enqueue : option Generation → E → E * option Generation * nat * nat;
  (** What can be received on a channel of the journal. *)
  port_receive : nat → E → option (option error);
  (** [journal.Acknowledge] with the state of the lease. *)
  port_acknowledge : Z → E → E * option error;
  (** [lease.Publish]; a cancelled context is one way in which it fails. *)
  port_publish : list Segment → E → E * option error;
  (** [lease.PublishCheckpoint] *)
  port_checkpoint : E → E * option error;
  (** [lease.Release] *)
  port_give_up : E → E * option error;
  (** [lease.State] *)
  port_state : E → State;
}.

(** ** Data *)

(** [result] and [ready] are channels. *)
Record syncRequest : Type := mkRequest {
  rq_generation : option Generation;
  rq_checkpoint : bool;
  rq_result : option nat;
  rq_ready : option nat;
}.

(** The channels [wake] and [urgent] have room for one signal; [sy_answers] is
    what was sent on result channels, in order. *)
Record Syncer : Type := mkSyncer {
  sy_journal : bool;
  sy_checkpointInterval : Z;
  sy_requests : list syncRequest;
  sy_closed : bool;
  sy_wake : bool;
  sy_urgent : bool;
  sy_done : bool;
  sy_pending : list Generation;
  sy_answers : list (nat * option error);
  sy_channels : nat;
}.

(** Where the worker is: in the [select] of [run], in [process] with the
    requests it took, or past it. *)
Inductive worker : Type :=
  | Idle
  | Woken
  | Background
  | Draining (requests : list syncRequest)
  | Rearming (requests : list syncRequest)
  | Collecting (requests rest : list syncRequest) (checkpoint : bool)
  | Syncing (requests : list syncRequest) (checkpoint : bool)
  | Publishing (requests : list syncRequest) (checkpoint : bool) (segments : list Segment)
  | BackingOff (requests : list syncRequest) (checkpoint : bool) (segments : list Segment)
  | Acknowledging (requests : list syncRequest) (checkpoint : bool)
  | Finishing (requests : list syncRequest) (checkpoint : bool) (err : option error)
  | Answering (requests : list syncRequest) (checkpoint : bool) (err : option error)
  | LateCheckpoint
  | Returned (err : option error)
  | Closing
  | Stopped.

Definition set_queue (requests : list syncRequest) (s : Syncer) : Syncer :=
  mkSyncer (sy_journal s) (sy_checkpointInterval s) requests (sy_closed s) (sy_wake s) (sy_urgent s) (sy_done s) (sy_pending s) (sy_answers s) (sy_channels s).
Definition set_signals (wake urgent : bool) (s : Syncer) : Syncer :=
  mkSyncer (sy_journal s) (sy_checkpointInterval s) (sy_requests s) (sy_closed s) wake urgent (sy_done s) (sy_pending s) (sy_answers s) (sy_channels s).
Definition set_pending (pending : list Generation) (s : Syncer) : Syncer :=
  mkSyncer (sy_journal s) (sy_checkpointInterval s) (sy_requests s) (sy_closed s) (sy_wake s) (sy_urgent s) (sy_done s) pending (sy_answers s) (sy_channels s).
Definition set_closed (s : Syncer) : Syncer :=
  mkSyncer (sy_journal s) (sy_checkpointInterval s) [] true (sy_wake s) (sy_urgent s) true (sy_pending s) (sy_answers s) (sy_channels s).
Definition set_answers (answers : list (nat * option error)) (s : Syncer) : Syncer :=
  mkSyncer (sy_journal s) (sy_checkpointInterval s) (sy_requests s) (sy_closed s) (sy_wake s) (sy_urgent s) (sy_done s) (sy_pending s) answers (sy_channels s).

(** [make(chan error, 1)] *)
Definition new_channel (s : Syncer) : Syncer * nat :=
  (mkSyncer (sy_journal s) (sy_checkpointInterval s) (sy_requests s) (sy_closed s) (sy_wake s) (sy_urgent s) (sy_done s) (sy_pending s) (sy_answers s)
     (S (sy_channels s)), sy_channels s).

(** [request.result <- err] on every request that has a result. *)
Definition results (requests : list syncRequest) : list nat := omap rq_result requests.
Definition answer (requests : list syncRequest) (err : option error) (s : Syncer) : Syncer :=
  set_answers (sy_answers s ++ ((fun i => (i, err)) <$> results requests)) s.

(** ** The queue *)

(** [dequeue] *)
Definition dequeue (s : Syncer) : Syncer * option syncRequest :=
  match sy_requests s with
  | [] => (s, None)
  | request :: rest => (set_queue rest s, Some request)
  end.

(** The critical section of [enqueue]: whether the request was queued. *)
Definition enqueue (request : syncRequest) (s : Syncer) : Syncer * bool :=
  if sy_closed s then (answer [request] (Some (Errorf "replicator stopped")) s, false)
  else (set_queue (sy_requests s ++ [request]) s, true).

(** [s.wake <- struct{}{}] without blocking, and [Notify]. *)
Definition signal_wake (s : Syncer) : Syncer := set_signals true (sy_urgent s) s.
Definition Notify (s : Syncer) : Syncer := set_signals (sy_wake s) true s.

Definition rearmWakeIfQueued (s : Syncer) : Syncer :=
  if bool_decide (sy_requests s = []) then s else signal_wake s.

Definition closeRequests (s : Syncer) : Syncer :=
  answer (sy_requests s) (Some (Errorf "replicator stopped")) (set_closed s).

(** [mergeGenerations]: later generations win. *)
Definition mergeGenerations (generations : list Generation) : Generation :=
  let blocks := foldl (fun blocks generation => GenBlocks generation ∪ blocks) ∅ generations in
  mkGeneration blocks (Z.of_nat (size blocks) * DefaultBlockSize) 0.

(** ** The steps *)

(** What a step shows: a generation enters the queue (with the channel of its
    result), generations are published as one, a result is answered, a
    generation is released, generations are given up, the lease or the journal
    is lost. *)
Inductive sync_event : Type :=
  | Requested (result : option nat) (generation : option Generation)
  | Published (generations : list Generation) (segments : list Segment)
  | Answered (result : nat) (err : option error)
  | Released (generation : Generation)
  | Dropped (generations : list Generation)
  | Lost (err : error).

Section syncer.
Context {E : Type} `{Ports E} `{Digest} `{Gzip}.

(** The syncer, its worker and the world around it; [run_owed] is the number of
    calls of [enqueue] that have queued a request and not yet signalled, and
    [run_cancelled] whether the worker's context is cancelled. *)
Record Run : Type := mkRun {
  run_syncer : Syncer;
  run_worker : worker;
  run_owed : nat;
  run_cancelled : bool;
  run_env : E;
}.

(** [StartSyncer]; the interval and the backoff only set timers. *)
Definition StartSyncer (journal : bool) (checkpointInterval : Z) (env : E) : Run :=
  mkRun (mkSyncer journal checkpointInterval [] false false false false [] [] 0) Idle 0 false env.

Definition with_worker (w : worker) (r : Run) : Run := mkRun (run_syncer r) w (run_owed r) (run_cancelled r) (run_env r).
Definition with_syncer (s : Syncer) (r : Run) : Run := mkRun s (run_worker r) (run_owed r) (run_cancelled r) (run_env r).
Definition with_env (env : E) (r : Run) : Run := mkRun (run_syncer r) (run_worker r) (run_owed r) (run_cancelled r) env.
Definition with_owed (n : nat) (r : Run) : Run := mkRun (run_syncer r) (run_worker r) n (run_cancelled r) (run_env r).

(** [prepareLocalGeneration] *)
Definition prepareLocalGeneration (generation : option Generation) (r : Run) : Run * syncRequest :=
  if negb (sy_journal (run_syncer r)) || Empty generation then (r, mkRequest generation false None None) else
  let '(env, generation, _, ready) := port_enqueue generation (run_env r) in
  (with_env env r, mkRequest generation false None (Some ready)).

(** [backgroundRequest] *)
Definition backgroundRequest (r : Run) : Run * syncRequest * list sync_event :=
  match dequeue (run_syncer r) with
  | (s, Some request) => (with_syncer s r, request, [])
  | (s, None) =>
      let '(env, generation) := port_seal (run_env r) in
      let '(r, request) := prepareLocalGeneration generation (with_env env r) in
      (r, request, [Requested None (rq_generation request)])
  end.

(** [enqueue] from one of the calls below: the critical section.  [wake] tells
    whether a signal is to follow. *)
Definition submit (request : syncRequest) (wake : bool) (r : Run) : Run * list sync_event :=
  match enqueue request (run_syncer r) with
  | (s, true) => (with_owed (run_owed r + (if wake then 1 else 0)) (with_syncer s r), [Requested (rq_result request) (rq_generation request)])
  | (s, false) => (with_syncer s r, (fun i => Answered i (Some (Errorf "replicator stopped"))) <$> results [request])
  end.

(** The part of [request] under the device's lock ([Sync], [SyncCheckpoint]). *)
Definition request (checkpoint : bool) (r : Run) : Run * list sync_event :=
  let '(s, result) := new_channel (run_syncer r) in
  let '(env, generation) := port_seal (run_env r) in
  let '(r, q) := prepareLocalGeneration generation (with_env env (with_syncer s r)) in
  submit (mkRequest (rq_generation q) checkpoint (Some result) (rq_ready q)) true r.

(** [EnqueueGeneration] and [EnqueueLocalGeneration], as handlers of a flush:
    the device seals and calls them under its lock.  Without a journal a local
    flush fails and changes nothing. *)
Definition EnqueueGeneration (r : Run) : Run * list sync_event :=
  let '(env, generation) := port_seal (run_env r) in
  let '(s, result) := new_channel (run_syncer r) in
  submit (mkRequest generation false (Some result) None) true (with_env env (with_syncer s r)).

Definition EnqueueLocalGeneration (r : Run) : Run * list sync_event :=
  let '(env, generation) := port_seal (run_env r) in
  if negb (sy_journal (run_syncer r)) then (with_env env r, match generation with Some g => [Dropped [g]] | None => [] end) else
  let '(env, generation, acknowledged, ready) := port_enqueue generation env in
  if Empty generation then (with_env env r, []) else
  submit (mkRequest generation false None (Some ready)) false (with_env env r).

(** One turn of the loop of [EnqueueRecovered]. *)
Definition EnqueueRecovered (generation : Generation) (r : Run) : Run * list sync_event :=
  submit (mkRequest (Some generation) false None None) false r.

(** [checkpoint] *)
Definition checkpoint (r : Run) : Run * option error :=
  let state := port_state (run_env r) in
  if sy_checkpointInterval (run_syncer r) =? 0 then (r, None) else
  if u64 (st_Generation state - st_Checkpoint state) <? sy_checkpointInterval (run_syncer r) then (r, None) else
  let '(env, err) := port_checkpoint (run_env r) in (with_env env r, err).

Definition maxRequests : nat := 128.

(** The generations of requests that have one. *)
Definition generation_of (request : syncRequest) : list Generation :=
  match rq_generation request with Some g => if Empty (Some g) then [] else [g] | None => [] end.
Definition generations (requests : list syncRequest) : list Generation := concat (generation_of <$> requests).

(** The loop of [process] over the requests it took, one request; [rest] are
    those that follow. *)
Definition collect (requests : list syncRequest) (current : syncRequest) (rest : list syncRequest) (cp : bool) (r : Run) : option (Run * list sync_event) :=
  let accept :=
    with_worker (Collecting requests rest (cp || rq_checkpoint current))
      (with_syncer (set_pending (sy_pending (run_syncer r) ++ generation_of current) (run_syncer r)) r) in
  match rq_ready current with
  | None => Some (accept, [])
  | Some channel =>
      match port_receive channel (run_env r) with
      | None => None
      | Some None => Some (accept, [])
      | Some (Some e) =>
          let err := Some (Wrap "local journal" ErrLocalJournal) in
          Some (with_worker (Returned err) (with_syncer (answer requests err (run_syncer r)) r),
                ((fun i => Answered i err) <$> results requests) ++ [Dropped (generations (current :: rest))])
      end
  end.

(** The sequence number to acknowledge, and the last part of [sync]. *)
Definition journal_sequence (pending : list Generation) : Z := foldl (fun s g => Z.max s (journalSeq g)) 0 pending.

Definition acknowledge (requests : list syncRequest) (cp : bool) (r : Run) : Run * list sync_event :=
  let s := run_syncer r in
  let sequence := journal_sequence (sy_pending s) in
  let '(env, err) := if sy_journal s && (0 <? sequence) then port_acknowledge sequence (run_env r) else (run_env r, None) in
  match err with
  | Some e => (with_worker (Finishing requests cp (Some (Wrap "acknowledge remote generation" ErrLocalJournal))) (with_env env r), [])
  | None =>
      let env := foldl (fun env g => port_release g env) env (sy_pending s) in
      (with_worker (Finishing requests cp None) (with_syncer (set_pending [] s) (with_env env r)), Released <$> sy_pending s)
  end.

(** One attempt of [publishWithRetry]. *)
Definition publish (requests : list syncRequest) (cp : bool) (segments : list Segment) (r : Run) : Run * list sync_event :=
  let '(env, err) := port_publish segments (run_env r) in
  match err with
  | None => (with_worker (Acknowledging requests cp) (with_env env r), [Published (sy_pending (run_syncer r)) segments])
  | Some e =>
      (with_worker (if errors_Is e ErrLeaseLost || run_cancelled r then Finishing requests cp (Some e) else BackingOff requests cp segments) (with_env env r), [])
  end.

(** The beginning of [sync]. *)
Definition sync (requests : list syncRequest) (cp : bool) (r : Run) : Run :=
  let pending := sy_pending (run_syncer r) in
  if bool_decide (pending = []) then with_worker (Finishing requests cp None) r else
  match EncodeSegments (Some (mergeGenerations pending)) DefaultSegmentBlocks with
  | Err e => with_worker (Finishing requests cp (Some e)) r
  | Ok segments => with_worker (Publishing requests cp segments) r
  end.

(** The worker goes on: the rest of [run] and [process].  [None] when it has to
    wait. *)
Definition proceed (r : Run) : option (Run * list sync_event) :=
  let s := run_syncer r in
  match run_worker r with
  | Idle | Stopped => None
  | Woken =>
      match dequeue s with
      | (s, None) => Some (with_worker Idle (with_syncer s r), [])
      | (s, Some q) => Some (with_worker (Draining [q]) (with_syncer s r), [])
      end
  | Background => let '(r, q, evs) := backgroundRequest r in Some (with_worker (Draining [q]) r, evs)
  | Draining requests =>
      if (length requests <? maxRequests)%nat then
        match dequeue s with
        | (s, Some q) => Some (with_worker (Draining (requests ++ [q])) (with_syncer s r), [])
        | (s, None) => Some (with_worker (Rearming requests) (with_syncer s r), [])
        end
      else Some (with_worker (Rearming requests) r, [])
  | Rearming requests => Some (with_worker (Collecting requests requests false) (with_syncer (rearmWakeIfQueued s) r), [])
  | Collecting requests [] cp => Some (with_worker (Syncing requests cp) r, [])
  | Collecting requests (current :: rest) cp => collect requests current rest cp r
  | Syncing requests cp => Some (sync requests cp r, [])
  | Publishing requests cp segments => Some (publish requests cp segments r)
  | BackingOff requests cp segments => Some (with_worker (Publishing requests cp segments) r, [])
  | Acknowledging requests cp => Some (acknowledge requests cp r)
  | Finishing requests cp err =>
      if bool_decide (err = None) && cp then let '(r, err) := checkpoint r in Some (with_worker (Answering requests cp err) r, [])
      else Some (with_worker (Answering requests cp err) r, [])
  | Answering requests cp err =>
      Some (with_worker (if bool_decide (err = None) && negb cp then LateCheckpoint else Returned err) (with_syncer (answer requests err s) r),
            (fun i => Answered i err) <$> results requests)
  | LateCheckpoint => let '(r, err) := checkpoint r in Some (with_worker (Returned err) r, [])
  | Returned (Some e) =>
      if errors_Is e ErrLeaseLost || errors_Is e ErrLocalJournal then Some (with_worker Closing r, [Lost e]) else Some (with_worker Idle r, [])
  | Returned None => Some (with_worker Idle r, [])
  | Closing =>
      Some (with_worker Stopped (with_syncer (closeRequests s) r),
            ((fun i => Answered i (Some (Errorf "replicator stopped"))) <$> results (sy_requests s)) ++ [Dropped (generations (sy_requests s))])
  end.

(** The cases of the [select] statements. *)
Definition on_wake (r : Run) : option Run :=
  match run_worker r with
  | Idle => if sy_wake (run_syncer r) then Some (with_worker Woken (with_syncer (set_signals false (sy_urgent (run_syncer r)) (run_syncer r)) r)) else None
  | _ => None
  end.

Definition on_urgent (r : Run) : option Run :=
  match run_worker r with
  | Idle => if sy_urgent (run_syncer r) then Some (with_worker Background (with_syncer (set_signals (sy_wake (run_syncer r)) false (run_syncer r)) r)) else None
  | _ => None
  end.

Definition on_tick (r : Run) : option Run :=
  match run_worker r with Idle => Some (with_worker Background r) | _ => None end.

(** [<-ctx.Done()] *)
Definition on_cancel (r : Run) : option (Run * list sync_event) :=
  if negb (run_cancelled r) then None else
  match run_worker r with
  | Idle => Some (with_worker Closing r, [])
  | Collecting requests (current :: rest) cp =>
      match rq_ready current with
      | Some _ => Some (with_worker (Returned (Some ErrCanceled)) r, [Dropped (generations (current :: rest))])
      | None => None
      end
  | BackingOff requests cp segments => Some (with_worker (Finishing requests cp (Some ErrCanceled)) r, [])
  | _ => None
  end.

(** [Abandon]: the worker's context is cancelled. *)
Definition Abandon (r : Run) : Run := mkRun (run_syncer r) (run_worker r) (run_owed r) true (run_env r).

(** [Stop] once its [SyncCheckpoint] has returned without error: the lease is
    released and, if that succeeds, the worker's context cancelled. *)
Definition Stop (r : Run) : Run :=
  match port_give_up (run_env r) with
  | (env, Some e) => with_env env r
  | (env, None) => Abandon (with_env env r)
  end.

(** Everything that can happen next. *)
Inductive action : Type :=
  | Proceed | TakeWake | TakeUrgent | TakeTick | TakeCancel
  | CallRequest (checkpoint : bool) | CallFlush | CallLocalFlush | CallRecovered (generation : Generation)
  | CallSignal | CallNotify | CallAbandon | CallStop | Elsewhere (f : E → E).

Definition step (a : action) (r : Run) : option (Run * list sync_event) :=
  let quiet (x : option Run) := match x with Some r => Some (r, []) | None => None end in
  match a with
  | Proceed => proceed r
  | TakeWake => quiet (on_wake r)
  | TakeUrgent => quiet (on_urgent r)
  | TakeTick => quiet (on_tick r)
  | TakeCancel => on_cancel r
  | CallRequest cp => Some (request cp r)
  | CallFlush => Some (EnqueueGeneration r)
  | CallLocalFlush => Some (EnqueueLocalGeneration r)
  | CallRecovered g => Some (EnqueueRecovered g r)
  | CallSignal => match run_owed r with O => None | S n => Some (with_owed n (with_syncer (signal_wake (run_syncer r)) r), []) end
  | CallNotify => Some (with_syncer (Notify (run_syncer r)) r, [])
  | CallAbandon => Some (Abandon r, [])
  | CallStop => Some (Stop r, [])
  | Elsewhere f => Some (with_env (f (run_env r)) r, [])
  end.

(** A run and what it shows. *)
Inductive runs : Run → list action → list sync_event → Run → Prop :=
  | runs_nil r : runs r [] [] r
  | runs_snoc r1 as1 evs1 r2 a evs2 r3 :
      runs r1 as1 evs1 r2 → step a r2 = Some (r3, evs2) → runs r1 (as1 ++ [a]) (evs1 ++ evs2) r3.

(** The same, executed. *)
Fixpoint execute (actions : list action) (r : Run) : option (Run * list sync_event) :=
  match actions with
  | [] => Some (r, [])
  | a :: rest =>
      '(r, evs) ← step a r;
      '(r, evs') ← execute rest r;
      Some (r, evs ++ evs')
  end.
End syncer.
