(* ===== verification/SyncerProps.v ===== *)
(** * What the replication worker guarantees

    Generations are published in the order in which they were sealed, a request
    is answered without error only when everything sealed up to it is published,
    no wake-up is lost, and every request is answered once. *)
From S2P Require Import Prelude Extents Codec File Segment Types Syncer.
Local Open Scope Z_scope.

(** ** Traces *)

Definition event_request (e : sync_event) : list (option nat * list Generation) :=
  match e with Requested i g => [(i, generation_of (mkRequest g false None None))] | _ => [] end.
Definition event_publication (e : sync_event) : list Generation := match e with Published gs _ => gs | _ => [] end.
Definition event_answers (e : sync_event) : list nat := match e with Answered i _ => [i] | _ => [] end.

(** The requests, the sealed generations and the published generations of a
    trace, in order; the channels that were answered. *)
Definition requests_in (evs : list sync_event) : list (option nat * list Generation) := concat (event_request <$> evs).
Definition sealed_in (evs : list sync_event) : list Generation := concat (requests_in evs).*2.
Definition published_gens (evs : list sync_event) : list Generation := concat (event_publication <$> evs).
Definition answered_in (evs : list sync_event) : list nat := concat (event_answers <$> evs).

(** No generation was given up. *)
Definition undropped (evs : list sync_event) : Prop := ∀ gs, Dropped gs ∈ evs → gs = [].

Lemma requests_in_app xs ys : requests_in (xs ++ ys) = requests_in xs ++ requests_in ys.
Proof. unfold requests_in. by rewrite fmap_app, concat_app. Qed.
Lemma published_gens_app xs ys : published_gens (xs ++ ys) = published_gens xs ++ published_gens ys.
Proof. unfold published_gens. by rewrite fmap_app, concat_app. Qed.
Lemma answered_in_app xs ys : answered_in (xs ++ ys) = answered_in xs ++ answered_in ys.
Proof. unfold answered_in. by rewrite fmap_app, concat_app. Qed.
Lemma sealed_in_app xs ys : sealed_in (xs ++ ys) = sealed_in xs ++ sealed_in ys.
Proof. unfold sealed_in. by rewrite requests_in_app, fmap_app, concat_app. Qed.
Lemma undropped_app xs ys : undropped (xs ++ ys) ↔ undropped xs ∧ undropped ys.
Proof.
  unfold undropped. split; [intros Hu; split; intros gs Hin; apply Hu, elem_of_app; by auto|]. intros [Hx Hy] gs [?|?]%elem_of_app; by auto.
Qed.

Lemma generations_app xs ys : generations (xs ++ ys) = generations xs ++ generations ys.
Proof. unfold generations. by rewrite fmap_app, concat_app. Qed.

(** Events that are only answers. *)
Lemma answers_requests {A} (f : A → nat) (err : option error) (l : list A) : requests_in ((fun i => Answered (f i) err) <$> l) = [].
Proof. by induction l. Qed.
Lemma answers_published {A} (f : A → nat) (err : option error) (l : list A) : published_gens ((fun i => Answered (f i) err) <$> l) = [].
Proof. by induction l. Qed.
Lemma released_requests l : requests_in (Released <$> l) = [].
Proof. by induction l. Qed.
Lemma released_published l : published_gens (Released <$> l) = [].
Proof. by induction l. Qed.
Lemma answers_answered (err : option error) l : answered_in ((fun i => Answered i err) <$> l) = l.
Proof. induction l as [|i l IH]; [done|]. cbn [fmap list_fmap]. unfold answered_in in *. cbn [fmap list_fmap concat event_answers app]. by f_equal. Qed.
Lemma released_answered l : answered_in (Released <$> l) = [].
Proof. by induction l. Qed.

(** ** What the worker has in hand *)

(** The requests that [process] took. *)
Definition taken (w : worker) : list syncRequest :=
  match w with
  | Draining rs | Rearming rs | Collecting rs _ _ | Syncing rs _ | Publishing rs _ _ | BackingOff rs _ _
  | Acknowledging rs _ | Finishing rs _ _ | Answering rs _ _ => rs
  | _ => []
  end.

(** Those whose generations are not among the pending ones yet. *)
Definition uncollected (w : worker) : list syncRequest :=
  match w with Draining rs | Rearming rs | Collecting _ rs _ => rs | _ => [] end.

Definition is_lost (err : option error) : bool :=
  match err with Some e => errors_Is e ErrLeaseLost || errors_Is e ErrLocalJournal | None => false end.

(** The pending generations may be published already: between the publication
    and their release, or when the journal failed in between and the worker is
    about to stop. *)
Definition settled (w : worker) : bool :=
  match w with
  | Acknowledging _ _ | Closing | Stopped => true
  | Finishing _ _ err | Answering _ _ err | Returned err => is_lost err
  | _ => false
  end.

(** [pending] are the generations of [held] that are not published. *)
Definition held_back (w : worker) (pending held : list Generation) : Prop :=
  match w with
  | Acknowledging _ _ => pending = []
  | _ => pending = held ∨ pending = [] ∧ settled w = true
  end.

Definition key (request : syncRequest) : option nat * list Generation := (rq_result request, generation_of request).

Lemma key_generations rs : concat (key <$> rs).*2 = generations rs.
Proof. unfold generations. induction rs as [|r rs IH]; [done|]. cbn [fmap list_fmap concat key snd]. by f_equal. Qed.

Lemma generation_of_eq q : generation_of q = generation_of (mkRequest (rq_generation q) false None None).
Proof. done. Qed.

Section fifo.
Context {E : Type} `{Ports E} `{Digest} `{Gzip}.
Implicit Types r : Run (E := E).

(** The invariant of a run that has shown [evs]. *)
Definition in_order (evs : list sync_event) r : Prop :=
  ∃ answered pending,
    requests_in evs = answered ++ (key <$> taken (run_worker r)) ++ (key <$> sy_requests (run_syncer r)) ∧
    published_gens evs ++ pending ++ generations (uncollected (run_worker r)) = concat answered.*2 ++ generations (taken (run_worker r)) ∧
    held_back (run_worker r) pending (sy_pending (run_syncer r)).

(** Success is reported only when nothing is pending. *)
Definition success_flushed r : Prop :=
  match run_worker r with
  | Finishing _ _ None | Answering _ _ None => sy_pending (run_syncer r) = []
  | _ => True
  end.

(** Only the worker, the queue and the pending generations matter. *)
Lemma in_order_same evs r r' evs2 :
  in_order evs r → run_worker r' = run_worker r → sy_requests (run_syncer r') = sy_requests (run_syncer r) →
  sy_pending (run_syncer r') = sy_pending (run_syncer r) → requests_in evs2 = [] → published_gens evs2 = [] → in_order (evs ++ evs2) r'.
Proof. unfold in_order. intros Hi -> -> -> Hr Hp. rewrite requests_in_app, published_gens_app, Hr, Hp, !app_nil_r. done. Qed.

Lemma submit_spec q wake r r' evs2 :
  submit q wake r = (r', evs2) →
  run_worker r' = run_worker r ∧ sy_pending (run_syncer r') = sy_pending (run_syncer r) ∧ published_gens evs2 = [] ∧
  (sy_closed (run_syncer r) = false ∧ sy_requests (run_syncer r') = sy_requests (run_syncer r) ++ [q] ∧ requests_in evs2 = [key q] ∨
   sy_closed (run_syncer r) = true ∧ sy_requests (run_syncer r') = sy_requests (run_syncer r) ∧ requests_in evs2 = []).
Proof.
  unfold submit, enqueue. destruct (sy_closed (run_syncer r)) eqn:Hc.
  - intros [= <- <-]. split; [done|]. split; [done|]. split; [apply (answers_published id)|]. right. split; [done|]. split; [done|]. apply (answers_requests id).
  - intros [= <- <-]. split; [done|]. split; [done|]. split; [done|]. left. done.
Qed.

Lemma submit_in_order q wake r r' evs evs2 : in_order evs r → submit q wake r = (r', evs2) → in_order (evs ++ evs2) r'.
Proof.
  intros Hi Hs. destruct (submit_spec _ _ _ _ _ Hs) as (Hw & Hp & Hpub & [(_ & Hq & Hr)|(_ & Hq & Hr)]); [|by eapply in_order_same].
  destruct Hi as (answered & pending & Hreq & Hgen & Hpend). exists answered, pending.
  rewrite Hw, Hp, Hq, requests_in_app, published_gens_app, Hr, Hpub, app_nil_r, Hreq.
  split; [by rewrite fmap_app, <-!app_assoc|]. done.
Qed.

Lemma prepareLocal_spec g r r' q :
  prepareLocalGeneration g r = (r', q) →
  run_syncer r' = run_syncer r ∧ run_worker r' = run_worker r ∧ run_owed r' = run_owed r ∧ run_cancelled r' = run_cancelled r ∧ rq_result q = None.
Proof.
  unfold prepareLocalGeneration. case_if; [by intros [= <- <-]|]. destruct (port_enqueue g (run_env r)) as [[[env g'] ?] ready]. by intros [= <- <-].
Qed.

Lemma request_in_order cp r r' evs evs2 : in_order evs r → request cp r = (r', evs2) → in_order (evs ++ evs2) r'.
Proof.
  intros Hi. unfold request. cbn [new_channel]. destruct (port_seal (run_env r)) as [env g].
  destruct (prepareLocalGeneration g _) as [r1 q] eqn:Hp. apply prepareLocal_spec in Hp as (Hs & Hw & _). apply submit_in_order.
  rewrite <-(app_nil_r evs). eapply in_order_same; [done|by rewrite Hw|by rewrite Hs|by rewrite Hs|done|done].
Qed.

Lemma EnqueueGeneration_in_order r r' evs evs2 : in_order evs r → EnqueueGeneration r = (r', evs2) → in_order (evs ++ evs2) r'.
Proof.
  intros Hi. unfold EnqueueGeneration. destruct (port_seal (run_env r)) as [env g]. cbn [new_channel]. apply submit_in_order.
  rewrite <-(app_nil_r evs). by eapply in_order_same.
Qed.

Lemma EnqueueLocalGeneration_in_order r r' evs evs2 : in_order evs r → EnqueueLocalGeneration r = (r', evs2) → in_order (evs ++ evs2) r'.
Proof.
  intros Hi. unfold EnqueueLocalGeneration. destruct (port_seal (run_env r)) as [env g].
  case_if; [intros [= <- <-]; by destruct g; eapply in_order_same|]. destruct (port_enqueue g env) as [[[env' g'] ?] ready].
  case_if; [intros [= <- <-]; by eapply in_order_same|]. apply submit_in_order. rewrite <-(app_nil_r evs). by eapply in_order_same.
Qed.

Lemma dequeue_spec s s' q :
  dequeue s = (s', q) → sy_pending s' = sy_pending s ∧ sy_closed s' = sy_closed s ∧ sy_requests s = (match q with Some q => [q] | None => [] end) ++ sy_requests s' ∧
  (q = None → s' = s ∧ sy_requests s = []).
Proof. unfold dequeue. destruct (sy_requests s) eqn:Hq; intros [= <- <-]; [by rewrite Hq|done]. Qed.

Lemma checkpoint_spec r r' err : checkpoint r = (r', err) → run_syncer r' = run_syncer r ∧ run_worker r' = run_worker r ∧ run_owed r' = run_owed r.
Proof.
  unfold checkpoint. case_if; [by intros [= <- _]|]. case_if; [by intros [= <- _]|]. destruct (port_checkpoint _). by intros [= <- _].
Qed.

(** The worker moves on with the requests it has, and the queue and the pending
    generations stay. *)
Lemma in_order_move evs r r' evs2 :
  in_order evs r → taken (run_worker r') = taken (run_worker r) → uncollected (run_worker r') = uncollected (run_worker r) →
  (∀ p, held_back (run_worker r) p (sy_pending (run_syncer r)) → held_back (run_worker r') p (sy_pending (run_syncer r))) →
  sy_requests (run_syncer r') = sy_requests (run_syncer r) → sy_pending (run_syncer r') = sy_pending (run_syncer r) →
  requests_in evs2 = [] → published_gens evs2 = [] → in_order (evs ++ evs2) r'.
Proof.
  intros (answered & pending & Hreq & Hgen & Hpend) Ht Hu Hs Hq Hp Hr Hpub. exists answered, pending.
  rewrite Ht, Hu, Hq, Hp, requests_in_app, published_gens_app, Hr, Hpub, !app_nil_r. split; [done|]. split; [done|]. by apply Hs.
Qed.

(** The worker is done with the requests it took, all of them collected. *)
Lemma in_order_done evs r r' evs2 :
  in_order evs r → uncollected (run_worker r) = [] → taken (run_worker r') = [] → uncollected (run_worker r') = [] →
  (∀ p, held_back (run_worker r) p (sy_pending (run_syncer r)) → held_back (run_worker r') p (sy_pending (run_syncer r))) →
  sy_requests (run_syncer r') = sy_requests (run_syncer r) → sy_pending (run_syncer r') = sy_pending (run_syncer r) →
  requests_in evs2 = [] → published_gens evs2 = [] → in_order (evs ++ evs2) r'.
Proof.
  intros (answered & pending & Hreq & Hgen & Hpend) Hu Ht Hu' Hs Hq Hp Hr Hpub. exists (answered ++ (key <$> taken (run_worker r))), pending.
  rewrite Ht, Hu', Hq, Hp, requests_in_app, published_gens_app, Hr, Hpub, !app_nil_r. split; [by rewrite Hreq, <-!app_assoc|]. split.
  - rewrite Hu in Hgen. rewrite app_nil_r in Hgen. by rewrite fmap_app, concat_app, key_generations, Hgen.
  - by apply Hs.
Qed.

(** Requests are given up that have no generation. *)
Lemma in_order_dropped evs r r' evs2 :
  in_order evs r → generations (uncollected (run_worker r)) = [] → taken (run_worker r') = [] → uncollected (run_worker r') = [] →
  (∀ p, held_back (run_worker r) p (sy_pending (run_syncer r)) → held_back (run_worker r') p (sy_pending (run_syncer r))) →
  sy_requests (run_syncer r') = sy_requests (run_syncer r) → sy_pending (run_syncer r') = sy_pending (run_syncer r) →
  requests_in evs2 = [] → published_gens evs2 = [] → in_order (evs ++ evs2) r'.
Proof.
  intros (answered & pending & Hreq & Hgen & Hpend) Hu Ht Hu' Hs Hq Hp Hr Hpub. exists (answered ++ (key <$> taken (run_worker r))), pending.
  rewrite Ht, Hu', Hq, Hp, requests_in_app, published_gens_app, Hr, Hpub, !app_nil_r. split; [by rewrite Hreq, <-!app_assoc|]. split.
  - rewrite Hu, app_nil_r in Hgen. by rewrite fmap_app, concat_app, key_generations, Hgen.
  - by apply Hs.
Qed.

(** A request is taken from the queue. *)
Lemma in_order_take evs r s' q rs w :
  in_order evs r → dequeue (run_syncer r) = (s', Some q) → taken (run_worker r) = rs → uncollected (run_worker r) = rs →
  (∀ p h, held_back (run_worker r) p h → held_back w p h) → taken w = rs ++ [q] → uncollected w = rs ++ [q] → in_order evs (with_worker w (with_syncer s' r)).
Proof.
  intros (answered & pending & Hreq & Hgen & Hpend) Hd Ht Hu Hs Ht' Hu'. destruct (dequeue_spec _ _ _ Hd) as (Hp & _ & Hq & _).
  exists answered, pending. cbn [run_worker run_syncer with_worker with_syncer]. rewrite Ht', Hu', Hp. rewrite Ht, Hu in *. rewrite Hreq, Hq.
  split; [by rewrite !fmap_app, <-!app_assoc|]. split; [|by apply Hs].
  rewrite generations_app, !app_assoc. f_equal. by rewrite <-app_assoc.
Qed.

(** Outside the narrow window the pending generations are those held. *)
Lemma pending_held w w' p h : settled w = false → held_back w p h → settled w' = false → held_back w' p h.
Proof.
  intros Hs Hp Hs'. assert (p = h) as -> by (destruct w; cbn [held_back settled] in *; try done; destruct Hp as [?|[_ ?]]; congruence).
  destruct w'; cbn [held_back settled] in *; try done; by left.
Qed.

Lemma background_in_order evs r r' q evs2 :
  run_worker r = Background → in_order evs r → backgroundRequest r = (r', q, evs2) → in_order (evs ++ evs2) (with_worker (Draining [q]) r').
Proof.
  intros Hw Hi. unfold backgroundRequest. destruct (dequeue (run_syncer r)) as [s' [q'|]] eqn:Hd.
  - intros [= <- <- <-]. rewrite app_nil_r. eapply in_order_take; [done|done|by rewrite Hw|by rewrite Hw| |done|done].
    intros p h Hok. rewrite Hw in Hok. by eapply pending_held; [|exact Hok|].
  - apply dequeue_spec in Hd as (_ & _ & _ & Hnone). destruct (Hnone eq_refl) as [-> Hq]. destruct (port_seal (run_env r)) as [env g].
    destruct (prepareLocalGeneration g _) as [r1 q'] eqn:Hp. apply prepareLocal_spec in Hp as (Hs & _ & _ & _ & Hres). intros [= <- <- <-].
    destruct Hi as (answered & pending & Hreq & Hgen & Hpend). rewrite Hw in *. exists answered, pending.
    cbn [run_worker run_syncer with_worker]. rewrite Hs. cbn [run_syncer with_env]. rewrite requests_in_app, published_gens_app, Hreq, Hq.
    cbn [taken uncollected] in *. split; [cbn [fmap list_fmap app]; unfold key at 1; rewrite Hres, !app_nil_r; done|]. split.
    + change (published_gens [Requested None (rq_generation q')]) with (@nil Generation). unfold generations in *. cbn [fmap list_fmap concat] in *.
      rewrite !app_nil_r in *. by rewrite <-Hgen, <-app_assoc.
    + by eapply pending_held; [|exact Hpend|].
Qed.

Lemma collect_in_order evs r rs q rest cp r' evs2 :
  run_worker r = Collecting rs (q :: rest) cp → in_order evs r → undropped evs2 → collect rs q rest cp r = Some (r', evs2) → in_order (evs ++ evs2) r'.
Proof.
  intros Hw Hi Hund. unfold collect. set (accept := with_worker (Collecting rs rest _) _).
  assert (in_order (evs ++ []) accept) as Haccept.
  { destruct Hi as (answered & pending & Hreq & Hgen & Hpend). rewrite Hw in *. subst accept. rewrite app_nil_r.
    destruct Hpend as [->|[_ ?]]; [|done]. exists answered, (sy_pending (run_syncer r) ++ generation_of q).
    cbn [run_worker run_syncer with_worker with_syncer taken uncollected sy_requests sy_pending set_pending] in *. split; [done|]. split; [|by left].
    rewrite <-Hgen. unfold generations. cbn [fmap list_fmap concat]. by rewrite <-!app_assoc. }
  destruct (rq_ready q) as [c|]; [|by intros [= <- <-]]. destruct (port_receive c (run_env r)) as [[e|]|]; [|by intros [= <- <-]|done].
  intros [= <- <-]. apply undropped_app in Hund as [_ Hdrop]. assert (generations (q :: rest) = []) as Hnil by (apply Hdrop; by left).
  eapply in_order_dropped; [done|by rewrite Hw|done|done| |done|done| |].
  - intros p Hok. rewrite Hw in Hok. destruct Hok as [->|[_ ?]]; [by left|done].
  - rewrite requests_in_app. by rewrite (answers_requests id).
  - rewrite published_gens_app. by rewrite (answers_published id).
Qed.

Lemma publish_in_order evs r rs cp segs r' evs2 :
  run_worker r = Publishing rs cp segs → in_order evs r → publish rs cp segs r = (r', evs2) → in_order (evs ++ evs2) r'.
Proof.
  intros Hw Hi. unfold publish. destruct (port_publish segs (run_env r)) as [env [e|]].
  - intros [= <- <-]. eapply in_order_move; [done|rewrite Hw; cbn; by case_if|rewrite Hw; cbn; by case_if| |done|done|done|done].
    intros p Hok. rewrite Hw in Hok. destruct Hok as [->|[_ ?]]; [|done]. cbn. case_if; by left.
  - intros [= <- <-]. destruct Hi as (answered & pending & Hreq & Hgen & Hpend). rewrite Hw in *. destruct Hpend as [->|[_ ?]]; [|done].
    exists answered, []. cbn [run_worker run_syncer with_worker with_env taken uncollected] in *. rewrite requests_in_app, published_gens_app.
    change (requests_in [Published _ _]) with (@nil (option nat * list Generation)). rewrite app_nil_r. split; [done|]. split; [|done].
    rewrite <-Hgen. unfold published_gens at 2. cbn [fmap list_fmap concat event_publication]. by rewrite <-!app_assoc.
Qed.

Lemma acknowledge_in_order evs r rs cp r' evs2 :
  run_worker r = Acknowledging rs cp → in_order evs r → acknowledge rs cp r = (r', evs2) → in_order (evs ++ evs2) r'.
Proof.
  intros Hw Hi. unfold acknowledge. destruct (if _ && _ then _ else _) as [env [e|]].
  - intros [= <- <-]. eapply in_order_move; [done|by rewrite Hw|by rewrite Hw| |done|done|done|done].
    intros p Hok. rewrite Hw in Hok. cbn in Hok. subst p. by right.
  - intros [= <- <-]. destruct Hi as (answered & pending & Hreq & Hgen & Hpend). rewrite Hw in *. cbn in Hpend. subst pending.
    exists answered, []. cbn [run_worker run_syncer with_worker with_env with_syncer taken uncollected sy_requests set_pending] in *.
    rewrite requests_in_app, published_gens_app, released_requests, released_published, !app_nil_r. split; [done|]. split; [by rewrite !app_nil_r in Hgen|by left].
Qed.

Lemma proceed_in_order evs r r' evs2 : in_order evs r → undropped evs2 → proceed r = Some (r', evs2) → in_order (evs ++ evs2) r'.
Proof.
  intros Hi Hund. unfold proceed. destruct (run_worker r) as [| | |rs|rs|rs rest cp|rs cp|rs cp segs|rs cp segs|rs cp|rs cp err|rs cp err| |err| |] eqn:Hw; try done.
  - destruct (dequeue (run_syncer r)) as [s' [q|]] eqn:Hd; intros [= <- <-].
    + rewrite app_nil_r. eapply in_order_take; [done|done|by rewrite Hw|by rewrite Hw| |done|done]. intros p h Hok. rewrite Hw in Hok. by eapply pending_held; [|exact Hok|].
    + apply dequeue_spec in Hd as (_ & _ & _ & Hnone). destruct (Hnone eq_refl) as [-> _].
      eapply in_order_move; [done|by rewrite Hw|by rewrite Hw| |done..]. intros p Hok. rewrite Hw in Hok. by eapply pending_held; [|exact Hok|].
  - destruct (backgroundRequest r) as [[r1 q] evs1] eqn:Hb. intros [= <- <-]. by eapply background_in_order.
  - assert (in_order (evs ++ []) (with_worker (Rearming rs) r)) as Hmove.
    { eapply in_order_move; [done|by rewrite Hw|by rewrite Hw| |done..]. intros p Hok. rewrite Hw in Hok. by eapply pending_held; [|exact Hok|]. }
    case_if; [|by intros [= <- <-]]. destruct (dequeue (run_syncer r)) as [s' [q|]] eqn:Hd; intros [= <- <-].
    + rewrite app_nil_r. eapply in_order_take; [done|done|by rewrite Hw|by rewrite Hw| |done|done]. intros p h Hok. rewrite Hw in Hok. by eapply pending_held; [|exact Hok|].
    + apply dequeue_spec in Hd as (_ & _ & _ & Hnone). destruct (Hnone eq_refl) as [-> _]. exact Hmove.
  - intros [= <- <-]. eapply in_order_move; [done|by rewrite Hw|by rewrite Hw| |..|done|done]; cbn [run_syncer with_worker with_syncer];
      unfold rearmWakeIfQueued; try (by case_bool_decide). intros p Hok. rewrite Hw in Hok. by eapply pending_held; [|exact Hok|].
  - destruct rest as [|q rest]; [|by apply (collect_in_order evs r rs q rest cp)].
    intros [= <- <-]. eapply in_order_move; [done|by rewrite Hw|by rewrite Hw| |done..]. intros p Hok. rewrite Hw in Hok. by eapply pending_held; [|exact Hok|].
  - intros [= <- <-]. unfold sync. case_bool_decide.
    { eapply in_order_move; [done|by rewrite Hw|by rewrite Hw| |done..]. intros p Hok. rewrite Hw in Hok. by eapply pending_held; [|exact Hok|]. }
    destruct (EncodeSegments _ _); (eapply in_order_move; [done|by rewrite Hw|by rewrite Hw| |done..]); intros p Hok; rewrite Hw in Hok;
      destruct Hok as [->|[_ ?]]; [by left|done|by left|done].
  - intros [= Hp]. by eapply publish_in_order.
  - intros [= <- <-]. eapply in_order_move; [done|by rewrite Hw|by rewrite Hw| |done..]. intros p Hok. rewrite Hw in Hok. by eapply pending_held; [|exact Hok|].
  - intros [= Hp]. by eapply acknowledge_in_order.
  - destruct (bool_decide (err = None) && cp) eqn:Hcp.
    + apply andb_true_iff in Hcp as [->%bool_decide_eq_true _]. destruct (checkpoint r) as [r1 err1] eqn:Hc. apply checkpoint_spec in Hc as (Hs & _).
      intros [= <- <-]. eapply in_order_move; [done|by rewrite Hw|by rewrite Hw| |by cbn; rewrite Hs|by cbn; rewrite Hs|done|done].
      intros p Hok. rewrite Hw in Hok. destruct Hok as [->|[_ ?]]; [by left|done].
    + intros [= <- <-]. eapply in_order_move; [done|by rewrite Hw|by rewrite Hw| |done..]. intros p Hok. by rewrite Hw in Hok.
  - intros [= <- <-]. eapply in_order_done; [done|by rewrite Hw| | | |done|done|apply (answers_requests id)|apply (answers_published id)];
      cbn [run_worker with_worker]; destruct (bool_decide (err = None) && negb cp) eqn:Hcp; try done; intros p Hok; rewrite Hw in Hok.
    + apply andb_true_iff in Hcp as [->%bool_decide_eq_true _]. destruct Hok as [->|[_ ?]]; [by left|done].
    + exact Hok.
  - destruct (checkpoint r) as [r1 err1] eqn:Hc. apply checkpoint_spec in Hc as (Hs & _). intros [= <- <-].
    eapply in_order_move; [done|by rewrite Hw|by rewrite Hw| |by cbn; rewrite Hs|by cbn; rewrite Hs|done|done].
    intros p Hok. rewrite Hw in Hok. destruct Hok as [->|[_ ?]]; [by left|done].
  - destruct err as [e|]; [destruct (errors_Is e ErrLeaseLost || errors_Is e ErrLocalJournal) eqn:He|]; intros [= <- <-];
      (eapply in_order_move; [done|by rewrite Hw|by rewrite Hw| |done..]); intros p Hok; rewrite Hw in Hok; destruct Hok as [->|[-> Hset]];
      first [by left|by right|cbn [settled is_lost] in Hset; congruence].
  - intros [= <- <-]. apply undropped_app in Hund as [_ Hdrop]. assert (generations (sy_requests (run_syncer r)) = []) as Hnil by (apply Hdrop; by left).
    destruct Hi as (answered & pending & Hreq & Hgen & Hpend). rewrite Hw in *. exists (answered ++ (key <$> sy_requests (run_syncer r))), pending.
    cbn [run_worker run_syncer with_worker with_syncer taken uncollected closeRequests sy_requests answer set_answers set_closed sy_pending] in *.
    rewrite !requests_in_app, !published_gens_app, (answers_requests id), (answers_published id), Hreq, fmap_app, concat_app, key_generations, Hnil. cbn [app fmap list_fmap].
    rewrite !app_nil_r. rewrite !app_nil_r in Hgen. split; [done|]. split; [exact Hgen|]. destruct Hpend as [->|[-> _]]; [by left|by right].
Qed.

Lemma cancel_in_order evs r r' evs2 : in_order evs r → undropped evs2 → on_cancel r = Some (r', evs2) → in_order (evs ++ evs2) r'.
Proof.
  intros Hi Hund. unfold on_cancel. destruct (negb (run_cancelled r)); [done|].
  destruct (run_worker r) as [| | |rs|rs|rs rest cp|rs cp|rs cp segs|rs cp segs|rs cp|rs cp err|rs cp err| |err| |] eqn:Hw; try done.
  - intros [= <- <-]. eapply in_order_move; [done|by rewrite Hw|by rewrite Hw| |done..]. intros p Hok. rewrite Hw in Hok. destruct Hok as [->|[_ ?]]; [by left|done].
  - destruct rest as [|q rest]; [done|]. destruct (rq_ready q); [|done]. intros [= <- <-].
    assert (generations (q :: rest) = []) as Hnil by (apply Hund; by left).
    eapply in_order_dropped; [done|by rewrite Hw|done|done| |done..]. intros p Hok. rewrite Hw in Hok. by eapply pending_held; [|exact Hok|].
  - intros [= <- <-]. eapply in_order_move; [done|by rewrite Hw|by rewrite Hw| |done..]. intros p Hok. rewrite Hw in Hok. by eapply pending_held; [|exact Hok|].
Qed.

Lemma idle_in_order evs r s' w :
  run_worker r = Idle → in_order evs r → taken w = [] → uncollected w = [] → settled w = false →
  sy_requests s' = sy_requests (run_syncer r) → sy_pending s' = sy_pending (run_syncer r) → in_order (evs ++ []) (with_worker w (with_syncer s' r)).
Proof.
  intros Hw Hi Ht Hu Hs Hq Hp. eapply in_order_move; [done|by rewrite Hw|by rewrite Hw| |done..]. intros p Hok. rewrite Hw in Hok.
  by eapply pending_held; [|exact Hok|].
Qed.

Lemma step_in_order evs a r r' evs2 : in_order evs r → undropped evs2 → step a r = Some (r', evs2) → in_order (evs ++ evs2) r'.
Proof.
  intros Hi Hund. destruct a; cbn [step].
  - by apply proceed_in_order.
  - unfold on_wake. destruct (run_worker r) eqn:Hw; try done. destruct (sy_wake _); [|done]. intros [= <- <-]. by apply idle_in_order.
  - unfold on_urgent. destruct (run_worker r) eqn:Hw; try done. destruct (sy_urgent _); [|done]. intros [= <- <-]. by apply idle_in_order.
  - unfold on_tick. destruct (run_worker r) eqn:Hw; try done. intros [= <- <-].
    eapply in_order_move; [done|by rewrite Hw|by rewrite Hw| |done..]. intros p Hok. rewrite Hw in Hok. by eapply pending_held; [|exact Hok|].
  - by apply cancel_in_order.
  - intros [= Hr]. by eapply request_in_order.
  - intros [= Hr]. by eapply EnqueueGeneration_in_order.
  - intros [= Hr]. by eapply EnqueueLocalGeneration_in_order.
  - intros [= Hr]. by eapply submit_in_order.
  - destruct (run_owed r); [done|]. intros [= <- <-]. by eapply in_order_same.
  - intros [= <- <-]. by eapply in_order_same.
  - intros [= <- <-]. by eapply in_order_same.
  - intros [= <- <-]. unfold Stop. destruct (port_give_up _) as [? []]; by eapply in_order_same.
  - intros [= <- <-]. by eapply in_order_same.
Qed.

Lemma runs_in_order journal interval env as1 evs r :
  runs (StartSyncer journal interval env) as1 evs r → undropped evs → in_order evs r.
Proof.
  remember (StartSyncer journal interval env) as r0 eqn:Hr0. induction 1 as [|r1 as1 evs1 r2 a evs2 r3 _ IH Hs]; intros Hund; subst.
  - exists [], []. split; [done|]. split; [done|]. by left.
  - apply undropped_app in Hund as [Hu1 Hu2]. eapply step_in_order; [by apply IH|done|done].
Qed.

(** *** Success means flushed *)

Lemma submit_worker q wake r r' evs2 : submit q wake r = (r', evs2) → run_worker r' = run_worker r ∧ sy_pending (run_syncer r') = sy_pending (run_syncer r).
Proof. intros Hs. by destruct (submit_spec _ _ _ _ _ Hs) as (? & ? & _). Qed.

(** The calls of clients leave the worker and its pending generations alone. *)
Lemma client_worker a r r' evs2 :
  match a with Proceed | TakeWake | TakeUrgent | TakeTick | TakeCancel => False | _ => True end → step a r = Some (r', evs2) →
  run_worker r' = run_worker r ∧ sy_pending (run_syncer r') = sy_pending (run_syncer r).
Proof.
  destruct a; try done; intros _; cbn [step].
  - intros [= Hr]. unfold request in Hr. cbn [new_channel] in Hr. destruct (port_seal (run_env r)) as [env g].
    destruct (prepareLocalGeneration g _) as [r1 q] eqn:Hp. apply prepareLocal_spec in Hp as (Hs & Hw & _). apply submit_worker in Hr as [-> ->]. by rewrite Hs, Hw.
  - intros [= Hr]. unfold EnqueueGeneration in Hr. destruct (port_seal (run_env r)) as [env g]. cbn [new_channel] in Hr. by apply submit_worker in Hr as [-> ->].
  - intros [= Hr]. unfold EnqueueLocalGeneration in Hr. destruct (port_seal (run_env r)) as [env g]. case_if_in Hr; [by injection Hr as <- _|].
    destruct (port_enqueue g env) as [[[env' g'] ?] ready]. case_if_in Hr; [by injection Hr as <- _|]. by apply submit_worker in Hr as [-> ->].
  - intros [= Hr]. by apply submit_worker in Hr as [-> ->].
  - destruct (run_owed r); [done|]. by intros [= <- _].
  - by intros [= <- _].
  - by intros [= <- _].
  - intros [= <- _]. unfold Stop. by destruct (port_give_up _) as [? []].
  - by intros [= <- _].
Qed.

Lemma step_flushed a r r' evs2 : success_flushed r → step a r = Some (r', evs2) → success_flushed r'.
Proof.
  intros Hf Hs. destruct (match a with Proceed | TakeWake | TakeUrgent | TakeTick | TakeCancel => false | _ => true end) eqn:Ha.
  { destruct (client_worker a r r' evs2) as [Hw Hp]; [by destruct a|done|]. unfold success_flushed in *. by rewrite Hw, Hp. }
  destruct a; try done; cbn [step] in Hs; unfold success_flushed in *.
  - unfold proceed in Hs. destruct (run_worker r) as [| | |rs|rs|rs rest cp|rs cp|rs cp segs|rs cp segs|rs cp|rs cp err|rs cp err| |err| |] eqn:Hw; try done.
    + destruct (dequeue _) as [? []]; by injection Hs as <- _.
    + destruct (backgroundRequest r) as [[? ?] ?]. by injection Hs as <- _.
    + case_if_in Hs; [destruct (dequeue _) as [? []]|]; by injection Hs as <- _.
    + by injection Hs as <- _.
    + destruct rest as [|q rest]; [by injection Hs as <- _|]. unfold collect in Hs. destruct (rq_ready q) as [c|]; [|by injection Hs as <- _].
      destruct (port_receive _ _) as [[|]|]; [by injection Hs as <- _..|done].
    + injection Hs as <- _. unfold sync. case_bool_decide as Hn; [done|]. by destruct (EncodeSegments _ _).
    + injection Hs as Hs. unfold publish in Hs. destruct (port_publish _ _) as [env [e|]]; injection Hs as <- _; [|done]. cbn. by case_if.
    + by injection Hs as <- _.
    + injection Hs as Hs. unfold acknowledge in Hs. destruct (if _ && _ then _ else _) as [env [e|]]; by injection Hs as <- _.
    + destruct (bool_decide (err = None) && cp) eqn:Hc.
      * apply andb_true_iff in Hc as [->%bool_decide_eq_true _]. destruct (checkpoint r) as [r1 err1] eqn:Hc. apply checkpoint_spec in Hc as (Hsy & _).
        injection Hs as <- _. cbn. rewrite Hsy. by destruct err1.
      * by injection Hs as <- _.
    + injection Hs as <- _. cbn. by case_if.
    + destruct (checkpoint r). by injection Hs as <- _.
    + destruct err as [e|]; [case_if_in Hs|]; by injection Hs as <- _.
    + by injection Hs as <- _.
  - unfold on_wake in Hs. destruct (run_worker r); try done. destruct (sy_wake _); [|done]. by injection Hs as <- _.
  - unfold on_urgent in Hs. destruct (run_worker r); try done. destruct (sy_urgent _); [|done]. by injection Hs as <- _.
  - unfold on_tick in Hs. destruct (run_worker r); try done. by injection Hs as <- _.
  - unfold on_cancel in Hs. destruct (negb _); [done|]. destruct (run_worker r) as [| | |rs|rs|rs rest cp|rs cp|rs cp segs|rs cp segs|rs cp|rs cp err|rs cp err| |err| |]; try done.
    + by injection Hs as <- _.
    + destruct rest as [|q rest]; [done|]. destruct (rq_ready q); [|done]. by injection Hs as <- _.
    + by injection Hs as <- _.
Qed.
End fifo.
