(* ===== verification/SyncerTheorems.v ===== *)
(** * The theorems on the replication worker *)
From S2P Require Import Prelude Extents Codec File Segment Types Syncer SyncerProps.
Local Open Scope Z_scope.

Lemma submseteq_NoDup {A} (l k : list A) : NoDup k → l ⊆+ k → NoDup l.
Proof. intros Hk [r Hp]%submseteq_Permutation. rewrite Hp in Hk. by apply NoDup_app in Hk as [? _]. Qed.

Section channels.
Context {E : Type} `{Ports E} `{Digest} `{Gzip}.
Implicit Types r : Run (E := E).

(** The channels of requests that wait for an answer. *)
Definition waiting r : list nat := results (taken (run_worker r)) ++ results (sy_requests (run_syncer r)).

Definition requested_ids (evs : list sync_event) : list nat := omap fst (requests_in evs).

(** A step makes at most one channel, and answers the channels that it takes
    from the waiting ones; only a cancellation forgets any. *)
Definition balance r evs2 r' : Prop :=
  ∃ fresh lost, (fresh = [] ∧ sy_channels (run_syncer r') = sy_channels (run_syncer r) ∨
                 fresh = [sy_channels (run_syncer r)] ∧ sy_channels (run_syncer r') = S (sy_channels (run_syncer r))) ∧
    waiting r ++ fresh ≡ₚ answered_in evs2 ++ waiting r' ++ lost ∧ (run_cancelled r = false → lost = []) ∧
    (requested_ids evs2 = [] ∨ requested_ids evs2 = fresh) ∧ (run_cancelled r' = false → run_cancelled r = false).

Lemma results_app xs ys : results (xs ++ ys) = results xs ++ results ys.
Proof. apply omap_app. Qed.

Lemma results_one q : results [q] = match rq_result q with Some i => [i] | None => [] end.
Proof. unfold results. cbn [omap list_omap]. by destruct (rq_result q). Qed.

(** The quiet steps. *)
Lemma balance_same r r' evs2 :
  results (taken (run_worker r')) ++ results (sy_requests (run_syncer r')) ≡ₚ waiting r → sy_channels (run_syncer r') = sy_channels (run_syncer r) →
  run_cancelled r' = run_cancelled r → answered_in evs2 = [] → requested_ids evs2 = [] → balance r evs2 r'.
Proof.
  intros Hw Hc Hcan Ha Hr. exists [], []. split; [by left|]. rewrite Ha. cbn [app]. rewrite !app_nil_r. split; [by rewrite <-Hw|]. split; [done|]. split; [by left|congruence].
Qed.

Lemma submit_balance q wake r r' evs2 s0 :
  submit q wake r = (r', evs2) → (rq_result q = None ∧ run_syncer r = s0 ∨ rq_result q = Some (sy_channels s0) ∧ sy_channels (run_syncer r) = S (sy_channels s0)) →
  sy_requests (run_syncer r) = sy_requests s0 →
  balance (with_syncer s0 r) evs2 r'.
Proof.
  intros Hs Hq Hreq. exists (match rq_result q with Some i => [i] | None => [] end), []. unfold submit, enqueue in Hs.
  destruct (sy_closed (run_syncer r)); injection Hs as <- <-.
  - cbn [run_syncer with_syncer answer set_answers sy_channels run_worker waiting]. split; [destruct Hq as [[-> ->]|[-> ->]]; [by left|by right]|].
    rewrite (answers_answered _ (results [q])), results_one. split; [|split; [done|split; [left|done]]].
    + unfold waiting. cbn [run_worker with_syncer run_syncer]. rewrite app_nil_r. cbn [sy_requests set_answers answer]. rewrite Hreq.
      destruct (rq_result q); [|by rewrite app_nil_r]. cbn [app]. by rewrite Permutation_app_comm.
    + unfold requested_ids. by rewrite (answers_requests id).
  - cbn [run_syncer with_syncer with_owed set_queue sy_channels]. split; [destruct Hq as [[-> ->]|[-> ->]]; [by left|by right]|].
    split; [|split; [done|split; [|done]]].
    + unfold waiting. cbn [run_worker with_syncer run_syncer with_owed sy_requests set_queue]. rewrite Hreq, results_app, app_nil_r, <-app_assoc.
      rewrite results_one. done.
    + right. unfold requested_ids, requests_in. cbn [fmap list_fmap concat event_request app omap list_omap fst]. by destruct (rq_result q).
Qed.

Lemma balance_ext r1 r evs2 r' :
  run_worker r1 = run_worker r → run_syncer r1 = run_syncer r → run_cancelled r1 = run_cancelled r → balance r1 evs2 r' → balance r evs2 r'.
Proof. unfold balance, waiting. by intros -> -> ->. Qed.

Lemma request_balance cp r r' evs2 : request cp r = (r', evs2) → balance r evs2 r'.
Proof.
  unfold request. cbn [new_channel]. destruct (port_seal (run_env r)) as [env g]. destruct (prepareLocalGeneration g _) as [r1 q] eqn:Hp.
  apply prepareLocal_spec in Hp as (Hs & Hw & _ & Hc & _). intros Hsub.
  eapply (balance_ext (with_syncer (run_syncer r) r1)); [done|done|done|]. eapply submit_balance; [exact Hsub|right; by rewrite Hs|by rewrite Hs].
Qed.

Lemma EnqueueGeneration_balance r r' evs2 : EnqueueGeneration r = (r', evs2) → balance r evs2 r'.
Proof.
  unfold EnqueueGeneration. destruct (port_seal (run_env r)) as [env g]. cbn [new_channel]. intros Hsub.
  eapply (balance_ext (with_syncer (run_syncer r) (with_env env (with_syncer _ r)))); [done..|]. eapply submit_balance; [exact Hsub|by right|done].
Qed.

Lemma EnqueueLocalGeneration_balance r r' evs2 : EnqueueLocalGeneration r = (r', evs2) → balance r evs2 r'.
Proof.
  unfold EnqueueLocalGeneration. destruct (port_seal (run_env r)) as [env g]. case_if; [intros [= <- <-]; by destruct g; apply balance_same|].
  destruct (port_enqueue g env) as [[[env' g'] ?] ready]. case_if; [intros [= <- <-]; by apply balance_same|]. intros Hsub.
  eapply (balance_ext (with_syncer (run_syncer r) (with_env env' r))); [done..|]. eapply submit_balance; [exact Hsub|by left|done].
Qed.

Lemma dequeue_channels s s' q : dequeue s = (s', q) → sy_channels s' = sy_channels s.
Proof. unfold dequeue. by destruct (sy_requests s); intros [= <- _]. Qed.

(** A request moves from the queue to the worker. *)
Lemma take_balance r s' q rs w :
  dequeue (run_syncer r) = (s', Some q) → taken (run_worker r) = rs → taken w = rs ++ [q] → balance r [] (with_worker w (with_syncer s' r)).
Proof.
  intros Hd Ht Ht'. pose proof (dequeue_channels _ _ _ Hd) as Hch. destruct (dequeue_spec _ _ _ Hd) as (_ & _ & Hq & _). apply balance_same; [|done..].
  unfold waiting. cbn [run_worker run_syncer with_worker with_syncer]. rewrite Ht', Ht, Hq, !results_app. by rewrite <-app_assoc.
Qed.

Lemma background_balance r r' q evs2 :
  run_worker r = Background → backgroundRequest r = (r', q, evs2) → balance r evs2 (with_worker (Draining [q]) r').
Proof.
  intros Hw. unfold backgroundRequest. destruct (dequeue (run_syncer r)) as [s' [q'|]] eqn:Hd.
  - intros [= <- <- <-]. eapply take_balance; [exact Hd|by rewrite Hw|done].
  - apply dequeue_spec in Hd as (_ & _ & _ & Hnone). destruct (Hnone eq_refl) as [-> _]. destruct (port_seal (run_env r)) as [env g].
    destruct (prepareLocalGeneration g _) as [r1 q'] eqn:Hp. apply prepareLocal_spec in Hp as (Hs & _ & _ & Hc & Hres). intros [= <- <- <-].
    apply balance_same; [|by cbn; rewrite Hs|by cbn; rewrite Hc|done|done].
    unfold waiting. cbn [run_worker run_syncer with_worker taken]. rewrite Hs, Hw, results_one, Hres. done.
Qed.

(** Requests are answered. *)
Lemma answer_balance r r' evs2 rs err :
  taken (run_worker r) = rs → taken (run_worker r') = [] → sy_requests (run_syncer r') = sy_requests (run_syncer r) →
  sy_channels (run_syncer r') = sy_channels (run_syncer r) → run_cancelled r' = run_cancelled r →
  answered_in evs2 = [] → requested_ids evs2 = [] → balance r (((fun i => Answered i err) <$> results rs) ++ evs2) r'.
Proof.
  intros Ht Ht' Hq Hch Hc Ha Hr. exists [], []. split; [by left|]. unfold waiting. rewrite Ht, Ht', Hq, answered_in_app, answers_answered, Ha, !app_nil_r.
  split; [done|]. split; [done|]. split; [left|congruence]. unfold requested_ids in *. by rewrite requests_in_app, (answers_requests id), omap_app, Hr.
Qed.

Lemma checkpoint_cancelled r r' err : checkpoint r = (r', err) → run_syncer r' = run_syncer r ∧ run_cancelled r' = run_cancelled r.
Proof.
  unfold checkpoint. case_if; [by intros [= <- _]|]. case_if; [by intros [= <- _]|]. destruct (port_checkpoint _). by intros [= <- _].
Qed.

Lemma proceed_balance r r' evs2 : proceed r = Some (r', evs2) → balance r evs2 r'.
Proof.
  unfold proceed. destruct (run_worker r) as [| | |rs|rs|rs rest cp|rs cp|rs cp segs|rs cp segs|rs cp|rs cp err|rs cp err| |err| |] eqn:Hw; try done.
  - destruct (dequeue (run_syncer r)) as [s' [q|]] eqn:Hd; intros [= <- <-]; [eapply take_balance; [exact Hd|by rewrite Hw|done]|].
    apply dequeue_spec in Hd as (_ & _ & _ & Hnone). destruct (Hnone eq_refl) as [-> _]. apply balance_same; [|done..]. unfold waiting. by rewrite Hw.
  - destruct (backgroundRequest r) as [[r1 q] evs1] eqn:Hb. intros [= <- <-]. by apply background_balance.
  - assert (∀ s', s' = run_syncer r → balance r [] (with_worker (Rearming rs) (with_syncer s' r))) as Hmove.
    { intros s' ->. apply balance_same; [|done..]. unfold waiting. by rewrite Hw. }
    case_if; [|intros [= <- <-]; by apply (Hmove (run_syncer r))]. destruct (dequeue (run_syncer r)) as [s' [q|]] eqn:Hd; intros [= <- <-].
    + eapply take_balance; [exact Hd|by rewrite Hw|done].
    + apply dequeue_spec in Hd as (_ & _ & _ & Hnone). by apply Hmove, Hnone.
  - intros [= <- <-]. unfold rearmWakeIfQueued. apply balance_same; [unfold waiting; rewrite Hw; cbn; by case_bool_decide|cbn; by case_bool_decide|done..].
  - destruct rest as [|q rest]; [intros [= <- <-]; apply balance_same; [unfold waiting; by rewrite Hw|done..]|]. unfold collect.
    assert (∀ s' cp', sy_requests s' = sy_requests (run_syncer r) → sy_channels s' = sy_channels (run_syncer r) → balance r [] (with_worker (Collecting rs rest cp') (with_syncer s' r))) as Hmove.
    { intros s' cp' Hq Hch. apply balance_same; [|done..]. unfold waiting. rewrite Hw. cbn [run_syncer with_worker with_syncer]. by rewrite Hq. }
    destruct (rq_ready q) as [c|]; [|intros [= <- <-]; by apply Hmove]. destruct (port_receive _ _) as [[e|]|]; [|intros [= <- <-]; by apply Hmove|done].
    intros [= <- <-]. apply answer_balance; [by rewrite Hw|done..].
  - intros [= <- <-]. unfold sync. case_bool_decide; [|destruct (EncodeSegments _ _)]; (apply balance_same; [unfold waiting; by rewrite Hw|done..]).
  - intros [= Hp]. unfold publish in Hp. destruct (port_publish _ _) as [env [e|]]; injection Hp as <- <-;
      (apply balance_same; [unfold waiting; rewrite Hw; cbn; try case_if; done|done..]).
  - intros [= <- <-]. apply balance_same; [unfold waiting; by rewrite Hw|done..].
  - intros [= Hp]. unfold acknowledge in Hp. destruct (if _ && _ then _ else _) as [env [e|]]; injection Hp as <- <-.
    + apply balance_same; [unfold waiting; by rewrite Hw|done..].
    + apply balance_same; [unfold waiting; by rewrite Hw|done|done|apply released_answered|unfold requested_ids; by rewrite released_requests].
  - case_if; [destruct (checkpoint r) as [r1 err1] eqn:Hc|]; intros [= <- <-].
    + destruct (checkpoint_cancelled _ _ _ Hc) as [Hs Hcan]. apply balance_same; [unfold waiting; rewrite Hw; cbn; by rewrite Hs|cbn; by rewrite Hs|by cbn|done..].
    + apply balance_same; [unfold waiting; by rewrite Hw|done..].
  - intros [= <- <-]. rewrite <-(app_nil_r (_ <$> _)). apply answer_balance; [by rewrite Hw|cbn; by case_if|done..].
  - destruct (checkpoint r) as [r1 err1] eqn:Hc. intros [= <- <-]. destruct (checkpoint_cancelled _ _ _ Hc) as [Hs Hcan].
    apply balance_same; [unfold waiting; rewrite Hw; cbn; by rewrite Hs|cbn; by rewrite Hs|by cbn|done..].
  - destruct err as [e|]; [case_if|]; intros [= <- <-]; (apply balance_same; [unfold waiting; by rewrite Hw|done..]).
  - intros [= <- <-]. exists [], []. split; [by left|]. unfold waiting. rewrite Hw, answered_in_app, answers_answered. cbn [app]. rewrite !app_nil_r.
    split; [done|]. split; [done|]. split; [left|done]. unfold requested_ids. by rewrite requests_in_app, (answers_requests id).
Qed.

Lemma cancel_balance r r' evs2 : on_cancel r = Some (r', evs2) → balance r evs2 r'.
Proof.
  unfold on_cancel. destruct (run_cancelled r) eqn:Hc; cbn [negb]; [|done].
  destruct (run_worker r) as [| | |rs|rs|rs rest cp|rs cp|rs cp segs|rs cp segs|rs cp|rs cp err|rs cp err| |err| |] eqn:Hw; try done.
  - intros [= <- <-]. apply balance_same; [unfold waiting; by rewrite Hw|done..].
  - destruct rest as [|q rest]; [done|]. destruct (rq_ready q); [|done]. intros [= <- <-]. exists [], (results rs). split; [by left|].
    unfold waiting. rewrite Hw. cbn. rewrite app_nil_r. split; [apply Permutation_app_comm|]. split; [by rewrite Hc|]. by split; [left|].
  - intros [= <- <-]. apply balance_same; [unfold waiting; by rewrite Hw|done..].
Qed.

Lemma step_balance a r r' evs2 : step a r = Some (r', evs2) → balance r evs2 r'.
Proof.
  destruct a; cbn [step].
  - apply proceed_balance.
  - unfold on_wake. destruct (run_worker r) eqn:Hw; try done. destruct (sy_wake _); [|done]. intros [= <- <-]. apply balance_same; [unfold waiting; by rewrite Hw|done..].
  - unfold on_urgent. destruct (run_worker r) eqn:Hw; try done. destruct (sy_urgent _); [|done]. intros [= <- <-]. apply balance_same; [unfold waiting; by rewrite Hw|done..].
  - unfold on_tick. destruct (run_worker r) eqn:Hw; try done. intros [= <- <-]. apply balance_same; [unfold waiting; by rewrite Hw|done..].
  - apply cancel_balance.
  - intros [= Hr]. by eapply request_balance.
  - intros [= Hr]. by apply EnqueueGeneration_balance.
  - intros [= Hr]. by apply EnqueueLocalGeneration_balance.
  - intros [= Hr]. unfold EnqueueRecovered in Hr. eapply (balance_ext (with_syncer (run_syncer r) r)); [done..|]. eapply submit_balance; [exact Hr|by left|done].
  - destruct (run_owed r); [done|]. intros [= <- <-]. by apply balance_same.
  - intros [= <- <-]. by apply balance_same.
  - intros [= <- <-]. exists [], []. split; [by left|]. rewrite !app_nil_r. cbn [app]. split; [done|]. split; [done|]. by split; [left|].
  - intros [= <- <-]. unfold Stop. destruct (port_give_up _) as [? []]; [by apply balance_same|].
    exists [], []. split; [by left|]. rewrite !app_nil_r. cbn [app]. split; [done|]. split; [done|]. by split; [left|].
  - intros [= <- <-]. by apply balance_same.
Qed.

(** Every channel that was made waits or was answered, once. *)
Definition channels_ok evs r : Prop :=
  answered_in evs ++ waiting r ⊆+ seq 0 (sy_channels (run_syncer r)) ∧
  (run_cancelled r = false → answered_in evs ++ waiting r ≡ₚ seq 0 (sy_channels (run_syncer r))) ∧
  requested_ids evs ⊆+ seq 0 (sy_channels (run_syncer r)).

Lemma step_channels evs r evs2 r' : channels_ok evs r → balance r evs2 r' → channels_ok (evs ++ evs2) r'.
Proof.
  intros (Hsub & Heq & Hids) (fresh & lost & Hfresh & Hperm & Hlost & Hreq & Hcan).
  assert (seq 0 (sy_channels (run_syncer r')) ≡ₚ seq 0 (sy_channels (run_syncer r)) ++ fresh) as Hseq.
  { destruct Hfresh as [[-> ->]|[-> ->]]; [by rewrite app_nil_r|]. by rewrite seq_S. }
  assert (answered_in (evs ++ evs2) ++ waiting r' ++ lost ≡ₚ (answered_in evs ++ waiting r) ++ fresh) as Hall.
  { rewrite answered_in_app, <-!app_assoc. by rewrite <-Hperm. }
  split; [|split].
  - rewrite Hseq. transitivity ((answered_in evs ++ waiting r) ++ fresh); [|by apply submseteq_app]. rewrite <-Hall, app_assoc. apply submseteq_inserts_r. done.
  - intros Hc. specialize (Hcan Hc). rewrite (Hlost Hcan), app_nil_r in Hall. by rewrite Hall, (Heq Hcan), Hseq.
  - unfold requested_ids in *. rewrite requests_in_app, omap_app, Hseq. apply submseteq_app; [done|]. destruct Hreq as [-> | ->]; [apply submseteq_nil_l|done].
Qed.

Lemma runs_channels journal interval env as1 evs r : runs (StartSyncer journal interval env) as1 evs r → channels_ok evs r.
Proof.
  remember (StartSyncer journal interval env) as r0 eqn:Hr0. induction 1 as [|r1 as1 evs1 r2 a evs2 r3 _ IH Hs]; subst.
  - split; [apply submseteq_nil_l|]. split; [done|apply submseteq_nil_l].
  - eapply step_channels; [by apply IH|]. by eapply step_balance.
Qed.

Lemma runs_flushed journal interval env as1 evs r : runs (StartSyncer journal interval env) as1 evs r → success_flushed r.
Proof.
  remember (StartSyncer journal interval env) as r0 eqn:Hr0. induction 1 as [|r1 as1 evs1 r2 a evs2 r3 _ IH Hs]; subst; [done|].
  eapply step_flushed; [by apply IH|done].
Qed.

(** C26: Generations are published in the order in which they were sealed, without
    gaps or repetitions.  In every run in which no sealed generation was given up
    ([undropped]: the journal was there and refused none, and none was taken or queued when the
    worker was cancelled or closed), the published generations followed by those
    that are pending, taken or queued are exactly the sealed ones, in order.
    ([sync_succeeds_after_drop] of Replication.v is a run with a drop.) *)
Theorem syncer_publishes_in_order journal interval env as1 evs r :
  runs (StartSyncer journal interval env) as1 evs r → undropped evs →
  ∃ pending, sealed_in evs = published_gens evs ++ pending ++ generations (uncollected (run_worker r)) ++ generations (sy_requests (run_syncer r)) ∧
    held_back (run_worker r) pending (sy_pending (run_syncer r)).
Proof.
  intros Hr Hund. destruct (runs_in_order _ _ _ _ _ _ Hr Hund) as (answered & pending & Hreq & Hgen & Hpend). exists pending. split; [|done].
  unfold sealed_in. rewrite Hreq, !fmap_app, !concat_app, !key_generations, !app_assoc, <-Hgen. by rewrite <-!app_assoc.
Qed.

(** *** Answers *)

Lemma submit_answers q wake r r' evs2 i : submit q wake r = (r', evs2) → Answered i None ∉ evs2.
Proof.
  unfold submit, enqueue. destruct (sy_closed _); intros [= <- <-]; [intros (j & [=] & _)%list_elem_of_fmap|by intros [?|[]%elem_of_nil]%elem_of_cons].
Qed.

(** A request is answered without error in one place. *)
Lemma answered_none a r r' evs2 i :
  step a r = Some (r', evs2) → Answered i None ∈ evs2 →
  ∃ rs cp, run_worker r = Answering rs cp None ∧ i ∈ results rs ∧ evs2 = (fun i => Answered i None) <$> results rs.
Proof.
  destruct a; cbn [step].
  - unfold proceed. destruct (run_worker r) as [| | |rs|rs|rs rest cp|rs cp|rs cp segs|rs cp segs|rs cp|rs cp err|rs cp err| |err| |] eqn:Hw; try done.
    + destruct (dequeue _) as [? []]; by intros [= _ <-] ?%elem_of_nil.
    + unfold backgroundRequest. destruct (dequeue _) as [? []]; [by intros [= _ <-] ?%elem_of_nil|]. destruct (port_seal _). destruct (prepareLocalGeneration _ _).
      by intros [= _ <-] [?|?%elem_of_nil]%elem_of_cons.
    + case_if; [destruct (dequeue _) as [? []]|]; by intros [= _ <-] ?%elem_of_nil.
    + by intros [= _ <-] ?%elem_of_nil.
    + destruct rest as [|q rest]; [by intros [= _ <-] ?%elem_of_nil|]. unfold collect. destruct (rq_ready q); [|by intros [= _ <-] ?%elem_of_nil].
      destruct (port_receive _ _) as [[]|]; [|by intros [= _ <-] ?%elem_of_nil|done].
      intros [= _ <-] [(j & [=] & _)%list_elem_of_fmap|[?|?%elem_of_nil]%elem_of_cons]%elem_of_app; done.
    + by intros [= _ <-] ?%elem_of_nil.
    + intros [= Hp]. unfold publish in Hp. destruct (port_publish _ _) as [? []]; injection Hp as _ <-; [by intros ?%elem_of_nil|by intros [?|?%elem_of_nil]%elem_of_cons].
    + by intros [= _ <-] ?%elem_of_nil.
    + intros [= Hp]. unfold acknowledge in Hp. destruct (if _ && _ then _ else _) as [? []]; injection Hp as _ <-; [by intros ?%elem_of_nil|by intros (j & ? & _)%list_elem_of_fmap].
    + case_if; [destruct (checkpoint r)|]; by intros [= _ <-] ?%elem_of_nil.
    + intros [= _ <-] (j & [= <- <-] & Hin)%list_elem_of_fmap. by exists rs, cp.
    + destruct (checkpoint r). by intros [= _ <-] ?%elem_of_nil.
    + destruct err as [e|]; [case_if|]; intros [= _ <-]; [by intros [?|?%elem_of_nil]%elem_of_cons|by intros ?%elem_of_nil..].
    + intros [= _ <-] [(j & [=] & _)%list_elem_of_fmap|[?|?%elem_of_nil]%elem_of_cons]%elem_of_app; done.
  - destruct (on_wake r); [|done]. by intros [= _ <-] ?%elem_of_nil.
  - destruct (on_urgent r); [|done]. by intros [= _ <-] ?%elem_of_nil.
  - destruct (on_tick r); [|done]. by intros [= _ <-] ?%elem_of_nil.
  - unfold on_cancel. destruct (negb _); [done|]. destruct (run_worker r) as [| | |rs|rs|rs rest cp|rs cp|rs cp segs|rs cp segs|rs cp|rs cp err|rs cp err| |err| |]; try done.
    + by intros [= _ <-] ?%elem_of_nil.
    + destruct rest as [|q rest]; [done|]. destruct (rq_ready q); [|done]. by intros [= _ <-] [?|?%elem_of_nil]%elem_of_cons.
    + by intros [= _ <-] ?%elem_of_nil.
  - intros [= Hr]. unfold request in Hr. destruct (new_channel _). destruct (port_seal _). destruct (prepareLocalGeneration _ _). by intros ?%(submit_answers _ _ _ _ _ _ Hr).
  - intros [= Hr]. unfold EnqueueGeneration in Hr. destruct (port_seal _). destruct (new_channel _). by intros ?%(submit_answers _ _ _ _ _ _ Hr).
  - intros [= Hr]. unfold EnqueueLocalGeneration in Hr. destruct (port_seal _) as [env g]. case_if_in Hr; [injection Hr as _ <-; destruct g; [by intros [?|?%elem_of_nil]%elem_of_cons|by intros ?%elem_of_nil]|].
    destruct (port_enqueue _ _) as [[[] ?] ?]; case_if_in Hr; [injection Hr as _ <-; by intros ?%elem_of_nil|]. by intros ?%(submit_answers _ _ _ _ _ _ Hr).
  - intros [= Hr]. by intros ?%(submit_answers _ _ _ _ _ _ Hr).
  - destruct (run_owed r); [done|]. by intros [= _ <-] ?%elem_of_nil.
  - by intros [= _ <-] ?%elem_of_nil.
  - by intros [= _ <-] ?%elem_of_nil.
  - by intros [= _ <-] ?%elem_of_nil.
  - by intros [= _ <-] ?%elem_of_nil.
Qed.

(** A channel occurs in one place among the requests. *)
Lemma unique_request (l a b a' b' : list (option nat * list Generation)) i x x' :
  NoDup (omap fst l) → l = a ++ (Some i, x) :: b → l = a' ++ (Some i, x') :: b' → a = a' ∧ x = x'.
Proof.
  intros Hnd Hl Hl'. revert l a' Hnd Hl Hl'. induction a as [|y a IH]; intros l [|y' a'] Hnd Hl Hl'; subst; cbn [app] in *.
  - by injection Hl' as ->.
  - injection Hl' as <- ->. cbn [omap list_omap fst] in Hnd. apply NoDup_cons in Hnd as [Hnin _]. destruct Hnin. rewrite omap_app. apply elem_of_app. right. by left.
  - injection Hl' as -> <-. cbn [omap list_omap fst] in Hnd. apply NoDup_cons in Hnd as [Hnin _]. destruct Hnin. rewrite omap_app. apply elem_of_app. right. by left.
  - injection Hl' as <- Hl'. assert (NoDup (omap fst (a ++ (Some i, x) :: b))) as Hnd'.
    { cbn [omap list_omap] in Hnd. destruct (fst y); [by apply NoDup_cons in Hnd as [_ ?]|done]. }
    destruct (IH _ a' Hnd' eq_refl Hl') as [-> ->]; done.
Qed.

Lemma map_answers_prefix (k post : list sync_event) e l : k ++ e :: post = (fun i => Answered i None) <$> l → requests_in k = [] ∧ published_gens k = [].
Proof.
  revert l. induction k as [|x k IH]; intros l; [done|]. destruct l as [|j l]; [done|]. cbn [fmap list_fmap app]. intros [= -> Hk]. by apply IH in Hk.
Qed.

Lemma answering_published evs r rs cp i e0 g :
  in_order evs r → success_flushed r → channels_ok evs r → run_worker r = Answering rs cp None → i ∈ results rs →
  (∃ rest, requests_in evs = requests_in e0 ++ (Some i, generation_of (mkRequest g false None None)) :: rest) →
  sealed_in (e0 ++ [Requested (Some i) g]) `prefix_of` published_gens evs.
Proof.
  intros (answered & pending & Hreq & Hgen & Hpend) Hflush (_ & _ & Hids) Hw Hi [rest Hrest]. unfold success_flushed in Hflush. rewrite Hw in *.
  cbn [taken uncollected] in *. assert (pending = []) as ->.
  { destruct Hpend as [->|[-> _]]; [exact Hflush|done]. }
  cbn [app] in Hgen. unfold generations at 1 in Hgen. cbn [fmap list_fmap concat] in Hgen. rewrite app_nil_r in Hgen.
  apply list_elem_of_omap in Hi as (q & Hq & Hqi). apply list_elem_of_split in Hq as (xs & ys & ->).
  assert (NoDup (omap fst (requests_in evs))) as Hnd.
  { eapply submseteq_NoDup; [|exact Hids]. apply NoDup_seq. }
  assert (requests_in evs = (answered ++ (key <$> xs)) ++ (Some i, generation_of q) :: ((key <$> ys) ++ (key <$> sy_requests (run_syncer r)))) as Hpos.
  { assert (key q = (Some i, generation_of q)) as <- by (unfold key; by rewrite Hqi). rewrite Hreq, fmap_app, fmap_cons, <-!app_assoc. done. }
  destruct (unique_request _ _ _ _ _ _ _ _ Hnd Hrest Hpos) as [He0 Hg]. exists (generations ys).
  rewrite Hgen, sealed_in_app. unfold sealed_in. rewrite He0. change (requests_in [Requested (Some i) g]) with [(Some i, generation_of (mkRequest g false None None))].
  rewrite Hg. cbn [fmap list_fmap concat snd]. rewrite fmap_app, concat_app, key_generations, generations_app, app_nil_r, <-!app_assoc. done.
Qed.

Lemma answers_after_publish journal interval env as1 evs r pre i post e0 g e1 :
  runs (StartSyncer journal interval env) as1 evs r → evs = pre ++ Answered i None :: post → undropped pre →
  pre = e0 ++ Requested (Some i) g :: e1 → sealed_in (e0 ++ [Requested (Some i) g]) `prefix_of` published_gens pre.
Proof.
  remember (StartSyncer journal interval env) as r0 eqn:Hr0. intros Hr. revert pre post. induction Hr as [|r1 as1 evs1 r2 a evs2 r3 Hr IH Hs]; intros pre post Hevs Hund Hpre.
  { by destruct pre. }
  subst r1. specialize (IH eq_refl). apply app_eq_inv in Hevs as [(k & Hk1 & Hk2)|(k & Hk1 & Hk2)].
  - destruct k as [|x k]; [|injection Hk2 as <- _; by eapply IH]. rewrite app_nil_r in Hk1. cbn [app] in Hk2. subst pre.
    destruct (answered_none _ _ _ _ i Hs) as (rs & cp & Hw & Hi & _); [rewrite <-Hk2; by left|].
    eapply answering_published; [by eapply runs_in_order|by eapply runs_flushed|by eapply runs_channels|done|done|].
    rewrite Hpre. rewrite requests_in_app. by eexists.
  - destruct (answered_none _ _ _ _ i Hs) as (rs & cp & Hw & Hi & Hmap); [rewrite Hk2; apply elem_of_app; right; by left|].
    destruct (map_answers_prefix k post (Answered i None) (results rs)) as [Hkr Hkp]; [by rewrite <-Hk2|].
    rewrite Hk1, published_gens_app, Hkp, app_nil_r. rewrite Hk1 in Hund. apply undropped_app in Hund as [Hund _].
    eapply answering_published; [by eapply runs_in_order|by eapply runs_flushed|by eapply runs_channels|done|done|].
    assert (requests_in evs1 = requests_in pre) as -> by (by rewrite Hk1, requests_in_app, Hkr, app_nil_r). rewrite Hpre, requests_in_app. by eexists.
Qed.

(** A request is answered without error only when it is published.  Unless
    generations were given up before, when the result of a request ([Sync],
    [SyncCheckpoint] or a remote flush) is answered with no error, every
    generation sealed up to and including the request's is published. *)
Theorem syncer_answers_after_publish journal interval env as1 evs r pre i post e0 g e1 :
  runs (StartSyncer journal interval env) as1 evs r → evs = pre ++ Answered i None :: post → undropped pre →
  pre = e0 ++ Requested (Some i) g :: e1 → sealed_in (e0 ++ [Requested (Some i) g]) `prefix_of` published_gens pre.
Proof. apply answers_after_publish. Qed.

(** *** Wake-ups *)

(** The worker looks at the queue before it sleeps again, or has stopped. *)
Definition looking (w : worker) : bool := match w with Woken | Background | Draining _ | Rearming _ | Closing | Stopped => true | _ => false end.

(** A queued request that waits for an answer will be seen; a stopped worker
    has closed the queue. *)
Definition awake r : Prop :=
  (results (sy_requests (run_syncer r)) = [] ∨ sy_wake (run_syncer r) = true ∨ (0 < run_owed r)%nat ∨ looking (run_worker r) = true) ∧
  (run_worker r = Stopped → sy_closed (run_syncer r) = true ∧ sy_requests (run_syncer r) = []).

Lemma awake_move r r' :
  awake r → run_worker r ≠ Stopped → run_worker r' ≠ Stopped → sy_requests (run_syncer r') = sy_requests (run_syncer r) →
  sy_wake (run_syncer r') = sy_wake (run_syncer r) → run_owed r' = run_owed r → (looking (run_worker r) = true → looking (run_worker r') = true) → awake r'.
Proof.
  intros [Ha _] Hs Hs' Hq Hw Ho Hl. split; [|done]. rewrite Hq, Hw, Ho. destruct Ha as [?|[?|[?|?]]]; [by left|right; by left|right; right; by left|].
  right; right; right. by apply Hl.
Qed.

Lemma submit_awake q wake r r' evs2 : awake r → (wake = true ∨ rq_result q = None) → submit q wake r = (r', evs2) → awake r'.
Proof.
  intros [Ha Hst] Hq. unfold submit, enqueue. destruct (sy_closed (run_syncer r)) eqn:Hc; intros [= <- <-]; [split; [exact Ha|]; intros Hw; split; [exact Hc|by apply Hst]|]. split.
  - cbn [run_syncer run_owed run_worker with_owed with_syncer set_queue sy_requests sy_wake]. destruct Hq as [-> | Hq]; [right; right; left; lia|].
    rewrite results_app, results_one, Hq, app_nil_r, Nat.add_comm. destruct Ha as [?|[?|[?|?]]]; [by left|right; by left|right; right; left; lia|by right; right; right].
  - intros Hw. cbn in Hw. apply Hst in Hw as [? _]. congruence.
Qed.

Lemma awake_ext r1 r :
  run_worker r1 = run_worker r → sy_requests (run_syncer r1) = sy_requests (run_syncer r) → sy_wake (run_syncer r1) = sy_wake (run_syncer r) →
  sy_closed (run_syncer r1) = sy_closed (run_syncer r) → run_owed r1 = run_owed r → awake r → awake r1.
Proof. unfold awake. by intros -> -> -> -> ->. Qed.

Lemma client_awake a r r' evs2 :
  match a with Proceed | TakeWake | TakeUrgent | TakeTick | TakeCancel => False | _ => True end → awake r → step a r = Some (r', evs2) → awake r'.
Proof.
  destruct a; try done; intros _ Ha; cbn [step].
  - intros [= Hr]. unfold request in Hr. cbn [new_channel] in Hr. destruct (port_seal (run_env r)) as [env g].
    destruct (prepareLocalGeneration g _) as [r1 q] eqn:Hp. apply prepareLocal_spec in Hp as (Hs & Hw & Ho & _ & _). eapply submit_awake; [|left; done|exact Hr].
    eapply awake_ext; [..|exact Ha]; first [by rewrite Hw|by rewrite Hs|by rewrite Ho].
  - intros [= Hr]. unfold EnqueueGeneration in Hr. destruct (port_seal (run_env r)) as [env g]. cbn [new_channel] in Hr. eapply submit_awake; [|left; done|exact Hr].
    by eapply awake_ext; [..|exact Ha].
  - intros [= Hr]. unfold EnqueueLocalGeneration in Hr. destruct (port_seal (run_env r)) as [env g]. case_if_in Hr; [injection Hr as <- _; by eapply awake_ext; [..|exact Ha]|].
    destruct (port_enqueue g env) as [[[env' g'] ?] ready]. case_if_in Hr; [injection Hr as <- _; by eapply awake_ext; [..|exact Ha]|].
    eapply submit_awake; [| |exact Hr]; [|by right]. by eapply awake_ext; [..|exact Ha].
  - intros [= Hr]. unfold EnqueueRecovered in Hr. eapply submit_awake; [exact Ha| |exact Hr]. by right.
  - destruct (run_owed r) as [|n]; [done|]. intros [= <- _]. destruct Ha as [_ Hst]. split; [right; by left|exact Hst].
  - intros [= <- _]. by eapply awake_ext; [..|exact Ha].
  - intros [= <- _]. by eapply awake_ext; [..|exact Ha].
  - intros [= <- _]. unfold Stop. destruct (port_give_up _) as [? []]; by eapply awake_ext; [..|exact Ha].
  - intros [= <- _]. by eapply awake_ext; [..|exact Ha].
Qed.

Lemma looking_awake r : run_worker r ≠ Stopped → looking (run_worker r) = true → awake r.
Proof. intros Hs Hl. split; [by right; right; right|done]. Qed.

Lemma proceed_awake r r' evs2 : awake r → proceed r = Some (r', evs2) → awake r'.
Proof.
  intros Ha. unfold proceed. destruct (run_worker r) as [| | |rs|rs|rs rest cp|rs cp|rs cp segs|rs cp segs|rs cp|rs cp err|rs cp err| |err| |] eqn:Hw; try done.
  - destruct (dequeue (run_syncer r)) as [s' [q|]] eqn:Hd; intros [= <- _]; [by apply looking_awake|].
    apply dequeue_spec in Hd as (_ & _ & _ & Hnone). destruct (Hnone eq_refl) as [-> Hq]. split; [left|done]. cbn. by rewrite Hq.
  - destruct (backgroundRequest r) as [[r1 q] evs1]. intros [= <- _]. by apply looking_awake.
  - case_if; [destruct (dequeue _) as [? []]|]; intros [= <- _]; by apply looking_awake.
  - intros [= <- _]. unfold rearmWakeIfQueued. split; [|done]. cbn [run_syncer with_worker with_syncer]. case_bool_decide as Hq; [left; by rewrite Hq|right; by left].
  - destruct rest as [|q rest]; [intros [= <- _]; by eapply awake_move; rewrite ?Hw|]. unfold collect.
    destruct (rq_ready q) as [c|]; [|intros [= <- _]; by eapply awake_move; rewrite ?Hw]. destruct (port_receive _ _) as [[e|]|]; [| |done]; intros [= <- _]; by eapply awake_move; rewrite ?Hw.
  - intros [= <- _]. unfold sync. case_bool_decide; [|destruct (EncodeSegments _ _)]; by eapply awake_move; rewrite ?Hw.
  - intros [= Hp]. unfold publish in Hp. destruct (port_publish _ _) as [env [e|]]; injection Hp as <- _; [|by eapply awake_move; rewrite ?Hw].
    eapply awake_move; rewrite ?Hw; try done. cbn. by case_if.
  - intros [= <- _]. by eapply awake_move; rewrite ?Hw.
  - intros [= Hp]. unfold acknowledge in Hp. destruct (if _ && _ then _ else _) as [env [e|]]; injection Hp as <- _; by eapply awake_move; rewrite ?Hw.
  - case_if; [destruct (checkpoint r) as [r1 err1] eqn:Hc|]; intros [= <- _]; [|by eapply awake_move; rewrite ?Hw].
    apply checkpoint_spec in Hc as (Hs & _ & Ho). eapply awake_move; rewrite ?Hw; try done; cbn; by rewrite ?Hs.
  - intros [= <- _]. eapply awake_move; rewrite ?Hw; try done. cbn. by case_if.
  - destruct (checkpoint r) as [r1 err1] eqn:Hc. intros [= <- _]. apply checkpoint_spec in Hc as (Hs & _ & Ho). eapply awake_move; rewrite ?Hw; try done; cbn; by rewrite ?Hs.
  - destruct err as [e|]; [case_if|]; intros [= <- _]; by eapply awake_move; rewrite ?Hw.
  - intros [= <- _]. by split; [left|].
Qed.

Lemma step_awake a r r' evs2 : awake r → step a r = Some (r', evs2) → awake r'.
Proof.
  intros Ha Hs. destruct (match a with Proceed | TakeWake | TakeUrgent | TakeTick | TakeCancel => false | _ => true end) eqn:Hk.
  { eapply client_awake; [|exact Ha|exact Hs]. by destruct a. }
  destruct a; try done; cbn [step] in Hs.
  - by eapply proceed_awake.
  - unfold on_wake in Hs. destruct (run_worker r) eqn:Hw; try done. destruct (sy_wake _); [|done]. injection Hs as <- _. by apply looking_awake.
  - unfold on_urgent in Hs. destruct (run_worker r) eqn:Hw; try done. destruct (sy_urgent _); [|done]. injection Hs as <- _. by apply looking_awake.
  - unfold on_tick in Hs. destruct (run_worker r) eqn:Hw; try done. injection Hs as <- _. by apply looking_awake.
  - unfold on_cancel in Hs. destruct (negb _); [done|]. destruct (run_worker r) as [| | |rs|rs|rs rest cp|rs cp|rs cp segs|rs cp segs|rs cp|rs cp err|rs cp err| |err| |] eqn:Hw; try done.
    + injection Hs as <- _. by apply looking_awake.
    + destruct rest as [|q rest]; [done|]. destruct (rq_ready q); [|done]. injection Hs as <- _. by eapply awake_move; rewrite ?Hw.
    + injection Hs as <- _. by eapply awake_move; rewrite ?Hw.
Qed.

Lemma runs_awake journal interval env as1 evs r : runs (StartSyncer journal interval env) as1 evs r → awake r.
Proof.
  remember (StartSyncer journal interval env) as r0 eqn:Hr0. induction 1 as [|r1 as1 evs1 r2 a evs2 r3 _ IH Hs]; subst; [by split; [left|]|].
  eapply step_awake; [by apply IH|done].
Qed.

(** C27: No wake-up is lost.  Whenever a queued request waits for an answer, the
    worker is signalled, a caller is about to signal it, or it looks at the
    queue before it sleeps again; so a sleeping worker without callers in
    flight has its signal. *)
Theorem syncer_no_lost_wakeup journal interval env as1 evs r i :
  runs (StartSyncer journal interval env) as1 evs r → i ∈ results (sy_requests (run_syncer r)) →
  sy_wake (run_syncer r) = true ∨ (0 < run_owed r)%nat ∨ looking (run_worker r) = true ∧ run_worker r ≠ Stopped.
Proof.
  intros Hr Hi. destruct (runs_awake _ _ _ _ _ _ Hr) as [[Hn|[?|[?|?]]] Hst]; [rewrite Hn in Hi; by apply elem_of_nil in Hi|by left|right; by left|right; right].
  split; [done|]. intros Hw. destruct (Hst Hw) as [_ Hq]. rewrite Hq in Hi. by apply elem_of_nil in Hi.
Qed.

(** Every result channel is answered at most once; and unless the worker's
    context was cancelled, a worker that has stopped has answered all of them. *)
Theorem syncer_answers_once journal interval env as1 evs r :
  runs (StartSyncer journal interval env) as1 evs r →
  NoDup (answered_in evs) ∧
  (run_cancelled r = false → run_worker r = Stopped → answered_in evs ≡ₚ seq 0 (sy_channels (run_syncer r))).
Proof.
  intros Hr. destruct (runs_channels _ _ _ _ _ _ Hr) as (Hsub & Heq & _). split.
  - eapply submseteq_NoDup in Hsub; [|apply NoDup_seq]. by apply NoDup_app in Hsub as [? _].
  - intros Hc Hw. destruct (runs_awake _ _ _ _ _ _ Hr) as [_ Hst]. destruct (Hst Hw) as [_ Hq]. rewrite <-(Heq Hc). unfold waiting. rewrite Hw, Hq. by rewrite app_nil_r.
Qed.

Lemma execute_runs_from r0 as0 evs0 r as1 r' evs :
  runs r0 as0 evs0 r → execute as1 r = Some (r', evs) → runs r0 (as0 ++ as1) (evs0 ++ evs) r'.
Proof.
  revert as0 evs0 r r' evs. induction as1 as [|a as1 IH]; intros as0 evs0 r r' evs Hr; cbn [execute]; [intros [= <- <-]; by rewrite !app_nil_r|].
  destruct (step a r) as [[r1 evs1]|] eqn:Hs; [|done]. cbn [mbind option_bind]. destruct (execute as1 r1) as [[r2 evs2]|] eqn:He; [|done]. intros [= <- <-].
  change (a :: as1) with ([a] ++ as1). rewrite !app_assoc. eapply IH; [by eapply runs_snoc|done].
Qed.

Lemma execute_runs r as1 r' evs : execute as1 r = Some (r', evs) → runs r as1 evs r'.
Proof. apply (execute_runs_from r [] [] r). constructor. Qed.
End channels.
