(* ===== verification/Replication.v ===== *)
(** * The replication worker over a lease

    The worker's calls to the lease are those of [Publish.v].  What a run of the
    worker publishes is recorded in the volume's history in order, so unless
    generations were given up, a request that is answered without error has
    everything sealed up to it there. *)
From S2P Require Import Prelude Extents Codec File Segment Types Store Head Manifest Plan Restore Lease Publish Volumes History LeaseProps LeaseTheorems Syncer SyncerProps SyncerTheorems.
Local Open Scope Z_scope.

(** ** The contract *)

(** What the worker relies on: every call keeps the world well formed and only
    moves it forward, and what [port_publish] accepts is recorded for good, on top
    of what was recorded before.  [recorded segss e]: the publications [segss],
    oldest first, are recorded in this order. *)
Class PortLaws (E : Type) `{Ports E} : Type := {
  port_ok : E → Prop;
  port_rel : E → E → Prop;
  recorded : list (list Segment) → E → Prop;
  recorded_nil e : port_ok e → recorded [] e;
  port_rel_refl e : port_ok e → port_rel e e;
  port_rel_trans e1 e2 e3 : port_rel e1 e2 → port_rel e2 e3 → port_rel e1 e3;
  recorded_stable segss e e' : port_rel e e' → recorded segss e → recorded segss e';
  seal_law e : port_ok e → port_ok (port_seal e).1 ∧ port_rel e (port_seal e).1;
  release_law g e : port_ok e → port_ok (port_release g e) ∧ port_rel e (port_release g e);
  enqueue_law g e : port_ok e → port_ok (port_enqueue g e).1.1.1 ∧ port_rel e (port_enqueue g e).1.1.1;
  acknowledge_law n e : port_ok e → port_ok (port_acknowledge n e).1 ∧ port_rel e (port_acknowledge n e).1;
  give_up_law e : port_ok e → port_ok (port_give_up e).1 ∧ port_rel e (port_give_up e).1;
  checkpoint_law e : port_ok e → port_ok (port_checkpoint e).1 ∧ port_rel e (port_checkpoint e).1;
  publish_law segs e : port_ok e → port_ok (port_publish segs e).1 ∧ port_rel e (port_publish segs e).1 ∧
    ((port_publish segs e).2 = None → ∀ before, recorded before e → recorded (before ++ [segs]) (port_publish segs e).1);
}.

(** A publication of the run: the generations and the segments they became. *)
Definition batch (ev : sync_event) : option (list Generation * list Segment) := match ev with Published gs segs => Some (gs, segs) | _ => None end.

Lemma batches_published evs : concat (omap batch evs).*1 = published_gens evs.
Proof. unfold published_gens. induction evs as [|[] evs IH]; cbn [omap list_omap batch fmap list_fmap concat event_publication app fst]; [done|done|by f_equal|done..]. Qed.

Definition merged_in `{Digest} `{Gzip} (b : list Generation * list Segment) : Prop :=
  EncodeSegments (Some (mergeGenerations b.1)) DefaultSegmentBlocks = Ok b.2.

Section recorded.
Context {E : Type} `{PortLaws E} `{Digest} `{Gzip}.
Implicit Types r : Run (E := E).

Definition advances (e e' : E) : Prop := port_ok e' ∧ port_rel e e'.

(** What runs elsewhere keeps the contract too. *)
Definition action_ok (a : action (E := E)) : Prop :=
  match a with Elsewhere f => ∀ e, port_ok e → advances e (f e) | _ => True end.

(** While the worker publishes, it publishes the pending generations. *)
Definition encoded r : Prop :=
  match run_worker r with
  | Publishing _ _ segs | BackingOff _ _ segs => EncodeSegments (Some (mergeGenerations (sy_pending (run_syncer r)))) DefaultSegmentBlocks = Ok segs
  | _ => True
  end.

(** What a step adds. *)
Definition records r (evs2 : list sync_event) r' : Prop :=
  advances (run_env r) (run_env r') ∧ Forall merged_in (omap batch evs2) ∧
  ∀ before, recorded before (run_env r) → recorded (before ++ (omap batch evs2).*2) (run_env r').

Lemma advances_refl e : port_ok e → advances e e.
Proof. intros He. split; [done|by apply port_rel_refl]. Qed.
Lemma advances_trans e1 e2 e3 : advances e1 e2 → advances e2 e3 → advances e1 e3.
Proof. intros [_ H1'] [H2' H3']. split; [done|]. by eapply port_rel_trans. Qed.

Lemma releases_advance gs e : port_ok e → advances e (foldl (fun env g => port_release g env) e gs).
Proof.
  revert e. induction gs as [|g gs IH]; intros e He; cbn [foldl]; [by apply advances_refl|]. destruct (release_law g e He) as [Hok Hrel].
  eapply advances_trans; [by split|]. by apply IH.
Qed.

Lemma prepare_advances g r r' q : port_ok (run_env r) → prepareLocalGeneration g r = (r', q) → advances (run_env r) (run_env r').
Proof.
  intros He. unfold prepareLocalGeneration. case_if; [intros [= <- _]; by apply advances_refl|]. pose proof (enqueue_law g (run_env r) He) as Hl.
  destruct (port_enqueue g (run_env r)) as [[[env g'] ?] ready]. by intros [= <- _].
Qed.

Lemma submit_env q wake r r' evs2 : submit q wake r = (r', evs2) → run_env r' = run_env r ∧ ∀ gs segs, Published gs segs ∉ evs2.
Proof.
  unfold submit, enqueue. destruct (sy_closed _); intros [= <- <-]; (split; [done|]); intros gs segs.
  - by intros (j & ? & _)%list_elem_of_fmap.
  - by intros [?|?%elem_of_nil]%elem_of_cons.
Qed.

Lemma no_batch evs : (∀ gs segs, Published gs segs ∉ evs) → omap batch evs = [].
Proof.
  intros Hn. destruct (omap batch evs) as [|[gs segs] bs] eqn:Hb; [done|]. assert ((gs, segs) ∈ omap batch evs) as Hin by (rewrite Hb; by left).
  apply list_elem_of_omap in Hin as ([] & Hin & Hx); try done. injection Hx as -> ->. by apply Hn in Hin.
Qed.

Lemma quiet_records r r' evs2 : advances (run_env r) (run_env r') → (∀ gs segs, Published gs segs ∉ evs2) → records r evs2 r'.
Proof.
  intros Ha Hn. unfold records. rewrite (no_batch _ Hn). split; [done|]. split; [done|]. intros before Hb. rewrite app_nil_r. eapply recorded_stable; [apply Ha|done].
Qed.

Lemma submit_records r0 q wake r r' evs2 : advances (run_env r0) (run_env r) → submit q wake r = (r', evs2) → records r0 evs2 r'.
Proof. intros Ha Hs. apply submit_env in Hs as [He Hn]. apply quiet_records; [by rewrite He|done]. Qed.

Lemma not_published_nil gs segs : Published gs segs ∉ [].
Proof. by intros ?%elem_of_nil. Qed.

Lemma client_records a r r' evs2 :
  match a with Proceed | TakeWake | TakeUrgent | TakeTick | TakeCancel => False | _ => True end →
  action_ok a → port_ok (run_env r) → step a r = Some (r', evs2) → records r evs2 r'.
Proof.
  intros Ha Hact He. pose proof (seal_law (run_env r) He) as Hseal. destruct a; try done; cbn [step].
  - intros [= Hr]. unfold request in Hr. cbn [new_channel] in Hr. destruct (port_seal (run_env r)) as [env g]. cbn [fst] in Hseal.
    destruct (prepareLocalGeneration g _) as [r1 q] eqn:Hp. apply prepare_advances in Hp; [|by apply Hseal]. eapply submit_records; [|exact Hr].
    eapply advances_trans; [exact Hseal|exact Hp].
  - intros [= Hr]. unfold EnqueueGeneration in Hr. destruct (port_seal (run_env r)) as [env g]. cbn [new_channel] in Hr. by eapply submit_records; [|exact Hr].
  - intros [= Hr]. unfold EnqueueLocalGeneration in Hr. destruct (port_seal (run_env r)) as [env g]. cbn [fst] in Hseal.
    case_if_in Hr; [injection Hr as <- <-; apply quiet_records; [done|]; intros gs segs; destruct g; [by intros [?|?%elem_of_nil]%elem_of_cons|apply not_published_nil]|].
    pose proof (enqueue_law g env (proj1 Hseal)) as Henq. destruct (port_enqueue g env) as [[[env' g'] ?] ready]. cbn [fst] in Henq.
    assert (advances (run_env r) env') as Hadv by (eapply advances_trans; [exact Hseal|exact Henq]).
    case_if_in Hr; [injection Hr as <- <-; apply quiet_records; [done|apply not_published_nil]|]. by eapply submit_records; [|exact Hr].
  - intros [= Hr]. eapply submit_records; [|exact Hr]. by apply advances_refl.
  - destruct (run_owed r); [done|]. intros [= <- <-]. apply quiet_records; [by apply advances_refl|apply not_published_nil].
  - intros [= <- <-]. apply quiet_records; [by apply advances_refl|apply not_published_nil].
  - intros [= <- <-]. apply quiet_records; [by apply advances_refl|apply not_published_nil].
  - intros [= <- <-]. pose proof (give_up_law (run_env r) He) as Hl. unfold Stop. destruct (port_give_up (run_env r)) as [env []]; (apply quiet_records; [done|apply not_published_nil]).
  - intros [= <- <-]. apply quiet_records; [by apply Hact|apply not_published_nil].
Qed.

Lemma checkpoint_advances r r' err : port_ok (run_env r) → checkpoint r = (r', err) → advances (run_env r) (run_env r').
Proof.
  intros He. unfold checkpoint. case_if; [intros [= <- _]; by apply advances_refl|]. case_if; [intros [= <- _]; by apply advances_refl|].
  pose proof (checkpoint_law (run_env r) He) as Hl. destruct (port_checkpoint (run_env r)). by intros [= <- _].
Qed.

Lemma proceed_records r r' evs2 : port_ok (run_env r) → encoded r → proceed r = Some (r', evs2) → records r evs2 r'.
Proof.
  intros He Henc. unfold proceed. pose proof (advances_refl _ He) as Hrefl.
  destruct (run_worker r) as [| | |rs|rs|rs rest cp|rs cp|rs cp segs|rs cp segs|rs cp|rs cp err|rs cp err| |err| |] eqn:Hw; try done.
  - destruct (dequeue (run_syncer r)) as [s' [q|]]; intros [= <- <-]; (apply quiet_records; [done|apply not_published_nil]).
  - unfold backgroundRequest. destruct (dequeue (run_syncer r)) as [s' [q|]]; [intros [= <- <-]; apply quiet_records; [done|apply not_published_nil]|].
    pose proof (seal_law (run_env r) He) as Hseal. destruct (port_seal (run_env r)) as [env g]. cbn [fst] in Hseal.
    destruct (prepareLocalGeneration g _) as [r1 q] eqn:Hp. apply prepare_advances in Hp; [|by apply Hseal]. intros [= <- <-].
    apply quiet_records; [eapply advances_trans; [exact Hseal|exact Hp]|]. by intros gs segs [?|?%elem_of_nil]%elem_of_cons.
  - case_if; [destruct (dequeue (run_syncer r)) as [s' [q|]]|]; intros [= <- <-]; (apply quiet_records; [done|apply not_published_nil]).
  - intros [= <- <-]. apply quiet_records; [done|apply not_published_nil].
  - destruct rest as [|q rest]; [intros [= <- <-]; apply quiet_records; [done|apply not_published_nil]|]. unfold collect.
    destruct (rq_ready q); [|intros [= <- <-]; apply quiet_records; [done|apply not_published_nil]].
    destruct (port_receive _ _) as [[e|]|]; [|intros [= <- <-]; apply quiet_records; [done|apply not_published_nil]|done].
    intros [= <- <-]. apply quiet_records; [done|]. by intros gs segs [(j & ? & _)%list_elem_of_fmap|[?|?%elem_of_nil]%elem_of_cons]%elem_of_app.
  - intros [= <- <-]. unfold sync. case_bool_decide; [|destruct (EncodeSegments _ _)]; (apply quiet_records; [done|apply not_published_nil]).
  - intros [= Hp]. unfold publish in Hp. pose proof (publish_law segs (run_env r) He) as (Hok & Hrel & Hrec).
    destruct (port_publish segs (run_env r)) as [env [e|]]; injection Hp as <- <-; cbn [fst snd] in *; [apply quiet_records; [done|apply not_published_nil]|].
    split; [done|]. split; [|by apply Hrec]. unfold encoded in Henc. rewrite Hw in Henc. by apply Forall_singleton.
  - intros [= <- <-]. apply quiet_records; [done|apply not_published_nil].
  - intros [= Hp]. unfold acknowledge in Hp. pose proof (acknowledge_law (journal_sequence (sy_pending (run_syncer r))) (run_env r) He) as Hack.
    set (call := if _ && _ then _ else _) in Hp. assert (advances (run_env r) call.1) as Hcall by (subst call; by destruct (_ && _)).
    destruct call as [env [e|]]; injection Hp as <- <-; [apply quiet_records; [done|apply not_published_nil]|]. cbn [fst] in Hcall.
    apply quiet_records; [|by intros gs segs (j & ? & _)%list_elem_of_fmap]. eapply advances_trans; [exact Hcall|]. apply releases_advance, Hcall.
  - case_if; [destruct (checkpoint r) as [r1 err1] eqn:Hc; apply checkpoint_advances in Hc; [|done]|]; intros [= <- <-]; (apply quiet_records; [done|apply not_published_nil]).
  - intros [= <- <-]. apply quiet_records; [done|]. by intros gs segs (j & ? & _)%list_elem_of_fmap.
  - destruct (checkpoint r) as [r1 err1] eqn:Hc. apply checkpoint_advances in Hc; [|done]. intros [= <- <-]. apply quiet_records; [done|apply not_published_nil].
  - destruct err as [e|]; [case_if|]; intros [= <- <-]; (apply quiet_records; [done|]); intros gs segs; [by intros [?|?%elem_of_nil]%elem_of_cons|apply not_published_nil..].
  - intros [= <- <-]. apply quiet_records; [done|]. by intros gs segs [(j & ? & _)%list_elem_of_fmap|[?|?%elem_of_nil]%elem_of_cons]%elem_of_app.
Qed.

Lemma step_records a r r' evs2 : action_ok a → port_ok (run_env r) → encoded r → step a r = Some (r', evs2) → records r evs2 r'.
Proof.
  intros Ha He Henc Hs. pose proof (advances_refl _ He) as Hrefl.
  destruct (match a with Proceed | TakeWake | TakeUrgent | TakeTick | TakeCancel => false | _ => true end) eqn:Hk; [eapply client_records; [|done..]; by destruct a|].
  destruct a; try done; cbn [step] in Hs.
  - by apply proceed_records.
  - unfold on_wake in Hs. destruct (run_worker r); try done. destruct (sy_wake _); [|done]. injection Hs as <- <-. apply quiet_records; [done|apply not_published_nil].
  - unfold on_urgent in Hs. destruct (run_worker r); try done. destruct (sy_urgent _); [|done]. injection Hs as <- <-. apply quiet_records; [done|apply not_published_nil].
  - unfold on_tick in Hs. destruct (run_worker r); try done. injection Hs as <- <-. apply quiet_records; [done|apply not_published_nil].
  - unfold on_cancel in Hs. destruct (negb _); [done|]. destruct (run_worker r) as [| | |rs|rs|rs rest cp|rs cp|rs cp segs|rs cp segs|rs cp|rs cp err|rs cp err| |err| |]; try done.
    + injection Hs as <- <-. apply quiet_records; [done|apply not_published_nil].
    + destruct rest as [|q rest]; [done|]. destruct (rq_ready q); [|done]. injection Hs as <- <-. apply quiet_records; [done|]. by intros gs segs [?|?%elem_of_nil]%elem_of_cons.
    + injection Hs as <- <-. apply quiet_records; [done|apply not_published_nil].
Qed.

Lemma step_encoded a r r' evs2 : encoded r → step a r = Some (r', evs2) → encoded r'.
Proof.
  intros Hf Hs. destruct (match a with Proceed | TakeWake | TakeUrgent | TakeTick | TakeCancel => false | _ => true end) eqn:Ha.
  { destruct (client_worker a r r' evs2) as [Hw Hp]; [by destruct a|done|]. unfold encoded in *. by rewrite Hw, Hp. }
  destruct a; try done; cbn [step] in Hs; unfold encoded in *.
  - unfold proceed in Hs. destruct (run_worker r) as [| | |rs|rs|rs rest cp|rs cp|rs cp segs|rs cp segs|rs cp|rs cp err|rs cp err| |err| |] eqn:Hw; try done.
    + destruct (dequeue _) as [? []]; by injection Hs as <- _.
    + destruct (backgroundRequest r) as [[? ?] ?]. by injection Hs as <- _.
    + case_if_in Hs; [destruct (dequeue _) as [? []]|]; by injection Hs as <- _.
    + by injection Hs as <- _.
    + destruct rest as [|q rest]; [by injection Hs as <- _|]. unfold collect in Hs. destruct (rq_ready q) as [c|]; [|by injection Hs as <- _].
      destruct (port_receive _ _) as [[|]|]; [by injection Hs as <- _..|done].
    + injection Hs as <- _. unfold sync. case_bool_decide as Hn; [done|]. by destruct (EncodeSegments _ _) eqn:Henc.
    + injection Hs as Hs. unfold publish in Hs. destruct (port_publish _ _) as [env [e|]]; injection Hs as <- _; [|done]. cbn. by case_if.
    + by injection Hs as <- _.
    + injection Hs as Hs. unfold acknowledge in Hs. destruct (if _ && _ then _ else _) as [env [e|]]; by injection Hs as <- _.
    + case_if_in Hs; [destruct (checkpoint r)|]; by injection Hs as <- _.
    + injection Hs as <- _. cbn. by case_if.
    + destruct (checkpoint r). by injection Hs as <- _.
    + destruct err as [e|]; [case_if_in Hs|]; by injection Hs as <- _.
    + by injection Hs as <- _.
  - unfold on_wake in Hs. destruct (run_worker r); try done. destruct (sy_wake _); [|done]. by injection Hs as <- _.
  - unfold on_urgent in Hs. destruct (run_worker r); try done. destruct (sy_urgent _); [|done]. by injection Hs as <- _.
  - unfold on_tick in Hs. destruct (run_worker r); try done. by injection Hs as <- _.
  - unfold on_cancel in Hs. destruct (negb _); [done|]. destruct (run_worker r) as [| | |rs|rs|rs rest cp|rs cp|rs cp segs|rs cp segs|rs cp|rs cp err|rs cp err| |err| |]; try done.
    + by injection Hs as <- _.
    + destruct rest as [|q rest]; [done|]. destruct (rq_ready q); [|done]. by injection Hs as <- _.
    + by injection Hs as <- _.
Qed.

(** Everything that a run has published stays recorded, in order. *)
Lemma runs_recorded journal interval env as1 evs r :
  runs (StartSyncer journal interval env) as1 evs r → port_ok env → Forall action_ok as1 →
  port_ok (run_env r) ∧ encoded r ∧ Forall merged_in (omap batch evs) ∧ recorded (omap batch evs).*2 (run_env r).
Proof.
  remember (StartSyncer journal interval env) as r0 eqn:Hr0. induction 1 as [|r1 as1 evs1 r2 a evs2 r3 _ IH Hs]; intros He Hacts; subst.
  - split; [done|]. split; [done|]. split; [constructor|]. by apply recorded_nil.
  - apply Forall_app in Hacts as [Hacts Ha]. rewrite Forall_singleton in Ha. destruct (IH eq_refl He Hacts) as (Hok & Henc & Hm & Hrec).
    destruct (step_records _ _ _ _ Ha Hok Henc Hs) as ([Hok' Hrel] & Hm' & Hnew). split; [done|]. split; [by eapply step_encoded|].
    rewrite omap_app, fmap_app. split; [by apply Forall_app|by apply Hnew].
Qed.
End recorded.

(** ** The lease keeps the contract *)

(** The device and the journal of this node. *)
Class LocalPorts (D : Type) : Type := {
  local_seal : D → D * option Generation;
  local_release : Generation → D → D;
  local_enqueue : option Generation → D → D * option Generation * nat * nat;
  local_receive : nat → D → option (option error);
  local_acknowledge : Z → State → D → D * option error;
}.

Section lease.
Context {S : Type} `{HeadLaws S} `{Digest} `{Gzip} `{Json State} `{Json Manifest} `{Json manifestBundle} {D : Type} `{LocalPorts D}.
Context (TTL : Z) (name : string) (fuel : nat) (schedule : list upload → list upload).
Context (state_round_trip : ∀ (st : State) b, Marshal st = Ok b → Unmarshal b = Ok st).
Context (not_head : ∀ k, isImmutableObject (VolumePrefix name) k = true → head_owns name k = false).
Context (any_order : ∀ us, schedule us ≡ₚ us).

Definition err_of (r : result unit) : option error := match r with Ok _ => None | Err e => Some e end.

(** The worker of a mounted volume: its lease and the store, its device and
    its journal. *)
Definition node_ports : Ports (World (S := S) * D) := {|
  port_seal e := let '(d, g) := local_seal e.2 in ((e.1, d), g);
  port_release g e := (e.1, local_release g e.2);
  port_enqueue g e := let '(d, g, acknowledged, ready) := local_enqueue g e.2 in ((e.1, d), g, acknowledged, ready);
  port_receive c e := local_receive c e.2;
  port_acknowledge n e := let '(d, err) := local_acknowledge n (ls_state (w_lease e.1)) e.2 in ((e.1, d), err);
  port_publish segments e := let '(w, r) := Publish TTL schedule segments e.1 in ((w, e.2), err_of r);
  port_checkpoint e :=
    let fetched key := obj ← store_Get (w_store e.1) key; Ok (obj_Data obj) in
    let '(w, r) := PublishCheckpoint TTL fetched fuel schedule e.1 in ((w, e.2), err_of r);
  port_give_up e := let '(w, r) := lease_Release None e.1 in ((w, e.2), err_of r);
  port_state e := ls_state (w_lease e.1);
|}.

(** The publications [segss], newest first, are in the history of [st], each
    below the one after it. *)
Fixpoint published_below (segss : list (list Segment)) (st : State) : Prop :=
  match segss with
  | [] => True
  | segs :: older =>
      ∃ st0 m, descends (Some st0) (Some st) ∧ published_in name st0 m ∧ mf_Kind m = "delta" ∧
        same_references (mf_Segments m) segs = true ∧ published_below older st0
  end.

Lemma published_below_later segss st st' : descends (Some st) (Some st') → published_below segss st → published_below segss st'.
Proof. destruct segss; [done|]. intros Hd (st0 & m & Hd0 & Hrest). exists st0, m. split; [by etrans|done]. Qed.

Definition node_recorded (segss : list (list Segment)) (e : World (S := S) * D) : Prop :=
  (segss = [] ∨ ∃ head, vol name (w_store e.1) = Some head ∧ published_below (rev segss) head) ∧
  (ls_lost (w_lease e.1) = false → published_below (rev segss) (ls_state (w_lease e.1))).

Definition node_ok (e : World (S := S) * D) : Prop := world_ok name e.1 ∧ Forall (event_forward name) (w_events e.1).
Definition node_rel (e e' : World (S := S) * D) : Prop := rel name (w_store e.1) (w_store e'.1) ∧ forward (w_lease e.1) (w_lease e'.1).

Lemma descends_some st o : descends (Some st) o → ∃ st', o = Some st'.
Proof. intros [ms Hr]. destruct (volume_run_linked_from _ _ _ Hr st eq_refl) as (st' & -> & _). by exists st'. Qed.

Lemma node_recorded_stable segss e e' : node_rel e e' → node_recorded segss e → node_recorded segss e'.
Proof.
  intros [(_ & Hd & _) Hf] [Hh Hl]. split.
  - destruct Hh as [->|(head & Hv & Hin)]; [by left|right]. rewrite Hv in Hd. destruct (descends_some _ _ Hd) as [head' Hv']. rewrite Hv' in Hd.
    exists head'. split; [done|]. by eapply published_below_later.
  - intros Hlost. destruct (Hf Hlost) as [Hlost0 Hd']. eapply published_below_later; [exact Hd'|by apply Hl].
Qed.

Lemma node_moves w w' d : node_ok (w, d) → moves name w w' → ∀ d', node_ok (w', d') ∧ node_rel (w, d) (w', d').
Proof. intros [Hw He] (Hw' & Hr & _ & Hf) d'. destruct (Hf He) as [Hfw He']. split; by split. Qed.

Lemma node_placed w w' d d' segs before :
  node_ok (w, d) → placed name w w' segs → node_recorded before (w, d) → node_recorded (before ++ [segs]) (w', d').
Proof.
  intros [_ He] (st & m & Hd & Hpin & Hk & Hs & Hturn) [_ Hl]. destruct (Hturn He) as (Hlost & Hfrom & Hto).
  assert (published_below (rev before) st) as Hst by (eapply published_below_later; [exact Hfrom|by apply Hl]). unfold node_recorded. rewrite rev_app_distr. split.
  - right. destruct (descends_some _ _ Hd) as [head Hv]. rewrite Hv in Hd. exists head. split; [done|]. by exists st, m.
  - intros Hlost'. exists st, m. split; [by apply Hto|done].
Qed.

Lemma node_still w d d' : node_ok (w, d) → node_ok (w, d') ∧ node_rel (w, d) (w, d').
Proof. intros [Hw He]. split; [done|]. split; [apply rel_refl, Hw|apply forward_refl]. Qed.

Definition node_laws : @PortLaws _ node_ports.
Proof.
  refine (@Build_PortLaws _ node_ports node_ok node_rel node_recorded _ _ _ _ _ _ _ _ _ _ _).
  - intros e He. split; [by left|done].
  - intros [w d] He. by apply node_still.
  - intros e1 e2 e3 [Hr Hf] [Hr' Hf']. split; [by eapply rel_trans|by eapply forward_trans].
  - apply node_recorded_stable.
  - intros [w d] He. cbn. destruct (local_seal d). by eapply node_still.
  - intros g [w d] He. by apply (node_still w d).
  - intros g [w d] He. cbn. destruct (local_enqueue g d) as [[[] ?] ?]; by eapply node_still.
  - intros n [w d] He. cbn. destruct (local_acknowledge n _ d). by eapply node_still.
  - intros [w d] He. cbn [port_give_up node_ports fst snd]. destruct (lease_Release None w) as [w' r] eqn:Hp.
    apply (node_moves w w' d He). by eapply lease_Release_spec, Hp; [done|apply He].
  - intros [w d] He. cbn. destruct (PublishCheckpoint TTL _ fuel schedule w) as [w' r] eqn:Hp.
    apply (node_moves w w' d He). by eapply (PublishCheckpoint_spec TTL name state_round_trip not_head); [done|apply He|exact Hp].
  - intros segs [w d] He. cbn. destruct (Publish TTL schedule segs w) as [w' r] eqn:Hp.
    destruct (Publish_spec TTL name state_round_trip not_head schedule segs w w' r any_order (proj1 He) Hp) as [Hm Hd].
    destruct (node_moves w w' d He Hm d) as [Hok Hrel]. split; [done|]. split; [done|]. destruct r as [[]|]; cbn; [|done]. intros _ before.
    eapply node_placed; [exact He|by apply Hd].
Defined.

#[local] Existing Instances node_ports node_laws.

(** The chain of manifests from [key] of generation [g] down leads through
    manifests with exactly these segments, newest first. *)
Fixpoint chain_through (vname key : string) (g : Z) (segss : list (list Segment)) : Prop :=
  match segss with
  | [] => True
  | segs :: older =>
      ∃ ms m body, Marshal m = Ok body ∧ linked vname ms key g (manifest_key name body) (mf_Generation m) ∧
        mf_Kind m = "delta" ∧ same_references (mf_Segments m) segs = true ∧
        chain_through vname (manifest_key name body) (mf_Generation m) older
  end.

Lemma published_below_chain segss st : published_below segss st → chain_through (st_Name st) (st_Manifest st) (st_Generation st) segss.
Proof.
  revert st. induction segss as [|segs segss IH]; intros st; cbn [published_below chain_through]; [done|].
  intros (st0 & m & [ms Hr] & (body & Hm & Hk & Hg) & Hkind & Hsame & Hrest).
  destruct (volume_run_linked _ _ _ Hr) as [(_ & _ & Hname & _) Hl]. exists ms, m, body. rewrite <-Hk, <-Hg, <-Hname.
  do 4 (split; [done|]). by apply IH.
Qed.

(** C3: What a sync acknowledges is in the volume's history, in order.  Take a
    run of the worker in which a request's result is answered without error and
    no request that was waiting for its journal record had been dropped by a
    cancellation before ([undropped]; [sync_succeeds_after_drop] is such a drop).
    Then the generations sealed up to and including the request's are, in that
    order, the first ones of the batches published before the answer; every
    batch is published as the segments of its merged generations; and at the end
    of the run the chain of manifests of the volume's head leads, from the newest
    batch to the oldest, through manifests with exactly the segments of every
    batch of the run. *)
Theorem sync_acknowledged_in_history journal interval w d as1 evs r pre i post e0 g e1 :
  runs (StartSyncer journal interval (w, d)) as1 evs r → node_ok (w, d) → Forall action_ok as1 →
  evs = pre ++ Answered i None :: post → undropped pre → pre = e0 ++ Requested (Some i) g :: e1 →
  sealed_in (e0 ++ [Requested (Some i) g]) `prefix_of` concat (omap batch pre).*1 ∧
  Forall merged_in (omap batch evs) ∧
  (omap batch evs = [] ∨
   ∃ head, vol name (w_store (run_env r).1) = Some head ∧
     chain_through (st_Name head) (st_Manifest head) (st_Generation head) (rev (omap batch evs).*2)).
Proof.
  intros Hr Hw Hacts Hevs Hund Hpre. rewrite batches_published. split; [by eapply answers_after_publish|].
  assert (port_ok (w, d)) as Hok0 by exact Hw. destruct (runs_recorded _ _ _ _ _ _ Hr Hok0 Hacts) as (_ & _ & Hm & [Hrec _]). split; [done|].
  destruct Hrec as [Hnil|(head & Hv & Hin)]; [left; by apply fmap_nil_inv in Hnil|right]. exists head. split; [done|]. by apply published_below_chain.
Qed.
End lease.

(** ** Merging generations *)

Definition published_batches (evs : list sync_event) : list Generation := mergeGenerations <$> (omap batch evs).*1.

Lemma merge_lookup gs blocks b :
  foldl (fun blocks g => GenBlocks g ∪ blocks) blocks gs !! b = foldl (fun x g => match GenBlocks g !! b with Some d => Some d | None => x end) (blocks !! b) gs.
Proof.
  revert blocks. induction gs as [|g gs IH]; intros blocks; cbn [foldl]; [done|]. rewrite IH. f_equal. rewrite lookup_union. by destruct (GenBlocks g !! b), (blocks !! b).
Qed.

Lemma replay_app xs ys b : replay (xs ++ ys) b = default (replay ys b) (foldr (fun g x => match GenBlocks g !! b with Some d => Some d | None => x end) None xs).
Proof.
  induction xs as [|g xs IH]; cbn [app replay foldr]; [done|]. by destruct (GenBlocks g !! b).
Qed.

(** A merged generation replays as its parts. *)
Lemma replay_merge gs older b : replay (mergeGenerations gs :: older) b = replay (rev gs ++ older) b.
Proof.
  rewrite replay_app. cbn [replay]. f_equal. unfold mergeGenerations. cbn [GenBlocks]. rewrite merge_lookup, lookup_empty.
  induction gs as [|g gs IH] using rev_ind; [done|]. rewrite foldl_app, rev_app_distr. cbn [foldl rev app foldr]. by rewrite IH.
Qed.

(** C28: Publishing pending generations merged into one does not change what a
    restore sees: replaying the merged generations that a run published, newest
    first, gives every block the content that replaying all their parts gives
    it. *)
Theorem merged_publications_replay evs b : replay (rev (published_batches evs)) b = replay (rev (published_gens evs)) b.
Proof.
  unfold published_batches. rewrite <-batches_published. induction (omap batch evs).*1 as [|gs bs IH] using rev_ind; [done|].
  rewrite fmap_app, concat_app, !rev_app_distr. cbn [fmap list_fmap rev app concat]. rewrite app_nil_r, replay_merge, !replay_app. by rewrite IH.
Qed.

(** ** A sync while answers are lost

    One generation is sealed; the answer of the commit that publishes it is
    lost, so the worker waits and tries again. *)
#[local] Existing Instances toy_digest plain_gzip lease_state_json lease_manifest_json lease_bundle_json.

(** A device that seals these generations, and no journal. *)
#[export] Instance sealing_device : LocalPorts (list (option Generation)) := {|
  local_seal d := match d with [] => ([], None) | g :: rest => (rest, g) end;
  local_release _ d := d;
  local_enqueue g d := (d, g, 0%nat, 0%nat);
  local_receive _ _ := Some None;
  local_acknowledge _ _ d := (d, None);
|}.

#[local] Existing Instance node_ports | 0.

Definition sync_ports : Ports (World (S := Memory) * list (option Generation)) := node_ports lease_ttl 0 id.
#[local] Existing Instance sync_ports | 0.

Definition sync_start : Run (E := World (S := Memory) * list (option Generation)) :=
  StartSyncer false 0 ((run_op lease_ttl "vol" (OpAcquire "node" "id" "token" lease_opts) lease_world).1, [Some sample_generation]).
Definition sync_actions : list (action (E := World (S := Memory) * list (option Generation))) :=
  [CallRequest false; CallSignal; TakeWake] ++ replicate 12 Proceed.

Definition sync_result : Run (E := World (S := Memory) * list (option Generation)) * list sync_event :=
  match execute sync_actions sync_start with Some x => x | None => (sync_start, []) end.

Lemma sync_runs : runs sync_start sync_actions sync_result.2 sync_result.1.
Proof.
  apply execute_runs. unfold sync_result. destruct (execute sync_actions sync_start) as [[r evs]|] eqn:He; [done|]. exfalso. revert He. vm_compute. discriminate.
Qed.

Lemma lease_events_forward : Forall (event_forward "vol") (w_events lease_world).
Proof. repeat (constructor; [by intros s l s' l' _ _ [= <- <-]; apply forward_refl|]). constructor. Qed.

Lemma sync_start_ok : node_ok "vol" (run_env sync_start).
Proof.
  split; [apply run_op_spec; [apply lease_exact|apply conditional_not_head|done|apply lease_world_ok]|].
  change (Forall (event_forward "vol") (w_events (run_op lease_ttl "vol" (OpAcquire "node" "id" "token" lease_opts) lease_world).1)).
  cbn [run_op]. destruct (Acquire lease_ttl "vol" "node" "id" "token" lease_opts lease_world) as [w1 r1] eqn:Ha.
  destruct (Acquire_spec lease_ttl "vol" lease_exact (conditional_not_head "vol") _ _ _ _ _ _ _ lease_world_ok Ha) as [(_ & _ & _ & Hf) _].
  destruct (Hf lease_events_forward) as [_ He]. by destruct r1 as [[l c]|e].
Qed.

Lemma sync_acknowledged_in_history_witness :
  ∃ head, vol "vol" (w_store (run_env sync_result.1).1) = Some head ∧ [sample_generation] `prefix_of` concat (omap batch sync_result.2).*1 ∧
    chain_through "vol" (st_Name head) (st_Manifest head) (st_Generation head) (rev (omap batch sync_result.2).*2).
Proof.
  assert (take 3 sync_result.2 ++ [Answered 0 None] = sync_result.2) as Hevs by (vm_compute; reflexivity).
  destruct (sync_acknowledged_in_history lease_ttl "vol" 0 id lease_exact (conditional_not_head "vol") (fun us => Permutation_refl us) false 0
    (run_env sync_start).1 (run_env sync_start).2 sync_actions sync_result.2 sync_result.1
    (take 3 sync_result.2) 0%nat [] [] (Some sample_generation) (drop 1 (take 3 sync_result.2))) as (Hpre & _ & Hchain).
  - exact sync_runs.
  - exact sync_start_ok.
  - repeat (constructor; [exact I|]). constructor.
  - symmetry. exact Hevs.
  - intros gs Hin. exfalso. revert Hin. vm_compute. intros Hin. do 3 (inversion_clear Hin as [|? ? ? Hin']; rename Hin' into Hin). inversion Hin.
  - vm_compute. reflexivity.
  - destruct Hchain as [Hnil|(head & Hv & Hchain)]; [exfalso; revert Hnil; vm_compute; discriminate|].
    exists head. split; [exact Hv|]. split; [|exact Hchain]. rewrite <-Hevs, omap_app, fmap_app, concat_app. apply prefix_app_r. exact Hpre.
Defined.

Lemma syncer_publishes_in_order_witness :
  ∃ pending, sealed_in sync_result.2 = published_gens sync_result.2 ++ pending ++ [] ++ [] ∧ held_back LateCheckpoint pending [].
Proof.
  destruct (syncer_publishes_in_order false 0 (run_env sync_start) sync_actions sync_result.2 sync_result.1 sync_runs) as (pending & Hs & Hp).
  - intros gs Hin. exfalso. revert Hin. vm_compute. intros Hin. do 4 (inversion_clear Hin as [|? ? ? Hin']; rename Hin' into Hin). inversion Hin.
  - exists pending. split; [rewrite Hs; vm_compute; reflexivity|]. revert Hp. vm_compute. done.
Defined.

Lemma syncer_answers_after_publish_witness : [sample_generation] `prefix_of` published_gens (take 3 sync_result.2).
Proof.
  apply (syncer_answers_after_publish false 0 (run_env sync_start) sync_actions sync_result.2 sync_result.1
    (take 3 sync_result.2) 0%nat [] [] (Some sample_generation) (drop 1 (take 3 sync_result.2)) sync_runs).
  - vm_compute. reflexivity.
  - intros gs Hin. exfalso. revert Hin. vm_compute. intros Hin. do 3 (inversion_clear Hin as [|? ? ? Hin']; rename Hin' into Hin). inversion Hin.
  - vm_compute. reflexivity.
Defined.

Definition queued_result : Run (E := World (S := Memory) * list (option Generation)) * list sync_event :=
  match execute (take 2 sync_actions) sync_start with Some x => x | None => (sync_start, []) end.

Lemma syncer_no_lost_wakeup_witness :
  sy_wake (run_syncer queued_result.1) = true ∨ (0 < run_owed queued_result.1)%nat ∨ looking (run_worker queued_result.1) = true ∧ run_worker queued_result.1 ≠ Stopped.
Proof.
  apply (syncer_no_lost_wakeup false 0 (run_env sync_start) (take 2 sync_actions) queued_result.2 queued_result.1 0%nat).
  - apply execute_runs. unfold queued_result. destruct (execute (take 2 sync_actions) sync_start) as [[r evs]|] eqn:He; [done|]. exfalso. revert He. vm_compute. discriminate.
  - vm_compute. by left.
Defined.

Lemma syncer_answers_once_witness : NoDup (answered_in sync_result.2).
Proof. exact (proj1 (syncer_answers_once false 0 (run_env sync_start) sync_actions sync_result.2 sync_result.1 sync_runs)). Defined.

(** ** Two orders that go wrong *)

(** A device that seals these generations, with a journal and a lease that
    accept everything. *)
Definition loopback_ports : Ports (list (option Generation)) := {|
  port_seal d := match d with [] => ([], None) | g :: rest => (rest, g) end;
  port_release _ d := d;
  port_enqueue g d := (d, g, 0%nat, 0%nat);
  port_receive _ _ := Some None;
  port_acknowledge _ d := (d, None);
  port_publish _ d := (d, None);
  port_checkpoint d := (d, None);
  port_give_up d := (d, None);
  port_state _ := sample_volume;
|}.
#[local] Existing Instance loopback_ports | 0.

Definition older_generation : Generation := mkGeneration {[ 1 := replicate blockBytes x01 ]} DefaultBlockSize 1.
Definition newer_generation : Generation := mkGeneration {[ 1 := replicate blockBytes x02 ]} DefaultBlockSize 2.

(** A mount installs the flush handler before it queues the generations that it
    recovered from the journal.  A flush that falls in between is queued before
    them, and the recovered, older content of a block is published last. *)
Theorem recovered_generation_overwrites_newer :
  ∃ r evs, execute ([CallLocalFlush; CallRecovered older_generation; TakeTick] ++ replicate 10 Proceed) (StartSyncer true 0 [Some newer_generation]) = Some (r, evs) ∧
    sealed_in evs = [newer_generation; older_generation] ∧
    (fun g => GenBlocks g !! 1) <$> published_batches evs = [Some (replicate blockBytes x01)].
Proof. eexists _, _. split; [vm_compute; reflexivity|]. split; vm_compute; reflexivity. Qed.

(** When the worker's context is cancelled while it waits for the journal, it
    forgets the requests it took; the next turn of its loop may still choose the
    wake signal over the cancellation, and answers a later sync without error
    although the generation before it was never published. *)
Theorem sync_succeeds_after_drop :
  ∃ r evs, execute ([CallLocalFlush; TakeTick; Proceed; Proceed; Proceed; CallAbandon; TakeCancel; Proceed; CallRequest false; CallSignal; TakeWake] ++ replicate 8 Proceed)
      (StartSyncer true 0 [Some newer_generation]) = Some (r, evs) ∧
    sealed_in evs = [newer_generation] ∧ published_gens evs = [] ∧ Answered 0 None ∈ evs.
Proof.
  eexists _, _. split; [vm_compute; reflexivity|]. split; [vm_compute; reflexivity|]. split; [vm_compute; reflexivity|]. vm_compute. do 3 right. by left.
Qed.
