(* ===== verification/Verify.v ===== *)
(** * Verification of a volume ([internal/replica/verify.go])

    A read-only walk over everything reachable from a volume's state, and what a
    report without problems means for a restore. *)
From S2P Require Import Prelude Extents Codec File Segment Types Store Manifest Plan Restore.
Local Open Scope Z_scope.

Record VerifyOptions : Type := mkVerifyOptions { Deep : bool }.

(** A problem is the error it reports. *)
Record VerifyReport : Type := mkReport {
  vr_Manifests : Z;
  vr_Bundles : Z;
  vr_RefsChecked : Z;
  vr_ExternalObjects : Z;
  vr_BytesFetched : Z;
  vr_TruncatedBelowCheckpoint : bool;
  vr_OldestGeneration : Z;
  vr_Problems : list error;
}.

Record fetchedObject : Type := mkFetched { fo_digest : string; fo_size : Z; fo_err : option error }.

Definition count_fetched (bytes : Z) (r : VerifyReport) : VerifyReport :=
  mkReport (vr_Manifests r) (vr_Bundles r) (vr_RefsChecked r) (vr_ExternalObjects r + 1) (vr_BytesFetched r + bytes)
    (vr_TruncatedBelowCheckpoint r) (vr_OldestGeneration r) (vr_Problems r).
Definition count_ref (r : VerifyReport) : VerifyReport :=
  mkReport (vr_Manifests r) (vr_Bundles r) (vr_RefsChecked r + 1) (vr_ExternalObjects r) (vr_BytesFetched r)
    (vr_TruncatedBelowCheckpoint r) (vr_OldestGeneration r) (vr_Problems r).
Definition count_bundle (r : VerifyReport) : VerifyReport :=
  mkReport (vr_Manifests r) (vr_Bundles r + 1) (vr_RefsChecked r) (vr_ExternalObjects r) (vr_BytesFetched r)
    (vr_TruncatedBelowCheckpoint r) (vr_OldestGeneration r) (vr_Problems r).
Definition add_problem (e : error) (r : VerifyReport) : VerifyReport :=
  mkReport (vr_Manifests r) (vr_Bundles r) (vr_RefsChecked r) (vr_ExternalObjects r) (vr_BytesFetched r)
    (vr_TruncatedBelowCheckpoint r) (vr_OldestGeneration r) (vr_Problems r ++ [e]).

Section verify.
Context `{Digest} `{Gzip} `{Json Manifest} `{Json manifestBundle}.
Context (Get : string → result bytes) (fuel : nat).

Definition fetchExternal (opts : VerifyOptions) (report : VerifyReport) (key : string) : VerifyReport * fetchedObject :=
  match Get key with
  | Err e => (report, mkFetched EmptyString 0 (Some (Errorf "segment object %s: %v")))
  | Ok data =>
      (count_fetched (Z.of_nat (length data)) report,
       mkFetched (if Deep opts then hex_EncodeToString (sha256 data) else EmptyString) (Z.of_nat (length data)) None)
  end.

(** [verifyRef]; the bundle cache is that of [sources]. *)
Definition verifyRef (l : loader) (opts : VerifyOptions) (cache : bundle_cache) (fetched : gmap string fetchedObject) (report : VerifyReport) (ref : ObjectRef)
    : bundle_cache * gmap string fetchedObject * VerifyReport * option error :=
  if negb (bool_decide (ref_Key ref = EmptyString)) then
    let '(fetched, report, result) :=
      match fetched !! ref_Key ref with
      | Some result => (fetched, report, result)
      | None => let '(report, result) := fetchExternal opts report (ref_Key ref) in (<[ref_Key ref := result]> fetched, report, result)
      end in
    match fo_err result with
    | Some e => (cache, fetched, report, Some e)
    | None =>
        if Deep opts && (negb (fo_size result =? ref_Bytes ref) || negb (bool_decide (fo_digest result = ref_SHA256 ref)))
        then (cache, fetched, report, Some (Errorf "segment object %s content does not match its reference"))
        else (cache, fetched, report, None)
    end
  else if negb (bool_decide (ref_SourceManifest ref = EmptyString)) then
    let '(cache, data) := inlineSegment Get fuel l cache ref in
    (cache, fetched, report, match data with Ok _ => None | Err e => Some e end)
  else (cache, fetched, report, None).

(** The loop over the references of one manifest. *)
Fixpoint verify_refs (l : loader) (opts : VerifyOptions) (refs : list ObjectRef) (cache : bundle_cache) (fetched : gmap string fetchedObject) (report : VerifyReport)
    : bundle_cache * gmap string fetchedObject * VerifyReport :=
  match refs with
  | [] => (cache, fetched, report)
  | ref :: rest =>
      let '(cache, fetched, report, problem) := verifyRef l opts cache fetched (count_ref report) ref in
      let report := match problem with Some e => add_problem (Wrap "manifest %s ref %d" e) report | None => report end in
      verify_refs l opts rest cache fetched report
  end.

Fixpoint verify_entries (l : loader) (opts : VerifyOptions) (history : list manifestEntry) (cache : bundle_cache) (fetched : gmap string fetchedObject) (report : VerifyReport)
    : VerifyReport :=
  match history with
  | [] => report
  | entry :: rest =>
      let '(cache, fetched, report) := verify_refs l opts (mf_Segments (e_manifest entry)) cache fetched report in
      verify_entries l opts rest cache fetched report
  end.

(** The walk along the bundles; [n] bounds their number. *)
Fixpoint verify_bundles (n : nat) (state : State) (bundleRef : option ManifestBundleRef) (report : VerifyReport) : VerifyReport :=
  match bundleRef with
  | None => report
  | Some ref =>
      match n with
      | O => add_problem OutOfFuel report
      | S n =>
          match readManifestBundle Get state ref with
          | Err e => add_problem (Wrap "manifest bundle %s" e) report
          | Ok bundle => verify_bundles n state (mb_Parent bundle) (count_bundle report)
          end
      end
  end.

(** [VerifyMetadataWithOptions], with a context that is not cancelled. *)
Definition VerifyMetadataWithOptions (state : State) (opts : VerifyOptions) : VerifyReport :=
  let '(history, problems) :=
    match loadHistory Get fuel state with
    | Ok history => (history, [])
    | Err e => ([], [Wrap "manifest history walk failed" e])
    end in
  let oldest := last history in
  let report :=
    mkReport (Z.of_nat (length history)) 0 0 0 0
      (match oldest with
       | Some e => negb (mf_Generation (e_manifest e) =? 1) &&
                   negb (bool_decide (mf_Kind (e_manifest e) = "checkpoint") && bool_decide (mf_Parent (e_manifest e) = EmptyString))
       | None => false
       end)
      (match oldest with Some e => mf_Generation (e_manifest e) | None => 0 end) problems in
  let report := verify_entries (newManifestSourceLoader state) opts history ∅ ∅ report in
  verify_bundles fuel state (st_ManifestBundle state) report.

Definition VerifyMetadata (state : State) : VerifyReport := VerifyMetadataWithOptions state (mkVerifyOptions false).

(** ** Soundness *)

(** The storage of a valid reference: an object, its own data, or the data of
    another manifest. *)
Definition ref_stored (ref : ObjectRef) : Prop :=
  (ref_Key ref ≠ EmptyString ∧ ref_InlineData ref = [] ∧ ref_SourceManifest ref = EmptyString) ∨
  (ref_Key ref = EmptyString ∧ ref_InlineData ref ≠ [] ∧ ref_SourceManifest ref = EmptyString ∧
   Z.of_nat (length (ref_InlineData ref)) = ref_Bytes ref ∧ hex_EncodeToString (sha256 (ref_InlineData ref)) = ref_SHA256 ref) ∨
  (ref_Key ref = EmptyString ∧ ref_InlineData ref = [] ∧ ref_SourceManifest ref ≠ EmptyString).

Lemma ref_storage_stored name ref : ref_storage name ref = Ok 1 → ref_stored ref.
Proof.
  unfold ref_storage. intros (k1 & H1' & (k2 & H2' & (k3 & H3' & [= Hsum])%result_bind_Ok)%result_bind_Ok)%result_bind_Ok.
  assert ((ref_Key ref = EmptyString ∧ k1 = 0) ∨ (ref_Key ref ≠ EmptyString ∧ k1 = 1)) as Hk1.
  { clear H2' H3'. case_bool_decide; [injection H1' as <-; by left|]. apply result_bind_Ok in H1' as (? & _ & [= <-]). by right. }
  assert ((ref_InlineData ref = [] ∧ k2 = 0) ∨ (ref_InlineData ref ≠ [] ∧ k2 = 1 ∧ Z.of_nat (length (ref_InlineData ref)) = ref_Bytes ref ∧
    hex_EncodeToString (sha256 (ref_InlineData ref)) = ref_SHA256 ref)) as Hk2.
  { clear H1' H3'. case_bool_decide; [injection H2' as <-; by left|]. apply result_bind_Ok in H2' as (? & Hc%fail_if_Ok & [= <-]).
    apply orb_false_iff in Hc as [Hl%negb_false_iff%Z.eqb_eq Hd%negb_false_iff%bool_decide_eq_true]. by right. }
  assert ((ref_SourceManifest ref = EmptyString ∧ k3 = 0) ∨ (ref_SourceManifest ref ≠ EmptyString ∧ k3 = 1)) as Hk3.
  { clear H1' H2'. case_bool_decide; [apply result_bind_Ok in H3' as (? & _ & [= <-]); by left|].
    apply result_bind_Ok in H3' as (? & _ & H3'). apply result_bind_Ok in H3' as (? & _ & [= <-]). by right. }
  unfold ref_stored. destruct Hk1 as [[? ->]|[? ->]], Hk2 as [[? ->]|(? & -> & ? & ?)], Hk3 as [[? ->]|[? ->]]; try lia; by auto 10.
Qed.

Lemma validate_refs_stored name kind hi refs acc n acc' n' :
  validate_refs name kind hi refs acc n = Ok (acc', n') → Forall ref_stored refs.
Proof.
  revert acc n. induction refs as [|r refs IH]; intros acc n; cbn [validate_refs]; [constructor|].
  intros (blocks & Hr & (? & _ & Hv)%result_bind_Ok)%result_bind_Ok. constructor; [|by eapply IH]. unfold validate_ref in Hr.
  apply result_bind_Ok in Hr as (? & _ & Hr). apply result_bind_Ok in Hr as (? & _ & Hr). apply result_bind_Ok in Hr as (kinds & Hs & Hr).
  apply result_bind_Ok in Hr as (? & Hk%fail_if_Ok & _). apply negb_false_iff, Z.eqb_eq in Hk as ->. by eapply ref_storage_stored.
Qed.

Lemma decodeManifest_stored state key body g m : decodeManifest state key body g = Ok m → Forall ref_stored (mf_Segments m).
Proof.
  intros (m' & _ & (? & _ & (? & Hv & [= <-])%result_bind_Ok)%result_bind_Ok)%result_bind_Ok. unfold validateManifest in Hv.
  do 3 (apply result_bind_Ok in Hv as (? & _ & Hv)). apply result_bind_Ok in Hv as ([acc n] & Hv & _). by eapply validate_refs_stored.
Qed.

Lemma history_stored fuel' state key g n behind cache history :
  history_chain Get fuel' fuel state key g n behind cache = Ok history → Forall (fun e => Forall ref_stored (mf_Segments (e_manifest e))) history.
Proof.
  revert key g n behind cache history. induction fuel' as [|fuel' IH]; intros key g n behind cache history; cbn [history_chain]; case_bool_decide; try done.
  { intros [= <-]. constructor. }
  { intros [= <-]. constructor. }
  destruct (readManifestWithSourceCache Get fuel state key g cache) as [[[m b] cache1]|e] eqn:Hr; [|case_if; [intros [= <-]; constructor|done]].
  apply readManifest_decoded in Hr as [body Hd%decodeManifest_stored].
  case_if; intros (? & _ & Hh)%result_bind_Ok; [injection Hh as <-; by constructor|].
  apply result_bind_Ok in Hh as (? & _ & Hh). apply result_bind_Ok in Hh as (rest & Hrest & [= <-]). constructor; [done|]. by eapply IH.
Qed.

Notation l state := (newManifestSourceLoader state).

(** The bytes of the reference can be read, and are the right ones. *)
Definition intact (state : State) (ref : ObjectRef) : Prop :=
  ∃ data, (segment_data Get fuel (l state) ∅ ref).2 = Ok data ∧ Z.of_nat (length data) = ref_Bytes ref ∧ hex_EncodeToString (sha256 data) = ref_SHA256 ref.

(** What was fetched before is what would be fetched. *)
Definition fetched_ok (fetched : gmap string fetchedObject) : Prop :=
  ∀ key r, fetched !! key = Some r → ∀ report, r = (fetchExternal (mkVerifyOptions true) report key).2.

Lemma inline_data_intact ref body data : inline_data ref body = Ok data → Z.of_nat (length data) = ref_Bytes ref ∧ hex_EncodeToString (sha256 data) = ref_SHA256 ref.
Proof.
  unfold inline_data. intros (? & _ & (source & _ & Hd)%result_bind_Ok)%result_bind_Ok. destruct (mf_Segments source !! _); [|done].
  apply result_bind_Ok in Hd as (? & Hc%fail_if_Ok & [= <-]). rewrite !orb_false_iff, !negb_false_iff in Hc.
  destruct Hc as [[_ Hlen] Hsha]. split; [by apply Z.eqb_eq|by apply bool_decide_eq_true in Hsha].
Qed.

Lemma fetchExternal_report opts report report' key : (fetchExternal opts report key).2 = (fetchExternal opts report' key).2.
Proof. unfold fetchExternal. by destruct (Get key). Qed.

Lemma fetchExternal_problems opts report key : vr_Problems (fetchExternal opts report key).1 = vr_Problems report.
Proof. unfold fetchExternal. by destruct (Get key). Qed.

Lemma fetched_intact key report ref :
  fo_err (fetchExternal (mkVerifyOptions true) report key).2 = None →
  negb (fo_size (fetchExternal (mkVerifyOptions true) report key).2 =? ref_Bytes ref) ||
  negb (bool_decide (fo_digest (fetchExternal (mkVerifyOptions true) report key).2 = ref_SHA256 ref)) = false →
  ∃ data, Get key = Ok data ∧ Z.of_nat (length data) = ref_Bytes ref ∧ hex_EncodeToString (sha256 data) = ref_SHA256 ref.
Proof.
  unfold fetchExternal. destruct (Get key) as [data|e]; [|done]. cbn [snd fo_err fo_size fo_digest Deep]. intros _ Hc. exists data.
  apply orb_false_iff in Hc as [Hl%negb_false_iff%Z.eqb_eq Hd%negb_false_iff%bool_decide_eq_true]. done.
Qed.

Lemma verifyRef_sound state cache fetched report ref cache' fetched' report' problem :
  cache_ok Get (l state) cache → fetched_ok fetched → ref_stored ref →
  verifyRef (l state) (mkVerifyOptions true) cache fetched report ref = (cache', fetched', report', problem) →
  cache_ok Get (l state) cache' ∧ fetched_ok fetched' ∧ vr_Problems report' = vr_Problems report ∧ (problem = None → intact state ref).
Proof.
  intros Hc Hf Hst. unfold verifyRef. destruct (decide (ref_Key ref = EmptyString)) as [Hk|Hk].
  - rewrite (bool_decide_eq_true_2 _ Hk). cbn [negb]. destruct (decide (ref_SourceManifest ref = EmptyString)) as [Hs|Hs].
    + rewrite (bool_decide_eq_true_2 _ Hs). cbn [negb]. intros [= <- <- <- <-]. split; [done|]. split; [done|]. split; [done|]. intros _.
      destruct Hst as [(? & _)|[(_ & Hin & _ & Hlen & Hsha)|(_ & _ & ?)]]; [done| |done]. exists (ref_InlineData ref). split; [|done].
      unfold segment_data. by rewrite (bool_decide_eq_false_2 _ Hin).
    + rewrite (bool_decide_eq_false_2 _ Hs). cbn [negb]. assert (ref_InlineData ref = []) as Hin by by destruct Hst as [(? & _)|[(_ & _ & ? & _)|(_ & ? & _)]].
      assert (∀ c, segment_data Get fuel (l state) c ref = inlineSegment Get fuel (l state) c ref) as Hseg.
      { intros c. unfold segment_data. by rewrite (bool_decide_eq_true_2 _ Hin), (bool_decide_eq_false_2 _ Hs). }
      destruct (segment_data_cache Get fuel (l state) cache ref Hc) as [Heq Hok]. rewrite Hseg in Heq, Hok.
      destruct (inlineSegment Get fuel (l state) cache ref) as [c1 r1] eqn:Hi. cbn [fst snd] in *. intros [= <- <- <- <-].
      split; [done|]. split; [done|]. split; [done|]. destruct r1 as [data|e]; [|done]. intros _. exists data. split; [done|].
      rewrite Hseg in Heq. unfold inlineSegment in Heq. destruct (if bool_decide _ then _ else _) as [c2 body]. cbn [snd] in Heq. symmetry in Heq.
      apply result_bind_Ok in Heq as (b & _ & Hd). by eapply inline_data_intact.
  - rewrite (bool_decide_eq_false_2 _ Hk). cbn [negb Deep andb].
    assert (∀ result, (∀ report, result = (fetchExternal (mkVerifyOptions true) report (ref_Key ref)).2) → fo_err result = None →
      negb (fo_size result =? ref_Bytes ref) || negb (bool_decide (fo_digest result = ref_SHA256 ref)) = false → intact state ref) as Hintact.
    { intros result Hres He Hm. rewrite (Hres report) in He, Hm. destruct (fetched_intact _ _ _ He Hm) as (data & Hd & Hlen & Hsha). exists data. split; [|done].
      destruct Hst as [(_ & Hin & Hs)|[(? & _)|(? & _)]]; [|done..]. unfold segment_data. rewrite (bool_decide_eq_true_2 _ Hin), (bool_decide_eq_true_2 _ Hs), Hd. done. }
    destruct (fetched !! ref_Key ref) as [result|] eqn:Hlk.
    + destruct (fo_err result) as [e|] eqn:He; [intros [= <- <- <- <-]; by repeat (split; [done|])|]. destruct (_ || _) eqn:Hm; intros [= <- <- <- <-]; [by repeat (split; [done|])|].
      split; [done|]. split; [done|]. split; [done|]. intros _. eapply Hintact; [exact (Hf _ _ Hlk)|done|done].
    + pose proof (fetchExternal_problems (mkVerifyOptions true) report (ref_Key ref)) as Hp. pose proof (fun r => fetchExternal_report (mkVerifyOptions true) report r (ref_Key ref)) as Hr.
      destruct (fetchExternal (mkVerifyOptions true) report (ref_Key ref)) as [report1 result]. cbn [fst snd] in *.
      assert (fetched_ok (<[ref_Key ref := result]> fetched)) as Hf'.
      { intros key r. rewrite lookup_insert_Some. intros [[<- <-]|[_ ?]]; [exact Hr|by apply Hf]. }
      destruct (fo_err result) as [e|] eqn:He; [intros [= <- <- <- <-]; by repeat (split; [done|])|]. destruct (_ || _) eqn:Hm; intros [= <- <- <- <-]; [by repeat (split; [done|])|].
      split; [done|]. split; [done|]. split; [done|]. intros _. by eapply Hintact.
Qed.

Lemma verify_refs_sound state refs cache fetched report cache' fetched' report' :
  cache_ok Get (l state) cache → fetched_ok fetched → Forall ref_stored refs →
  verify_refs (l state) (mkVerifyOptions true) refs cache fetched report = (cache', fetched', report') →
  cache_ok Get (l state) cache' ∧ fetched_ok fetched' ∧ ∃ new, vr_Problems report' = vr_Problems report ++ new ∧ (new = [] → Forall (intact state) refs).
Proof.
  intros Hc Hf Hst. revert cache fetched report Hc Hf. induction Hst as [|ref refs Hr _ IH]; intros cache fetched report Hc Hf; cbn [verify_refs].
  { intros [= <- <- <-]. split; [done|]. split; [done|]. exists []. by rewrite app_nil_r. }
  destruct (verifyRef _ _ cache fetched (count_ref report) ref) as [[[c1 f1] r1] p] eqn:Hv.
  destruct (verifyRef_sound _ _ _ _ _ _ _ _ _ Hc Hf Hr Hv) as (Hc1 & Hf1 & Hp1 & Hi). intros Hrest.
  destruct (IH _ _ _ Hc1 Hf1 Hrest) as (Hc2 & Hf2 & new & Hp2 & Hall). split; [done|]. split; [done|]. destruct p as [e|].
  - exists ([Wrap "manifest %s ref %d" e] ++ new). cbn [vr_Problems add_problem] in Hp2. rewrite Hp1 in Hp2. cbn [vr_Problems count_ref] in Hp2.
    split; [by rewrite app_assoc|done].
  - exists new. rewrite Hp1 in Hp2. split; [done|]. intros Hnil. constructor; [by apply Hi|by apply Hall].
Qed.

Lemma verify_entries_sound state history cache fetched report :
  cache_ok Get (l state) cache → fetched_ok fetched → Forall (fun e => Forall ref_stored (mf_Segments (e_manifest e))) history →
  ∃ new, vr_Problems (verify_entries (l state) (mkVerifyOptions true) history cache fetched report) = vr_Problems report ++ new ∧
    (new = [] → Forall (fun e => Forall (intact state) (mf_Segments (e_manifest e))) history).
Proof.
  intros Hc Hf Hst. revert cache fetched report Hc Hf. induction Hst as [|e history He _ IH]; intros cache fetched report Hc Hf; cbn [verify_entries].
  { exists []. by rewrite app_nil_r. }
  destruct (verify_refs _ _ _ cache fetched report) as [[c1 f1] r1] eqn:Hv.
  destruct (verify_refs_sound _ _ _ _ _ _ _ _ Hc Hf He Hv) as (Hc1 & Hf1 & new1 & Hp1 & Hi). destruct (IH c1 f1 r1 Hc1 Hf1) as (new2 & Hp2 & Hall).
  exists (new1 ++ new2). rewrite Hp2, Hp1, app_assoc. split; [done|]. intros [-> ->]%app_eq_nil. constructor; [by apply Hi|by apply Hall].
Qed.

Lemma verify_bundles_problems n state ref report : ∃ new, vr_Problems (verify_bundles n state ref report) = vr_Problems report ++ new.
Proof.
  revert ref report. induction n as [|n IH]; intros [ref|] report; cbn [verify_bundles]; try (exists []; by rewrite app_nil_r); [by eexists|].
  destruct (readManifestBundle Get state ref); [apply (IH _ (count_bundle report))|by eexists].
Qed.

(** C29: A deep verification that finds no problem means that everything can be
    read: the history loads, and every segment that a retained manifest
    references (an object, inline data or data inside another manifest) can be
    read with the size and the digest of its reference. *)
Theorem verify_deep_sound state :
  vr_Problems (VerifyMetadataWithOptions state (mkVerifyOptions true)) = [] →
  ∃ history, loadHistory Get fuel state = Ok history ∧ Forall (fun e => Forall (intact state) (mf_Segments (e_manifest e))) history.
Proof.
  unfold VerifyMetadataWithOptions. destruct (loadHistory Get fuel state) as [history|e] eqn:Hh.
  - intros Hp. exists history. split; [done|]. set (report := mkReport _ _ _ _ _ _ _ _) in Hp.
    destruct (verify_bundles_problems fuel state (st_ManifestBundle state) (verify_entries (l state) (mkVerifyOptions true) history ∅ ∅ report)) as [new1 Hp1].
    rewrite Hp1 in Hp. apply app_eq_nil in Hp as [Hp _].
    destruct (verify_entries_sound state history ∅ ∅ report) as (new & Hnew & Hall).
    + intros k b. by rewrite lookup_empty.
    + intros k b. by rewrite lookup_empty.
    + unfold loadHistory in Hh. case_if_in Hh; [injection Hh as <-; constructor|]. by eapply history_stored.
    + apply Hall. rewrite Hp in Hnew. symmetry in Hnew. by apply app_eq_nil in Hnew as [_ ?].
  - intros Hp. exfalso. cbn [verify_entries last] in Hp. set (report := mkReport _ _ _ _ _ _ _ _) in Hp.
    destruct (verify_bundles_problems fuel state (st_ManifestBundle state) report) as [new Hp1]. rewrite Hp1 in Hp. done.
Qed.
End verify.

(** ** Witness *)

Lemma verify_deep_sound_witness :
  ∃ history, @loadHistory toy_digest sample_manifest_json no_bundle_json sample_get 1 sample_volume = Ok history ∧
    Forall (fun e => Forall (@intact toy_digest sample_manifest_json no_bundle_json sample_get 1 sample_volume) (mf_Segments (e_manifest e))) history.
Proof. apply (@verify_deep_sound toy_digest sample_manifest_json no_bundle_json sample_get 1 sample_volume). vm_compute. reflexivity. Defined.

(** ** A truncated history

    A volume whose newest manifest is a checkpoint in a bundle, after a
    collection removed the bundle before it. *)
Definition truncated_manifest : Manifest := mkManifest Format "id" 2 3 "checkpoint" "volumes/vol/manifests/gone.json" [sample_ref] 0.
Definition truncated_key : string := @manifest_key toy_digest "vol" [x6d].
Definition truncated_bundle : manifestBundle :=
  mkBundle Format "id" 2 2 (Some (mkBundleRef "volumes/vol/manifest-bundles/gone.json" 1 1)) [mkBundled truncated_key [x6d]].
Definition truncated_bundle_key : string := @bundle_key toy_digest "vol" [x62].
Definition truncated_volume : State :=
  mkState Format "id" "vol" (4 * DefaultBlockSize) DefaultBlockSize "ext4" 2 truncated_key ∅ (Some (mkBundleRef truncated_bundle_key 2 2)) 2 3 false None.
Definition truncated_get (key : string) : result bytes :=
  if bool_decide (key = ref_Key sample_ref) then Ok (seg_Data sample_segment) else
  if bool_decide (key = truncated_bundle_key) then Ok [x62] else Err ErrNotFound.

Definition truncated_manifest_json : Json Manifest.
Proof.
  refine {| Marshal := fun _ => Ok [x6d];
            Unmarshal := fun b => if bytes_Equal b [x6d] then Ok truncated_manifest else Err (Errorf "json");
            marshalable := fun a => a = truncated_manifest |}.
  intros a ->. by exists [x6d].
Defined.
Definition truncated_bundle_json : Json manifestBundle.
Proof.
  refine {| Marshal := fun _ => Ok [x62];
            Unmarshal := fun b => if bytes_Equal b [x62] then Ok truncated_bundle else Err (Errorf "json");
            marshalable := fun a => a = truncated_bundle |}.
  intros a ->. by exists [x62].
Defined.
#[local] Existing Instances toy_digest plain_gzip truncated_manifest_json truncated_bundle_json.

(** The bundle that is left names a parent, and no other bundle can be read. *)
Lemma truncated_parent k k' : parent_key truncated_get truncated_volume k k' → k = truncated_bundle_key ∧ k' = "volumes/vol/manifest-bundles/gone.json"%string.
Proof.
  intros (ref & bundle & parent & Hb & Hp & <- & <-). unfold readManifestBundle in Hb. apply result_bind_Ok in Hb as (data & Hget%wrap_err_Ok & Hb).
  apply result_bind_Ok in Hb as (? & Hkey%fail_if_Ok & Hb). apply result_bind_Ok in Hb as (bundle' & Hu%wrap_err_Ok & Hb).
  cbn [Unmarshal truncated_bundle_json] in Hu. destruct (bytes_Equal data [x62]) eqn:Hd; [|discriminate Hu]. injection Hu as <-. apply bool_decide_eq_true in Hd as ->.
  apply negb_false_iff, bool_decide_eq_true in Hkey. split; [exact Hkey|].
  do 2 apply result_bind_Ok in Hb as (? & _ & Hb). apply result_bind_Ok in Hb as ([? ?] & _ & Hb). apply result_bind_Ok in Hb as (? & _ & Hb).
  injection Hb as <-. by injection Hp as <-.
Qed.

Lemma chain_walks_terminate_witness :
  parent_key truncated_get truncated_volume truncated_bundle_key "volumes/vol/manifest-bundles/gone.json" ∧
  restoreManifests truncated_get 3 truncated_volume ≠ Err OutOfFuel ∧ loadHistory truncated_get 3 truncated_volume ≠ Err OutOfFuel.
Proof.
  split.
  - exists (mkBundleRef truncated_bundle_key 2 2), truncated_bundle, (mkBundleRef "volumes/vol/manifest-bundles/gone.json" 1 1).
    split; [vm_compute; reflexivity|]. by repeat split.
  - apply (chain_walks_terminate truncated_get truncated_volume); [|vm_compute; lia].
    intros k Hk. inversion Hk as [? ? H1'|? y ? H1' H2']; subst.
    + apply truncated_parent in H1' as [-> Heq]. revert Heq. vm_compute. discriminate.
    + apply truncated_parent in H1' as [-> ->]. inversion H2' as [? ? H3'|? y ? H3' _]; subst; apply truncated_parent in H3' as [Heq _]; revert Heq; vm_compute; discriminate.
Defined.

(** The history of such a volume loads up to the checkpoint, every reference is
    intact and a restore succeeds; but the walk over the bundles does not allow
    for the removed one and reports a problem. *)
Theorem verify_reports_truncated_history :
  vr_Problems (VerifyMetadataWithOptions truncated_get 5 truncated_volume (mkVerifyOptions true)) = [Wrap "manifest bundle %s" (Wrap "read manifest bundle %s" ErrNotFound)] ∧
  vr_TruncatedBelowCheckpoint (VerifyMetadataWithOptions truncated_get 5 truncated_volume (mkVerifyOptions true)) = true ∧
  (length <$> loadHistory truncated_get 5 truncated_volume) = Ok 1%nat ∧
  (snd <$> RestoreState truncated_get 5 (Ok []) id truncated_volume) = Ok None.
Proof. vm_compute. done. Qed.

(** A manifest that is an object of its own: [resolve] reads it past the removed
    bundle, [findBundlePath] (and with it every later collection that keeps a
    reference to it) fails instead of returning no path. *)
Definition alone_key : string := "volumes/vol/manifests/alone.json".
Definition alone_get (key : string) : result bytes := if bool_decide (key = alone_key) then Ok [x61] else truncated_get key.

Theorem findBundlePath_fails_on_truncated_chain :
  (resolve alone_get 5 (newManifestSourceLoader truncated_volume) ∅ alone_key).2 = Ok [x61] ∧
  (findBundlePath alone_get 5 (newManifestSourceLoader truncated_volume) ∅ alone_key).2 = Err (Wrap "read manifest bundle %s" ErrNotFound).
Proof. vm_compute. done. Qed.
