(* ===== verification/Nbd.v ===== *)
(** * The NBD server ([internal/backend/block/nbd_linux.go])

    The loop that serves block requests from the kernel, with the goroutines
    that wait for durable flushes, over the operations of a block device. *)
From S2P Require Import Prelude Extents Codec File.
Local Open Scope Z_scope.

(** ** Constants *)

Definition nbdRequestMagic : Z := 0x25609513.
Definition nbdReplyMagic : Z := 0x67446698.
Definition nbdCmdRead : Z := 0.
Definition nbdCmdWrite : Z := 1.
Definition nbdCmdDisconnect : Z := 2.
Definition nbdCmdFlush : Z := 3.
Definition nbdCmdTrim : Z := 4.
Definition nbdCmdWriteZeroes : Z := 6.
Definition nbdCmdMask : Z := 0xffff.
Definition nbdCmdFlagFUA : Z := Z.shiftl 1 16.
Definition maxNBDRequest : Z := Z.shiftl 32 20.
Definition writeChunk : Z := Z.shiftl 4 20.

(** ** The device below *)

Class BlockDevice (D : Type) : Type := {
  bd_Size : D → Z;
  bd_ReadAt : Z → Z → D → D * result bytes;
  bd_WriteAt : bytes → Z → D → D * option error;
  bd_Trim : Z → Z → D → D * option error;
  bd_Flush : D → D * option error;
  bd_QueuedFlushEnabled : D → bool;
  (** The channel on which the outcome will come. *)
  bd_BeginDurableFlush : D → D * result nat;
  (** What can be received on a channel. *)
  bd_receive : nat → D → option (option error);
}.

(** ** Errors *)

Inductive failure : Type := EINVAL | EROFS | Failed (e : error).

(** [errno]; [as_errno] is [errors.As] to a [syscall.Errno]. *)
Definition errno (as_errno : error → option Z) (err : option failure) : Z :=
  match err with
  | None => 0
  | Some EINVAL => 22
  | Some EROFS => 30
  | Some (Failed e) => default 5 (as_errno e)
  end.

(** ** Messages *)

Record header : Type := mkHeader { h_magic : Z; h_type : Z; h_handle : bytes; h_offset : Z; h_length : Z }.

Definition headerBytes : nat := 28.

(** The fields of the 28 bytes of a request. *)
Definition parse_header (b : bytes) : header :=
  mkHeader (be_decode (take 4 b)) (be_decode (take 4 (drop 4 b))) (take 8 (drop 8 b)) (be_decode (take 8 (drop 16 b))) (be_decode (take 4 (drop 24 b))).

Definition command (h : header) : Z := Z.land (h_type h) nbdCmdMask.
Definition fua (h : header) : bool := negb (Z.land (h_type h) nbdCmdFlagFUA =? 0).

(** What [writeReply] writes. *)
Definition writeReply (handle : bytes) (errno : Z) (data : bytes) : bytes :=
  be_encode 4 nbdReplyMagic ++ be_encode 4 errno ++ handle ++ (if errno =? 0 then data else []).

(** ** The server *)

(** A flush that was dispatched: what it waits for, and whether its turn has come
    and its outcome is known ([close(done)]). *)
Record barrier : Type := mkBarrier {
  ba_handle : bytes;
  ba_channel : option nat;
  ba_outcome : option failure;
  ba_done : bool;
}.

Section nbd.
Context {D : Type} `{BlockDevice D} (as_errno : error → option Z) (readOnly : bool).

(** [sv_in] is what the kernel sends before it hangs up and the server has not read; [sv_out] are
    the replies written; [sv_open] whether the connection is open. *)
Record Server : Type := mkServer {
  sv_in : bytes;
  sv_dev : D;
  sv_out : list bytes;
  sv_barriers : list barrier;
  sv_open : bool;
}.

Definition on_device (d : D) (s : Server) : Server := mkServer (sv_in s) d (sv_out s) (sv_barriers s) (sv_open s).
Definition on_input (b : bytes) (s : Server) : Server := mkServer b (sv_dev s) (sv_out s) (sv_barriers s) (sv_open s).
Definition on_barriers (bs : list barrier) (s : Server) : Server := mkServer (sv_in s) (sv_dev s) (sv_out s) bs (sv_open s).
Definition close_conn (s : Server) : Server := mkServer (sv_in s) (sv_dev s) (sv_out s) (sv_barriers s) false.

(** One turn of the loop: it goes on, or returns once the workers are done. *)
Inductive turn : Type := Continue (s : Server) | Leave (s : Server) (err : option error).

(** [sendReply], from the loop or from a worker: the reply is written, or the
    connection is gone, which is recorded. *)
Definition sendReply (handle : bytes) (err : option failure) (data : bytes) (s : Server) : Server * bool :=
  if sv_open s then
    (mkServer (sv_in s) (sv_dev s) (sv_out s ++ [writeReply handle (errno as_errno err) data]) (sv_barriers s) (sv_open s), true)
  else (close_conn s, false).

Definition reply (handle : bytes) (err : option failure) (data : bytes) (s : Server) : turn :=
  match sendReply handle err data s with
  | (s, true) => Continue s
  | (s, false) => Leave s (Some ErrClosed)
  end.

(** [io.ReadFull] of [n] bytes. *)
Definition read_full (n : nat) (s : Server) : Server * result bytes :=
  if negb (sv_open s) then (s, Err ErrClosed) else
  if (length (sv_in s) <? n)%nat then (on_input [] s, Err (if bool_decide (sv_in s = []) then ErrEOF else ErrUnexpectedEOF))
  else (on_input (drop n (sv_in s)) s, Ok (take n (sv_in s))).

(** [writeChunked]; [fuel] bounds the number of chunks. *)
Fixpoint writeChunked (fuel : nat) (data : bytes) (offset : Z) (d : D) : D * option error :=
  match fuel, data with
  | _, [] => (d, None)
  | O, _ => (d, Some OutOfFuel)
  | S fuel, _ =>
      let n := Nat.min (length data) (Z.to_nat writeChunk) in
      match bd_WriteAt (take n data) offset d with
      | (d, Some e) => (d, Some e)
      | (d, None) => writeChunked fuel (drop n data) (offset + Z.of_nat n) d
      end
  end.

(** [dispatchBarrier]: the flush is begun in the loop, its outcome awaited in a
    worker behind the barriers before it. *)
Definition dispatchBarrier (handle : bytes) (err : option failure) (s : Server) : Server :=
  match err with
  | Some e => on_barriers (sv_barriers s ++ [mkBarrier handle None (Some e) false]) s
  | None =>
      match bd_BeginDurableFlush (sv_dev s) with
      | (d, Ok channel) => on_device d (on_barriers (sv_barriers s ++ [mkBarrier handle (Some channel) None false]) s)
      | (d, Err e) => on_device d (on_barriers (sv_barriers s ++ [mkBarrier handle None (Some (Failed e)) false]) s)
      end
  end.

Definition to_failure (e : option error) : option failure := Failed <$> e.

(** Reads, writes and trims: the outcome and the data to send back. *)
Definition execute_command (h : header) (data : bytes) (d : D) : D * option failure * bytes :=
  if command h =? nbdCmdRead then
    match bd_ReadAt (i64 (h_offset h)) (h_length h) d with (d, Ok response) => (d, None, response) | (d, Err e) => (d, Some (Failed e), []) end
  else if command h =? nbdCmdWrite then
    if readOnly then (d, Some EROFS, [])
    else let '(d, e) := writeChunked (length data) data (i64 (h_offset h)) d in (d, to_failure e, [])
  else if (command h =? nbdCmdTrim) || (command h =? nbdCmdWriteZeroes) then
    if readOnly then (d, Some EROFS, [])
    else let '(d, e) := bd_Trim (i64 (h_offset h)) (h_length h) d in (d, to_failure e, [])
  else (d, Some EINVAL, []).

Definition fua_write (h : header) : bool :=
  ((command h =? nbdCmdWrite) || (command h =? nbdCmdTrim) || (command h =? nbdCmdWriteZeroes)) && fua h.

(** The request is too large or leaves the device. *)
Definition rejected (h : header) (size : Z) : bool :=
  ((command h =? nbdCmdRead) || (command h =? nbdCmdWrite)) && (maxNBDRequest <? h_length h) ||
  (size <? h_offset h) || (size - h_offset h <? h_length h).

(** A request that is in range, with its payload. *)
Definition serve_request (h : header) (data : bytes) (s : Server) : turn :=
  if command h =? nbdCmdFlush then
    if bd_QueuedFlushEnabled (sv_dev s) then Continue (dispatchBarrier (h_handle h) None s)
    else let '(d, e) := bd_Flush (sv_dev s) in reply (h_handle h) (to_failure e) [] (on_device d s)
  else
    let '(d, err, response) := execute_command h data (sv_dev s) in
    let s := on_device d s in
    if fua_write h then
      if bd_QueuedFlushEnabled (sv_dev s) then Continue (dispatchBarrier (h_handle h) err s)
      else
        let '(d, err) := match err with None => let '(d, e) := bd_Flush (sv_dev s) in (d, to_failure e) | Some e => (sv_dev s, Some e) end in
        reply (h_handle h) err [] (on_device d s)
    else reply (h_handle h) err response s.

(** One turn of the loop of [serveNBD]. *)
Definition serve (s : Server) : turn :=
  match read_full headerBytes s with
  | (s, Err e) => Leave (close_conn s) (Some e)
  | (s, Ok b) =>
      let h := parse_header b in
      if negb (h_magic h =? nbdRequestMagic) then Leave (close_conn s) (Some (Errorf "invalid NBD request magic")) else
      if command h =? nbdCmdDisconnect then Leave (close_conn s) None else
      if rejected h (bd_Size (sv_dev s)) then
        if command h =? nbdCmdWrite then
          match read_full (Z.to_nat (h_length h)) s with
          | (s, Err e) => Leave s (Some e)
          | (s, Ok _) => reply (h_handle h) (Some EINVAL) [] s
          end
        else reply (h_handle h) (Some EINVAL) [] s
      else if command h =? nbdCmdWrite then
        match read_full (Z.to_nat (h_length h)) s with
        | (s, Err e) => Leave (close_conn s) (Some e)
        | (s, Ok data) => serve_request h data s
        end
      else serve_request h [] s
  end.

(** A worker whose predecessors are done learns its outcome. *)
Definition finish_barrier (i : nat) (s : Server) : option Server :=
  match sv_barriers s !! i with
  | Some b =>
      if ba_done b || negb (forallb ba_done (take i (sv_barriers s))) then None else
      match ba_channel b with
      | None => Some (on_barriers (<[i := mkBarrier (ba_handle b) None (ba_outcome b) true]> (sv_barriers s)) s)
      | Some channel =>
          match bd_receive channel (sv_dev s) with
          | None => None
          | Some e => Some (on_barriers (<[i := mkBarrier (ba_handle b) (Some channel) (to_failure e) true]> (sv_barriers s)) s)
          end
      end
  | None => None
  end.

(** A worker that is done sends its reply. *)
Definition send_barrier (i : nat) (s : Server) : option Server :=
  match sv_barriers s !! i with
  | Some b =>
      if negb (ba_done b) then None else
      let '(s, _) := sendReply (ba_handle b) (ba_outcome b) [] s in
      Some (on_barriers (take i (sv_barriers s) ++ drop (S i) (sv_barriers s)) s)
  | None => None
  end.

(** The request at the head of the input, and its payload. *)
Definition nbd_request (s : Server) : header * bytes :=
  let h := parse_header (take headerBytes (sv_in s)) in
  (h, if command h =? nbdCmdWrite then take (Z.to_nat (h_length h)) (drop headerBytes (sv_in s)) else []).

(** The steps of the server, with the requests they consume: a turn of the
    loop, a worker, the kernel hanging up, or other goroutines that use the
    device in a way [elsewhere] allows. *)
Inductive nbd_step (elsewhere : relation D) : Server → list (header * bytes) → Server → Prop :=
  | step_serve s s' : serve s = Continue s' → nbd_step elsewhere s [nbd_request s] s'
  | step_finish s i s' : finish_barrier i s = Some s' → nbd_step elsewhere s [] s'
  | step_send s i s' : send_barrier i s = Some s' → nbd_step elsewhere s [] s'
  | step_hangup s : nbd_step elsewhere s [] (close_conn s)
  | step_elsewhere s d : elsewhere (sv_dev s) d → nbd_step elsewhere s [] (on_device d s).

Inductive nbd_steps (elsewhere : relation D) : Server → list (header * bytes) → Server → Prop :=
  | nbd_nil s : nbd_steps elsewhere s [] s
  | nbd_snoc s1 rs1 s2 rs2 s3 :
      nbd_steps elsewhere s1 rs1 s2 → nbd_step elsewhere s2 rs2 s3 → nbd_steps elsewhere s1 (rs1 ++ rs2) s3.
End nbd.
Arguments Server : clear implicits.
Arguments turn : clear implicits.
