(* ===== verification/NbdProps.v ===== *)
(** * The NBD server: what one turn and one worker do

    The server's device refines a plain disk as long as it is healthy; every
    request that is consumed is answered once, and flushes complete in order. *)
From S2P Require Import Prelude Extents Codec File Nbd.
Local Open Scope Z_scope.

(** ** A healthy device *)

(** [bd_disk] are the bytes of the device.  A healthy device does not fail
    inside its bounds; it may fail to flush. *)
Class BlockDeviceLaws (D : Type) `{BlockDevice D} : Type := {
  bd_disk : D → bytes;
  bd_healthy : D → Prop;
  Size_law d : bd_healthy d → bd_Size d = Z.of_nat (length (bd_disk d)) ∧ bd_Size d < 2 ^ 63;
  ReadAt_law d off n : bd_healthy d → 0 ≤ off < bd_Size d → 0 ≤ n → off + n ≤ bd_Size d → ∃ d',
    bd_ReadAt off n d = (d', Ok (take (Z.to_nat n) (drop (Z.to_nat off) (bd_disk d)))) ∧
    bd_healthy d' ∧ bd_disk d' = bd_disk d;
  ReadAt_end d n : bd_healthy d → ∃ d', bd_ReadAt (bd_Size d) n d = (d', Err ErrEOF) ∧ bd_healthy d' ∧ bd_disk d' = bd_disk d;
  WriteAt_law d off data : bd_healthy d → 0 ≤ off → off + Z.of_nat (length data) ≤ bd_Size d → ∃ d',
    bd_WriteAt data off d = (d', None) ∧
    bd_healthy d' ∧ bd_disk d' = write_bytes (bd_disk d) (Z.to_nat off) data;
  Trim_law d off n : bd_healthy d → 0 ≤ off → 0 ≤ n → off + n ≤ bd_Size d → ∃ d',
    bd_Trim off n d = (d', None) ∧
    bd_healthy d' ∧ bd_disk d' = write_bytes (bd_disk d) (Z.to_nat off) (replicate (Z.to_nat n) x00);
  Flush_law d : bd_healthy d → bd_healthy (bd_Flush d).1 ∧ bd_disk (bd_Flush d).1 = bd_disk d;
  BeginDurableFlush_law d : bd_healthy d →
    bd_healthy (bd_BeginDurableFlush d).1 ∧ bd_disk (bd_BeginDurableFlush d).1 = bd_disk d;
}.

(** ** What a disk would do *)

(** The bytes of the disk after a request. *)
Definition disk_after (readOnly : bool) (disk : bytes) (r : header * bytes) : bytes :=
  let '(h, data) := r in
  if rejected h (Z.of_nat (length disk)) || readOnly then disk else
  if command h =? nbdCmdWrite then write_bytes disk (Z.to_nat (h_offset h)) data else
  if (command h =? nbdCmdTrim) || (command h =? nbdCmdWriteZeroes)
  then write_bytes disk (Z.to_nat (h_offset h)) (replicate (Z.to_nat (h_length h)) x00)
  else disk.

(** The reply to a request that is answered in its turn.  A read at the very end
    of the disk, which can only be empty, is an I/O error. *)
Definition direct_reply (readOnly : bool) (disk : bytes) (r : header * bytes) : list bytes :=
  let '(h, data) := r in
  if rejected h (Z.of_nat (length disk)) then [writeReply (h_handle h) 22 []] else
  if (command h =? nbdCmdFlush) || fua_write h then [] else
  if command h =? nbdCmdRead then
    if h_offset h =? Z.of_nat (length disk) then [writeReply (h_handle h) 5 []]
    else [writeReply (h_handle h) 0 (take (Z.to_nat (h_length h)) (drop (Z.to_nat (h_offset h)) disk))]
  else if (command h =? nbdCmdWrite) || (command h =? nbdCmdTrim) || (command h =? nbdCmdWriteZeroes)
  then [writeReply (h_handle h) (if readOnly then 30 else 0) []]
  else [writeReply (h_handle h) 22 []].

Fixpoint disk_run (readOnly : bool) (disk : bytes) (rs : list (header * bytes)) : bytes :=
  match rs with
  | [] => disk
  | r :: rs => disk_run readOnly (disk_after readOnly disk r) rs
  end.

Fixpoint direct_replies (readOnly : bool) (disk : bytes) (rs : list (header * bytes)) : list bytes :=
  match rs with
  | [] => []
  | r :: rs => direct_reply readOnly disk r ++ direct_replies readOnly (disk_after readOnly disk r) rs
  end.

Lemma disk_run_snoc readOnly disk rs r :
  disk_run readOnly disk (rs ++ [r]) = disk_after readOnly (disk_run readOnly disk rs) r.
Proof. revert disk. by induction rs as [|r' rs IH]; intros disk; [|cbn [app disk_run]; rewrite IH]. Qed.

Lemma direct_replies_snoc readOnly disk rs r :
  direct_replies readOnly disk (rs ++ [r]) = direct_replies readOnly disk rs ++ direct_reply readOnly (disk_run readOnly disk rs) r.
Proof.
  revert disk. induction rs as [|r' rs IH]; intros disk; cbn [app direct_replies disk_run].
  - by rewrite app_nil_r.
  - by rewrite IH, app_assoc.
Qed.

(** ** Turns and workers *)

Section turns.
Context {D : Type} `{BlockDevice D} (as_errno : error → option Z) (readOnly : bool).
Implicit Types s : Server D.

(** [s'] is [s] after a reply to [handle]. *)
Definition replied (handle : bytes) (err : option failure) (data : bytes) s s' : Prop :=
  sv_out s' = sv_out s ++ [writeReply handle (errno as_errno err) data] ∧ sv_barriers s' = sv_barriers s.

(** [s'] is [s] after a barrier for [handle] was dispatched. *)
Definition queued (handle : bytes) s s' : Prop :=
  sv_out s' = sv_out s ∧ ∃ b, sv_barriers s' = sv_barriers s ++ [b] ∧ ba_handle b = handle ∧ ba_done b = false.

Lemma reply_continue handle err data s s' :
  reply as_errno handle err data s = Continue s' →
  sv_open s = true ∧ sv_open s' = true ∧ sv_dev s' = sv_dev s ∧ sv_in s' = sv_in s ∧ replied handle err data s s'.
Proof.
  unfold reply, sendReply. destruct (sv_open s) eqn:Hopen; [|done]. intros Heq.
  assert (s' = mkServer (sv_in s) (sv_dev s) (sv_out s ++ [writeReply handle (errno as_errno err) data]) (sv_barriers s) true) as -> by congruence.
  done.
Qed.

Lemma dispatch_queued handle err s : queued handle s (dispatchBarrier handle err s).
Proof.
  unfold dispatchBarrier, queued. destruct err; [by eauto|].
  destruct (bd_BeginDurableFlush (sv_dev s)) as [d [c|e]]; by eauto.
Qed.

Lemma dispatch_frame handle err s :
  sv_open (dispatchBarrier handle err s) = sv_open s ∧ sv_in (dispatchBarrier handle err s) = sv_in s ∧
  sv_dev (dispatchBarrier handle err s) = match err with None => (bd_BeginDurableFlush (sv_dev s)).1 | Some _ => sv_dev s end.
Proof.
  unfold dispatchBarrier. destruct err; [done|]. by destruct (bd_BeginDurableFlush (sv_dev s)) as [d [c|e]].
Qed.

Lemma read_full_ok n s s' b :
  read_full n s = (s', Ok b) → sv_open s = true ∧ (n ≤ length (sv_in s))%nat ∧ b = take n (sv_in s) ∧ s' = on_input (drop n (sv_in s)) s.
Proof.
  unfold read_full. destruct (sv_open s); cbn [negb]; [|done].
  destruct (length (sv_in s) <? n)%nat eqn:Hn; [done|]. apply Nat.ltb_ge in Hn. intros Heq. split_and!; [done|lia|congruence..].
Qed.

(** A turn that goes on has read a request, refused it or served it. *)
Lemma serve_continue s s' :
  serve as_errno readOnly s = Continue s' → let '(h, data) := nbd_request s in
  (headerBytes ≤ length (sv_in s))%nat ∧ ∃ rest,
    if rejected h (bd_Size (sv_dev s))
    then reply as_errno (h_handle h) (Some EINVAL) [] (on_input rest s) = Continue s'
    else serve_request as_errno readOnly h data (on_input rest s) = Continue s' ∧
         (command h = nbdCmdWrite → Z.of_nat (length data) = h_length h).
Proof.
  unfold serve, nbd_request. destruct (read_full headerBytes s) as [s1 [b|e]] eqn:Hr; [|done].
  apply read_full_ok in Hr as (Hopen & Hlen & -> & ->).
  set (h := parse_header _). change (sv_dev (on_input (drop headerBytes (sv_in s)) s)) with (sv_dev s).
  destruct (negb _); [done|]. destruct (command h =? nbdCmdDisconnect); [done|].
  destruct (rejected h _) eqn:Hrej; destruct (command h =? nbdCmdWrite) eqn:Hw.
  - destruct (read_full _ _) as [s2 [b|e]] eqn:Hr; [|done].
    apply read_full_ok in Hr as (_ & Hl & -> & ->). intros. split; [done|]. by eexists (drop _ _).
  - intros. split; [done|]. by eexists (drop _ _).
  - destruct (read_full _ _) as [s2 [b|e]] eqn:Hr; [|done].
    apply read_full_ok in Hr as (_ & Hl & -> & ->). intros. split; [done|]. eexists (drop _ _). split; [done|].
    intros _. rewrite length_take. cbn [sv_in on_input] in *.
    assert (0 ≤ h_length h) by apply be_decode_range. lia.
  - intros. split; [done|]. exists (drop headerBytes (sv_in s)). split; [done|]. apply Z.eqb_neq in Hw. done.
Qed.
End turns.

(** ** Serving from a healthy device *)

Lemma write_bytes_app c off a b :
  (off + length (a ++ b) ≤ length c)%nat →
  write_bytes (write_bytes c off a) (off + length a) b = write_bytes c off (a ++ b).
Proof.
  rewrite length_app. intros. rewrite !(write_bytes_in_range c) by (rewrite ?length_app; lia).
  rewrite write_bytes_in_range by (rewrite !length_app, length_take, length_drop; lia).
  assert (length (take off c) = off) as Ht by (rewrite length_take; lia).
  rewrite (app_assoc (take off c)), take_app_length' by (rewrite length_app; lia).
  rewrite drop_app_ge by (rewrite length_app; lia). rewrite drop_drop, !length_app, <-!app_assoc.
  do 4 f_equal. lia.
Qed.

Section healthy.
Context {D : Type} `{BlockDeviceLaws D} (as_errno : error → option Z) (readOnly : bool).
Implicit Types s : Server D.

Lemma disk_size d : bd_healthy d → Z.of_nat (length (bd_disk d)) = bd_Size d.
Proof. intros [-> _]%Size_law. done. Qed.

(** Writing in chunks writes it all. *)
Lemma writeChunked_spec fuel data off d :
  bd_healthy d → 0 ≤ off → off + Z.of_nat (length data) ≤ bd_Size d → (length data ≤ fuel)%nat → ∃ d',
    writeChunked fuel data off d = (d', None) ∧ bd_healthy d' ∧ bd_disk d' = write_bytes (bd_disk d) (Z.to_nat off) data.
Proof.
  revert data off d. induction fuel as [|fuel IH]; intros data off d Hd Hoff Hle Hfuel; pose proof (disk_size d Hd) as Hsize.
  all: destruct data as [|x data]; cbn [length] in *.
  1,3: exists d; rewrite write_bytes_in_range by (cbn [length]; lia); cbn [app length writeChunked];
    rewrite Nat.add_0_r, take_drop; done.
  - lia.
  - set (all := x :: data) in *. cbn [writeChunked]. fold all. set (n := Nat.min _ _).
    change (S (length data)) with (length all) in *. assert (1 ≤ length all)%nat as Hall by (unfold all; cbn [length]; lia).
    assert (1 ≤ n ≤ length all)%nat as Hn. { assert (1 ≤ Z.to_nat writeChunk)%nat by (change writeChunk with 4194304; lia). unfold n. lia. }
    destruct (WriteAt_law d off (take n all) Hd Hoff) as (d1 & -> & Hd1 & Hdisk1); [rewrite length_take; lia|].
    assert (length (bd_disk d1) = length (bd_disk d)) as Hlen1
      by (rewrite Hdisk1; apply write_bytes_length; rewrite length_take; lia).
    pose proof (disk_size d1 Hd1).
    destruct (IH (drop n all) (off + Z.of_nat n) d1) as (d2 & -> & Hd2 & Hdisk2); [done|lia|rewrite length_drop; lia..|].
    exists d2. split_and!; [done..|]. rewrite Hdisk2, Hdisk1.
    replace (Z.to_nat (off + Z.of_nat n)) with (Z.to_nat off + length (take n all))%nat by (rewrite length_take; lia).
    rewrite write_bytes_app by (rewrite take_drop; lia). by rewrite take_drop.
Qed.

Lemma header_nonneg b : 0 ≤ h_offset (parse_header b) ∧ 0 ≤ h_length (parse_header b).
Proof. split; apply be_decode_range. Qed.

(** The outcome of a read, write or trim, as a disk decides it. *)
Definition expected_outcome (h : header) (disk : bytes) : option failure * bytes :=
  if command h =? nbdCmdRead then
    if h_offset h =? Z.of_nat (length disk) then (Some (Failed ErrEOF), [])
    else (None, take (Z.to_nat (h_length h)) (drop (Z.to_nat (h_offset h)) disk))
  else if (command h =? nbdCmdWrite) || (command h =? nbdCmdTrim) || (command h =? nbdCmdWriteZeroes)
  then (if readOnly then Some EROFS else None, []) else (Some EINVAL, []).

Lemma execute_command_spec h data d :
  bd_healthy d → rejected h (bd_Size d) = false → 0 ≤ h_offset h → 0 ≤ h_length h →
  (command h = nbdCmdWrite → Z.of_nat (length data) = h_length h) → ∃ d',
    execute_command readOnly h data d = (d', (expected_outcome h (bd_disk d)).1, (expected_outcome h (bd_disk d)).2) ∧
    bd_healthy d' ∧ bd_disk d' = disk_after readOnly (bd_disk d) (h, data).
Proof.
  intros Hd Hrej Hoff Hlen Hdata. destruct (Size_law d Hd) as [_ Hmax]. pose proof (disk_size d Hd) as Hsize.
  unfold execute_command, expected_outcome, disk_after. rewrite Hsize, Hrej. cbn [orb].
  unfold rejected in Hrej. apply orb_false_iff in Hrej as [[_ Hr1]%orb_false_iff Hr2]. zbool.
  rewrite i64_small by (unfold is_i64; lia).
  destruct (command h =? nbdCmdRead) eqn:Hc.
  { apply Z.eqb_eq in Hc. destruct (h_offset h =? bd_Size d) eqn:Hend; zbool.
    - rewrite Hend. destruct (ReadAt_end d (h_length h) Hd) as (d' & -> & Hd' & Hdisk'). exists d'. rewrite Hdisk', Hc. by destruct readOnly.
    - destruct (ReadAt_law d (h_offset h) (h_length h)) as (d' & -> & Hd' & Hdisk'); [done|lia..|].
      exists d'. rewrite Hdisk', Hc. by destruct readOnly. }
  destruct (command h =? nbdCmdWrite) eqn:Hw; cbn [orb].
  { apply Z.eqb_eq in Hw. destruct readOnly; [by eauto|].
    destruct (writeChunked_spec (length data) data (h_offset h) d) as (d' & -> & Hd' & Hdisk'); [done|lia|rewrite Hdata by done; lia|done|].
    exists d'. done. }
  destruct ((command h =? nbdCmdTrim) || (command h =? nbdCmdWriteZeroes)) eqn:Ht; [|destruct readOnly; by eauto].
  destruct readOnly; [by eauto|].
  destruct (Trim_law d (h_offset h) (h_length h)) as (d' & -> & Hd' & Hdisk'); [done|lia..|]. exists d'. done.
Qed.
End healthy.
