(* ===== verification/NbdTheorems.v ===== *)
(** * The NBD server: theorems *)
From S2P Require Import Prelude Extents Codec File Nbd NbdProps.
Local Open Scope Z_scope.

(** ** Every request is answered once *)

Section answers.
Context {D : Type} `{BlockDevice D} (as_errno : error → option Z) (readOnly : bool) (elsewhere : relation D).
Implicit Types s : Server D.

Lemma serve_request_answers h data s s' :
  serve_request as_errno readOnly h data s = Continue s' →
  sv_open s' = sv_open s ∧ ((∃ err response, replied as_errno (h_handle h) err response s s') ∨ queued (h_handle h) s s').
Proof.
  unfold serve_request. destruct (command h =? nbdCmdFlush).
  { destruct (bd_QueuedFlushEnabled (sv_dev s)).
    - intros Heq. assert (s' = dispatchBarrier (h_handle h) None s) as -> by congruence.
      split; [apply dispatch_frame|right; apply dispatch_queued].
    - destruct (bd_Flush (sv_dev s)) as [d e]. intros (Ho & Ho' & _ & _ & Hr)%reply_continue.
      change (sv_open s = true) in Ho. split; [congruence|left; by eauto]. }
  destruct (execute_command readOnly h data (sv_dev s)) as [[d err] response].
  destruct (fua_write h); [destruct (bd_QueuedFlushEnabled _)|].
  - intros Heq. assert (s' = dispatchBarrier (h_handle h) err (on_device d s)) as -> by congruence.
    split; [apply (dispatch_frame _ err (on_device d s))|right; apply (dispatch_queued _ err (on_device d s))].
  - destruct (match err with None => _ | Some _ => _ end) as [d' err'].
    intros (Ho & Ho' & _ & _ & Hr)%reply_continue. change (sv_open s = true) in Ho. split; [congruence|left; by eauto].
  - intros (Ho & Ho' & _ & _ & Hr)%reply_continue. change (sv_open s = true) in Ho. split; [congruence|left; by eauto].
Qed.

Lemma serve_answers s s' :
  serve as_errno readOnly s = Continue s' →
  (headerBytes ≤ length (sv_in s))%nat ∧
  ((∃ err response, replied as_errno (h_handle (nbd_request s).1) err response s s') ∨ queued (h_handle (nbd_request s).1) s s').
Proof.
  intros Hs%serve_continue. destruct (nbd_request s) as [h data]. destruct Hs as (Hlen & rest & Hs). split; [done|].
  destruct (rejected h _).
  - apply reply_continue in Hs as (_ & _ & _ & _ & Hr). left. by eauto.
  - destruct Hs as [Hs _]. by apply serve_request_answers in Hs as [_ Hs].
Qed.

(** The handle a reply carries. *)
Definition reply_handle (r : bytes) : bytes := take 8 (drop 8 r).

Lemma reply_handle_writeReply handle e data : length handle = 8%nat → reply_handle (writeReply handle e data) = handle.
Proof.
  intros Hl. unfold reply_handle, writeReply. rewrite app_assoc, drop_app_length' by (rewrite length_app, !be_encode_length; done).
  by rewrite take_app_length'.
Qed.

(** The handles that were answered, and those a worker still has to answer. *)
Definition answered s : list bytes := (reply_handle <$> sv_out s) ++ (ba_handle <$> sv_barriers s).

Definition handles_ok s : Prop := Forall (fun b => length (ba_handle b) = 8%nat) (sv_barriers s).

Lemma request_handle s : (headerBytes ≤ length (sv_in s))%nat → length (h_handle (nbd_request s).1) = 8%nat.
Proof.
  intros Hl. cbn [nbd_request fst parse_header h_handle]. rewrite length_take, length_drop, length_take.
  unfold headerBytes in *. lia.
Qed.

Lemma serve_answered s s' :
  handles_ok s → serve as_errno readOnly s = Continue s' →
  handles_ok s' ∧ answered s' ≡ₚ answered s ++ [h_handle (nbd_request s).1].
Proof.
  intros Hok [Hlen Ha]%serve_answers. apply request_handle in Hlen. unfold answered, handles_ok.
  destruct Ha as [(err & response & -> & ->)|(-> & b & -> & Hb & _)].
  - split; [done|]. rewrite fmap_app. cbn [fmap list_fmap]. rewrite reply_handle_writeReply by done.
    rewrite <-!app_assoc. apply Permutation_app_head, Permutation_app_comm.
  - split; [apply Forall_app; split; [done|by apply Forall_singleton; rewrite Hb]|]. rewrite fmap_app, app_assoc, <-Hb. done.
Qed.

Lemma finish_barrier_spec i s s' :
  finish_barrier i s = Some s' → ∃ b b', sv_barriers s !! i = Some b ∧ forallb ba_done (take i (sv_barriers s)) = true ∧
    ba_handle b' = ba_handle b ∧ ba_done b' = true ∧ s' = on_barriers (<[i := b']> (sv_barriers s)) s.
Proof.
  unfold finish_barrier. destruct (sv_barriers s !! i) as [b|]; [|done].
  destruct (ba_done b || negb _) eqn:Hd; [done|]. apply orb_false_iff in Hd as [_ Hd%negb_false_iff].
  destruct (ba_channel b) as [c|].
  - destruct (bd_receive c (sv_dev s)) as [e|]; [|done]. intros [= <-].
    exists b, (mkBarrier (ba_handle b) (Some c) (to_failure e) true). done.
  - intros [= <-]. exists b, (mkBarrier (ba_handle b) None (ba_outcome b) true). done.
Qed.

Lemma send_barrier_spec i s s' :
  send_barrier as_errno i s = Some s' → ∃ b, sv_barriers s !! i = Some b ∧ ba_done b = true ∧
    sv_barriers s' = take i (sv_barriers s) ++ drop (S i) (sv_barriers s) ∧ sv_dev s' = sv_dev s ∧ sv_open s' = sv_open s ∧
    sv_out s' = if sv_open s then sv_out s ++ [writeReply (ba_handle b) (errno as_errno (ba_outcome b)) []] else sv_out s.
Proof.
  unfold send_barrier. destruct (sv_barriers s !! i) as [b|]; [|done]. destruct (ba_done b) eqn:Hd; [|done]. cbn [negb].
  unfold sendReply. destruct (sv_open s) eqn:Ho; intros [= <-]; exists b; split_and!; done.
Qed.

Lemma finish_answered i s s' : handles_ok s → finish_barrier i s = Some s' → handles_ok s' ∧ answered s' = answered s.
Proof.
  intros Hok (b & b' & Hi & _ & Hb & _ & ->)%finish_barrier_spec. unfold handles_ok, answered. cbn [sv_barriers on_barriers sv_out].
  split.
  - apply Forall_insert; [done|]. rewrite Hb. by eapply (Forall_lookup_1 _ _ _ _ Hok).
  - by rewrite list_fmap_insert, Hb, list_insert_id by (by rewrite list_lookup_fmap, Hi).
Qed.

Lemma send_answered i s s' :
  handles_ok s → send_barrier as_errno i s = Some s' →
  handles_ok s' ∧ sv_open s' = sv_open s ∧ if sv_open s then answered s' ≡ₚ answered s else answered s' ⊆+ answered s.
Proof.
  intros Hok (b & Hi & _ & Hbs & _ & Ho & Hout)%send_barrier_spec. unfold handles_ok, answered in *. rewrite Hbs, Hout.
  assert (length (ba_handle b) = 8%nat) as Hb by (by eapply (Forall_lookup_1 _ _ _ _ Hok)).
  rewrite <-(take_drop_middle _ _ _ Hi) in Hok at 1. apply Forall_app in Hok as [Hok1 [_ Hok2]%Forall_cons].
  assert (ba_handle <$> sv_barriers s = (ba_handle <$> take i (sv_barriers s)) ++ ba_handle b :: (ba_handle <$> drop (S i) (sv_barriers s))) as ->
    by (rewrite <-(take_drop_middle _ _ _ Hi) at 1; by rewrite fmap_app).
  rewrite !(fmap_app ba_handle). split_and!; [by apply Forall_app|done|].
  destruct (sv_open s).
  - rewrite fmap_app. cbn [fmap list_fmap]. rewrite reply_handle_writeReply by done.
    rewrite <-app_assoc. apply Permutation_app_head. cbn [app]. by apply Permutation_middle.
  - apply submseteq_app; [done|]. apply submseteq_app; [done|]. by apply submseteq_cons.
Qed.

Lemma step_answered s rs s' :
  handles_ok s → nbd_step as_errno readOnly elsewhere s rs s' →
  handles_ok s' ∧ answered s' ⊆+ answered s ++ (h_handle ∘ fst <$> rs) ∧
  (sv_open s' = true → sv_open s = true ∧ answered s' ≡ₚ answered s ++ (h_handle ∘ fst <$> rs)).
Proof.
  intros Hok Hs. inversion Hs as [? ? Hserve|? i ? Hf|? i ? Hf|?|? d Hd]; subst; cbn [fmap list_fmap]; rewrite ?app_nil_r.
  - assert (sv_open s = true) as Ho.
    { unfold serve, read_full in Hserve. by destruct (sv_open s). }
    destruct (serve_answered s s' Hok Hserve) as [Hok' ->]. done.
  - destruct (finish_answered i s s' Hok Hf) as [Hok' ->]. apply finish_barrier_spec in Hf as (b & b' & _ & _ & _ & _ & ->). done.
  - destruct (send_answered i s s' Hok Hf) as (Hok' & Ho & Ha). split; [done|]. rewrite Ho. destruct (sv_open s).
    + split; [by rewrite Ha|done].
    + split; [done|discriminate].
  - done.
  - done.
Qed.

(** The input starts with a whole request that is not a disconnect. *)
Definition whole_request s : Prop :=
  (headerBytes ≤ length (sv_in s))%nat ∧ let h := (nbd_request s).1 in
  h_magic h = nbdRequestMagic ∧ command h ≠ nbdCmdDisconnect ∧
  (command h = nbdCmdWrite → (headerBytes + Z.to_nat (h_length h) ≤ length (sv_in s))%nat).

Lemma reply_open handle err data s : sv_open s = true → ∃ s', reply as_errno handle err data s = Continue s'.
Proof. unfold reply, sendReply. intros ->. by eexists. Qed.

Lemma read_full_enough n s :
  sv_open s = true → (n ≤ length (sv_in s))%nat → read_full n s = (on_input (drop n (sv_in s)) s, Ok (take n (sv_in s))).
Proof. intros Ho Hn. unfold read_full. rewrite Ho. cbn [negb]. apply Nat.ltb_ge in Hn. by rewrite Hn. Qed.

Lemma serve_request_progress h data s : sv_open s = true → ∃ s', serve_request as_errno readOnly h data s = Continue s'.
Proof.
  intros Ho. unfold serve_request. destruct (command h =? nbdCmdFlush).
  { destruct (bd_QueuedFlushEnabled _); [by eexists|]. destruct (bd_Flush _) as [d e]. by apply reply_open. }
  destruct (execute_command _ _ _ _) as [[d err] response].
  destruct (fua_write h); [|by apply reply_open]. destruct (bd_QueuedFlushEnabled _); [by eexists|].
  destruct (match err with None => _ | Some _ => _ end) as [d' err']. by apply reply_open.
Qed.

Lemma serve_progress s : sv_open s = true → whole_request s → ∃ s', serve as_errno readOnly s = Continue s'.
Proof.
  intros Ho (Hlen & Hmagic & Hcmd & Hpay). unfold serve. rewrite read_full_enough by done.
  set (h := parse_header _). change ((nbd_request s).1) with h in *. cbn zeta.
  rewrite Hmagic, Z.eqb_refl. cbn [negb]. rewrite (proj2 (Z.eqb_neq _ _) Hcmd).
  assert (command h =? nbdCmdWrite = true → read_full (Z.to_nat (h_length h)) (on_input (drop headerBytes (sv_in s)) s) =
    (on_input (drop (Z.to_nat (h_length h)) (drop headerBytes (sv_in s))) s, Ok (take (Z.to_nat (h_length h)) (drop headerBytes (sv_in s))))) as Hread.
  { intros Hw%Z.eqb_eq%Hpay. rewrite read_full_enough; [done..|]. cbn [sv_in on_input]. rewrite length_drop. lia. }
  destruct (rejected h _); destruct (command h =? nbdCmdWrite); rewrite ?Hread by done.
  1,2: by apply reply_open.
  all: by apply serve_request_progress.
Qed.

(** C30: however the loop, the workers that wait for flushes and the kernel
    interleave, no request is answered twice and no reply is invented: the
    handles of the replies written, with those of the flushes still under way,
    are among the handles of the requests consumed; and while the connection is
    open each request consumed has been answered, or has a worker that will, and
    the loop takes the next request whenever a whole one has come in. *)
Theorem nbd_answers_once s0 rs s :
  sv_out s0 = [] → sv_barriers s0 = [] →
  nbd_steps as_errno readOnly elsewhere s0 rs s →
  answered s ⊆+ (h_handle ∘ fst <$> rs) ∧
  (sv_open s = true → answered s ≡ₚ (h_handle ∘ fst <$> rs)) ∧
  (sv_open s = true → whole_request s → ∃ s', serve as_errno readOnly s = Continue s').
Proof.
  intros Hout Hbs Hs. enough (handles_ok s ∧ answered s ⊆+ (h_handle ∘ fst <$> rs) ∧
    (sv_open s = true → answered s ≡ₚ (h_handle ∘ fst <$> rs)))
    by (pose proof (serve_progress s); tauto).
  induction Hs as [s|s1 rs1 s2 rs2 s3 Hs IH Hstep].
  - unfold handles_ok, answered. rewrite Hout, Hbs. done.
  - destruct (IH Hout Hbs) as (Hok & Hsub & Heq). destruct (step_answered _ _ _ Hok Hstep) as (Hok' & Hsub' & Heq').
    rewrite fmap_app. split_and!; [done| |].
    + etrans; [done|]. by apply submseteq_app.
    + intros [Ho ->]%Heq'. by rewrite Heq.
Qed.
End answers.

(** ** Flushes complete in order *)

Section order.
Context {D : Type} `{BlockDevice D} (as_errno : error → option Z) (readOnly : bool) (elsewhere : relation D).
Implicit Types s : Server D.

(** A flush has its outcome only when those before it have theirs. *)
Definition in_order (bs : list barrier) : Prop :=
  ∀ i j b b', (i < j)%nat → bs !! i = Some b → bs !! j = Some b' → ba_done b' = true → ba_done b = true.

Lemma in_order_snoc bs b : in_order bs → ba_done b = false → in_order (bs ++ [b]).
Proof.
  intros Hbs Hb i j b1 b2 Hij Hi Hj Hd. apply lookup_snoc_Some in Hj as [[Hj Hj']|[_ ->]]; [|congruence].
  rewrite lookup_app_l in Hi by lia. exact (Hbs _ _ _ _ Hij Hi Hj' Hd).
Qed.

Lemma in_order_insert i bs b :
  in_order bs → forallb ba_done (take i bs) = true → ba_done b = true → in_order (<[i := b]> bs).
Proof.
  intros Hbs Hall Hb j k b1 b2 Hjk Hj Hk Hd. apply Is_true_true_2, forallb_True in Hall.
  destruct (decide (i = j)) as [<-|Hij].
  { assert (i < length bs)%nat. { apply lookup_lt_Some in Hj. by rewrite length_insert in Hj. }
    rewrite list_lookup_insert_eq in Hj by done. congruence. }
  rewrite list_lookup_insert_ne in Hj by done. destruct (decide (i = k)) as [<-|Hik].
  - apply Is_true_true_1. apply (Forall_lookup_1 _ _ j _ Hall). by rewrite lookup_take_lt.
  - rewrite list_lookup_insert_ne in Hk by done. exact (Hbs _ _ _ _ Hjk Hj Hk Hd).
Qed.

Lemma in_order_delete i bs : in_order bs → in_order (take i bs ++ drop (S i) bs).
Proof.
  intros Hbs j k b1 b2 Hjk Hj Hk Hd. rewrite <-delete_take_drop in Hj, Hk.
  destruct (decide (j < i)%nat); [rewrite list_lookup_delete_lt in Hj by done|rewrite list_lookup_delete_ge in Hj by lia].
  all: destruct (decide (k < i)%nat); [rewrite list_lookup_delete_lt in Hk by done|rewrite list_lookup_delete_ge in Hk by lia].
  all: eapply Hbs; [|exact Hj|exact Hk|exact Hd]; lia.
Qed.

(** Flushes are acknowledged in order: whatever the interleaving of the
    workers, the flushes under way are in the order their requests came in, and
    one of them has its outcome, and so may be acknowledged, only when every
    flush before it has. *)
Theorem nbd_flushes_in_order s0 rs s :
  sv_barriers s0 = [] → nbd_steps as_errno readOnly elsewhere s0 rs s →
  in_order (sv_barriers s) ∧ (ba_handle <$> sv_barriers s) `sublist_of` (h_handle ∘ fst <$> rs).
Proof.
  intros Hbs Hs. induction Hs as [s|s1 rs1 s2 rs2 s3 Hs IH Hstep].
  { rewrite Hbs. split; [|done]. intros i j b b' _ Hi. by rewrite lookup_nil in Hi. }
  destruct (IH Hbs) as [Ho Hsub]. rewrite fmap_app.
  inversion Hstep as [? ? Hserve|? i ? Hf|? i ? Hf|?|? d Hd]; subst; cbn [fmap list_fmap]; rewrite ?app_nil_r.
  - apply serve_answers in Hserve as [_ [(err & response & _ & ->)|(_ & b & -> & Hb & Hdone)]].
    + split; [done|]. by apply sublist_inserts_r.
    + split; [by apply in_order_snoc|]. rewrite fmap_app. apply sublist_app; [done|]. cbn [fmap list_fmap]. by rewrite Hb.
  - apply finish_barrier_spec in Hf as (b & b' & Hi & Hall & Hb & Hdone & ->). cbn [sv_barriers on_barriers].
    split; [by apply in_order_insert|]. by rewrite list_fmap_insert, Hb, list_insert_id by (by rewrite list_lookup_fmap, Hi).
  - apply send_barrier_spec in Hf as (b & Hi & _ & -> & _). split; [by apply in_order_delete|].
    etrans; [|done]. rewrite <-delete_take_drop, list_fmap_delete. apply sublist_delete.
  - done.
  - done.
Qed.
End order.

(** ** The server is a disk *)

Section refinement.
Context {D : Type} `{BlockDeviceLaws D} (as_errno : error → option Z) (readOnly : bool) (elsewhere : relation D).
(** [io.EOF] is no [syscall.Errno]. *)
Context (Heof : as_errno ErrEOF = None).
Implicit Types s : Server D.

(** [s'] is [s] after the request [r]. *)
Definition disk_turn (r : header * bytes) s s' : Prop :=
  bd_healthy (sv_dev s') ∧ bd_disk (sv_dev s') = disk_after readOnly (bd_disk (sv_dev s)) r ∧
  ∃ more, sv_out s' = sv_out s ++ more ∧ direct_reply readOnly (bd_disk (sv_dev s)) r `sublist_of` more.

Lemma dispatch_disk handle err s :
  bd_healthy (sv_dev s) →
  bd_healthy (sv_dev (dispatchBarrier handle err s)) ∧ bd_disk (sv_dev (dispatchBarrier handle err s)) = bd_disk (sv_dev s) ∧
  sv_out (dispatchBarrier handle err s) = sv_out s.
Proof.
  intros Hd. destruct (dispatch_frame handle err s) as (_ & _ & ->). destruct (dispatch_queued handle err s) as (-> & _).
  destruct err; [done|]. by apply BeginDurableFlush_law in Hd as [? ->].
Qed.

Lemma serve_request_refines h data s s' :
  bd_healthy (sv_dev s) → rejected h (bd_Size (sv_dev s)) = false → 0 ≤ h_offset h → 0 ≤ h_length h →
  (command h = nbdCmdWrite → Z.of_nat (length data) = h_length h) →
  serve_request as_errno readOnly h data s = Continue s' → disk_turn (h, data) s s'.
Proof.
  intros Hd Hrej Hoff Hlen Hdata. pose proof (disk_size _ Hd) as Hsize. unfold serve_request, disk_turn, direct_reply.
  rewrite Hsize, Hrej. destruct (command h =? nbdCmdFlush) eqn:Hf.
  { apply Z.eqb_eq in Hf. assert (disk_after readOnly (bd_disk (sv_dev s)) (h, data) = bd_disk (sv_dev s)) as ->
      by (unfold disk_after; rewrite Hf; by destruct (rejected _ _ || readOnly)).
    destruct (bd_QueuedFlushEnabled (sv_dev s)).
    - intros Heq. assert (s' = dispatchBarrier (h_handle h) None s) as -> by congruence.
      destruct (dispatch_disk (h_handle h) None s Hd) as (? & -> & ->). split_and!; [done..|]. exists []. by rewrite app_nil_r.
    - apply Flush_law in Hd. destruct (bd_Flush (sv_dev s)) as [d e]. destruct Hd as [Hd' Hdisk].
      intros (_ & _ & -> & _ & -> & _)%reply_continue. split_and!; [done..|]. eexists. split; [done|]. apply sublist_nil_l. }
  destruct (execute_command_spec readOnly h data (sv_dev s)) as (d & -> & Hd' & Hdisk); [done..|].
  unfold expected_outcome. cbn [orb]. destruct (fua_write h) eqn:Hfua.
  - set (err := fst _). destruct (bd_QueuedFlushEnabled _).
    + intros Heq. assert (s' = dispatchBarrier (h_handle h) err (on_device d s)) as -> by congruence.
      destruct (dispatch_disk (h_handle h) err (on_device d s) Hd') as (? & -> & ->). split_and!; [done..|].
      exists []. by rewrite app_nil_r.
    + intros Heq. assert (∃ d' err', (match err with None => let '(d, e) := bd_Flush d in (d, to_failure e) | Some e => (d, Some e) end) = (d', err') ∧
        bd_healthy d' ∧ bd_disk d' = bd_disk d) as (d' & err' & He & Hd2 & Hdisk2).
      { destruct err; [by eauto|]. pose proof (Flush_law d Hd') as Hfl. destruct (bd_Flush d) as [d2 e2]. by eauto. }
      cbn [sv_dev on_device] in Heq. rewrite He in Heq.
      apply reply_continue in Heq as (_ & _ & -> & _ & -> & _). cbn [sv_dev on_device sv_out]. rewrite Hdisk2.
      split_and!; [done..|]. eexists. split; [done|]. apply sublist_nil_l.
  - intros (_ & _ & -> & _ & -> & _)%reply_continue. cbn [sv_dev on_device sv_out]. split_and!; [done..|].
    eexists. split; [done|]. destruct (command h =? nbdCmdRead).
    { rewrite Hsize. case_match; [|done]. cbn [fst snd errno]. by rewrite Heof. }
    destruct (_ || _); [by destruct readOnly|done].
Qed.

Lemma serve_refines s s' :
  bd_healthy (sv_dev s) → serve as_errno readOnly s = Continue s' → disk_turn (nbd_request s) s s'.
Proof.
  intros Hd Hs%serve_continue. assert (0 ≤ h_offset (nbd_request s).1 ∧ 0 ≤ h_length (nbd_request s).1) as [Hoff Hlen] by apply header_nonneg.
  destruct (nbd_request s) as [h data]. destruct Hs as (_ & rest & Hs). destruct (rejected h (bd_Size (sv_dev s))) eqn:Hrej.
  - apply reply_continue in Hs as (_ & _ & Hdev & _ & Hout & _). unfold disk_turn, disk_after, direct_reply.
    rewrite Hdev, Hout. cbn [on_input sv_dev sv_out]. rewrite disk_size, Hrej by done. split_and!; [done..|]. by eexists.
  - destruct Hs as [Hs Hdata]. by apply (serve_request_refines h data (on_input rest s)).
Qed.

(** The other goroutines that use the device leave its bytes alone. *)
Definition keeps_disk : Prop := ∀ d d', elsewhere d d' → bd_healthy d → bd_healthy d' ∧ bd_disk d' = bd_disk d.

(** Over a healthy device the server is the disk the kernel takes it for.
    After any requests, in any interleaving with the flush workers and the other
    users of the device, the bytes of the device are those a disk would hold
    after the same requests in the order they came in (on a read-only server,
    those it started with), and the replies a disk would send to the reads,
    writes and trims, and to the requests that are out of range, too large or
    unknown, stand among the replies in that order: a read carries exactly the
    bytes of the writes and trims before it. *)
Theorem nbd_refines_disk s0 rs s :
  keeps_disk → bd_healthy (sv_dev s0) → sv_out s0 = [] → nbd_steps as_errno readOnly elsewhere s0 rs s →
  bd_disk (sv_dev s) = disk_run readOnly (bd_disk (sv_dev s0)) rs ∧
  direct_replies readOnly (bd_disk (sv_dev s0)) rs `sublist_of` sv_out s.
Proof.
  intros Hkeeps Hd0 Hout Hs. enough (bd_healthy (sv_dev s) ∧ bd_disk (sv_dev s) = disk_run readOnly (bd_disk (sv_dev s0)) rs ∧
    direct_replies readOnly (bd_disk (sv_dev s0)) rs `sublist_of` sv_out s) by tauto.
  induction Hs as [s|s1 rs1 s2 rs2 s3 Hs IH Hstep]; [by rewrite Hout|].
  destruct (IH Hd0 Hout) as (Hd & Hdisk & Hsub).
  inversion Hstep as [? ? Hserve|? i ? Hf|? i ? Hf|?|? d Hels]; subst; rewrite ?app_nil_r.
  - apply serve_refines in Hserve as (Hd' & Hdisk' & more & -> & Hmore); [|done].
    rewrite disk_run_snoc, direct_replies_snoc, <-Hdisk. split_and!; [done..|]. by apply sublist_app.
  - by apply finish_barrier_spec in Hf as (b & b' & _ & _ & _ & _ & ->).
  - apply send_barrier_spec in Hf as (b & _ & _ & _ & -> & _ & ->). split_and!; [done..|].
    destruct (sv_open s2); [by apply sublist_inserts_r|done].
  - done.
  - cbn [sv_dev on_device sv_out]. destruct (Hkeeps _ _ Hels Hd) as [Hd' ->]. done.
Qed.
End refinement.

(** ** Witnesses *)

(** A disk in memory. *)
Definition flat_write (data : bytes) (off : Z) (d : bytes) : bytes * option error :=
  if (off <? 0) || (Z.of_nat (length d) <? off + Z.of_nat (length data)) then (d, Some ErrIO)
  else (write_bytes d (Z.to_nat off) data, None).

#[local] Instance flat_device : BlockDevice bytes := {|
  bd_Size d := Z.of_nat (length d);
  bd_ReadAt off n d := (d, if Z.of_nat (length d) <=? off then Err ErrEOF else Ok (take (Z.to_nat n) (drop (Z.to_nat off) d)));
  bd_WriteAt := flat_write;
  bd_Trim off n := flat_write (replicate (Z.to_nat n) x00) off;
  bd_Flush d := (d, None);
  bd_QueuedFlushEnabled _ := true;
  bd_BeginDurableFlush d := (d, Ok 0%nat);
  bd_receive _ _ := Some None;
|}.

Lemma flat_write_law d off data :
  Z.of_nat (length d) < 2 ^ 63 → 0 ≤ off → off + Z.of_nat (length data) ≤ Z.of_nat (length d) → ∃ d',
    flat_write data off d = (d', None) ∧ Z.of_nat (length d') < 2 ^ 63 ∧ d' = write_bytes d (Z.to_nat off) data.
Proof.
  intros Hd Hoff Hle. unfold flat_write. destruct (_ || _) eqn:Hc; [apply orb_true_iff in Hc as [Hc|Hc]; zbool; lia|].
  eexists. split; [done|]. rewrite write_bytes_length by lia. done.
Qed.

#[local] Instance flat_laws : BlockDeviceLaws bytes.
Proof.
  refine (Build_BlockDeviceLaws bytes _ (fun d => d) (fun d => Z.of_nat (length d) < 2 ^ 63) _ _ _ _ _ _ _).
  - done.
  - intros d off n Hd [Hoff Hlt] Hn Hle. exists d. cbn [bd_ReadAt bd_Size flat_device] in *. by rewrite (proj2 (Z.leb_gt _ off)) by done.
  - intros d n Hd. exists d. cbn [bd_ReadAt bd_Size flat_device]. by rewrite Z.leb_refl.
  - intros d off data Hd Hoff Hle. by apply flat_write_law.
  - intros d off n Hd Hoff Hn Hle. apply flat_write_law; [done..|]. rewrite length_replicate. cbn [bd_Size flat_device] in Hle. lia.
  - done.
  - done.
Defined.

Definition sample_request (type : Z) (handle : byte) (off len : Z) (data : bytes) : bytes :=
  be_encode 4 nbdRequestMagic ++ be_encode 4 type ++ replicate 8 handle ++ be_encode 8 off ++ be_encode 4 len ++ data.

(** A write that must be durable, a read over it, and a read past the end. *)
Definition sample_server : Server bytes :=
  mkServer (sample_request (nbdCmdWrite + nbdCmdFlagFUA) x01 2 3 [x41; x42; x43] ++
            sample_request nbdCmdRead x02 1 4 [] ++ sample_request nbdCmdRead x03 14 4 [])
    (replicate 16 x00) [] [] true.

Definition turn_state {D} (t : turn D) : Server D := match t with Continue s | Leave s _ => s end.
Definition sample_turn (s : Server bytes) : Server bytes := turn_state (serve (fun _ => None) false s).
Definition sample_served : Server bytes := sample_turn (sample_turn (sample_turn sample_server)).
Definition sample_requests : list (header * bytes) :=
  [nbd_request sample_server; nbd_request (sample_turn sample_server); nbd_request (sample_turn (sample_turn sample_server))].
Definition sample_flushed : Server bytes := default sample_served (finish_barrier 0 sample_served).

Lemma sample_steps : nbd_steps (fun _ => None) false eq sample_server sample_requests sample_flushed.
Proof.
  unfold sample_requests, sample_flushed.
  change [nbd_request sample_server; nbd_request (sample_turn sample_server); nbd_request (sample_turn (sample_turn sample_server))]
    with (((([] ++ [nbd_request sample_server]) ++ [nbd_request (sample_turn sample_server)]) ++ [nbd_request (sample_turn (sample_turn sample_server))]) ++ []).
  eapply nbd_snoc; [eapply nbd_snoc; [eapply nbd_snoc; [eapply nbd_snoc; [apply nbd_nil|]|]|]|].
  - apply step_serve. vm_compute. reflexivity.
  - apply (step_serve _ _ _ (sample_turn sample_server)). vm_compute. reflexivity.
  - apply (step_serve _ _ _ (sample_turn (sample_turn sample_server)) sample_served). vm_compute. reflexivity.
  - apply (step_finish _ _ _ sample_served 0). vm_compute. reflexivity.
Qed.

Lemma nbd_answers_once_witness :
  answered sample_flushed ≡ₚ [replicate 8 x01; replicate 8 x02; replicate 8 x03] ∧ sv_open sample_flushed = true.
Proof.
  split; [|reflexivity].
  exact (proj1 (proj2 (nbd_answers_once (fun _ => None) false eq sample_server sample_requests sample_flushed
    eq_refl eq_refl sample_steps)) eq_refl).
Defined.

Lemma nbd_flushes_in_order_witness :
  in_order (sv_barriers sample_flushed) ∧ (ba_done <$> sv_barriers sample_flushed) = [true].
Proof.
  split; [|reflexivity].
  exact (proj1 (nbd_flushes_in_order (fun _ => None) false eq sample_server sample_requests sample_flushed eq_refl sample_steps)).
Defined.

Lemma nbd_refines_disk_witness :
  bd_disk (sv_dev sample_flushed) = [x00; x00; x41; x42; x43] ++ replicate 11 x00 ∧
  [writeReply (replicate 8 x02) 0 [x00; x41; x42; x43]; writeReply (replicate 8 x03) 22 []] `sublist_of` sv_out sample_flushed.
Proof.
  replace ([x00; x00; x41; x42; x43] ++ replicate 11 x00) with (disk_run false (bd_disk (sv_dev sample_server)) sample_requests)
    by (vm_compute; reflexivity).
  replace [writeReply (replicate 8 x02) 0 [x00; x41; x42; x43]; writeReply (replicate 8 x03) 22 []]
    with (direct_replies false (bd_disk (sv_dev sample_server)) sample_requests) by (vm_compute; reflexivity).
  apply (nbd_refines_disk (fun _ => None) false eq eq_refl sample_server sample_requests sample_flushed).
  - by intros d d' <-.
  - by vm_compute.
  - reflexivity.
  - exact sample_steps.
Defined.
