(* ===== verification/Options.v ===== *)
(** * Volume options and byte sizes ([internal/plugin/options.go],
    [internal/units/bytes.go])

    The options come as a Go map; a list without duplicate keys is one order in
    which the loop may visit it. *)
From S2P Require Import Prelude Extents Head HeadProps.
Local Open Scope Z_scope.

(** ** Byte sizes *)

Definition bytes_string (l : list nat) : string := foldr (fun c s => String (Ascii.ascii_of_nat c) s) EmptyString l.

(** The encodings of the characters [unicode.IsSpace] accepts. *)
Definition spaces : list string :=
  bytes_string <$> ([[9]; [10]; [11]; [12]; [13]; [32]; [194; 133]; [194; 160]; [225; 154; 128]; [226; 128; 168]; [226; 128; 169];
                     [226; 128; 175]; [226; 129; 159]; [227; 128; 128]] ++ ((fun c => [226; 128; c]) <$> seq 128 11))%nat.

Definition string_drop (n : nat) (s : string) : string := String.substring n (String.length s - n) s.

(** Any number of [cut] from the front of [s]. *)
Fixpoint trim_left (fuel : nat) (cut : list string) (s : string) : string :=
  match fuel, list_find (fun sp => HasPrefix s sp = true) cut with
  | S fuel, Some (_, sp) => trim_left fuel cut (string_drop (String.length sp) s)
  | _, _ => s
  end.

(** [strings.TrimSpace] *)
Definition TrimSpace (s : string) : string :=
  let s := trim_left (String.length s) spaces s in
  String.rev (trim_left (String.length s) (String.rev <$> spaces) (String.rev s)).

Definition byteUnits : list (string * Z) :=
  [("GiB", Z.shiftl 1 30); ("MiB", Z.shiftl 1 20); ("KiB", Z.shiftl 1 10); ("G", Z.shiftl 1 30); ("M", Z.shiftl 1 20); ("K", Z.shiftl 1 10); ("B", 1)].

(** The loop of [ParseBytes] over the units. *)
Fixpoint parse_units (units : list (string * Z)) (value : string) : result Z :=
  match units with
  | [] =>
      match ParseInt value with
      | Some n => if n <=? 0 then Err (Errorf "invalid size") else Ok n
      | None => Err (Errorf "invalid size")
      end
  | (suffix, factor) :: units =>
      match CutSuffix value suffix with
      | None => parse_units units value
      | Some number =>
          match ParseInt (TrimSpace number) with
          | Some n => if (n <=? 0) || (MaxInt64 `quot` factor <? n) then Err (Errorf "invalid size") else Ok (i64 (n * factor))
          | None => Err (Errorf "invalid size")
          end
      end
  end.

Definition ParseBytes (value : string) : result Z := parse_units byteUnits (TrimSpace value).

(** ** Options *)

Definition DefaultVolumeSize : Z := Z.shiftl 10 30.

Record VolumeOptions : Type := mkOptions {
  o_Mode : string; o_Scope : string; o_Durability : string; o_Seed : string; o_SyncInterval : Z; o_Size : Z; o_Filesystem : string;
}.

#[export] Instance VolumeOptions_eq_dec : EqDecision VolumeOptions.
Proof. solve_decision. Defined.

Definition ReadOnly (o : VolumeOptions) : bool := bool_decide (o_Mode o = "ro"%string).
Definition PerReplica (o : VolumeOptions) : bool := bool_decide (o_Scope o = "replica"%string).
Definition RemoteDurability (o : VolumeOptions) : bool := bool_decide (o_Durability o = "remote"%string).
Definition LocalDurability (o : VolumeOptions) : bool := bool_decide (o_Durability o = "local"%string).

Definition default_options : VolumeOptions := mkOptions "rw" "volume" "local" "" 0 DefaultVolumeSize "ext4".

Definition streq (a b : string) : bool := bool_decide (a = b).

Section options.
(** [time.ParseDuration], in nanoseconds. *)
Context (ParseDuration : string → option Z).

(** One case of the switch. *)
Definition parse_option (o : VolumeOptions) (key value : string) : result VolumeOptions :=
  let '(mkOptions mode scope durability seed interval size fs) := o in
  if streq key "mode" then
    if negb (streq value "rw") && negb (streq value "ro") then Err (Errorf "mode must be rw or ro")
    else Ok (mkOptions value scope durability seed interval size fs)
  else if streq key "scope" then
    if negb (streq value "volume") && negb (streq value "replica") then Err (Errorf "scope must be volume or replica")
    else Ok (mkOptions mode value durability seed interval size fs)
  else if streq key "durability" then
    if negb (streq value "remote") && negb (streq value "local") then Err (Errorf "durability must be local or remote")
    else Ok (mkOptions mode scope value seed interval size fs)
  else if streq key "seed" then Ok (mkOptions mode scope durability value interval size fs)
  else if streq key "sync_interval" then
    match ParseDuration value with
    | Some d => if d <=? 0 then Err (Errorf "sync_interval must be a positive duration") else Ok (mkOptions mode scope durability seed d size fs)
    | None => Err (Errorf "sync_interval must be a positive duration")
    end
  else if streq key "size" then
    match ParseBytes value with
    | Ok n =>
        if (n <? Z.shiftl 64 20) || negb (Z.rem n 4096 =? 0) then Err (Errorf "size must be at least 64MiB and aligned to 4KiB")
        else Ok (mkOptions mode scope durability seed interval n fs)
    | Err _ => Err (Errorf "size must be at least 64MiB and aligned to 4KiB")
    end
  else if streq key "filesystem" then
    if negb (streq value "ext4") then Err (Errorf "filesystem must be ext4") else Ok (mkOptions mode scope durability seed interval size value)
  else Err (Errorf "unknown option").

Fixpoint parse_options (o : VolumeOptions) (raw : list (string * string)) : result VolumeOptions :=
  match raw with
  | [] => Ok o
  | (key, value) :: raw => o ← parse_option o key value; parse_options o raw
  end.

Definition ParseVolumeOptions (raw : list (string * string)) : result VolumeOptions :=
  o ← parse_options default_options raw;
  _ ← fail_if (ReadOnly o && negb (streq (o_Seed o) "")) (Errorf "seed cannot be combined with mode=ro");
  Ok o.
End options.

Example ParseBytes_examples :
  (ParseBytes "64MiB", ParseBytes "1G", ParseBytes " 4096 ", ParseBytes "2KiB", ParseBytes "7B") = (Ok 67108864, Ok 1073741824, Ok 4096, Ok 2048, Ok 7) ∧
  forallb (fun s => negb (is_ok (ParseBytes s))) [""; "-1"; "0"; "abc"; "9223372036854775807GiB"; "1TiB"]%string = true.
Proof. vm_compute. done. Qed.

(** ** Lemmas *)

Definition starts_with (c : Ascii.ascii) (sp : string) : bool :=
  match sp with String a _ => Ascii.eqb a c | EmptyString => true end.

(** A character that no space starts or ends with. *)
Definition solid (c : Ascii.ascii) : bool :=
  forallb (fun sp => negb (starts_with c sp)) (spaces ++ (String.rev <$> spaces)).

Lemma trim_left_solid fuel cut c s :
  forallb (fun sp => negb (starts_with c sp)) cut = true → trim_left fuel cut (String c s) = String c s.
Proof.
  intros Hcut%Is_true_true_2%forallb_True. destruct fuel as [|fuel]; [done|]. cbn [trim_left].
  destruct (list_find _ cut) as [[i sp]|] eqn:Hf; [|done].
  apply list_find_Some in Hf as (Hi & Hp & _). apply (Forall_lookup_1 _ _ _ _ Hcut) in Hi.
  destruct sp as [|a sp]; [done|]. cbn [HasPrefix starts_with] in *. by destruct (Ascii.eqb a c).
Qed.

Lemma TrimSpace_solid c s c' s' :
  solid c = true → solid c' = true → String c s = s' +:+ String c' EmptyString → TrimSpace (String c s) = String c s.
Proof.
  unfold solid. rewrite !forallb_app, !andb_true_iff. intros [Hc _] [_ Hc'] Heq. unfold TrimSpace. rewrite trim_left_solid by done. cbn zeta. rewrite Heq at 2.
  rewrite string_rev_app. change (String.rev (String c' EmptyString)) with (String c' EmptyString).
  rewrite string_app_cons, trim_left_solid by done.
  rewrite <-string_app_cons. change (String c' EmptyString) with (String.rev (String c' EmptyString)) at 1.
  by rewrite <-string_rev_app, string_rev_rev.
Qed.

Lemma digit_cases (P : Ascii.ascii → Prop) d :
  P (digit 0) → P (digit 1) → P (digit 2) → P (digit 3) → P (digit 4) → P (digit 5) → P (digit 6) → P (digit 7) → P (digit 8) → P (digit 9) →
  0 ≤ d < 10 → P (digit d).
Proof.
  intros ? ? ? ? ? ? ? ? ? ? Hd.
  assert (d = 0 ∨ d = 1 ∨ d = 2 ∨ d = 3 ∨ d = 4 ∨ d = 5 ∨ d = 6 ∨ d = 7 ∨ d = 8 ∨ d = 9) as Hcases by lia.
  repeat destruct Hcases as [->|Hcases]; [done..|]. by subst.
Qed.

Lemma digit_solid d : 0 ≤ d < 10 → solid (digit d) = true.
Proof. apply (digit_cases (fun c => solid c = true)); vm_compute; reflexivity. Qed.

(** A number starts and ends with a digit. *)
Lemma digits_ends w n : (0 < w)%nat →
  (∃ d s, 0 ≤ d < 10 ∧ digits w n = String (digit d) s) ∧ (∃ d s, 0 ≤ d < 10 ∧ digits w n = s +:+ String (digit d) EmptyString).
Proof.
  destruct w as [|w]; [lia|]. intros _. split.
  - eexists _, _. split; [|apply digits_front]. apply Z.mod_pos_bound. lia.
  - exists (n `mod` 10), (digits w (n `div` 10)). split; [apply Z.mod_pos_bound; lia|done].
Qed.

Lemma TrimSpace_number w n c suffix rest :
  (0 < w)%nat → String.rev suffix = String c rest → solid c = true → TrimSpace (digits w n +:+ suffix) = digits w n +:+ suffix.
Proof.
  intros Hw Hs Hc. assert (suffix = String.rev rest +:+ String c EmptyString) as ->.
  { rewrite <-(string_rev_rev suffix), Hs. change (String c rest) with (String c EmptyString +:+ rest). by rewrite string_rev_app. }
  destruct (digits_ends w n Hw) as [(d & s & Hd & Heq) _]. rewrite string_app_assoc, Heq, !string_app_cons.
  eapply TrimSpace_solid; [by apply digit_solid|exact Hc|]. rewrite <-string_app_cons. done.
Qed.

Lemma TrimSpace_digits w n : (0 < w)%nat → TrimSpace (digits w n) = digits w n.
Proof.
  intros Hw. destruct (digits_ends w n Hw) as [(d & s & Hd & Heq) (d' & s' & Hd' & Heq')]. rewrite Heq.
  eapply TrimSpace_solid; [by apply digit_solid| |by rewrite <-Heq]. by apply digit_solid.
Qed.

Definition not_digit (x : Ascii.ascii) : bool := forallb (fun k => negb (Ascii.eqb x (digit k))) [0; 1; 2; 3; 4; 5; 6; 7; 8; 9].

Lemma not_digit_spec x d : not_digit x = true → 0 ≤ d < 10 → Ascii.eqb x (digit d) = false.
Proof.
  intros Hx%Is_true_true_2%forallb_True. rewrite Forall_forall in Hx. intros Hd. apply negb_true_iff, Is_true_true_1, Hx.
  apply list_elem_of_In. cbn [In]. lia.
Qed.

(** [b] is no prefix of [a] followed by a digit. *)
Fixpoint cut_fails (a b : string) : bool :=
  match a, b with
  | _, EmptyString => false
  | EmptyString, String y _ => not_digit y
  | String x a, String y b => negb (Ascii.eqb y x) || cut_fails a b
  end.

Lemma cut_fails_spec a b d r : cut_fails a b = true → 0 ≤ d < 10 → CutPrefix (a +:+ String (digit d) r) b = None.
Proof.
  intros Hc Hd. revert b Hc. induction a as [|x a IH]; intros [|y b] Hc; [done| |done|].
  - cbn [cut_fails] in Hc. change (CutPrefix (String (digit d) r) (String y b) = None). cbn [CutPrefix]. by rewrite not_digit_spec.
  - rewrite string_app_cons. cbn [CutPrefix cut_fails] in *. destruct (Ascii.eqb y x); [|done]. by apply IH.
Qed.

Lemma CutSuffix_other w n u suffix :
  (0 < w)%nat → cut_fails (String.rev u) (String.rev suffix) = true → CutSuffix (digits w n +:+ u) suffix = None.
Proof.
  intros Hw Hc. destruct (digits_ends w n Hw) as [_ (d & s & Hd & Heq)]. unfold CutSuffix.
  rewrite string_rev_app, Heq, string_rev_app.
  change (String.rev (String (digit d) EmptyString)) with (String (digit d) EmptyString). rewrite string_app_cons.
  by rewrite cut_fails_spec.
Qed.

(** What the unit [suffix] makes of a number. *)
Definition scaled (n factor : Z) : result Z := if MaxInt64 <? n * factor then Err (Errorf "invalid size") else Ok (n * factor).

Lemma scaled_div n factor : 0 < factor → 0 < n → (MaxInt64 `quot` factor <? n) = (MaxInt64 <? n * factor).
Proof.
  intros Hf Hn. rewrite Z.quot_div_nonneg by (unfold MaxInt64; lia). apply eq_true_iff_eq. rewrite !Z.ltb_lt.
  split; intros Hlt.
  - apply Z.div_lt_upper_bound in Hlt || (pose proof (Z.mul_succ_div_gt MaxInt64 factor ltac:(lia)); nia).
  - apply Z.div_lt_upper_bound; lia.
Qed.

Lemma parse_unit w n suffix factor units :
  (0 < w)%nat → 0 < n < 10 ^ Z.of_nat w → 0 < factor →
  parse_units ((suffix, factor) :: units) (digits w n +:+ suffix) = scaled n factor.
Proof.
  intros Hw Hn Hf. cbn [parse_units]. rewrite CutSuffix_app, TrimSpace_digits, ParseInt_number by lia. unfold scaled.
  destruct (n <? 2 ^ 63) eqn:Hs; zbool.
  - rewrite (proj2 (Z.leb_gt n 0)) by lia. cbn [orb]. rewrite scaled_div by lia.
    destruct (MaxInt64 <? n * factor) eqn:Hm; [done|]. apply Z.ltb_ge in Hm. f_equal. apply i64_small. unfold is_i64, MaxInt64 in *. lia.
  - by rewrite (proj2 (Z.ltb_lt MaxInt64 (n * factor))) by (unfold MaxInt64; nia).
Qed.

Lemma parse_skip w n suffix factor units u :
  (0 < w)%nat → cut_fails (String.rev u) (String.rev suffix) = true →
  parse_units ((suffix, factor) :: units) (digits w n +:+ u) = parse_units units (digits w n +:+ u).
Proof. intros Hw Hc. cbn [parse_units]. by rewrite CutSuffix_other. Qed.

Lemma parse_plain w n : (0 < w)%nat → 0 < n < 10 ^ Z.of_nat w → parse_units [] (digits w n) = scaled n 1.
Proof.
  intros Hw Hn. cbn [parse_units]. rewrite ParseInt_number by lia. unfold scaled. rewrite Z.mul_1_r.
  destruct (n <? 2 ^ 63) eqn:Hs; zbool.
  - by rewrite (proj2 (Z.leb_gt n 0)), (proj2 (Z.ltb_ge MaxInt64 n)) by (unfold MaxInt64; lia).
  - by rewrite (proj2 (Z.ltb_lt MaxInt64 n)) by (unfold MaxInt64; lia).
Qed.

Lemma parse_units_range units value n :
  Forall (fun u => 0 < u.2) units → parse_units units value = Ok n → 0 < n ≤ MaxInt64.
Proof.
  intros Hu. induction Hu as [|[suffix factor] units Hf Hu IH]; cbn [parse_units].
  - unfold ParseInt. destruct (match value with EmptyString => _ | String _ _ => _ end) as [neg rest].
    case_bool_decide; [done|]. destruct (parse_digits 0 rest) as [m|] eqn:Hp; [|done]. cbn [mbind option_bind].
    apply parse_digits_inv in Hp as (e & -> & He & _). destruct neg.
    + destruct (_ <=? 2 ^ 63); [|done]. destruct (_ <=? 0) eqn:Hn0; [done|]. intros [= <-]. zbool. lia.
    + destruct (_ <? 2 ^ 63) eqn:Hn; [|done]. destruct (_ <=? 0) eqn:Hn0; [done|]. intros [= <-]. zbool. unfold MaxInt64. lia.
  - destruct (CutSuffix value suffix) as [number|]; [|done]. destruct (ParseInt (TrimSpace number)) as [m|]; [|done].
    cbn [snd] in Hf. destruct (m <=? 0) eqn:Hm; [done|]. apply Z.leb_gt in Hm. cbn [orb]. rewrite scaled_div by lia.
    destruct (MaxInt64 <? m * factor) eqn:Hn; [done|]. zbool. intros [= <-]. unfold MaxInt64 in *.
    rewrite i64_small by (unfold is_i64; lia). lia.
Qed.

Definition units_or_none : list (string * Z) := byteUnits ++ [(EmptyString, 1)].

(** C31: a size is read exactly or refused.  A decimal number followed by any of
    the units, or by none, is its value times the unit's factor when that fits
    into an int64, and an error otherwise: nothing wraps around.  Whatever the
    string, an accepted size is positive and fits. *)
Theorem ParseBytes_correct :
  (∀ w n suffix factor, (0 < w)%nat → 0 < n < 10 ^ Z.of_nat w → (suffix, factor) ∈ units_or_none →
     ParseBytes (digits w n +:+ suffix) = if MaxInt64 <? n * factor then Err (Errorf "invalid size") else Ok (n * factor)) ∧
  (∀ value n, ParseBytes value = Ok n → 0 < n ≤ MaxInt64).
Proof.
  split.
  - intros w n suffix factor Hw Hn Hu. fold (scaled n factor). unfold units_or_none, byteUnits in Hu. cbn [app] in Hu.
    repeat (apply elem_of_cons in Hu as [[= -> ->]|Hu]; [unfold ParseBytes, byteUnits|]).
    8: rewrite string_app_nil, TrimSpace_digits by done; rewrite <-(string_app_nil (digits w n)).
    1-7: (erewrite TrimSpace_number; [|done|reflexivity|vm_compute; reflexivity]).
    1-8: repeat (rewrite parse_skip; [|done|vm_compute; reflexivity]).
    8: by rewrite string_app_nil, parse_plain.
    1-7: by apply parse_unit.
    by apply elem_of_nil in Hu.
  - intros value n. apply parse_units_range. repeat constructor.
Qed.

(** ** Options: the order of the keys *)

(** What every volume of the driver can rely on. *)
Definition valid_options (o : VolumeOptions) : Prop :=
  (o_Mode o = "rw" ∨ o_Mode o = "ro")%string ∧ (o_Scope o = "volume" ∨ o_Scope o = "replica")%string ∧
  RemoteDurability o = negb (LocalDurability o) ∧ 0 ≤ o_SyncInterval o ∧
  Z.shiftl 64 20 ≤ o_Size o ≤ MaxInt64 ∧ Z.rem (o_Size o) 4096 = 0 ∧ o_Filesystem o = "ext4"%string.

Section order.
Context (ParseDuration : string → option Z).
Notation parse_option := (parse_option ParseDuration).
Notation parse_options := (parse_options ParseDuration).

(** Whether a value is accepted depends on the key alone, and each key sets a
    field of its own. *)
Definition option_ok (k v : string) : bool := is_ok (parse_option default_options k v).

Definition set_option (k v : string) (o : VolumeOptions) : VolumeOptions :=
  let '(mkOptions m s d se i sz f) := o in
  mkOptions (if streq k "mode" then v else m) (if streq k "scope" then v else s) (if streq k "durability" then v else d)
    (if streq k "seed" then v else se) (if streq k "sync_interval" then default 0 (ParseDuration v) else i)
    (if streq k "size" then match ParseBytes v with Ok n => n | Err _ => 0 end else sz) (if streq k "filesystem" then v else f).

Lemma streq_ne a b : a ≠ b → streq a b = false.
Proof. intros Hne. by apply bool_decide_eq_false_2. Qed.

Ltac streq_eval :=
  repeat match goal with
  | |- context [streq (String ?a ?x) (String ?b ?y)] =>
      let r := eval vm_compute in (streq (String a x) (String b y)) in change (streq (String a x) (String b y)) with r
  end; cbv iota.

(** The key is one of the known ones, or none of them. *)
Ltac key_cases k :=
  destruct (decide (k = "mode"%string)) as [->|?]; [streq_eval|rewrite ?(streq_ne k "mode") by done;
  destruct (decide (k = "scope"%string)) as [->|?]; [streq_eval|rewrite ?(streq_ne k "scope") by done;
  destruct (decide (k = "durability"%string)) as [->|?]; [streq_eval|rewrite ?(streq_ne k "durability") by done;
  destruct (decide (k = "seed"%string)) as [->|?]; [streq_eval|rewrite ?(streq_ne k "seed") by done;
  destruct (decide (k = "sync_interval"%string)) as [->|?]; [streq_eval|rewrite ?(streq_ne k "sync_interval") by done;
  destruct (decide (k = "size"%string)) as [->|?]; [streq_eval|rewrite ?(streq_ne k "size") by done;
  destruct (decide (k = "filesystem"%string)) as [->|?]; [streq_eval|rewrite ?(streq_ne k "filesystem") by done]]]]]]].

Lemma parse_option_set o k v o' : parse_option o k v = Ok o' ↔ option_ok k v = true ∧ o' = set_option k v o.
Proof.
  destruct o as [m s d se i sz f]. unfold option_ok, Options.parse_option, set_option, default_options.
  key_cases k; cbn [is_ok].
  1,2,3: destruct (negb _ && negb _); naive_solver.
  - naive_solver.
  - destruct (ParseDuration v) as [t|]; [|naive_solver]. destruct (t <=? 0); naive_solver.
  - destruct (ParseBytes v) as [t|]; [|naive_solver]. destruct (_ || _); naive_solver.
  - destruct (negb _); naive_solver.
  - naive_solver.
Qed.

(** Two different keys can be read in either order. *)
Lemma parse_option_comm o k v o1 k' v' o2 :
  k ≠ k' → parse_option o k v = Ok o1 → parse_option o1 k' v' = Ok o2 →
  ∃ o1', parse_option o k' v' = Ok o1' ∧ parse_option o1' k v = Ok o2.
Proof.
  intros Hne [Hok ->]%parse_option_set [Hok' ->]%parse_option_set. exists (set_option k' v' o).
  rewrite !parse_option_set. split; [done|]. split; [done|]. destruct o as [m s d se i sz f]. unfold set_option, streq.
  f_equal; repeat case_bool_decide; congruence.
Qed.

Lemma parse_options_perm raw raw' o o' :
  NoDup raw.*1 → raw ≡ₚ raw' → parse_options o raw = Ok o' → parse_options o raw' = Ok o'.
Proof.
  intros Hnd Hp. revert o Hnd. induction Hp as [|[k v] raw raw' Hp IH|[k v] [k' v'] raw|raw1 raw2 raw3 H1 IH1 H2 IH2]; intros o Hnd.
  - done.
  - cbn [Options.parse_options]. destruct (parse_option o k v) as [o1|e]; [|done]. cbn [mbind result_mbind].
    apply IH. by inversion Hnd.
  - cbn [Options.parse_options]. destruct (parse_option o k' v') as [o1|e] eqn:H1; [|done]. cbn [mbind result_mbind].
    destruct (parse_option o1 k v) as [o2|e] eqn:H2; [|done]. cbn [mbind result_mbind]. intros Hr.
    assert (k' ≠ k) as Hne. { apply NoDup_cons in Hnd as [Hnd _]. intros <-. apply Hnd. by left. }
    destruct (parse_option_comm o k' v' o1 k v o2 Hne H1 H2) as (o1' & -> & Ho2). cbn [mbind result_mbind]. by rewrite Ho2.
  - intros Hr. apply IH2; [by rewrite <-H1|]. by apply IH1.
Qed.

Lemma parse_option_valid o k v o' : valid_options o → parse_option o k v = Ok o' → valid_options o'.
Proof.
  intros Hv. destruct o as [m s d se i sz f]. unfold Options.parse_option.
  destruct Hv as (Hm & Hs & Hd & Hi & [Hsz Hsz'] & Hr & Hf).
  cbn [o_Mode o_Scope o_SyncInterval o_Size o_Filesystem] in *.
  key_cases k; [..|done].
  - destruct (negb _ && negb _) eqn:He; [done|]. intros [= <-]. apply andb_false_iff in He as [He|He];
      apply negb_false_iff, bool_decide_eq_true in He as ->; split_and!; auto.
  - destruct (negb _ && negb _) eqn:He; [done|]. intros [= <-]. apply andb_false_iff in He as [He|He];
      apply negb_false_iff, bool_decide_eq_true in He as ->; split_and!; auto.
  - destruct (negb _ && negb _) eqn:He; [done|]. intros [= <-]. apply andb_false_iff in He as [He|He];
      apply negb_false_iff, bool_decide_eq_true in He as ->; split_and!; auto.
  - intros [= <-]. split_and!; auto.
  - destruct (ParseDuration v) as [t|]; [|done]. destruct (t <=? 0) eqn:Ht; [done|]. intros [= <-]. zbool.
    split_and!; auto. cbn [o_SyncInterval]. lia.
  - destruct (ParseBytes v) as [t|] eqn:Hb; [|done]. destruct (t <? Z.shiftl 64 20) eqn:Ht; [done|]. cbn [orb].
    destruct (Z.rem t 4096 =? 0) eqn:Ha; cbn [negb]; [|done]. intros [= <-].
    assert (0 < t ≤ MaxInt64) as Hmax by (eapply parse_units_range; [|exact Hb]; repeat constructor).
    apply Z.ltb_ge in Ht. apply Z.eqb_eq in Ha. split_and!; auto; apply Hmax.
  - destruct (streq v "ext4") eqn:He; cbn [negb]; [|done]. intros [= <-]. apply bool_decide_eq_true in He. split_and!; auto.
Qed.

Lemma parse_options_valid o raw o' : valid_options o → parse_options o raw = Ok o' → valid_options o'.
Proof.
  revert o. induction raw as [|[k v] raw IH]; intros o Hv; cbn [Options.parse_options]; [by intros [= <-]|].
  destruct (parse_option o k v) as [o1|e] eqn:Ho; [|done]. cbn [mbind result_mbind]. apply IH. by eapply parse_option_valid.
Qed.

(** C32: the outcome of reading the options of a volume does not depend on the
    order in which Go visits the map, and accepted options are well formed: a
    known mode, scope and filesystem, exactly one of the two durabilities, a
    size of whole blocks between 64 MiB and the largest int64, and no seed for
    a read-only volume. *)
Theorem ParseVolumeOptions_order raw raw' o :
  NoDup raw.*1 → raw ≡ₚ raw' → ParseVolumeOptions ParseDuration raw = Ok o →
  ParseVolumeOptions ParseDuration raw' = Ok o ∧ valid_options o ∧ (ReadOnly o = true → o_Seed o = ""%string).
Proof.
  intros Hnd Hp. unfold ParseVolumeOptions. destruct (parse_options default_options raw) as [o1|e] eqn:Hr; [|done].
  rewrite (parse_options_perm raw raw' _ _ Hnd Hp Hr). cbn [mbind result_mbind].
  assert (valid_options o1) as Hv.
  { eapply parse_options_valid; [|exact Hr]. split_and!; auto; by vm_compute. }
  destruct (ReadOnly o1) eqn:Hro; cbn [andb fail_if mbind result_mbind].
  - destruct (streq (o_Seed o1) "") eqn:Hs; [|done]. cbn [negb fail_if mbind result_mbind]. intros [= <-].
    apply bool_decide_eq_true in Hs. done.
  - intros [= <-]. split; [done|]. split; [done|]. by rewrite Hro.
Qed.
End order.

Lemma ParseVolumeOptions_order_witness :
  ParseVolumeOptions (fun _ => None) [("size", "64MiB"); ("mode", "ro")]%string = Ok (mkOptions "ro" "volume" "local" "" 0 67108864 "ext4") ∧
  valid_options (mkOptions "ro" "volume" "local" "" 0 67108864 "ext4").
Proof.
  destruct (ParseVolumeOptions_order (fun _ => None) [("mode", "ro"); ("size", "64MiB")]%string [("size", "64MiB"); ("mode", "ro")]%string
    (mkOptions "ro" "volume" "local" "" 0 67108864 "ext4")) as (H1 & H2 & _).
  - apply (bool_decide_unpack _). vm_compute. exact I.
  - apply Permutation_swap.
  - vm_compute. reflexivity.
  - split; assumption.
Defined.

Lemma ParseBytes_correct_witness : ParseBytes "64MiB" = Ok 67108864 ∧ 0 < 67108864 ≤ MaxInt64.
Proof.
  split.
  - exact (proj1 ParseBytes_correct 2%nat 64 "MiB"%string 1048576 ltac:(lia) ltac:(done) ltac:(by repeat constructor)).
  - by apply (proj2 ParseBytes_correct "64MiB"%string).
Defined.
