(* ===== verification/Metrics.v ===== *)
(** * Metrics ([internal/metrics/metrics.go])

    The metrics of the plugin as the updates that the code makes to them, and
    what each metric shows after a sequence of updates.  The registry of the
    Prometheus client and its HTTP handler are not modelled: a gauge shows what
    it was set to and adds up its increments, a counter counts, a label that is
    deleted is gone. *)
From S2P Require Import Prelude Extents Codec File Segment.
Local Open Scope Z_scope.

(** ** Updates *)

Inductive metric_update : Type :=
  | MountedVolumes_Inc
  | MountedVolumes_Dec
  | UnpublishedBytes_Set (volume : string) (bytes : Z)
  | UnpublishedBytes_Delete (volume : string)
  | LeaseHeld_Set (volume : string) (held : Z)
  | LeaseFenced_Inc (volume : string)
  | MountFailures_Inc (reason : string)
  | SyncDuration_Observe
  | RestoreDuration_Observe
  | ReplicationStageDuration_Observe (stage : string)
  | ReplicationGenerations_Inc
  | ReplicationInputBytes_Add (bytes : Z)
  | ReplicationStoredBytes_Add (bytes : Z)
  | ReplicationSegments_Add (segments : Z)
  | BackpressureEvents_Inc (volume : string).

#[export] Instance metric_update_eq_dec : EqDecision metric_update.
Proof. solve_decision. Defined.

(** ** What a metric shows *)

(** The sum of what each update adds. *)
Definition metric_total {A} (f : A → Z) (us : list A) : Z := foldr (fun u acc => f u + acc) 0 us.

(** How often an update was made. *)
Definition metric_count (u : metric_update) : list metric_update → Z := metric_total (fun u' => if bool_decide (u' = u) then 1 else 0).

Definition MountedVolumes : list metric_update → Z :=
  metric_total (fun u => match u with MountedVolumes_Inc => 1 | MountedVolumes_Dec => -1 | _ => 0 end).

(** The last of the values that [set] gives; [Some None] deletes the label. *)
Definition last_set {A B} (set : A → option (option B)) : list A → option B :=
  foldl (fun shown u => default shown (set u)) None.

Definition UnpublishedBytes (volume : string) : list metric_update → option Z :=
  last_set (fun u => match u with
    | UnpublishedBytes_Set v bytes => if bool_decide (v = volume) then Some (Some bytes) else None
    | UnpublishedBytes_Delete v => if bool_decide (v = volume) then Some None else None
    | _ => None
    end).

Definition LeaseHeld (volume : string) : list metric_update → option Z :=
  last_set (fun u => match u with LeaseHeld_Set v held => if bool_decide (v = volume) then Some (Some held) else None | _ => None end).

Definition LeaseFenced (volume : string) : list metric_update → Z := metric_count (LeaseFenced_Inc volume).
Definition MountFailures (reason : string) : list metric_update → Z := metric_count (MountFailures_Inc reason).
Definition SyncDuration : list metric_update → Z := metric_count SyncDuration_Observe.
Definition RestoreDuration : list metric_update → Z := metric_count RestoreDuration_Observe.
Definition ReplicationStageDuration (stage : string) : list metric_update → Z := metric_count (ReplicationStageDuration_Observe stage).
Definition ReplicationGenerations : list metric_update → Z := metric_count ReplicationGenerations_Inc.
Definition ReplicationInputBytes : list metric_update → Z :=
  metric_total (fun u => match u with ReplicationInputBytes_Add n => n | _ => 0 end).
Definition ReplicationStoredBytes : list metric_update → Z :=
  metric_total (fun u => match u with ReplicationStoredBytes_Add n => n | _ => 0 end).
Definition ReplicationSegments : list metric_update → Z :=
  metric_total (fun u => match u with ReplicationSegments_Add n => n | _ => 0 end).
Definition BackpressureEvents (volume : string) : list metric_update → Z := metric_count (BackpressureEvents_Inc volume).

(** ** Updates of the replication *)

(** The function that [buildDriver] gives [Remote.observeGeneration]. *)
Definition observed_generation (inputBytes storedBytes segments : Z) : list metric_update :=
  [ReplicationGenerations_Inc; ReplicationInputBytes_Add inputBytes; ReplicationStoredBytes_Add storedBytes; ReplicationSegments_Add segments].

Definition observeGeneration (ObserveGeneration : option (Z → Z → Z → list metric_update)) (generation : option Generation) (segments : list Segment)
    : list metric_update :=
  match ObserveGeneration with
  | None => []
  | Some observe =>
      observe (Generation_Bytes generation) (foldl (fun stored s => stored + seg_Bytes s) 0 segments) (Z.of_nat (length segments))
  end.

(** ** Laws *)

Lemma metric_total_nil {A} (f : A → Z) : metric_total f [] = 0.
Proof. done. Qed.

Lemma metric_total_app {A} (f : A → Z) us vs : metric_total f (us ++ vs) = metric_total f us + metric_total f vs.
Proof. induction us as [|u us IH]; cbn; [done|]. fold (metric_total f (us ++ vs)) (metric_total f us). lia. Qed.

Lemma last_set_app {A B} (set : A → option (option B)) us vs shown :
  last_set set us = shown → last_set set (us ++ vs) = foldl (fun shown u => default shown (set u)) shown vs.
Proof. intros <-. apply foldl_app. Qed.

(** What is counted for a generation is what its segments hold. *)
Theorem observeGeneration_counts `{Digest} `{Gzip} g n imageBlocks segments :
  0 ≤ imageBlocks ≤ maxImageBlocks → generation_wf imageBlocks g → size (GenBlocks g) ≠ 0%nat → EncodeSegments (Some g) n = Ok segments →
  let us := observeGeneration (Some observed_generation) (Some g) segments in
  ReplicationGenerations us = 1 ∧ ReplicationInputBytes us = Generation_Bytes (Some g) ∧
  ReplicationStoredBytes us = Z.of_nat (length (concat (seg_Data <$> segments))) ∧
  ReplicationSegments us = Z.of_nat (length segments).
Proof.
  intros Himg Hg Hne He us. destruct (EncodeSegments_spec g n imageBlocks Himg Hg Hne) as (segs & parts & He' & Hf & _).
  assert (segs = segments) as -> by congruence.
  assert (∀ stored, foldl (fun stored s => stored + seg_Bytes s) stored segments = stored + Z.of_nat (length (concat (seg_Data <$> segments)))) as Hsum.
  { clear -Hf. induction Hf as [|part seg parts segs (_ & _ & Hb & _) _ IH]; intros stored; cbn; [lia|]. rewrite IH, Hb, length_app. lia. }
  unfold us, observeGeneration, observed_generation. rewrite Hsum. unfold ReplicationInputBytes, ReplicationStoredBytes, ReplicationSegments. cbn -[Generation_Bytes]. split_and!; [vm_compute; reflexivity|lia..].
Qed.
