(* ===== verification/Driver.v ===== *)
(** * The volume driver ([internal/plugin/driver.go])

    The handlers of the Docker plugin as programs that call the other
    components: a program is a tree of calls, each with the rest of the handler
    as a function of the answer. *)
From S2P Require Import Prelude Extents Segment Types Options Metrics.
Local Open Scope Z_scope.

(** ** Calls *)

(** A call, indexed by what it answers.  Objects that are opened and closed are
    numbered.  [gens] are the generations a journal recovered. *)
Inductive call : Type → Type :=
  (* the local journal *)
  | OpenJournal (name : string) : call (result (nat * list Generation))
  | CreateJournal (name : string) (state : State) : call (result nat)
  | ValidateRecovery (journal : nat) (state : State) : call (option error)
  | Rebase (journal : nat) (state : State) : call (option error)
  | JournalClose (journal : nat) (remove : bool) : call (option error)
  (* the remote *)
  | Inspect (name : string) : call (result State)
  | Acquire (name node : string) (size : Z) (filesystem : string) : call (result nat)
  | LeaseState (lease : nat) : call State
  | LeaseRelease (lease : nat) : call (option error)
  | PrepareLazyRestore (lease : nat) (name : string) : call (result nat)
  | RestoreImage (state : State) (name : string) : call (option error)
  | Publish (lease : nat) (segments : nat) : call (option error)
  | DeleteRemote (name : string) : call (option error)
  | DeleteFamily (name : string) : call (option error)
  (* the heartbeat *)
  | StartHeartbeat (lease : nat) : call nat
  | StopBeat (beat : nat) : call unit
  (* local files *)
  | CreateImage (name : string) (size : Z) : call (option error)
  | CleanupLocal (name : string) : call unit
  | RemoveJournal (name : string) : call unit
  | SaveRecord (name : string) (createdAt : Z) (options : VolumeOptions) : call (option error)
  | RemoveRegistry (name : string) : call (option error)
  | LazyClose (image : nat) : call (option error)
  (* the device *)
  | OpenDevice (name : string) (size maxDirty : Z) : call (result nat)
  | SetLazyImage (device : nat) (image : option nat) : call unit
  | SetDirtyObserver (device : nat) (volume : string) : call unit
  | Replay (device : nat) (gens : list Generation) : call (option error)
  | SetBackpressureHandler (device : nat) (volume : string) (syncer : option nat) : call unit
  | MarkAllocated (device : nat) : call (option error)
  | Seal (device : nat) : call nat
  | EncodeSegments (generation : nat) : call (result nat)
  | ReleaseGeneration (device : nat) (generation : nat) : call unit
  | SetDirtyHandler (device : nat) (threshold : Z) (syncer : nat) : call unit
  | SetDurableFlushHandler (device : nat) (syncer : nat) (local : bool) : call unit
  | DeviceClose (device : nat) : call (option error)
  (* the backend and the seeder *)
  | Format (name filesystem : string) : call (option error)
  | BackendMount (device : nat) (name : string) (readOnly : bool) (filesystem : string) : call (result nat)
  | UnmountFs (mount : nat) : call (option error)
  | AbandonMount (mount : nat) : call (option error)
  | SeedApply (name seed : string) : call (option error)
  (* the syncer *)
  | StartSyncer (device lease : nat) (interval checkpointInterval : Z) (journal : option nat) : call nat
  | EnqueueRecovered (syncer : nat) (gens : list Generation) : call unit
  | Notify (syncer : nat) : call unit
  | SyncCheckpoint (syncer : nat) : call (option error)
  | SyncerStop (syncer : nat) : call (option error)
  | SyncerAbandon (syncer : nat) : call unit
  (* the metrics *)
  | Metric (update : metric_update) : call unit
  | Now : call Z.

(** ** Programs *)

Inductive prog (R : Type) : Type :=
  | Ret (r : R)
  | Do {A : Type} (c : call A) (rest : A → prog R).
Arguments Ret {R} r.
Arguments Do {R A} c rest.

Fixpoint prog_bind {A B} (f : A → prog B) (p : prog A) : prog B :=
  match p with
  | Ret a => f a
  | Do c rest => Do c (fun x => prog_bind f (rest x))
  end.

#[export] Instance prog_mbind : MBind prog := @prog_bind.
#[export] Instance prog_mret : MRet prog := @Ret.

Definition do {A} (c : call A) : prog A := Do c Ret.

(** ** State *)

Record Config : Type := mkConfig {
  NodeID : string; MaxDirty : Z; cfg_SyncInterval : Z; CheckpointInterval : Z; hasSeeder : bool;
}.

Record mountState : Type := mkMount {
  ms_name : string;
  ms_mountIDs : gset string;
  ms_active : bool;
  ms_lease : option nat;
  ms_device : option nat;
  ms_unmounter : option nat;
  ms_syncer : option nat;
  ms_journal : option nat;
  ms_stopBeat : option nat;
  ms_fenced : option error;
}.

Definition new_mount (name : string) : mountState := mkMount name ∅ false None None None None None None None.

(** [mount.active, mount.lease, ... = false, nil, ...] *)
Definition reset_mount (m : mountState) : mountState :=
  mkMount (ms_name m) (ms_mountIDs m) false None None None None None None (ms_fenced m).
Definition with_ids (ids : gset string) (m : mountState) : mountState :=
  mkMount (ms_name m) ids (ms_active m) (ms_lease m) (ms_device m) (ms_unmounter m) (ms_syncer m) (ms_journal m) (ms_stopBeat m) (ms_fenced m).
Definition with_fenced (cause : option error) (m : mountState) : mountState :=
  mkMount (ms_name m) (ms_mountIDs m) (ms_active m) (ms_lease m) (ms_device m) (ms_unmounter m) (ms_syncer m) (ms_journal m) (ms_stopBeat m) cause.
Definition with_mounted (lease : option nat) (device unmounter : nat) (stopBeat : option nat) (m : mountState) : mountState :=
  mkMount (ms_name m) (ms_mountIDs m) true lease (Some device) (Some unmounter) (ms_syncer m) (ms_journal m) stopBeat (ms_fenced m).
Definition with_syncer (syncer journal : option nat) (m : mountState) : mountState :=
  mkMount (ms_name m) (ms_mountIDs m) (ms_active m) (ms_lease m) (ms_device m) (ms_unmounter m) syncer journal (ms_stopBeat m) (ms_fenced m).

(** ** Mounting *)

(** [if x != nil { f(x) }] *)
Definition when_some {A} (x : option A) (f : A → prog unit) : prog unit := match x with Some a => f a | None => Ret tt end.
Definition ignore {A} (p : prog A) : prog unit := _ ← p; Ret tt.

(** [fmt.Errorf("...: %w", err)] when there is an error. *)
Definition wrap_opt (msg : string) (r : option error) : option error := Wrap msg <$> r.

(** A setup that may fail goes on, or leaves through one of the exits. *)
Definition or_fail {A} (exit : error → prog (mountState * option error)) (r : result A) (k : A → prog (mountState * option error)) : prog (mountState * option error) :=
  match r with Ok a => k a | Err e => exit e end.
Definition or_exit (exit : error → prog (mountState * option error)) (r : option error) (k : prog (mountState * option error)) : prog (mountState * option error) :=
  match r with None => k | Some e => exit e end.

Section driver.
Context (cfg : Config).

(** The journal part of [mountFresh]: the open journal and what it recovered. *)
Definition recover_journal (opts : VolumeOptions) (name : string) : prog (result (option nat * list Generation)) :=
  if negb (LocalDurability opts) then Ret (Ok (None, [])) else
  r ← do (OpenJournal name);
  match r with
  | Err e => if errors_Is e ErrNotExist then Ret (Ok (None, [])) else Ret (Err (Wrap "open local journal" e))
  | Ok (journal, recovered) =>
      if bool_decide (recovered = []) then
        r ← do (JournalClose journal true);
        match r with
        | Some e => Ret (Err (Wrap "remove empty local journal" e))
        | None => Ret (Ok (None, []))
        end
      else
        r ← do (Inspect name);
        match r with
        | Err e => _ ← do (JournalClose journal false); Ret (Err (Wrap "inspect remote state for local journal recovery" e))
        | Ok remoteState =>
            r ← do (ValidateRecovery journal remoteState);
            match r with
            | Some e => _ ← do (JournalClose journal false); Ret (Err (Wrap "recover local journal" e))
            | None => Ret (Ok (Some journal, recovered))
            end
        end
  end.

Definition releaseOnFailure (m : mountState) (beat lease : nat) (journal : option nat) (cause : error) : prog (mountState * option error) :=
  _ ← do (StopBeat beat);
  _ ← when_some journal (fun j => ignore (do (JournalClose j false)));
  _ ← do (CleanupLocal (ms_name m));
  _ ← do (LeaseRelease lease);
  Ret (m, Some cause).

(** The image: a new filesystem, or the lazily restored volume. *)
Definition prepare_image (lease : nat) (remoteState : State) (name : string) : prog (result (option nat)) :=
  if st_Generation remoteState =? 0 then
    r ← do (CreateImage name (st_Size remoteState));
    match r with
    | Some e => Ret (Err e)
    | None =>
        r ← do (Format name (st_Filesystem remoteState));
        match r with
        | Some e => Ret (Err e)
        | None => _ ← do (Metric RestoreDuration_Observe); Ret (Ok None)
        end
    end
  else
    r ← do (PrepareLazyRestore lease name);
    match r with
    | Err e => _ ← do (Metric (MountFailures_Inc "restore")); Ret (Err e)
    | Ok image => _ ← do (Metric RestoreDuration_Observe); Ret (Ok (Some image))
    end.

Definition open_device (remoteState : State) (name : string) (lazyImage : option nat) (recovered : list Generation) : prog (result nat) :=
  r ← do (OpenDevice name (st_Size remoteState) (MaxDirty cfg));
  match r with
  | Err e => _ ← when_some lazyImage (fun l => ignore (do (LazyClose l))); Ret (Err e)
  | Ok device =>
      _ ← do (SetLazyImage device lazyImage);
      _ ← do (SetDirtyObserver device name);
      r ← (if bool_decide (recovered = []) then Ret None else do (Replay device recovered));
      match r with
      | Some e => _ ← do (DeviceClose device); Ret (Err (Wrap "replay local journal" e))
      | None =>
          _ ← do (SetBackpressureHandler device name None);
          r ← (if st_Generation remoteState =? 0 then do (MarkAllocated device) else Ret None);
          match r with
          | Some e => _ ← do (DeviceClose device); Ret (Err e)
          | None => Ret (Ok device)
          end
      end
  end.

(** The first generation of a new volume. *)
Definition publish_initial (opts : VolumeOptions) (lease device : nat) (name : string) : prog (option error) :=
  r ← (if streq (o_Seed opts) "" then Ret None
       else if negb (hasSeeder cfg) then Ret (Some (Errorf "seeding is not configured"))
       else r ← do (SeedApply name (o_Seed opts)); Ret (wrap_opt "seed" r));
  match r with
  | Some e => Ret (Some e)
  | None =>
      generation ← do (Seal device);
      r ← do (EncodeSegments generation);
      match r with
      | Err e => Ret (Some e)
      | Ok segments =>
          r ← do (Publish lease segments);
          match r with
          | Some e => Ret (Some e)
          | None => _ ← do (ReleaseGeneration device generation); Ret None
          end
      end
  end.

(** The last part of [mountFresh], which cannot fail: the syncer is started and
    the handlers are installed. *)
Definition start_syncer (opts : VolumeOptions) (lease device : nat) (name : string) (journal : option nat) (recovered : list Generation) : prog nat :=
  let interval := if o_SyncInterval opts =? 0 then cfg_SyncInterval cfg else o_SyncInterval opts in
  syncer ← do (StartSyncer device lease interval (CheckpointInterval cfg) journal);
  _ ← do (SetDirtyHandler device (Z.min (MaxDirty cfg `quot` 4) (Z.shiftl 32 20)) syncer);
  _ ← do (SetBackpressureHandler device name (Some syncer));
  _ ← (if RemoteDurability opts then do (SetDurableFlushHandler device syncer false)
       else
         _ ← do (SetDurableFlushHandler device syncer true);
         if bool_decide (recovered = []) then Ret tt
         else _ ← do (EnqueueRecovered syncer recovered); do (Notify syncer));
  _ ← do (Metric (LeaseHeld_Set name 1));
  Ret syncer.

Definition mountReadOnly (m : mountState) : prog (mountState * option error) :=
  let fail e := Ret (m, Some e) in
  r ← do (Inspect (ms_name m));
  or_fail fail r (fun state =>
  if st_Generation state =? 0 then fail (Errorf "volume has not been initialized") else
  _ ← do (CleanupLocal (ms_name m));
  r ← do (RestoreImage state (ms_name m));
  or_exit fail r (
  r ← do (OpenDevice (ms_name m) (st_Size state) (MaxDirty cfg));
  or_fail fail r (fun device =>
  r ← do (BackendMount device (ms_name m) true (st_Filesystem state));
  match r with
  | Err e => _ ← do (DeviceClose device); fail e
  | Ok unmounter =>
      _ ← do (Metric RestoreDuration_Observe);
      Ret (with_mounted (ms_lease m) device unmounter (ms_stopBeat m) m, None)
  end))).

(** [cleanupMounted] *)
Definition cleanupMounted (m : mountState) (unmounter device beat lease : nat) (journal : option nat) (cause : error) : prog (mountState * option error) :=
  _ ← do (AbandonMount unmounter);
  _ ← do (DeviceClose device);
  releaseOnFailure (reset_mount m) beat lease journal cause.

Definition mountFresh (opts : VolumeOptions) (m : mountState) : prog (mountState * option error) :=
  if ReadOnly opts then mountReadOnly m else
  r ← recover_journal opts (ms_name m);
  or_fail (fun e => Ret (m, Some e)) r (fun '(journal, recovered) =>
  r ← do (Acquire (ms_name m) (NodeID cfg) (o_Size opts) (o_Filesystem opts));
  match r with
  | Err e =>
      _ ← when_some journal (fun j => ignore (do (JournalClose j false)));
      _ ← do (Metric (MountFailures_Inc "lease"));
      Ret (m, Some e)
  | Ok lease =>
      beat ← do (StartHeartbeat lease);
      let exit := releaseOnFailure m beat lease journal in
      _ ← do (CleanupLocal (ms_name m));
      remoteState ← do (LeaseState lease);
      r ← match journal with
          | None => Ret None
          | Some j =>
              r ← do (ValidateRecovery j remoteState);
              match r with
              | Some e => Ret (Some (Wrap "revalidate local journal after lease acquisition" e))
              | None => r ← do (Rebase j remoteState); Ret (wrap_opt "adopt local journal" r)
              end
          end;
      or_exit exit r (
      r ← prepare_image lease remoteState (ms_name m);
      or_fail exit r (fun lazyImage =>
      r ← open_device remoteState (ms_name m) lazyImage recovered;
      or_fail exit r (fun device =>
      r ← do (BackendMount device (ms_name m) false (st_Filesystem remoteState));
      match r with
      | Err e => _ ← do (DeviceClose device); exit e
      | Ok unmounter =>
          let m := with_mounted (Some lease) device unmounter (Some beat) m in
          let cleanup := cleanupMounted m unmounter device beat lease in
          r ← (if st_Generation remoteState =? 0 then publish_initial opts lease device (ms_name m) else Ret None);
          or_exit (cleanup journal) r (
          r ← match journal with
              | Some j => Ret (Ok (Some j))
              | None =>
                  if LocalDurability opts then
                    state ← do (LeaseState lease);
                    r ← do (CreateJournal (ms_name m) state);
                    Ret (match r with Ok j => Ok (Some j) | Err e => Err (Wrap "create local journal" e) end)
                  else Ret (Ok None)
              end;
          or_fail (cleanup None) r (fun journal =>
          syncer ← start_syncer opts lease device (ms_name m) journal recovered;
          Ret (with_syncer (Some syncer) journal m, None)))
      end)))
  end).

(** ** Fencing and unmounting *)

Definition fence (cause : error) (m : mountState) : prog mountState :=
  if negb (ms_active m) then Ret m else
  _ ← do (Metric (LeaseFenced_Inc (ms_name m)));
  _ ← do (Metric (LeaseHeld_Set (ms_name m) 0));
  _ ← when_some (ms_syncer m) (fun s => do (SyncerAbandon s));
  _ ← when_some (ms_journal m) (fun j => ignore (do (JournalClose j false)));
  _ ← when_some (ms_stopBeat m) (fun b => do (StopBeat b));
  _ ← when_some (ms_unmounter m) (fun u => ignore (do (AbandonMount u)));
  _ ← when_some (ms_device m) (fun d => ignore (do (DeviceClose d)));
  _ ← do (CleanupLocal (ms_name m));
  _ ← do (Metric MountedVolumes_Dec);
  _ ← do (Metric (UnpublishedBytes_Delete (ms_name m)));
  Ret (with_fenced (Some cause) (reset_mount m)).

Definition abandonUnmounted (cause : error) (m : mountState) : prog (mountState * option error) :=
  _ ← do (Metric (MountFailures_Inc "final_sync"));
  _ ← when_some (ms_syncer m) (fun s => do (SyncerAbandon s));
  _ ← when_some (ms_journal m) (fun j => ignore (do (JournalClose j false)));
  _ ← when_some (ms_stopBeat m) (fun b => do (StopBeat b));
  _ ← when_some (ms_lease m) (fun l => ignore (do (LeaseRelease l)));
  _ ← do (Metric (LeaseHeld_Set (ms_name m) 0));
  _ ← when_some (ms_device m) (fun d => ignore (do (DeviceClose d)));
  _ ← do (Metric MountedVolumes_Dec);
  _ ← do (Metric (UnpublishedBytes_Delete (ms_name m)));
  _ ← do (CleanupLocal (ms_name m));
  Ret (reset_mount m, Some cause).

(** The device and the journal of a volume that has been synced are closed. *)
Definition close_unmounted (m : mountState) : prog (mountState * option error) :=
  match ms_device m with
  | None => Ret (m, Some Panic)
  | Some device =>
      r ← do (DeviceClose device);
      or_exit (fun e => Ret (m, Some e)) r (
      r ← match ms_journal m with Some j => do (JournalClose j true) | None => Ret None end;
      or_exit (fun e => Ret (m, Some e)) r (
      _ ← do (Metric MountedVolumes_Dec);
      _ ← do (Metric (UnpublishedBytes_Delete (ms_name m)));
      _ ← do (CleanupLocal (ms_name m));
      Ret (reset_mount m, None)))
  end.

Definition unmountLast (m : mountState) : prog (mountState * option error) :=
  match ms_unmounter m with
  | None => Ret (m, Some Panic)
  | Some unmounter =>
      r ← do (UnmountFs unmounter);
      or_exit (fun e => Ret (m, Some e)) r (
      match ms_syncer m with
      | None => close_unmounted m
      | Some syncer =>
          r ← do (SyncCheckpoint syncer);
          or_exit (fun e => abandonUnmounted (Wrap "final sync" e) m) r (
          match ms_stopBeat m with
          | None => Ret (m, Some Panic)
          | Some beat =>
              _ ← do (StopBeat beat);
              r ← do (SyncerStop syncer);
              or_exit (fun e => abandonUnmounted (Wrap "release" e) m) r (
              _ ← do (Metric (LeaseHeld_Set (ms_name m) 0));
              _ ← do (Metric SyncDuration_Observe);
              close_unmounted m)
          end)
      end)
  end.

(** ** The handlers, on the mount they are about *)

Inductive response : Type := Mounted (name : string) | Finished (err : option error).

Definition Mount (opts : VolumeOptions) (id : string) (m : mountState) : prog (mountState * response) :=
  match ms_fenced m with
  | Some cause => Ret (m, Finished (Some (Wrap "volume was fenced on this node" cause)))
  | None =>
      if ms_active m then Ret (with_ids (ms_mountIDs m ∪ {[id]}) m, Mounted (ms_name m)) else
      '(m, err) ← mountFresh opts m;
      match err with
      | Some e => Ret (m, Finished (Some e))
      | None => _ ← do (Metric MountedVolumes_Inc); Ret (with_ids (ms_mountIDs m ∪ {[id]}) m, Mounted (ms_name m))
      end
  end.

Definition Unmount (id : string) (m : mountState) : prog (mountState * response) :=
  let m := with_ids (ms_mountIDs m ∖ {[id]}) m in
  match ms_fenced m with
  | Some _ => Ret (if bool_decide (ms_mountIDs m = ∅) then with_fenced None m else m, Finished None)
  | None =>
      if negb (ms_active m) || negb (bool_decide (ms_mountIDs m = ∅)) then Ret (m, Finished None) else
      '(m, err) ← unmountLast m; Ret (m, Finished err)
  end.

(** [Shutdown], on one mount. *)
Definition Shutdown (m : mountState) : prog (mountState * response) :=
  if ms_active m then '(m, err) ← unmountLast m; Ret (m, Finished err) else Ret (m, Finished None).

(** What [Remove] deletes: the remote volume, or the family of a per-replica one,
    the local files of its mounts, those under its own name, and its record. *)
Fixpoint cleanup_mounts (names : list string) : prog unit :=
  match names with
  | [] => Ret tt
  | name :: names => _ ← do (CleanupLocal name); _ ← do (RemoveJournal name); cleanup_mounts names
  end.

Definition remove_volume (opts : VolumeOptions) (volume : string) (mounts : list string) : prog (option error) :=
  r ← (if PerReplica opts then do (DeleteFamily volume) else do (DeleteRemote volume));
  match match r with Some e => if errors_Is e ErrNotFound then None else Some e | None => None end with
  | Some e => Ret (Some e)
  | None =>
      _ ← cleanup_mounts (mounts ++ [volume]);
      r ← do (RemoveRegistry volume);
      Ret match r with Some e => if errors_Is e ErrNotExist then None else Some e | None => None end
  end.

(** [Remove], on one mount of the volume: the mount itself is left as it is, for
    the requests that have looked it up. *)
Definition remove_mount (opts : VolumeOptions) (volume : string) (m : mountState) : prog (mountState * response) :=
  if ms_active m then Ret (m, Finished (Some (Errorf "volume is mounted on this node"))) else
  r ← remove_volume opts volume [ms_name m]; Ret (m, Finished r).

Inductive mount_op : Type :=
  | OpMount (id : string)
  | OpUnmount (id : string)
  | OpFence (cause : error)
  | OpShutdown
  | OpRemove (volume : string).

Definition mount_body (opts : VolumeOptions) (op : mount_op) (m : mountState) : prog (mountState * response) :=
  match op with
  | OpMount id => Mount opts id m
  | OpUnmount id => Unmount id m
  | OpFence cause => m ← fence cause m; Ret (m, Finished None)
  | OpShutdown => Shutdown m
  | OpRemove volume => remove_mount opts volume m
  end.
End driver.
