(* ===== verification/DriverProps.v ===== *)
(** * The volume driver: what is open, and a logic for its programs

    The ledger records what a mount has open: the journal, the lease, the
    heartbeat, a lazy image that no device has taken over, the device, the
    filesystem and the syncer; and whether the local journal's file may hold data
    that is not published.  A piece leaves the ledger when the call that closes it
    has been made; a failed unmount or a failed stop of the syncer leaves it there,
    and what other closing calls answer is in the trace.  Every call has a
    precondition on the ledger. *)
From S2P Require Import Prelude Extents Segment Types Options Metrics Driver.
Local Open Scope Z_scope.

Record ledger : Type := mkLedger {
  g_journal : option nat; g_lease : option nat; g_beat : option nat; g_lazy : option nat;
  g_device : option nat; g_fs : option nat; g_syncer : option nat; g_data : bool;
}.

(** Nothing is open, but for a lease that nobody renews: a fence drops it. *)
Definition at_rest (lease : option nat) (data : bool) : ledger := mkLedger None lease None None None None None data.

(** What is open after [h] was closed. *)
Definition shut (h : nat) (open : option nat) : option nat := if bool_decide (open = Some h) then None else open.

(** What a call leaves open.  [Syncer.Stop] releases the lease. *)
Definition after {A} (c : call A) : A → ledger → ledger :=
  match c in call A return A → ledger → ledger with
  | OpenJournal _ => fun a '(mkLedger j l b z d f s x) =>
      match a with Ok (j, gens) => mkLedger (Some j) l b z d f s (negb (bool_decide (gens = []))) | Err _ => mkLedger j l b z d f s x end
  | CreateJournal _ _ => fun a '(mkLedger j l b z d f s x) => mkLedger (match a with Ok j => Some j | Err _ => j end) l b z d f s x
  | JournalClose h _ => fun _ '(mkLedger j l b z d f s x) => mkLedger (shut h j) l b z d f s x
  | Acquire _ _ _ _ => fun a '(mkLedger j l b z d f s x) => mkLedger j (match a with Ok l => Some l | Err _ => l end) b z d f s x
  | LeaseRelease h => fun _ '(mkLedger j l b z d f s x) => mkLedger j (shut h l) b z d f s x
  | StartHeartbeat _ => fun a '(mkLedger j l b z d f s x) => mkLedger j l (Some a) z d f s x
  | StopBeat h => fun _ '(mkLedger j l b z d f s x) => mkLedger j l (shut h b) z d f s x
  | PrepareLazyRestore _ _ => fun a '(mkLedger j l b z d f s x) => mkLedger j l b (match a with Ok z => Some z | Err _ => z end) d f s x
  | LazyClose h => fun _ '(mkLedger j l b z d f s x) => mkLedger j l b (shut h z) d f s x
  | SetLazyImage _ h => fun _ '(mkLedger j l b z d f s x) => mkLedger j l b (match h with Some h => shut h z | None => z end) d f s x
  | OpenDevice _ _ _ => fun a '(mkLedger j l b z d f s x) => mkLedger j l b z (match a with Ok d => Some d | Err _ => d end) f s x
  | DeviceClose h => fun _ '(mkLedger j l b z d f s x) => mkLedger j l b z (shut h d) f s x
  | BackendMount _ _ _ _ => fun a '(mkLedger j l b z d f s x) => mkLedger j l b z d (match a with Ok f => Some f | Err _ => f end) s x
  | UnmountFs h => fun a '(mkLedger j l b z d f s x) => mkLedger j l b z d (match a with None => shut h f | Some _ => f end) s x
  | AbandonMount h => fun _ '(mkLedger j l b z d f s x) => mkLedger j l b z d (shut h f) s x
  | StartSyncer _ _ _ _ journal => fun a '(mkLedger j l b z d f s x) => mkLedger j l b z d f (Some a) (match journal with Some _ => true | None => x end)
  | SyncerStop h => fun a '(mkLedger j l b z d f s x) =>
      match a with None => mkLedger j None b z d f (shut h s) false | Some _ => mkLedger j l b z d f s x end
  | SyncerAbandon h => fun _ '(mkLedger j l b z d f s x) => mkLedger j l b z d f (shut h s) x
  | RemoveJournal _ => fun _ '(mkLedger j l b z d f s x) => mkLedger j l b z d f s false
  | _ => fun _ σ => σ
  end.

(** What is known of the life of a mount: that it has not been fenced, and that
    no unmount or close has failed. *)
Record mode : Type := mkMode { unfenced : bool; intact : bool }.

(** The piece [h] may be closed: it is open, or has been closed by a call that
    answered with an error and is tried again; no other one is open. *)
Definition usable (md : mode) (h : nat) (open : option nat) : Prop :=
  if intact md then open = Some h else open = None ∨ open = Some h.

(** When a call is in order. *)
Definition pre (md : mode) {A} (c : call A) (σ : ledger) : Prop :=
  match c with
  | OpenJournal _ => g_journal σ = None
  | CreateJournal _ _ => g_journal σ = None ∧ g_data σ = false
  | ValidateRecovery j _ | Rebase j _ => g_journal σ = Some j
  | JournalClose j remove => usable md j (g_journal σ) ∧ (remove = true → g_data σ = false)
  | Acquire _ _ _ _ => g_beat σ = None ∧ g_syncer σ = None ∧ g_fs σ = None ∧ (unfenced md = true → g_lease σ = None)
  | LeaseState l | Publish l _ => g_lease σ = Some l
  | LeaseRelease l => usable md l (g_lease σ) ∧ g_fs σ = None ∧ g_syncer σ = None
  | PrepareLazyRestore l _ => g_lease σ = Some l ∧ g_lazy σ = None ∧ g_device σ = None
  | RestoreImage _ _ | CreateImage _ _ | Format _ _ => g_device σ = None
  | StartHeartbeat l => g_lease σ = Some l ∧ g_beat σ = None
  | StopBeat b => g_beat σ = None ∨ g_beat σ = Some b
  | CleanupLocal _ => g_device σ = None ∧ g_fs σ = None
  | LazyClose z => g_lazy σ = Some z
  | OpenDevice _ _ _ => g_device σ = None
  | SetLazyImage d z => g_device σ = Some d ∧ g_lazy σ = z
  | SetDirtyObserver d _ | Replay d _ | SetBackpressureHandler d _ _ | MarkAllocated d | Seal d
  | ReleaseGeneration d _ | SetDirtyHandler d _ _ | SetDurableFlushHandler d _ _ => g_device σ = Some d
  | DeviceClose d => usable md d (g_device σ) ∧ g_fs σ = None
  | BackendMount d _ readOnly _ => g_device σ = Some d ∧ g_fs σ = None ∧ (readOnly = false → g_lease σ ≠ None ∧ g_beat σ ≠ None)
  | UnmountFs u | AbandonMount u => usable md u (g_fs σ)
  | SeedApply _ _ => g_fs σ ≠ None
  | StartSyncer d l _ _ j => g_device σ = Some d ∧ g_lease σ = Some l ∧ g_syncer σ = None ∧ g_journal σ = j
  | EnqueueRecovered s _ | Notify s => g_syncer σ = Some s
  | SyncCheckpoint s | SyncerStop s => usable md s (g_syncer σ) ∧ g_fs σ = None
  | SyncerAbandon s => usable md s (g_syncer σ)
  | DeleteRemote _ | DeleteFamily _ => g_journal σ = None ∧ g_beat σ = None ∧ g_device σ = None ∧ g_fs σ = None ∧ g_syncer σ = None
  | RemoveJournal _ => g_journal σ = None
  | _ => True
  end.

(** Which answers can come: a journal that cannot be found, or is empty, holds
    no data. *)
Definition possible {A} (c : call A) (σ : ledger) : A → Prop :=
  match c in call A return A → Prop with
  | OpenJournal _ => fun a =>
      match a with
      | Ok (_, gens) => gens = [] → g_data σ = false
      | Err e => errors_Is e ErrNotExist = true → g_data σ = false
      end
  | _ => fun _ => True
  end.

(** ** Executions *)

Inductive call_answer : Type := | Ev {A : Type} (c : call A) (a : A).

Inductive exec {R : Type} : prog R → ledger → list call_answer → R → ledger → Prop :=
  | exec_ret r σ : exec (Ret r) σ [] r σ
  | exec_do {A} (c : call A) rest σ (a : A) tr r σ' :
      possible c σ a → exec (rest a) (after c a σ) tr r σ' → exec (Do c rest) σ (Ev c a :: tr) r σ'.

(** The program comes to make the call [c] when [σ'] is open, after [tr]. *)
Inductive reaches {R : Type} : prog R → ledger → list call_answer → ∀ A, call A → ledger → Prop :=
  | reach_now {A} (c : call A) rest σ : reaches (Do c rest) σ [] A c σ
  | reach_later {A} (c : call A) rest σ (a : A) tr B (c' : call B) σ' :
      possible c σ a → reaches (rest a) (after c a σ) tr B c' σ' → reaches (Do c rest) σ (Ev c a :: tr) B c' σ'.

(** ** Weakest preconditions *)

(** [usual] says which answers are considered. *)
Fixpoint wp {R} (md : mode) (usual : call_answer → Prop) (p : prog R) (Q : R → ledger → Prop) (σ : ledger) : Prop :=
  match p with
  | Ret r => Q r σ
  | Do c rest => pre md c σ ∧ ∀ a, possible c σ a → usual (Ev c a) → wp md usual (rest a) Q (after c a σ)
  end.

Lemma wp_bind {R S} md usual (f : R → prog S) (p : prog R) Q σ :
  wp md usual p (fun r σ => wp md usual (f r) Q σ) σ → wp md usual (p ≫= f) Q σ.
Proof.
  revert σ. induction p as [r|A c rest IH]; intros σ; [done|]. intros [Hpre Hwp]. split; [done|].
  intros a Ha Hu. apply IH. by apply Hwp.
Qed.

Lemma wp_mono {R} md usual (p : prog R) (Q Q' : R → ledger → Prop) σ :
  (∀ r σ, Q r σ → Q' r σ) → wp md usual p Q σ → wp md usual p Q' σ.
Proof.
  intros HQ. revert σ. induction p as [r|A c rest IH]; intros σ; [apply HQ|]. intros [Hpre Hwp]. split; [done|].
  intros a Ha Hu. apply IH. by apply Hwp.
Qed.

Lemma wp_exec {R} md usual (p : prog R) Q σ tr r σ' : wp md usual p Q σ → exec p σ tr r σ' → Forall usual tr → Q r σ'.
Proof.
  intros Hwp He. revert Hwp. induction He as [r σ|A c rest σ a tr r σ' Hp He IH]; [done|].
  intros [_ Hwp] [Hu Htr]%Forall_cons. apply IH; [|done]. by apply Hwp.
Qed.

Lemma wp_reaches {R} md usual (p : prog R) Q σ tr A (c : call A) σ' :
  wp md usual p Q σ → reaches p σ tr A c σ' → Forall usual tr → pre md c σ'.
Proof.
  intros Hwp Hr. revert Hwp. induction Hr as [A c rest σ|A c rest σ a tr B c' σ' Hp Hr IH]; [by intros [? _]|].
  intros [_ Hwp] [Hu Htr]%Forall_cons. apply IH; [|done]. by apply Hwp.
Qed.

Lemma shut_same h : shut h (Some h) = None.
Proof. unfold shut. by rewrite bool_decide_eq_true_2. Qed.
Lemma shut_None h : shut h None = None.
Proof. done. Qed.
Lemma shut_either h open : open = None ∨ open = Some h → shut h open = None.
Proof. intros [->| ->]; [done|apply shut_same]. Qed.
#[export] Hint Rewrite shut_same shut_None : satchel.

(** ** What becomes of the pieces *)

Inductive piece : Type :=
  | PJournal (h : nat) | PLease (h : nat) | PBeat (h : nat) | PLazy (h : nat) | PDevice (h : nat) | PFs (h : nat) | PSyncer (h : nat).

Definition holds (σ : ledger) (p : piece) : Prop :=
  match p with
  | PJournal h => g_journal σ = Some h | PLease h => g_lease σ = Some h | PBeat h => g_beat σ = Some h | PLazy h => g_lazy σ = Some h
  | PDevice h => g_device σ = Some h | PFs h => g_fs σ = Some h | PSyncer h => g_syncer σ = Some h
  end.

(** The answer opens a piece. *)
Definition opens (ev : call_answer) : option piece :=
  match ev with
  | Ev c a =>
      match c in call A return A → option piece with
      | OpenJournal _ => fun a => match a with Ok (h, _) => Some (PJournal h) | Err _ => None end
      | CreateJournal _ _ => fun a => match a with Ok h => Some (PJournal h) | Err _ => None end
      | Acquire _ _ _ _ => fun a => match a with Ok h => Some (PLease h) | Err _ => None end
      | StartHeartbeat _ => fun a => Some (PBeat a)
      | PrepareLazyRestore _ _ => fun a => match a with Ok h => Some (PLazy h) | Err _ => None end
      | OpenDevice _ _ _ => fun a => match a with Ok h => Some (PDevice h) | Err _ => None end
      | BackendMount _ _ _ _ => fun a => match a with Ok h => Some (PFs h) | Err _ => None end
      | StartSyncer _ _ _ _ _ => fun a => Some (PSyncer a)
      | _ => fun _ => None
      end a
  end.

(** The call that closes a piece is made, whatever it answers; an unmount and a
    stop of the syncer, which may be tried again, count only when they succeed. A
    lazy image is handed to the device, and a lease released with the syncer. *)
Definition closes (ev : call_answer) (p : piece) : Prop :=
  match ev with
  | Ev c a =>
      match c in call A return A → Prop with
      | JournalClose h _ => fun _ => p = PJournal h
      | LeaseRelease h => fun _ => p = PLease h
      | StopBeat h => fun _ => p = PBeat h
      | LazyClose h => fun _ => p = PLazy h
      | SetLazyImage _ z => fun _ => PLazy <$> z = Some p
      | DeviceClose h => fun _ => p = PDevice h
      | UnmountFs h => fun a => a = None ∧ p = PFs h
      | AbandonMount h => fun _ => p = PFs h
      | SyncerStop h => fun a => a = None ∧ (p = PSyncer h ∨ ∃ l, p = PLease l)
      | SyncerAbandon h => fun _ => p = PSyncer h
      | _ => fun _ => False
      end a
  end.

(** A lease that a fence dropped. *)
Definition dropped_lease (md : mode) (p : piece) : Prop := unfenced md = false ∧ ∃ l, p = PLease l.

Lemma opens_holds {A} (c : call A) a σ p : opens (Ev c a) = Some p → holds (after c a σ) p.
Proof.
  destruct σ, c; cbn; try done; try (by intros [= <-]); destruct a as [x|e]; try done; try (by intros [= <-]).
  destruct x. by intros [= <-].
Qed.

Lemma shut_keeps h open h' : open = Some h' → shut h open = Some h' ∨ h' = h.
Proof. intros ->. unfold shut. case_bool_decide as Hh; [right; congruence|by left]. Qed.

Lemma pre_keeps md {A} (c : call A) a σ p :
  pre md c σ → holds σ p → holds (after c a σ) p ∨ closes (Ev c a) p ∨ dropped_lease md p.
Proof.
  intros Hpre Hp.
  assert (∀ h open h' (P : Prop), open = Some h' → (h' = h → P) → shut h open = Some h' ∨ P ∨ dropped_lease md p) as Hshut.
  { intros h open h' P Ho HP. destruct (shut_keeps h open h' Ho); auto. }
  destruct σ as [j l b z d f s x], c; cbn in Hpre |- *; try (by left); try (destruct a as [[]|]; by left); destruct p; cbn in Hp |- *; try (by left).
  all: try (apply Hshut; [exact Hp|by intros ->]).
  all: try (destruct a as [[]|] || destruct a; cbn; first [by left|intuition congruence]).
  all: try (intuition congruence).
  - destruct Hpre as (_ & _ & _ & Hl). right. right. split; [|by eexists].
    destruct (unfenced md); [|done]. rewrite Hp in Hl. by discriminate (Hl eq_refl).
  - destruct image as [z'|]; [|by left]. apply Hshut; [exact Hp|by intros ->].
  - destruct a; [by left|]. apply Hshut; [exact Hp|by intros ->].
  - destruct a; [by left|]. right. left. split; [done|]. right. by eexists.
  - destruct a; [by left|]. apply Hshut; [exact Hp|]. intros ->. split; [done|by left].
Qed.

(** A piece that is open when a program starts, or is opened by it, is still
    open when it ends, or the call that closes it has been made since. *)
Lemma exec_keeps {R} md usual (prg : prog R) Q σ tr r σ' p :
  wp md usual prg Q σ → exec prg σ tr r σ' → Forall usual tr → holds σ p →
  holds σ' p ∨ (∃ ev, ev ∈ tr ∧ closes ev p) ∨ dropped_lease md p.
Proof.
  intros Hwp He. revert Hwp. induction He as [r σ|A c rest σ a tr r σ' Ha He IH]; [by left|].
  intros [Hpre Hwp] [Hu Htr]%Forall_cons Hp. destruct (pre_keeps md c a σ p Hpre Hp) as [Hp'|[Hc|Hd]]; [|right; left; set_solver|by right; right].
  destruct (IH (Hwp a Ha Hu) Htr Hp') as [?|[(ev & ? & ?)|?]]; [by left| |by right; right]. right. left. exists ev. set_solver.
Qed.

Lemma exec_opens {R} md usual (prg : prog R) Q σ tr r σ' tr1 ev tr2 p :
  wp md usual prg Q σ → exec prg σ tr r σ' → Forall usual tr → tr = tr1 ++ ev :: tr2 → opens ev = Some p →
  holds σ' p ∨ (∃ ev, ev ∈ tr2 ∧ closes ev p) ∨ dropped_lease md p.
Proof.
  intros Hwp He. revert Hwp tr1. induction He as [r σ|A c rest σ a tr r σ' Ha He IH]; [by intros _ [] _ ?|].
  intros [Hpre Hwp] [|ev1 tr1] [Hu Htr]%Forall_cons Heq Hop.
  - injection Heq as <- <-. eapply exec_keeps; [by apply Hwp|done..|]. by apply opens_holds.
  - injection Heq as _ Heq. by eapply IH; [apply Hwp|..].
Qed.

(** ** Which calls a program makes *)

Fixpoint only_calls {R} (P : call_answer → Prop) (p : prog R) : Prop :=
  match p with Ret _ => True | Do c rest => ∀ a, P (Ev c a) ∧ only_calls P (rest a) end.

Lemma only_calls_bind {R S} P (f : R → prog S) (p : prog R) :
  only_calls P p → (∀ r, only_calls P (f r)) → only_calls P (p ≫= f).
Proof. intros Hp Hf. induction p as [r|A c rest IH]; [apply Hf|]. intros a. destruct (Hp a) as [Hc Ha]. split; [done|]. by apply IH. Qed.

Lemma only_calls_exec {R} P (p : prog R) σ tr r σ' : only_calls P p → exec p σ tr r σ' → Forall P tr.
Proof.
  intros Hp He. revert Hp. induction He as [r σ|A c rest σ a tr r σ' _ He IH]; [done|]. intros Hp. destruct (Hp a) as [Hc Ha].
  constructor; [done|]. by apply IH.
Qed.
