(* ===== verification/DriverTheorems.v ===== *)
(** * The volume driver: theorems *)
From S2P Require Import Prelude Extents Segment Types Options Metrics Driver DriverProps.
Local Open Scope Z_scope.

Lemma usable_open md h : usable md h (Some h).
Proof. unfold usable. destruct (intact md); by auto. Qed.

(** One call: its precondition, then every answer. *)
Ltac wp_eval := cbn [mbind prog_mbind prog_bind do ignore when_some or_fail or_exit wp after pre possible mret prog_mret
  g_journal g_lease g_beat g_lazy g_device g_fs g_syncer g_data].
Tactic Notation "wp_call" simple_intropattern(p) := wp_eval; split; [|intros p ? ?; wp_eval; rewrite ?shut_same, ?shut_None].
Ltac in_order := split_and?; first [done|apply usable_open|by right|by left].
Tactic Notation "wp_done" simple_intropattern(p) := wp_call p; [in_order|..].

(** ** The parts of a mount *)

Section parts.
Context (cfg : Config) (md : mode) (usual : call_answer → Prop).
Implicit Types (j z : option nat) (x : bool).

(** The ledger while a volume is being set up. *)
Definition setup j (lease beat : nat) z (d f s : option nat) x : ledger := mkLedger j (Some lease) (Some beat) z d f s x.

Lemma recover_journal_wp opts name l x :
  wp md usual (recover_journal opts name) (fun r σ => ∃ x', match r with
    | Ok (j, gens) => σ = mkLedger j l None None None None None x' ∧ (LocalDurability opts = true → j = None → x' = false)
    | Err _ => σ = at_rest l x'
    end) (at_rest l x).
Proof.
  unfold recover_journal, at_rest. destruct (LocalDurability opts) eqn:Hl; cbn [negb]; [|by exists x].
  wp_done [[j gens]|e].
  - case_bool_decide as Hg; wp_eval.
    + subst gens. wp_done [e|]; by eauto.
    + wp_done [st|e]; [|wp_done ?; by eauto]. wp_done [e|]; [wp_done ?; by eauto|]. eexists. split; [done|]. discriminate.
  - destruct (errors_Is e ErrNotExist); wp_eval; exists x; [|done]. split; [done|]. by auto.
Qed.

Lemma releaseOnFailure_wp m beat lease j cause x :
  wp md usual (releaseOnFailure m beat lease j cause) (fun r σ => r = (m, Some cause) ∧ ∃ x', σ = at_rest None x')
    (setup j lease beat None None None None x).
Proof.
  unfold releaseOnFailure, setup. destruct j as [j|]; repeat wp_done ?; by eauto.
Qed.

Lemma prepare_image_wp lease st name j beat x :
  wp md usual (prepare_image lease st name) (fun r σ => match r with
    | Ok z => σ = setup j lease beat z None None None x
    | Err _ => σ = setup j lease beat None None None None x
    end) (setup j lease beat None None None None x).
Proof.
  unfold prepare_image, setup. destruct (st_Generation st =? 0).
  - wp_done [e|]; [done|]. wp_done [e|]; [done|]. by wp_done ?.
  - wp_done [z|e]; by wp_done ?.
Qed.

Lemma open_device_wp st name z gens j lease beat x :
  wp md usual (open_device cfg st name z gens) (fun r σ => match r with
    | Ok d => σ = setup j lease beat None (Some d) None None x
    | Err _ => σ = setup j lease beat None None None None x
    end) (setup j lease beat z None None None x).
Proof.
  unfold open_device, setup. wp_done [d|e]; [|destruct z; [by wp_done ?|done]].
  wp_done ?. assert (match z with Some h => shut h z | None => z end = None) as -> by (destruct z; [apply shut_same|done]).
  wp_done ?. apply wp_bind. apply (wp_mono _ _ _ (fun _ σ => σ = setup j lease beat None (Some d) None None x)).
  2: { case_bool_decide; [done|by wp_done ?]. }
  unfold setup. intros [e|] σ ->; [by wp_done ?|]. wp_done ?. destruct (st_Generation st =? 0); [|done].
  wp_done [e|]; [by wp_done ?|done].
Qed.

Lemma publish_initial_wp opts lease d name j beat f x :
  wp md usual (publish_initial cfg opts lease d name) (fun _ σ => σ = setup j lease beat None (Some d) (Some f) None x)
    (setup j lease beat None (Some d) (Some f) None x).
Proof.
  unfold publish_initial, setup.
  assert (wp md usual (generation ← do (Seal d); r ← do (EncodeSegments generation);
      match r with
      | Err e => Ret (Some e)
      | Ok segments => r ← do (Publish lease segments);
          match r with Some e => Ret (Some e) | None => _ ← do (ReleaseGeneration d generation); Ret None end
      end) (fun _ σ => σ = setup j lease beat None (Some d) (Some f) None x) (setup j lease beat None (Some d) (Some f) None x)) as Hrest.
  { unfold setup. wp_done g. wp_done [segments|e]; [|done]. wp_done [e|]; [done|]. by wp_done ?. }
  destruct (streq (o_Seed opts) ""); [exact Hrest|]. destruct (hasSeeder cfg); [|done]. cbn [negb].
  wp_done [e|]; [done|]. exact Hrest.
Qed.

Lemma start_syncer_wp opts lease d name j gens beat f x :
  wp md usual (start_syncer cfg opts lease d name j gens) (fun s σ => ∃ x', σ = setup j lease beat None (Some d) (Some f) (Some s) x')
    (setup j lease beat None (Some d) (Some f) None x).
Proof.
  unfold start_syncer, setup. wp_done s. wp_done ?. wp_done ?. destruct (RemoteDurability opts).
  - wp_done ?. wp_done ?. by eauto.
  - wp_done ?. case_bool_decide; wp_eval; [wp_done ?; by eauto|]. wp_done ?. wp_done ?. wp_done ?. by eauto.
Qed.
End parts.

(** ** Mounting *)

(** A mount without anything mounted. *)
Definition idle (m : mountState) : Prop := ms_active m = false ∧ reset_mount m = m.

(** The pieces a mounted volume has: a read-only one has no lease, heartbeat,
    syncer and journal. *)
Definition serving (m : mountState) : Prop :=
  ms_active m = true ∧ ms_fenced m = None ∧ is_Some (ms_device m) ∧ is_Some (ms_unmounter m) ∧
  match ms_syncer m with
  | None => ms_lease m = None ∧ ms_journal m = None ∧ ms_stopBeat m = None
  | Some _ => is_Some (ms_lease m) ∧ is_Some (ms_stopBeat m)
  end.

(** What the ledger is when exactly the mount's own pieces are open. *)
Definition exactly (m : mountState) (x : bool) : ledger :=
  mkLedger (ms_journal m) (ms_lease m) (ms_stopBeat m) None (ms_device m) (ms_unmounter m) (ms_syncer m) x.

Section mounting.
Context (cfg : Config) (md : mode) (usual : call_answer → Prop).

(** A mount that fails leaves the mount as it was and nothing open (a lease that
    was dropped before, [l], may still be there); one that succeeds has opened
    exactly its own pieces. *)
Definition mount_outcome (readOnly : bool) (l : option nat) (m : mountState) (r : mountState * option error) (σ : ledger) : Prop :=
  match r.2 with
  | Some _ => r.1 = m ∧ ∃ l' x, σ = at_rest l' x ∧ (l' = None ∨ l' = l)
  | None => serving r.1 ∧ (readOnly = true → ms_lease r.1 = None) ∧ ∃ x, σ = exactly r.1 x
  end.

Lemma failed_outcome ro l m e l' x : l' = None ∨ l' = l → mount_outcome ro l m (m, Some e) (at_rest l' x).
Proof. intros Hl. split; [done|]. by eauto. Qed.
Ltac failed := first [apply failed_outcome; by left|apply failed_outcome; by right].

Lemma mountReadOnly_wp l m x :
  idle m → ms_fenced m = None → l = None → wp md usual (mountReadOnly cfg m) (mount_outcome true l m) (at_rest l x).
Proof.
  intros Hm Hf Hl. pose proof Hm as [_ Hr]. unfold mountReadOnly, at_rest.
  wp_done [st|e]; [|failed]. destruct (st_Generation st =? 0); [failed|].
  wp_done ?. wp_done [e|]; [failed|]. wp_done [d|e]; [|failed].
  wp_done [u|e]; [wp_done ?|wp_done ?; failed].
  split_and!; rewrite <-Hr; [unfold serving; cbn; by eauto 10|done|]. exists x. by rewrite Hl.
Qed.

Lemma cleanupMounted_wp l m u d beat lease j cause x :
  wp md usual (cleanupMounted m u d beat lease j cause) (mount_outcome false l (reset_mount m))
    (setup j lease beat None (Some d) (Some u) None x).
Proof.
  unfold cleanupMounted, setup. wp_done ?. wp_done ?.
  eapply wp_mono; [|apply (releaseOnFailure_wp md usual _ beat lease j cause x)].
  intros r σ [-> [x' ->]]. failed.
Qed.

Lemma mountFresh_wp opts l m x :
  idle m → ms_fenced m = None → (ReadOnly opts = true → l = None) → (unfenced md = true → l = None) → wp md usual (mountFresh cfg opts m) (mount_outcome (ReadOnly opts) l m) (at_rest l x).
Proof.
  intros Hm Hf Hl Hd. pose proof Hm as [_ Hr]. unfold mountFresh. destruct (ReadOnly opts); [by apply mountReadOnly_wp; auto|].
  apply wp_bind. eapply wp_mono; [|apply recover_journal_wp]. intros [[j gens]|e] σ [x1 Hσ]; [|subst σ; failed].
  destruct Hσ as [-> Hdata]. wp_done [lease|e]; [|destruct j; [wp_done ?|]; wp_done ?; failed].
  wp_done beat. wp_done ?. wp_done st. fold (setup j lease beat None None None None x1).
  assert (∀ cause x', wp md usual (releaseOnFailure m beat lease j cause) (mount_outcome false l m) (setup j lease beat None None None None x')) as Hexit.
  { intros cause x'. eapply wp_mono; [|apply releaseOnFailure_wp]. intros r σ [-> [x2 ->]]. failed. }
  apply wp_bind. apply (wp_mono _ _ _ (fun _ σ => σ = setup j lease beat None None None None x1)).
  2: { destruct j as [j|]; [|done]. unfold setup. wp_done [e|]; [done|]. by wp_done ?. }
  intros [e|] σ ->; [apply Hexit|]. cbn [or_exit].
  apply wp_bind. eapply wp_mono; [|apply prepare_image_wp]. intros [z|e] σ ->; [|apply Hexit]. cbn [or_fail].
  apply wp_bind. eapply wp_mono; [|apply open_device_wp]. intros [d|e] σ ->; [|apply Hexit]. cbn [or_fail].
  unfold setup. wp_done [u|e]; [|wp_done ?; apply Hexit].
  set (m' := with_mounted _ _ _ _ m). assert (reset_mount m' = m) as Hreset by (by rewrite <-Hr).
  assert (∀ j' cause x', wp md usual (cleanupMounted m' u d beat lease j' cause) (mount_outcome false l m) (setup j' lease beat None (Some d) (Some u) None x')) as Hclean.
  { intros j' cause x'. pose proof (cleanupMounted_wp l m' u d beat lease j' cause x') as Hwp. by rewrite Hreset in Hwp. }
  fold (setup j lease beat None (Some d) (Some u) None x1).
  apply wp_bind. apply (wp_mono _ _ _ (fun _ σ => σ = setup j lease beat None (Some d) (Some u) None x1)).
  2: { destruct (st_Generation st =? 0); [apply publish_initial_wp|done]. }
  intros [e|] σ ->; [apply Hclean|]. cbn [or_exit].
  apply wp_bind. apply (wp_mono _ _ _ (fun r σ => match r with
    | Ok j' => σ = setup j' lease beat None (Some d) (Some u) None x1
    | Err _ => σ = setup None lease beat None (Some d) (Some u) None x1
    end)).
  2: { destruct j as [j|]; [done|]. destruct (LocalDurability opts); [|done]. unfold setup. wp_done st2.
       wp_call [j'|e]; [by rewrite Hdata|done..]. }
  intros [j'|e] σ ->; [|apply Hclean]. cbn [or_fail].
  apply wp_bind. eapply wp_mono; [|apply start_syncer_wp]. intros s σ [x2 ->].
  split_and!; [|done|by exists x2]. unfold serving. cbn. by eauto 10.
Qed.
End mounting.

(** ** Unmounting and fencing *)

(** Nothing is open that is not one of the mount's pieces. *)
Definition within (open piece : option nat) : Prop := open = None ∨ open = piece.
Definition covered (m : mountState) (σ : ledger) : Prop :=
  within (g_journal σ) (ms_journal m) ∧ within (g_lease σ) (ms_lease m) ∧ within (g_beat σ) (ms_stopBeat m) ∧ g_lazy σ = None ∧
  within (g_device σ) (ms_device m) ∧ within (g_fs σ) (ms_unmounter m) ∧ within (g_syncer σ) (ms_syncer m).

(** The same, and when no close has failed all of the mount's pieces are open. *)
Definition held (md : mode) (open piece : option nat) : Prop := if intact md then open = piece else within open piece.
Definition covered_in (md : mode) (m : mountState) (σ : ledger) : Prop :=
  held md (g_journal σ) (ms_journal m) ∧ held md (g_lease σ) (ms_lease m) ∧ within (g_beat σ) (ms_stopBeat m) ∧ g_lazy σ = None ∧
  held md (g_device σ) (ms_device m) ∧ held md (g_fs σ) (ms_unmounter m) ∧ held md (g_syncer σ) (ms_syncer m).

Lemma held_within md open piece : held md open piece → within open piece.
Proof. unfold held, within. destruct (intact md); by auto. Qed.
Lemma held_usable md open h : held md open (Some h) → usable md h open.
Proof. unfold held, usable, within. by destruct (intact md). Qed.

Lemma covered_in_covered md m σ : covered_in md m σ → covered m σ.
Proof. intros (? & ? & ? & ? & ? & ? & ?). split_and!; by eauto using held_within. Qed.

Lemma within_shut h open piece : within open piece → within (shut h open) piece.
Proof. unfold within, shut. intros [->| ->]; case_bool_decide; auto. Qed.

Lemma within_closed h open : within open (Some h) → shut h open = None.
Proof. apply shut_either. Qed.

Lemma within_None open : within open None → open = None.
Proof. by intros [->| ->]. Qed.

Lemma exactly_covered m x : covered m (exactly m x).
Proof. unfold covered, within. cbn. tauto. Qed.

(** A metric opens and closes nothing. *)
Lemma wp_metric {R} md usual u (p : prog R) Q σ : wp md usual p Q σ → wp md usual (_ ← do (Metric u); p) Q σ.
Proof. intros Hp. split; [done|]. by intros [] _ _. Qed.

(** The steps that close one piece, if there is one. *)
Lemma wp_close_beat {R} md usual (b : option nat) (p : prog R) Q j l bb z d f s x :
  within bb b → wp md usual p Q (mkLedger j l None z d f s x) →
  wp md usual (_ ← when_some b (fun b => do (StopBeat b)); p) Q (mkLedger j l bb z d f s x).
Proof. intros Hb Hp. destruct b as [b|]; [wp_done ?; by rewrite within_closed|]. by rewrite (within_None _ Hb). Qed.

Lemma wp_close_syncer {R} md usual (b : option nat) (p : prog R) Q j l bb z d f s x :
  held md s b → wp md usual p Q (mkLedger j l bb z d f None x) →
  wp md usual (_ ← when_some b (fun b => do (SyncerAbandon b)); p) Q (mkLedger j l bb z d f s x).
Proof.
  intros Hb Hp. pose proof (held_within _ _ _ Hb) as Hw. destruct b as [b|]; [|by rewrite (within_None _ Hw)].
  wp_call ?; [split_and?; by try apply held_usable|by rewrite within_closed].
Qed.

Lemma wp_close_journal {R} md usual (b : option nat) (p : prog R) Q j l bb z d f s x :
  held md j b → wp md usual p Q (mkLedger None l bb z d f s x) →
  wp md usual (_ ← when_some b (fun b => ignore (do (JournalClose b false))); p) Q (mkLedger j l bb z d f s x).
Proof.
  intros Hb Hp. pose proof (held_within _ _ _ Hb) as Hw. destruct b as [b|]; [|by rewrite (within_None _ Hw)].
  wp_call ?; [split_and?; by try apply held_usable|by rewrite within_closed].
Qed.

Lemma wp_close_fs {R} md usual (b : option nat) (p : prog R) Q j l bb z d f s x :
  held md f b → wp md usual p Q (mkLedger j l bb z d None s x) →
  wp md usual (_ ← when_some b (fun b => ignore (do (AbandonMount b))); p) Q (mkLedger j l bb z d f s x).
Proof.
  intros Hb Hp. pose proof (held_within _ _ _ Hb) as Hw. destruct b as [b|]; [|by rewrite (within_None _ Hw)].
  wp_call ?; [split_and?; by try apply held_usable|by rewrite within_closed].
Qed.

Lemma wp_close_device {R} md usual (b : option nat) (p : prog R) Q j l bb z d s x :
  held md d b → wp md usual p Q (mkLedger j l bb z None None s x) →
  wp md usual (_ ← when_some b (fun b => ignore (do (DeviceClose b))); p) Q (mkLedger j l bb z d None s x).
Proof.
  intros Hb Hp. pose proof (held_within _ _ _ Hb) as Hw. destruct b as [b|]; [|by rewrite (within_None _ Hw)].
  wp_call ?; [split_and?; by try apply held_usable|by rewrite within_closed].
Qed.

Lemma wp_close_lease {R} md usual (b : option nat) (p : prog R) Q j l bb z d x :
  held md l b → wp md usual p Q (mkLedger j None bb z d None None x) →
  wp md usual (_ ← when_some b (fun b => ignore (do (LeaseRelease b))); p) Q (mkLedger j l bb z d None None x).
Proof.
  intros Hb Hp. pose proof (held_within _ _ _ Hb) as Hw. destruct b as [b|]; [|by rewrite (within_None _ Hw)].
  wp_call ?; [split_and?; by try apply held_usable|by rewrite within_closed].
Qed.

Section unmounting.
Context (md : mode) (usual : call_answer → Prop).

(** A fenced mount has nothing open but the lease, which it has lost and leaves
    to expire; the file of its journal keeps what it holds. *)
Lemma fence_wp cause m σ :
  ms_active m = true → covered_in md m σ →
  wp md usual (fence cause m) (fun m' σ' => m' = with_fenced (Some cause) (reset_mount m) ∧
    σ' = mkLedger None (g_lease σ) None None None None None (g_data σ)) σ.
Proof.
  destruct σ as [j l b z d f s x]. intros Ha (Hj & Hl & Hb & Hz & Hd & Hf & Hs).
  cbn [g_journal g_lease g_beat g_lazy g_device g_fs g_syncer g_data] in *. subst z. unfold fence. rewrite Ha. cbn [negb].
  do 2 apply wp_metric. apply wp_close_syncer; [done|]. apply wp_close_journal; [done|]. apply wp_close_beat; [done|].
  apply wp_close_fs; [done|]. apply wp_close_device; [done|]. by repeat wp_done ?.
Qed.

(** An unmount or a close that failed. *)
Definition failing (ev : call_answer) : Prop :=
  match ev with
  | Ev c a =>
      match c in call A return A → Prop with
      | UnmountFs _ | DeviceClose _ => fun a => is_Some a
      | JournalClose _ remove => fun a => remove = true ∧ is_Some a
      | _ => fun _ => False
      end a
  end.

(** An unmount that goes through, or gives up the volume, leaves nothing open;
    otherwise an unmount or a close failed and the mount stays as it is. *)
Definition unmount_outcome (m : mountState) (r : mountState * option error) (σ : ledger) : Prop :=
  (r.1 = reset_mount m ∧ ∃ x, σ = at_rest None x) ∨
  (r.1 = m ∧ is_Some r.2 ∧ covered m σ ∧ ∃ ev, usual ev ∧ failing ev).

Lemma abandonUnmounted_wp cause m σ :
  held md (g_journal σ) (ms_journal m) → held md (g_lease σ) (ms_lease m) → within (g_beat σ) (ms_stopBeat m) → g_lazy σ = None →
  held md (g_device σ) (ms_device m) → g_fs σ = None → held md (g_syncer σ) (ms_syncer m) → wp md usual (abandonUnmounted cause m) (unmount_outcome m) σ.
Proof.
  destruct σ as [j l b z d f s x]. cbn [g_journal g_lease g_beat g_lazy g_device g_fs g_syncer g_data].
  intros Hj Hl Hb -> Hd -> Hs. unfold abandonUnmounted.
  apply wp_metric. apply wp_close_syncer; [done|]. apply wp_close_journal; [done|]. apply wp_close_beat; [done|].
  apply wp_close_lease; [done|]. apply wp_metric. apply wp_close_device; [done|].
  repeat apply wp_metric. wp_done ?. left. split; [done|]. by exists x.
Qed.

Lemma close_unmounted_wp m j d x :
  is_Some (ms_device m) → held md j (ms_journal m) → held md d (ms_device m) → (is_Some (ms_journal m) → x = false) →
  wp md usual (close_unmounted m) (unmount_outcome m) (mkLedger j None None None d None None x).
Proof.
  intros [dev Hdev] Hj Hd Hx. unfold close_unmounted. rewrite Hdev in *.
  assert (∀ j' d', within j' (ms_journal m) → within d' (ms_device m) → covered m (mkLedger j' None None None d' None None x)) as Hcov.
  { intros j' d' Hj' Hd'. split_and!; cbn; first [done|by left]. }
  pose proof (held_within _ _ _ Hj) as Hjw. pose proof (held_within _ _ _ Hd) as Hdw.
  wp_call e; [split; [by apply held_usable|done]|]. rewrite (within_closed dev d Hdw). destruct e as [e|]; wp_eval.
  { right. split_and!; [done|by eexists|apply Hcov; [done|by left]|]. eexists. split; [eassumption|]. by eexists. }
  destruct (ms_journal m) as [jj|] eqn:Hjj.
  - wp_call e; [split; [by apply held_usable|by intros _; apply Hx]|]. rewrite (within_closed jj j Hjw). destruct e as [e|]; wp_eval.
    { right. split_and!; [done|by eexists|apply Hcov; by left|]. eexists. split; [eassumption|]. split; [done|by eexists]. }
    do 3 wp_done ?. left. split; [done|]. by exists x.
  - do 3 wp_done ?. left. split; [done|]. rewrite (within_None _ Hjw). by exists x.
Qed.

Lemma unmountLast_wp m σ : serving m → covered_in md m σ → wp md usual (unmountLast m) (unmount_outcome m) σ.
Proof.
  intros (Ha & Hf & Hdev & [u Hu] & Hsy) Hcov. pose proof (covered_in_covered _ _ _ Hcov) as Hcw. destruct Hcov as (Hj & Hl & Hb & Hz & Hd & Hfs & Hs).
  destruct σ as [j l b z d f s x]. cbn [g_journal g_lease g_beat g_lazy g_device g_fs g_syncer g_data] in *. subst z.
  unfold unmountLast. rewrite Hu in *. wp_call e; [by apply held_usable|]. destruct e as [e|].
  { wp_eval. right. split_and!; [done|by eexists|done|]. eexists. split; [eassumption|]. by eexists. }
  rewrite (within_closed u f (held_within _ _ _ Hfs)). wp_eval. destruct (ms_syncer m) as [sy|] eqn:Hsyn.
  - destruct Hsy as [[le Hle] [be Hbe]]. rewrite Hbe in *. pose proof (held_usable _ _ _ Hs) as Hsu.
    assert (∀ cause b', within b' (Some be) → wp md usual (abandonUnmounted cause m) (unmount_outcome m) (mkLedger j l b' None d None s x)) as Hab.
    { intros cause b' Hb'. apply abandonUnmounted_wp; cbn; rewrite ?Hbe, ?Hsyn; done. }
    wp_call e; [done|]. destruct e as [e|]; wp_eval; [by apply Hab|].
    wp_call ?; [done|]. rewrite (within_closed be b Hb). wp_call e; [done|].
    destruct e as [e|]; wp_eval; [apply Hab; by left|].
    do 2 wp_done ?. rewrite (within_closed sy s (held_within _ _ _ Hs)). by apply close_unmounted_wp.
  - destruct Hsy as (Hle & Hjo & Hbe). rewrite Hle, Hjo, Hbe in *. apply held_within, within_None in Hl, Hs. apply within_None in Hb. subst l b s.
    apply close_unmounted_wp; [done|by rewrite Hjo|done|]. rewrite Hjo. by intros [? ?].
Qed.
End unmounting.

(** ** Runs *)

Definition is_fence (op : mount_op) : bool := match op with OpFence _ => true | _ => false end.

Lemma idle_ids ids m : idle m → idle (with_ids ids m).
Proof. intros [Ha Hr]. split; [done|]. by rewrite <-Hr. Qed.
Lemma idle_fenced e m : idle m → idle (with_fenced e m).
Proof. intros [Ha Hr]. split; [done|]. by rewrite <-Hr. Qed.
Lemma idle_reset m : idle (reset_mount m).
Proof. done. Qed.

Section runs.
Context (cfg : Config) (opts : VolumeOptions).

(** A mount in its life: the requests and fences it has seen, the calls made for
    them with their answers, the mount and what is open. *)
Inductive runs (m0 : mountState) (σ0 : ledger) : list mount_op → list call_answer → mountState → ledger → Prop :=
  | run_start : runs m0 σ0 [] [] m0 σ0
  | run_op ops tr m σ op tr' m' response σ' :
      runs m0 σ0 ops tr m σ → exec (mount_body cfg opts op m) σ tr' (m', response) σ' → runs m0 σ0 (ops ++ [op]) (tr ++ tr') m' σ'.

(** From the start of the plugin: nothing is open, and a journal may be left from
    before. *)
Definition run (ops : list mount_op) (tr : list call_answer) (m : mountState) (σ : ledger) : Prop :=
  ∃ name x, runs (new_mount name) (at_rest None x) ops tr m σ.

Definition mount_inv (dropped : bool) (m : mountState) (σ : ledger) : Prop :=
  (idle m ∧ ∃ l x, σ = at_rest l x ∧ (ReadOnly opts = true ∨ dropped = false → l = None)) ∨
  (serving m ∧ covered m σ ∧ (ReadOnly opts = true → ms_lease m = None)).

Lemma mount_inv_serving dropped m σ : mount_inv dropped m σ → ms_active m = true →
  serving m ∧ covered m σ ∧ (ReadOnly opts = true → ms_lease m = None).
Proof. intros [[[Ha' _] _]|Hs] Ha; [congruence|done]. Qed.

Lemma mount_inv_idle dropped m σ : mount_inv dropped m σ → ms_active m = false →
  idle m ∧ ∃ l x, σ = at_rest l x ∧ (ReadOnly opts = true ∨ dropped = false → l = None).
Proof. intros [Hi|[[Ha' _] _]] Ha; [done|congruence]. Qed.

Lemma mount_inv_ids dropped ids m σ : mount_inv dropped m σ → mount_inv dropped (with_ids ids m) σ.
Proof. intros [[Hi Hl]|Hs]; [left; split; [by apply idle_ids|done]|by right]. Qed.

(** A mount that is active has exactly its own pieces open. *)
Definition exact (m : mountState) (σ : ledger) : Prop := ms_active m = true → ∃ x, σ = exactly m x.

(** What is assumed of a mount in the mode [md]. *)
Definition fits (md : mode) (dropped : bool) (m : mountState) (σ : ledger) : Prop :=
  (unfenced md = true → dropped = false) ∧ (intact md = true → exact m σ).

Lemma fits_covered md dropped m σ : fits md dropped m σ → ms_active m = true → covered m σ → covered_in md m σ.
Proof.
  intros [_ Hex] Ha (Hj & Hl & Hb & Hz & Hd & Hf & Hs). unfold covered_in, held. destruct (intact md); [|done].
  destruct (Hex eq_refl Ha) as [x ->]. done.
Qed.

(** Unmounting, with any set of users. *)
Lemma unmountLast_inv md usual dropped m σ :
  mount_inv dropped m σ → fits md dropped m σ → ms_active m = true →
  wp md usual (unmountLast m) (fun r σ => mount_inv dropped r.1 σ ∧
    (serving r.1 → ∃ ev, usual ev ∧ failing ev)) σ.
Proof.
  intros Hinv Hfit Ha. destruct (mount_inv_serving _ _ _ Hinv Ha) as (Hse & Hcov & Hro).
  eapply wp_mono; [|apply unmountLast_wp; [done|by eapply fits_covered]]. intros [m' err] σ' [[-> [x ->]]|(-> & _ & Hc & Hev)]; cbn [fst].
  - split; [|by intros [? _]]. left. split; [apply idle_reset|]. by eexists _, _.
  - split; [by right|done].
Qed.

(** Deleting a volume of which nothing is open. *)
Lemma remove_volume_wp md usual volume mounts l x :
  wp md usual (remove_volume opts volume mounts) (fun _ σ => ∃ x', σ = at_rest l x') (at_rest l x).
Proof.
  assert (∀ names y (p : prog (option error)), (∀ y', wp md usual p (fun _ σ => ∃ x', σ = at_rest l x') (at_rest l y')) →
    wp md usual (_ ← cleanup_mounts names; p) (fun _ σ => ∃ x', σ = at_rest l x') (at_rest l y)) as Hclean.
  { induction names as [|name names IH]; intros y p Hp; [apply Hp|]. cbn [cleanup_mounts]. unfold at_rest. wp_done ?. wp_done ?. by apply IH. }
  unfold remove_volume, at_rest. apply wp_bind. apply (wp_mono _ _ _ (fun _ σ => σ = at_rest l x)).
  2: { unfold at_rest. destruct (PerReplica opts); by wp_done ?. }
  intros r σ ->. destruct (match r with Some e => _ | None => None end) as [e|]; [by exists x|]. apply Hclean.
  intros y. unfold at_rest. wp_done ?. by exists y.
Qed.

Lemma mount_body_inv md usual dropped op m σ :
  mount_inv dropped m σ → fits md dropped m σ →
  wp md usual (mount_body cfg opts op m) (fun r σ => mount_inv (dropped || is_fence op) r.1 σ) σ.
Proof.
  intros Hinv Hfit. destruct op as [id|id|cause| |volume]; cbn [mount_body is_fence]; rewrite ?orb_false_r, ?orb_true_r.
  - unfold Mount. destruct (ms_fenced m) eqn:Hf; [done|]. destruct (ms_active m) eqn:Ha; [by apply mount_inv_ids|].
    destruct (mount_inv_idle _ _ _ Hinv Ha) as (Hi & l & x & -> & Hl). apply wp_bind. destruct Hfit as [Hfit _].
    eapply wp_mono; [|apply mountFresh_wp; [done..|by auto|by auto]]. intros [m' [e|]] σ Ho; cbn in Ho |- *.
    + destruct Ho as (-> & l' & x' & -> & Hl'). left. split; [done|]. eexists _, _. split; [done|]. intros Hd. destruct Hl' as [->| ->]; auto.
    + destruct Ho as (Hse & Hro & x' & ->). split; [done|]. intros _ _ _. apply mount_inv_ids. right. split; [done|]. split; [apply exactly_covered|done].
  - unfold Unmount. apply (mount_inv_ids _ (ms_mountIDs m ∖ {[id]})) in Hinv. set (m1 := with_ids _ m) in *. cbn zeta.
    assert (fits md dropped m1 σ) as Hfit1 by exact Hfit. destruct (ms_fenced m1) eqn:Hf.
    + destruct Hinv as [[Hi Hl]|[(_ & Hf' & _) _]]; [|congruence]. left. cbn [fst]. split; [|done].
      case_bool_decide; [by apply idle_fenced|done].
    + destruct (ms_active m1) eqn:Ha; cbn [negb orb]; [|done]. destruct (negb _); [done|]. apply wp_bind.
      eapply wp_mono; [|by apply unmountLast_inv]. by intros [m' e] σ' [Hm _].
  - apply wp_bind. destruct (ms_active m) eqn:Ha.
    + destruct (mount_inv_serving _ _ _ Hinv Ha) as (Hse & Hcov & Hro). eapply wp_mono; [|apply fence_wp; [done|by eapply fits_covered]].
      intros m' σ' [-> ->]. left. cbn [fst]. split; [apply idle_fenced, idle_reset|]. eexists _, _. split; [done|].
      intros [Hr|Hd]; [|discriminate]. destruct Hcov as (_ & Hl & _). rewrite (Hro Hr) in Hl. by apply within_None.
    + unfold fence. rewrite Ha. cbn [negb]. left. destruct (mount_inv_idle _ _ _ Hinv Ha) as (Hi & l & x & Hσ & Hl).
      split; [done|]. exists l, x. split; [done|]. intros [Hr|Hd]; [by auto|discriminate].
  - unfold Shutdown. destruct (ms_active m) eqn:Ha; [|done]. apply wp_bind.
    eapply wp_mono; [|by apply unmountLast_inv]. by intros [m' e] σ' [Hm _].
  - unfold remove_mount. destruct (ms_active m) eqn:Ha; [done|]. destruct (mount_inv_idle _ _ _ Hinv Ha) as (Hi & l & x & -> & Hl).
    apply wp_bind. eapply wp_mono; [|apply remove_volume_wp]. intros r σ [x' ->]. left. split; [done|]. by eexists _, _.
Qed.

(** Nothing is assumed. *)
Definition anything : mode := mkMode false false.
Lemma fits_anything dropped m σ : fits anything dropped m σ.
Proof. done. Qed.

Lemma run_inv ops tr m σ : run ops tr m σ → mount_inv (existsb is_fence ops) m σ.
Proof.
  intros (name & x & Hr). induction Hr as [|ops tr m σ op tr' m' resp σ' Hr IH He].
  - left. split; [done|]. by eexists _, _.
  - rewrite existsb_app. cbn [existsb]. rewrite orb_false_r.
    by eapply (wp_exec anything (fun _ => True) _ _ σ tr' (m', resp) σ' (mount_body_inv _ _ _ op m σ IH (fits_anything _ _ _)) He), Forall_true.
Qed.

(** ** Without failed unmounts and closes *)

Definition untroubled (ev : call_answer) : Prop := ¬ failing ev.

Lemma unmountLast_exact md dropped m σ :
  mount_inv dropped m σ → fits md dropped m σ → ms_active m = true → wp md untroubled (unmountLast m) (fun r σ => exact r.1 σ) σ.
Proof.
  intros Hinv Hfit Ha. eapply wp_mono; [|by eapply (unmountLast_inv md untroubled)].
  intros [m' err] σ' [Hinv' Hev] Ha'. destruct (mount_inv_serving _ _ _ Hinv' Ha') as (Hse & _).
  destruct (Hev Hse) as (ev & Hu & Hf). by destruct Hu.
Qed.

Lemma Mount_granted md usual dropped id m σ :
  mount_inv dropped m σ → fits md dropped m σ → exact m σ →
  wp md usual (Mount cfg opts id m) (fun r σ => exact r.1 σ ∧
    ∀ name, r.2 = Mounted name → serving r.1 ∧ id ∈ ms_mountIDs r.1 ∧ name = ms_name r.1) σ.
Proof.
  intros Hinv [Hfit _] Hex. unfold Mount. destruct (ms_fenced m) eqn:Hf; [done|]. destruct (ms_active m) eqn:Ha.
  { destruct (mount_inv_serving _ _ _ Hinv Ha) as (Hse & _). split; [intros _; by apply Hex|]. intros name [= <-].
    split_and!; [exact Hse| |done]. set_solver. }
  destruct (mount_inv_idle _ _ _ Hinv Ha) as (Hi & l & x & -> & Hl). apply wp_bind.
  eapply wp_mono; [|apply mountFresh_wp; [done..|by auto|by auto]]. intros [m' [e|]] σ Ho; cbn in Ho |- *.
  - destruct Ho as (-> & _). split; [by intros Ha'; rewrite Ha in Ha'|done].
  - destruct Ho as (Hse & _ & x' & ->). split; [done|]. intros _ _ _. split; [intros _; by exists x'|]. intros name [= <-]. split_and!; [exact Hse| |done]. set_solver.
Qed.

Lemma mount_body_exact md dropped op m σ :
  mount_inv dropped m σ → fits md dropped m σ → exact m σ → wp md untroubled (mount_body cfg opts op m) (fun r σ => exact r.1 σ) σ.
Proof.
  intros Hinv Hfit Hex. destruct op as [id|id|cause| |volume]; cbn [mount_body].
  - eapply wp_mono; [|by eapply Mount_granted]. by intros r σ' [? _].
  - unfold Unmount. apply (mount_inv_ids _ (ms_mountIDs m ∖ {[id]})) in Hinv. set (m1 := with_ids _ m) in *. cbn zeta.
    assert (exact m1 σ) as Hex1 by exact Hex. assert (fits md dropped m1 σ) as Hfit1 by exact Hfit. destruct (ms_fenced m1); [by case_bool_decide|].
    destruct (ms_active m1) eqn:Ha; cbn [negb orb]; [|done]. destruct (negb _); [done|]. apply wp_bind.
    eapply wp_mono; [|by eapply unmountLast_exact]. by intros [m' e] σ'.
  - apply wp_bind. destruct (ms_active m) eqn:Ha; [|unfold fence; by rewrite Ha].
    destruct (mount_inv_serving _ _ _ Hinv Ha) as (_ & Hcov & _). eapply wp_mono; [|apply fence_wp; [done|by eapply fits_covered]].
    by intros m' σ' [-> _] Ha'.
  - unfold Shutdown. destruct (ms_active m) eqn:Ha; [|done]. apply wp_bind.
    eapply wp_mono; [|by eapply unmountLast_exact]. by intros [m' e] σ'.
  - unfold remove_mount. destruct (ms_active m) eqn:Ha; [done|]. destruct (mount_inv_idle _ _ _ Hinv Ha) as (_ & l & x & -> & _).
    apply wp_bind. eapply wp_mono; [|apply remove_volume_wp]. intros r σ _ Ha'. cbn in Ha'. congruence.
Qed.

Lemma run_exact ops tr m σ : run ops tr m σ → Forall untroubled tr → exact m σ.
Proof.
  intros (name & x & Hr). induction Hr as [|ops tr m σ op tr' m' resp σ' Hr IH He]; [done|].
  intros [Htr Htr']%Forall_app. assert (mount_inv (existsb is_fence ops) m σ) as Hinv by (eapply run_inv; by eexists _, _).
  by eapply (wp_exec anything untroubled _ _ σ tr' (m', resp) σ' (mount_body_exact _ _ op m σ Hinv (fits_anything _ _ _) (IH Htr)) He).
Qed.

(** ** What becomes of the pieces *)

(** The mount remembers the piece. *)
Definition remembers (m : mountState) (p : piece) : Prop :=
  match p with
  | PJournal h => ms_journal m = Some h | PLease h => ms_lease m = Some h | PBeat h => ms_stopBeat m = Some h | PLazy _ => False
  | PDevice h => ms_device m = Some h | PFs h => ms_unmounter m = Some h | PSyncer h => ms_syncer m = Some h
  end.

Lemma covered_remembers m σ p : covered m σ → holds σ p → remembers m p.
Proof.
  intros (Hj & Hl & Hb & Hz & Hd & Hf & Hs) Hp. destruct p; cbn in *; try congruence.
  all: match goal with H : within ?o _, H' : ?o = Some _ |- _ => rewrite H' in H; by destruct H end.
Qed.

(** What was opened during a run is still open, or the call that closes it has
    been made since. *)
Lemma runs_opens m0 σ0 ops tr m σ tr1 ev tr2 p :
  mount_inv false m0 σ0 → runs m0 σ0 ops tr m σ → tr = tr1 ++ ev :: tr2 → opens ev = Some p →
  holds σ p ∨ (∃ ev', ev' ∈ tr2 ∧ closes ev' p) ∨ existsb is_fence ops = true ∧ ∃ l, p = PLease l.
Proof.
  intros H0 Hr. revert tr2. induction Hr as [|ops tr m σ op tr' m' resp σ' Hr IH He]; intros tr2; [by destruct tr1|]. intros Heq Hop.
  rewrite existsb_app. cbn [existsb]. rewrite orb_false_r.
  set (md := mkMode (negb (existsb is_fence ops)) false). assert (mount_inv (existsb is_fence ops) m σ) as Hinv.
  { clear -H0 Hr. induction Hr as [|ops tr m σ op tr' m' resp σ' Hr IH He]; [done|]. rewrite existsb_app. cbn [existsb]. rewrite orb_false_r.
    by eapply (wp_exec anything (fun _ => True) _ _ σ tr' (m', resp) σ' (mount_body_inv _ _ _ op m σ IH (fits_anything _ _ _)) He), Forall_true. }
  assert (fits md (existsb is_fence ops) m σ) as Hfit by (split; [|done]; cbn; by destruct (existsb is_fence ops)).
  pose proof (mount_body_inv md (fun _ => True) _ op m σ Hinv Hfit) as Hwp.
  assert (dropped_lease md p → existsb is_fence ops || is_fence op = true ∧ ∃ l, p = PLease l) as Hdl.
  { intros [Hu Hl]. split; [|done]. cbn in Hu. by destruct (existsb is_fence ops). }
  apply app_eq_inv in Heq as [(k & -> & Heq)|(k & -> & Heq)].
  - destruct k as [|ev1 k].
    + cbn in Heq. subst tr'. edestruct (exec_opens md (fun _ => True) _ _ _ _ _ _ [] ev tr2 p Hwp He) as [?|[?|?]]; [by apply Forall_true|done..| | |]; auto.
    + injection Heq as <- ->. destruct (IH k eq_refl Hop) as [Hp|[(ev' & Hin & Hc)|[Hf Hl]]].
      * edestruct (exec_keeps md (fun _ => True) _ _ _ _ _ _ p Hwp He) as [?|[(ev' & ? & ?)|?]]; [by apply Forall_true|done|..]; auto.
        right. left. exists ev'. set_solver.
      * right. left. exists ev'. set_solver.
      * right. right. by rewrite Hf.
  - edestruct (exec_opens md (fun _ => True) _ _ _ _ _ _ k ev tr2 p Hwp He) as [?|[?|?]]; [by apply Forall_true|done..| | |]; auto.
Qed.

(** ** While fenced *)

Definition is_remove (op : mount_op) : bool := match op with OpRemove _ => true | _ => false end.

(** The calls with which a volume is deleted. *)
Definition deletes (ev : call_answer) : Prop :=
  match ev with
  | Ev c _ => match c with DeleteRemote _ | DeleteFamily _ | CleanupLocal _ | RemoveJournal _ | RemoveRegistry _ => True | _ => False end
  end.

Lemma remove_volume_deletes volume mounts : only_calls deletes (remove_volume opts volume mounts).
Proof.
  assert (∀ names, only_calls deletes (cleanup_mounts names)) as Hclean.
  { induction names as [|name names IH]; [done|]. intros ?. split; [done|]. intros ?. split; [done|]. exact IH. }
  unfold remove_volume. apply only_calls_bind; [by destruct (PerReplica opts)|]. intros r.
  destruct (match r with Some e => _ | None => None end); [done|]. apply only_calls_bind; [apply Hclean|]. intros ? ?. by split.
Qed.

(** A request on a fenced mount that has a user other than the one who unmounts. *)
Lemma fenced_op op m l x tr m' resp σ' cause id :
  ms_fenced m = Some cause → ms_active m = false → id ∈ ms_mountIDs m → op ≠ OpUnmount id →
  exec (mount_body cfg opts op m) (at_rest l x) tr (m', resp) σ' →
  ms_fenced m' = Some cause ∧ ms_active m' = false ∧ id ∈ ms_mountIDs m' ∧ (∀ name, resp ≠ Mounted name) ∧
  Forall deletes tr ∧ (∃ x', σ' = at_rest l x') ∧ (is_remove op = false → tr = [] ∧ σ' = at_rest l x).
Proof.
  intros Hf Ha Hid Hop He. assert (∀ r, mount_body cfg opts op m = Ret r → tr = [] ∧ (m', resp) = r ∧ σ' = at_rest l x) as Hret.
  { intros r Hr. rewrite Hr in He. by inversion He. }
  destruct op as [id'|id'|c| |volume]; cbn [mount_body] in Hret.
  - unfold Mount in Hret. rewrite Hf in Hret. destruct (Hret _ eq_refl) as (-> & [= -> ->] & ->). split_and!; try done; by eexists.
  - unfold Unmount in Hret. cbn [ms_fenced with_ids] in Hret. rewrite Hf in Hret.
    assert (id ∈ ms_mountIDs m ∖ {[id']}) as Hin by set_solver. rewrite bool_decide_eq_false_2 in Hret by (cbn; set_solver).
    destruct (Hret _ eq_refl) as (-> & [= -> ->] & ->). split_and!; try done; by eexists.
  - unfold fence in Hret. rewrite Ha in Hret. destruct (Hret _ eq_refl) as (-> & [= -> ->] & ->). split_and!; try done; by eexists.
  - unfold Shutdown in Hret. rewrite Ha in Hret. destruct (Hret _ eq_refl) as (-> & [= -> ->] & ->). split_and!; try done; by eexists.
  - clear Hret. cbn [mount_body] in He. unfold remove_mount in He. rewrite Ha in He.
    assert (Forall deletes tr) as Htr.
    { eapply only_calls_exec; [|exact He]. apply only_calls_bind; [apply remove_volume_deletes|done]. }
    assert (m' = m ∧ (∃ r, resp = Finished r) ∧ ∃ x', σ' = at_rest l x') as (-> & [r ->] & Hσ); [|by split_and!].
    refine (wp_exec anything (fun _ => True) _ (fun y σ' => y.1 = m ∧ (∃ r, y.2 = Finished r) ∧ ∃ x', σ' = at_rest l x') _ tr (m', resp) σ' _ He _); [|by apply Forall_true].
    apply wp_bind. eapply wp_mono; [|apply remove_volume_wp]. intros r σ Hσ. cbn. by eauto.
Qed.

Lemma fenced_runs m l x ops tr m' σ' cause id :
  ms_fenced m = Some cause → ms_active m = false → id ∈ ms_mountIDs m → OpUnmount id ∉ ops → runs m (at_rest l x) ops tr m' σ' →
  ms_fenced m' = Some cause ∧ ms_active m' = false ∧ id ∈ ms_mountIDs m' ∧ Forall deletes tr ∧ (∃ x', σ' = at_rest l x') ∧
  (existsb is_remove ops = false → tr = [] ∧ σ' = at_rest l x).
Proof.
  intros Hf Ha Hid Hops Hr. induction Hr as [|ops tr m1 σ1 op tr' m' resp σ' Hr IH He]; [split_and!; try done; by eexists|].
  apply not_elem_of_app in Hops as [Hops Hop]. destruct (IH Hops) as (Hf1 & Ha1 & Hid1 & Htr & (x1 & ->) & Hno).
  destruct (fenced_op op m1 l x1 tr' m' resp σ' cause id Hf1 Ha1 Hid1) as (? & ? & ? & _ & ? & ? & Hno'); [set_solver|done|].
  split_and!; [done..|by apply Forall_app|done|]. rewrite existsb_app. cbn [existsb]. rewrite orb_false_r. intros [Hr1 Hr2]%orb_false_iff.
  destruct (Hno Hr1) as [-> [= ->]]. destruct (Hno' Hr2) as [-> ->]. done.
Qed.

(** ** Claims *)

(** C33: the driver gives up nothing silently.  Whatever the requests, fences and
    removals a mount sees, and however the calls it makes are answered, every
    journal, lease, heartbeat, lazy image, device, filesystem and syncer that was
    opened is still remembered by a mount that is active, or the call that closes
    it has been made since, whatever it answered (for the filesystem and the
    syncer: successfully, or the call that abandons it); only the lease of a mount that was fenced may be dropped
    without being released. *)
Theorem driver_leaks_nothing ops tr m σ tr1 ev tr2 p :
  run ops tr m σ → tr = tr1 ++ ev :: tr2 → opens ev = Some p →
  ms_active m = true ∧ remembers m p ∨ (∃ ev', ev' ∈ tr2 ∧ closes ev' p) ∨ existsb is_fence ops = true ∧ ∃ l, p = PLease l.
Proof.
  intros Hrun Heq Hop. pose proof (run_inv _ _ _ _ Hrun) as Hinv. destruct Hrun as (name & x & Hr).
  assert (mount_inv false (new_mount name) (at_rest None x)) as H0 by (left; split; [done|by eexists _, _]).
  destruct (runs_opens _ _ _ _ _ _ tr1 ev tr2 p H0 Hr Heq Hop) as [Hp|[?|?]]; [|by auto..].
  destruct (ms_active m) eqn:Ha.
  - left. split; [done|]. destruct (mount_inv_serving _ _ _ Hinv Ha) as (_ & Hc & _). by eapply covered_remembers.
  - destruct (mount_inv_idle _ _ _ Hinv Ha) as (_ & l & y & -> & Hl). right. right. destruct p; try discriminate Hp. cbn in Hp. subst l.
    split; [|by eexists]. destruct (existsb is_fence ops); [done|]. by discriminate (Hl (or_intror eq_refl)).
Qed.

(** C6: every call the driver makes for a mount, on success and on every error
    path, is in order: the lease is released only after the filesystem is
    unmounted and the syncer stopped; the file of the local journal is removed
    by an unmount, or replaced, only when it holds no data that is not published;
    a writable filesystem is mounted only under a lease that is being renewed; the
    device is closed and the image removed only when no filesystem is on it; the
    final sync runs after the unmount; a volume is deleted only when nothing of it
    is open here; nothing is opened twice, and nothing is used that is not open.
    Closing calls are made only for the piece that is open or, when an earlier
    unmount or close has failed, for one that has been closed; when none has
    failed, all of them (but for the cancellation of the heartbeat, which may be
    repeated) are made for pieces that are open. *)
Theorem driver_calls_in_order ops tr m σ op tr' A (c : call A) σ' :
  run ops tr m σ → reaches (mount_body cfg opts op m) σ tr' A c σ' →
  pre (mkMode (negb (existsb is_fence ops)) false) c σ' ∧
  (Forall untroubled (tr ++ tr') → pre (mkMode (negb (existsb is_fence ops)) true) c σ').
Proof.
  intros Hr Hreach. pose proof (run_inv _ _ _ _ Hr) as Hinv.
  assert (∀ md, unfenced md = negb (existsb is_fence ops) → (intact md = true → exact m σ) → fits md (existsb is_fence ops) m σ) as Hfit.
  { intros md Hu Hi. split; [|done]. rewrite Hu. by destruct (existsb is_fence ops). }
  split.
  - eapply (wp_reaches _ (fun _ => True)); [by eapply mount_body_inv, Hfit|done|by apply Forall_true].
  - intros [Htr Htr']%Forall_app. eapply (wp_reaches _ untroubled); [|done..].
    eapply mount_body_inv; [done|]. apply Hfit; [done|]. intros _. by eapply run_exact.
Qed.

(** A mount that is granted is there: as long as no unmount or close has
    failed, the answer to a mount request names a mountpoint on which the
    filesystem is mounted, over an open device, with the lease held and renewed,
    the syncer running and the journal open where the volume has them. *)
Theorem granted_mount_is_mounted ops tr m σ id tr' m' name σ' :
  run ops tr m σ → Forall untroubled tr → exec (mount_body cfg opts (OpMount id) m) σ tr' (m', Mounted name) σ' →
  serving m' ∧ (∃ x, σ' = exactly m' x) ∧ id ∈ ms_mountIDs m' ∧ name = ms_name m'.
Proof.
  intros Hr Htr He. pose proof (run_exact _ _ _ _ Hr Htr) as Hex. apply run_inv in Hr.
  destruct (wp_exec anything (fun _ => True) _ _ σ tr' _ σ' (Mount_granted _ _ _ id m σ Hr (fits_anything _ _ _) Hex) He) as [Hex' Hm]; [by apply Forall_true|].
  destruct (Hm name eq_refl) as (Hse & Hid & Hname). split_and!; [done| |done..]. apply Hex', Hse.
Qed.

(** C34: a fence is final for its users.  Fencing an active mount closes all of
    its pieces and keeps the data of the local journal; from then on, as long as
    one of the users it had has not unmounted, the volume stays fenced, nothing is
    reopened and no request makes any call at all, but for a [Remove], whose calls
    delete the volume: while nobody removes it, the data of the journal is kept. *)
Theorem fence_holds_until_unmounted ops tr m σ cause tr1 m1 resp σ1 ops2 tr2 m2 σ2 id :
  run ops tr m σ → ms_active m = true → exec (mount_body cfg opts (OpFence cause) m) σ tr1 (m1, resp) σ1 →
  runs m1 σ1 ops2 tr2 m2 σ2 → id ∈ ms_mountIDs m → OpUnmount id ∉ ops2 →
  ms_fenced m2 = Some cause ∧ ms_active m2 = false ∧ Forall deletes tr2 ∧ (∃ x, σ2 = at_rest (g_lease σ) x) ∧
  (existsb is_remove ops2 = false → tr2 = [] ∧ σ2 = at_rest (g_lease σ) (g_data σ)).
Proof.
  intros Hr%run_inv Ha He Hr2 Hid Hops. destruct (mount_inv_serving _ _ _ Hr Ha) as (_ & Hcov & _).
  assert (m1 = with_fenced (Some cause) (reset_mount m) ∧ σ1 = at_rest (g_lease σ) (g_data σ)) as [-> ->].
  { refine (wp_exec anything (fun _ => True) _ (fun r σ' => r.1 = with_fenced (Some cause) (reset_mount m) ∧ σ' = at_rest (g_lease σ) (g_data σ)) σ tr1 (m1, resp) σ1 _ He _); [|by apply Forall_true].
    cbn [mount_body]. apply wp_bind. eapply wp_mono; [|by apply fence_wp]. by intros m' σ' [-> ->]. }
  eapply fenced_runs in Hr2 as (? & ? & _ & ? & ? & ?); [by split_and!|done..|exact Hid|done].
Qed.
End runs.
