(* ===== verification/Registry.v ===== *)
(** * The driver's registry of volumes ([internal/plugin/driver.go])

    The volumes the driver knows, their mounts, and the requests of Docker: each
    request looks its volume up under the driver's lock and then works on the
    volume's state under the state's own lock, so that other requests can come in
    between. *)
From S2P Require Import Prelude Extents Codec Segment Types Volumes Options Metrics Driver.
Local Open Scope Z_scope.

(** ** State *)

Record volumeRecord : Type := mkRecord { vr_Name : string; vr_CreatedAt : Z; vr_Options : VolumeOptions }.
Record volumeState : Type := mkVolume { vs_record : volumeRecord; vs_mounts : gmap string mountState }.

(** [d.volumes] maps names to states, which requests share: a state is a position
    in the list of all states there have been. *)
Record Registry : Type := mkRegistry { rg_volumes : gmap string nat; rg_states : list volumeState }.

Definition newState (record : volumeRecord) : volumeState := mkVolume record ∅.

Definition empty_registry : Registry := mkRegistry ∅ [].

(** [d.volumes[name] = newState(record)] *)
Definition register (record : volumeRecord) (d : Registry) : Registry :=
  mkRegistry (<[vr_Name record := length (rg_states d)]> (rg_volumes d)) (rg_states d ++ [newState record]).

Definition set_state (v : nat) (st : volumeState) (d : Registry) : Registry := mkRegistry (rg_volumes d) (<[v := st]> (rg_states d)).

(** [validName] *)
Definition validName : string → bool := validVolumeName.

(** ** Configuration *)

(** The defaults of [New]: durations in nanoseconds. *)
Record DriverConfig : Type := mkDriverConfig {
  dc_NodeID : string; dc_StateDir : string; dc_JournalDir : string; dc_MaxDirty : Z; dc_SyncInterval : Z; dc_CheckpointInterval : Z;
  dc_HistoryRetention : Z; dc_GCGrace : Z; dc_hasSeeder : bool;
}.

Definition second : Z := 1000000000.

Definition config_defaults (c : DriverConfig) : DriverConfig :=
  mkDriverConfig (dc_NodeID c) (dc_StateDir c)
    (if streq (dc_JournalDir c) "" then dc_StateDir c +:+ "/journals" else dc_JournalDir c)
    (if dc_MaxDirty c <=? 0 then Z.shiftl 256 20 else dc_MaxDirty c)
    (if dc_SyncInterval c <=? 0 then 5 * second else dc_SyncInterval c)
    (if dc_CheckpointInterval c =? 0 then 128 else dc_CheckpointInterval c)
    (if dc_HistoryRetention c <=? 0 then 7 * 24 * 3600 * second else dc_HistoryRetention c)
    (if dc_GCGrace c <=? 0 then 24 * 3600 * second else dc_GCGrace c)
    (dc_hasSeeder c).

Definition driver_config (c : DriverConfig) : Config :=
  mkConfig (dc_NodeID c) (dc_MaxDirty c) (dc_SyncInterval c) (dc_CheckpointInterval c) (dc_hasSeeder c).

(** [loadRegistry]: the entries of the directory in its order, each the outcome
    of reading the file and decoding it. *)
Fixpoint loadRegistry (entries : list (result volumeRecord)) (d : Registry) : result Registry :=
  match entries with
  | [] => Ok d
  | Err e :: _ => Err e
  | Ok record :: entries =>
      if negb (LocalDurability (vr_Options record)) && negb (RemoteDurability (vr_Options record))
      then Err (Errorf "registry entry uses unsupported durability")
      else loadRegistry entries (register record d)
  end.

(** The first error of a list of calls. *)
Fixpoint first_error (outcomes : list (option error)) : option error :=
  match outcomes with [] => None | Some e :: _ => Some e | None :: outcomes => first_error outcomes end.

(** [New]: [dirs] are the answers of [os.MkdirAll] for the directories of the
    records, the images, the mountpoints and the journals, [entries] those of
    reading the registry (or the error of listing it). *)
Definition New (c : DriverConfig) (hasStore hasBackend : bool) (dirs : list (option error)) (entries : result (list (result volumeRecord)))
    : result (DriverConfig * Registry) :=
  if negb hasStore then Err (Errorf "remote object store is required") else
  if negb hasBackend then Err (Errorf "block backend is required") else
  match first_error dirs with
  | Some e => Err e
  | None => es ← entries; d ← loadRegistry es empty_registry; Ok (config_defaults c, d)
  end.

(** ** Requests *)

Section registry.
Context `{Digest} (cfg : Config) (ParseDuration : string → option Z).

Definition Create (name : string) (options : list (string * string)) (d : Registry) : prog (Registry * option error) :=
  if negb (validName name) then Ret (d, Some (Errorf "invalid volume name")) else
  match ParseVolumeOptions ParseDuration options with
  | Err e => Ret (d, Some e)
  | Ok opts =>
      match rg_volumes d !! name ≫= (fun v => rg_states d !! v) with
      | Some current =>
          if bool_decide (options = []) then Ret (d, None) else
          if bool_decide (vr_Options (vs_record current) = opts) then Ret (d, None)
          else Ret (d, Some (Errorf "volume already exists with different options"))
      | None =>
          now ← do Now;
          r ← do (SaveRecord name now opts);
          match r with
          | Some e => Ret (d, Some e)
          | None => Ret (register (mkRecord name now opts) d, None)
          end
      end
  end.

Definition with_remote (o : VolumeOptions) (state : State) : VolumeOptions :=
  mkOptions (o_Mode o) (o_Scope o) (o_Durability o) (o_Seed o) (o_SyncInterval o) (st_Size state) (st_Filesystem state).

Definition ErrVolumeNotFound : error := Errorf "volume not found".

Definition lookup_volume (name : string) (d : Registry) : prog (Registry * result nat) :=
  match rg_volumes d !! name with
  | Some v => Ret (d, Ok v)
  | None =>
      if negb (validName name) then Ret (d, Err (Errorf "volume %s not found")) else
      r ← do (Inspect name);
      match r with
      | Err e => Ret (d, Err (if errors_Is e ErrNotFound then Wrap "%w: %s" ErrVolumeNotFound else e))
      | Ok remoteState =>
          now ← do Now;
          let opts := with_remote default_options remoteState in
          r ← do (SaveRecord name now opts);
          match r with
          | Some e => Ret (d, Err e)
          | None => Ret (register (mkRecord name now opts) d, Ok (length (rg_states d)))
          end
      end
  end.

Definition replicaName (base mountID : string) : string :=
  base +:+ ".r-" +:+ hex_EncodeToString (take 6 (sha256 (string_bytes mountID))).

(** [mountStateFor]: the name of the mount, and the mount. *)
Definition mount_name (st : volumeState) (mountID : string) : string :=
  if PerReplica (vr_Options (vs_record st)) then replicaName (vr_Name (vs_record st)) mountID else vr_Name (vs_record st).

Definition mountStateFor (st : volumeState) (mountID : string) : mountState :=
  default (new_mount (mount_name st mountID)) (vs_mounts st !! mount_name st mountID).

Definition set_mount (name : string) (m : mountState) (st : volumeState) : volumeState := mkVolume (vs_record st) (<[name := m]> (vs_mounts st)).

(** [Mount] or [Unmount], once the volume is looked up. *)
Definition request_mount (v : nat) (mountID : string) (op : mount_op) (d : Registry) : prog (Registry * response) :=
  match rg_states d !! v with
  | None => Ret (d, Finished (Some Panic))
  | Some st =>
      '(m, r) ← mount_body cfg (vr_Options (vs_record st)) op (mountStateFor st mountID);
      Ret (set_state v (set_mount (mount_name st mountID) m st) d, r)
  end.

(** [fence] and [Shutdown], on a mount of the state. *)
Definition touch_mount (v : nat) (name : string) (op : mount_op) (d : Registry) : prog (Registry * response) :=
  match rg_states d !! v ≫= (fun st => (fun m => (st, m)) <$> vs_mounts st !! name) with
  | None => Ret (d, Finished None)
  | Some (st, m) =>
      '(m, r) ← mount_body cfg (vr_Options (vs_record st)) op m;
      Ret (set_state v (set_mount name m st) d, r)
  end.

(** [Remove], once the volume is looked up. *)
Definition Remove (v : nat) (name : string) (d : Registry) : prog (Registry * option error) :=
  match rg_states d !! v with
  | None => Ret (d, Some Panic)
  | Some st =>
      if existsb (fun p => ms_active p.2) (map_to_list (vs_mounts st)) then Ret (d, Some (Errorf "volume is mounted on this node")) else
      r ← remove_volume (vr_Options (vs_record st)) name (map_to_list (vs_mounts st)).*1;
      match r with
      | Some e => Ret (d, Some e)
      | None => Ret (mkRegistry (delete name (rg_volumes d)) (rg_states d), None)
      end
  end.

(** ** Descriptions *)

Record Volume : Type := mkVolumeInfo { vi_Name : string; vi_CreatedAt : Z; vi_Mountpoint : string; vi_mounted_as : list string;
  vi_fenced : option error; vi_options : VolumeOptions }.

(** [sort.Strings] *)
Definition sort_strings : list string → list string := merge_sort (fun a b => String.leb a b).

Definition describe (mountpoint : string → string) (st : volumeState) : Volume :=
  let mounted := sort_strings ((filter (fun p => ms_active p.2 = true) (map_to_list (vs_mounts st))).*1) in
  mkVolumeInfo (vr_Name (vs_record st)) (vr_CreatedAt (vs_record st))
    (match mounted with [name] => mountpoint name | _ => ""%string end) mounted
    (foldl (fun fenced p => match ms_fenced p.2 with Some e => Some e | None => fenced end) None (map_to_list (vs_mounts st))) (vr_Options (vs_record st)).

Definition List (mountpoint : string → string) (d : Registry) : list Volume :=
  merge_sort (fun a b => String.leb (vi_Name a) (vi_Name b))
    (describe mountpoint <$> omap (fun p => rg_states d !! p.2) (map_to_list (rg_volumes d))).

Definition Get (mountpoint : string → string) (name : string) (d : Registry) : prog (Registry * result Volume) :=
  '(d, r) ← lookup_volume name d;
  Ret (d, match r with
          | Err e => Err e
          | Ok v => match rg_states d !! v with Some st => Ok (describe mountpoint st) | None => Err Panic end
          end).

Definition Path (mountpoint : string → string) (name : string) (d : Registry) : prog (Registry * result string) :=
  '(d, r) ← Get mountpoint name d; Ret (d, match r with Err e => Err e | Ok info => Ok (vi_Mountpoint info) end).

(** ** Steps *)

(** What a program may do with any answers to its calls. *)
Fixpoint performs {R : Type} (p : prog R) (r : R) : Prop :=
  match p with
  | Ret r' => r' = r
  | Do c rest => ∃ a, performs (rest a) r
  end.

(** A request that has looked its volume up and waits for the volume's lock. *)
Inductive waiting : Type :=
  | WaitMount (v : nat) (mountID : string)
  | WaitUnmount (v : nat) (mountID : string)
  | WaitRemove (v : nat) (name : string).

Definition waits_for (w : waiting) : nat := match w with WaitMount v _ | WaitUnmount v _ | WaitRemove v _ => v end.

Definition enter (v : nat) (name : string) (w : waiting) : Prop :=
  (∃ id, w = WaitMount v id) ∨ (∃ id, w = WaitUnmount v id) ∨ w = WaitRemove v name.

(** The registry and the requests under way.  [serialized] says that Docker does
    not remove a volume while another request for it is under way. *)
Inductive registry_step (serialized : bool) : Registry * list waiting → Registry * list waiting → Prop :=
  | step_create d ws name options d' err : performs (Create name options d) (d', err) → registry_step serialized (d, ws) (d', ws)
  | step_lookup d ws name d' v w :
      performs (lookup_volume name d) (d', Ok v) → enter v name w → registry_step serialized (d, ws) (d', ws ++ [w])
  | step_lookup_fails d ws name d' e : performs (lookup_volume name d) (d', Err e) → registry_step serialized (d, ws) (d', ws)
  | step_mount d ws1 ws2 v id d' r :
      performs (request_mount v id (OpMount id) d) (d', r) → registry_step serialized (d, ws1 ++ WaitMount v id :: ws2) (d', ws1 ++ ws2)
  | step_unmount d ws1 ws2 v id d' r :
      performs (request_mount v id (OpUnmount id) d) (d', r) → registry_step serialized (d, ws1 ++ WaitUnmount v id :: ws2) (d', ws1 ++ ws2)
  | step_remove d ws1 ws2 v name d' err :
      performs (Remove v name d) (d', err) → (serialized = true → v ∉ waits_for <$> ws1 ++ ws2) →
      registry_step serialized (d, ws1 ++ WaitRemove v name :: ws2) (d', ws1 ++ ws2)
  | step_fence d ws v name cause d' r : performs (touch_mount v name (OpFence cause) d) (d', r) → registry_step serialized (d, ws) (d', ws)
  | step_shutdown d ws v name d' r : performs (touch_mount v name OpShutdown d) (d', r) → registry_step serialized (d, ws) (d', ws).
End registry.
