(* ===== verification/RegistryTheorems.v ===== *)
(** * The driver's registry: theorems *)
From S2P Require Import Prelude Extents Codec Segment Types Volumes Options Metrics Driver DriverProps DriverTheorems Registry.
Local Open Scope Z_scope.

(** ** What programs return *)

Lemma performs_bind {A B} (p : prog A) (f : A → prog B) r :
  performs (p ≫= f) r → ∃ a, performs p a ∧ performs (f a) r.
Proof.
  induction p as [a|X c rest IH]; cbn; [by eauto|]. intros [x (b & Hb & Hf)%IH]. by eauto.
Qed.

(** A fence or a shutdown mounts nothing. *)
Lemma fence_returns cause m m' : performs (fence cause m) m' → ms_active m' = true → ms_active m = true.
Proof.
  unfold fence. destruct (ms_active m) eqn:Ha; [done|]. cbn. intros <-. congruence.
Qed.

Lemma shutdown_returns m m' r : performs (Shutdown m) (m', r) → ms_active m' = true → ms_active m = true.
Proof. unfold Shutdown. destruct (ms_active m) eqn:Ha; [done|]. cbn. intros [= <- <-]. congruence. Qed.

(** ** The registry *)

Section registry.
Context `{Digest} (cfg : Config) (ParseDuration : string → option Z).

Lemma Create_returns name options d d' err :
  performs (Create ParseDuration name options d) (d', err) →
  d' = d ∨ rg_volumes d !! name ≫= (fun v => rg_states d !! v) = None ∧ ∃ record, vr_Name record = name ∧ d' = register record d.
Proof.
  unfold Create. destruct (negb _); [intros [= <- <-]; by left|]. destruct (ParseVolumeOptions _ _) as [opts|e]; [|intros [= <- <-]; by left].
  destruct (_ ≫= _) as [st|] eqn:Hl.
  - case_bool_decide; [intros [= <- <-]; by left|]. case_bool_decide; intros [= <- <-]; by left.
  - intros (now & [e|] & Hr); cbn in Hr; injection Hr as <- <-; [by left|]. right. split; [done|]. by eexists (mkRecord _ _ _).
Qed.

Lemma lookup_returns name d d' r :
  performs (lookup_volume name d) (d', r) →
  (d' = d ∧ ∀ v, r = Ok v → rg_volumes d !! name = Some v) ∨
  (rg_volumes d !! name = None ∧ ∃ record, vr_Name record = name ∧ d' = register record d ∧ r = Ok (length (rg_states d))).
Proof.
  unfold lookup_volume. destruct (rg_volumes d !! name) as [v|] eqn:Hv; [intros [= <- <-]; left; by split; [|intros ? [= ->]]|].
  destruct (negb _); [intros [= <- <-]; by left|]. intros ([st|e] & Hr); cbn in Hr; [|injection Hr as <- <-; by left].
  destruct Hr as (now & [e|] & Hr); cbn in Hr; injection Hr as <- <-; [by left|]. right. split; [done|]. by eexists (mkRecord _ _ _).
Qed.

Lemma request_mount_returns v id op d d' r :
  performs (request_mount cfg v id op d) (d', r) →
  d' = d ∨ ∃ st m, rg_states d !! v = Some st ∧ d' = set_state v (set_mount (mount_name st id) m st) d.
Proof.
  unfold request_mount. destruct (rg_states d !! v) as [st|] eqn:Hv; [|intros [= <- <-]; by left].
  intros ([m r'] & _ & Hr)%performs_bind. cbn in Hr. injection Hr as <- <-. right. by eauto.
Qed.

Lemma touch_mount_returns v name op d d' r :
  is_fence op = true ∨ op = OpShutdown → performs (touch_mount cfg v name op d) (d', r) →
  d' = d ∨ ∃ st m m', rg_states d !! v = Some st ∧ vs_mounts st !! name = Some m ∧ (ms_active m' = true → ms_active m = true) ∧
    d' = set_state v (set_mount name m' st) d.
Proof.
  intros Hop. unfold touch_mount. destruct (rg_states d !! v) as [st|] eqn:Hv; cbn; [|intros [= <- <-]; by left].
  destruct (vs_mounts st !! name) as [m|] eqn:Hm; cbn; [|intros [= <- <-]; by left].
  intros ([m' r'] & Hp & Hr)%performs_bind. cbn in Hr. injection Hr as <- <-. right. exists st, m, m'. split_and!; try done.
  destruct Hop as [Hop| ->]; [|by apply (shutdown_returns m m' r')].
  destruct op as [| |cause| |]; try done. cbn [mount_body] in Hp. apply performs_bind in Hp as (m1 & Hp & Hr). cbn in Hr. injection Hr as <- <-.
  by apply (fence_returns cause).
Qed.

(** A mount of the state is active. *)
Definition has_active (st : volumeState) : Prop := ∃ name m, vs_mounts st !! name = Some m ∧ ms_active m = true.

Lemma Remove_returns v name d d' err :
  performs (Remove v name d) (d', err) →
  d' = d ∨ ∃ st, rg_states d !! v = Some st ∧ ¬ has_active st ∧ d' = mkRegistry (delete name (rg_volumes d)) (rg_states d).
Proof.
  unfold Remove. destruct (rg_states d !! v) as [st|] eqn:Hv; [|intros [= <- <-]; by left].
  destruct (existsb _ _) eqn:Hact; [intros [= <- <-]; by left|]. intros (r & _ & Hp)%performs_bind.
  destruct r; injection Hp as <- <-; [by left|]. right. exists st. split_and!; [done| |done].
  intros (n & m & Hm & Ha). apply not_true_iff_false in Hact. apply Hact. apply existsb_exists.
  exists (n, m). split; [|done]. by apply list_elem_of_In, elem_of_map_to_list.
Qed.

(** Every name leads to a state of that name; a state that has an active mount,
    or for which a request is under way, is the one its name leads to. *)
Definition registry_inv (sys : Registry * list waiting) : Prop :=
  let '(d, ws) := sys in
  (∀ name v, rg_volumes d !! name = Some v → ∃ st, rg_states d !! v = Some st ∧ vr_Name (vs_record st) = name) ∧
  (∀ v st, rg_states d !! v = Some st → has_active st ∨ v ∈ waits_for <$> ws → rg_volumes d !! vr_Name (vs_record st) = Some v) ∧
  (∀ w, w ∈ ws → ∃ st, rg_states d !! waits_for w = Some st ∧ ∀ v name, w = WaitRemove v name → vr_Name (vs_record st) = name).

Lemma register_inv record d ws :
  rg_volumes d !! vr_Name record = None → registry_inv (d, ws) → registry_inv (register record d, ws).
Proof.
  intros Hnone (H1 & H2 & H3). unfold register. split_and!; cbn [rg_volumes rg_states].
  - intros name v [[<- <-]|[Hne Hv]]%lookup_insert_Some.
    + exists (newState record). by rewrite lookup_app_r, Nat.sub_diag by lia.
    + destruct (H1 _ _ Hv) as (st & Hst & Hn). exists st. by rewrite lookup_app_l by (by eapply lookup_lt_Some).
  - intros v st [Hst|[-> <-]]%lookup_snoc_Some Hv.
    + destruct Hst as [Hlt Hst]. pose proof (H2 _ _ Hst Hv) as Hreg. rewrite lookup_insert_ne; [done|]. congruence.
    + by rewrite lookup_insert_eq.
  - intros w Hw. destruct (H3 _ Hw) as (st & Hst & Hn). exists st. by rewrite lookup_app_l by (by eapply lookup_lt_Some).
Qed.

(** A change of a mount that is registered, or that does not become active. *)
Lemma set_mount_inv v st name m d ws :
  rg_states d !! v = Some st →
  (ms_active m = true → rg_volumes d !! vr_Name (vs_record st) = Some v) →
  registry_inv (d, ws) → registry_inv (set_state v (set_mount name m st) d, ws).
Proof.
  intros Hst Hact (H1 & H2 & H3). unfold set_state.
  assert (∀ u st1, rg_states d !! u = Some st1 → ∃ st2, <[v := set_mount name m st]> (rg_states d) !! u = Some st2 ∧ vs_record st2 = vs_record st1) as Hkeep.
  { intros u st1 Hu. destruct (decide (u = v)) as [->|Hne].
    - exists (set_mount name m st). rewrite list_lookup_insert_eq by (by eapply lookup_lt_Some). split; [done|]. by simplify_eq.
    - exists st1. by rewrite list_lookup_insert_ne. }
  split_and!; cbn [rg_volumes rg_states].
  - intros n u Hu. destruct (H1 _ _ Hu) as (st1 & Hs1 & Hn). destruct (Hkeep _ _ Hs1) as (st2 & Hs2 & Hr). exists st2. by rewrite Hr.
  - intros u st2 Hu Hor. destruct (decide (u = v)) as [->|Hne].
    + rewrite list_lookup_insert_eq in Hu by (by eapply lookup_lt_Some). injection Hu as <-. cbn [set_mount vs_record].
      destruct Hor as [(n & m' & Hm' & Ha)|Hw]; [|by apply (H2 v st); [|right]].
      cbn [set_mount vs_mounts] in Hm'. apply lookup_insert_Some in Hm' as [[<- <-]|[_ Hm']]; [by apply Hact|]. apply (H2 v st); [done|left]. by exists n, m'.
    + rewrite list_lookup_insert_ne in Hu by done. by apply H2.
  - intros w Hw. destruct (H3 _ Hw) as (st1 & Hs1 & Hn). destruct (Hkeep _ _ Hs1) as (st2 & Hs2 & Hr). exists st2. by rewrite Hr.
Qed.

Lemma fewer_waiting_inv d ws1 w ws2 : registry_inv (d, ws1 ++ w :: ws2) → registry_inv (d, ws1 ++ ws2).
Proof.
  intros (H1 & H2 & H3). split_and!; [done| |].
  - intros v st Hst Hor. apply H2; [done|]. destruct Hor as [Ha|Hw]; [by left|right]. rewrite fmap_app in *. set_solver.
  - intros w' Hw'. apply H3. set_solver.
Qed.

Lemma waiting_registered d ws1 w ws2 st :
  registry_inv (d, ws1 ++ w :: ws2) → rg_states d !! waits_for w = Some st → rg_volumes d !! vr_Name (vs_record st) = Some (waits_for w).
Proof. intros (_ & H2 & _) Hst. apply H2; [done|]. right. rewrite fmap_app, fmap_cons. set_solver. Qed.

Lemma more_waiting_inv d ws w name v :
  registry_inv (d, ws) → rg_volumes d !! name = Some v → enter v name w → registry_inv (d, ws ++ [w]).
Proof.
  intros (H1 & H2 & H3) Hv Hw. destruct (H1 _ _ Hv) as (st & Hst & Hn).
  assert (waits_for w = v) as Hwv by (destruct Hw as [[? ->]|[[? ->]| ->]]; done). split_and!; [done| |].
  - intros u st1 Hu [Ha|Hin]; [by apply H2; [|left]|]. rewrite fmap_app in Hin. cbn [fmap list_fmap] in Hin.
    apply elem_of_app in Hin as [Hin|Hin]; [by apply H2; [|right]|]. rewrite Hwv in Hin. apply list_elem_of_singleton in Hin as ->. congruence.
  - intros w' [Hw'|Hw']%elem_of_app; [by apply H3|]. apply list_elem_of_singleton in Hw' as ->. exists st. rewrite Hwv. split; [done|].
    intros u n ->. by destruct Hw as [[? ?]|[[? ?]|[= _ ->]]].
Qed.

Lemma removed_inv d ws1 v name ws2 st :
  registry_inv (d, ws1 ++ WaitRemove v name :: ws2) → rg_states d !! v = Some st → ¬ has_active st →
  v ∉ waits_for <$> ws1 ++ ws2 → registry_inv (mkRegistry (delete name (rg_volumes d)) (rg_states d), ws1 ++ ws2).
Proof.
  intros Hinv Hst Hna Hnw. pose proof (waiting_registered _ _ _ _ _ Hinv Hst) as Hreg. cbn [waits_for] in Hreg.
  pose proof (fewer_waiting_inv _ _ _ _ Hinv) as (H1 & H2 & H3).
  assert (vr_Name (vs_record st) = name) as Hn.
  { destruct Hinv as (_ & _ & H3'). destruct (H3' (WaitRemove v name)) as (st' & Hst' & Hn); [set_solver|]. cbn [waits_for] in Hst'.
    assert (st' = st) as <- by congruence. by eapply Hn. }
  rewrite Hn in Hreg. split_and!; cbn [rg_volumes rg_states]; [|..|done].
  - intros n u [_ Hu]%lookup_delete_Some. by apply H1.
  - intros u st' Hu Hor. assert (u ≠ v) as Hne. { intros ->. assert (st' = st) as -> by congruence. by destruct Hor. }
    pose proof (H2 _ _ Hu Hor) as Hu'. apply lookup_delete_Some. split; [|done]. congruence.
Qed.

Lemma registry_step_inv sys sys' :
  registry_inv sys → registry_step cfg ParseDuration true sys sys' → registry_inv sys'.
Proof.
  intros Hinv Hs. destruct Hs as [d ws name options d' err Hp|d ws name d' v w Hp Hw|d ws name d' e Hp|d ws1 ws2 v id d' r Hp|
    d ws1 ws2 v id d' r Hp|d ws1 ws2 v name d' err Hp Hser|d ws v name cause d' r Hp|d ws v name d' r Hp].
  - apply Create_returns in Hp as [->|(Hno & record & Hn & ->)]; [done|]. apply register_inv; [|done]. rewrite Hn.
    destruct (rg_volumes d !! name) as [v|] eqn:Hv; [|done]. destruct Hinv as (H1 & _). destruct (H1 _ _ Hv) as (st & Hst & _).
    cbn in Hno. congruence.
  - apply lookup_returns in Hp as [[-> Hv]|(Hno & record & Hn & -> & [= ->])]; [by eapply more_waiting_inv; [|apply Hv|]|].
    eapply more_waiting_inv; [apply register_inv; [by rewrite Hn|done]| |done]. unfold register. cbn. by rewrite Hn, lookup_insert_eq.
  - by apply lookup_returns in Hp as [[-> _]|(_ & ? & _ & _ & ?)].
  - apply request_mount_returns in Hp as [->|(st & m & Hst & ->)]; [by eapply fewer_waiting_inv|].
    apply set_mount_inv; [done| |by eapply fewer_waiting_inv]. intros _. by apply (waiting_registered d ws1 (WaitMount v id) ws2).
  - apply request_mount_returns in Hp as [->|(st & m & Hst & ->)]; [by eapply fewer_waiting_inv|].
    apply set_mount_inv; [done| |by eapply fewer_waiting_inv]. intros _. by apply (waiting_registered d ws1 (WaitUnmount v id) ws2).
  - apply Remove_returns in Hp as [->|(st & Hst & Hna & ->)]; [by eapply fewer_waiting_inv|]. eapply removed_inv; [done..|]. by apply Hser.
  - apply touch_mount_returns in Hp as [->|(st & m & m' & Hst & Hm & Ha & ->)]; [done| |by left].
    apply set_mount_inv; [done| |done]. intros Ha'. destruct Hinv as (_ & H2 & _). apply H2; [done|]. left. exists name, m. auto.
  - apply touch_mount_returns in Hp as [->|(st & m & m' & Hst & Hm & Ha & ->)]; [done| |by right].
    apply set_mount_inv; [done| |done]. intros Ha'. destruct Hinv as (_ & H2 & _). apply H2; [done|]. left. exists name, m. auto.
Qed.

Lemma registry_steps_inv sys sys' :
  registry_inv sys → rtc (registry_step cfg ParseDuration true) sys sys' → registry_inv sys'.
Proof. intros Hinv Hr. induction Hr as [s|s1 s2 s3 Hs Hr IH]; [done|]. apply IH. by eapply registry_step_inv. Qed.

Lemma loadRegistry_inv entries d d' :
  (∀ name v, rg_volumes d !! name = Some v → ∃ st, rg_states d !! v = Some st ∧ vr_Name (vs_record st) = name) →
  Forall (fun st => vs_mounts st = ∅) (rg_states d) → loadRegistry entries d = Ok d' → registry_inv (d', []).
Proof.
  revert d. induction entries as [|[record|e] entries IH]; intros d H1 H2; cbn [loadRegistry]; [|destruct (_ && _); [done|]|done].
  - intros [= <-]. split_and!; [done| |by intros w Hw%elem_of_nil].
    intros v st Hst [(n & m & Hm & _)|Hw%elem_of_nil]; [|done]. apply (Forall_lookup_1 _ _ _ _ H2) in Hst. rewrite Hst in Hm. by apply lookup_empty_Some in Hm.
  - apply IH; unfold register; cbn [rg_volumes rg_states].
    + intros name v [[<- <-]|[Hne Hv]]%lookup_insert_Some.
      * exists (newState record). by rewrite lookup_app_r, Nat.sub_diag by lia.
      * destruct (H1 _ _ Hv) as (st & Hst & Hn). exists st. by rewrite lookup_app_l by (by eapply lookup_lt_Some).
    + apply Forall_app. split; [done|]. by apply Forall_singleton.
Qed.

(** No mounted volume is forgotten.  From what the plugin loads when it
    starts, whatever the requests, fences and
    shutdowns, and however they interleave, if a volume is not removed while
    another request for it is under way, then every volume with an active mount
    is still the one the registry has under its name, so that a later unmount
    reaches it; and the registry has a volume under its own name only. *)
Theorem mounted_volumes_registered entries d0 d ws :
  loadRegistry entries empty_registry = Ok d0 → rtc (registry_step cfg ParseDuration true) (d0, []) (d, ws) →
  (∀ v st, rg_states d !! v = Some st → has_active st → rg_volumes d !! vr_Name (vs_record st) = Some v) ∧
  (∀ name v, rg_volumes d !! name = Some v → ∃ st, rg_states d !! v = Some st ∧ vr_Name (vs_record st) = name).
Proof.
  intros H0%loadRegistry_inv Hr; [|by intros name v; cbn; rewrite lookup_empty|constructor]. destruct (registry_steps_inv _ _ H0 Hr) as (H1 & H2 & _).
  split; [|done]. intros v st Hst Ha. by apply H2; [|left].
Qed.
End registry.
