(* ===== verification/DriverWitness.v ===== *)
(** * The volume driver: executions

    The programs of the driver are run against an environment that computes the
    answers; the witnesses of the driver's theorems and the behaviours that a
    reader may not expect. *)
From S2P Require Import Prelude Extents Codec Segment Types Volumes Options Metrics Driver DriverProps DriverTheorems Registry RegistryTheorems.
Local Open Scope Z_scope.

(** ** Running programs *)

(** The answer to a call, from what is open and a number that is fresh. *)
Definition environment : Type := ∀ A, call A → ledger → nat → A.

Fixpoint simulate {R} (env : environment) (n : nat) (p : prog R) (σ : ledger) : R * ledger * list call_answer * nat :=
  match p with
  | Ret r => (r, σ, [], n)
  | Do c rest =>
      let a := env _ c σ n in
      let '(r, σ', tr, n') := simulate env (S n) (rest a) (after c a σ) in
      (r, σ', Ev c a :: tr, n')
  end.

Definition lawful (env : environment) : Prop := ∀ A (c : call A) σ n, possible c σ (env A c σ n).

Lemma simulate_exec {R} env n (p : prog R) σ r σ' tr n' :
  lawful env → simulate env n p σ = (r, σ', tr, n') → exec p σ tr r σ'.
Proof.
  intros Henv. revert n σ tr. induction p as [r0|A c rest IH]; intros n σ tr; cbn [simulate].
  - intros [= -> -> <- _]. constructor.
  - destruct (simulate env (S n) _ _) as [[[r1 σ1] tr1] n1] eqn:Hs. intros [= -> -> <- ->]. constructor; [apply Henv|]. by eapply IH.
Qed.

Lemma simulate_performs {R} env n (p : prog R) σ : performs p (simulate env n p σ).1.1.1.
Proof.
  revert n σ. induction p as [r0|A c rest IH]; intros n σ; cbn [simulate performs]; [done|].
  exists (env A c σ n). pose proof (IH (env A c σ n) (S n) (after c (env A c σ n) σ)) as Hp.
  by destruct (simulate env (S n) _ _) as [[[r1 σ1] tr1] n1].
Qed.

Section ops.
Context (cfg : Config) (opts : VolumeOptions) (env : environment).

Fixpoint simulate_ops (n : nat) (ops : list mount_op) (m : mountState) (σ : ledger) : mountState * ledger * list call_answer * nat :=
  match ops with
  | [] => (m, σ, [], n)
  | op :: ops =>
      let '(r, σ1, tr1, n1) := simulate env n (mount_body cfg opts op m) σ in
      let '(m', σ', tr, n') := simulate_ops n1 ops r.1 σ1 in (m', σ', tr1 ++ tr, n')
  end.

Lemma runs_cons m0 σ0 op tr1 m1 r1 σ1 ops tr m σ :
  exec (mount_body cfg opts op m0) σ0 tr1 (m1, r1) σ1 → runs cfg opts m1 σ1 ops tr m σ → runs cfg opts m0 σ0 (op :: ops) (tr1 ++ tr) m σ.
Proof.
  intros He Hr. induction Hr as [|ops tr m σ op' tr' m' r' σ' Hr IH He'].
  - rewrite app_nil_r. apply (run_op _ _ _ _ [] []  m0 σ0 op tr1 m1 r1 σ1); [constructor|done].
  - rewrite app_assoc. change (op :: ops ++ [op']) with ((op :: ops) ++ [op']). by eapply run_op.
Qed.

Lemma simulate_ops_runs n ops m σ m' σ' tr n' :
  lawful env → simulate_ops n ops m σ = (m', σ', tr, n') → runs cfg opts m σ ops tr m' σ'.
Proof.
  intros Henv. revert n m σ tr. induction ops as [|op ops IH]; intros n m σ tr; cbn [simulate_ops].
  - intros [= -> -> <- _]. constructor.
  - destruct (simulate env n _ σ) as [[[[m1 r1] σ1] tr1] n1] eqn:Hs. cbn [fst].
    destruct (simulate_ops n1 ops m1 σ1) as [[[m2 σ2] tr2] n2] eqn:Hops. intros [= -> -> <- ->].
    eapply runs_cons; [by eapply simulate_exec|by eapply IH].
Qed.
End ops.

(** ** An environment in which everything works *)

Definition sample_state : State := mkState "satchel-volume-v1" "id" "vol" 67108864 4096 "ext4" 1 "m" ∅ None 0 1 false None.
Definition sample_generation : Generation := mkGeneration {[0 := [x41]]} 4096 1.

Definition working : environment := fun A c σ n =>
  match c in call A return A with
  | OpenJournal _ => if g_data σ then Ok (n, [sample_generation]) else Err ErrNotExist
  | CreateJournal _ _ | Acquire _ _ _ _ | PrepareLazyRestore _ _ | OpenDevice _ _ _ | BackendMount _ _ _ _ | EncodeSegments _ => Ok n
  | Inspect _ => Ok sample_state
  | LeaseState _ => sample_state
  | ValidateRecovery _ _ | Rebase _ _ | JournalClose _ _ | LeaseRelease _ | RestoreImage _ _ | Publish _ _ | DeleteRemote _ | DeleteFamily _
  | CreateImage _ _ | SaveRecord _ _ _ | RemoveRegistry _ | LazyClose _ | Replay _ _ | MarkAllocated _ | DeviceClose _ | Format _ _
  | UnmountFs _ | AbandonMount _ | SeedApply _ _ | SyncCheckpoint _ | SyncerStop _ => None
  | StartHeartbeat _ | Seal _ | StartSyncer _ _ _ _ _ => n
  | StopBeat _ | CleanupLocal _ | RemoveJournal _ | SetLazyImage _ _ | SetDirtyObserver _ _ | SetBackpressureHandler _ _ _
  | ReleaseGeneration _ _ | SetDirtyHandler _ _ _ | SetDurableFlushHandler _ _ _ | EnqueueRecovered _ _ | Notify _ | SyncerAbandon _ | Metric _ => tt
  | Now => 0
  end.

(** The same, but for a device whose file cannot be closed. *)
Definition close_fails : environment := fun A c σ n =>
  match c in call A return A → A with
  | DeviceClose _ => fun _ => Some ErrIO
  | _ => fun a => a
  end (working A c σ n).

Lemma working_lawful : lawful working.
Proof. intros A [] σ n; cbn; try done. by destruct (g_data σ) eqn:Hd; cbn. Qed.

Lemma close_fails_lawful : lawful close_fails.
Proof. intros A [] σ n; cbn; try done. by destruct (g_data σ) eqn:Hd; cbn. Qed.

Definition sample_config : Config := mkConfig "node-1" 268435456 5000000000 128 false.

(** A run of the sample volume. *)
Definition sample_run (env : environment) (ops : list mount_op) : mountState * ledger * list call_answer * nat :=
  simulate_ops sample_config default_options env 0 ops (new_mount "vol") (at_rest None false).

Lemma sample_run_runs env ops m σ tr n : lawful env → sample_run env ops = (m, σ, tr, n) → run sample_config default_options ops tr m σ.
Proof. intros Henv Hs. exists "vol"%string, false. by eapply simulate_ops_runs. Qed.

Definition run_mount (x : mountState * ledger * list call_answer * nat) : mountState := x.1.1.1.
Definition run_ledger (x : mountState * ledger * list call_answer * nat) : ledger := x.1.1.2.
Definition run_trace (x : mountState * ledger * list call_answer * nat) : list call_answer := x.1.2.

Lemma sample_run_run env ops :
  lawful env → run sample_config default_options ops (run_trace (sample_run env ops)) (run_mount (sample_run env ops)) (run_ledger (sample_run env ops)).
Proof. intros Henv. destruct (sample_run env ops) as [[[m σ] tr] n] eqn:Hs. by eapply sample_run_runs. Qed.

(** One more request after a run. *)
Definition sample_next (env : environment) (ops : list mount_op) (op : mount_op) : (mountState * response) * ledger * list call_answer * nat :=
  let x := sample_run env ops in
  simulate env x.2 (mount_body sample_config default_options op (run_mount x)) (run_ledger x).

Lemma sample_next_exec env ops op :
  lawful env → let y := sample_next env ops op in
  exec (mount_body sample_config default_options op (run_mount (sample_run env ops))) (run_ledger (sample_run env ops)) y.1.2 (y.1.1.1.1, y.1.1.1.2) y.1.1.2.
Proof.
  intros Henv y. destruct y as [[[[m r] σ] tr] n] eqn:Hy. cbn. eapply simulate_exec; [done|exact Hy].
Qed.

(** The answers of an environment, in a whole run. *)
Lemma simulate_usual {R} env (usual : call_answer → Prop) n (p : prog R) σ :
  (∀ A (c : call A) σ n, usual (Ev c (env A c σ n))) → Forall usual (simulate env n p σ).1.2.
Proof.
  intros Hu. revert n σ. induction p as [r0|A c rest IH]; intros n σ; cbn [simulate]; [constructor|].
  pose proof (IH (env A c σ n) (S n) (after c (env A c σ n) σ)) as Hp.
  destruct (simulate env (S n) _ _) as [[[r1 σ1] tr1] n1]. constructor; [apply Hu|done].
Qed.

Lemma simulate_ops_usual cfg opts env (usual : call_answer → Prop) n ops m σ :
  (∀ A (c : call A) σ n, usual (Ev c (env A c σ n))) → Forall usual (run_trace (simulate_ops cfg opts env n ops m σ)).
Proof.
  intros Hu. revert n m σ. induction ops as [|op ops IH]; intros n m σ; cbn [simulate_ops]; [constructor|].
  pose proof (simulate_usual env usual n (mount_body cfg opts op m) σ Hu) as Hp.
  destruct (simulate env n _ σ) as [[[r σ1] tr1] n1]. pose proof (IH n1 r.1 σ1) as Hops.
  destruct (simulate_ops cfg opts env n1 ops r.1 σ1) as [[[m2 σ2] tr2] n2]. by apply Forall_app.
Qed.

Lemma working_untroubled A (c : call A) σ n : untroubled (Ev c (working A c σ n)).
Proof. intros Hf. destruct c; try destruct Hf as [? Hf]; try discriminate; try contradiction. by destruct Hf. Qed.

(** ** Witnesses *)

(** The device of a mount is closed by the unmount. *)
Lemma driver_leaks_nothing_witness :
  let x := sample_run working [OpMount "a"; OpUnmount "a"] in
  let k := 7%nat in
  match run_trace x !! k with
  | Some ev => ∃ h, opens ev = Some (PDevice h) ∧ ∃ ev', ev' ∈ drop (S k) (run_trace x) ∧ closes ev' (PDevice h)
  | None => False
  end.
Proof.
  intros x k. destruct (run_trace x !! k) as [ev|] eqn:Hev; [|vm_compute in Hev; discriminate Hev].
  assert (∃ h, opens ev = Some (PDevice h)) as [h Hop] by (vm_compute in Hev; injection Hev as <-; by eexists). exists h. split; [exact Hop|].
  destruct (driver_leaks_nothing _ _ _ _ _ _ (take k (run_trace x)) ev (drop (S k) (run_trace x)) (PDevice h)
    (sample_run_run working [OpMount "a"; OpUnmount "a"]%string working_lawful)) as [[Ha _]|[Hc|[Hf _]]].
  - symmetry. by apply take_drop_middle.
  - exact Hop.
  - vm_compute in Ha. discriminate Ha.
  - exact Hc.
  - vm_compute in Hf. discriminate Hf.
Defined.

(** The call number [k] of a program, what was answered before and what is open. *)
Fixpoint nth_call {R} (env : environment) (n : nat) (p : prog R) (σ : ledger) (k : nat) : option (list call_answer * ledger * {A & call A}) :=
  match p with
  | Ret _ => None
  | Do c rest =>
      match k with
      | O => Some ([], σ, existT _ c)
      | S k =>
          let a := env _ c σ n in
          match nth_call env (S n) (rest a) (after c a σ) k with
          | Some (tr, σ', c') => Some (Ev c a :: tr, σ', c')
          | None => None
          end
      end
  end.

Lemma nth_call_reaches {R} env n (p : prog R) σ k tr σ' x :
  lawful env → nth_call env n p σ k = Some (tr, σ', x) → reaches p σ tr (projT1 x) (projT2 x) σ'.
Proof.
  intros Henv. revert n σ k tr. induction p as [r|A c rest IH]; intros n σ k tr; cbn [nth_call]; [done|].
  destruct k as [|k]; [intros [= <- <- <-]; constructor|].
  destruct (nth_call env (S n) _ _ k) as [[[tr1 σ1] x1]|] eqn:Hn; [|done]. intros [= <- <- <-]. constructor; [apply Henv|]. by eapply IH.
Qed.

(** The unmount of a volume comes to remove its journal, which holds nothing that
    is not published. *)
Lemma driver_calls_in_order_witness :
  let x := sample_run working [OpMount "a"] in
  match nth_call working x.2 (mount_body sample_config default_options (OpUnmount "a") (run_mount x)) (run_ledger x) 7 with
  | Some (tr', σ', existT _ (JournalClose j remove)) => remove = true ∧ g_journal σ' = Some j ∧ g_data σ' = false
  | _ => False
  end.
Proof.
  intros x. destruct (nth_call _ _ _ _ _) as [[[tr' σ'] [A c]]|] eqn:Hn; [|vm_compute in Hn; discriminate Hn].
  pose proof (nth_call_reaches _ _ _ _ _ _ _ _ working_lawful Hn) as Hreach. cbn [projT1 projT2] in Hreach.
  destruct (driver_calls_in_order _ _ _ _ _ _ _ _ _ _ _ (sample_run_run working [OpMount "a"%string] working_lawful) Hreach) as [_ Hpre].
  assert (Forall untroubled (run_trace x ++ tr')) as Htr.
  { apply Forall_app. split; [exact (simulate_ops_usual _ _ working _ _ _ _ _ working_untroubled)|].
    vm_compute in Hn. injection Hn as <- _ _. repeat (constructor; [intros Hf; cbn in Hf; naive_solver|]). constructor. }
  specialize (Hpre Htr). destruct c; try (vm_compute in Hn; discriminate Hn). cbn in Hpre. destruct Hpre as [Hj Hd].
  assert (remove = true) as -> by (vm_compute in Hn; by inversion Hn). split; [reflexivity|]. split; [exact Hj|by apply Hd].
Defined.

Lemma granted_mount_is_mounted_witness :
  let y := sample_next working [OpMount "a"] (OpMount "b") in
  serving y.1.1.1.1 ∧ "b"%string ∈ ms_mountIDs y.1.1.1.1 ∧ y.1.1.1.2 = Mounted "vol".
Proof.
  intros y. assert (y.1.1.1.2 = Mounted "vol") as Hr by (vm_compute; reflexivity).
  pose proof (sample_next_exec working [OpMount "a"%string] (OpMount "b"%string) working_lawful) as He. cbn zeta in He. fold y in He. rewrite Hr in He.
  destruct (granted_mount_is_mounted _ _ _ _ _ _ _ _ _ _ _ (sample_run_run working _ working_lawful)
    (simulate_ops_usual _ _ working _ _ _ _ _ working_untroubled) He) as (Hs & _ & Hin & _).
  split; [exact Hs|]. split; [exact Hin|]. exact Hr.
Defined.

Lemma fence_holds_until_unmounted_witness :
  let x := sample_run working [OpMount "a"] in
  let y := sample_next working [OpMount "a"] (OpFence ErrLeaseLost) in
  let z := simulate_ops sample_config default_options working y.2 [OpMount "b"; OpUnmount "c"; OpShutdown] y.1.1.1.1 y.1.1.2 in
  run_trace z = [] ∧ run_ledger z = at_rest (g_lease (run_ledger x)) (g_data (run_ledger x)) ∧ g_data (run_ledger x) = true.
Proof.
  intros x y z. pose proof (sample_next_exec working [OpMount "a"%string] (OpFence ErrLeaseLost) working_lawful) as He.
  cbn zeta in He. fold x y in He.
  assert (runs sample_config default_options y.1.1.1.1 y.1.1.2 [OpMount "b"%string; OpUnmount "c"%string; OpShutdown] (run_trace z) (run_mount z) (run_ledger z)) as Hz.
  { apply (simulate_ops_runs _ _ working y.2 _ _ _ _ _ _ z.2 working_lawful). unfold run_trace, run_mount, run_ledger. by rewrite <-!surjective_pairing. }
  destruct (fence_holds_until_unmounted _ _ _ _ _ _ _ _ _ _ _ _ _ _ _ "a"%string (sample_run_run working [OpMount "a"%string] working_lawful)
    eq_refl He Hz) as (_ & _ & _ & _ & Hkeep).
  - vm_compute. reflexivity.
  - intros Hin. repeat (apply elem_of_cons in Hin as [Hin|Hin]; [discriminate|]). by apply elem_of_nil in Hin.
  - destruct (Hkeep eq_refl) as [Htr Hs]. split; [exact Htr|]. split; [exact Hs|]. vm_compute. reflexivity.
Defined.

(** ** Behaviours a reader may not expect *)

(** When the device cannot be closed after the filesystem is unmounted, the mount
    stays active: the next mount request is granted although nothing is mounted
    on the mountpoint and the lease is released. *)
Theorem failed_close_grants_unmounted_volume :
  let x := sample_run close_fails [OpMount "a"; OpUnmount "a"] in
  let y := sample_next close_fails [OpMount "a"; OpUnmount "a"] (OpMount "b") in
  run sample_config default_options [OpMount "a"; OpUnmount "a"]%string (run_trace x) (run_mount x) (run_ledger x) ∧
  exec (mount_body sample_config default_options (OpMount "b") (run_mount x)) (run_ledger x) y.1.2 (y.1.1.1.1, Mounted "vol") y.1.1.2 ∧
  g_fs y.1.1.2 = None ∧ g_lease y.1.1.2 = None.
Proof.
  intros x y. split; [by apply sample_run_run, close_fails_lawful|]. split; [|split; vm_compute; reflexivity].
  pose proof (sample_next_exec close_fails [OpMount "a"; OpUnmount "a"]%string (OpMount "b"%string) close_fails_lawful) as He.
  cbn zeta in He. fold x y in He. replace (y.1.1.1.2) with (Mounted "vol") in He by (vm_compute; reflexivity). exact He.
Qed.

(** A fence is for whatever the mount serves when it gets the lock: one that was
    started for the lease of an earlier mount drops the lease of the present one,
    which is neither released nor renewed. *)
Theorem late_fence_drops_new_lease :
  let x := sample_run working [OpMount "a"; OpUnmount "a"; OpMount "b"] in
  let y := sample_next working [OpMount "a"; OpUnmount "a"; OpMount "b"] (OpFence ErrLeaseLost) in
  run sample_config default_options [OpMount "a"; OpUnmount "a"; OpMount "b"]%string (run_trace x) (run_mount x) (run_ledger x) ∧
  ms_active (run_mount x) = true ∧
  exec (mount_body sample_config default_options (OpFence ErrLeaseLost) (run_mount x)) (run_ledger x) y.1.2 (y.1.1.1.1, Finished None) y.1.1.2 ∧
  ms_active y.1.1.1.1 = false ∧ g_lease y.1.1.2 = ms_lease (run_mount x) ∧ g_lease y.1.1.2 ≠ None ∧ g_beat y.1.1.2 = None.
Proof.
  intros x y. split; [by apply sample_run_run, working_lawful|]. split; [by vm_compute|].
  split; [|split_and!; vm_compute; congruence].
  pose proof (sample_next_exec working [OpMount "a"; OpUnmount "a"; OpMount "b"]%string (OpFence ErrLeaseLost) working_lawful) as He.
  cbn zeta in He. fold x y in He. replace (y.1.1.1.2) with (Finished None) in He by (vm_compute; reflexivity). exact He.
Qed.

(** [Remove] looks only at whether a mount is active: while a fenced volume still
    has users, for whom [Mount] is refused, it deletes the volume and with it the
    local journal that may hold data that is not published. *)
Theorem remove_discards_fenced_data :
  let ops := [OpMount "a"; OpFence ErrLeaseLost]%string in
  let x := sample_run working ops in
  let y := sample_next working ops (OpRemove "vol") in
  run sample_config default_options ops (run_trace x) (run_mount x) (run_ledger x) ∧
  is_Some (ms_fenced (run_mount x)) ∧ "a"%string ∈ ms_mountIDs (run_mount x) ∧ g_data (run_ledger x) = true ∧
  exec (mount_body sample_config default_options (OpRemove "vol") (run_mount x)) (run_ledger x) y.1.2 (run_mount x, Finished None) y.1.1.2 ∧
  g_data y.1.1.2 = false.
Proof.
  intros ops x y. split; [by apply sample_run_run, working_lawful|]. split; [vm_compute; by eexists|]. split; [refine (bool_decide_eq_true_1 _ _); vm_compute; reflexivity|].
  split; [by vm_compute|]. split; [|by vm_compute].
  pose proof (sample_next_exec working ops (OpRemove "vol"%string) working_lawful) as He. cbn zeta in He. fold x y in He.
  replace (y.1.1.1.2) with (Finished None) in He by (vm_compute; reflexivity). replace (y.1.1.1.1) with (run_mount x) in He by (vm_compute; reflexivity). exact He.
Qed.

(** ** The registry *)

#[local] Existing Instance toy_digest.
Notation step := (registry_step sample_config (fun _ => None)).

(** What a program returns when everything works. *)
Definition outcome {R} (p : prog R) : R := (simulate working 0 p (at_rest None false)).1.1.1.

Definition created : Registry := (outcome (Create (fun _ => None) "vol" [] empty_registry)).1.
Definition mounted : Registry := (outcome (request_mount sample_config 0 "a" (OpMount "a") created)).1.
Definition removed : Registry := (outcome (Remove 0 "vol" created)).1.
Definition orphaned : Registry := (outcome (request_mount sample_config 0 "a" (OpMount "a") removed)).1.

Lemma outcome_performs {R} (p : prog R) r : outcome p = r → performs p r.
Proof. intros <-. apply simulate_performs. Qed.

Lemma create_step s : step s (empty_registry, []) (created, []).
Proof. eapply (step_create _ _ _ _ _ "vol" []). apply outcome_performs. vm_compute. reflexivity. Qed.

Lemma enter_step s ws w : enter 0 "vol" w → step s (created, ws) (created, ws ++ [w]).
Proof. intros Hw. eapply step_lookup; [|exact Hw]. vm_compute. reflexivity. Qed.

(** A mount request that has looked its volume up, and then waits while the
    volume is removed, mounts the removed volume: the registry does not know it
    any more, and no unmount will find it. *)
Theorem remove_orphans_mount :
  rtc (step false) (empty_registry, []) (orphaned, []) ∧
  rg_volumes orphaned = ∅ ∧ ∃ st, rg_states orphaned !! 0%nat = Some st ∧ has_active st.
Proof.
  split_and!.
  - eapply rtc_l; [apply create_step|]. eapply rtc_l; [apply (enter_step _ [] (WaitMount 0 "a")); left; by eexists|].
    eapply rtc_l; [apply (enter_step _ [WaitMount 0 "a"] (WaitRemove 0 "vol")); by right; right|].
    eapply rtc_l; [apply (step_remove _ _ _ created [WaitMount 0 "a"] [] 0 "vol" removed None); [|discriminate]|].
    { apply outcome_performs. vm_compute. reflexivity. }
    eapply rtc_l; [apply (step_mount _ _ _ removed [] [] 0 "a" orphaned (Mounted "vol"))|constructor].
    apply outcome_performs. vm_compute. reflexivity.
  - vm_compute. reflexivity.
  - eexists. split; [vm_compute; reflexivity|]. eexists "vol"%string, _. split; [vm_compute; reflexivity|]. vm_compute. reflexivity.
Qed.

Lemma mounted_volumes_registered_witness :
  rg_volumes mounted !! "vol"%string = Some 0%nat ∧ ∃ st, rg_states mounted !! 0%nat = Some st ∧ has_active st.
Proof.
  assert (∃ st, rg_states mounted !! 0%nat = Some st ∧ has_active st ∧ vr_Name (vs_record st) = "vol"%string) as (st & Hst & Ha & Hn).
  { eexists. split; [vm_compute; reflexivity|]. split; [|reflexivity].
    eexists "vol"%string, _. split; [vm_compute; reflexivity|]. vm_compute. reflexivity. }
  split; [|exists st; split; [exact Hst|exact Ha]]. rewrite <-Hn.
  refine (proj1 (mounted_volumes_registered sample_config (fun _ => None) [] empty_registry mounted [] eq_refl _) 0%nat st Hst Ha).
  eapply rtc_l; [apply create_step|]. eapply rtc_l; [apply (enter_step _ [] (WaitMount 0 "a")); left; by eexists|].
  eapply rtc_l; [apply (step_mount _ _ _ created [] [] 0 "a" mounted (Mounted "vol"))|constructor].
  apply outcome_performs. vm_compute. reflexivity.
Defined.
