(* ===== verification/DriverMetrics.v ===== *)
(** * The volume driver and its metrics

    What the gauges of the plugin show, related to what the driver has mounted
    and open. *)
From S2P Require Import Prelude Extents Codec File Segment Types Options Metrics Driver DriverProps DriverTheorems Registry RegistryTheorems DriverWitness.
Local Open Scope Z_scope.

(** ** The updates in a trace *)

Definition metric_of (ev : call_answer) : option metric_update :=
  match ev with Ev c _ => match c with Metric u => Some u | _ => None end end.
Definition metrics_of (tr : list call_answer) : list metric_update := omap metric_of tr.

(** The two gauges that are followed through a program: the number of mounted
    volumes, and whether the lease of a volume is held. *)
Definition gauges : Type := Z * option Z.
Definition shown (name : string) (us : list metric_update) : gauges := (MountedVolumes us, LeaseHeld name us).
Definition update_gauges (name : string) (u : metric_update) (x : gauges) : gauges :=
  (x.1 + match u with MountedVolumes_Inc => 1 | MountedVolumes_Dec => -1 | _ => 0 end,
   match u with LeaseHeld_Set v held => if bool_decide (v = name) then Some held else x.2 | _ => x.2 end).

Definition event_gauges (name : string) (ev : call_answer) (x : gauges) : gauges :=
  match metric_of ev with Some u => update_gauges name u x | None => x end.

Lemma shown_snoc name us u : shown name (us ++ [u]) = update_gauges name u (shown name us).
Proof.
  unfold shown, update_gauges, MountedVolumes, LeaseHeld. rewrite metric_total_app, (last_set_app _ us [u] _ eq_refl). cbn.
  rewrite Z.add_0_r. f_equal. destruct u; try done. by case_bool_decide.
Qed.

(** A program, with what the gauges show and the ledger at its end, whatever it
    is answered. *)
Fixpoint tracks {R} (name : string) (p : prog R) (Q : R → gauges → ledger → Prop) (x : gauges) (σ : ledger) : Prop :=
  match p with
  | Ret r => Q r x σ
  | Do c rest => ∀ a, tracks name (rest a) Q (event_gauges name (Ev c a) x) (after c a σ)
  end.

Lemma tracks_bind {A R} name (p : prog A) (f : A → prog R) Q x σ :
  tracks name p (fun a x σ => tracks name (f a) Q x σ) x σ → tracks name (p ≫= f) Q x σ.
Proof. revert x σ. induction p as [a|B c rest IH]; intros x σ; cbn; [done|]. intros Hp b. by apply IH. Qed.

Lemma tracks_mono {R} name (p : prog R) (Q Q' : R → gauges → ledger → Prop) x σ :
  (∀ r x σ, Q r x σ → Q' r x σ) → tracks name p Q x σ → tracks name p Q' x σ.
Proof. intros HQ. revert x σ. induction p as [a|B c rest IH]; intros x σ; cbn; [by auto|]. intros Hp b. by apply IH. Qed.

Lemma tracks_exec {R} name (p : prog R) Q us σ tr r σ' :
  tracks name p Q (shown name us) σ → exec p σ tr r σ' → Q r (shown name (us ++ metrics_of tr)) σ'.
Proof.
  intros Hp He. revert us Hp. induction He as [r σ|A c rest σ a tr r σ' _ He IH]; intros us; cbn [tracks].
  - by rewrite app_nil_r.
  - intros Hp. specialize (Hp a). unfold metrics_of, event_gauges in *. cbn [omap list_omap]. destruct (metric_of (Ev c a)) as [u|].
    + rewrite cons_middle, app_assoc. apply IH. by rewrite shown_snoc.
    + by apply IH.
Qed.

(** The next call or case distinction of a program. *)
Ltac track_step := first
  [ apply tracks_bind
  | progress cbn [tracks do or_fail or_exit ignore when_some event_gauges metric_of update_gauges fst snd]
  | progress cbv zeta
  | progress intros ?
  | match goal with
    | |- tracks _ (or_fail _ ?r _) _ _ _ => destruct r
    | |- tracks _ (or_exit _ ?r _) _ _ _ => destruct r
    | |- tracks _ (when_some ?x _) _ _ _ => destruct x eqn:?
    | |- tracks _ (ignore _) _ _ _ => unfold ignore
    | |- tracks _ (let '(_, _) := ?x in _) _ _ _ => destruct x
    | |- tracks _ (match ?x with _ => _ end) _ _ _ => destruct x eqn:?
    end ].

(** ** The parts of the driver *)

Section parts.
Context (cfg : Config).

(** A part of a mount after which the gauges are as before. *)
Definition quiet {R} (p : prog R) : Prop := ∀ name x σ, tracks name p (fun _ x' _ => x' = x) x σ.

Lemma quiet_bind {A R} name (p : prog A) (f : A → prog R) Q x σ :
  quiet p → (∀ a σ', tracks name (f a) Q x σ') → tracks name (p ≫= f) Q x σ.
Proof. intros Hp Hf. apply tracks_bind. eapply tracks_mono; [|apply Hp]. intros a x' σ' ->. apply Hf. Qed.

Ltac quiet := intros ? [? ?] ?; repeat track_step; unfold update_gauges; cbn [fst snd]; rewrite ?Z.add_0_r; done.

Lemma recover_journal_quiet opts n : quiet (recover_journal opts n).
Proof. unfold recover_journal. quiet. Qed.
Lemma prepare_image_quiet lease st n : quiet (prepare_image lease st n).
Proof. unfold prepare_image. quiet. Qed.
Lemma open_device_quiet st n image gens : quiet (open_device cfg st n image gens).
Proof. unfold open_device. quiet. Qed.
Lemma publish_initial_quiet opts lease d n : quiet (publish_initial cfg opts lease d n).
Proof. unfold publish_initial. quiet. Qed.
Lemma releaseOnFailure_quiet m beat lease j e name x σ :
  tracks name (releaseOnFailure m beat lease j e) (fun r x' _ => r = (m, Some e) ∧ x' = x) x σ.
Proof. unfold releaseOnFailure. destruct x as [g h]. repeat track_step; done. Qed.
Lemma cleanupMounted_quiet m u d beat lease j e name x σ :
  tracks name (cleanupMounted m u d beat lease j e) (fun r x' _ => r = (reset_mount m, Some e) ∧ x' = x) x σ.
Proof. unfold cleanupMounted. do 8 track_step. apply releaseOnFailure_quiet. Qed.
Lemma start_syncer_tracks opts lease d n j gens name x σ :
  n = name → tracks name (start_syncer cfg opts lease d n j gens) (fun _ x' _ => x' = (x.1, Some 1)) x σ.
Proof.
  intros ->. unfold start_syncer. destruct x as [g h].
  repeat track_step; unfold update_gauges; cbn [fst snd]; rewrite Z.add_0_r, bool_decide_eq_true_2 by done; done.
Qed.
End parts.

(** ** Mounting and unmounting *)

(** The gauge of the lease shows 1 exactly while the syncer runs, and then the
    lease is held. *)
Definition held_shown (held : option Z) (σ : ledger) : Prop :=
  (held = Some 1 ↔ is_Some (g_syncer σ)) ∧ (is_Some (g_syncer σ) → is_Some (g_lease σ)).

Section operations.
Context (cfg : Config).

(** A mount moves the gauge of the lease when it succeeds and has a syncer. *)
Definition mount_gauges (m : mountState) (x : gauges) (r : mountState * option error) (x' : gauges) : Prop :=
  x'.1 = x.1 ∧ ms_name r.1 = ms_name m ∧
  match r.2 with
  | Some _ => ms_active r.1 = false ∧ x'.2 = x.2
  | None => ms_active r.1 = true ∧ (x'.2 = Some 1 ∧ is_Some (ms_syncer r.1) ∨ x'.2 = x.2 ∧ ms_syncer r.1 = None)
  end.

Lemma mountReadOnly_gauges m x σ :
  ms_active m = false → ms_syncer m = None → tracks (ms_name m) (mountReadOnly cfg m) (fun r x' _ => mount_gauges m x r x') x σ.
Proof.
  intros Ha Hs. unfold mountReadOnly. destruct x as [g h].
  repeat track_step; unfold mount_gauges, update_gauges; cbn; rewrite ?Z.add_0_r; split_and!; by auto.
Qed.

Lemma mountFresh_gauges opts m x σ :
  ms_active m = false → ms_syncer m = None → tracks (ms_name m) (mountFresh cfg opts m) (fun r x' _ => mount_gauges m x r x') x σ.
Proof.
  intros Ha Hs. unfold mountFresh. destruct (ReadOnly opts); [by apply mountReadOnly_gauges|].
  apply quiet_bind; [apply recover_journal_quiet|]. intros [[j gens]|e] σ1; [|done]. cbn [or_fail].
  assert (∀ beat lease j e σ', tracks (ms_name m) (releaseOnFailure m beat lease j e) (fun r x' _ => mount_gauges m x r x') x σ') as Hexit.
  { intros beat lease j' e σ'. eapply tracks_mono; [|apply releaseOnFailure_quiet]. by intros r x' ? [-> ->]. }
  apply quiet_bind; [by intros ? ? ?|]. intros [lease|e] σ2.
  2: { destruct x as [g h]. repeat track_step; unfold mount_gauges, update_gauges; cbn; rewrite Z.add_0_r; done. }
  apply quiet_bind; [by intros ? ? ?|]. intros beat σ3. cbv zeta. apply quiet_bind; [by intros ? ? ?|]. intros [] ?. apply quiet_bind; [by intros ? ? ?|]. intros remoteState ?.
  apply quiet_bind. { destruct j as [j|]; [|by intros ? ? ?]. intros ? ? ?. repeat track_step; done. }
  intros [e|] σ4; [apply Hexit|]. cbn [or_exit]. apply quiet_bind; [apply prepare_image_quiet|]. intros [z|e] σ5; [|apply Hexit]. cbn [or_fail].
  apply quiet_bind; [apply open_device_quiet|]. intros [d|e] σ6; [|apply Hexit]. cbn [or_fail].
  apply quiet_bind; [by intros ? ? ?|]. intros [u|e] σ7; [|apply quiet_bind; [by intros ? ? ?|intros ? ?; apply Hexit]].
  set (m' := with_mounted _ _ _ _ m).
  assert (∀ j e σ', tracks (ms_name m) (cleanupMounted m' u d beat lease j e) (fun r x' _ => mount_gauges m x r x') x σ') as Hclean.
  { intros j' e σe. eapply tracks_mono; [|apply cleanupMounted_quiet]. by intros r x' ? [-> ->]. }
  apply quiet_bind. { destruct (_ =? 0); [apply publish_initial_quiet|by intros ? ? ?]. }
  intros [e|] σ8; [apply Hclean|]. cbn [or_exit]. apply quiet_bind.
  { destruct j as [j|]; [by intros ? ? ?|]. destruct (LocalDurability opts); [|by intros ? ? ?]. intros ? ? ?. repeat track_step; done. }
  intros [j'|e] σ9; [|apply Hclean]. cbn [or_fail]. apply tracks_bind. eapply tracks_mono; [|by apply start_syncer_tracks].
  intros s x' σe ->. split; [done|]. split; [done|]. split; [done|]. left. split; [done|by eexists].
Qed.

Lemma fence_gauges cause m x σ :
  ms_active m = true →
  tracks (ms_name m) (fence cause m) (fun m' x' _ => m' = with_fenced (Some cause) (reset_mount m) ∧ x' = (x.1 - 1, Some 0)) x σ.
Proof.
  intros Ha. unfold fence. rewrite Ha. destruct x as [g h].
  repeat track_step; unfold update_gauges; cbn; rewrite bool_decide_eq_true_2, ?Z.add_0_r by done; (split; [done|f_equal; lia]).
Qed.

(** An unmount that goes through, or gives the volume up, takes the volume out
    of the gauges; one that leaves the mount as it is leaves the gauge of the
    lease in order. *)
Definition unmount_gauges (m : mountState) (x : gauges) (r : mountState * option error) (x' : gauges) (σ : ledger) : Prop :=
  (r.1 = m ∧ x'.1 = x.1 ∧ held_shown x'.2 σ) ∨ (r.1 = reset_mount m ∧ x'.1 = x.1 - 1 ∧ x'.2 ≠ Some 1).

Lemma abandonUnmounted_gauges cause m x σ :
  tracks (ms_name m) (abandonUnmounted cause m) (unmount_gauges m x) x σ.
Proof.
  unfold abandonUnmounted. destruct x as [g h].
  repeat track_step; right; unfold update_gauges; cbn; rewrite bool_decide_eq_true_2 by done; (split_and!; [done|lia|done]).
Qed.

(** The gauge of the lease is down before the device is closed. *)
Lemma close_unmounted_gauges m x σ :
  ms_device m ≠ None → x.2 ≠ Some 1 → g_syncer σ = None → tracks (ms_name m) (close_unmounted m) (unmount_gauges m x) x σ.
Proof.
  intros Hd Hx Hs. unfold close_unmounted. destruct (ms_device m) as [d|]; [|done]. destruct x as [g h], σ as [j l b z dv f s xx]. cbn in Hs, Hx. subst s.
  assert (∀ σ, g_syncer σ = None → held_shown h σ) as Hh.
  { intros σ Hσ. unfold held_shown. rewrite Hσ. split; [split; [done|by intros [? ?]]|by intros [? ?]]. }
  repeat track_step; unfold unmount_gauges, update_gauges; cbn; first [left; split_and!; [done..|by apply Hh]|right; split_and!; [done|lia|done]].
Qed.

Lemma unmountLast_gauges m x σ :
  serving m → covered m σ → held_shown x.2 σ → tracks (ms_name m) (unmountLast m) (unmount_gauges m x) x σ.
Proof.
  intros (Ha & Hf & [dev Hdev] & [u Hu] & Hsy) Hcov Hh. pose proof Hcov as (_ & _ & _ & _ & _ & _ & Hs). unfold unmountLast. rewrite Hu.
  destruct σ as [j l b z d f s xx]. cbn [g_syncer] in Hs.
  apply tracks_bind. cbn [tracks do event_gauges metric_of after]. intros [e|]; cbn [or_exit tracks]; [by left|].
  destruct (ms_syncer m) as [sy|] eqn:Hsyn.
  - destruct Hsy as [_ [be Hbe]]. apply tracks_bind. cbn [tracks do event_gauges metric_of after]. intros [e|]; cbn [or_exit]; [apply abandonUnmounted_gauges|].
    rewrite Hbe. apply tracks_bind. cbn [tracks do event_gauges metric_of after]. intros _. apply tracks_bind. cbn [tracks do event_gauges metric_of after].
    intros [e|]; cbn [or_exit]; [apply abandonUnmounted_gauges|]. rewrite (within_closed sy s Hs).
    do 2 (apply tracks_bind; cbn [tracks do event_gauges metric_of after]; intros _).
    eapply tracks_mono; [|apply close_unmounted_gauges; [by rewrite Hdev| |done]].
    + intros r x' σ'. unfold unmount_gauges, update_gauges. cbn. by rewrite !Z.add_0_r.
    + unfold update_gauges. cbn. by rewrite bool_decide_eq_true_2.
  - apply within_None in Hs. subst s. apply close_unmounted_gauges; [by rewrite Hdev| |done]. intros Hx. apply Hh in Hx as [? ?]. done.
Qed.
End operations.

(** ** Runs *)

Section runs.
Context (cfg : Config) (opts : VolumeOptions).

Definition active_count (m : mountState) : Z := if ms_active m then 1 else 0.

(** After a request the gauge of the lease is in order, or can be told from the
    mount: nothing is mounted, or a new mount was made. *)
Definition is_mount (op : mount_op) : bool := match op with OpMount _ => true | _ => false end.

Definition body_gauges (op : mount_op) (m : mountState) (r : mountState * response) (x : gauges) (σ : ledger) : Prop :=
  ms_name r.1 = ms_name m ∧ x.1 = active_count r.1 ∧
  (held_shown x.2 σ ∨ ((x.2 = Some 1 ↔ ms_active r.1 = true ∧ is_Some (ms_syncer r.1)) ∧ (ms_active r.1 = true → ms_active m = false ∧ is_mount op = true))).

Lemma unmount_body_gauges dropped op m x σ :
  mount_inv opts dropped m σ → ms_active m = true → x.1 = active_count m → held_shown x.2 σ →
  tracks (ms_name m) (unmountLast m) (fun r => body_gauges op m (r.1, Finished r.2)) x σ.
Proof.
  intros Hinv Ha Hx Hh. destruct (mount_inv_serving _ _ _ _ Hinv Ha) as (Hse & Hcov & _).
  eapply tracks_mono; [|by apply unmountLast_gauges]. intros [m' e] x' σ' Ho. unfold body_gauges.
  unfold active_count in *. rewrite Ha in Hx. destruct Ho as [(-> & Hx1 & Hh')|(-> & Hx1 & Hx2)]; cbn [fst] in *.
  - rewrite Ha, Hx1. by auto.
  - split; [done|]. split; [cbn; lia|]. right. cbn. by split; [split; [|by intros [? _]]|].
Qed.

(** Deleting a volume changes no gauge. *)
Lemma remove_volume_gauges name volume mounts x l y :
  tracks name (remove_volume opts volume mounts) (fun _ x' σ' => x' = x ∧ ∃ y', σ' = at_rest l y') x (at_rest l y).
Proof.
  assert (∀ names y (p : prog (option error)), (∀ y', tracks name p (fun _ x' σ' => x' = x ∧ ∃ y', σ' = at_rest l y') x (at_rest l y')) →
    tracks name (_ ← cleanup_mounts names; p) (fun _ x' σ' => x' = x ∧ ∃ y', σ' = at_rest l y') x (at_rest l y)) as Hclean.
  { induction names as [|n names IH]; intros z p Hp; [apply Hp|]. intros ? ?. by apply IH. }
  unfold remove_volume. apply tracks_bind. apply (tracks_mono _ _ (fun _ x' σ' => x' = x ∧ σ' = at_rest l y)).
  2: { by destruct (PerReplica opts). }
  intros r x' σ' [-> ->]. destruct (match r with Some e => _ | None => None end); [cbn; by eauto|]. apply Hclean.
  intros y' ?. cbn. by eauto.
Qed.

Lemma mount_body_gauges dropped op m x σ :
  mount_inv opts dropped m σ → x.1 = active_count m → held_shown x.2 σ →
  tracks (ms_name m) (mount_body cfg opts op m) (body_gauges op m) x σ.
Proof.
  intros Hinv Hx Hh. destruct op as [id|id|cause| |volume]; cbn [mount_body].
  - unfold Mount. destruct (ms_fenced m) eqn:Hf; [by split_and!; auto|]. destruct (ms_active m) eqn:Ha; [by split_and!; auto|].
    destruct (mount_inv_idle _ _ _ _ Hinv Ha) as ([_ Hr] & l & xx & -> & _). assert (ms_syncer m = None) as Hs by (by rewrite <-Hr).
    assert (x.2 ≠ Some 1) as Hne by (intros He; apply Hh in He as [? ?]; done). unfold active_count in Hx. rewrite Ha in Hx.
    apply tracks_bind. eapply tracks_mono; [|by apply mountFresh_gauges]. intros [m' [e|]] [g h] σ' (Hg & Hn & Ho); cbn [fst snd] in *; cbn.
    + destruct Ho as [Ha' ->]. unfold body_gauges, active_count. cbn. rewrite Ha', Hg. split_and!; [done..|]. right. split; [|done]. by split; [|intros [? _]].
    + intros _. unfold body_gauges, active_count, event_gauges, update_gauges. cbn. destruct Ho as [Ha' Ho]. rewrite Ha'. split_and!; [done|lia|].
      right. split; [|done]. destruct Ho as [[-> Hsy]|[-> ->]]; [by split|]. by split; [|intros [_ [? ?]]].
  - unfold Unmount. set (op := OpUnmount id). apply (mount_inv_ids _ _ (ms_mountIDs m ∖ {[id]})) in Hinv. set (m1 := with_ids _ m) in *. cbn zeta.
    change (ms_name m) with (ms_name m1). change (body_gauges op m) with (body_gauges op m1). change (active_count m) with (active_count m1) in Hx.
    destruct (ms_fenced m1) eqn:Hf; [case_bool_decide; by split_and!; auto|].
    destruct (ms_active m1) eqn:Ha; cbn [negb orb]; [|by split_and!; auto]. destruct (negb _); [by split_and!; auto|].
    apply tracks_bind. eapply tracks_mono; [|by eapply unmount_body_gauges]. by intros [? ?].
  - apply tracks_bind. destruct (ms_active m) eqn:Ha; [|unfold fence; rewrite Ha; by split_and!; auto].
    eapply tracks_mono; [|by apply fence_gauges]. intros m' x' σ' [-> ->]. unfold body_gauges, active_count in *. rewrite Ha in Hx. cbn.
    split_and!; [done|lia|]. right. split; [|done]. by split; [|intros [? _]].
  - unfold Shutdown. destruct (ms_active m) eqn:Ha; [|by split_and!; auto].
    apply tracks_bind. eapply tracks_mono; [|by eapply unmount_body_gauges]. by intros [? ?].
  - unfold remove_mount. destruct (ms_active m) eqn:Ha; [by split_and!; auto|].
    destruct (mount_inv_idle _ _ _ _ Hinv Ha) as (_ & l & y & -> & _). apply tracks_bind. eapply tracks_mono; [|apply remove_volume_gauges].
    intros r x' σ' [-> [y' ->]]. split_and!; [done|done|]. by left.
Qed.

(** The ledger of a mount that was just made. *)
Lemma exactly_held m x held : serving m → (held = Some 1 ↔ is_Some (ms_syncer m)) → held_shown held (exactly m x).
Proof. intros (_ & _ & _ & _ & Hsy) Hh. split; [exact Hh|]. cbn. intros [s Hs]. rewrite Hs in Hsy. by destruct Hsy. Qed.

Lemma at_rest_held l x held : held ≠ Some 1 → held_shown held (at_rest l x).
Proof. intros Hh. split; [split; [done|]|]; by intros [? ?]. Qed.

Lemma runs_gauges name x ops tr m σ :
  runs cfg opts (new_mount name) (at_rest None x) ops tr m σ →
  ms_name m = name ∧ MountedVolumes (metrics_of tr) = active_count m ∧ held_shown (LeaseHeld name (metrics_of tr)) σ.
Proof.
  intros Hr. induction Hr as [|ops tr m σ op tr' m' resp σ' Hr IH He]; [split_and!; [done..|by apply at_rest_held]|].
  destruct IH as (Hn & Hx & Hh). assert (mount_inv opts (existsb is_fence ops) m σ) as Hinv by (eapply run_inv; by eexists _, _).
  assert (mount_inv opts (existsb is_fence (ops ++ [op])) m' σ') as Hinv'.
  { eapply run_inv. eexists _, _. by eapply run_op. }
  pose proof (mount_body_gauges _ op m (shown name (metrics_of tr)) σ Hinv Hx Hh) as Ht. rewrite Hn in Ht.
  pose proof (tracks_exec _ _ _ _ _ _ _ _ Ht He) as (Hn' & Hx' & Ho). cbn [fst snd] in *. unfold metrics_of in *. rewrite <-omap_app in *.
  split; [by rewrite Hn'|]. split; [done|]. destruct Ho as [Ho|[Ho Hnew]]; [done|]. destruct (ms_active m') eqn:Ha'.
  - destruct (Hnew eq_refl) as [Ha Hop]. destruct op as [id| | | |]; try done.
    assert (exact m σ) as Hex by (intros Ha1; congruence).
    destruct (wp_exec anything (fun _ => True) _ _ σ tr' _ σ' (Mount_granted _ _ _ _ _ id m σ Hinv (fits_anything _ _ _) Hex) He) as [Hex' _]; [by apply Forall_true|].
    destruct (Hex' Ha') as [xx ->]. destruct (mount_inv_serving _ _ _ _ Hinv' Ha') as [Hse _]. apply exactly_held; [done|].
    cbn in Ho. rewrite Ho. by split; [intros [_ ?]|].
  - destruct (mount_inv_idle _ _ _ _ Hinv' Ha') as (_ & l & xx & -> & _). apply at_rest_held. intros Hs. apply Ho in Hs as [? _]. done.
Qed.
End runs.

(** ** The labels of a mount *)

(** An update that, if it is labelled with a volume, is labelled with [name]. *)
Definition own (name : string) (u : metric_update) : Prop :=
  match u with
  | UnpublishedBytes_Set v _ | UnpublishedBytes_Delete v | LeaseHeld_Set v _ | LeaseFenced_Inc v | BackpressureEvents_Inc v => v = name
  | _ => True
  end.

Fixpoint labels {R} (name : string) (p : prog R) : Prop :=
  match p with
  | Ret _ => True
  | Do c rest => match c with Metric u => own name u | _ => True end ∧ ∀ a, labels name (rest a)
  end.

Lemma labels_bind {A R} name (p : prog A) (f : A → prog R) : labels name p → (∀ a, labels name (f a)) → labels name (p ≫= f).
Proof. intros Hp Hf. induction p as [a|B c rest IH]; cbn in *; [apply Hf|]. destruct Hp as [Hc Hp]. split; [done|]. intros b. by apply IH. Qed.

Lemma labels_exec {R} name (p : prog R) σ tr r σ' : labels name p → exec p σ tr r σ' → Forall (own name) (metrics_of tr).
Proof.
  intros Hp He. revert Hp. induction He as [|A c rest σ a tr r σ' _ He IH]; [done|]. intros [Hc Hp]. specialize (IH (Hp a)).
  unfold metrics_of. cbn [omap list_omap]. destruct (metric_of (Ev c a)) as [u|] eqn:Hu; [|done]. constructor; [|done].
  destruct c; cbn in Hu; try done. by injection Hu as <-.
Qed.

Ltac labels_step := first
  [ apply labels_bind
  | progress cbn [labels do or_fail or_exit ignore when_some own]
  | progress cbv zeta
  | progress intros ?
  | split
  | match goal with
    | |- labels _ (or_fail _ ?r _) => destruct r
    | |- labels _ (or_exit _ ?r _) => destruct r
    | |- labels _ (when_some ?x _) => destruct x
    | |- labels _ (ignore _) => unfold ignore
    | |- labels _ (match ?x with _ => _ end) => destruct x eqn:?
    end
  | done ].

Lemma mount_body_labels cfg opts op m : labels (ms_name m) (mount_body cfg opts op m).
Proof.
  destruct op as [id|id|cause| |volume]; cbn [mount_body].
  - unfold Mount, mountFresh, mountReadOnly, recover_journal, prepare_image, open_device, publish_initial, start_syncer, cleanupMounted, releaseOnFailure.
    repeat labels_step.
  - unfold Unmount, unmountLast, close_unmounted, abandonUnmounted. repeat labels_step.
  - unfold fence. repeat labels_step.
  - unfold Shutdown, unmountLast, close_unmounted, abandonUnmounted. repeat labels_step.
  - unfold remove_mount, remove_volume. cbn [app cleanup_mounts]. repeat labels_step.
Qed.

Lemma runs_labels cfg opts name x ops tr m σ :
  runs cfg opts (new_mount name) (at_rest None x) ops tr m σ → Forall (own name) (metrics_of tr).
Proof.
  intros Hr. induction Hr as [|ops tr m σ op tr' m' resp σ' Hr IH He]; [done|]. destruct (runs_gauges _ _ _ _ _ _ _ _ Hr) as [<- _].
  unfold metrics_of. rewrite omap_app. apply Forall_app. split; [done|]. eapply labels_exec; [apply mount_body_labels|done].
Qed.

(** ** A node *)

(** The calls of all mounts, each with the name of the mount it was made for, and
    those of one mount. *)
Definition of_mount (name : string) (tr : list (string * call_answer)) : list call_answer := (filter (fun e => e.1 = name) tr).*2.
Definition others (name : string) (tr : list (string * call_answer)) : list (string * call_answer) := filter (fun e => e.1 ≠ name) tr.

Lemma of_mount_others name name' tr : name ≠ name' → of_mount name (others name' tr) = of_mount name tr.
Proof.
  intros Hne. unfold of_mount, others. rewrite list_filter_filter. f_equal. apply list_filter_iff. intros [n ev]. cbn. naive_solver.
Qed.

Section totals.
Context (f : metric_update → Z).
Implicit Types tr : list (string * call_answer).

Definition trace_total (tr : list call_answer) : Z := metric_total f (metrics_of tr).

Lemma trace_total_cons ev (tr : list call_answer) : trace_total (ev :: tr) = match metric_of ev with Some u => f u | None => 0 end + trace_total tr.
Proof. unfold trace_total, metrics_of. cbn [omap list_omap]. by destruct (metric_of ev). Qed.

Lemma trace_total_split name tr : trace_total tr.*2 = trace_total (of_mount name tr) + trace_total (others name tr).*2.
Proof.
  unfold of_mount, others. induction tr as [|[n ev] tr IH]; [done|]. rewrite !filter_cons. cbn [fst]. rewrite fmap_cons, trace_total_cons, IH.
  destruct (decide (n = name)), (decide (n ≠ name)); try done; rewrite fmap_cons, trace_total_cons; cbn [snd]; lia.
Qed.

Lemma trace_total_mounts names tr :
  NoDup names → (∀ e, e ∈ tr → e.1 ∈ names) →
  trace_total tr.*2 = foldr (fun name acc => trace_total (of_mount name tr) + acc) 0 names.
Proof.
  revert tr. induction names as [|name names IH]; intros tr Hnd Hin; cbn [foldr].
  - destruct tr as [|e tr]; [done|]. specialize (Hin e). set_solver.
  - apply NoDup_cons in Hnd as [Hni Hnd]. rewrite (trace_total_split name tr). f_equal. rewrite IH; [|done|].
    + clear IH Hin Hnd. induction names as [|n names IH]; [done|]. cbn [foldr]. rewrite of_mount_others by set_solver. rewrite IH by set_solver. done.
    + intros e [Hne He]%list_elem_of_filter. apply Hin in He. set_solver.
Qed.
End totals.

Lemma LeaseHeld_others name tr :
  (∀ e u, e ∈ tr → metric_of e.2 = Some u → own e.1 u) → LeaseHeld name (metrics_of tr.*2) = LeaseHeld name (metrics_of (of_mount name tr)).
Proof.
  unfold LeaseHeld, last_set, of_mount. generalize (None : option Z). induction tr as [|[n ev] tr IH]; intros held Hown; [done|].
  rewrite filter_cons. cbn [fst fmap list_fmap snd]. unfold metrics_of in *. cbn [omap list_omap].
  assert (∀ e u, e ∈ tr → metric_of e.2 = Some u → own e.1 u) as Hown' by (intros e u He; apply Hown; set_solver).
  destruct (decide (n = name)) as [->|Hne]; cbn [fmap list_fmap snd omap list_omap].
  - destruct (metric_of ev); cbn [foldl]; by apply IH.
  - destruct (metric_of ev) as [u|] eqn:Hu; cbn [foldl]; [|by apply IH]. rewrite IH by done. f_equal.
    pose proof (Hown (n, ev) u) as Ho. cbn in Ho. destruct u; try done. rewrite bool_decide_eq_false_2; [done|]. rewrite Ho; [done|set_solver|done].
Qed.

Section node.
Context (cfg : Config) (opts : string → VolumeOptions).

(** C39: the gauges tell the truth.  Take a node with any number of mounts, each
    with its own name, that have seen any requests and fences, with their calls
    answered in any way and interleaved in any way, at a moment at which no
    request is being worked on.  Then the number of mounted volumes that the
    metrics show is the number of mounts that are active; and for every mount the
    gauge of its lease shows 1 exactly while the syncer of the mount is running,
    in which case the lease is held. *)
Theorem gauges_tell_truth (node : gmap string (mountState * ledger)) (tr : list (string * call_answer)) :
  (∀ name m σ, node !! name = Some (m, σ) → ms_name m = name ∧ ∃ ops, run cfg (opts name) ops (of_mount name tr) m σ) →
  (∀ e, e ∈ tr → is_Some (node !! e.1)) →
  MountedVolumes (metrics_of tr.*2) = Z.of_nat (length (filter (fun p => ms_active p.2.1 = true) (map_to_list node))) ∧
  ∀ name m σ, node !! name = Some (m, σ) →
    (LeaseHeld name (metrics_of tr.*2) = Some 1 ↔ is_Some (g_syncer σ)) ∧ (is_Some (g_syncer σ) → is_Some (g_lease σ)).
Proof.
  intros Hruns Htr.
  assert (∀ name m σ, node !! name = Some (m, σ) → MountedVolumes (metrics_of (of_mount name tr)) = active_count m ∧
    held_shown (LeaseHeld name (metrics_of (of_mount name tr))) σ ∧ Forall (own name) (metrics_of (of_mount name tr))) as Hmount.
  { intros name m σ Hm. destruct (Hruns _ _ _ Hm) as (Hn & ops & name' & x & Hr). pose proof (runs_gauges _ _ _ _ _ _ _ _ Hr) as (Hn' & Hx & Hh).
    assert (name' = name) as -> by congruence. split_and!; [done..|]. by eapply runs_labels. }
  split.
  - change (MountedVolumes (metrics_of tr.*2)) with (trace_total (fun u => match u with MountedVolumes_Inc => 1 | MountedVolumes_Dec => -1 | _ => 0 end) tr.*2).
    rewrite (trace_total_mounts _ (map_to_list node).*1); [|apply NoDup_fst_map_to_list|].
    + assert (∀ name p, (name, p) ∈ map_to_list node → node !! name = Some p) as Hin by (intros ? ?; apply elem_of_map_to_list).
      revert Hin. generalize (map_to_list node). intros l. induction l as [|[name [m σ]] l IH]; intros Hin; [done|].
      cbn [fmap list_fmap fst foldr]. rewrite filter_cons. cbn [fst snd]. rewrite IH by (intros n p Hp; apply Hin; set_solver).
      destruct (Hmount name m σ) as (Hx & _); [apply Hin; set_solver|]. unfold trace_total. fold (MountedVolumes (metrics_of (of_mount name tr))).
      rewrite Hx. unfold active_count. destruct (ms_active m); cbn [decide]; [rewrite decide_True by done; cbn [length]; lia|by rewrite decide_False].
    + intros e He. destruct (Htr _ He) as [p Hp]. apply list_elem_of_fmap. exists (e.1, p). split; [done|]. by apply elem_of_map_to_list.
  - intros name m σ Hm. rewrite LeaseHeld_others; [by destruct (Hmount _ _ _ Hm) as (_ & Hh & _)|]. intros [n ev] u He Hu. destruct (Htr _ He) as [[m' σ'] Hp]. cbn [fst snd] in *.
    destruct (Hmount _ _ _ Hp) as (_ & _ & Hown). rewrite Forall_forall in Hown. apply Hown. apply list_elem_of_omap. exists ev. split; [|done].
    apply list_elem_of_fmap. exists (n, ev). split; [done|]. apply list_elem_of_filter. done.
Qed.
End node.

(** ** Witness *)

(** Two mounts: one volume is mounted, the other was mounted and unmounted. *)
Definition named_run (name : string) (ops : list mount_op) : mountState * ledger * list call_answer * nat :=
  simulate_ops sample_config default_options working 0 ops (new_mount name) (at_rest None false).

Lemma named_run_run name ops :
  run sample_config default_options ops (run_trace (named_run name ops)) (run_mount (named_run name ops)) (run_ledger (named_run name ops)).
Proof.
  destruct (named_run name ops) as [[[m σ] tr] n] eqn:Hs. exists name, false. by apply (simulate_ops_runs _ _ working 0 ops _ _ m σ tr n working_lawful).
Qed.

Definition run_a := named_run "a" [OpMount "x"].
Definition run_b := named_run "b" [OpMount "y"; OpUnmount "y"].
Definition two_mounts : gmap string (mountState * ledger) :=
  <["a"%string := (run_mount run_a, run_ledger run_a)]> {["b"%string := (run_mount run_b, run_ledger run_b)]}.
(** The mount of [a] comes while [b] is being mounted. *)
Definition two_trace : list (string * call_answer) :=
  (pair "b"%string <$> take 5 (run_trace run_b)) ++ (pair "a"%string <$> run_trace run_a) ++ (pair "b"%string <$> drop 5 (run_trace run_b)).

Lemma of_mount_app name tr1 tr2 : of_mount name (tr1 ++ tr2) = of_mount name tr1 ++ of_mount name tr2.
Proof. unfold of_mount. by rewrite filter_app, fmap_app. Qed.

Lemma of_mount_own name (tr : list call_answer) : of_mount name (pair name <$> tr) = tr.
Proof. unfold of_mount. induction tr as [|ev tr IH]; [done|]. rewrite fmap_cons, filter_cons_True by done. cbn. by rewrite IH. Qed.

Lemma of_mount_other name name' (tr : list call_answer) : name ≠ name' → of_mount name (pair name' <$> tr) = [].
Proof. intros Hne. unfold of_mount. induction tr as [|ev tr IH]; [done|]. by rewrite fmap_cons, filter_cons_False by (cbn; congruence). Qed.

Lemma two_mounts_forall (P : string → mountState → ledger → Prop) p q :
  P "a"%string p.1 p.2 → P "b"%string q.1 q.2 → ∀ name m σ, (<["a"%string := p]> {["b"%string := q]} : gmap _ _) !! name = Some (m, σ) → P name m σ.
Proof. intros Hp Hq name m σ [[<- ->]|[_ [<- ->]%lookup_singleton_Some]]%lookup_insert_Some; done. Qed.

Lemma gauges_tell_truth_witness :
  MountedVolumes (metrics_of two_trace.*2) = 1 ∧ is_Some (g_syncer (run_ledger run_a)) ∧ LeaseHeld "a" (metrics_of two_trace.*2) = Some 1.
Proof.
  destruct (gauges_tell_truth sample_config (fun _ => default_options) two_mounts two_trace) as [Hm Hh].
  - apply (two_mounts_forall (fun name m σ => ms_name m = name ∧ ∃ ops, run sample_config default_options ops (of_mount name two_trace) m σ));
      (split; [vm_compute; reflexivity|]); eexists; unfold two_trace; rewrite !of_mount_app.
    + rewrite of_mount_own, !of_mount_other, app_nil_r by done. apply named_run_run.
    + rewrite !of_mount_own, of_mount_other by done. cbn [app]. rewrite take_drop. apply named_run_run.
  - intros e He. unfold two_trace in He. rewrite !elem_of_app, !list_elem_of_fmap in He.
    destruct He as [(ev & -> & _)|[(ev & -> & _)|(ev & -> & _)]]; eexists; vm_compute; reflexivity.
  - split; [|split].
    + rewrite Hm. vm_compute. reflexivity.
    + eexists. vm_compute. reflexivity.
    + apply (Hh "a"%string (run_mount run_a) (run_ledger run_a)); [vm_compute; reflexivity|]. eexists. vm_compute. reflexivity.
Defined.

(** ** Behaviour a reader may not expect *)

(** Everything works but mounting the filesystem, or the sync at the end. *)
Definition mount_fails : environment := fun A c σ n =>
  match c in call A return A → A with BackendMount _ _ _ _ => fun _ => Err ErrIO | _ => fun a => a end (working A c σ n).
Definition sync_fails : environment := fun A c σ n =>
  match c in call A return A → A with SyncCheckpoint _ => fun _ => Some ErrIO | _ => fun a => a end (working A c σ n).

Lemma mount_fails_lawful : lawful mount_fails.
Proof. intros A [] σ n; cbn; try done. by destruct (g_data σ) eqn:Hd; cbn. Qed.
Lemma sync_fails_lawful : lawful sync_fails.
Proof. intros A [] σ n; cbn; try done. by destruct (g_data σ) eqn:Hd; cbn. Qed.

(** The counter of failed mounts is not the number of mounts that failed: a
    mount whose filesystem cannot be mounted is refused and counted under no
    reason, and an unmount whose final sync fails counts as a failed mount. *)
Theorem mount_failures_miscounted :
  (∃ tr m σ, exec (mount_body sample_config default_options (OpMount "a") (new_mount "vol")) (at_rest None false) tr (m, Finished (Some ErrIO)) σ ∧
     ∀ reason, MountFailures reason (metrics_of tr) = 0) ∧
  (∃ tr m σ, run sample_config default_options [OpMount "a"; OpUnmount "a"]%string tr m σ ∧ RestoreDuration (metrics_of tr) = 1 ∧
     MountFailures "final_sync" (metrics_of tr) = 1).
Proof.
  split.
  - pose proof (sample_next_exec mount_fails [] (OpMount "a"%string) mount_fails_lawful) as He. cbn zeta in He.
    set (y := sample_next mount_fails [] (OpMount "a"%string)) in He. replace (y.1.1.1.2) with (Finished (Some ErrIO)) in He by (vm_compute; reflexivity).
    exists y.1.2, y.1.1.1.1, y.1.1.2. split; [exact He|]. intros reason. replace (metrics_of y.1.2) with [RestoreDuration_Observe] by (vm_compute; reflexivity).
    unfold MountFailures, metric_count. cbn. by rewrite bool_decide_eq_false_2.
  - exists (run_trace (sample_run sync_fails [OpMount "a"; OpUnmount "a"]%string)), (run_mount (sample_run sync_fails [OpMount "a"; OpUnmount "a"]%string)),
      (run_ledger (sample_run sync_fails [OpMount "a"; OpUnmount "a"]%string)).
    split; [apply sample_run_run, sync_fails_lawful|]. split; vm_compute; reflexivity.
Qed.
