(* ===== verification/Seed.v ===== *)
(** * Seeding a volume ([internal/seed/seed.go])

    The import of an archive or a directory into a new volume, over a file
    system with symbolic links: what a path leads to is found out the way the
    kernel does it. *)
From S2P Require Import Prelude Extents Codec Options.
Local Open Scope Z_scope.

(** ** The file system *)

Notation path := (list string).

Inductive kind : Type := Dir | Reg (data : bytes) | Link (target : string).

Record node : Type := mkNode { n_kind : kind; n_perm : Z; n_owner : Z * Z; n_times : Z * Z }.

(** Absolute paths; the root directory is always there. *)
Notation FS := (gmap path node).

Definition slash : Ascii.ascii := Ascii.ascii_of_nat 47.

(** [strings.Split(s, "/")] *)
Fixpoint split_slash (s : string) : list string :=
  match s with
  | EmptyString => [EmptyString]
  | String c t =>
      if Ascii.eqb c slash then EmptyString :: split_slash t
      else match split_slash t with
           | [] => [String c EmptyString]
           | x :: rest => String c x :: rest
           end
  end.

Definition is_rooted (s : string) : bool := match s with String c _ => Ascii.eqb c slash | EmptyString => false end.

Definition fs_err (msg : string) : error := Errorf msg.

(** The kernel's walk from the directory [cur] along [todo]; [follow] says
    whether a link at the end is followed.  [fuel] bounds the steps, as the
    kernel bounds the links it follows. *)
Fixpoint kernel_walk (fuel : nat) (follow : bool) (fs : FS) (cur todo : path) : result path :=
  match fuel with
  | O => Err (fs_err "too many levels of symbolic links")
  | S fuel =>
      match todo with
      | [] => Ok cur
      | c :: rest =>
          if streq c "" || streq c "." then kernel_walk fuel follow fs cur rest else
          if streq c ".." then kernel_walk fuel follow fs (take (length cur - 1) cur) rest else
          let p := cur ++ [c] in
          match n_kind <$> fs !! p with
          | Some (Link target) =>
              if bool_decide (rest = []) && negb follow then Ok p
              else kernel_walk fuel follow fs (if is_rooted target then [] else cur) (split_slash target ++ rest)
          | Some Dir => kernel_walk fuel follow fs p rest
          | Some (Reg _) => if bool_decide (rest = []) then Ok p else Err (fs_err "not a directory")
          | None => if bool_decide (rest = []) then Ok p else Err ErrNotExist
          end
      end
  end.

Section calls.
Context (fuel : nat).

Definition lookup_node (follow : bool) (fs : FS) (p : path) : result (path * node) :=
  q ← kernel_walk fuel follow fs [] p;
  match fs !! q with
  | Some n => Ok (q, n)
  | None => if bool_decide (q = []) then Ok (q, mkNode Dir 493 (0, 0) (0, 0)) else Err ErrNotExist
  end.

Definition Lstat (fs : FS) (p : path) : result node := snd <$> lookup_node false fs p.
Definition Stat (fs : FS) (p : path) : result node := snd <$> lookup_node true fs p.

Definition isDir (n : node) : bool := match n_kind n with Dir => true | _ => false end.
Definition isRegular (n : node) : bool := match n_kind n with Reg _ => true | _ => false end.

(** A new node at [p], whose parent must be there. *)
Definition create_node (fs : FS) (p : path) (k : kind) (perm : Z) : FS * option error :=
  match kernel_walk fuel false fs [] p with
  | Err e => (fs, Some e)
  | Ok q =>
      if bool_decide (q = []) || bool_decide (is_Some (fs !! q)) then (fs, Some (fs_err "file exists"))
      else (<[q := mkNode k perm (0, 0) (0, 0)]> fs, None)
  end.

Definition Mkdir (fs : FS) (p : path) (perm : Z) : FS * option error := create_node fs p Dir perm.
Definition Symlink (fs : FS) (target : string) (p : path) : FS * option error := create_node fs p (Link target) 511.

(** [os.MkdirAll], from the last component to the first. *)
Fixpoint MkdirAll_rev (fs : FS) (rev_p : path) (perm : Z) : FS * option error :=
  let p := reverse rev_p in
  match Stat fs p with
  | Ok n => (fs, if isDir n then None else Some (fs_err "not a directory"))
  | Err _ =>
      match rev_p with
      | [] => (fs, Some (fs_err "not a directory"))
      | _ :: parent =>
          match MkdirAll_rev fs parent perm with
          | (fs, Some e) => (fs, Some e)
          | (fs, None) =>
              match Mkdir fs p perm with
              | (fs, None) => (fs, None)
              | (fs, Some e) => (fs, match Lstat fs p with Ok n => if isDir n then None else Some e | Err _ => Some e end)
              end
          end
      end
  end.
Definition MkdirAll (fs : FS) (p : path) (perm : Z) : FS * option error := MkdirAll_rev fs (reverse p) perm.

(** [os.OpenFile] with [O_CREATE|O_WRONLY|O_TRUNC|O_NOFOLLOW], then [data] written. *)
Definition open_and_write (fs : FS) (p : path) (perm : Z) (data : bytes) : FS * option error :=
  match kernel_walk fuel false fs [] p with
  | Err e => (fs, Some e)
  | Ok q =>
      if bool_decide (q = []) then (fs, Some (fs_err "is a directory")) else
      match fs !! q with
      | None => (<[q := mkNode (Reg data) perm (0, 0) (0, 0)]> fs, None)
      | Some (mkNode (Reg _) perm owner times) => (<[q := mkNode (Reg data) perm owner times]> fs, None)
      | Some (mkNode Dir _ _ _) => (fs, Some (fs_err "is a directory"))
      | Some (mkNode (Link _) _ _ _) => (fs, Some (fs_err "too many levels of symbolic links"))
      end
  end.

(** [os.Chown] and [os.Chtimes] follow links. *)
Definition change_node (fs : FS) (p : path) (f : node → node) : FS :=
  match lookup_node true fs p with
  | Ok (q, n) => if bool_decide (q = []) then fs else <[q := f n]> fs
  | Err _ => fs
  end.

(** ** Paths *)

(** [filepath.Clean]: whether the path is rooted, and its components. *)
Fixpoint clean_parts (rooted : bool) (out parts : path) : path :=
  match parts with
  | [] => out
  | c :: parts =>
      if streq c "" || streq c "." then clean_parts rooted out parts else
      if streq c ".." then
        match last out with
        | Some d => if streq d ".." then clean_parts rooted (out ++ [".."%string]) parts else clean_parts rooted (take (length out - 1) out) parts
        | None => if rooted then clean_parts rooted out parts else clean_parts rooted (out ++ [".."%string]) parts
        end
      else clean_parts rooted (out ++ [c]) parts
  end.
Definition Clean (s : string) : path := clean_parts (is_rooted s) [] (split_slash s).

Definition TrimPrefix_slash (s : string) : string := match s with String c t => if Ascii.eqb c slash then t else s | EmptyString => s end.

(** [safePath]; [Clean] is empty for ["."], ["/"] and [""]. *)
Definition safePath (root : path) (name : string) : result path :=
  let clean := Clean (TrimPrefix_slash name) in
  match clean with
  | [] => Ok root
  | c :: _ => if streq c ".." then Err (Errorf "path escapes archive root") else Ok (root ++ clean)
  end.

(** [ensureSafeParents]: the loop over the components of [rel] below [current]. *)
Fixpoint ensure_parents (fs : FS) (current rel : path) : FS * option error :=
  match rel with
  | [] => (fs, None)
  | part :: rel =>
      let current := current ++ [part] in
      match Lstat fs current with
      | Err e =>
          if errors_Is e ErrNotExist then
            match Mkdir fs current 493 with
            | (fs, Some e) => (fs, Some e)
            | (fs, None) => ensure_parents fs current rel
            end
          else (fs, Some e)
      | Ok n => if negb (isDir n) then (fs, Some (Errorf "archive parent is not a directory")) else ensure_parents fs current rel
      end
  end.
Definition ensureSafeParents (fs : FS) (root parent : path) : FS * option error := ensure_parents fs root (drop (length root) parent).

(** ** Files *)

(** [writeFile]: the bytes the reader gives, and the error it ends with. *)
Definition writeFile (fs : FS) (data : bytes) (copyErr : option error) (destination : path) (mode : Z) : FS * option error :=
  match Lstat fs destination with
  | Ok n => if isRegular n then let '(fs, e) := open_and_write fs destination mode data in (fs, match e with Some e => Some e | None => copyErr end)
            else (fs, Some (Errorf "refusing to write through: not a regular file"))
  | Err e =>
      if errors_Is e ErrNotExist then let '(fs, e) := open_and_write fs destination mode data in (fs, match e with Some e => Some e | None => copyErr end)
      else (fs, Some e)
  end.

Inductive typeflag : Type := TypeDir | TypeSymlink | TypeReg | TypeOther.
Record tarHeader : Type := mkHeader {
  t_Name : string; t_Typeflag : typeflag; t_Linkname : string; t_Mode : Z; t_Uid : Z; t_Gid : Z; t_AccessTime : Z; t_ModTime : Z;
}.

Definition applyMetadata (fs : FS) (target : path) (h : tarHeader) : FS :=
  let fs := change_node fs target (fun n => mkNode (n_kind n) (n_perm n) (t_Uid h, t_Gid h) (n_times n)) in
  change_node fs target (fun n => mkNode (n_kind n) (n_perm n) (n_owner n) (t_AccessTime h, t_ModTime h)).

(** [FileMode.Perm] *)
Definition Perm (mode : Z) : Z := Z.land mode 511.

(** What the reader of the archive gives next: an entry, with the content it can
    read, an error, or the context was cancelled. *)
Inductive next : Type := Entry (h : tarHeader) (data : bytes) (copyErr : option error) | NextFails (e : error) | Cancelled (e : error).

(** One entry below its parents. *)
Definition import_entry (fs : FS) (target : path) (h : tarHeader) (data : bytes) (copyErr : option error) : FS * option error :=
  match t_Typeflag h with
  | TypeDir => MkdirAll fs target (Perm (t_Mode h))
  | TypeSymlink => Symlink fs (t_Linkname h) target
  | TypeReg => writeFile fs data copyErr target (Perm (t_Mode h))
  | TypeOther => (fs, None)
  end.

(** The metadata of the directories, the last one first. *)
Fixpoint finish_directories (fs : FS) (root : path) (directories : list tarHeader) : FS :=
  match directories with
  | [] => fs
  | h :: directories =>
      finish_directories (match safePath root (t_Name h) with Ok target => applyMetadata fs target h | Err _ => fs end) root directories
  end.

(** The loop of [importArchive]; [directories] has the last one first. *)
Fixpoint import_entries (fs : FS) (root : path) (entries : list next) (count : Z) (directories : list tarHeader) : FS * Z * option error :=
  match entries with
  | [] => (finish_directories fs root directories, count, None)
  | (NextFails e | Cancelled e) :: _ => (fs, count, Some e)
  | Entry h data copyErr :: entries =>
      match safePath root (t_Name h) with
      | Err e => (fs, count, Some (Wrap "tar entry" e))
      | Ok target =>
          if bool_decide (target = root) then import_entries fs root entries count directories else
          match ensureSafeParents fs root (take (length target - 1) target) with
          | (fs, Some e) => (fs, count, Some (Wrap "tar entry" e))
          | (fs, None) =>
              if match t_Typeflag h with TypeOther => true | _ => false end then import_entries fs root entries count directories else
              match import_entry fs target h data copyErr with
              | (fs, Some e) => (fs, count, Some (Wrap "tar entry" e))
              | (fs, None) =>
                  match t_Typeflag h with
                  | TypeDir => import_entries fs root entries (count + 1) (h :: directories)
                  | TypeSymlink => import_entries fs root entries (count + 1) directories
                  | _ => import_entries (applyMetadata fs target h) root entries (count + 1) directories
                  end
              end
          end
      end
  end.

Definition importArchive (fs : FS) (root : path) (archive : result (list next)) : FS * Z * option error :=
  match archive with
  | Err e => (fs, 0, Some e)
  | Ok entries => import_entries fs root entries 0 []
  end.

(** ** Directories *)

(** What [filepath.WalkDir] visits: the path below the source, and the file. *)
Inductive walk_entry : Type :=
  | WalkFails (e : error)
  | WalkDirectory (rel : string) (perm : Z)
  | WalkLink (rel : string) (target : result string)
  | WalkFile (rel : string) (content : result (bytes * option error)) (perm : Z)
  | WalkOther (rel : string).

Definition copyFile (fs : FS) (content : result (bytes * option error)) (destination : path) (mode : Z) : FS * option error :=
  match content with
  | Err e => (fs, Some e)
  | Ok (data, copyErr) =>
      match MkdirAll fs (take (length destination - 1) destination) 493 with
      | (fs, Some e) => (fs, Some e)
      | (fs, None) => writeFile fs data copyErr destination mode
      end
  end.

Definition walked_rel (w : walk_entry) : string :=
  match w with WalkFails _ => "" | WalkDirectory rel _ | WalkLink rel _ | WalkFile rel _ _ | WalkOther rel => rel end.

Definition import_file (fs : FS) (target : path) (w : walk_entry) : FS * option error :=
  match w with
  | WalkFails e => (fs, Some e)
  | WalkDirectory _ perm => MkdirAll fs target perm
  | WalkLink _ (Err e) => (fs, Some e)
  | WalkLink _ (Ok link) => Symlink fs link target
  | WalkFile _ content perm => copyFile fs content target perm
  | WalkOther _ => (fs, None)
  end.

Fixpoint importDir (fs : FS) (root : path) (files : list walk_entry) (count : Z) : FS * Z * option error :=
  match files with
  | [] => (fs, count, None)
  | w :: files =>
      match w with
      | WalkFails e => (fs, count, Some e)
      | _ =>
          if streq (walked_rel w) "." then importDir fs root files count else
          match safePath root (walked_rel w) with
          | Err e => (fs, count, Some e)
          | Ok target =>
              match import_file fs target w with
              | (fs, Some e) => (fs, count, Some e)
              | (fs, None) => importDir fs root files (match w with WalkOther _ => count | _ => count + 1 end)
              end
          end
      end
  end.

(** ** Sources *)

(** A source outside: a directory, a file or an object, and how an archive is
    read. *)
Inductive source_kind : Type := SourceDir (files : list walk_entry) | SourceFile | SourceFails (e : error).

Definition is_compressed (name : string) : bool := HasSuffix name ".gz" || HasSuffix name ".tgz".

Definition Apply (inspect : string → source_kind) (parse : string → result (string * string)) (fetch : option (string → string → option error))
    (read : bool → string → result (list next)) (fs : FS) (root : path) (source : string) : FS * Z * option error :=
  if HasPrefix source "s3://" then
    match fetch with
    | None => (fs, 0, Some (Errorf "no S3 fetcher configured"))
    | Some fetch =>
        match parse source with
        | Err e => (fs, 0, Some e)
        | Ok (host, p) =>
            let key := TrimPrefix_slash p in
            match fetch host key with
            | Some e => (fs, 0, Some e)
            | None => importArchive fs root (read (is_compressed key) source)
            end
        end
    end
  else
    match inspect source with
    | SourceFails e => (fs, 0, Some e)
    | SourceDir files => importDir fs root files 0
    | SourceFile => importArchive fs root (read (is_compressed source) source)
    end.
End calls.
