(* ===== verification/SeedTheorems.v ===== *)
(** * Seeding: an archive stays inside the volume *)
From S2P Require Import Prelude Extents Codec Options Seed.
Local Open Scope Z_scope.

(** ** Names and directories *)

(** A component that is a name: not empty, not [.] and not [..]. *)
Definition name_ok (c : string) : Prop := c ≠ ""%string ∧ c ≠ "."%string ∧ c ≠ ".."%string.

Lemma name_ok_tests c : name_ok c → streq c "" || streq c "." = false ∧ streq c ".." = false.
Proof. intros (H1 & H2 & H3). by rewrite !streq_ne. Qed.

(** All of [p], up to [p] itself, are directories and no links. *)
Definition real_dir (fs : FS) (p : path) : Prop := ∀ k, (0 < k ≤ length p)%nat → n_kind <$> fs !! take k p = Some Dir.

Lemma real_dir_snoc fs p c : real_dir fs p → n_kind <$> fs !! (p ++ [c]) = Some Dir → real_dir fs (p ++ [c]).
Proof.
  intros Hp Hc k Hk. rewrite length_app in Hk. cbn [length] in Hk. destruct (decide (k ≤ length p)%nat).
  - rewrite take_app_le by lia. apply Hp. lia.
  - by rewrite take_ge by (rewrite length_app; cbn [length]; lia).
Qed.

Lemma real_dir_prefix fs p q : real_dir fs (p ++ q) → real_dir fs p.
Proof. intros Hp k Hk. rewrite <-(take_app_le p q) by lia. apply Hp. rewrite length_app. lia. Qed.

(** Along real directories the kernel goes where the path says. *)
Lemma resolve_lexical fuel follow fs cur todo c q :
  Forall name_ok (todo ++ [c]) →
  (∀ k, (0 < k ≤ length todo)%nat → n_kind <$> fs !! (cur ++ take k todo) = Some Dir) →
  (follow = true → ∀ t, n_kind <$> fs !! (cur ++ todo ++ [c]) ≠ Some (Link t)) →
  kernel_walk fuel follow fs cur (todo ++ [c]) = Ok q → q = cur ++ todo ++ [c].
Proof.
  revert fuel cur. induction todo as [|d todo IH]; intros fuel cur Hn Hd Hl Hr; (destruct fuel as [|fuel]; [done|]); cbn [app kernel_walk] in Hr.
  - apply Forall_singleton, name_ok_tests in Hn as [Hn1 Hn2]. rewrite Hn1, Hn2 in Hr. cbn [app] in *.
    destruct (n_kind <$> fs !! (cur ++ [c])) as [[|data|t]|] eqn:Hk; try (rewrite bool_decide_eq_true_2 in Hr by done).
    + destruct fuel; cbn [kernel_walk] in Hr; [done|]. congruence.
    + congruence.
    + destruct follow; [by destruct (Hl eq_refl t)|]. cbn [andb negb] in Hr. congruence.
    + congruence.
  - apply Forall_cons in Hn as [Hn Hns]. apply name_ok_tests in Hn as [Hn1 Hn2]. rewrite Hn1, Hn2 in Hr.
    pose proof (Hd 1%nat ltac:(cbn [length]; lia)) as Hd1. change (take 1 (d :: todo)) with [d] in Hd1. rewrite Hd1 in Hr.
    replace (cur ++ (d :: todo) ++ [c]) with ((cur ++ [d]) ++ todo ++ [c]) by (by rewrite <-app_assoc).
    apply (IH fuel (cur ++ [d])); [done| | |done].
    + intros k Hk. rewrite <-app_assoc. apply (Hd (S k)). cbn [length]. lia.
    + rewrite <-app_assoc. exact Hl.
Qed.

(** A path whose parent is a real directory. *)
Lemma resolve_real fuel follow fs p c q :
  Forall name_ok (p ++ [c]) → real_dir fs p → (follow = true → ∀ t, n_kind <$> fs !! (p ++ [c]) ≠ Some (Link t)) →
  kernel_walk fuel follow fs [] (p ++ [c]) = Ok q → q = p ++ [c].
Proof. intros Hn Hp Hl. by apply resolve_lexical. Qed.

(** ** Clean paths *)

(** Only [..], then only names. *)
Definition clean_shape (out : path) : Prop := ∃ k ns, out = replicate k ".."%string ++ ns ∧ Forall name_ok ns.

Lemma clean_parts_shape rooted out parts : clean_shape out → clean_shape (clean_parts rooted out parts).
Proof.
  revert out. induction parts as [|c parts IH]; intros out Hs; [done|]. cbn [clean_parts].
  destruct (streq c "" || streq c ".") eqn:H1; [by apply IH|]. destruct Hs as (k & ns & -> & Hns).
  destruct (streq c "..") eqn:H2.
  - assert (∀ k, clean_shape (replicate k ".."%string ++ [".."%string])) as Hdots.
    { intros k'. exists (S k'), []. by rewrite app_nil_r, replicate_S_end. }
    destruct ns as [|n ns] using rev_ind; [|clear IHns].
    + rewrite app_nil_r. destruct (last (replicate k ".."%string)) as [d|] eqn:Hl.
      * apply last_Some_elem_of, elem_of_replicate in Hl as [-> _]. change (streq ".." "..") with true. by apply IH.
      * destruct rooted; apply IH; [exists k, []; by rewrite app_nil_r|done].
    + rewrite app_assoc, last_snoc. apply Forall_app in Hns as [Hns [(_ & _ & Hn) _]%Forall_cons].
      rewrite streq_ne by done. apply IH. rewrite take_app_le, take_ge by (rewrite ?length_app; cbn [length]; lia). by exists k, ns.
  - apply IH. exists k, (ns ++ [c]). split; [by rewrite <-app_assoc|]. apply Forall_app. split; [done|]. apply Forall_singleton.
    apply orb_false_iff in H1 as [H0 H1]. apply bool_decide_eq_false in H0, H1, H2. by split_and!.
Qed.

Lemma safePath_inside root name target :
  safePath root name = Ok target → ∃ rel, target = root ++ rel ∧ Forall name_ok rel.
Proof.
  unfold safePath, Clean. destruct (clean_parts_shape (is_rooted (TrimPrefix_slash name)) [] (split_slash (TrimPrefix_slash name))) as (k & ns & -> & Hns).
  { by exists 0%nat, []. }
  destruct k as [|k]; cbn [replicate app].
  - destruct ns as [|n ns]; [intros [= <-]; exists []; by rewrite app_nil_r|].
    apply Forall_cons in Hns as [Hn Hns]. rewrite streq_ne by apply Hn. intros [= <-]. exists (n :: ns). split; [done|]. by apply Forall_cons.
  - by change (streq ".." "..") with true.
Qed.

(** ** What stays *)

(** Files outside keep their kind, content and permissions. *)
Definition same_file (a b : option node) : Prop := (fun n => (n_kind n, n_perm n)) <$> a = (fun n => (n_kind n, n_perm n)) <$> b.
Definition inside (root p : path) : Prop := ∃ rel, rel ≠ [] ∧ p = root ++ rel.
Definition untouched (root : path) (fs fs' : FS) : Prop := ∀ p, ¬ inside root p → same_file (fs !! p) (fs' !! p).

#[export] Instance untouched_preorder root : PreOrder (untouched root).
Proof.
  split; [by intros fs p|]. intros fs1 fs2 fs3 H12 H23 p Hp. unfold same_file in *. by rewrite (H12 p Hp), (H23 p Hp).
Qed.

Lemma same_file_kind a b : same_file a b → n_kind <$> a = n_kind <$> b.
Proof. unfold same_file. destruct a as [[]|], b as [[]|]; cbn; congruence. Qed.

Lemma untouched_insert root fs p n : inside root p → untouched root fs (<[p := n]> fs).
Proof. intros Hp q Hq. by rewrite lookup_insert_ne by congruence. Qed.

Lemma not_inside_prefix root k : ¬ inside root (take k root).
Proof.
  intros (rel & Hrel & Heq). apply Hrel, nil_length_inv. apply (f_equal length) in Heq. rewrite length_take, length_app in Heq. lia.
Qed.

Lemma untouched_grounded root fs fs' : untouched root fs fs' → real_dir fs root → real_dir fs' root.
Proof. intros Hu Hr k Hk. rewrite <-(same_file_kind (fs !! take k root)); [by apply Hr|]. apply Hu, not_inside_prefix. Qed.

Lemma inside_app root rel c : inside root (root ++ rel ++ [c]).
Proof. exists (rel ++ [c]). split; [by destruct rel|done]. Qed.

(** ** The calls *)

Section calls.
Context (fuel : nat) (root : path) (Hroot : Forall name_ok root).
Implicit Types fs : FS.

Lemma create_node_spec fs rel c k perm fs' e :
  Forall name_ok (rel ++ [c]) → real_dir fs (root ++ rel) → create_node fuel fs (root ++ rel ++ [c]) k perm = (fs', e) →
  match e with
  | Some _ => fs' = fs
  | None => fs !! (root ++ rel ++ [c]) = None ∧ fs' = <[root ++ rel ++ [c] := mkNode k perm (0, 0) (0, 0)]> fs
  end.
Proof.
  intros Hn Hd. unfold create_node. rewrite app_assoc. destruct (kernel_walk _ _ _ _ _) as [q|er] eqn:Hr; [|by intros [= <- <-]].
  apply resolve_real in Hr as ->; [|rewrite <-app_assoc; by apply Forall_app|done|done].
  rewrite bool_decide_eq_false_2 by (by destruct (root ++ rel)). cbn [orb]. case_bool_decide as Hex; intros [= <- <-]; [done|].
  split; [by apply eq_None_not_Some|done].
Qed.

Lemma create_node_untouched fs rel c k perm fs' e :
  Forall name_ok (rel ++ [c]) → real_dir fs (root ++ rel) → create_node fuel fs (root ++ rel ++ [c]) k perm = (fs', e) → untouched root fs fs'.
Proof.
  intros Hn Hd Hc. apply create_node_spec in Hc; [|done..]. destruct e; [by subst|]. destruct Hc as [_ ->]. apply untouched_insert, inside_app.
Qed.

(** A node that was not there leaves real directories alone. *)
Lemma real_dir_insert fs p q n : fs !! q = None → real_dir fs p → real_dir (<[q := n]> fs) p.
Proof. intros Hq Hp k Hk. rewrite lookup_insert_ne; [by apply Hp|]. intros ->. specialize (Hp k Hk). by rewrite Hq in Hp. Qed.

Lemma lookup_node_lexical fs rel c q n :
  Forall name_ok (rel ++ [c]) → real_dir fs (root ++ rel) → lookup_node fuel false fs (root ++ rel ++ [c]) = Ok (q, n) →
  q = root ++ rel ++ [c] ∧ fs !! q = Some n.
Proof.
  intros Hn Hd. unfold lookup_node. rewrite app_assoc. destruct (kernel_walk _ _ _ _ _) as [q'|er] eqn:Hr; [|done]. cbn [mbind result_mbind].
  apply resolve_real in Hr as ->; [|rewrite <-app_assoc; by apply Forall_app|done|done].
  destruct (fs !! _) as [n'|] eqn:Hl; [by intros [= <- <-]|]. by rewrite bool_decide_eq_false_2 by (by destruct (root ++ rel)).
Qed.

Lemma ensure_parents_spec rel pre fs fs' e :
  Forall name_ok (pre ++ rel) → real_dir fs (root ++ pre) → ensure_parents fuel fs (root ++ pre) rel = (fs', e) →
  untouched root fs fs' ∧ (e = None → real_dir fs' (root ++ pre ++ rel)).
Proof.
  revert pre fs. induction rel as [|part rel IH]; intros pre fs Hn Hd; cbn [ensure_parents].
  { intros [= <- <-]. by rewrite app_nil_r. }
  assert (Forall name_ok (pre ++ [part])) as Hn1.
  { apply Forall_app in Hn as [Hn1 [Hn2 _]%Forall_cons]. apply Forall_app. split; [done|]. by apply Forall_singleton. }
  assert (Forall name_ok ((pre ++ [part]) ++ rel)) as Hn2 by (by rewrite <-app_assoc).
  rewrite <-app_assoc. replace (pre ++ part :: rel) with ((pre ++ [part]) ++ rel) by (by rewrite <-app_assoc).
  unfold Lstat. destruct (lookup_node _ _ _ _) as [[q n]|er] eqn:Hl; cbn [fmap result_fmap snd].
  - apply lookup_node_lexical in Hl as [-> Hl]; [|done..]. destruct (isDir n) eqn:Hdir; cbn [negb]; [|intros [= <- <-]; by split].
    intros Hr. apply (IH (pre ++ [part]) fs) in Hr; [done..|]. rewrite app_assoc. apply real_dir_snoc; [done|]. rewrite <-app_assoc, Hl. cbn.
    unfold isDir in Hdir. by destruct (n_kind n).
  - destruct (errors_Is er ErrNotExist); [|intros [= <- <-]; by split].
    destruct (Mkdir _ _ _ _) as [fs1 e1] eqn:Hm. pose proof (create_node_untouched _ _ _ _ _ _ _ Hn1 Hd Hm) as Hu.
    apply create_node_spec in Hm; [|done..]. destruct e1 as [e1|]; [intros [= <- <-]; by split|]. intros Hr.
    destruct Hm as [Hnone ->]. apply (IH (pre ++ [part])) in Hr as [Hu' Hd']; [|done|].
    + split; [by etrans|done].
    + rewrite app_assoc in *. apply real_dir_snoc; [by apply real_dir_insert|]. by rewrite lookup_insert_eq.
Qed.

(** A directory that is there is not changed. *)
Lemma MkdirAll_real fs p perm : Forall name_ok p → real_dir fs p → (MkdirAll fuel fs p perm).1 = fs.
Proof.
  unfold MkdirAll. induction p as [|c p IH] using rev_ind; intros Hn Hd.
  { cbn [reverse rev_append MkdirAll_rev]. by destruct (Stat _ _ _) as [n|]. }
  rewrite reverse_snoc. cbn [MkdirAll_rev]. rewrite reverse_cons, reverse_involutive. destruct (Stat _ _ _) as [n|]; [done|].
  pose proof (Hd (length (p ++ [c]))) as Hc. rewrite take_ge in Hc by lia. specialize (Hc ltac:(rewrite length_app; cbn; lia)).
  assert (Forall name_ok p ∧ real_dir fs p) as [Hn1 Hd1]. { apply Forall_app in Hn as [? _]. split; [done|]. by eapply real_dir_prefix. }
  pose proof (IH Hn1 Hd1) as Hp. destruct (MkdirAll_rev fuel fs (reverse p) perm) as [fs1 [er0|]]; cbn [fst] in *; subst fs1; [done|].
  unfold Mkdir, create_node. destruct (kernel_walk _ _ _ _ _) as [q|er] eqn:Hr; [|done]. apply resolve_real in Hr as ->; [|done..].
  rewrite bool_decide_eq_false_2 by (by destruct p). rewrite bool_decide_eq_true_2; [done|].
  destruct (fs !! (p ++ [c])); [done|discriminate].
Qed.

Lemma MkdirAll_untouched fs rel c perm fs' e :
  Forall name_ok (rel ++ [c]) → real_dir fs (root ++ rel) → MkdirAll fuel fs (root ++ rel ++ [c]) perm = (fs', e) → untouched root fs fs'.
Proof.
  intros Hn Hd. unfold MkdirAll. rewrite app_assoc, reverse_snoc. cbn [MkdirAll_rev]. rewrite reverse_cons, reverse_involutive, <-app_assoc.
  destruct (Stat _ _ _) as [n|]; [intros [= <- <-]; done|].
  pose proof (MkdirAll_real fs (root ++ rel) perm) as Hp. unfold MkdirAll in Hp.
  destruct (MkdirAll_rev fuel fs (reverse (root ++ rel)) perm) as [fs1 e1]. cbn [fst] in Hp.
  rewrite Hp; [|apply Forall_app in Hn as [? _]; by apply Forall_app|done]. destruct e1; [intros [= <- <-]; done|].
  destruct (Mkdir _ _ _ _) as [fs2 e2] eqn:Hm. apply create_node_untouched in Hm; [|done..]. destruct e2; by intros [= <- <-].
Qed.

Lemma open_and_write_untouched fs rel c perm data fs' e :
  Forall name_ok (rel ++ [c]) → real_dir fs (root ++ rel) → open_and_write fuel fs (root ++ rel ++ [c]) perm data = (fs', e) → untouched root fs fs'.
Proof.
  intros Hn Hd. unfold open_and_write. rewrite app_assoc. destruct (kernel_walk _ _ _ _ _) as [q|er] eqn:Hr; [|intros [= <- <-]; done].
  apply resolve_real in Hr as ->; [|rewrite <-app_assoc; by apply Forall_app|done|done]. rewrite <-app_assoc.
  rewrite bool_decide_eq_false_2 by (by destruct root, rel).
  destruct (fs !! _) as [[[|d|t] pm ow ti]|]; intros [= <- <-]; try done; apply untouched_insert, inside_app.
Qed.

Lemma writeFile_untouched fs rel c mode data ce fs' e :
  Forall name_ok (rel ++ [c]) → real_dir fs (root ++ rel) → writeFile fuel fs data ce (root ++ rel ++ [c]) mode = (fs', e) → untouched root fs fs'.
Proof.
  intros Hn Hd. unfold writeFile. destruct (Lstat _ _ _) as [n|er]; [destruct (isRegular n)|destruct (errors_Is er ErrNotExist)].
  2,4: by intros [= <- <-].
  all: destruct (open_and_write _ _ _ _ _) as [fs1 e1] eqn:Ho; intros [= <- <-]; by eapply open_and_write_untouched.
Qed.

Lemma import_entry_untouched fs rel c h data ce fs' e :
  Forall name_ok (rel ++ [c]) → real_dir fs (root ++ rel) → import_entry fuel fs (root ++ rel ++ [c]) h data ce = (fs', e) → untouched root fs fs'.
Proof.
  intros Hn Hd. unfold import_entry. destruct (t_Typeflag h).
  - by apply MkdirAll_untouched.
  - by apply create_node_untouched.
  - by apply writeFile_untouched.
  - by intros [= <- <-].
Qed.

(** Changing metadata, through links or not, changes no file. *)
Lemma change_node_same fs p f q :
  (∀ n, n_kind (f n) = n_kind n ∧ n_perm (f n) = n_perm n) → same_file (fs !! q) (change_node fuel fs p f !! q).
Proof.
  intros Hf. unfold change_node, lookup_node. destruct (kernel_walk _ _ _ _ _) as [r|]; [|done]. cbn [mbind result_mbind].
  destruct (fs !! r) as [n|] eqn:Hr.
  - case_bool_decide; [done|]. destruct (decide (r = q)) as [->|Hne]; [|by rewrite lookup_insert_ne].
    rewrite lookup_insert_eq, Hr. unfold same_file. cbn. by destruct (Hf n) as [-> ->].
  - case_bool_decide as Hroot0; [|done]. by rewrite bool_decide_eq_true_2.
Qed.

Lemma applyMetadata_untouched fs p h : untouched root fs (applyMetadata fuel fs p h).
Proof. intros q _. unfold applyMetadata. unfold same_file. rewrite <-!change_node_same by done. done. Qed.

Lemma finish_directories_untouched fs ds : untouched root fs (finish_directories fuel fs root ds).
Proof.
  revert fs. induction ds as [|h ds IH]; intros fs; [done|]. cbn [finish_directories].
  etrans; [|apply IH]. destruct (safePath root (t_Name h)); [apply applyMetadata_untouched|done].
Qed.

Lemma import_entries_untouched entries fs count ds :
  real_dir fs root → untouched root fs (import_entries fuel fs root entries count ds).1.1.
Proof.
  revert fs count ds. induction entries as [|[h data ce|e|e] entries IH]; intros fs count ds Hr; cbn [import_entries].
  - apply finish_directories_untouched.
  - destruct (safePath root (t_Name h)) as [target|e] eqn:Hp; [|done]. case_bool_decide as Hne; [by apply IH|].
    apply safePath_inside in Hp as (rel & -> & Hrel). destruct rel as [|c rel _] using rev_ind; [by rewrite app_nil_r in Hne|].
    replace (take (length (root ++ rel ++ [c]) - 1) (root ++ rel ++ [c])) with (root ++ rel)
      by (by rewrite app_assoc, take_app_length' by (rewrite !length_app; cbn [length]; lia)).
    destruct (ensureSafeParents _ _ _ _) as [fs1 e1] eqn:He. unfold ensureSafeParents in He. rewrite drop_app_length in He.
    rewrite <-(app_nil_r root) in He at 1. apply ensure_parents_spec in He as [Hu Hd];
      [|by apply Forall_app in Hrel as [? _]|by rewrite app_nil_r].
    destruct e1 as [e1|]; [done|]. specialize (Hd eq_refl). cbn [app] in Hd.
    pose proof (untouched_grounded _ _ _ Hu Hr) as Hr1.
    destruct (match t_Typeflag h with TypeOther => true | _ => false end); [etrans; [done|by apply IH]|].
    destruct (import_entry _ _ _ _ _ _) as [fs2 e2] eqn:Hi. apply import_entry_untouched in Hi; [|done..].
    assert (untouched root fs fs2) as Hu2 by (by etrans). destruct e2 as [e2|]; [done|].
    assert (∀ fs3 count' ds', untouched root fs2 fs3 → untouched root fs (import_entries fuel fs3 root entries count' ds').1.1) as Hrest.
    { intros fs3 count' ds' Hu3. assert (untouched root fs fs3) by (by etrans). etrans; [done|]. apply IH. by eapply untouched_grounded. }
    destruct (t_Typeflag h); apply Hrest; try done; apply applyMetadata_untouched.
  - done.
  - done.
Qed.
End calls.

(** C35: an archive stays inside the volume.  Whatever its entries are, with links,
    absolute names and [..] among them, and whether or not the import succeeds,
    no file or directory outside the destination is created, removed or
    overwritten, and none has its permissions changed: the path of every entry
    is confined, its parents are real directories when it is written, and files
    are not opened through links. *)
Theorem archive_stays_inside fuel root fs archive :
  Forall name_ok root → real_dir fs root →
  ∀ p, ¬ inside root p → same_file (fs !! p) ((importArchive fuel fs root archive).1.1 !! p).
Proof.
  intros Hn Hr. destruct archive as [entries|e]; [|done]. cbn [importArchive]. by apply import_entries_untouched.
Qed.

(** ** Evaluation *)

Definition sample_fs : FS := {[ ["vol"%string] := mkNode Dir 493 (0, 0) (0, 0); ["etc"%string] := mkNode Dir 493 (0, 0) (0, 0) ]}.
Definition sample_header (name : string) (t : typeflag) (link : string) : tarHeader := mkHeader name t link 420 1000 1000 7 7.
Definition sample_archive : list next :=
  [Entry (sample_header "a/b" TypeReg "") [x41] None; Entry (sample_header "x" TypeSymlink "/etc") [] None;
   Entry (sample_header "x/passwd" TypeReg "") [x42] None].

Lemma archive_stays_inside_witness :
  n_kind <$> (importArchive 20 sample_fs ["vol"%string] (Ok sample_archive)).1.1 !! ["vol"; "a"; "b"]%string = Some (Reg [x41]) ∧
  same_file (sample_fs !! ["etc"; "passwd"]%string) ((importArchive 20 sample_fs ["vol"%string] (Ok sample_archive)).1.1 !! ["etc"; "passwd"]%string).
Proof.
  split; [vm_compute; reflexivity|]. apply archive_stays_inside.
  - apply Forall_singleton. by split_and!.
  - intros k Hk. assert (k = 1%nat) as -> by (cbn in Hk; lia). vm_compute. reflexivity.
  - intros (rel & _ & Heq). by destruct rel.
Defined.

(** An entry for a directory that an earlier entry made a link is taken for done,
    and its owner and times go through the link: the import gives a directory
    outside the volume to the owner the archive names. *)
Theorem archive_changes_owner_outside :
  let archive := [Entry (sample_header "x" TypeSymlink "/etc") [] None; Entry (sample_header "x" TypeDir "") [] None] in
  let '(fs, count, err) := importArchive 20 sample_fs ["vol"%string] (Ok archive) in
  err = None ∧ n_owner <$> sample_fs !! ["etc"%string] = Some (0, 0) ∧ n_owner <$> fs !! ["etc"%string] = Some (1000, 1000).
Proof. vm_compute. done. Qed.
