(* ===== verification/Heartbeat.v ===== *)
(** * The heartbeat of a lease ([internal/replica/remote.go], [Heartbeat])

    When a lease is renewed, and when the heartbeat gives it up for lost. *)
From S2P Require Import Prelude Extents.
Local Open Scope Z_scope.

(** The time between two ticks, from the time to live of a lease. *)
Definition heartbeat_interval (ttl : Z) : Z := let interval := ttl `quot` 3 in if interval <=? 0 then 1 else interval.

(** At a tick: whether the lease, which expires at [expires] ([None] when there is
    no lease any more), has to be renewed. *)
Definition renewal_due (interval now : Z) (expires : option Z) : bool :=
  match expires with Some e => negb (now + 2 * interval <? e) | None => true end.

(** What the loop does after the renewal: go on, stop because its context ended,
    or report the lease as lost. *)
Inductive beat : Type := KeepGoing | StopBeating | ReportLost (e : error).

Definition after_renewal (err : option error) (cancelled : bool) (expires : option Z) (now : Z) : beat :=
  match err with
  | None => KeepGoing
  | Some e =>
      if cancelled then StopBeating
      else if errors_Is e ErrLeaseLost || match expires with None => true | Some x => negb (now <? x) end
      then ReportLost (Wrap "renew lease" e)
      else KeepGoing
  end.

Section ticks.
Context (ttl : Z) (Httl : 3 ≤ ttl).
Notation interval := (heartbeat_interval ttl).

(** A tick at time [t], when the lease expires at [e], and the next tick.  The
    ticker does not fall behind: a renewal is given up after [interval], and the
    next tick is then due at once.  [failed] says that the last renewal failed;
    no two in a row do. *)
Inductive tick : Z * Z * bool → Z * Z * bool → Prop :=
  | tick_idle t e failed t' :
      renewal_due interval t (Some e) = false → t ≤ t' ≤ t + interval → tick (t, e, failed) (t', e, false)
  | tick_renewed t e failed now t' :
      renewal_due interval t (Some e) = true → t ≤ now ≤ t' → t' ≤ t + interval →
      tick (t, e, failed) (t', now + ttl, false)
  | tick_failed t e err now t' :
      renewal_due interval t (Some e) = true → t ≤ now ≤ t' → t' ≤ t + interval →
      after_renewal (Some err) false (Some e) now = KeepGoing → tick (t, e, false) (t', e, true).

Lemma interval_bounds : 1 ≤ interval ∧ 3 * interval ≤ ttl.
Proof using Httl.
  unfold heartbeat_interval. rewrite Z.quot_div_nonneg by lia. pose proof (Z.div_mod ttl 3 ltac:(lia)). pose proof (Z.mod_pos_bound ttl 3 ltac:(lia)).
  destruct (ttl / 3 <=? 0) eqn:Hi; zbool; lia.
Qed.

Definition beating (s : Z * Z * bool) : Prop :=
  let '(t, e, failed) := s in t < e ∧ (failed = false → t + interval < e).

Lemma tick_beating s s' : beating s → tick s s' → beating s'.
Proof using Httl.
  pose proof interval_bounds as [Hi Ht]. intros Hb Hs. destruct Hs as [t e f t' Hd Hn|t e f now t' Hd Hn Hl|t e err now t' Hd Hn Hl Hk]; cbn in *.
  - zbool. split; [|intros _]; lia.
  - split; [|intros _]; lia.
  - split; [|done]. destruct Hb as [_ Hb]. specialize (Hb eq_refl). lia.
Qed.

(** C36: a heartbeat keeps its lease.  From the moment the lease is acquired, at
    every tick the lease has not expired, however long the renewals take, as long
    as no two renewals in a row fail; and a single renewal that fails, other than
    because the lease is lost, is never taken for the loss of the lease. *)
Theorem heartbeat_keeps_lease acquired t0 t e failed :
  acquired ≤ t0 ≤ acquired + interval → rtc tick (t0, acquired + ttl, false) (t, e, failed) →
  t < e ∧ (failed = false → ∀ err now, errors_Is err ErrLeaseLost = false → now ≤ t + interval →
    after_renewal (Some err) false (Some e) now = KeepGoing).
Proof using Httl.
  intros H0 Hr. pose proof interval_bounds as [Hi Ht].
  assert (∀ s s', beating s → rtc tick s s' → beating s') as Hinv.
  { intros s s' Hb Hs. induction Hs as [|s1 s2 s3 Hstep _ IH]; [done|]. apply IH. by eapply tick_beating. }
  assert (beating (t0, acquired + ttl, false)) as Hb0 by (split; [lia|intros _; lia]).
  destruct (Hinv _ _ Hb0 Hr : beating (t, e, failed)) as [Hlt Hm]. split; [done|].
  intros Hf err now Herr Hnow. specialize (Hm Hf). cbn. rewrite Herr. cbn [orb]. by rewrite (proj2 (Z.ltb_lt now e)) by lia.
Qed.
End ticks.

Lemma heartbeat_keeps_lease_witness :
  heartbeat_interval 30 = 10 ∧ (21 < 50 ∧ (false = false → ∀ err now, errors_Is err ErrLeaseLost = false → now ≤ 21 + heartbeat_interval 30 →
    after_renewal (Some err) false (Some 50) now = KeepGoing)).
Proof.
  split; [reflexivity|]. apply (heartbeat_keeps_lease 30 ltac:(lia) 0 10 21 50 false); [vm_compute; split; discriminate|].
  eapply rtc_l; [apply (tick_failed 30 10 30 ErrIO 15 20)|eapply rtc_l; [apply (tick_renewed 30 20 30 true 20 21)|constructor]].
  all: vm_compute; try reflexivity; try (split; discriminate); discriminate.
Defined.
