(* ===== verification/Backend.v ===== *)
(** * Attaching and mounting ([internal/backend/block])

    How an NBD device is attached to the kernel ([Attach], [attachAt]), detached
    again ([Attachment.Close]), and how the filesystem on it is mounted and
    unmounted, as functions of what the system calls return. *)
From S2P Require Import Prelude Extents Options.
Local Open Scope Z_scope.

Section errors.
(** [errors.Is] with an errno. *)
Context (is_EBUSY is_EINVAL is_EPIPE is_ENOENT : error → bool).

(** ** Attaching *)

Inductive fd : Type := Dev | Sock0 | Sock1 | ServerConn.

#[export] Instance fd_eq_dec : EqDecision fd.
Proof. solve_decision. Defined.

(** What [attachAt] does to descriptors and to the kernel's side. *)
Inductive fd_action : Type := Opened (f : fd) | Closed (f : fd) | ClearSock | Disconnect.

#[export] Instance action_eq_dec : EqDecision fd_action.
Proof. solve_decision. Defined.

(** One turn of the wait loop: whether sysfs shows the device with its size, and
    which channel is ready. *)
Inductive poll : Type := PollReady | PollTick | PollServerDone (e : error) | PollContextDone (e : error) | PollDeadline.

Record AttachCalls : Type := mkAttachCalls {
  ac_open : option error; ac_socketpair : option error; ac_setSock : option error; ac_blockSize : option error;
  ac_sizeBlocks : option error; ac_setFlags : option error; ac_fileConn : option error; ac_polls : list poll;
}.

(** The loop that waits for the kernel; [None] once the device is there, else the
    error and what is done before it is returned.  The server closes its
    connection itself when it is done. *)
Fixpoint attach_wait (polls : list poll) : list fd_action * option error :=
  match polls with
  | [] | PollDeadline :: _ => ([Disconnect; Closed ServerConn], Some (Errorf "timed out attaching"))
  | PollReady :: _ => ([], None)
  | PollServerDone e :: _ => ([Closed ServerConn; Disconnect], Some (Wrap "start NBD server" e))
  | PollContextDone e :: _ => ([Disconnect; Closed ServerConn], Some e)
  | PollTick :: polls => attach_wait polls
  end.

(** The deferred functions, last first: [configured], [closeSockets], [closeDev]. *)
Definition deferred (configured closeSockets : bool) : list fd_action :=
  (if configured then [ClearSock] else []) ++ (if closeSockets then [Closed Sock0; Closed Sock1] else []) ++ [Closed Dev].

Definition attachAt (c : AttachCalls) : list fd_action * option error :=
  match ac_open c with Some e => ([], Some e) | None =>
  match ac_socketpair c with Some e => (Opened Dev :: deferred false false, Some e) | None =>
  let opened := [Opened Dev; Opened Sock0; Opened Sock1] in
  match ac_setSock c with Some e => (opened ++ deferred false true, Some e) | None =>
  match ac_blockSize c with Some e => (opened ++ deferred true true, Some e) | None =>
  match ac_sizeBlocks c with Some e => (opened ++ deferred true true, Some e) | None =>
  match ac_setFlags c with Some e => (opened ++ deferred true true, Some e) | None =>
  let served := opened ++ [Closed Sock0] in
  match ac_fileConn c with Some e => (served ++ [Closed Sock1] ++ deferred true true, Some e) | None =>
  let served := served ++ [Opened ServerConn; Closed Sock1] in
  match attach_wait (ac_polls c) with
  | (acts, None) => (served ++ acts, None)
  | (acts, Some e) => (served ++ acts ++ deferred true false, Some e)
  end end end end end end end end.

(** What [Attach] finds at a device number. *)
Inductive nbd_candidate : Type := Absent | InUse | Tried (calls : AttachCalls).

Definition skippable (e : error) : bool := is_EBUSY e || errors_Is e ErrEOF || errors_Is e ErrClosed.

Fixpoint Attach (i : nat) (candidates : list nbd_candidate) : result nat :=
  match candidates with
  | [] => Err (Errorf "no free /dev/nbd device")
  | (Absent | InUse) :: candidates => Attach (S i) candidates
  | Tried calls :: candidates =>
      match (attachAt calls).2 with
      | None => Ok i
      | Some e => if skippable e then Attach (S i) candidates else Err e
      end
  end.

(** ** Detaching *)

Record Attachment : Type := mkAttachment { at_stopped : bool; at_closeErr : option error }.

(** What the calls of [Close] return; [None] in a channel is its timeout. *)
Record CloseCalls : Type := mkCloseCalls {
  cc_disconnect : option error; cc_server : option (option error); cc_kernel : option (option error); cc_device : option error;
}.

Definition or_else (first next : option error) : option error := match first with Some _ => first | None => next end.
Definition unless (ignored : error → bool) (e : option error) : option error :=
  match e with Some e => if ignored e then None else Some e | None => None end.

Definition Attachment_Close (c : CloseCalls) (a : Attachment) : Attachment * option error :=
  if at_stopped a then (a, at_closeErr a) else
  let e := unless is_EINVAL (cc_disconnect c) in
  let e := or_else e (match cc_server c with
    | Some r => unless (fun e => errors_Is e ErrClosed || errors_Is e ErrEOF) r
    | None => Some (Errorf "NBD server did not stop") end) in
  let e := or_else e (match cc_kernel c with
    | Some r => unless (fun e => is_EPIPE e || is_EINVAL e) r
    | None => Some (Errorf "NBD kernel client did not stop") end) in
  let e := or_else e (cc_device c) in
  (mkAttachment true e, e).

(** ** The filesystem *)

Definition mkfs_Format (filesystem : string) (mkfs : option error) : option error :=
  if negb (streq filesystem "ext4") then Some (Errorf "unsupported filesystem") else
  match mkfs with Some e => Some (Wrap "mkfs.ext4" e) | None => None end.

(** An attempt to unmount, and whether the loop may try again. *)
Inductive attempt : Type := Attempt (err : option error) (after : option error).

(** [unmount]: [None] of an attempt's [after] is the pause before the next one. *)
Fixpoint unmount (detach : bool) (attempts : list attempt) : option error :=
  match attempts with
  | [] => Some (Errorf "device or resource busy")
  | Attempt err stop :: attempts =>
      match err with
      | None => None
      | Some e =>
          if is_EINVAL e || is_ENOENT e then None else
          if negb (is_EBUSY e) || detach then Some e else
          match stop with
          | Some e' => Some e'
          | None => unmount detach attempts
          end
      end
  end.

(** [fm_mounted]: the kernel has the filesystem mounted. *)
Record FsMount : Type := mkFsMount { fm_attachment : Attachment; fm_closed : bool; fm_mounted : bool }.

(** What the calls of [Backend.Mount] return: creating the mountpoint, the
    devices that [Attach] finds, the [mount] command, and closing the attachment
    again. *)
Record BackendCalls : Type := mkBackendCalls {
  bc_mkdir : option error; bc_devices : list nbd_candidate; bc_mount : option error; bc_close : CloseCalls;
}.

(** The options of the [mount] command. *)
Definition mount_flags (readOnly : bool) : string := if readOnly then "noatime,ro,noload" else "noatime,discard".

(** [Backend.Mount]: the attachment it made, if any, and what it returns. *)
Definition fs_Mount (filesystem : string) (c : BackendCalls) : option Attachment * result FsMount :=
  let filesystem := if streq filesystem "" then "ext4"%string else filesystem in
  if negb (streq filesystem "ext4") then (None, Err (Errorf "unsupported filesystem")) else
  match bc_mkdir c with Some e => (None, Err e) | None =>
  match Attach 0 (bc_devices c) with
  | Err e => (None, Err e)
  | Ok _ =>
      let attachment := mkAttachment false None in
      match bc_mount c with
      | Some e => (Some (Attachment_Close (bc_close c) attachment).1, Err (Wrap "mount" e))
      | None => (Some attachment, Ok (mkFsMount attachment false true))
      end
  end end.

Record MountCalls : Type := mkMountCalls { mc_attempts : list attempt; mc_close : CloseCalls; mc_remove : option error }.

Definition fs_close (detach : bool) (c : MountCalls) (m : FsMount) : FsMount * option error :=
  if fm_closed m then (m, None) else
  match unmount detach (mc_attempts c) with
  | Some e =>
      if negb detach then (m, Some e) else
      let '(a, result) := Attachment_Close (mc_close c) (fm_attachment m) in
      let result := or_else result (unless (fun e => errors_Is e ErrNotExist) (mc_remove c)) in
      (mkFsMount a (bool_decide (result = None)) (fm_mounted m), result)
  | None =>
      let '(a, result) := Attachment_Close (mc_close c) (fm_attachment m) in
      let result := or_else result (unless (fun e => errors_Is e ErrNotExist) (mc_remove c)) in
      (mkFsMount a (bool_decide (result = None)) false, result)
  end.

Definition fs_Unmount : MountCalls → FsMount → FsMount * option error := fs_close false.
Definition fs_Abandon : MountCalls → FsMount → FsMount * option error := fs_close true.

(** ** Theorems *)

Definition opens (acts : list fd_action) (f : fd) : nat := length (filter (fun a => a = Opened f) acts).
Definition closes (acts : list fd_action) (f : fd) : nat := length (filter (fun a => a = Closed f) acts).

(** What a wait that fails leaves: the connection closed once. *)
Lemma attach_wait_closes polls :
  match attach_wait polls with
  | (acts, None) => acts = []
  | (acts, Some _) => acts = [Disconnect; Closed ServerConn] ∨ acts = [Closed ServerConn; Disconnect]
  end.
Proof. induction polls as [|[] polls IH]; cbn [attach_wait]; auto. Qed.

(** Attaching to a device balances its descriptors: when it fails, everything that
    was opened is closed, and when it succeeds exactly the device and the
    connection of the server stay open; nothing is closed twice.  This is so
    unless the connection cannot be made from the socket. *)
Theorem attachAt_balanced c f :
  ac_fileConn c = None → let '(acts, err) := attachAt c in
  opens acts f = (closes acts f + if bool_decide (err = None) && bool_decide (f ∈ [Dev; ServerConn]) then 1 else 0)%nat ∧ (opens acts f ≤ 1)%nat.
Proof.
  intros Hf. unfold attachAt. rewrite Hf. destruct (ac_open c), (ac_socketpair c), (ac_setSock c), (ac_blockSize c), (ac_sizeBlocks c), (ac_setFlags c);
    try (destruct f; vm_compute; split; lia).
  pose proof (attach_wait_closes (ac_polls c)) as Hw. destruct (attach_wait (ac_polls c)) as [acts [e|]]; [destruct Hw as [->| ->]|subst acts];
    destruct f; vm_compute; split; lia.
Qed.

(** When the connection cannot be made, both sockets are closed a second time: by
    then their numbers may belong to files another goroutine has opened. *)
Theorem failed_conn_closes_twice c e :
  c = mkAttachCalls None None None None None None (Some e) [] → closes (attachAt c).1 Sock0 = 2%nat ∧ closes (attachAt c).1 Sock1 = 2%nat.
Proof. intros ->. vm_compute. done. Qed.

(** [Attach] takes the first device that can be attached, passing over those that
    are absent, in use or busy; any other failure ends it. *)
Theorem Attach_first i candidates :
  match Attach i candidates with
  | Ok n => ∃ before calls after, candidates = before ++ Tried calls :: after ∧ n = (i + length before)%nat ∧ (attachAt calls).2 = None ∧
      Forall (fun c => match c with Tried calls => ∃ e, (attachAt calls).2 = Some e ∧ skippable e = true | _ => True end) before
  | Err e => Forall (fun c => match c with Tried calls => (attachAt calls).2 ≠ None | _ => True end) candidates ∨
      ∃ calls, Tried calls ∈ candidates ∧ (attachAt calls).2 = Some e ∧ skippable e = false
  end.
Proof.
  revert i. induction candidates as [|c candidates IH]; intros i; cbn [Attach]; [left; constructor|].
  assert (∀ d, d = c → match c with Tried calls => ∃ e, (attachAt calls).2 = Some e ∧ skippable e = true | _ => True end →
    match Attach (S i) candidates with
    | Ok n => ∃ before calls after, d :: candidates = before ++ Tried calls :: after ∧ n = (i + length before)%nat ∧ (attachAt calls).2 = None ∧
        Forall (fun c => match c with Tried calls => ∃ e, (attachAt calls).2 = Some e ∧ skippable e = true | _ => True end) before
    | Err e => Forall (fun c => match c with Tried calls => (attachAt calls).2 ≠ None | _ => True end) (d :: candidates) ∨
        ∃ calls, Tried calls ∈ d :: candidates ∧ (attachAt calls).2 = Some e ∧ skippable e = false
    end) as Hskip.
  { intros d -> Hc. specialize (IH (S i)). destruct (Attach (S i) candidates) as [n|e].
    - destruct IH as (before & calls & after & -> & -> & Hok & Hb). exists (c :: before), calls, after. cbn [app length]. split_and!; [done|lia|done|by constructor].
    - destruct IH as [Hall|(calls & Hin & Hx)]; [left|right; exists calls; split; [by right|done]]. constructor; [|done].
      destruct c as [| |calls]; [done..|]. destruct Hc as (e' & -> & _). done. }
  destruct c as [| |calls]; [by apply Hskip..|]. destruct (attachAt calls).2 as [e|] eqn:Ha.
  - destruct (skippable e) eqn:Hs; [apply Hskip; by eauto|]. right. exists calls. split; [by left|done].
  - exists [], calls, candidates. cbn. split_and!; [done|lia|done|constructor].
Qed.

(** A mount that fails has no attachment left running; one that succeeds is of
    an ext4 filesystem, mounted, on an attachment that runs. *)
Theorem fs_Mount_balanced filesystem c attached r :
  fs_Mount filesystem c = (attached, r) →
  match r with
  | Ok m => attached = Some (fm_attachment m) ∧ at_stopped (fm_attachment m) = false ∧ fm_mounted m = true ∧ fm_closed m = false ∧
            (filesystem = EmptyString ∨ filesystem = "ext4"%string) ∧ bc_mount c = None
  | Err _ => ∀ a, attached = Some a → at_stopped a = true
  end.
Proof.
  unfold fs_Mount, streq. cbv zeta. destruct (negb _) eqn:Hfs; [by intros [= <- <-]|].
  destruct (bc_mkdir c); [by intros [= <- <-]|]. destruct (Attach 0 (bc_devices c)); [|by intros [= <- <-]].
  destruct (bc_mount c) as [e|]; intros [= <- <-]; [by intros ? [= <-]|]. cbn. split_and!; try done.
  apply negb_false_iff, bool_decide_eq_true in Hfs. case_bool_decide; [by left|by right].
Qed.

(** A close that returns no error has unmounted the filesystem, unless it was told
    to detach at any price, and stopped the attachment; after it nothing is done
    any more. *)
Theorem fs_close_sound detach c m m' :
  fm_closed m = false → fs_close detach c m = (m', None) →
  at_stopped (fm_attachment m') = true ∧ (detach = false → fm_mounted m' = false) ∧ ∀ detach' c', fs_close detach' c' m' = (m', None).
Proof.
  intros Hc. unfold fs_close at 1. rewrite Hc.
  assert (∀ a, at_stopped (Attachment_Close (mc_close c) a).1 = true) as Hst.
  { intros a. unfold Attachment_Close. by destruct (at_stopped a) eqn:Hs. }
  specialize (Hst (fm_attachment m)). destruct (Attachment_Close (mc_close c) (fm_attachment m)) as [a r]. cbn [fst] in Hst.
  destruct (unmount detach (mc_attempts c)) as [e|]; [destruct detach; cbn [negb]; [|done]|]; intros [= <- Hr]; rewrite Hr;
    (split_and!; [done|done|]); intros; unfold fs_close; by rewrite bool_decide_eq_true_2.
Qed.

(** The attachment is closed once, and remembers the error: an unmount that failed
    because the device did not detach cleanly fails for good, with the filesystem
    gone. *)
Theorem detach_error_is_permanent m e detach c :
  fm_closed m = false → at_stopped (fm_attachment m) = true → at_closeErr (fm_attachment m) = Some e → unmount detach (mc_attempts c) = None →
  (fs_close detach c m).2 = Some e ∧ fm_closed (fs_close detach c m).1 = false ∧ fm_mounted (fs_close detach c m).1 = false ∧
  at_closeErr (fm_attachment (fs_close detach c m).1) = Some e.
Proof.
  intros Hc Hs He Hu. unfold fs_close. rewrite Hc, Hu. unfold Attachment_Close. rewrite Hs, He. cbn. done.
Qed.
End errors.

Lemma attachAt_balanced_witness :
  let c := mkAttachCalls None None None (Some ErrIO) None None None [] in
  opens (attachAt c).1 Sock0 = 1%nat ∧ closes (attachAt c).1 Sock0 = 1%nat.
Proof.
  intros c. destruct (attachAt_balanced c Sock0 eq_refl) as [Heq Hle]. split; [reflexivity|].
  change (1 = closes (attachAt c).1 Sock0 + 0)%nat in Heq. lia.
Defined.
