(* ===== verification/S3.v ===== *)
(** * The S3 object store ([internal/objectstore/s3.go])

    The AWS client is a parameter: the class [S3Client] has the calls that
    [s3.go] makes of it, [S3Laws] what the service documents of every backend
    (writes are visible to the reads and listings that follow) and
    [S3ConditionalLaws] what it documents of conditional writes.  The store
    built on such a client is an [ObjectStore] and a [ConditionalStore], so
    that every theorem about heads, leases, publication and garbage
    collection applies to it.  The startup probes are at the end. *)
From S2P Require Import Prelude Store.
Local Open Scope Z_scope.

(** ** Errors of the client

    What [errors.As] finds in an error of the SDK: the status of the HTTP
    response, when there was one, the code of the API error, and whether it is
    a [types.NoSuchKey]; [sdk_error_value] is the error itself, as the callers of the
    store see it. *)
Record sdk_error : Type := mkSdkError {
  sdk_status : option Z;
  sdk_code : option string;
  sdk_NoSuchKey : bool;
  sdk_error_value : error;
}.

(** An error inside [s3.go]: one of the package's own or one of the SDK. *)
Inductive s3_error : Type := OwnError (e : error) | SdkError (e : sdk_error).

Definition s3_error_value (e : s3_error) : error :=
  match e with OwnError e => e | SdkError e => sdk_error_value e end.

Definition httpStatus (err : option s3_error) : Z :=
  match err with Some (SdkError e) => default 0 (sdk_status e) | _ => 0 end.

Definition isMissingKey (err : option s3_error) : bool :=
  match err with Some (SdkError e) => sdk_NoSuchKey e | _ => false end || (httpStatus err =? 404).

Definition isPreconditionFailure (err : option s3_error) : bool :=
  let status := httpStatus err in
  (status =? 412) || (status =? 409) || (status =? 304) ||
  match err with
  | Some (SdkError e) =>
      match sdk_code e with
      | Some code => bool_decide (code ∈ ["PreconditionFailed"; "ConditionalRequestConflict"; "NotModified"])
      | None => false
      end
  | _ => false
  end.

(** ** The client *)

(** The [Body] of the output is a stream; [get_Body] is what reading it to the
    end returns. *)
Record GetObjectOutput : Type := mkGetOutput { get_Body : result bytes; get_ETag : option string }.

Record PutObjectInput : Type := mkPutInput {
  put_Key : string;
  put_Body : bytes;
  put_ContentLength : Z;
  put_IfNoneMatch : option string;
  put_IfMatch : option string;
}.

(** [C] is the state of the service.  [page_bound] bounds the pages of a
    listing; only the model uses it. *)
Class S3Client (C : Type) : Type := {
  GetObject : C → string → string → GetObjectOutput + sdk_error;
  PutObject : C → string → PutObjectInput → C * (option string + sdk_error);
  DeleteObject : C → string → string → C * option sdk_error;
  Paginator : Type;
  NewListObjectsV2Paginator : string → string → Paginator;
  HasMorePages : Paginator → bool;
  NextPage : C → Paginator → Paginator * (list (option string) + sdk_error);
  page_bound : C → string → string → nat;
}.

Record S3Config : Type := mkS3Config {
  cfg_Endpoint : string;
  cfg_Region : string;
  cfg_Bucket : string;
  cfg_AccessKeyID : string;
  cfg_SecretKey : string;
  cfg_ForcePathStyle : bool;
}.

(** The options of the client that depend on the configuration. *)
Record s3_Options : Type := mkS3Options {
  so_Region : string;
  so_Credentials : string * string;
  so_BaseEndpoint : option string;
  so_UsePathStyle : bool;
}.

Definition optionalString (s : string) : option string := if bool_decide (s = EmptyString) then None else Some s.

Definition NewS3_options (cfg : S3Config) : s3_Options :=
  mkS3Options (if bool_decide (cfg_Region cfg = EmptyString) then "us-east-1" else cfg_Region cfg)
    (cfg_AccessKeyID cfg, cfg_SecretKey cfg) (optionalString (cfg_Endpoint cfg)) (cfg_ForcePathStyle cfg).

Record S3 (C : Type) : Type := mkS3 { s3_client : C; s3_bucket : string }.
Arguments mkS3 {C} _ _.
Arguments s3_client {C} _.
Arguments s3_bucket {C} _.

(** [NewS3]; [connect] is the SDK's [s3.New]. *)
Definition NewS3 {C} (connect : s3_Options → C) (cfg : S3Config) : S3 C := mkS3 (connect (NewS3_options cfg)) (cfg_Bucket cfg).

(** [aws.ToString] *)
Definition ToString (s : option string) : string := default EmptyString s.

Section operations.
Context {C : Type} `{S3Client C}.
Implicit Types s : S3 C.

Definition with_client s (c : C) : S3 C := mkS3 c (s3_bucket s).

Definition s3_Get s (key : string) : result Object :=
  match GetObject (s3_client s) (s3_bucket s) key with
  | inr err => if isMissingKey (Some (SdkError err)) then Err ErrNotFound else Err (sdk_error_value err)
  | inl out => data ← get_Body out; Ok (mkObject data (ToString (get_ETag out)))
  end.

(** [put] returns the entity tag and the error. *)
Definition s3_put s (input : PutObjectInput) : S3 C * (string * option s3_error) :=
  let '(c, out) := PutObject (s3_client s) (s3_bucket s) input in
  (with_client s c,
    match out with
    | inr err =>
        if isPreconditionFailure (Some (SdkError err)) then (EmptyString, Some (OwnError ErrPreconditionFailed))
        else (EmptyString, Some (SdkError err))
    | inl etag => (ToString etag, None)
    end).

(** The pair [(etag, err)] as the callers read it. *)
Definition s3_result (r : string * option s3_error) : result string :=
  match r with (etag, None) => Ok etag | (_, Some err) => Err (s3_error_value err) end.

Definition s3_Put s (key : string) (data : bytes) : S3 C * result string :=
  let '(s, r) := s3_put s (mkPutInput key data (Z.of_nat (length data)) None None) in (s, s3_result r).

Definition s3_PutIfAbsent s (key : string) (data : bytes) : S3 C * result string :=
  let '(s, r) := s3_put s (mkPutInput key data (Z.of_nat (length data)) (Some "*") None) in (s, s3_result r).

Definition s3_PutIfMatch s (key : string) (data : bytes) (etag : string) : S3 C * result string :=
  let '(s, (newETag, err)) := s3_put s (mkPutInput key data (Z.of_nat (length data)) None (Some etag)) in
  if isMissingKey err then (s, Err ErrPreconditionFailed) else (s, s3_result (newETag, err)).

Definition s3_Delete s (key : string) : S3 C * option error :=
  let '(c, err) := DeleteObject (s3_client s) (s3_bucket s) key in (with_client s c, sdk_error_value <$> err).

(** The loop of [List]. *)
Fixpoint list_pages (fuel : nat) (c : C) (paginator : Paginator) (keys : list string) : result (list string) :=
  if HasMorePages paginator then
    match fuel with
    | O => Err OutOfFuel
    | Datatypes.S fuel =>
        match NextPage c paginator with
        | (_, inr err) => Err (sdk_error_value err)
        | (paginator, inl contents) => list_pages fuel c paginator (keys ++ (ToString <$> contents))
        end
    end
  else Ok keys.

Definition s3_List s (prefix : string) : result (list string) :=
  list_pages (page_bound (s3_client s) (s3_bucket s) prefix) (s3_client s) (NewListObjectsV2Paginator (s3_bucket s) prefix) [].

(** The loop of [DeletePrefix]. *)
Fixpoint delete_keys (keys : list string) s : S3 C * option error :=
  match keys with
  | [] => (s, None)
  | key :: keys =>
      match s3_Delete s key with
      | (s, Some err) => (s, Some err)
      | (s, None) => delete_keys keys s
      end
  end.

Definition s3_DeletePrefix s (prefix : string) : S3 C * option error :=
  match s3_List s prefix with
  | Err err => (s, Some err)
  | Ok keys => delete_keys keys s
  end.

(** [Fetch]: an object of any bucket, unread; the seeder reads it. *)
Definition s3_Fetch s (bucket key : string) : result (result bytes) :=
  match GetObject (s3_client s) bucket key with
  | inr err => Err (sdk_error_value err)
  | inl out => Ok (get_Body out)
  end.

#[export] Instance s3_store : Store (S3 C) := {
  store_Get := s3_Get;
  store_Put := s3_Put;
  store_PutIfAbsent := s3_PutIfAbsent;
  store_PutIfMatch := s3_PutIfMatch;
  store_Delete := s3_Delete;
  store_List := s3_List;
  store_DeletePrefix := s3_DeletePrefix;
}.
End operations.

(** ** What the service documents *)

(** The pages that a paginator still has, none of them an error. *)
Inductive pages {C} `{S3Client C} (c : C) : Paginator → list (list (option string)) → Prop :=
  | pages_end p : HasMorePages p = false → pages c p []
  | pages_next p p' page rest :
      HasMorePages p = true → NextPage c p = (p', inl page) → pages c p' rest → pages c p (page :: rest).

(** [s3_objects c bucket] is the content of a bucket.  Reads and listings see
    the writes before them; a listing names every key of the prefix once. *)
Class S3Laws (C : Type) `{S3Client C} : Type := {
  s3_inv : C → Prop;
  s3_objects : C → string → gmap string Object;
  GetObject_law c b k : s3_inv c →
    match s3_objects c b !! k with
    | Some o => GetObject c b k = inl (mkGetOutput (Ok (obj_Data o)) (Some (obj_ETag o)))
    | None => ∃ e, GetObject c b k = inr e ∧ sdk_NoSuchKey e = true
    end;
  PutObject_law c b k d n : s3_inv c → n = Z.of_nat (length d) →
    ∃ c' e, PutObject c b (mkPutInput k d n None None) = (c', inl (Some e)) ∧
      s3_inv c' ∧ s3_objects c' b = <[k := mkObject d e]> (s3_objects c b);
  DeleteObject_law c b k : s3_inv c →
    ∃ c', DeleteObject c b k = (c', None) ∧ s3_inv c' ∧ s3_objects c' b = delete k (s3_objects c b);
  List_law c b p : s3_inv c →
    ∃ ps, pages c (NewListObjectsV2Paginator b p) ps ∧ (length ps ≤ page_bound c b p)%nat ∧
      ∃ keys, concat ps = Some <$> keys ∧ NoDup keys ∧
        ∀ k, k ∈ keys ↔ is_Some (s3_objects c b !! k) ∧ HasPrefix k p = true;
}.

(** Preconditions: [s3_conditional c] says that the backend honours them, and
    [s3_tagged] which contents an entity tag has stood for. *)
Class S3ConditionalLaws (C : Type) `{S3Laws C} : Type := {
  s3_conditional : C → Prop;
  s3_tagged : C → string → string → string → bytes → Prop;
  s3_tagged_nonempty c b k e d : s3_inv c → s3_tagged c b k e d → e ≠ EmptyString;
  s3_tagged_unique c b k e d1 d2 : s3_inv c → s3_tagged c b k e d1 → s3_tagged c b k e d2 → d1 = d2;
  s3_tagged_current c b k o : s3_inv c → s3_objects c b !! k = Some o → s3_tagged c b k (obj_ETag o) (obj_Data o);
  PutObject_keeps c b i : s3_conditional c → s3_conditional (PutObject c b i).1;
  PutObject_tagged c b i k e d : s3_tagged c b k e d → s3_tagged (PutObject c b i).1 b k e d;
  DeleteObject_keeps c b k : s3_conditional c → s3_conditional (DeleteObject c b k).1;
  DeleteObject_tagged c b k' k e d : s3_tagged c b k e d → s3_tagged (DeleteObject c b k').1 b k e d;
  PutObject_IfNoneMatch c b k d n : s3_inv c → s3_conditional c → n = Z.of_nat (length d) →
    match s3_objects c b !! k with
    | None => ∃ c' e, PutObject c b (mkPutInput k d n (Some "*") None) = (c', inl (Some e)) ∧
        s3_inv c' ∧ s3_objects c' b = <[k := mkObject d e]> (s3_objects c b)
    | Some _ => ∃ c' e, PutObject c b (mkPutInput k d n (Some "*") None) = (c', inr e) ∧ sdk_status e = Some 412 ∧
        s3_inv c' ∧ s3_objects c' b = s3_objects c b
    end;
  PutObject_IfMatch c b k d n tag : s3_inv c → s3_conditional c → n = Z.of_nat (length d) →
    match s3_objects c b !! k with
    | None => ∃ c' e, PutObject c b (mkPutInput k d n None (Some tag)) = (c', inr e) ∧ sdk_status e = Some 404 ∧
        s3_inv c' ∧ s3_objects c' b = s3_objects c b
    | Some o =>
        if bool_decide (obj_ETag o = tag) then
          ∃ c' e, PutObject c b (mkPutInput k d n None (Some tag)) = (c', inl (Some e)) ∧
            s3_inv c' ∧ s3_objects c' b = <[k := mkObject d e]> (s3_objects c b)
        else
          ∃ c' e, PutObject c b (mkPutInput k d n None (Some tag)) = (c', inr e) ∧ sdk_status e = Some 412 ∧
            s3_inv c' ∧ s3_objects c' b = s3_objects c b
    end;
}.

(** ** The store over such a service *)

Section laws.
Context {C : Type} `{S3Laws C}.
Implicit Types s : S3 C.

Lemma list_pages_all c p ps : pages c p ps → ∀ fuel acc, (length ps ≤ fuel)%nat →
  list_pages fuel c p acc = Ok (acc ++ (ToString <$> concat ps)).
Proof.
  induction 1 as [p Hm|p p' page rest Hm Hnext _ IH]; intros fuel acc Hf.
  - destruct fuel; cbn [list_pages concat]; rewrite Hm, fmap_nil, app_nil_r; done.
  - cbn [length] in Hf. destruct fuel as [|fuel]; [lia|]. cbn [list_pages]. rewrite Hm, Hnext, IH by lia.
    cbn [concat]. by rewrite fmap_app, app_assoc.
Qed.

Lemma s3_List_keys s p : s3_inv (s3_client s) →
  ∃ keys, s3_List s p = Ok keys ∧ NoDup keys ∧
    ∀ k, k ∈ keys ↔ is_Some (s3_objects (s3_client s) (s3_bucket s) !! k) ∧ HasPrefix k p = true.
Proof.
  intros Hi. destruct (List_law _ (s3_bucket s) p Hi) as (ps & Hps & Hle & keys & Hcat & Hnd & Hin).
  exists keys. split; [|done]. unfold s3_List. rewrite (list_pages_all _ _ _ Hps _ _ Hle), Hcat. cbn [app].
  rewrite <-list_fmap_compose, (list_fmap_ext _ id); [by rewrite list_fmap_id|done].
Qed.

Lemma s3_Delete_spec s k : s3_inv (s3_client s) →
  ∃ s', s3_Delete s k = (s', None) ∧ s3_inv (s3_client s') ∧ s3_bucket s' = s3_bucket s ∧
    s3_objects (s3_client s') (s3_bucket s) = delete k (s3_objects (s3_client s) (s3_bucket s)).
Proof.
  intros Hi. destruct (DeleteObject_law _ (s3_bucket s) k Hi) as (c' & Heq & Hi' & Ho).
  exists (with_client s c'). unfold s3_Delete. by rewrite Heq.
Qed.

Lemma delete_keys_spec keys s : s3_inv (s3_client s) →
  ∃ s', delete_keys keys s = (s', None) ∧ s3_inv (s3_client s') ∧ s3_bucket s' = s3_bucket s ∧
    s3_objects (s3_client s') (s3_bucket s) = filter (fun kv => kv.1 ∉ keys) (s3_objects (s3_client s) (s3_bucket s)).
Proof.
  revert s. induction keys as [|k keys IH]; intros s Hi; cbn [delete_keys].
  - exists s. split; [done|]. split; [done|]. split; [done|]. symmetry. apply map_filter_id. intros; apply not_elem_of_nil.
  - destruct (s3_Delete_spec s k Hi) as (s1 & -> & Hi1 & Hb1 & Ho1). destruct (IH s1 Hi1) as (s2 & -> & Hi2 & Hb2 & Ho2).
    exists s2. split; [done|]. split; [done|]. split; [congruence|]. rewrite Hb1, Ho1 in Ho2. rewrite Ho2.
    apply map_eq. intros k'. apply option_eq. intros o. rewrite !map_lookup_filter_Some, lookup_delete_Some, not_elem_of_cons. cbn [fst]. naive_solver.
Qed.

Lemma s3_DeletePrefix_spec s p s' r : s3_inv (s3_client s) → s3_DeletePrefix s p = (s', r) →
  s3_inv (s3_client s') ∧ s3_bucket s' = s3_bucket s ∧ r = None ∧
  s3_objects (s3_client s') (s3_bucket s) = filter (fun kv => HasPrefix kv.1 p = false) (s3_objects (s3_client s) (s3_bucket s)).
Proof.
  intros Hi. unfold s3_DeletePrefix. destruct (s3_List_keys s p Hi) as (keys & -> & _ & Hin).
  destruct (delete_keys_spec keys s Hi) as (s2 & -> & Hi2 & Hb2 & Ho2). intros [= <- <-].
  split; [done|]. split; [done|]. split; [done|]. rewrite Ho2. apply map_filter_ext. intros k o Ho. cbn [fst].
  rewrite Hin, <-not_true_iff_false. split; [|naive_solver]. intros Hn Hp. apply Hn. split; [by eexists|done].
Qed.

#[export, refine] Instance s3_object_store : ObjectStore (S3 C) := {
  store_inv s := s3_inv (s3_client s);
  objects s := s3_objects (s3_client s) (s3_bucket s);
}.
Proof.
  - intros s k Hi. cbn [store_Get s3_store]. unfold s3_Get. pose proof (GetObject_law _ (s3_bucket s) k Hi) as Hg.
    destruct (_ !! k) as [[d e]|]; [by rewrite Hg|]. destruct Hg as (e & -> & He). cbn [isMissingKey]. unfold isMissingKey. by rewrite He.
  - intros s k d s' r Hi. cbn [store_Put s3_store]. unfold s3_Put, s3_put.
    destruct (PutObject_law _ (s3_bucket s) k d _ Hi eq_refl) as (c' & e & -> & Hi' & Ho). intros [= <- <-]. split; [done|]. by exists e.
  - intros s k s' r Hi. cbn [store_Delete s3_store]. destruct (s3_Delete_spec s k Hi) as (s1 & -> & Hi1 & Hb & Ho). intros [= <- <-].
    split; [done|]. split; [done|]. by rewrite Hb.
  - intros s p Hi. by apply s3_List_keys.
  - intros s p s' r Hi Hd. destruct (s3_DeletePrefix_spec _ _ _ _ Hi Hd) as (Hi' & Hb & -> & Ho). split; [done|]. split; [done|]. by rewrite Hb.
Defined.
End laws.

Section conditional.
Context {C : Type} `{S3ConditionalLaws C}.
Implicit Types s : S3 C.

Lemma refused_put e : sdk_status e = Some 412 → isPreconditionFailure (Some (SdkError e)) = true.
Proof. intros He. unfold isPreconditionFailure, httpStatus. by rewrite He. Qed.

#[export, refine] Instance s3_conditional_store : ConditionalStore (S3 C) := {
  honours s := s3_conditional (s3_client s);
  tagged s k e d := s3_tagged (s3_client s) (s3_bucket s) k e d;
}.
Proof.
  - intros s k e d. apply s3_tagged_nonempty.
  - intros s k e d1 d2. apply s3_tagged_unique.
  - intros s k o. apply s3_tagged_current.
  - intros s k d Hc. cbn [store_Put s3_store]. unfold s3_Put, s3_put.
    apply (PutObject_keeps _ (s3_bucket s) (mkPutInput k d (Z.of_nat (length d)) None None)) in Hc. by destruct (PutObject _ _ _).
  - intros s k d k' e x Hc. cbn [store_Put s3_store]. unfold s3_Put, s3_put.
    apply (PutObject_tagged _ (s3_bucket s) (mkPutInput k d (Z.of_nat (length d)) None None)) in Hc. by destruct (PutObject _ _ _).
  - intros s k Hc. cbn [store_Delete s3_store]. unfold s3_Delete. apply (DeleteObject_keeps _ (s3_bucket s) k) in Hc. by destruct (DeleteObject _ _ _).
  - intros s k k' e x Hc. cbn [store_Delete s3_store]. unfold s3_Delete. apply (DeleteObject_tagged _ (s3_bucket s) k) in Hc. by destruct (DeleteObject _ _ _).
  - intros s k d s' r Hi Hc. cbn [store_PutIfAbsent s3_store objects s3_object_store]. unfold s3_PutIfAbsent, s3_put.
    set (i := mkPutInput k d (Z.of_nat (length d)) (Some "*") None).
    pose proof (PutObject_keeps _ (s3_bucket s) i Hc) as Hk. pose proof (λ k' e x, PutObject_tagged (s3_client s) (s3_bucket s) i k' e x) as Ht.
    pose proof (PutObject_IfNoneMatch _ (s3_bucket s) k d _ Hi Hc eq_refl) as Hp. fold i in Hp.
    destruct (_ !! k) as [o|].
    + destruct Hp as (c' & e & Heq & He & Hi' & Ho). rewrite Heq in Hk, Ht |- *. rewrite (refused_put _ He). by intros [= <- <-].
    + destruct Hp as (c' & e & Heq & Hi' & Ho). rewrite Heq in Hk, Ht |- *. intros [= <- <-].
      split; [done|]. split; [done|]. split; [done|]. by exists e.
  - intros s k d tag s' r Hi Hc. cbn [store_PutIfMatch s3_store objects s3_object_store]. unfold s3_PutIfMatch, s3_put.
    set (i := mkPutInput k d (Z.of_nat (length d)) None (Some tag)).
    pose proof (PutObject_keeps _ (s3_bucket s) i Hc) as Hk. pose proof (λ k' e x, PutObject_tagged (s3_client s) (s3_bucket s) i k' e x) as Ht.
    pose proof (PutObject_IfMatch _ (s3_bucket s) k d _ tag Hi Hc eq_refl) as Hp. fold i in Hp.
    destruct (_ !! k) as [o|]; [case_bool_decide|].
    + destruct Hp as (c' & e & Heq & Hi' & Ho). rewrite Heq in Hk, Ht |- *. intros [= <- <-].
      split; [done|]. split; [done|]. split; [done|]. by exists e.
    + destruct Hp as (c' & e & Heq & He & Hi' & Ho). rewrite Heq in Hk, Ht |- *. rewrite (refused_put _ He). by intros [= <- <-].
    + destruct Hp as (c' & e & Heq & He & Hi' & Ho). rewrite Heq in Hk, Ht |- *.
      destruct (isPreconditionFailure _); [by intros [= <- <-]|]. unfold isMissingKey, httpStatus. rewrite He. cbn [default]. rewrite orb_true_r. by intros [= <- <-].
Defined.
End conditional.
