(* ===== verification/S3Theorems.v ===== *)
(** * The S3 store refines a map of objects

    Sequences of store operations, what a map of objects answers to them, the
    theorem that the S3 store answers the same, and a small service with pages
    of two keys on which it runs. *)
From S2P Require Import Prelude Types Store Head Lease LeaseProps S3.
Local Open Scope Z_scope.

(** ** Operations and answers *)

Inductive store_op : Type :=
  | OpGet (key : string)
  | OpPut (key : string) (data : bytes)
  | OpPutIfAbsent (key : string) (data : bytes)
  | OpPutIfMatch (key : string) (data : bytes) (etag : string)
  | OpDelete (key : string)
  | OpList (prefix : string)
  | OpDeletePrefix (prefix : string).

Inductive store_answer : Type :=
  | Read (r : result Object)
  | Written (r : result string)
  | Removed (r : option error)
  | Listed (r : result (list string)).

Section run.
Context {S : Type} `{Store S}.

Definition perform (op : store_op) (s : S) : S * store_answer :=
  match op with
  | OpGet key => (s, Read (store_Get s key))
  | OpPut key data => let '(s, r) := store_Put s key data in (s, Written r)
  | OpPutIfAbsent key data => let '(s, r) := store_PutIfAbsent s key data in (s, Written r)
  | OpPutIfMatch key data etag => let '(s, r) := store_PutIfMatch s key data etag in (s, Written r)
  | OpDelete key => let '(s, r) := store_Delete s key in (s, Removed r)
  | OpList prefix => (s, Listed (store_List s prefix))
  | OpDeletePrefix prefix => let '(s, r) := store_DeletePrefix s prefix in (s, Removed r)
  end.

Fixpoint perform_all (ops : list store_op) (s : S) : S * list store_answer :=
  match ops with
  | [] => (s, [])
  | op :: ops =>
      let '(s, a) := perform op s in
      let '(s, answers) := perform_all ops s in (s, a :: answers)
  end.
End run.

(** ** The specification: a map of objects

    The entity tag of a new version is the store's choice. *)
Definition stored (m : gmap string Object) (key : string) (data : bytes) (a : store_answer) (m' : gmap string Object) : Prop :=
  ∃ etag, a = Written (Ok etag) ∧ m' = <[key := mkObject data etag]> m.

Definition refused (m : gmap string Object) (a : store_answer) (m' : gmap string Object) : Prop :=
  a = Written (Err ErrPreconditionFailed) ∧ m' = m.

Definition map_step (m : gmap string Object) (op : store_op) (a : store_answer) (m' : gmap string Object) : Prop :=
  match op with
  | OpGet key => a = Read (match m !! key with Some o => Ok o | None => Err ErrNotFound end) ∧ m' = m
  | OpPut key data => stored m key data a m'
  | OpPutIfAbsent key data => match m !! key with None => stored m key data a m' | Some _ => refused m a m' end
  | OpPutIfMatch key data etag =>
      match m !! key with
      | Some o => if bool_decide (obj_ETag o = etag) then stored m key data a m' else refused m a m'
      | None => refused m a m'
      end
  | OpDelete key => a = Removed None ∧ m' = delete key m
  | OpList prefix =>
      m' = m ∧ ∃ keys, a = Listed (Ok keys) ∧ NoDup keys ∧ ∀ key, key ∈ keys ↔ is_Some (m !! key) ∧ HasPrefix key prefix = true
  | OpDeletePrefix prefix => a = Removed None ∧ m' = filter (fun kv => HasPrefix kv.1 prefix = false) m
  end.

Inductive map_run : gmap string Object → list store_op → list store_answer → gmap string Object → Prop :=
  | map_run_nil m : map_run m [] [] m
  | map_run_cons m op a m1 ops answers m2 :
      map_step m op a m1 → map_run m1 ops answers m2 → map_run m (op :: ops) (a :: answers) m2.

(** ** Refinement *)

(** [DeletePrefix] is a composition of the other operations, so the class does
    not say that it keeps preconditions; the S3 store does. *)
Section refinement.
Context {C : Type} `{S3ConditionalLaws C}.
Implicit Types s : S3 C.

Lemma delete_keys_conditional keys s : s3_conditional (s3_client s) → s3_conditional (s3_client (delete_keys keys s).1).
Proof.
  revert s. induction keys as [|k keys IH]; intros s Hc; [done|]. cbn [delete_keys].
  pose proof (delete_honours s k Hc) as Hd. cbn [store_Delete s3_store] in Hd. destruct (s3_Delete s k) as [s1 [e|]]; [done|by apply IH].
Qed.

Lemma perform_refines op s s' a : store_inv s → honours s → perform op s = (s', a) →
  store_inv s' ∧ honours s' ∧ map_step (objects s) op a (objects s').
Proof.
  intros Hi Hc. destruct op as [k|k d|k d|k d e|k|p|p]; cbn [perform map_step].
  - rewrite get_law by done. by intros [= <- <-].
  - pose proof (put_honours s k d Hc) as Hh. destruct (store_Put s k d) as [s1 r] eqn:Hp. intros [= <- <-].
    destruct (put_law _ _ _ _ _ Hi Hp) as (Hi1 & e & -> & Ho). split; [done|]. split; [done|]. by exists e.
  - destruct (store_PutIfAbsent s k d) as [s1 r] eqn:Hp. intros [= <- <-].
    destruct (putIfAbsent_law _ _ _ _ _ Hi Hc Hp) as (Hi1 & Hc1 & _ & Ho). split; [done|]. split; [done|].
    destruct (objects s !! k); [destruct Ho as [-> ->]; done|]. destruct Ho as (e & -> & ->). by exists e.
  - destruct (store_PutIfMatch s k d e) as [s1 r] eqn:Hp. intros [= <- <-].
    destruct (putIfMatch_law _ _ _ _ _ _ Hi Hc Hp) as (Hi1 & Hc1 & _ & Ho). split; [done|]. split; [done|].
    destruct (objects s !! k); [|destruct Ho as [-> ->]; done]. case_bool_decide; [|destruct Ho as [-> ->]; done].
    destruct Ho as (e' & -> & ->). by exists e'.
  - pose proof (delete_honours s k Hc) as Hh. destruct (store_Delete s k) as [s1 r] eqn:Hp. intros [= <- <-].
    destruct (delete_law _ _ _ _ Hi Hp) as (Hi1 & -> & Ho). done.
  - destruct (list_law s p Hi) as (keys & -> & Hk). intros [= <- <-]. split; [done|]. split; [done|]. split; [done|]. by exists keys.
  - destruct (store_DeletePrefix s p) as [s1 r] eqn:Hp. intros [= <- <-]. destruct (deletePrefix_law _ _ _ _ Hi Hp) as (Hi1 & -> & Ho).
    split; [done|]. split; [|done]. cbn [store_DeletePrefix s3_store] in Hp. unfold s3_DeletePrefix in Hp.
    destruct (s3_List s p) as [keys|e]; [|by injection Hp as <- _].
    pose proof (delete_keys_conditional keys s Hc) as Hd. by rewrite Hp in Hd.
Qed.

(** C37: over a service that keeps the documented laws, the S3 store answers any
    sequence of operations as a map of objects does: a read returns the last
    version written, a conditional write happens exactly when its condition
    holds and is refused with [ErrPreconditionFailed] otherwise, also when the
    key is gone, and a listing names every key of the prefix once, however the
    service cuts it into pages. *)
Theorem s3_refines_map ops s s' answers :
  store_inv s → honours s → perform_all ops s = (s', answers) →
  map_run (objects s) ops answers (objects s').
Proof.
  revert s answers. induction ops as [|op ops IH]; intros s answers Hi Hc; cbn [perform_all]; [intros [= <- <-]; constructor|].
  destruct (perform op s) as [s1 a] eqn:Hp. destruct (perform_refines _ _ _ _ Hi Hc Hp) as (Hi1 & Hc1 & Hstep).
  destruct (perform_all ops s1) as [s2 rest] eqn:Hrest. intros [= <- <-]. econstructor; [exact Hstep|by apply IH].
Qed.
(** A lease on such a service has the head it relies on. *)
Definition s3_heads : HeadLaws (S3 C) := conditional_laws.
End refinement.

(** ** A service with pages of two keys

    It keeps the objects in a [Memory]; every bucket name stands for the same
    bucket.  A paginator is a prefix, the number of keys it has returned, and
    whether the last page was the last one. *)
Record toy_pager : Type := mkPager { tp_prefix : string; tp_offset : nat; tp_done : bool }.

Definition toy_keys (m : Memory) (prefix : string) : list string :=
  match mem_List m prefix with Ok keys => keys | Err _ => [] end.

Definition toy_refusal (status : Z) (missing : bool) : sdk_error := mkSdkError (Some status) None missing (Errorf "api error").

Definition toy_put (m : Memory) (i : PutObjectInput) : Memory * (option string + sdk_error) :=
  let '(m', etag) := mem_store m (put_Key i) (put_Body i) in
  match put_IfNoneMatch i, put_IfMatch i, mem_objects m !! put_Key i with
  | Some _, _, Some _ => (m, inr (toy_refusal 412 false))
  | _, Some tag, Some o => if bool_decide (obj_ETag o = tag) then (m', inl (Some etag)) else (m, inr (toy_refusal 412 false))
  | _, Some _, None => (m, inr (toy_refusal 404 true))
  | _, _, _ => (m', inl (Some etag))
  end.

#[export] Instance toy_client : S3Client Memory := {
  GetObject m _ key :=
    match mem_objects m !! key with
    | Some o => inl (mkGetOutput (Ok (obj_Data o)) (Some (obj_ETag o)))
    | None => inr (toy_refusal 404 true)
    end;
  PutObject m _ i := toy_put m i;
  DeleteObject m _ key := ((mem_Delete m key).1, None);
  Paginator := toy_pager;
  NewListObjectsV2Paginator _ prefix := mkPager prefix 0 false;
  HasMorePages p := negb (tp_done p);
  NextPage m p :=
    let rest := drop (tp_offset p) (toy_keys m (tp_prefix p)) in
    (mkPager (tp_prefix p) (tp_offset p + 2) (length rest <=? 2)%nat, inl (Some <$> take 2 rest));
  page_bound m _ prefix := Datatypes.S (length (toy_keys m prefix));
}.

(** The pages from an offset on hold the keys from there on. *)
Lemma toy_pages (m : Memory) prefix n : ∀ offset, (length (drop offset (toy_keys m prefix)) ≤ n)%nat →
  ∃ ps, pages m (mkPager prefix offset false : Paginator (C := Memory)) ps ∧ (length ps ≤ Datatypes.S n)%nat ∧
    concat ps = Some <$> drop offset (toy_keys m prefix).
Proof.
  induction n as [n IH] using lt_wf_ind. intros offset Hn. set (rest := drop offset (toy_keys m prefix)) in *.
  destruct (decide (length rest ≤ 2)%nat) as [Hle|Hgt].
  - exists [Some <$> take 2 rest]. split; [|split; [cbn [length]; lia|]].
    + apply (@pages_next Memory toy_client m _ (mkPager prefix (offset + 2) true)); [done| |by apply pages_end].
      cbn [NextPage toy_client tp_offset tp_prefix]. fold rest. apply Nat.leb_le in Hle. by rewrite Hle.
    + cbn [concat]. by rewrite app_nil_r, take_ge.
  - destruct (IH (n - 2)%nat ltac:(lia) (offset + 2)%nat) as (ps & Hps & Hlen & Hcat).
    { rewrite <-drop_drop. fold rest. rewrite length_drop. lia. }
    exists ((Some <$> take 2 rest) :: ps). split; [|split; [cbn [length]; lia|]].
    + eapply pages_next; [done| |exact Hps].
      cbn [NextPage toy_client tp_offset tp_prefix]. fold rest. destruct (Nat.leb_spec (length rest) 2); [lia|done].
    + cbn [concat]. rewrite Hcat, <-drop_drop. fold rest. by rewrite <-fmap_app, take_drop.
Qed.

#[export, refine] Instance toy_laws : S3Laws Memory := {
  s3_inv := memory_inv;
  s3_objects m _ := mem_objects m;
}.
Proof.
  - intros m b k _. cbn [GetObject toy_client]. destruct (mem_objects m !! k); [done|]. by eexists.
  - intros m b k d n Hi _. cbn [PutObject toy_client]. unfold toy_put. cbn [put_Key put_Body put_IfNoneMatch put_IfMatch].
    destruct (mem_store m k d) as [m' e] eqn:Hs. destruct (mem_store_inv _ _ _ _ _ Hi Hs) as (Hi' & Ho & _). exists m', e.
    split; [by destruct (mem_objects m !! k)|done].
  - intros m b k Hi. change (store_inv m) in Hi. destruct (delete_law m k _ _ Hi (surjective_pairing _)) as (Hi' & _ & Ho). by exists (mem_Delete m k).1.
  - intros m b p Hi. change (store_inv m) in Hi. destruct (toy_pages m p (length (toy_keys m p)) 0 ltac:(by rewrite drop_0)) as (ps & Hps & Hlen & Hcat).
    exists ps. split; [done|]. split; [done|]. exists (toy_keys m p). split; [done|]. destruct (list_law m p Hi) as (keys & Hl & Hk).
    cbn [store_List memory_store] in Hl. unfold toy_keys. by rewrite Hl.
Defined.

#[export, refine] Instance toy_conditional : S3ConditionalLaws Memory := {
  s3_conditional _ := True;
  s3_tagged m _ k e d := (k, e, d) ∈ mem_log m;
}.
Proof.
  - intros m b k e d (_ & _ & Hold & _) Hin. destruct (Hold _ _ _ Hin) as (n & -> & _). done.
  - intros m b k e d1 d2 (_ & _ & _ & Hu). apply Hu.
  - intros m b k o (_ & Hc & _). apply Hc.
  - done.
  - intros m b i k e d Hin. cbn [PutObject toy_client]. unfold toy_put. cbn [mem_store].
    destruct (put_IfNoneMatch i), (put_IfMatch i), (mem_objects m !! put_Key i); try case_bool_decide; try done; by apply list_elem_of_further.
  - done.
  - done.
  - intros m b k d n Hi _ _. cbn [PutObject toy_client s3_objects toy_laws]. unfold toy_put. cbn [put_Key put_Body put_IfNoneMatch put_IfMatch].
    destruct (mem_store m k d) as [m' e] eqn:Hs. destruct (mem_store_inv _ _ _ _ _ Hi Hs) as (Hi' & Ho & _).
    destruct (mem_objects m !! k); [by exists m, (toy_refusal 412 false)|by exists m', e].
  - intros m b k d n tag Hi _ _. cbn [PutObject toy_client s3_objects toy_laws]. unfold toy_put. cbn [put_Key put_Body put_IfNoneMatch put_IfMatch].
    destruct (mem_store m k d) as [m' e] eqn:Hs. destruct (mem_store_inv _ _ _ _ _ Hi Hs) as (Hi' & Ho & _).
    destruct (mem_objects m !! k) as [o|]; [case_bool_decide; [by exists m', e|by exists m, (toy_refusal 412 false)]|by exists m, (toy_refusal 404 true)].
Defined.

(** Three keys over two pages, a refused and an accepted conditional write, and
    a write conditional on a key that is gone. *)
Definition toy_ops : list store_op :=
  [OpPutIfAbsent "v/a" [x01]; OpPut "v/b" [x02]; OpPut "v/c" [x03]; OpPut "w" []; OpPutIfAbsent "v/a" [x04];
   OpPutIfMatch "v/a" [x05] (mem_etag 1); OpPutIfMatch "v/a" [x06] (mem_etag 1); OpGet "v/a"; OpList "v/"; OpDeletePrefix "v/";
   OpPutIfMatch "v/b" [x07] (mem_etag 2); OpGet "v/c"; OpList EmptyString].

Definition toy_s3 : S3 Memory := mkS3 NewMemory "bucket".

Definition toy_answers : list store_answer :=
  [Written (Ok (mem_etag 1)); Written (Ok (mem_etag 2)); Written (Ok (mem_etag 3)); Written (Ok (mem_etag 4));
   Written (Err ErrPreconditionFailed); Written (Ok (mem_etag 5)); Written (Err ErrPreconditionFailed);
   Read (Ok (mkObject [x05] (mem_etag 5))); Listed (Ok ["v/a"; "v/b"; "v/c"]); Removed None;
   Written (Err ErrPreconditionFailed); Read (Err ErrNotFound); Listed (Ok ["w"])]%string.

Lemma s3_refines_map_witness :
  perform_all toy_ops toy_s3 = ((perform_all toy_ops toy_s3).1, toy_answers) ∧
  map_run ∅ toy_ops toy_answers (objects (perform_all toy_ops toy_s3).1).
Proof.
  assert (perform_all toy_ops toy_s3 = ((perform_all toy_ops toy_s3).1, toy_answers)) as Hrun by (vm_compute; reflexivity).
  split; [exact Hrun|]. exact (s3_refines_map toy_ops toy_s3 _ _ NewMemory_inv I Hrun).
Defined.
