(* ===== verification/Startup.v ===== *)
(** * Starting up ([s3.go], [head.go])

    The probes that test a backend before the driver starts, the head mode
    and its default, and a small S3 service with pages of two keys on which
    the store of [S3.v] runs. *)
From stdpp Require Import pretty.
From S2P Require Import Prelude Types Store Head HeadProps Options S3.
Local Open Scope Z_scope.

(** ** The probes *)

Definition probe_body : bytes := string_bytes "probe".
Definition bogus_tag : string := quote +:+ "bogus" +:+ quote.

Section probes.
Context {S : Type} `{Store S}.
Implicit Types s : S.

(** The body of [VerifyConditionalWrites], before the deferred deletion. *)
Definition conditional_probe (probe : string) s : S * option error :=
  match store_PutIfAbsent s probe probe_body with
  | (s, Err err) => (s, Some (Wrap "probe write" err))
  | (s, Ok etag) =>
      let '(s, again) := store_PutIfAbsent s probe probe_body in
      if negb (match again with Err err => errors_Is err ErrPreconditionFailed | Ok _ => false end)
      then (s, Some (Errorf "backend accepted If-None-Match PUT on an existing key (err=%v); conditional writes are required for the lease")) else
      let '(s, stale) := store_PutIfMatch s probe probe_body bogus_tag in
      if negb (match stale with Err err => errors_Is err ErrPreconditionFailed | Ok _ => false end)
      then (s, Some (Errorf "backend accepted If-Match PUT with a stale ETag (err=%v); conditional writes are required for the lease")) else
      match store_PutIfMatch s probe probe_body etag with
      | (s, Err err) => (s, Some (Wrap "If-Match PUT with the current ETag failed" err))
      | (s, Ok _) => (s, None)
      end
  end.

(** [uuid] is the fresh UUID of the probe's key. *)
Definition VerifyConditionalWrites (uuid : string) s : S * option error :=
  let probe := "leases/.probe-" +:+ uuid in
  let '(s, err) := conditional_probe probe s in
  ((store_Delete s probe).1, err).

Definition listed_probe (prefix key : string) s : S * option error :=
  match store_Put s key probe_body with
  | (s, Err err) => (s, Some (Wrap "probe write" err))
  | (s, Ok _) =>
      match store_List s prefix with
      | Err err => (s, Some (Wrap "probe list" err))
      | Ok keys =>
          if negb (bool_decide (keys = [key]))
          then (s, Some (Errorf "backend listing did not return a just-written key (got %v); read-after-write listing is required for append heads")) else
          match store_Get s key with
          | Err err => (s, Some (Errorf "probe read after write failed (err=%v)"))
          | Ok obj =>
              if negb (bytes_Equal (obj_Data obj) probe_body) then (s, Some (Errorf "probe read after write failed (err=%v)")) else
              match store_Delete s key with
              | (s, Some err) => (s, Some (Wrap "probe delete" err))
              | (s, None) =>
                  match store_List s prefix with
                  | Err err => (s, Some (Wrap "probe list after delete" err))
                  | Ok keys =>
                      if negb (bool_decide (keys = []))
                      then (s, Some (Errorf "backend listing still returns a deleted key (%v); append heads need prompt delete visibility"))
                      else (s, None)
                  end
              end
          end
      end
  end.

Definition VerifyListedWrites (uuid : string) s : S * option error :=
  let prefix := "leases/.probe-" +:+ uuid in
  let key := prefix +:+ "/head" in
  let '(s, err) := listed_probe prefix key s in
  ((store_Delete s key).1, err).

(** [Remote.VerifyBackend]: the probe of the head that [Remote.head] chooses. *)
Definition VerifyBackend (mode : HeadMode) (uuid : string) s : S * option error :=
  match mode with
  | AppendHead => VerifyListedWrites uuid s
  | ConditionalHead => VerifyConditionalWrites uuid s
  end.
End probes.

(** ** Head modes *)

Definition lower_char (c : Ascii.ascii) : Ascii.ascii :=
  let n := Ascii.nat_of_ascii c in
  if (65 <=? n)%nat && (n <=? 90)%nat then Ascii.ascii_of_nat (n + 32) else c.

(** [strings.ToLower], as far as the result can be ASCII: the letters A to Z,
    and the two capitals outside ASCII whose lower case is in it, the dotted I
    and the Kelvin sign.  Other characters outside ASCII stay outside. *)
Fixpoint to_lower (fuel : nat) (s : string) : string :=
  match fuel, s with
  | Datatypes.S fuel, String c rest =>
      if HasPrefix s (bytes_string [196; 176]%nat) then String (Ascii.ascii_of_nat 105) (to_lower fuel (string_drop 2 s))
      else if HasPrefix s (bytes_string [226; 132; 170]%nat) then String (Ascii.ascii_of_nat 107) (to_lower fuel (string_drop 3 s))
      else String (lower_char c) (to_lower fuel rest)
  | _, _ => EmptyString
  end.

Definition ToLower (s : string) : string := to_lower (String.length s) s.

(** The constants of the type [HeadMode]. *)
Definition mode_name (mode : HeadMode) : string :=
  match mode with ConditionalHead => "conditional" | AppendHead => "append" end.

Definition ParseHeadMode (value : string) : result HeadMode :=
  let value := ToLower (TrimSpace value) in
  if bool_decide (value = EmptyString) || bool_decide (value = mode_name ConditionalHead) then Ok ConditionalHead
  else if bool_decide (value = mode_name AppendHead) then Ok AppendHead
  else Err (Errorf "unknown head mode %q (use conditional or append)").

(** Durations are in nanoseconds. *)
Definition DefaultSettle : Z := 3 * 10 ^ 9.

Definition settle (Settle : Z) : Z := if 0 <? Settle then Settle else DefaultSettle.

(** [Remote.head] makes an append head with the settle window and the TTL of
    the remote; the conditional head has no state of its own. *)
Definition append_head (Settle ttl : Z) : appendHead := mkAppendHead (settle Settle) ttl.

(** ** The probes are exact *)

Section conditional_probe.
Context {S : Type} `{ConditionalStore S}.
Implicit Types s : S.

(** [VerifyConditionalWrites] accepts every store that honours
    preconditions, and leaves its content as it was: the key of the probe is
    new, and the tag the probe makes up is none of the store's. *)
Theorem conditional_probe_accepts uuid s :
  store_inv s → honours s → objects s !! ("leases/.probe-" +:+ uuid) = None →
  (∀ s' d, store_inv s' → ¬ tagged s' ("leases/.probe-" +:+ uuid) bogus_tag d) →
  ∃ s', VerifyConditionalWrites uuid s = (s', None) ∧ store_inv s' ∧ honours s' ∧ objects s' = objects s.
Proof.
  intros Hi Hh Hnone Hbogus. unfold VerifyConditionalWrites. cbn zeta. set (probe := "leases/.probe-" +:+ uuid) in *. unfold conditional_probe.
  destruct (store_PutIfAbsent s _ _) as [s1 r1] eqn:E1. destruct (putIfAbsent_law _ _ _ _ _ Hi Hh E1) as (Hi1 & Hh1 & _ & Ho1).
  rewrite Hnone in Ho1. destruct Ho1 as (e1 & -> & Ho1).
  destruct (store_PutIfAbsent s1 _ _) as [s2 r2] eqn:E2. destruct (putIfAbsent_law _ _ _ _ _ Hi1 Hh1 E2) as (Hi2 & Hh2 & _ & Ho2).
  rewrite Ho1, lookup_insert_eq in Ho2. destruct Ho2 as [Ho2 ->]. cbn [errors_Is negb]. rewrite bool_decide_eq_true_2 by done. cbn [orb negb].
  assert (e1 ≠ bogus_tag) as Htag.
  { intros ->. eapply (Hbogus s1 probe_body); [done|]. exact (tagged_current s1 probe (mkObject probe_body bogus_tag) Hi1 ltac:(by rewrite Ho1, lookup_insert_eq)). }
  destruct (store_PutIfMatch s2 _ _ bogus_tag) as [s3 r3] eqn:E3. destruct (putIfMatch_law _ _ _ _ _ _ Hi2 Hh2 E3) as (Hi3 & Hh3 & _ & Ho3).
  rewrite Ho2, lookup_insert_eq in Ho3. cbn [obj_ETag] in Ho3. rewrite bool_decide_eq_false_2 in Ho3 by done. destruct Ho3 as [Ho3 ->].
  cbn [errors_Is negb]. rewrite bool_decide_eq_true_2 by done. cbn [orb negb].
  destruct (store_PutIfMatch s3 _ _ e1) as [s4 r4] eqn:E4. destruct (putIfMatch_law _ _ _ _ _ _ Hi3 Hh3 E4) as (Hi4 & Hh4 & _ & Ho4).
  rewrite Ho3, lookup_insert_eq in Ho4. cbn [obj_ETag] in Ho4. rewrite bool_decide_eq_true_2 in Ho4 by done. destruct Ho4 as (e4 & -> & Ho4).
  destruct (store_Delete s4 probe) as [s5 r5] eqn:E5. destruct (delete_law _ _ _ _ Hi4 E5) as (Hi5 & _ & Ho5).
  exists s5. pose proof (delete_honours s4 probe Hh4) as Hh5. rewrite E5 in Hh5. split; [done|]. split; [done|]. split; [done|].
  rewrite Ho5, Ho4, ?Ho3, ?Ho2, ?Ho1, ?insert_insert_eq. by apply delete_insert_id.
Qed.
End conditional_probe.

Section listed_probe.
Context {S : Type} `{ObjectStore S}.
Implicit Types s : S.

Lemma only_listed s p k : store_inv s →
  (∀ k', is_Some (objects s !! k') ∧ HasPrefix k' p = true ↔ k' = k) → store_List s p = Ok [k].
Proof.
  intros Hi Hk. destruct (list_law s p Hi) as (keys & -> & Hnd & Hin). do 2 f_equal.
  apply Permutation_singleton_r, NoDup_Permutation; [done|apply NoDup_singleton|].
  intros k'. rewrite Hin, Hk, list_elem_of_singleton. done.
Qed.

Lemma none_listed s p : store_inv s →
  (∀ k', is_Some (objects s !! k') → HasPrefix k' p = false) → store_List s p = Ok [].
Proof.
  intros Hi Hk. destruct (list_law s p Hi) as (keys & -> & _ & Hin). do 2 f_equal.
  destruct keys as [|k keys]; [done|]. destruct (proj1 (Hin k) (list_elem_of_here _ _)) as [Hs Hp]. by rewrite Hk in Hp.
Qed.

(** [VerifyListedWrites] accepts every store and leaves its content as it was. *)
Theorem listed_probe_accepts uuid s :
  store_inv s → (∀ k, is_Some (objects s !! k) → HasPrefix k ("leases/.probe-" +:+ uuid) = false) →
  ∃ s', VerifyListedWrites uuid s = (s', None) ∧ store_inv s' ∧ objects s' = objects s.
Proof.
  intros Hi Hfresh. unfold VerifyListedWrites. cbn zeta. set (prefix := "leases/.probe-" +:+ uuid) in *. set (key := prefix +:+ "/head").
  assert (HasPrefix key prefix = true) as Hkey by apply HasPrefix_app.
  assert (objects s !! key = None) as Hnone.
  { destruct (objects s !! key) eqn:Hk; [|done]. by rewrite Hfresh in Hkey. }
  unfold listed_probe. destruct (store_Put s key probe_body) as [s1 r1] eqn:E1. destruct (put_law _ _ _ _ _ Hi E1) as (Hi1 & e & -> & Ho1).
  assert (store_List s1 prefix = Ok [key]) as ->.
  { apply only_listed; [done|]. intros k'. rewrite Ho1, lookup_insert_is_Some'. split; [|intros ->; split; [by left|done]].
    intros [[Heq|Hs] Hp]; [done|]. by rewrite Hfresh in Hp. }
  rewrite bool_decide_eq_true_2 by done.
  cbn [negb]. rewrite get_law, Ho1, lookup_insert_eq by done. cbn [obj_Data]. unfold bytes_Equal. rewrite bool_decide_eq_true_2 by done. cbn [negb].
  destruct (store_Delete s1 key) as [s2 r2] eqn:E2. destruct (delete_law _ _ _ _ Hi1 E2) as (Hi2 & -> & Ho2).
  rewrite Ho1, delete_insert_id in Ho2 by done. assert (store_List s2 prefix = Ok []) as -> by (apply none_listed; [done|by rewrite Ho2]).
  rewrite bool_decide_eq_true_2 by done.
  cbn [negb]. destruct (store_Delete s2 key) as [s3 r3] eqn:E3. destruct (delete_law _ _ _ _ Hi2 E3) as (Hi3 & _ & Ho3).
  exists s3. split; [done|]. split; [done|]. by rewrite Ho3, Ho2, delete_id.
Qed.
End listed_probe.

(** ** The probes on the in-memory store *)

Lemma pretty_N_go_not_b x s t : s ≠ String (Ascii.ascii_of_nat 98) t → pretty_N_go x s ≠ String (Ascii.ascii_of_nat 98) t.
Proof.
  revert s. induction (N.lt_wf_0 x) as [x _ IH]; intros s Hs.
  destruct (decide (x = 0%N)) as [->|Hx]; [by rewrite pretty_N_go_0|].
  rewrite pretty_N_go_step by lia. apply IH; [apply N.div_lt; lia|].
  unfold pretty_N_char. by repeat case_match.
Qed.

Lemma pretty_not_bogus (z : Z) : pretty z ≠ "bogus"%string.
Proof.
  destruct z as [|x|x]; [done| |done]. apply pretty_N_go_not_b. done.
Qed.

Lemma memory_never_bogus m k d : memory_inv m → ¬ tagged m k bogus_tag d.
Proof.
  intros (_ & _ & Hold & _) Hin. destruct (Hold _ _ _ Hin) as (n & Heq & _). revert Heq. unfold bogus_tag, mem_etag.
  intros Heq. apply (inj (String.append quote)) in Heq. apply (pretty_not_bogus n). revert Heq. generalize (pretty n). intros x Heq.
  assert (String.length x = 5%nat) as Hlen.
  { apply (f_equal String.length) in Heq. rewrite !string_length_app in Heq. cbn [String.length quote] in Heq. lia. }
  do 6 (destruct x as [|? x]; [try done|]); [|done]. cbv in Heq. congruence.
Qed.

Lemma unconditional_overwrites m key data : mem_unconditional m = true →
  mem_PutIfAbsent m key data = ((mem_store m key data).1, Ok (mem_store m key data).2).
Proof. intros Hu. unfold mem_PutIfAbsent. by rewrite Hu, andb_false_r. Qed.

(** Started on an in-memory store, [VerifyBackend] returns without error
    exactly when the store can carry the configured head: any store carries
    append heads, and only one that honours preconditions carries conditional
    heads.  Either way, the store is left with the objects it had. *)
Theorem VerifyBackend_exact mode uuid m m' r :
  memory_inv m → (∀ k, is_Some (mem_objects m !! k) → HasPrefix k ("leases/.probe-" +:+ uuid) = false) →
  VerifyBackend mode uuid m = (m', r) →
  (r = None ↔ mode = AppendHead ∨ mem_unconditional m = false) ∧ mem_objects m' = mem_objects m.
Proof.
  intros Hi Hfresh. change (store_inv m) in Hi. assert (mem_objects m !! ("leases/.probe-" +:+ uuid) = None) as Hnone.
  { destruct (_ !! _) eqn:Hk; [|done]. pose proof (HasPrefix_app ("leases/.probe-" +:+ uuid) EmptyString) as Hp.
    rewrite string_app_nil in Hp. by rewrite Hfresh in Hp. }
  destruct mode; cbn [VerifyBackend].
  - destruct (mem_unconditional m) eqn:Hu.
    + unfold VerifyConditionalWrites, conditional_probe. cbn [store_PutIfAbsent store_Delete memory_store].
      rewrite unconditional_overwrites, unconditional_overwrites by done. intros [= <- <-]. split; [split; [done|intros [?|?]; done]|].
      cbn [mem_Delete fst mem_objects]. by rewrite insert_insert_eq, delete_insert_id.
    + change (honours m) in Hu. change (objects m !! ("leases/.probe-" +:+ uuid) = None) in Hnone.
      destruct (conditional_probe_accepts uuid m Hi Hu Hnone (λ m' d, memory_never_bogus m' _ d)) as (s' & -> & _ & _ & Ho).
      intros [= <- <-]. split; [|done]. split; [by right|done].
  - destruct (listed_probe_accepts (S := Memory) uuid m Hi Hfresh) as (s' & -> & _ & Ho). intros [= <- <-]. split; [|done]. split; [by left|done].
Qed.

Lemma VerifyBackend_exact_witness :
  (VerifyBackend ConditionalHead "u" NewMemory).2 = None ∧
  ((VerifyBackend ConditionalHead "u" NewUnconditionalMemory).2 = None ↔ ConditionalHead = AppendHead ∨ mem_unconditional NewUnconditionalMemory = false) ∧
  (VerifyBackend AppendHead "u" NewUnconditionalMemory).2 = None.
Proof.
  split; [vm_compute; reflexivity|]. split; [|vm_compute; reflexivity].
  eapply VerifyBackend_exact; [|intros k [o Hk]; cbn [NewUnconditionalMemory mem_objects] in Hk; by rewrite lookup_empty in Hk|apply surjective_pairing].
  split; [done|]. split; [intros k o Hk; cbn [NewUnconditionalMemory mem_objects] in Hk; by rewrite lookup_empty in Hk|].
  split; [intros k e d Hin; by apply elem_of_nil in Hin|intros k1 k2 e d1 d2 Hin; by apply elem_of_nil in Hin].
Defined.

(** A mode is read from its own name, in any case and between spaces. *)
Lemma ParseHeadMode_name mode : ParseHeadMode (mode_name mode) = Ok mode.
Proof. by destruct mode. Qed.

Example ParseHeadMode_spelling : ParseHeadMode " Append "%string = Ok AppendHead ∧ ParseHeadMode EmptyString = Ok ConditionalHead ∧ is_ok (ParseHeadMode "appended"%string) = false.
Proof. by vm_compute. Qed.
