(* ===== verification/Command.v ===== *)
(** * The volume commands ([cmd/satchel/vol.go])

    Each command as a function of its options and the world: what it prints,
    as data and not as text, the error it returns and the world it leaves.
    The heads, the store and the clock are those of [Volumes.v]; the files a
    restore touches are a map from paths. *)
From S2P Require Import Prelude Extents Codec Segment Types Store Head Manifest Plan Lease Volumes Garbage Verify File Options S3 Startup.
Local Open Scope Z_scope.

Record volOptions : Type := mkVolOptions { vo_s3 : S3Config; vo_head : string; vo_settle : Z }.

(** The part of a [Remote] that the options choose; the store is [NewS3] of
    the configuration. *)
Record RemoteConfig : Type := mkRemoteConfig { rc_Store : S3Config; rc_Head : HeadMode; rc_Settle : Z }.

Definition buildRemote (opts : volOptions) : result RemoteConfig :=
  _ ← fail_if (bool_decide (cfg_Bucket (vo_s3 opts) = EmptyString)) (Errorf "--s3-bucket (SATCHEL_S3_BUCKET) is required");
  mode ← wrap_err "--s3-head" (ParseHeadMode (vo_head opts));
  Ok (mkRemoteConfig (vo_s3 opts) mode (vo_settle opts)).

(** ** What is printed *)
Inductive line : Type :=
  | VolumeLine (name : string) (size : Z) (filesystem : string) (generation : Z) (holder : string)
  | StateLine (name id : string) (size : Z) (filesystem : string) (generation : Z)
  | LeaseLine (holder : string) (epoch expires : Z)
  | UnlockedLine
  | NoLeaseLine (name : string)
  | BrokenLine (name holder : string)
  | CollectedLine (marked deleted : Z)
  | ReportLine (manifests bundles refs external bytes : Z)
  | TruncatedLine (generation : Z)
  | ProblemLine (problem : error)
  | RestoredLine (name : string) (generation : Z) (path : string)
  | ConfirmRemoval (name : string)
  | ConfirmBreak (name holder : string) (expires : Z).

(** [answer, _ := bufio.NewReader(in).ReadString('\n')] *)
Fixpoint ReadLine (input : string) : string :=
  match input with
  | EmptyString => EmptyString
  | String c rest => if Ascii.eqb c (Ascii.ascii_of_nat 10) then String c EmptyString else String c (ReadLine rest)
  end.

Definition lease_line (record : LeaseRecord) : line := LeaseLine (Holder record) (lease_Epoch record) (ExpiresAt record).

(** [sort.Slice] by name: [name_le] orders the states. *)
Definition name_le (a b : State) : Prop := String.le (st_Name a) (st_Name b).
#[export] Instance name_le_dec : RelDecision name_le := fun a b => decide (String.le (st_Name a) (st_Name b)).

(** The files of the host, by path. *)
Abbreviation files := (gmap string bytes).

Section commands.
Context {S : Type} `{Store S} `{VolumeHead S} `{Digest} `{Gzip} `{Json State} `{Json Manifest} `{Json manifestBundle} `{Json gcRecord}.
Implicit Types w : World (S := S).

Definition outcome : Type := World (S := S) * list line * option error.

(** Every command builds its remote first and stops when it cannot. *)
Definition on_remote (opts : volOptions) (run : RemoteConfig → World → outcome) w : outcome :=
  match buildRemote opts with Err e => (w, [], Some e) | Ok remote => run remote w end.

(** ** [satchel vol ls] *)

Definition volume_line (now : Z) (state : State) : line :=
  VolumeLine (st_Name state) (st_Size state) (st_Filesystem state) (st_Generation state)
    (match st_Lease state with Some record => if time_After (ExpiresAt record) now then Holder record else "-" | None => "-" end).

(** The clock is read for every volume that has a lease. *)
Fixpoint print_volumes (states : list State) w : World * list line :=
  match states with
  | [] => (w, [])
  | state :: states =>
      let '(w, t) := match st_Lease state with Some _ => now w | None => (w, 0) end in
      let '(w, lines) := print_volumes states w in (w, volume_line t state :: lines)
  end.

Definition vol_ls (opts : volOptions) : World → outcome :=
  on_remote opts (fun remote w =>
    match ListVolumes (rc_Head remote) w with
    | (w, Err e) => (w, [], Some e)
    | (w, Ok states) => let '(w, lines) := print_volumes (merge_sort name_le states) w in (w, lines, None)
    end).

(** ** [satchel vol inspect], [satchel vol lease status] *)

Definition vol_inspect (opts : volOptions) (name : string) : World → outcome :=
  on_remote opts (fun _ w =>
    match Inspect name w with
    | (w, Err e) => (w, [], Some e)
    | (w, Ok (state, _)) =>
        (w, StateLine (st_Name state) (st_ID state) (st_Size state) (st_Filesystem state) (st_Generation state) ::
            match st_Lease state with Some record => [lease_line record] | None => [] end, None)
    end).

Definition lease_status (opts : volOptions) (name : string) : World → outcome :=
  on_remote opts (fun _ w =>
    match Inspect name w with
    | (w, Err e) => (w, [], Some e)
    | (w, Ok (state, _)) => (w, [match st_Lease state with None => UnlockedLine | Some record => lease_line record end], None)
    end).

(** ** [satchel vol verify] *)

(** [fetched] are the answers of the store to the reads of the walk. *)
Definition vol_verify (fetched : string → result bytes) (fuel : nat) (opts : volOptions) (deep : bool) (name : string) : World → outcome :=
  on_remote opts (fun _ w =>
    match Inspect name w with
    | (w, Err e) => (w, [], Some e)
    | (w, Ok (state, _)) =>
        let report := VerifyMetadataWithOptions fetched fuel state (mkVerifyOptions deep) in
        (w, ReportLine (vr_Manifests report) (vr_Bundles report) (vr_RefsChecked report) (vr_ExternalObjects report) (vr_BytesFetched report) ::
            (if vr_TruncatedBelowCheckpoint report then [TruncatedLine (vr_OldestGeneration report)] else []) ++ (ProblemLine <$> vr_Problems report),
         match vr_Problems report with [] => None | _ => Some (Errorf "found %d metadata problems") end)
    end).

(** ** [satchel vol restore] *)

(** What the operating system and [time.Parse] answer: [re_stat] an error of
    [os.Stat] other than a missing file, [re_timestamp] the time that the flag
    [--timestamp] gives ([None] when it is empty), [re_temp] the name of the new
    scratch file, [re_partial] what a restore that failed has left in it. *)
Record restore_env : Type := mkRestoreEnv {
  re_stat : option error;
  re_timestamp : option (result Z);
  re_temp : result string;
  re_partial : bytes;
  re_rename : option error;
}.

Definition restore_options (env : restore_env) (generation : Z) : result RestoreOptions :=
  match re_timestamp env with
  | None => Ok (mkRestoreOptions generation zero_time)
  | Some parsed => t ← wrap_err "--timestamp must be RFC3339" parsed; Ok (mkRestoreOptions generation t)
  end.

(** From the scratch file on; the deferred [os.Remove] comes last. *)
Definition restore_through (fetched : string → result bytes) (fuel : nat) (created : result (list IOutcome))
    (schedule : list ObjectRef → list ObjectRef) (env : restore_env)
    (name dest partial : string) (opts : RestoreOptions) (fs : files) w : outcome * files :=
  let '(w, restored) := RestoreWithOptions fetched fuel created schedule name opts w in
  let '(done, fs) :=
    match restored with
    | Ok (state, Ok (image, None)) =>
        let fs := <[partial := content image]> fs in
        match re_rename env with
        | Some e => ((w, [], Some (Wrap "finalize restore" e)), fs)
        | None => ((w, [RestoredLine (st_Name state) (st_Generation state) dest], None), <[dest := content image]> (delete partial fs))
        end
    | Ok (_, Ok (image, Some e)) => ((w, [], Some e), <[partial := content image]> fs)
    | Ok (_, Err e) | Err e => ((w, [], Some e), <[partial := re_partial env]> fs)
    end in
  (done, delete partial fs).

Definition vol_restore (fetched : string → result bytes) (fuel : nat) (created : result (list IOutcome))
    (schedule : list ObjectRef → list ObjectRef) (env : restore_env)
    (opts : volOptions) (generation : Z) (name dest : string) (fs : files) w : outcome * files :=
  match buildRemote opts with
  | Err e => ((w, [], Some e), fs)
  | Ok _ =>
      match fs !! dest, re_stat env with
      | Some _, _ => ((w, [], Some (Errorf "destination %s already exists")), fs)
      | None, Some e => ((w, [], Some e), fs)
      | None, None =>
          match restore_options env generation with
          | Err e => ((w, [], Some e), fs)
          | Ok restoreOpts =>
              match re_temp env with
              | Err e => ((w, [], Some e), fs)
              | Ok partial => restore_through fetched fuel created schedule env name dest partial restoreOpts (<[partial := []]> fs) w
              end
          end
      end
  end.

(** ** [satchel vol rm], [satchel vol lease break] *)

(** Whether the command goes on, and what it asks. *)
Definition confirmed (yes : bool) (input expected : string) : bool := yes || bool_decide (TrimSpace (ReadLine input) = expected).

Definition vol_rm (opts : volOptions) (yes : bool) (input name : string) : World → outcome :=
  on_remote opts (fun _ w =>
    let asked := if yes then [] else [ConfirmRemoval name] in
    if negb (confirmed yes input name) then (w, asked, Some (Errorf "confirmation did not match; volume left intact")) else
    let '(w, r) := Delete name w in (w, asked, match r with Ok _ => None | Err e => Some e end)).

Definition lease_break (opts : volOptions) (yes : bool) (input name : string) : World → outcome :=
  on_remote opts (fun _ w =>
    match Inspect name w with
    | (w, Err e) => (w, [], Some e)
    | (w, Ok (state, _)) =>
        match st_Lease state with
        | None => (w, [NoLeaseLine name], None)
        | Some record =>
            let asked := if yes then [] else [ConfirmBreak name (Holder record) (ExpiresAt record)] in
            if negb (confirmed yes input (Holder record)) then (w, asked, Some (Errorf "confirmation did not match; lease left intact")) else
            match Break name (Token record) w with
            | (w, Err e) => (w, asked, Some e)
            | (w, Ok _) => (w, asked ++ [BrokenLine name (Holder record)], None)
            end
        end
    end).

(** ** [satchel vol gc] *)

(** The heartbeat runs beside the collection: what it does to the lease is in
    the events of the world, [heartbeatErr] is what it reported.  [id] and
    [token] are fresh UUIDs, [waited] the outcome of waiting for the background
    bundle in [Release].  The remote has no TTL of its own. *)
Definition vol_gc (fetched : string → result bytes) (fuel : nat) (hostname id token : string) (heartbeatErr waited : option error)
    (opts : volOptions) (gc : GCOptions) (name : string) : World → outcome :=
  on_remote opts (fun _ w =>
    match Acquire 0 name ("gc@" +:+ hostname) id token (mkCreateOptions 0 EmptyString) w with
    | (w, Err e) => (w, [], Some e)
    | (w, Ok (lease, _)) =>
        let w := on_lease (fun _ => lease) w in
        let '(w, collected, collectErr) := CollectGarbage fetched fuel gc w in
        let '(w, released) := lease_Release waited w in
        match errors_Join collectErr (errors_Join heartbeatErr (match released with Err e => Some e | Ok _ => None end)) with
        | Some e => (w, [], Some e)
        | None => (w, [CollectedLine (gcr_Marked collected) (gcr_Deleted collected)], None)
        end
    end).
End commands.
