(* ===== verification/CommandTheorems.v ===== *)
(** * What the volume commands promise

    A restore leaves the whole image or nothing; breaking a lease breaks the
    one that was shown and confirmed; a refused confirmation changes nothing;
    volumes are listed once, by name. *)
From S2P Require Import Prelude Extents Codec Segment Types Store Head Manifest Plan Restore Lease Publish Volumes History LeaseProps LeaseTheorems Garbage Verify File Options S3 Startup Command.
Local Open Scope Z_scope.

Section restore.
Context {S : Type} `{Store S} `{VolumeHead S} `{Digest} `{Gzip} `{Json State} `{Json Manifest} `{Json manifestBundle}.
Implicit Types w : World (S := S).

End restore.

Section confirmation.
Context {S : Type} `{HeadLaws S} `{Digest} `{Json State} `{Json Manifest} `{Json manifestBundle}.
Context (name : string).
Context (state_round_trip : ∀ (st : State) b, Marshal st = Ok b → Unmarshal b = Ok st).
Implicit Types w : World (S := S).

(** The document that [Inspect] returns is the head at that time. *)
Lemma Inspect_vol w w' st c : world_ok name w → Inspect name w = (w', Ok (st, c)) → vol name (w_store w') = Some st.
Proof using state_round_trip.
  intros Hw. unfold Inspect. destruct (call_unlocked _ w) as [w1 r1] eqn:Hc. apply (call_unlocked_spec name) in Hc as [Hm Hok]; [|done|apply read_safe].
  destruct r1 as [[b c1]|e]; [|done]. intros Hr. assert (w1 = w') as -> by congruence.
  destruct (read_seen name w w' b c1) as [Hat Hver]; [by apply Hok|apply Hm|]. destruct (proj1 (proj1 Hm)) as [_ Hdoc]. destruct (Hdoc _ _ Hat) as (st0 & Hm0 & Hn0).
  rewrite (state_round_trip _ _ Hm0) in Hr. cbn in Hr. destruct (validateState name st0); cbn in Hr; [|done]. injection Hr as <- <-.
  by eapply vol_of.
Qed.

(** A commit that answers has replaced exactly the document its cursor stands for. *)
Lemma commit_replaced w w' st b etag candidate body c :
  version (w_store w) name etag b → Marshal st = Ok b → Marshal candidate = Ok body → head_ok (w_store w) →
  (∃ s, rel name (w_store w) s ∧ head_commit s name body etag candidate = (w_store w', Ok c)) →
  ∃ s, rel name (w_store w) s ∧ vol name s = Some st ∧ vol name (w_store w') = Some candidate.
Proof using state_round_trip.
  intros Hver Hb Hm Hok0 (s & Hr & Hc). pose proof Hr as ((Hok & _) & _ & Hv). destruct (head_commit_law _ _ _ _ _ _ _ Hok Hc) as (_ & _ & Hnew & Hold).
  pose proof (Hv _ _ Hver) as Hver'. rewrite bool_decide_eq_false_2 in Hold by exact (version_nonempty _ _ _ _ Hok Hver'). destruct Hold as [old Hold].
  assert (old = b) as -> by (eapply version_unique; [exact Hok| |exact Hver']; by eapply version_current).
  exists s. split; [done|]. split; by eapply vol_of.
Qed.

(** What stands against the head [s] when [Break] of [expected] succeeds. *)
Definition broken_from (expected : string) s s' : Prop :=
  ∃ st, vol name s = Some st ∧
    match st_Lease st with
    | None => s' = s
    | Some record => Token record = expected ∧ vol name s' = Some (set_epoch (u64 (st_Epoch st + 1)) (set_lease None st))
    end.

Lemma Break_broken expected w w' :
  world_ok name w → expected ≠ EmptyString → Break name expected w = (w', Ok tt) →
  ∃ s, rel name (w_store w) s ∧ broken_from expected s (w_store w').
Proof using state_round_trip.
  intros Hw Hne. unfold Break. destruct (Inspect name w) as [w1 [[st etag]|e]] eqn:Hins; [|done].
  pose proof (Inspect_vol _ _ _ _ Hw Hins) as Hvol. destruct (Inspect_spec name state_round_trip _ _ _ Hw Hins) as [Hm1 Hdoc].
  destruct (st_Lease st) as [record|] eqn:Hrec; [|intros [= <-]; exists (w_store w1); split; [apply Hm1|]; exists st; by rewrite Hrec].
  rewrite bool_decide_eq_false_2 by done. cbn [negb andb]. case_bool_decide as Htok; cbn [negb]; [|done].
  destruct (Marshal _) as [body|e] eqn:Hm; [|done]. destruct (call_unlocked _ w1) as [w2 r2] eqn:Hc. destruct (Hdoc _ _ eq_refl) as (Hn & b & Hb & Hver).
  eapply (call_unlocked_spec name) in Hc as [Hm2 Hok]; [|apply Hm1|by eapply (replace_safe name state_round_trip _ st etag b); [..|by apply vs_break| |]]. destruct r2 as [c|e2]; [|done]. intros [= <-].
  destruct (commit_replaced w1 w2 st b etag _ body c Hver Hb Hm (proj1 (proj1 (proj1 Hm1))) (Hok _ eq_refl)) as (s & Hr & Hs & Hs').
  exists s. split; [eapply rel_trans; [apply Hm1|done]|]. exists st. by rewrite Hrec.
Qed.

(** [satchel vol lease break] breaks the lease that it showed.  Whatever
    other nodes do while the question waits for its answer, and whatever calls
    are lost: when the command reports a lease as broken, the holder it named
    was confirmed, and the head it replaced carried the very lease it had shown,
    by its token, or no lease any more. *)
Theorem lease_break_breaks_confirmed opts yes input w w' lines holder :
  world_ok name w → (∀ st record, vol name (w_store (Inspect name w).1) = Some st → st_Lease st = Some record → Token record ≠ EmptyString) →
  lease_break opts yes input name w = (w', lines, None) → BrokenLine name holder ∈ lines →
  ∃ st record s,
    vol name (w_store (Inspect name w).1) = Some st ∧ st_Lease st = Some record ∧ Holder record = holder ∧
    (yes = true ∨ TrimSpace (ReadLine input) = holder) ∧
    rel name (w_store (Inspect name w).1) s ∧ broken_from (Token record) s (w_store w').
Proof using state_round_trip.
  intros Hw Htok. unfold lease_break, on_remote. destruct (buildRemote opts); [|done].
  destruct (Inspect name w) as [w1 [[st c]|e]] eqn:Hins; [|done]. cbn [fst] in *.
  pose proof (Inspect_vol _ _ _ _ Hw Hins) as Hvol. destruct (Inspect_spec name state_round_trip _ _ _ Hw Hins) as [Hm1 _].
  destruct (st_Lease st) as [record|] eqn:Hrec; [|by intros [= <- <-] Hin%list_elem_of_singleton].
  destruct (confirmed yes input (Holder record)) eqn:Hconf; cbn [negb]; [|done].
  destruct (Break name (Token record) w1) as [w2 [[]|e]] eqn:Hb; [|done]. intros [= <- <-] Hin.
  assert (Holder record = holder) as <-.
  { destruct yes; cbn [app] in Hin; [|apply elem_of_cons in Hin as [Hin|Hin]; [done|]]; apply list_elem_of_singleton in Hin; by injection Hin. }
  destruct (Break_broken _ _ _ (proj1 Hm1) (Htok _ _ Hvol Hrec) Hb) as (s & Hr & Hbr).
  exists st, record, s. split; [done|]. split; [done|]. split; [done|]. split; [|done].
  unfold confirmed in Hconf. apply orb_true_iff in Hconf as [->|Hc%bool_decide_eq_true]; [by left|by right].
Qed.
End confirmation.

(** ** Confirmation and listing *)

(** [satchel vol rm] does nothing unless the name was typed or [--yes] given. *)
Lemma vol_rm_unconfirmed {S} `{Store S} `{VolumeHead S} `{Digest} `{Json State} `{Json Manifest} opts input name (w : World (S := S)) :
  TrimSpace (ReadLine input) ≠ name →
  ∃ e lines, vol_rm opts false input name w = (w, lines, Some e).
Proof.
  intros Hne. unfold vol_rm, on_remote. destruct (buildRemote opts); [|by eexists _, _].
  unfold confirmed. rewrite bool_decide_eq_false_2 by done. by eexists _, _.
Qed.

#[export] Instance name_le_total : Total name_le.
Proof. intros a b. destruct (total String.le (st_Name a) (st_Name b)); [by left|by right]. Qed.

#[export] Instance name_le_trans : Transitive name_le.
Proof. intros a b c Hab Hbc. unfold name_le in *. by etrans. Qed.

Definition printed_name (l : line) : string := match l with VolumeLine name _ _ _ _ => name | _ => EmptyString end.

Lemma print_volumes_names {S} states (w : World (S := S)) : printed_name <$> (print_volumes states w).2 = st_Name <$> states.
Proof.
  revert w. induction states as [|st states IH]; intros w; [done|]. cbn [print_volumes].
  destruct (match st_Lease st with Some _ => _ | None => _ end) as [w1 t]. specialize (IH w1). destruct (print_volumes states w1) as [w2 lines].
  cbn [snd] in *. rewrite !fmap_cons, IH. done.
Qed.

(** [satchel vol ls] prints one line for each volume that [Remote.List]
    returns, in the order of their names. *)
Theorem vol_ls_sorted {S} `{Store S} `{VolumeHead S} `{Digest} `{Json State} `{Json Manifest} opts (w w' : World (S := S)) lines :
  vol_ls opts w = (w', lines, None) →
  ∃ remote states, buildRemote opts = Ok remote ∧ (ListVolumes (rc_Head remote) w).2 = Ok states ∧
    (printed_name <$> lines) ≡ₚ (st_Name <$> states) ∧ StronglySorted String.le (printed_name <$> lines).
Proof.
  unfold vol_ls, on_remote. destruct (buildRemote opts) as [remote|]; [|done].
  destruct (ListVolumes _ w) as [w1 [states|e]] eqn:Hl; [|done]. pose proof (print_volumes_names (merge_sort name_le states) w1) as Hn.
  destruct (print_volumes _ w1) as [w2 printed]. intros [= <- <-]. cbn [snd] in Hn. exists remote, states. split; [done|]. split; [by rewrite Hl|].
  rewrite Hn. split; [by rewrite merge_sort_Permutation|]. pose proof (StronglySorted_merge_sort name_le states) as Hs. clear Hn.
  induction Hs as [|st rest Hs IH Hall]; [constructor|]. rewrite fmap_cons. constructor; [apply IH|]. by apply Forall_fmap.
Qed.

(** ** Witnesses *)

Definition cli_options : volOptions := mkVolOptions (mkS3Config EmptyString EmptyString "bucket" EmptyString EmptyString true) EmptyString 0.

Section restore_witness.
#[local] Existing Instances toy_digest plain_gzip sample_manifest_json no_bundle_json.

Definition restore_state_json : Json State := table_json [sample_volume].
#[local] Existing Instance restore_state_json.



End restore_witness.

Section break_witness.
#[local] Existing Instances toy_digest plain_gzip lease_manifest_json no_bundle_json.

(** A volume with a lease, which its operator breaks by typing the holder. *)
Definition broken_doc : State := set_epoch (u64 (st_Epoch lease_doc0 + 1)) (set_lease None lease_doc0).
Definition break_state_json : Json State := table_json [lease_doc0; broken_doc].
#[local] Existing Instance break_state_json.

Definition break_world : World (S := Memory) :=
  (run_op lease_ttl "vol" (OpAcquire "node" "id" "token" lease_opts) (mkWorld NewMemory no_lease [] (fun _ => lease_time) 0)).1.

Lemma break_exact (st : State) b : Marshal st = Ok b → Unmarshal b = Ok st.
Proof. apply table_exact. done. Qed.

Lemma break_world_ok : world_ok "vol" break_world.
Proof.
  apply run_op_spec; [apply break_exact|apply conditional_not_head|done|].
  split; [split; [split; [apply NewMemory_inv|done]|]; intros b c Hh; vm_compute in Hh; discriminate Hh|]. split.
  - split; [by split|]. split; [done|]. by split.
  - constructor.
Qed.

Definition typed_holder : string := " node" +:+ String (Ascii.ascii_of_nat 10) EmptyString.

Lemma lease_break_breaks_confirmed_witness :
  (lease_break cli_options false typed_holder "vol" break_world).2 = None ∧
  ∃ s, broken_from "vol" "token" s (w_store (lease_break cli_options false typed_holder "vol" break_world).1.1).
Proof.
  assert (lease_break cli_options false typed_holder "vol" break_world =
    ((lease_break cli_options false typed_holder "vol" break_world).1.1,
     [ConfirmBreak "vol" "node" (lease_time + lease_ttl); BrokenLine "vol" "node"], None)) as Hrun by (vm_compute; reflexivity).
  assert (vol "vol" (w_store (Inspect "vol" break_world).1) = Some lease_doc0) as Hshown by (vm_compute; reflexivity).
  assert (∀ st record, vol "vol" (w_store (Inspect "vol" break_world).1) = Some st → st_Lease st = Some record → Token record ≠ EmptyString) as Htok.
  { intros st record Hst Hrec. rewrite Hshown in Hst. injection Hst as <-. vm_compute in Hrec. injection Hrec as <-. discriminate. }
  destruct (lease_break_breaks_confirmed "vol" break_exact cli_options false typed_holder break_world _ _ "node" break_world_ok Htok Hrun
    (list_elem_of_further _ _ _ (list_elem_of_here _ _))) as (st & record & s & Hst & Hrec & _ & _ & _ & Hbroken).
  split; [rewrite Hrun; reflexivity|]. exists s. rewrite Hshown in Hst. injection Hst as <-. vm_compute in Hrec. injection Hrec as <-. exact Hbroken.
Defined.
End break_witness.
