(* ===== verification/MountCommand.v ===== *)
(** * Running the driver ([cmd/satchel/plugin.go], [cmd/satchel/mount.go])

    The options and their defaults from the environment, what has to be in
    order before a driver is built, and [satchel mount], which mounts one volume
    until it is interrupted, as a program of driver requests. *)
From S2P Require Import Prelude Extents Codec Segment Types Store Head Options S3 Startup Command Metrics Driver Registry.
Local Open Scope Z_scope.

(** ** Options *)

Record pluginOptions : Type := mkPluginOptions {
  po_nodeID : string; po_stateDir : string; po_journalDir : string; po_leaseTTL : Z; po_syncInterval : Z; po_checkpointInterval : Z;
  po_historyRetention : Z; po_gcGrace : Z; po_s3 : S3Config; po_s3Head : string; po_s3Settle : Z; po_logLevel : string; po_dirtyLimit : string;
}.

(** [getenv key] is empty for a variable that is not set. *)
Section environment.
Context (getenv : string → string) (ParseDuration : string → option Z).

Definition envOr (key fallback : string) : string := if streq (getenv key) "" then fallback else getenv key.

Definition envDurationOr (key : string) (fallback : Z) : Z :=
  if streq (getenv key) "" then fallback else default fallback (ParseDuration (getenv key)).

Definition envUint64Or (key : string) (fallback : Z) : Z :=
  if streq (getenv key) "" then fallback else default fallback (ParseUint (getenv key)).

(** The defaults that [bindS3Flags] gives its flags: the configuration, the
    head and the settle window. *)
Definition bindS3Flags : S3Config * string * Z :=
  (mkS3Config (envOr "SATCHEL_S3_ENDPOINT" "") (envOr "SATCHEL_S3_REGION" "us-east-1") (envOr "SATCHEL_S3_BUCKET" "")
     (envOr "SATCHEL_S3_ACCESS_KEY" (getenv "AWS_ACCESS_KEY_ID")) (envOr "SATCHEL_S3_SECRET_KEY" (getenv "AWS_SECRET_ACCESS_KEY"))
     (streq (envOr "SATCHEL_S3_PATH_STYLE" "true") "true"),
   envOr "SATCHEL_S3_HEAD" (mode_name ConditionalHead), envDurationOr "SATCHEL_S3_SETTLE" DefaultSettle).

Definition bindPluginFlags (hostname : string) : pluginOptions :=
  let '(s3, head, settle) := bindS3Flags in
  mkPluginOptions (envOr "SATCHEL_NODE_ID" hostname) (envOr "SATCHEL_STATE_DIR" "/var/lib/satchel") (envOr "SATCHEL_JOURNAL_DIR" "")
    (envDurationOr "SATCHEL_LEASE_TTL" (30 * second)) (envDurationOr "SATCHEL_SYNC_INTERVAL" (5 * second))
    (envUint64Or "SATCHEL_CHECKPOINT_INTERVAL" 128) (envDurationOr "SATCHEL_HISTORY_RETENTION" (7 * 24 * 3600 * second))
    (envDurationOr "SATCHEL_GC_GRACE" (24 * 3600 * second)) s3 head settle (envOr "SATCHEL_LOG_LEVEL" "info") (envOr "SATCHEL_DIRTY_LIMIT" "256MiB").
End environment.

(** ** [buildDriver]

    [known] says which levels [slog.Level.UnmarshalText] accepts, [dirs] are the
    answers to the creation of the driver's directories, [entries] the files of
    the registry. *)
Section build.
Context {S : Type} `{Store S}.

Definition plugin_config (opts : pluginOptions) (dirtyLimit : Z) : DriverConfig :=
  mkDriverConfig (po_nodeID opts) (po_stateDir opts) (po_journalDir opts) dirtyLimit (po_syncInterval opts) (po_checkpointInterval opts)
    (po_historyRetention opts) (po_gcGrace opts) true.

Definition buildDriver (known : string → bool) (uuid : string) (dirs : list (option error)) (entries : result (list (result volumeRecord))) (opts : pluginOptions) (s : S)
    : S * result (HeadMode * DriverConfig * Registry) :=
  if negb (known (po_logLevel opts)) then (s, Err (Errorf "invalid log level %q")) else
  if streq (cfg_Bucket (po_s3 opts)) "" then (s, Err (Errorf "--s3-bucket (SATCHEL_S3_BUCKET) is required")) else
  match ParseHeadMode (po_s3Head opts) with
  | Err e => (s, Err (Wrap "--s3-head" e))
  | Ok headMode =>
      match VerifyBackend headMode uuid s with
      | (s, Some e) => (s, Err (Wrap "S3 backend %s is unusable with the %s head" e))
      | (s, None) =>
          (s, dirtyLimit ← wrap_err "--dirty-limit" (ParseBytes (po_dirtyLimit opts));
              '(config, registry) ← New (plugin_config opts dirtyLimit) true true dirs entries;
              Ok (headMode, config, registry))
      end
  end.
End build.

(** ** [satchel mount] *)

Definition EBUSY : error := Errorf "device or resource busy".

(** The options that were given on the command line. *)
Definition mount_options (size durability seed : option string) : list (string * string) :=
  match size with Some v => [("size"%string, v)] | None => [] end ++
  match durability with Some v => [("durability"%string, v)] | None => [] end ++
  match seed with Some v => [("seed"%string, v)] | None => [] end.

Section mount.
Context `{Digest} (cfg : Config) (ParseDuration : string → option Z).

(** The handlers [Mount] and [Unmount] of the driver. *)
Definition driver_request (name : string) (op : mount_op) (id : string) (d : Registry) : prog (Registry * response) :=
  '(d, r) ← lookup_volume name d;
  match r with
  | Err e => Ret (d, Finished (Some e))
  | Ok v => request_mount cfg v id op d
  end.

Definition mount_id : string := "satchel-mount".

(** [retryBusyUnmount]: [waits] says of every wait between two attempts whether
    the timer ended it ([true]) or the context.  [None] is a command that still
    waits when [waits] has run out. *)
Fixpoint retryBusyUnmount (waits : list bool) (unmount : Registry → prog (Registry * option error)) (d : Registry)
    : prog (Registry * option (option error)) :=
  '(d, err) ← unmount d;
  match err with
  | None => Ret (d, Some None)
  | Some e =>
      if negb (errors_Is e EBUSY) then Ret (d, Some (Some e)) else
      match waits with
      | [] => Ret (d, None)
      | false :: _ => Ret (d, Some (Some (Joined e ErrCanceled)))
      | true :: waits => retryBusyUnmount waits unmount d
      end
  end.

Definition driver_unmount (name : string) (d : Registry) : prog (Registry * option error) :=
  '(d, r) ← driver_request name (OpUnmount mount_id) mount_id d;
  Ret (d, match r with Mounted _ => None | Finished err => err end).

(** [waitForUnmount]; [fenced] is the cause when the lease is lost before the
    signal comes: the heartbeat fences mount [mounted] of the volume. *)
Definition waitForUnmount (fenced : option error) (waits : list bool) (name mounted : string) (d : Registry)
    : prog (Registry * option (option error)) :=
  d ← match fenced, rg_volumes d !! name with
      | Some cause, Some v => '(d, _) ← touch_mount cfg v mounted (OpFence cause) d; Ret d
      | _, _ => Ret d
      end;
  retryBusyUnmount waits (driver_unmount name) d.

(** [runMount] after the driver is built. *)
Definition mount_created (fenced : option error) (waits : list bool) (name : string) (volumeOpts : list (string * string)) (d : Registry)
    : prog (Registry * option (option error)) :=
  '(d, err) ← Create ParseDuration name volumeOpts d;
  match err with
  | Some e => Ret (d, Some (Some e))
  | None =>
      '(d, r) ← driver_request name (OpMount mount_id) mount_id d;
      match r with
      | Mounted mounted => waitForUnmount fenced waits name mounted d
      | Finished err => Ret (d, Some err)
      end
  end.

Definition runMount (fenced : option error) (waits : list bool) (name : string) (volumeOpts : list (string * string)) (d : Registry)
    : prog (Registry * option (option error)) :=
  if negb (bool_decide (volumeOpts = [])) then mount_created fenced waits name volumeOpts d else
  '(d, r) ← driver_request name (OpMount mount_id) mount_id d;
  match r with
  | Mounted mounted => waitForUnmount fenced waits name mounted d
  | Finished (Some e) => if errors_Is e ErrVolumeNotFound then mount_created fenced waits name volumeOpts d else Ret (d, Some (Some e))
  | Finished None => Ret (d, Some None)
  end.
End mount.
