(* ===== verification/MountTheorems.v ===== *)
(** * Running the driver: theorems

    When a driver is built, and what [satchel mount] leaves behind. *)
From S2P Require Import Prelude Extents Codec Segment Types Store Head HeadProps Options S3 S3Theorems Startup Command Metrics Driver DriverProps DriverTheorems Registry RegistryTheorems DriverWitness MountCommand.
Local Open Scope Z_scope.

(** ** Building a driver *)

Section building.
Context {S : Type} `{ConditionalStore S}.
Implicit Types s : S.

(** The key of the probe is new, and the tag it makes up is none of the store's. *)
Definition probe_fresh (uuid : string) s : Prop :=
  (∀ k, is_Some (objects s !! k) → HasPrefix k ("leases/.probe-" +:+ uuid) = false) ∧
  (∀ s' d, store_inv s' → ¬ tagged s' ("leases/.probe-" +:+ uuid) bogus_tag d).

Lemma VerifyBackend_accepts mode uuid s :
  store_inv s → honours s → probe_fresh uuid s → ∃ s', VerifyBackend mode uuid s = (s', None) ∧ objects s' = objects s.
Proof.
  intros Hi Hh [Hfresh Hbogus]. destruct mode; cbn [VerifyBackend].
  - assert (objects s !! ("leases/.probe-" +:+ uuid) = None) as Hnone.
    { destruct (_ !! _) eqn:Hk; [|done]. pose proof (HasPrefix_app ("leases/.probe-" +:+ uuid) EmptyString) as Hp.
      rewrite string_app_nil in Hp. by rewrite Hfresh in Hp. }
    destruct (conditional_probe_accepts uuid s Hi Hh Hnone Hbogus) as (s' & Hv & _ & _ & Ho). by exists s'.
  - destruct (listed_probe_accepts uuid s Hi Hfresh) as (s' & Hv & _ & Ho). by exists s'.
Qed.

(** C38: [buildDriver] succeeds exactly when everything it depends on is in order:
    the log level is known, there is a bucket, the head mode is one of the two and
    the backend passes its probe, the dirty limit is a size, the directories of the
    driver can be created and the registry can be listed and read.  A store that
    keeps the laws of its interface and honours preconditions, as the S3 store does
    over a service that keeps its own, passes the probe of either head, and is left
    with the objects it had. *)
Theorem buildDriver_exact known uuid dirs entries opts s s' r :
  store_inv s → probe_fresh uuid s → buildDriver known uuid dirs entries opts s = (s', r) →
  (is_ok r = true ↔
    known (po_logLevel opts) = true ∧ cfg_Bucket (po_s3 opts) ≠ EmptyString ∧
    (∃ mode, ParseHeadMode (po_s3Head opts) = Ok mode ∧ (VerifyBackend mode uuid s).2 = None) ∧
    is_ok (ParseBytes (po_dirtyLimit opts)) = true ∧ first_error dirs = None ∧
    ∃ es, entries = Ok es ∧ is_ok (loadRegistry es empty_registry) = true) ∧
  (honours s → (∀ mode, (VerifyBackend mode uuid s).2 = None) ∧ objects s' = objects s).
Proof.
  intros Hi Hfresh Hb.
  assert (honours s → ∀ mode, (VerifyBackend mode uuid s).2 = None ∧ objects (VerifyBackend mode uuid s).1 = objects s) as Hv.
  { intros Hh mode. by destruct (VerifyBackend_accepts mode uuid s Hi Hh Hfresh) as (s1 & -> & Ho). }
  split; [|intros Hh; split; [intros mode; by apply Hv|]].
  - revert Hb. unfold buildDriver. destruct (known _); cbn [negb]; [|intros [= <- <-]; by split; [|intros []]].
    unfold streq. case_bool_decide as Hbk; [intros [= <- <-]; by split; [|intros (_ & Hn & _)]|].
    destruct (ParseHeadMode _) as [mode|e]; [|intros [= <- <-]; by split; [|intros (_ & _ & (? & ? & _) & _)]].
    destruct (VerifyBackend mode uuid s) as [s1 [e|]] eqn:Hvb.
    + intros [= <- <-]. split; [done|]. intros (_ & _ & (mode' & [= <-] & Hm) & _). by rewrite Hvb in Hm.
    + intros [= <- <-]. destruct (ParseBytes _) as [limit|e]; cbn; [|by split; [|intros (_ & _ & _ & ? & _)]]. unfold New. cbn [negb].
      destruct (first_error dirs); [by split; [|intros (_ & _ & _ & _ & ? & _)]|].
      destruct entries as [es|e]; cbn; [|by split; [|intros (_ & _ & _ & _ & _ & ? & ? & _)]].
      destruct (loadRegistry es empty_registry) eqn:Hload; cbn; [|split; [done|intros (_ & _ & _ & _ & _ & es' & [= <-] & Hok); by rewrite Hload in Hok]].
      split; [|done]. intros _. split_and!; [done..| |done|done|exists es; by rewrite Hload]. exists mode. by rewrite Hvb.
  - revert Hb. unfold buildDriver. destruct (negb _); [by intros [= <- <-]|]. destruct (streq _ _); [by intros [= <- <-]|].
    destruct (ParseHeadMode _) as [mode|e]; [|by intros [= <- <-]]. destruct (Hv Hh mode) as [Hok Ho].
    destruct (VerifyBackend mode uuid s) as [s1 [e|]]; by intros [= <- <-].
Qed.
End building.

(** ** What a program returns, whatever it is answered *)

Fixpoint always {R : Type} (p : prog R) (Q : R → Prop) : Prop :=
  match p with
  | Ret r => Q r
  | Do c rest => ∀ a, always (rest a) Q
  end.

Lemma always_performs {R} (p : prog R) Q r : always p Q → performs p r → Q r.
Proof. induction p as [x|A c rest IH]; cbn; [by intros ? <-|]. intros Hp [a Ha]. by eapply IH. Qed.

Lemma always_bind {A B} (p : prog A) (f : A → prog B) Q : always p (fun a => always (f a) Q) → always (p ≫= f) Q.
Proof. induction p as [x|X c rest IH]; cbn; [done|]. intros Hp a. by apply IH. Qed.

Lemma always_mono {R} (p : prog R) (Q Q' : R → Prop) : (∀ r, Q r → Q' r) → always p Q → always p Q'.
Proof. intros Hq. induction p as [x|X c rest IH]; cbn; [by apply Hq|]. intros Hp a. by apply IH. Qed.

(** A part of which nothing has to be known. *)
Lemma always_any {A B} (p : prog A) (f : A → prog B) Q : (∀ a, always (f a) Q) → always (p ≫= f) Q.
Proof. intros Hf. apply always_bind. induction p as [x|X c rest IH]; cbn; [apply Hf|]. intros a. apply IH. Qed.

(** The next call, bind or case distinction of a program. *)
Ltac always_step := first
  [ progress cbn [always do or_fail or_exit ignore when_some]
  | progress cbv zeta
  | progress intros ?
  | match goal with
    | |- always (or_fail _ ?r _) _ => destruct r
    | |- always (or_exit _ ?r _) _ => destruct r
    | |- always (let '(_, _) := ?x in _) _ => destruct x
    | |- always (match ?x with _ => _ end) _ => destruct x
    end
  | apply always_any ].

Lemma performs_always {R} (p : prog R) Q : (∀ r, performs p r → Q r) → always p Q.
Proof. induction p as [x|A c rest IH]; cbn; [by auto|]. intros Hp a. apply IH. intros r Hr. apply Hp. by exists a. Qed.

(** ** One mount *)

(** Nobody but [satchel mount] uses the mount, and a mount that was fenced is
    not mounted. *)
Definition sole (m : mountState) : Prop := ms_mountIDs m ⊆ {[mount_id]} ∧ (ms_active m = true → ms_fenced m = None).

Definition keeps (m m' : mountState) : Prop := ms_mountIDs m' = ms_mountIDs m ∧ ms_fenced m' = ms_fenced m.

Section mount.
Context (cfg : Config).

Lemma mountFresh_keeps opts m : always (mountFresh cfg opts m) (fun r => keeps m r.1).
Proof.
  unfold mountFresh, mountReadOnly, cleanupMounted, releaseOnFailure. repeat always_step; done.
Qed.

Lemma unmountLast_idle m : always (unmountLast m) (fun r => keeps m r.1 ∧ (r.2 = None → ms_active r.1 = false)).
Proof.
  unfold unmountLast, close_unmounted, abandonUnmounted. repeat always_step; done.
Qed.

Lemma Mount_sole opts m : sole m → always (Mount cfg opts mount_id m) (fun r => sole r.1 ∧ r.2 ≠ Finished None).
Proof.
  intros Hm. pose proof Hm as [Hi Hf]. unfold Mount. destruct (ms_fenced m) eqn:Hfenced; [done|]. destruct (ms_active m) eqn:Ha.
  - split; [|done]. split; [cbn; set_solver|by cbn].
  - apply always_bind. eapply always_mono; [|apply mountFresh_keeps].
    intros [m' [e|]] [Hids Hfen]; cbn [fst] in *; (split; [|done]); (split; [|cbn; congruence]); cbn; rewrite Hids; set_solver.
Qed.

Lemma Unmount_sole m :
  sole m → always (Unmount mount_id m) (fun r => sole r.1 ∧ (∀ n, r.2 ≠ Mounted n) ∧ (r.2 = Finished None → ms_active r.1 = false)).
Proof.
  intros [Hi Hf]. unfold Unmount. set (m1 := with_ids _ m). assert (ms_mountIDs m1 = ∅) as Hempty by (cbn; set_solver).
  assert (ms_active m1 = ms_active m ∧ ms_fenced m1 = ms_fenced m) as [Ha1 Hf1] by done. cbn zeta. rewrite Hempty, Hf1.
  destruct (ms_fenced m) as [cause|] eqn:Hfenced.
  - rewrite bool_decide_eq_true_2 by done. assert (ms_active m = false) as Ha by (destruct (ms_active m); [by specialize (Hf eq_refl)|done]).
    split; [split; [cbn; set_solver|by cbn; rewrite Ha]|done].
  - rewrite bool_decide_eq_true_2 by done. cbn [negb]. rewrite orb_false_r, Ha1. destruct (ms_active m) eqn:Ha; cbn [negb].
    + apply always_bind. eapply always_mono; [|apply unmountLast_idle]. intros [m' err] [[Hids Hfen] Hidle]; cbn [fst snd] in *.
      split; [split; [cbn [fst]; rewrite Hids, Hempty; set_solver|cbn [fst]; by rewrite Hfen]|]. split; [done|]. intros [= ->]. by apply Hidle.
    + split; [split; [cbn [fst]; rewrite Hempty; set_solver|cbn [fst]; by rewrite Hf1]|]. split; [done|]. intros _. cbn. by rewrite Ha.
Qed.

Lemma fence_sole cause m : sole m → always (fence cause m) sole.
Proof.
  intros Hm. unfold fence. destruct (ms_active m) eqn:Ha; cbn [negb]; [|done]. repeat always_step; (split; [apply Hm|done]).
Qed.
End mount.

(** ** The registry *)

Section registry.
Context `{Digest} (cfg : Config) (ParseDuration : string → option Z) (name : string).

Definition all_mounts (P : nat → volumeState → string → mountState → Prop) (d : Registry) : Prop :=
  ∀ v st n m, rg_states d !! v = Some st → vs_mounts st !! n = Some m → P v st n m.

(** Only the mount that [satchel mount] asked for may be mounted. *)
Definition one_user (d : Registry) : Prop :=
  all_mounts (fun v st n m => sole m ∧ (ms_active m = true → rg_volumes d !! name = Some v ∧ n = mount_name st mount_id)) d.

Definition all_idle (d : Registry) : Prop := all_mounts (fun _ _ _ m => ms_active m = false) d.

Lemma register_one_user record d :
  rg_volumes d !! name ≫= (fun v => rg_states d !! v) = None → one_user d → one_user (register record d).
Proof.
  intros Hnone Hd v st n m [[Hlt Hst]|[-> <-]]%lookup_snoc_Some Hm; [|cbn in Hm; by rewrite lookup_empty in Hm].
  destruct (Hd v st n m Hst Hm) as [Hs Ha]. split; [done|]. intros Hact. destruct (Ha Hact) as [Hv _]. rewrite Hv in Hnone. cbn in Hnone. congruence.
Qed.

Lemma lookup_one_user d :
  one_user d → always (lookup_volume name d) (fun r => one_user r.1 ∧ ∀ v, r.2 = Ok v → rg_volumes r.1 !! name = Some v).
Proof.
  intros Hd. apply performs_always. intros [d' r] Hr. apply lookup_returns in Hr as [[-> Hv]|(Hnone & record & Hn & -> & ->)]; [done|].
  split; [apply register_one_user; [by rewrite Hnone|done]|]. intros v [= <-]. cbn. by rewrite Hn, lookup_insert_eq.
Qed.

Lemma Create_one_user options d : one_user d → always (Create ParseDuration name options d) (fun r => one_user r.1).
Proof.
  intros Hd. apply performs_always. intros [d' r] Hr. apply Create_returns in Hr as [->|(Hnone & record & Hn & ->)]; [done|].
  by apply register_one_user.
Qed.

(** A mount of the volume changes. *)
Lemma set_one_user v st m n d :
  one_user d → rg_states d !! v = Some st → sole m → (ms_active m = true → rg_volumes d !! name = Some v ∧ n = mount_name st mount_id) →
  one_user (set_state v (set_mount n m st) d).
Proof.
  intros Hd Hv Hm Ha v' st' n' m' Hst Hm'. cbn [set_state rg_states rg_volumes] in *.
  apply list_lookup_insert_Some in Hst as [(-> & <- & _)|[Hne Hst]]; [|by apply (Hd v' st' n')].
  cbn [set_mount vs_mounts] in Hm'. apply lookup_insert_Some in Hm' as [[<- <-]|[Hne Hm']]; [done|by apply (Hd v' st n')].
Qed.

Lemma mount_of_sole d v st : one_user d → rg_states d !! v = Some st → sole (mountStateFor st mount_id).
Proof.
  intros Hd Hv. unfold mountStateFor. destruct (vs_mounts st !! _) as [m|] eqn:Hm; [exact (proj1 (Hd v st _ m Hv Hm))|]. by split.
Qed.

Lemma mount_request_one_user d : one_user d → always (driver_request cfg name (OpMount mount_id) mount_id d) (fun r => one_user r.1 ∧ r.2 ≠ Finished None).
Proof.
  intros Hd. apply always_bind. eapply always_mono; [|by apply lookup_one_user]. intros [d1 [v|e]] [Hd1 Hv]; cbn [fst snd] in *; [|done].
  unfold request_mount. destruct (rg_states d1 !! v) as [st|] eqn:Hst; [|done]. apply always_bind.
  eapply always_mono; [|apply Mount_sole; by eapply mount_of_sole]. intros [m r] [Hm Hr]. cbn [fst snd] in *.
  split; [|done]. apply set_one_user; try done. by auto.
Qed.

Lemma unmount_one_user d :
  one_user d → always (driver_unmount cfg name d) (fun r => one_user r.1 ∧ (r.2 = None → all_idle r.1)).
Proof.
  intros Hd. apply always_bind. apply always_bind. eapply always_mono; [|by apply lookup_one_user]. intros [d1 [v|e]] [Hd1 Hv]; cbn [fst snd] in *; [|done].
  unfold request_mount. destruct (rg_states d1 !! v) as [st|] eqn:Hst; [|done]. apply always_bind.
  eapply always_mono; [|apply Unmount_sole; by eapply mount_of_sole]. intros [m r] (Hm & Hnm & Hidle). cbn [fst snd] in *. cbn [always fst snd].
  assert (one_user (set_state v (set_mount (mount_name st mount_id) m st) d1)) as Hd2 by (apply set_one_user; try done; by auto).
  split; [done|]. destruct r as [n|err]; [by destruct (Hnm n)|]. intros ->. specialize (Hidle eq_refl).
  intros v' st' n' m' Hst' Hm'. destruct (ms_active m') eqn:Ha; [|done]. destruct (Hd2 _ _ _ _ Hst' Hm') as [_ Hat]. destruct (Hat Ha) as [Hv' ->].
  cbn [set_state rg_volumes] in Hv'. rewrite (Hv v eq_refl) in Hv'. injection Hv' as <-. cbn [set_state rg_states] in Hst'.
  rewrite list_lookup_insert_eq in Hst' by (by eapply lookup_lt_Some). injection Hst' as <-. cbn in Hm'. unfold mount_name in Hm'. cbn in Hm'.
  rewrite lookup_insert_eq in Hm'. congruence.
Qed.

Lemma retry_one_user waits d :
  one_user d → always (retryBusyUnmount waits (driver_unmount cfg name) d) (fun r => r.2 = Some None → all_idle r.1).
Proof.
  revert d. induction waits as [|w waits IH]; intros d Hd; cbn [retryBusyUnmount]; apply always_bind;
    (eapply always_mono; [|by apply unmount_one_user]); intros [d' [e|]] [Hd' Hidle]; cbn [fst snd] in *; try (by intros _; apply Hidle);
    (destruct (errors_Is e EBUSY); cbn [negb]; [|done]); [done|]. destruct w; [by apply IH|done].
Qed.

Lemma wait_one_user fenced waits mounted d :
  one_user d → always (waitForUnmount cfg fenced waits name mounted d) (fun r => r.2 = Some None → all_idle r.1).
Proof.
  intros Hd. unfold waitForUnmount. apply always_bind. apply (always_mono _ one_user); [intros d' Hd'; by apply retry_one_user|].
  destruct fenced as [cause|]; [|done]. destruct (rg_volumes d !! name) as [v|]; [|done]. apply always_bind. unfold touch_mount.
  destruct (rg_states d !! v) as [st|] eqn:Hst; [|done]. cbn. destruct (vs_mounts st !! mounted) as [m|] eqn:Hm; [|done]. cbn. apply always_bind. apply always_bind.
  destruct (Hd v st mounted m Hst Hm) as [Hs Hat]. pose proof (fence_sole cause m Hs) as Hf.
  apply performs_always. intros m' Hr. cbn. pose proof (always_performs _ _ _ Hf Hr) as Hm'. apply set_one_user; [done..|].
  intros Ha. apply Hat. by eapply fence_returns.
Qed.

Lemma created_one_user fenced waits options d :
  one_user d → always (mount_created cfg ParseDuration fenced waits name options d) (fun r => r.2 = Some None → all_idle r.1).
Proof.
  intros Hd. apply always_bind. eapply always_mono; [|by apply Create_one_user]. intros [d1 [e|]] Hd1; cbn [fst snd] in *; [done|].
  apply always_bind. eapply always_mono; [|by apply mount_request_one_user]. intros [d2 [n|err]] [Hd2 Hr]; cbn [fst snd] in *; [by apply wait_one_user|].
  intros [= ->]. done.
Qed.

(** [satchel mount] reports success only when nothing is mounted any more.
    Started with a driver that has nothing mounted, whatever its calls are
    answered, whether the volume is found or created, fenced or not, and however
    often the unmount has to be tried again: when the command ends without an
    error, no mount of the driver is active. *)
Theorem runMount_unmounts fenced waits options d d' :
  all_mounts (fun _ _ _ _ => False) d →
  performs (runMount cfg ParseDuration fenced waits name options d) (d', Some None) → all_idle d'.
Proof.
  intros Hnone Hr. assert (one_user d) as Hd by (intros v st n m Hst Hm; destruct (Hnone _ _ _ _ Hst Hm)).
  assert (always (runMount cfg ParseDuration fenced waits name options d) (fun r => r.2 = Some None → all_idle r.1)) as Hall.
  { unfold runMount. case_bool_decide; cbn [negb]; [|by apply created_one_user]. apply always_bind.
    eapply always_mono; [|by apply mount_request_one_user]. intros [d1 [n|[e|]]] [Hd1 Hn]; cbn [fst snd] in *; [by apply wait_one_user| |done].
    destruct (errors_Is e ErrVolumeNotFound); [by apply created_one_user|done]. }
  by apply (always_performs _ _ _ Hall Hr).
Qed.
End registry.

(** ** Witnesses *)

Definition plugin_flags : pluginOptions :=
  bindPluginFlags (fun key => if streq key "SATCHEL_S3_BUCKET" then "bucket" else EmptyString) (fun _ => None) "host".

Lemma toy_s3_fresh : probe_fresh "u" toy_s3.
Proof.
  split; [intros k [o Hk]; cbn in Hk; by rewrite lookup_empty in Hk|].
  intros s' d Hi Ht. by apply (memory_never_bogus (s3_client s') ("leases/.probe-" +:+ "u") d Hi).
Qed.

(** The store of the S3 service of [S3Theorems.v]. *)
Lemma buildDriver_exact_witness :
  let built := buildDriver (fun level => streq level "info") "u" [None; None; None; None] (Ok []) plugin_flags toy_s3 in
  is_ok built.2 = true ∧ objects built.1 = objects toy_s3.
Proof.
  intros built. assert (store_inv toy_s3) as Hi by exact NewMemory_inv. destruct (buildDriver_exact (fun level => streq level "info") "u" [None; None; None; None] (Ok []) plugin_flags toy_s3 _ _
    Hi toy_s3_fresh (surjective_pairing _)) as [Hok Hprobe]. destruct (Hprobe I) as [Hv Ho]. split; [|exact Ho].
  apply Hok. split; [reflexivity|]. split; [discriminate|]. split; [exists ConditionalHead; split; [vm_compute; reflexivity|apply Hv]|].
  split; [vm_compute; reflexivity|]. split; [reflexivity|]. exists []. split; reflexivity.
Defined.

(** A volume is created, mounted and unmounted. *)
#[local] Existing Instance toy_digest.

Definition mount_run : Registry * option (option error) :=
  outcome (runMount sample_config (fun _ => None) None [] "vol" [("size", "1GiB")]%string empty_registry).

Lemma runMount_unmounts_witness : mount_run.2 = Some None ∧ length (rg_states mount_run.1) = 1%nat ∧ all_idle mount_run.1.
Proof.
  split; [vm_compute; reflexivity|]. split; [vm_compute; reflexivity|].
  apply (runMount_unmounts sample_config (fun _ => None) "vol" None [] [("size", "1GiB")]%string empty_registry).
  - intros v st n m Hst. cbn [empty_registry rg_states] in Hst. by rewrite lookup_nil in Hst.
  - apply outcome_performs. vm_compute. reflexivity.
Defined.
