(* ===== verification/Plugin.v ===== *)
(** * The plugin process ([cmd/satchel/plugin.go], [Driver.Shutdown])

    The plugin serves requests until its socket fails or a signal comes, and then
    shuts the driver down, one volume after the other, each under its lock; the
    socket is served meanwhile. *)
From S2P Require Import Prelude Extents Codec Segment Types Options Metrics Driver DriverProps DriverTheorems Registry RegistryTheorems DriverWitness MountCommand MountTheorems.
Local Open Scope Z_scope.

(** [errors.Join] *)
Definition errors_Join (errs : list error) : option error :=
  match errs with [] => None | e :: errs => Some (foldl Joined e errs) end.

Section plugin.
Context `{Digest} (cfg : Config) (ParseDuration : string → option Z).
(** The order in which Go ranges over the volumes and over the mounts of a
    volume. *)
Context (volume_order : gmap string nat → list nat) (mount_order : gmap string mountState → list string).

(** ** [Shutdown] *)

Fixpoint shutdown_mounts (v : nat) (names : list string) (d : Registry) : prog (Registry * list error) :=
  match names with
  | [] => Ret (d, [])
  | name :: names =>
      '(d, r) ← touch_mount cfg v name OpShutdown d;
      '(d, errs) ← shutdown_mounts v names d;
      Ret (d, match r with Finished (Some e) => [e] | _ => [] end ++ errs)
  end.

(** The body of the loop over the volumes. *)
Definition shutdown_state (v : nat) (d : Registry) : prog (Registry * list error) :=
  match rg_states d !! v with
  | None => Ret (d, [Panic])
  | Some st => shutdown_mounts v (mount_order (vs_mounts st)) d
  end.

(** ** [runPlugin], once the driver is built *)

(** What the process does: it serves, it shuts down ([todo] are the volumes that
    are left, [errs] the errors so far), or it has returned. *)
Inductive phase : Type :=
  | Serve
  | Stop (todo : list nat) (errs : list error)
  | Exit (result : option error).

Definition process : Type := phase * (Registry * list waiting).

Definition mount_active (d : Registry) (v : nat) (n : string) : Prop :=
  ∃ st m, rg_states d !! v = Some st ∧ vs_mounts st !! n = Some m ∧ ms_active m = true.

(** No volume is mounted by a step. *)
Definition mounts_nothing (sys sys' : Registry * list waiting) : Prop := ∀ v n, mount_active sys'.1 v n → mount_active sys.1 v n.

(** [serialized] says that Docker does not remove a volume while another request
    for it is under way, [quiet] that no mount is granted any more once the
    shutdown has begun. *)
Inductive runPlugin (serialized quiet : bool) : process → process → Prop :=
  | plugin_serve sys sys' : registry_step cfg ParseDuration serialized sys sys' → runPlugin serialized quiet (Serve, sys) (Serve, sys')
  | plugin_socket_fails sys e : runPlugin serialized quiet (Serve, sys) (Exit (Some e), sys)
  | plugin_signal d ws : runPlugin serialized quiet (Serve, (d, ws)) (Stop (volume_order (rg_volumes d)) [], (d, ws))
  | plugin_serve_on todo errs sys sys' :
      registry_step cfg ParseDuration serialized sys sys' → (quiet = true → mounts_nothing sys sys') →
      runPlugin serialized quiet (Stop todo errs, sys) (Stop todo errs, sys')
  | plugin_stop_volume v todo errs d ws d' errs' :
      performs (shutdown_state v d) (d', errs') → runPlugin serialized quiet (Stop (v :: todo) errs, (d, ws)) (Stop todo (errs ++ errs'), (d', ws))
  | plugin_stopped errs sys : runPlugin serialized quiet (Stop [] errs, sys) (Exit (errors_Join errs), sys).

(** ** Shutting a volume down *)

(** What a shutdown of volume [v] may change: its mounts, which are not mounted
    by it. *)
Definition only_unmounts (v : nat) (d d' : Registry) : Prop :=
  rg_volumes d' = rg_volumes d ∧ (∀ u, u ≠ v → rg_states d' !! u = rg_states d !! u) ∧ (∀ n, mount_active d' v n → mount_active d v n).

Lemma only_unmounts_trans v d1 d2 d3 : only_unmounts v d1 d2 → only_unmounts v d2 d3 → only_unmounts v d1 d3.
Proof.
  intros (Hv1 & Ho1 & Ha1) (Hv2 & Ho2 & Ha2). split_and!; [congruence| |by auto]. intros u Hu. by rewrite Ho2, Ho1.
Qed.

Lemma Shutdown_returns m m' r : performs (Shutdown m) (m', r) → r = Finished None → ms_active m' = false.
Proof.
  unfold Shutdown. destruct (ms_active m) eqn:Ha; [|by intros [= <- <-]]. intros ([m1 err] & Hu & Hr)%performs_bind. cbn in Hr.
  injection Hr as <- <-. intros [= ->]. by apply (always_performs _ _ _ (unmountLast_idle m) Hu).
Qed.

(** Unmounting one mount. *)
Lemma touch_shutdown v n d d' r :
  performs (touch_mount cfg v n OpShutdown d) (d', r) → only_unmounts v d d' ∧ (r = Finished None → ¬ mount_active d' v n).
Proof.
  unfold touch_mount. destruct (rg_states d !! v) as [st|] eqn:Hst; cbn.
  2: { intros [= <- <-]. split; [done|]. intros _ (st & m & Hst' & _). congruence. }
  destruct (vs_mounts st !! n) as [m|] eqn:Hm; cbn.
  2: { intros [= <- <-]. split; [done|]. intros _ (st' & m & Hst' & Hm' & _). congruence. }
  intros ([m' r'] & Hp & Hr)%performs_bind. cbn in Hr. injection Hr as <- <-. pose proof (shutdown_returns _ _ _ Hp) as Hkeep.
  pose proof (lookup_lt_Some _ _ _ Hst) as Hlt. split; [split_and!; [done| |]|].
  - intros u Hu. cbn. by rewrite list_lookup_insert_ne.
  - intros n' (st' & m1 & Hst' & Hm1 & Ha). cbn in Hst'. rewrite list_lookup_insert_eq in Hst' by done. injection Hst' as <-.
    cbn in Hm1. apply lookup_insert_Some in Hm1 as [[<- <-]|[_ Hm1]]; [exists st, m|exists st, m1]; by auto.
  - intros -> (st' & m1 & Hst' & Hm1 & Ha). cbn in Hst'. rewrite list_lookup_insert_eq in Hst' by done. injection Hst' as <-.
    cbn in Hm1. rewrite lookup_insert_eq in Hm1. injection Hm1 as <-. by rewrite (Shutdown_returns _ _ _ Hp eq_refl) in Ha.
Qed.

Lemma shutdown_mounts_spec v names d d' errs :
  performs (shutdown_mounts v names d) (d', errs) → only_unmounts v d d' ∧ (errs = [] → ∀ n, n ∈ names → ¬ mount_active d' v n).
Proof.
  revert d errs. induction names as [|name names IH]; intros d errs; cbn [shutdown_mounts].
  - intros [= <- <-]. split; [done|]. by intros _ n Hn%elem_of_nil.
  - intros ([d1 r] & Ht & ([d2 errs2] & Hrest & Hr)%performs_bind)%performs_bind. cbn in Hr. injection Hr as <- <-.
    destruct (touch_shutdown _ _ _ _ _ Ht) as [Hu Hidle]. destruct (IH _ _ Hrest) as [Hu2 Hidle2]. split; [by eapply only_unmounts_trans|].
    intros [Hr ->]%app_eq_nil n [->|Hn]%elem_of_cons; [|by apply Hidle2]. intros Ha. apply Hu2 in Ha. revert Ha. apply Hidle.
    destruct r as [m|[e|]]; [|done..]. exfalso. revert Ht. clear. unfold touch_mount. destruct (_ ≫= _) as [[st m']|]; [|done].
    intros ([m1 r] & Hp & Hr)%performs_bind. cbn in Hr. injection Hr as _ ->. revert Hp. cbn [mount_body]. unfold Shutdown.
    destruct (ms_active m'); [|done]. intros ([m2 e] & _ & Hr)%performs_bind. done.
Qed.

(** ** Claims *)

(** Ranging over a map reaches every element once. *)
Context (volume_order_all : ∀ vs, volume_order vs ≡ₚ (map_to_list vs).*2).
Context (mount_order_all : ∀ ms, mount_order ms ≡ₚ (map_to_list ms).*1).

Lemma shutdown_state_spec v d d' errs :
  performs (shutdown_state v d) (d', errs) → only_unmounts v d d' ∧ (errs = [] → ∀ n, ¬ mount_active d' v n).
Proof using mount_order_all.
  unfold shutdown_state. destruct (rg_states d !! v) as [st|] eqn:Hst; [|by intros [= <- <-]].
  intros [Hu Hidle]%shutdown_mounts_spec. split; [done|]. intros Herr n Ha. apply (Hidle Herr n); [|done].
  destruct Hu as (_ & _ & Hact). destruct (Hact _ Ha) as (st' & m & Hst' & Hm & _). assert (st' = st) as -> by congruence.
  rewrite mount_order_all. apply list_elem_of_fmap. exists (n, m). split; [done|]. by apply elem_of_map_to_list.
Qed.

(** While the process shuts down without an error, what is still mounted is left
    to do. *)
Definition plugin_inv (p : process) : Prop :=
  match p.1 with
  | Serve => registry_inv p.2
  | Stop todo errs => errs = [] → ∀ v n, mount_active p.2.1 v n → v ∈ todo
  | Exit result => result = None → ∀ v n, ¬ mount_active p.2.1 v n
  end.

Lemma runPlugin_inv p p' : plugin_inv p → runPlugin true true p p' → plugin_inv p'.
Proof using volume_order_all mount_order_all.
  intros Hp Hs. destruct Hs as [sys sys' Hs|sys e|d ws|todo errs sys sys' Hs Hq|v todo errs d ws d' errs' Hs|errs sys]; cbn [plugin_inv fst snd] in *.
  - by eapply registry_step_inv.
  - intros He. discriminate He.
  - intros _ v n (st & m & Hst & Hm & Ha). destruct Hp as (_ & Hreg & _). rewrite volume_order_all.
    apply list_elem_of_fmap. exists (vr_Name (vs_record st), v). split; [done|]. apply elem_of_map_to_list. apply Hreg; [done|]. left. by exists n, m.
  - intros He v n Ha. apply (Hp He v n). by apply (Hq eq_refl).
  - intros [-> ->]%app_eq_nil u n Ha. destruct (shutdown_state_spec _ _ _ _ Hs) as [(_ & Ho & Hact) Hidle].
    destruct (decide (u = v)) as [->|Hne]; [by destruct (Hidle eq_refl n)|].
    assert (mount_active d u n) as Ha'. { destruct Ha as (st & m & Hst & Hm). exists st, m. by rewrite <-Ho. }
    destruct (elem_of_cons todo u v) as [Hcons _]. by destruct (Hcons (Hp eq_refl u n Ha')).
  - destruct errs as [|e errs]; [|done]. intros _ v n Ha. pose proof (Hp eq_refl v n Ha) as Hin. by apply elem_of_nil in Hin.
Qed.

(** C40: a plugin that exits without an error leaves nothing mounted.  Started on
    what its registry holds, whatever the requests, fences and answers, if no
    volume is removed while another request for it is under way and no mount is
    granted any more once the signal has come, then a process that returns without
    an error has unmounted every volume. *)
Theorem plugin_exits_clean entries d0 d ws :
  loadRegistry entries empty_registry = Ok d0 → rtc (runPlugin true true) (Serve, (d0, [])) (Exit None, (d, ws)) →
  ∀ v n, ¬ mount_active d v n.
Proof using volume_order_all mount_order_all.
  intros H0%loadRegistry_inv Hr; [|by intros name v; cbn; rewrite lookup_empty|constructor].
  assert (plugin_inv (Exit None, (d, ws))) as Hinv; [|by apply Hinv]. change (registry_inv (d0, [])) with (plugin_inv (Serve, (d0, []))) in H0.
  induction Hr as [p|p1 p2 p3 Hs Hr IH]; [done|]. apply IH. by eapply runPlugin_inv.
Qed.
End plugin.

(** ** Witness *)

#[local] Existing Instance toy_digest.

Definition any_volume_order (vs : gmap string nat) : list nat := (map_to_list vs).*2.
Definition any_mount_order (ms : gmap string mountState) : list string := (map_to_list ms).*1.
Abbreviation step := (runPlugin sample_config (fun _ => None) any_volume_order any_mount_order).

Definition stopped : Registry := (outcome (shutdown_state sample_config any_mount_order 0 mounted)).1.

(** A volume is created and mounted, then the signal comes. *)
Lemma plugin_exits_clean_witness : mount_active mounted 0 "vol" ∧ ¬ mount_active stopped 0 "vol".
Proof.
  split; [eexists _, _; split; [vm_compute; reflexivity|]; split; vm_compute; reflexivity|].
  apply (plugin_exits_clean sample_config (fun _ => None) any_volume_order any_mount_order (fun _ => reflexivity _) (fun _ => reflexivity _) [] empty_registry stopped [] eq_refl).
  eapply rtc_l; [apply plugin_serve, create_step|]. eapply rtc_l; [apply plugin_serve, (enter_step _ [] (WaitMount 0 "a")); left; by eexists|].
  eapply rtc_l; [apply plugin_serve, (step_mount _ _ _ created [] [] 0 "a" mounted (Mounted "vol")); apply outcome_performs; vm_compute; reflexivity|].
  eapply rtc_l; [apply plugin_signal|]. replace (any_volume_order (rg_volumes mounted)) with [0%nat] by (vm_compute; reflexivity).
  eapply rtc_l; [apply (plugin_stop_volume _ _ _ _ _ _ 0 [] [] mounted [] stopped []); apply outcome_performs; vm_compute; reflexivity|].
  apply rtc_once. apply (plugin_stopped _ _ _ _ _ _ []).
Defined.

(** ** Behaviour a reader may not expect *)

(** The socket is served while the driver shuts down: a mount that is granted
    after its volume was shut down is still there when the process has returned
    without an error. *)
Theorem late_mount_survives_shutdown :
  rtc (step true false) (Serve, (empty_registry, [])) (Exit None, (mounted, [])) ∧ mount_active mounted 0 "vol".
Proof.
  split; [|eexists _, _; split; [vm_compute; reflexivity|]; split; vm_compute; reflexivity].
  eapply rtc_l; [apply plugin_serve, create_step|].
  eapply rtc_l; [apply plugin_signal|]. replace (any_volume_order (rg_volumes created)) with [0%nat] by (vm_compute; reflexivity).
  eapply rtc_l; [apply (plugin_stop_volume _ _ _ _ _ _ 0 [] [] created [] created []); apply outcome_performs; vm_compute; reflexivity|].
  eapply rtc_l; [apply plugin_serve_on; [apply (enter_step _ [] (WaitMount 0 "a")); left; by eexists|done]|].
  eapply rtc_l; [apply plugin_serve_on; [apply (step_mount _ _ _ created [] [] 0 "a" mounted (Mounted "vol")); apply outcome_performs; vm_compute; reflexivity|done]|].
  apply rtc_once. apply (plugin_stopped _ _ _ _ _ _ []).
Qed.

(** A mount that waits while its volume is removed is granted on a volume that the
    registry has forgotten; no shutdown finds it. *)
Theorem removed_mount_survives_shutdown :
  rtc (step false true) (Serve, (empty_registry, [])) (Exit None, (orphaned, [])) ∧ mount_active orphaned 0 "vol".
Proof.
  split; [|eexists _, _; split; [vm_compute; reflexivity|]; split; vm_compute; reflexivity].
  eapply rtc_l; [apply plugin_serve, create_step|]. eapply rtc_l; [apply plugin_serve, (enter_step _ [] (WaitMount 0 "a")); left; by eexists|].
  eapply rtc_l; [apply plugin_serve, (enter_step _ [WaitMount 0 "a"] (WaitRemove 0 "vol")); by right; right|].
  eapply rtc_l; [apply plugin_serve, (step_remove _ _ _ created [WaitMount 0 "a"] [] 0 "vol" removed None); [|discriminate]|].
  { apply outcome_performs. vm_compute. reflexivity. }
  eapply rtc_l; [apply plugin_serve, (step_mount _ _ _ removed [] [] 0 "a" orphaned (Mounted "vol")); apply outcome_performs; vm_compute; reflexivity|].
  eapply rtc_l; [apply plugin_signal|]. replace (any_volume_order (rg_volumes orphaned)) with (@nil nat) by (vm_compute; reflexivity).
  apply rtc_once. apply (plugin_stopped _ _ _ _ _ _ []).
Qed.
