(* ===== verification/NbdDevice.v ===== *)
(** * The NBD server over the block device

    [serveNBD] is given the device of a mounted volume.  The device of a volume
    whose image was restored whole discharges the interface [BlockDevice], so
    the kernel sees a disk. *)
From S2P Require Import Prelude Extents Codec File Segment Hydrator Device DeviceProps DeviceTheorems Nbd NbdProps NbdTheorems.
Local Open Scope Z_scope.

Abbreviation LocalDevice := (Device Empty_set).
Implicit Types d : LocalDevice.

(** ** The operations as the server calls them *)

Section operations.
(** What the other goroutines do to the device while a call waits for room in
    the blocks of a range. *)
Context (meanwhile : Z * Z → LocalDevice → LocalDevice).
(** What [fdatasync] and the flush handlers answer, the channel the durable
    handler returns for a generation, and what has come on a channel. *)
Context (sync handled : option error) (enqueue : option Sealed → nat) (outcome : nat → option (option error)).

(** A call that may wait, to its end: it is woken once there is room. *)
Definition await_room (range : Z * Z) (call : bool → LocalDevice → LocalDevice * io_result) d : LocalDevice * option error :=
  match call false d with
  | (d, Done _ err) => (d, err)
  | (d, Blocked reported) =>
      match call reported (meanwhile range d) with
      | (d, Done _ err) => (d, err)
      | (d, Blocked _) => (d, Some OutOfFuel)
      end
  end.

Definition device_read (off len : Z) d : LocalDevice * result bytes :=
  match dev_ReadAt len off d with
  | (d, got, None) => (d, Ok got)
  | (d, _, Some e) => (d, Err e)
  end.

(** [Flush] to its end: the error of the sync, or what the handler answers. *)
Definition device_flush d : LocalDevice * option error :=
  match Flush sync d with
  | (d, FlushErr e) => (d, Some e)
  | (d, FlushDurable _) | (d, FlushHandler) => (d, handled)
  | (d, FlushDone) => (d, None)
  end.

#[local] Instance local_device : BlockDevice LocalDevice := {|
  bd_Size := dv_size;
  bd_ReadAt := device_read;
  bd_WriteAt data off := await_room (blockRange off (Z.of_nat (length data))) (fun reported => dev_WriteAt reported data off);
  bd_Trim off len := await_room (blockRange off len) (fun reported => Trim reported off len);
  bd_Flush := device_flush;
  bd_QueuedFlushEnabled := QueuedFlushEnabled;
  bd_BeginDurableFlush d := match BeginDurableFlush d with (d, Ok g) => (d, Ok (enqueue g)) | (d, Err e) => (d, Err e) end;
  bd_receive channel _ := outcome channel;
|}.

(** ** The device keeps the laws *)

Context (n : Z) (Hn : 0 < n ≤ maxImageBlocks).

Definition serviceable d : Prop := (∃ base, dev_inv n base d) ∧ dv_closed d = false.

(** A call is woken when there is room for its blocks; nobody writes meanwhile. *)
Definition makes_room : Prop := ∀ range d, serviceable d →
  serviceable (meanwhile range d) ∧ dev_disk n (meanwhile range d) = dev_disk n d ∧
  must_wait range.1 range.2 (meanwhile range d) = false.

Context (Hroom : makes_room).

Lemma no_lazy d : dv_hydrator d = None.
Proof. by destruct (dv_hydrator d) as [[]|]. Qed.

Lemma serviceable_size d : serviceable d → dv_size d = n * DefaultBlockSize.
Proof. by intros [[base [[? _] _]] _]. Qed.

Lemma serviceable_op o d :
  serviceable d → serviceable (dev_op_run o d).1.1 ∧
  dev_disk n (dev_op_run o d).1.1 = foldl write_disk (dev_disk n d) (option_list (dev_op_run o d).2).
Proof using Hn.
  intros [[base Hinv] Hcl]. destruct (dev_op_run o d) as [[d' g] w] eqn:Ho.
  destruct (dev_op_spec n Hn base o d d' g w Hinv Hcl Ho) as (? & ? & ? & _). cbn [fst snd]. split; [split|]; by eauto.
Qed.

(** A call that is refused nothing when there is room is done. *)
Lemma await_room_done range call disk d :
  (∀ reported d, serviceable d → (∃ rep, call reported d = wait rep d ∧ must_wait range.1 range.2 d = true) ∨
     ∃ d' k, call reported d = (d', Done k None) ∧ serviceable d' ∧ dev_disk n d' = disk (dev_disk n d)) →
  serviceable d → ∃ d', await_room range call d = (d', None) ∧ serviceable d' ∧ dev_disk n d' = disk (dev_disk n d).
Proof using Hroom.
  intros Hcall Hd. unfold await_room.
  destruct (Hcall false d Hd) as [(rep & -> & _)|(d' & k & -> & ?)]; [|by eauto].
  assert (∃ d1 rep', wait rep d = (d1, Blocked rep') ∧ serviceable d1 ∧ dev_disk n d1 = dev_disk n d) as (d1 & rep' & -> & Hd1 & <-).
  { unfold wait. case_match; by do 2 eexists. }
  destruct (Hroom range d1 Hd1) as (Hd2 & <- & Hm).
  destruct (Hcall rep' _ Hd2) as [(? & _ & ?)|(d' & k & -> & ?)]; [congruence|by eauto].
Qed.

Lemma WriteAt_outcome data off reported d :
  serviceable d → 0 ≤ off → off + Z.of_nat (length data) ≤ dv_size d → let range := blockRange off (Z.of_nat (length data)) in
  (∃ rep, dev_WriteAt reported data off d = wait rep d ∧ must_wait range.1 range.2 d = true) ∨
  ∃ d' k, dev_WriteAt reported data off d = (d', Done k None) ∧ serviceable d' ∧
    dev_disk n d' = write_bytes (dev_disk n d) (Z.to_nat off) data.
Proof using Hn.
  intros Hd Hoff Hle range. pose proof (serviceable_size d Hd) as Hsz. destruct Hd as [[base Hinv] Hcl].
  destruct (must_wait range.1 range.2 d) eqn:Hm.
  - left. exists reported. split; [|done]. unfold dev_WriteAt. rewrite Hcl, (proj2 (orb_false_iff _ _)) by (split; zbool; lia).
    fold range. destruct range as [first last]. cbn [fst snd] in Hm. by rewrite Hm.
  - right. destruct (dev_WriteAt reported data off d) as [d' r] eqn:Hw.
    destruct (WriteAt_full n Hn base reported data off d d' r Hinv Hcl Hw) as (Hinv' & Hr & Hdone).
    rewrite Hdone in Hr |- * by (done || apply no_lazy || lia). destruct Hr as (_ & _ & _ & Hdisk & _ & Hg).
    do 2 eexists. split; [done|]. split; [|done]. split; [by eauto|]. by apply (grown_sealed d d' _ Hg).
Qed.

Lemma Trim_outcome off len reported d :
  serviceable d → 0 ≤ off → 0 ≤ len → off + len ≤ dv_size d → let range := blockRange off len in
  (∃ rep, Trim reported off len d = wait rep d ∧ must_wait range.1 range.2 d = true) ∨
  ∃ d' k, Trim reported off len d = (d', Done k None) ∧ serviceable d' ∧
    dev_disk n d' = write_bytes (dev_disk n d) (Z.to_nat off) (replicate (Z.to_nat len) x00).
Proof using Hn.
  intros Hd Hoff Hlen Hle range. pose proof (serviceable_size d Hd) as Hsz. destruct Hd as [[base Hinv] Hcl].
  destruct (must_wait range.1 range.2 d) eqn:Hm.
  - left. exists reported. split; [|done]. unfold Trim. rewrite Hcl, (proj2 (orb_false_iff _ _)) by (split; [apply orb_false_iff; split|]; zbool; lia).
    fold range. destruct range as [first last]. cbn [fst snd] in Hm. by rewrite Hm.
  - right. destruct (Trim reported off len d) as [d' r] eqn:Hw.
    destruct (Trim_full n Hn base reported off len d d' r Hinv Hcl Hw) as (Hinv' & Hr & Hdone).
    rewrite Hdone in Hr |- * by (done || apply no_lazy || lia). destruct Hr as (_ & _ & _ & Hdisk & _ & Hg).
    do 2 eexists. split; [done|]. split; [|done]. split; [by eauto|]. by apply (grown_sealed d d' _ Hg).
Qed.

Lemma device_read_spec off len d :
  serviceable d → 0 ≤ len → ∃ d', device_read off len d =
    (d', if (off <? 0) || (dv_size d <=? off) then Err ErrEOF else Ok (take (Z.to_nat len) (drop (Z.to_nat off) (dev_disk n d)))) ∧
    serviceable d' ∧ dev_disk n d' = dev_disk n d.
Proof using Hn.
  intros Hd Hlen. pose proof (serviceable_size d Hd) as Hsz. destruct Hd as [[base Hinv] Hcl]. unfold device_read.
  destruct (dev_ReadAt len off d) as [[d' got] err] eqn:Hr.
  destruct (ReadAt_spec n Hn base len off d d' got err Hinv Hcl Hlen Hr) as (Hinv' & Hdisk & Hsame & Hok).
  assert (serviceable d') as Hd' by (split; [by eauto|]; by apply (grown_sealed d d' _ (grown_same d d' Hsame))).
  exists d'. split; [|done]. unfold dev_ReadAt in Hr. rewrite Hcl in Hr.
  destruct ((off <? 0) || (dv_size d <=? off)) eqn:Hrange; [by injection Hr as <- <- <-|]. zbool.
  rewrite no_lazy in Hr. cbv iota beta zeta in Hr.
  destruct Hinv as (Hi & _). destruct (image_inv_file n d Hi) as [(Hscr & _) Hl].
  unfold ReadAt, next_io in Hr. rewrite Hscr in Hr.
  rewrite (proj2 (Nat.ltb_ge _ _)) in Hr by (rewrite length_take, length_drop; case_match; zbool; lia).
  assert (err = None) as -> by congruence. by destruct (Hok eq_refl) as [_ ->].
Qed.

Lemma device_flush_spec d : serviceable d → serviceable (device_flush d).1 ∧ dev_disk n (device_flush d).1 = dev_disk n d.
Proof using Hn.
  intros Hd. destruct (serviceable_op (OpFlush sync) d Hd) as [Hd' Hdisk]. unfold device_flush. cbn [dev_op_run] in *.
  destruct (Flush sync d) as [d' []]; done.
Qed.

#[local] Instance local_device_laws : BlockDeviceLaws LocalDevice.
Proof using Hn Hroom.
  refine (Build_BlockDeviceLaws LocalDevice local_device (dev_disk n) serviceable _ _ _ _ _ _ _).
  - intros d Hd. pose proof (serviceable_size d Hd) as Hsz. change (bd_Size d) with (dv_size d). destruct Hd as [[base (Hi & _)] _].
    split; [by rewrite (dev_disk_length n Hn)|]. rewrite Hsz.
    assert (maxImageBlocks = 2251799813685247) as Hmax by reflexivity. unfold DefaultBlockSize. lia.
  - intros d off len Hd Hoff Hlen _. destruct (device_read_spec off len d Hd Hlen) as (d' & Heq & ?). exists d'. split; [|done].
    change (bd_Size d) with (dv_size d) in Hoff. by rewrite (proj2 (orb_false_iff _ _)) in Heq by (split; zbool; lia).
  - intros d len Hd. destruct (Z_le_gt_dec 0 len) as [Hlen|Hlen].
    + destruct (device_read_spec (dv_size d) len d Hd Hlen) as (d' & Heq & ?). exists d'. split; [|done].
      by rewrite (proj2 (orb_true_iff _ _)) in Heq by (right; zbool; lia).
    + exists d. cbn [bd_ReadAt local_device]. unfold device_read, dev_ReadAt. destruct Hd as [? Hcl]. rewrite Hcl.
      by rewrite (proj2 (orb_true_iff _ _)) by (right; apply Z.leb_refl).
  - intros d off data Hd Hoff Hle. cbn [bd_WriteAt local_device].
    apply (await_room_done _ _ (fun disk => write_bytes disk (Z.to_nat off) data)); [|done].
    intros reported d1 Hd1. apply WriteAt_outcome; [done..|]. by rewrite serviceable_size, <-(serviceable_size d).
  - intros d off len Hd Hoff Hlen Hle. cbn [bd_Trim local_device].
    apply (await_room_done _ _ (fun disk => write_bytes disk (Z.to_nat off) (replicate (Z.to_nat len) x00))); [|done].
    intros reported d1 Hd1. apply Trim_outcome; [done..|]. by rewrite serviceable_size, <-(serviceable_size d).
  - intros d Hd. by apply device_flush_spec.
  - intros d Hd. destruct (serviceable_op OpBeginDurableFlush d Hd) as [Hd' Hdisk]. cbn [dev_op_run bd_BeginDurableFlush local_device] in *.
    destruct (BeginDurableFlush d) as [d' []]; done.
Defined.

(** ** The kernel's disk *)

(** What the rest of the mount does to the device while it is served: every
    operation but writes and trims, and setting the handlers. *)
Inductive background : relation LocalDevice :=
  | bg_op o d : (dev_op_run o d).2 = None → background d (dev_op_run o d).1.1
  | bg_dirty threshold d : background d (SetDirtyHandler threshold d)
  | bg_backpressure d : background d (SetBackpressureHandler d)
  | bg_durable_flush d : background d (SetDurableFlushHandler d).

Lemma background_keeps_disk : keeps_disk background.
Proof using Hn Hroom.
  intros d d' Hb Hd. destruct Hb as [o d Ho|threshold d|d|d]; [|done..].
  destruct (serviceable_op o d Hd) as [Hd' Hdisk]. rewrite Ho in Hdisk. done.
Qed.

(** C13: what the kernel sees of a mounted volume is a disk.  When the NBD server
    serves the device of a volume, started on the image that was restored and
    the generations of the local journal, then however requests, flush workers,
    seals, releases and the waiting for room interleave, the content of the
    device is that image with the generations replayed and then the kernel's
    writes and trims in order, and every read, write and trim is answered in
    order, as a plain disk would answer it. *)
Theorem nbd_serves_volume as_errno readOnly picks f maxDirty gens input :
  as_errno ErrEOF = None → image_ok n (L := Empty_set) f None → Forall (gen_ok n) gens →
  ∃ d0, start_device None picks f (n * DefaultBlockSize) maxDirty None gens = Ok d0 ∧
    (∀ b, 0 ≤ b < n → read_block blockBytes (dev_disk n d0) b =
       foldl overlay (image_view (L := Empty_set) f None) (GenBlocks <$> gens) b) ∧
    ∀ rs s, nbd_steps as_errno readOnly background (mkServer input d0 [] [] true) rs s →
      dev_disk n (sv_dev s) = disk_run readOnly (dev_disk n d0) rs ∧
      direct_replies readOnly (dev_disk n d0) rs `sublist_of` sv_out s.
Proof using Hn Hroom.
  intros Heof Hok Hg. destruct (start_spec n Hn picks f maxDirty None gens Hok Hg) as (d0 & Hs & Hinv & Hcl & _ & _ & Hv).
  exists d0. split; [done|]. split.
  { intros b Hb. rewrite <-Hv, (dev_disk_block n Hn) by (done || apply Hinv). done. }
  intros rs s Hsteps. apply (nbd_refines_disk as_errno readOnly background Heof (mkServer input d0 [] [] true) rs s background_keeps_disk); [|done..].
  split; by eauto.
Qed.
End operations.

(** ** A worker that makes room *)

(** The replication worker, when it publishes everything while a call waits. *)
Definition publish_all (range : Z * Z) d : LocalDevice :=
  let d := (Seal d).1 in Nat.iter (length (dv_sealed d)) (Release 0) d.

Section publish_all.
Context (n : Z) (Hn : 0 < n ≤ maxImageBlocks).

Lemma Release_frame i d :
  dv_active (Release i d) = dv_active d ∧ dv_sealed (Release i d) = take i (dv_sealed d) ++ drop (S i) (dv_sealed d).
Proof.
  unfold Release. destruct (dv_sealed d !! i) as [g|] eqn:Hg.
  - by edestruct (observe_flags (L := Empty_set)) as [ev ->].
  - apply lookup_ge_None in Hg. split; [done|]. by rewrite take_ge, drop_ge, app_nil_r by lia.
Qed.

Lemma release_all k d :
  serviceable n d → dv_active d = ∅ → length (dv_sealed d) = k → let d' := Nat.iter k (Release 0) d in
  serviceable n d' ∧ dev_disk n d' = dev_disk n d ∧ dv_active d' = ∅ ∧ dv_sealed d' = [].
Proof using Hn.
  revert d. induction k as [|k IH]; intros d Hd Ha Hk d'.
  { split_and!; [done..|]. by apply nil_length_inv. }
  unfold d'. rewrite Nat.iter_succ_r. destruct (serviceable_op n Hn (OpRelease 0) d Hd) as [Hd1 Hdisk].
  change (dev_disk n (Release 0 d) = dev_disk n d) in Hdisk. rewrite <-Hdisk. apply IH; [done|..].
  - by rewrite (proj1 (Release_frame 0 d)).
  - rewrite (proj2 (Release_frame 0 d)), length_app, length_take, length_drop. lia.
Qed.

Lemma publish_all_makes_room : makes_room publish_all n.
Proof using Hn.
  intros range d Hd. destruct (serviceable_op n Hn OpSeal d Hd) as [Hd1 Hdisk]. cbn [dev_op_run] in Hd1, Hdisk.
  unfold publish_all, Seal in *. destruct (sealLocked d) as [d1 g] eqn:Hs. change (dev_disk n d1 = dev_disk n d) in Hdisk. cbn [fst] in *.
  assert (dv_active d1 = ∅) as Ha by (destruct Hd as [[base Hinv] _]; by apply (seal_spec n base d d1 g Hinv Hs)).
  destruct (release_all _ d1 Hd1 Ha eq_refl) as (Hd2 & Hdisk2 & Ha2 & Hs2). split; [done|]. split; [congruence|].
  destruct Hd2 as [[base (_ & _ & _ & _ & Hdirty)] Hcl2]. unfold must_wait. rewrite (Hdirty Hcl2), Ha2, Hs2, map_size_empty.
  cbn. by rewrite andb_false_r.
Qed.
End publish_all.

(** ** Witness *)

(** A volume of two blocks, one of them recovered from the journal and all that
    may be dirty: the write to the other waits until the worker has published. *)
Definition quiet : BlockDevice LocalDevice := local_device publish_all None None (fun _ => 0%nat) (fun _ => Some None).
Definition volume_start : LocalDevice :=
  match start_device None sample_picks sample_image 8192 4096 None sample_recovered with Ok d => d | Err _ => fresh_device sample_image 4096 end.
Definition volume_server : Server LocalDevice :=
  mkServer (sample_request nbdCmdWrite x01 4094 2 [x42; x43] ++ sample_request nbdCmdRead x02 4093 5 []) volume_start [] [] true.
Definition volume_turn (s : Server LocalDevice) : Server LocalDevice := turn_state (serve (H := quiet) (fun _ => None) false s).
Definition volume_requests : list (header * bytes) :=
  [nbd_request volume_server; nbd_request (volume_turn volume_server)].
Definition volume_served : Server LocalDevice := volume_turn (volume_turn volume_server).

Lemma volume_steps : nbd_steps (H := quiet) (fun _ => None) false background volume_server volume_requests volume_served.
Proof.
  change volume_requests with (([] ++ [nbd_request volume_server]) ++ [nbd_request (volume_turn volume_server)]).
  eapply nbd_snoc; [eapply nbd_snoc; [apply nbd_nil|]|].
  - apply step_serve. vm_compute. reflexivity.
  - apply (step_serve _ _ _ (volume_turn volume_server) volume_served). vm_compute. reflexivity.
Qed.

Lemma nbd_serves_volume_witness :
  dev_disk 2 (sv_dev volume_served) = replicate 4094 x00 ++ [x42; x43] ++ replicate 4096 x41 ∧
  [writeReply (replicate 8 x01) 0 []; writeReply (replicate 8 x02) 0 [x00; x42; x43; x41; x41]] `sublist_of` sv_out volume_served ∧
  EvBackpressure ∈ dv_events (sv_dev volume_served).
Proof.
  destruct (nbd_serves_volume publish_all None None (fun _ => 0%nat) (fun _ => Some None) 2 two_blocks
    (publish_all_makes_room 2 two_blocks) (fun _ => None) false sample_picks sample_image 4096 sample_recovered (sv_in volume_server)
    eq_refl sample_image_ok sample_recovered_ok) as (d0 & Hs & _ & Hrun).
  assert (d0 = volume_start) as -> by (unfold volume_start; change 8192 with (2 * DefaultBlockSize); by rewrite Hs).
  destruct (Hrun volume_requests volume_served volume_steps) as [Hdisk Hreplies]. split_and!.
  - rewrite Hdisk. vm_compute. reflexivity.
  - replace [writeReply (replicate 8 x01) 0 []; writeReply (replicate 8 x02) 0 [x00; x42; x43; x41; x41]]
      with (direct_replies false (dev_disk 2 volume_start) volume_requests) by (vm_compute; reflexivity). exact Hreplies.
  - apply (list_elem_of_lookup_2 _ 1). vm_compute. reflexivity.
Defined.
