(* ===== verification/Checkpoint.v ===== *)
(** * Plans and checkpoints

    A lease keeps the restore plan of its volume up to date as it publishes, and
    writes that plan out as a checkpoint.  Here is what a plan has to say of the
    chain of manifests it stands for, and that every way the code makes or
    changes a plan keeps it so. *)
From S2P Require Import Prelude Extents Codec Segment Types Store Head Manifest Plan Restore Lease Publish.
Local Open Scope Z_scope.

(** ** Where the data of a reference is *)

(** The object, or the manifest and the index in it, that holds the data of a
    reference.  The bundle in which the manifest may be found is only a hint. *)
Definition source (r : ObjectRef) : ObjectRef :=
  mkObjectRef (ref_Key r) (ref_SourceManifest r) EmptyString (ref_SourceIndex r) (ref_InlineData (ready r))
    (ref_SHA256 r) (ref_Bytes r) (ref_Blocks r) [] [].

Lemma source_located r r' : located r = located r' → source r = source r'.
Proof.
  destruct r as [k sm sb si inl sha by_ bl e z], r' as [k' sm' sb' si' inl' sha' by' bl' e' z'].
  unfold located, with_extents. cbn. intros Heq. assert (k = k' ∧ sm = sm' ∧ si = si' ∧ inl = inl' ∧ sha = sha' ∧ by_ = by' ∧ bl = bl')
    as (-> & -> & -> & -> & -> & -> & ->) by (injection Heq; tauto). unfold source, ready. cbn. by case_bool_decide.
Qed.

Lemma source_fmap (o o' : option ObjectRef) : located <$> o = located <$> o' → source <$> o = source <$> o'.
Proof. destruct o, o'; cbn; try done. intros Heq. f_equal. apply source_located. congruence. Qed.

Lemma source_ready r : source (ready r) = source r.
Proof. unfold source, ready. case_bool_decide as Hm; [by rewrite (bool_decide_eq_true_2 _ Hm)|]. cbn. by rewrite (bool_decide_eq_false_2 _ Hm). Qed.

(** The two ways a reference of a manifest is told where its inline data is. *)
Lemma source_located_inline key m bundle index r :
  key ≠ EmptyString →
  source (if bool_decide (ref_InlineData r = []) then r else with_source r key (ref_SourceBundle r) (u32 index) []) =
  source (locate_inline (mkEntry key m bundle) index r).
Proof.
  intros Hk. unfold locate_inline. cbn [e_key e_bundle]. rewrite (bool_decide_eq_false_2 (key = EmptyString)) by done. cbn [negb].
  rewrite andb_true_r. case_bool_decide as Hi; cbn [negb]; [done|]. unfold source, ready. cbn. by rewrite !(bool_decide_eq_false_2 (key = EmptyString)) by done.
Qed.

(** ** What a plan stands for *)

(** The reference that supplies block [b] of a chain of manifests. *)
Definition chain_ref (entries : list manifestEntry) (b : Z) : option ObjectRef := nonzero_ref (newest entries b) b.

Section plans.
Context (hi : Z) (Hhi : block_bound hi).

(** A reference as plans hold it. *)
Definition settled (r : ObjectRef) : Prop := ref_InlineData r = [] ∧ ref_ZeroExtents r = [].

(** [plan] is well formed and names for every block the data that the chain
    [entries] has for it. *)
Definition describes (plan : list ObjectRef) (entries : list manifestEntry) : Prop :=
  Forall (plan_ref_wf hi) plan ∧ disjoint_refs plan ∧ Forall settled plan ∧
  ∀ b, source <$> ref_for plan b = source <$> chain_ref entries b.

Lemma describes_nil : describes [] [].
Proof. split_and!; [done|apply NoDup_nil_2|done|done]. Qed.

(** Changing what is not described changes nothing. *)
Lemma describes_map (f : ObjectRef → ObjectRef) plan entries :
  (∀ r, ref_Extents (f r) = ref_Extents r ∧ source (f r) = source r) → (∀ r, settled r → settled (f r)) →
  describes plan entries → describes (f <$> plan) entries.
Proof.
  intros Hf Hset (Hwf & Hd & Hs & Hfor).
  assert (∀ b, source <$> ref_for (f <$> plan) b = source <$> ref_for plan b) as Hmap.
  { intros b. clear -Hf. induction plan as [|r plan IH]; [done|]. cbn [fmap list_fmap ref_for].
    destruct (Hf r) as [-> Hr]. destruct (decide _); [cbn; by f_equal|apply IH]. }
  split_and!.
  - apply Forall_fmap. eapply Forall_impl; [exact Hwf|]. intros r. unfold plan_ref_wf. cbn [compose]. by rewrite (proj1 (Hf r)).
  - unfold disjoint_refs, refs_blocks in *. assert (ref_blocks <$> (f <$> plan) = ref_blocks <$> plan) as ->; [|done].
    rewrite <-list_fmap_compose. apply list_fmap_ext. intros i r _. unfold ref_blocks. cbn [compose]. by rewrite (proj1 (Hf r)).
  - apply Forall_fmap. eapply Forall_impl; [exact Hs|]. intros r. apply Hset.
  - intros b. by rewrite Hmap.
Qed.

Lemma attach_ready plan bundle : checkpointReadyRefs (attachBundleToRefs plan bundle) = attachBundleToRefs (checkpointReadyRefs plan) bundle.
Proof.
  unfold checkpointReadyRefs, attachBundleToRefs. rewrite <-!list_fmap_compose. apply list_fmap_ext. intros i r _. cbn [compose].
  destruct (bool_decide (ref_SourceManifest r ∈ pb_keys bundle)) eqn:Hb, (bool_decide (ref_SourceManifest r = EmptyString)) eqn:He;
    cbn [with_source ref_SourceManifest]; rewrite ?Hb, ?He; done.
Qed.

Lemma describes_attach plan entries bundle : describes plan entries → describes (attachBundleToRefs plan bundle) entries.
Proof.
  unfold attachBundleToRefs. intros Hd. apply describes_map; [|intros r Hs|done]; cbn beta.
  - intros r. case_bool_decide; [|done]. split; [done|]. unfold source, ready. cbn. by case_bool_decide.
  - by case_bool_decide.
Qed.

Lemma describes_ready plan entries : describes plan entries → describes (checkpointReadyRefs plan) entries.
Proof.
  apply (describes_map ready).
  - intros r. split; [apply ready_extents|apply source_ready].
  - intros r [Hi Hz]. split; [|by rewrite (proj2 (ready_extents r))]. unfold ready. by case_bool_decide.
Qed.

(** *** Publishing a delta *)

Lemma none_of_located {A} (f : ObjectRef → A) (o o' : option ObjectRef) : f <$> o = f <$> o' → o' = None → o = None.
Proof. destruct o, o'; cbn; done. Qed.

Lemma delta_refs_wf delta :
  segments_wf hi delta → Forall (plan_ref_wf hi) (delta_refs delta) ∧ disjoint_refs (delta_refs delta).
Proof using Hhi.
  intros [Hwf Hd]. induction Hwf as [|r delta (He & Hz & Hsub) Hwf IH]; [split; [done|apply NoDup_nil_2]|].
  destruct (disjoint_refs_cons _ _ Hd) as [Hd' Hno]. destruct (IH Hd') as [Hp Hdis]. rewrite delta_refs_unfold.
  destruct (subtractExtents_spec hi _ _ Hhi He Hz) as [Hw Hc]. split.
  - apply Forall_app. split; [by apply restricted_wf|done].
  - apply (restricted_disjoint hi); [done..|]. intros b [Hb _]%Hc.
    eapply none_of_located; [by apply (delta_refs_spec hi Hhi)|]. by rewrite (Hno b Hb).
Qed.

Lemma surviving_refs_wf covered current :
  wf_extents hi covered → Forall (plan_ref_wf hi) current → disjoint_refs current →
  Forall (plan_ref_wf hi) (surviving_refs covered current) ∧ disjoint_refs (surviving_refs covered current).
Proof using Hhi.
  intros Hcov Hwf Hd. induction Hwf as [|r current [He _] Hwf IH]; [split; [done|apply NoDup_nil_2]|].
  destruct (disjoint_refs_cons _ _ Hd) as [Hd' Hno]. destruct (IH Hd') as [Hp Hdis]. rewrite surviving_refs_unfold.
  destruct (subtractExtents_spec hi _ _ Hhi He Hcov) as [Hw Hc]. split.
  - apply Forall_app. split; [by apply restricted_wf|done].
  - apply (restricted_disjoint hi); [done..|]. intros b [Hb _]%Hc.
    pose proof (surviving_refs_spec hi Hhi covered current Hcov Hwf b) as Hs. rewrite (Hno b Hb) in Hs.
    destruct (decide _) in Hs; by destruct (ref_for (surviving_refs covered current) b).
Qed.

Lemma applyDeltaToPlan_wf current delta :
  Forall (plan_ref_wf hi) current → disjoint_refs current → segments_wf hi delta →
  Forall (plan_ref_wf hi) (applyDeltaToPlan current delta) ∧ disjoint_refs (applyDeltaToPlan current delta).
Proof using Hhi.
  intros Hcur Hdis Hdel. destruct (delta_covered hi Hhi delta [] (proj1 Hdel)) as [Hw Hc]; [done|].
  destruct (delta_refs_wf delta Hdel) as [Hp1 Hd1]. unfold applyDeltaToPlan. cbv zeta in Hw, Hc. set (c := foldl _ _ _) in *.
  destruct (surviving_refs_wf c current Hw Hcur Hdis) as [Hp2 Hd2]. split; [by apply Forall_app|].
  apply disjoint_refs_app; [done..|]. intros b [x Hx].
  pose proof (surviving_refs_spec hi Hhi c current Hw Hcur b) as Hs. rewrite decide_True in Hs.
  - by destruct (ref_for (surviving_refs c current) b).
  - apply Hc. right. pose proof (delta_refs_spec hi Hhi delta Hdel b) as Hd. rewrite Hx in Hd.
    destruct (ref_for delta b); [by eauto|discriminate Hd].
Qed.

(** [checkpointRefs] and [restorePlan] name the same data. *)
Lemma ref_for_checkpointRefs key m bundle index segs b :
  key ≠ EmptyString →
  source <$> ref_for (checkpointRefs key index segs) b = source <$> ref_for (locate_all (mkEntry key m bundle) index segs) b ∧
  source <$> nonzero_ref (ref_for (checkpointRefs key index segs) b) b =
    source <$> nonzero_ref (ref_for (locate_all (mkEntry key m bundle) index segs) b) b.
Proof.
  intros Hk. revert index. induction segs as [|r segs IH]; intros index; [done|]. cbn [checkpointRefs locate_all ref_for].
  destruct (locate_inline_extents (mkEntry key m bundle) index r) as [HE HZ].
  pose proof (source_located_inline key m bundle index r Hk) as Hs.
  set (x := if bool_decide _ then _ else _) in *.
  assert (ref_Extents x = ref_Extents r ∧ ref_ZeroExtents x = ref_ZeroExtents r) as [HxE HxZ] by (unfold x; by case_bool_decide).
  rewrite HE, HxE. destruct (decide (covers (ref_Extents r) b)); [|apply IH]. split; [cbn; by f_equal|].
  cbn [nonzero_ref]. rewrite HZ, HxZ. destruct (decide _); [done|]. cbn. by f_equal.
Qed.

Lemma checkpointRefs_wf key index segs : segments_wf hi segs → segments_wf hi (checkpointRefs key index segs).
Proof.
  intros [Hwf Hd]. assert (∀ segs index, ref_blocks <$> checkpointRefs key index segs = ref_blocks <$> segs) as Hb.
  { clear. induction segs as [|r segs IH]; intros index; [done|]. cbn [checkpointRefs fmap list_fmap].
    f_equal; [by case_bool_decide|apply IH]. }
  split; [|unfold disjoint_refs, refs_blocks; by rewrite Hb].
  clear Hb Hd. revert index. induction Hwf as [|r segs Hr _ IH]; intros index; constructor; [by case_bool_decide|apply IH].
Qed.

Lemma checkpointRefs_inline key index segs : Forall (fun r => ref_InlineData r = []) (checkpointRefs key index segs).
Proof. revert index. induction segs as [|r segs IH]; intros index; constructor; [by case_bool_decide|apply IH]. Qed.

Lemma settled_restricted r es : ref_InlineData r = [] → Forall settled (restricted r es).
Proof. intros Hr. unfold restricted. case_bool_decide; repeat constructor. done. Qed.

Lemma settled_applyDelta current delta :
  Forall settled current → Forall (fun r => ref_InlineData r = []) delta → Forall settled (applyDeltaToPlan current delta).
Proof.
  intros Hc Hd. apply Forall_app. split.
  - induction Hd as [|r delta Hr _ IH]; [done|]. rewrite delta_refs_unfold. apply Forall_app. split; [by apply settled_restricted|done].
  - generalize (foldl (fun covered original => unionExtents covered (ref_Extents original)) [] delta). intros c.
    induction Hc as [|r current [Hr _] _ IH]; [done|]. rewrite surviving_refs_unfold. apply Forall_app. split; [by apply settled_restricted|done].
Qed.

Lemma describes_delta plan entries key m :
  key ≠ EmptyString → segments_wf hi (mf_Segments m) → describes plan entries →
  describes (applyDeltaToPlan plan (checkpointRefs key 0 (mf_Segments m))) (mkEntry key m EmptyString :: entries).
Proof using Hhi.
  intros Hk Hm (Hwf & Hd & Hs & Hfor). pose proof (checkpointRefs_wf key 0 _ Hm) as Hck.
  destruct (applyDeltaToPlan_wf plan _ Hwf Hd Hck) as [Hwf' Hd']. split_and!; [done..| |].
  { apply settled_applyDelta; [done|apply checkpointRefs_inline]. }
  intros b. pose proof (applyDeltaToPlan_spec hi Hhi plan _ Hwf Hck b) as Ha.
  destruct (ref_for_checkpointRefs key m EmptyString 0 (mf_Segments m) b Hk) as [Hr Hrn].
  unfold chain_ref. cbn [newest e_manifest]. set (d := ref_for (checkpointRefs key 0 (mf_Segments m)) b) in *.
  set (d' := ref_for (locate_all _ 0 (mf_Segments m)) b) in *.
  destruct d as [r|], d' as [r'|]; try discriminate Hr.
  - rewrite <-Hrn. by apply source_fmap.
  - rewrite (source_fmap _ _ Ha). apply Hfor.
Qed.

(** *** A plan made from the chain *)

Lemma settled_plan_segments e covered index segs :
  e_key e ≠ EmptyString → Forall settled (checkpointReadyRefs (plan_segments e covered index segs)).
Proof.
  intros Hk. revert index. induction segs as [|r segs IH]; intros index; [constructor|].
  rewrite plan_segments_unfold. unfold checkpointReadyRefs in *. rewrite fmap_app. apply Forall_app. split; [|apply IH].
  unfold restricted. case_bool_decide; [constructor|]. apply Forall_singleton. unfold locate_inline.
  rewrite (bool_decide_eq_false_2 (e_key e = EmptyString)) by done. rewrite andb_true_r.
  destruct (bool_decide (ref_InlineData r = [])) eqn:Hi; cbn [negb with_extents ref_SourceManifest with_source].
  - apply bool_decide_eq_true in Hi. by case_bool_decide.
  - by rewrite bool_decide_eq_false_2 by done.
Qed.

Lemma describes_restore entries :
  entries_wf hi entries → Forall (fun e => e_key e ≠ EmptyString) entries →
  describes (checkpointReadyRefs (plan_entries [] entries)) entries.
Proof using Hhi.
  intros Hwf Hkeys. destruct (plan_entries_spec hi Hhi [] entries Hwf) as (Hp & Hd & Hfor); [done|]. split_and!.
  - by apply plan_ref_wf_ready.
  - unfold disjoint_refs, refs_blocks in *. assert (ref_blocks <$> checkpointReadyRefs (plan_entries [] entries) = ref_blocks <$> plan_entries [] entries) as ->; [|done].
    unfold checkpointReadyRefs. rewrite <-list_fmap_compose. apply list_fmap_ext. intros i r _. unfold ref_blocks. cbn [compose]. by case_bool_decide.
  - clear Hwf Hp Hd Hfor. generalize (@nil Extent). induction Hkeys as [|e entries Hk _ IH]; intros covered; [constructor|].
    cbn [plan_entries]. unfold checkpointReadyRefs in *. rewrite fmap_app. apply Forall_app. split; [by apply settled_plan_segments|apply IH].
  - intros b. rewrite ref_for_ready, <-option_fmap_compose. specialize (Hfor b). rewrite decide_False in Hfor by (by intros ?%covers_nil).
    unfold chain_ref. rewrite <-(source_fmap _ _ Hfor). destruct (ref_for (plan_entries [] entries) b); [|done]. cbn. f_equal. apply source_ready.
Qed.

(** *** A plan as a checkpoint *)

(** What a checkpoint with the references [plan] says, when it is read back. *)
Lemma chain_ref_checkpoint plan key m bundle b :
  mf_Segments m = plan → Forall settled plan → chain_ref [mkEntry key m bundle] b = ref_for plan b.
Proof.
  intros <- Hs. unfold chain_ref. cbn [newest e_manifest].
  assert (∀ index, locate_all (mkEntry key m bundle) index (mf_Segments m) = mf_Segments m) as Hl.
  { induction Hs as [|r segs [Hr _] _ IH]; intros index; [done|]. cbn [locate_all]. f_equal; [|apply IH].
    unfold locate_inline. by rewrite bool_decide_eq_true_2. }
  rewrite Hl. destruct (ref_for (mf_Segments m) b) as [r|] eqn:Hr; [|done]. apply ref_for_elem in Hr as [Hr _].
  rewrite Forall_forall in Hs. destruct (Hs r Hr) as [_ Hz]. cbn [nonzero_ref]. rewrite Hz, decide_False; [done|]. by intros ?%covers_nil.
Qed.

Lemma describes_checkpoint plan entries key m bundle :
  mf_Segments m = plan → describes plan entries →
  describes plan [mkEntry key m bundle] ∧ ∀ b, source <$> chain_ref [mkEntry key m bundle] b = source <$> chain_ref entries b.
Proof.
  intros Hm (Hwf & Hd & Hs & Hfor). split; [split_and!; [done..|]|]; intros b; by rewrite (chain_ref_checkpoint plan key m bundle b Hm Hs).
Qed.
End plans.

(** ** Chains and histories *)

Section histories.
Context `{Digest} `{Gzip} `{Json Manifest} `{Json manifestBundle}.
Context (name : string).

(** [key] is the key of a document that reads as the manifest [m]. *)
Definition manifest_at (key : string) (m : Manifest) : Prop := ∃ body, key = manifest_key name body ∧ Unmarshal body = Ok m.

Lemma manifest_at_key key m : manifest_at key m → key ≠ EmptyString.
Proof. intros (body & -> & _). done. Qed.

(** What a restore walks through from the manifest [key]: back along the
    parents to a checkpoint or to the beginning. *)
Inductive chain : string → list manifestEntry → Prop :=
  | chain_start : chain EmptyString []
  | chain_checkpoint key m bundle : manifest_at key m → mf_Kind m = "checkpoint" → chain key [mkEntry key m bundle]
  | chain_delta key m bundle entries :
      manifest_at key m → mf_Kind m ≠ "checkpoint" → chain (mf_Parent m) entries → chain key (mkEntry key m bundle :: entries).

(** The checkpoint [m] says of every block what a chain below it says. *)
Definition faithful (key : string) (m : Manifest) : Prop :=
  ∃ entries, chain (mf_Parent m) entries ∧ ∀ b, source <$> chain_ref [mkEntry key m EmptyString] b = source <$> chain_ref entries b.

(** All the checkpoints of the history from [key] on are faithful. *)
Inductive sound_history : string → Prop :=
  | sound_start : sound_history EmptyString
  | sound_delta key m : manifest_at key m → mf_Kind m ≠ "checkpoint" → sound_history (mf_Parent m) → sound_history key
  | sound_checkpoint key m :
      manifest_at key m → mf_Kind m = "checkpoint" → faithful key m → sound_history (mf_Parent m) → sound_history key.

Lemma chain_keys key entries : chain key entries → Forall (fun e => e_key e ≠ EmptyString) entries.
Proof. induction 1; repeat constructor; cbn [e_key]; try done; by eapply manifest_at_key. Qed.

(** What [restoreManifests] collects is a chain. *)
Lemma restore_chain_chain Get fuel bundleFuel state key g n cache entries g' :
  st_Name state = name → restore_chain Get fuel bundleFuel state key g n cache = Ok (entries, g') → chain key entries.
Proof.
  intros Hname. revert key g n cache entries g'. induction fuel as [|fuel IH]; intros key g n cache entries g'; cbn [restore_chain].
  all: case_bool_decide as Hkey; [intros Heq; assert (entries = []) as -> by congruence; subst key; constructor|].
  { done. }
  intros ([[m src] cache1] & Hm & Hr)%result_bind_Ok. apply readManifest_decoded in Hm as (body & Hd).
  assert (manifest_at key m) as Hat.
  { unfold decodeManifest in Hd. apply result_bind_Ok in Hd as (m' & Hun%wrap_err_Ok & Hd).
    apply result_bind_Ok in Hd as (u1 & Hk%fail_if_Ok & Hd). apply result_bind_Ok in Hd as ([] & _ & Hd).
    apply negb_false_iff, bool_decide_eq_true in Hk. assert (m' = m) as -> by congruence. exists body. by rewrite <-Hname. }
  destruct (bool_decide (mf_Kind m = "checkpoint")) eqn:Hkind; [apply bool_decide_eq_true in Hkind|apply bool_decide_eq_false in Hkind].
  - assert (entries = [mkEntry key m src]) as -> by congruence. by constructor.
  - apply result_bind_Ok in Hr as (u & _ & Hr). apply result_bind_Ok in Hr as ([rest ex] & Hrest & Hr).
    assert (entries = mkEntry key m src :: rest) as -> by congruence. constructor; [done..|]. by eapply IH.
Qed.

Lemma restoreManifests_chain Get fuel state entries :
  st_Name state = name → restoreManifests Get fuel state = Ok entries → chain (st_Manifest state) entries.
Proof.
  intros Hname ([es g] & Hc & Hr)%result_bind_Ok. apply result_bind_Ok in Hr as (u & _ & Hr).
  assert (es = entries) as -> by congruence. by eapply restore_chain_chain.
Qed.
End histories.

(** ** The generations that [Publish] accepts *)

Definition segment_typed (segment : Segment) : Prop :=
  Forall extent_u64 (seg_Extents segment) ∧ Forall extent_u64 (seg_ZeroExtents segment).

Section generations.
Context (hi : Z) (Hhi : block_bound hi).

Lemma segmentReference_extents snapshot segment :
  ref_Extents (segmentReference snapshot segment) = seg_Extents segment ∧
  ref_ZeroExtents (segmentReference snapshot segment) = seg_ZeroExtents segment.
Proof. unfold segmentReference. by case_if. Qed.

Lemma generation_extents_wf snapshot segments acc n acc' n' :
  Forall segment_typed segments → generation_extents hi segments acc n = Ok (acc', n') →
  let refs := segmentReference snapshot <$> segments in
  Forall (ref_wf hi) refs ∧ acc' = acc ++ concat (ref_Extents <$> refs) ∧ n' = n + Z.of_nat (length (refs_blocks refs)).
Proof using Hhi.
  revert acc n. induction segments as [|seg segments IH]; intros acc n Hty Hv refs.
  { cbn [generation_extents] in Hv. assert (acc = acc' ∧ n = n') as [-> ->] by (split; congruence).
    cbn. rewrite app_nil_r. split_and!; [constructor|done|lia]. }
  apply Forall_cons in Hty as [[Hte Htz] Hty]. cbn [generation_extents] in Hv.
  apply result_bind_Ok in Hv as (blocks & Hb & Hv). apply result_bind_Ok in Hv as (u1 & Hz%fail_if_Ok & Hv).
  apply result_bind_Ok in Hv as (u2 & _ & Hv). destruct (validateExtents (seg_Extents seg) hi) as [k|] eqn:He; [|done].
  apply result_bind_Ok in Hb as (u3 & _ & Hb). assert (k = blocks) as -> by congruence.
  apply validateExtents_spec in He as [Hwf ->]; [|done..]. apply orb_false_iff in Hz as [Hz Hc]. unfold is_err in Hz.
  destruct (validateExtents (seg_ZeroExtents seg) hi) as [nz|] eqn:Hez; [|done].
  apply validateExtents_spec in Hez as [Hwfz _]; [|done..]. apply negb_false_iff in Hc.
  rewrite (extentsContain_from 0 0 hi hi) in Hc by done.
  destruct (IH _ _ Hty Hv) as (Hwfs & -> & ->). destruct (segmentReference_extents snapshot seg) as [HE HZ].
  unfold refs. cbn [fmap list_fmap]. rewrite refs_blocks_cons. unfold ref_blocks at 1. split_and!.
  - constructor; [unfold ref_wf; by rewrite HE, HZ|done].
  - cbn [fmap list_fmap concat]. by rewrite HE, <-app_assoc.
  - rewrite HE, length_app, Nat2Z.inj_add, (block_count_length 0 hi) by done. lia.
Qed.

(** The references of an accepted generation lie inside the volume and never
    name a block twice. *)
Lemma check_generation_wf snapshot segments :
  Forall segment_typed segments → check_generation hi segments = Ok tt → segments_wf hi (segmentReference snapshot <$> segments).
Proof using Hhi.
  intros Hty ([exts n] & Hg & Hv)%result_bind_Ok.
  destruct (generation_extents_wf snapshot segments [] 0 exts n Hty Hg) as (Hwf & -> & ->). cbn [app] in Hv.
  destruct (validateExtents _ hi) as [c|] eqn:Hc; [|done]. apply fail_if_Ok in Hv. zbool. subst c. split; [done|].
  apply (counted_disjoint hi Hhi); [done|]. set (refs := segmentReference snapshot <$> segments) in *.
  destruct (union_spec hi [] (concat (ref_Extents <$> refs)) Hhi) as [Hn _]; [done| |].
  { apply Forall_concat, Forall_fmap. eapply Forall_impl; [exact Hwf|]. intros r (Hr & _). by apply wf_extents_in. }
  apply normal_extents_wf in Hn. rewrite validateExtents_complete in Hc by done. assert (∀ a b : Z, @Ok Z a = Ok b → a = b) as Hinj by congruence.
  apply Hinj in Hc. lia.
Qed.
End generations.
