(* ===== verification/LeasePlan.v ===== *)
(** * A lease keeps the plan of its volume

    Whatever requests fail and whatever else uses the lease meanwhile, the plan
    of a lease describes the chain of its state, and the checkpoints it writes
    are faithful. *)
From S2P Require Import Prelude Extents Codec File Segment Types Store Head Manifest Plan Restore Lazy Lease Publish Volumes LeaseTheorems Checkpoint.
Local Open Scope Z_scope.

(** ** [Lease.PrepareLazyRestore] *)

Section lazy.
Context {S : Type} `{Store S} `{VolumeHead S} `{Digest} `{Gzip} `{Json State} `{Json Manifest} `{Json manifestBundle}.

(** [fetched] are the answers of the store to the reads of the restore plan;
    other operations of the lease may run before they have all come. *)
Definition lease_PrepareLazyRestore (fetched : string → result bytes) (fuel : nat) (created : result (list IOutcome)) (faults : list (option error))
    (w : World (S := S)) : World (S := S) * result (LazyImage * File) :=
  let state := ls_state (w_lease w) in
  match call_unlocked (fun s => (s, PrepareLazyRestore fetched fuel created faults state)) w with
  | (w, Err e) => (w, Err e)
  | (w, Ok image) =>
      let l := w_lease w in
      if (st_Generation (ls_state l) =? st_Generation state) && bool_decide (st_Manifest (ls_state l) = st_Manifest state)
      then (on_lease (with_plan (checkpointReadyRefs (lz_refs image.1)) true) w, Ok image)
      else (w, Ok image)
  end.
End lazy.

(** ** The invariant *)

Section leases.
Context {S : Type} `{Store S} `{VolumeHead S} `{Digest} `{Gzip} `{Json State} `{Json Manifest} `{Json manifestBundle}.
Context (TTL : Z) (name : string) (n : Z) (Hn : 0 ≤ n ≤ maxImageBlocks).
(** [encoding/json] gives a manifest back as it was written, and refuses numbers
    outside the type of their field. *)
Context (manifest_round_trip : ∀ (m : Manifest) b, Marshal m = Ok b → Unmarshal b = Ok m).
Context (json_typed : ∀ body (m : Manifest), Unmarshal body = Ok m → manifest_typed m).
Implicit Types (l : Lease) (w : World (S := S)).

Definition geometry (st : State) : Prop :=
  st_Name st = name ∧ st_Size st = n * DefaultBlockSize ∧ st_BlockSize st = DefaultBlockSize.

(** [p] may be published on top of the manifest [parent]. *)
Definition publication (parent : string) (p : preparedManifest) : Prop :=
  manifest_at name (pm_key p) (pm_manifest p) ∧ mf_Parent (pm_manifest p) = parent ∧
  (mf_Kind (pm_manifest p) = "delta" ∧ segments_wf n (mf_Segments (pm_manifest p)) ∨
   mf_Kind (pm_manifest p) = "checkpoint" ∧ ∃ entries, chain name parent entries ∧ describes n (mf_Segments (pm_manifest p)) entries).

(** A commit on top of [parent]: it publishes a manifest or leaves the history alone. *)
Definition commit_ok (parent : string) (candidate : State) (prepared : option preparedManifest) : Prop :=
  geometry candidate ∧
  match prepared with
  | Some p => st_Manifest candidate = pm_key p ∧ publication parent p
  | None => st_Manifest candidate = parent
  end.

Definition plan_known l : Prop :=
  ls_planKnown l = true → ∃ entries, chain name (st_Manifest (ls_state l)) entries ∧ describes n (ls_plan l) entries.

Definition plan_inv l : Prop :=
  geometry (ls_state l) ∧ sound_history name (st_Manifest (ls_state l)) ∧ plan_known l ∧
  ∀ pc, ls_pending l = Some pc → commit_ok (st_Manifest (ls_state l)) (pc_candidate pc) (pc_prepared pc).

(** Other goroutines that use the lease while a call of this one is under way:
    they keep the plan, and leave no commit of unknown outcome of their own. *)
Definition unlocked_ok (e : event (S := S)) : Prop :=
  ∀ s l s' l', ev_unlocked e (s, l) = (s', l') → plan_inv l → plan_inv l' ∧ (ls_pending l' = ls_pending l ∨ ls_pending l' = None).

Definition world_inv w : Prop := plan_inv (w_lease w) ∧ Forall unlocked_ok (w_events w).

Lemma block_bound_n : block_bound n.
Proof using Hn. pose proof maxImageBlocks_bound. unfold block_bound in *. lia. Qed.

(** *** Commits *)

(** A new state with the same manifest; a bundle is only a hint. *)
Lemma applyCommit_inv l candidate etag bundle :
  plan_inv l → geometry candidate → st_Manifest candidate = st_Manifest (ls_state l) →
  plan_inv (applyCommitLocked candidate etag bundle l) ∧ ls_pending (applyCommitLocked candidate etag bundle l) = ls_pending l.
Proof.
  intros (Hg & Hs & Hk & Hp) Hgc Hm. unfold plan_inv, plan_known in *.
  assert (∀ l', ls_state l' = candidate → ls_pending l' = ls_pending l → ls_planKnown l' = ls_planKnown l →
    (∃ b, ls_plan l' = ls_plan l ∨ ls_plan l' = attachBundleToRefs (ls_plan l) b) ∨ ls_plan l' = ls_plan l →
    plan_inv l' ∧ ls_pending l' = ls_pending l) as Hgo.
  { intros l' Hst Hpe Hkn Hpl. split; [|done]. unfold plan_inv, plan_known. rewrite Hst, Hpe, Hkn, Hm. split_and!; [done|done| |done].
    intros Hkt. destruct (Hk Hkt) as (entries & Hc & Hd). exists entries. split; [done|].
    destruct Hpl as [[b [->| ->]]| ->]; [done|by apply describes_attach|done]. }
  unfold applyCommitLocked. destruct bundle as [b|]; [|apply Hgo; by auto].
  cbv zeta. destruct (ls_readyBundle _) as [ready|]; [case_bool_decide|]; apply Hgo; try done; left; exists b; by right.
Qed.

(** A new state that publishes a manifest. *)
Lemma applyManifestCommit_inv l candidate etag prepared bundle :
  plan_inv l → ls_pending l = None → commit_ok (st_Manifest (ls_state l)) candidate (Some prepared) →
  plan_inv (applyManifestCommitLocked candidate etag prepared bundle l) ∧
  ls_pending (applyManifestCommitLocked candidate etag prepared bundle l) = None.
Proof using Hn.
  intros Hl Hnone (Hgc & Hkey & Hat & Hpar & Hkind). pose proof Hl as (Hg & Hs & Hk & _).
  set (parent := st_Manifest (ls_state l)) in *.
  assert (∃ l1, with_adopted None (applyCommitLocked candidate etag bundle l) = l1 ∧ ls_state l1 = candidate ∧ ls_pending l1 = None ∧
    (ls_planKnown l1 = true → ∃ entries, chain name parent entries ∧ describes n (ls_plan l1) entries)) as (l1 & Hl1 & Hst & Hpe & Hk1).
  { eexists. split; [done|]. unfold applyCommitLocked. destruct bundle as [b|]; [|done]. cbv zeta.
    assert (∀ x, x = attachBundleToRefs (ls_plan l) b → ls_planKnown l = true → ∃ entries, chain name parent entries ∧ describes n x entries) as Ha.
    { intros x -> Hkt. destruct (Hk Hkt) as (entries & ? & ?). exists entries. split; [done|by apply describes_attach]. }
    destruct (ls_readyBundle _) as [ready|]; [case_bool_decide|]; split_and!; try done; by apply Ha. }
  unfold applyManifestCommitLocked. rewrite Hl1.
  assert (∀ l', ls_state l' = candidate → ls_pending l' = None → sound_history name (pm_key prepared) →
    (ls_planKnown l' = true → ∃ entries, chain name (pm_key prepared) entries ∧ describes n (ls_plan l') entries) →
    plan_inv l' ∧ ls_pending l' = None) as Hgo.
  { intros l' Hst' Hpe' Hs' Hk'. split; [|done]. unfold plan_inv, plan_known. rewrite Hst', Hpe', Hkey. by split_and!. }
  destruct Hkind as [[Hkind Hwf]|(Hkind & entries & Hc & Hd)]; rewrite Hkind.
  - rewrite bool_decide_eq_true_2 by done.
    assert (sound_history name (pm_key prepared)) as Hsound by (eapply sound_delta; [done|by rewrite Hkind|by rewrite Hpar]).
    destruct (ls_planKnown l1) eqn:Hkn; [|apply Hgo; [done..|by rewrite Hkn]].
    apply Hgo; [done..|]. intros _. destruct (Hk1 eq_refl) as (entries & Hc & Hd).
    exists (mkEntry (pm_key prepared) (pm_manifest prepared) EmptyString :: entries). split; [constructor; [done|by rewrite Hkind|by rewrite Hpar]|].
    apply describes_delta; [apply block_bound_n|by eapply manifest_at_key|done|done].
  - rewrite bool_decide_eq_false_2 by done. rewrite bool_decide_eq_true_2 by done.
    destruct (describes_checkpoint n (mf_Segments (pm_manifest prepared)) entries (pm_key prepared) (pm_manifest prepared) EmptyString eq_refl Hd) as [Hd' Hsame].
    apply Hgo; [done..| |].
    + eapply sound_checkpoint; [done|done| |by rewrite Hpar]. exists entries. by rewrite Hpar.
    + intros _. eexists. split; [by apply chain_checkpoint|exact Hd'].
Qed.

(** *** Calls *)

Lemma call_inv {A} (op : S → S * result A) w w' r :
  world_inv w → call op w = (w', r) → world_inv w' ∧ w_lease w' = w_lease w.
Proof.
  intros [Hl He]. unfold call. destruct (w_events w) as [|e es] eqn:Hev.
  - destruct (op (w_store w)) as [s x]. intros Heq. assert (w' = set_store s w) as -> by congruence. split; [|done]. split; [done|]. cbn. by rewrite Hev.
  - destruct (faulty _ _ _) as [s x]. intros Heq. assert (w' = mkWorld s (w_lease w) es (w_clock w) (w_ticks w)) as -> by congruence.
    apply Forall_cons in He as [_ He]. by split.
Qed.

Lemma call_unlocked_inv {A} (op : S → S * result A) w w' r :
  world_inv w → call_unlocked op w = (w', r) →
  world_inv w' ∧ (ls_pending (w_lease w') = ls_pending (w_lease w) ∨ ls_pending (w_lease w') = None).
Proof.
  intros [Hl He]. unfold call_unlocked. destruct (w_events w) as [|e es] eqn:Hev.
  - destruct (op (w_store w)) as [s x]. intros Heq. assert (w' = set_store s w) as -> by congruence. split; [|by left]. split; [done|]. cbn. by rewrite Hev.
  - apply Forall_cons in He as [He1 He]. destruct (ev_unlocked e (w_store w, w_lease w)) as [s l] eqn:Hu.
    destruct (He1 _ _ _ _ Hu Hl) as [Hl' Hp]. destruct (faulty _ _ _) as [s' x]. intros Heq.
    assert (w' = mkWorld s' l es (w_clock w) (w_ticks w)) as -> by congruence. by split.
Qed.

Lemma now_inv w w' t : world_inv w → now w = (w', t) → world_inv w' ∧ w_lease w' = w_lease w.
Proof. intros Hw Heq. assert (w' = (now w).1) as -> by by rewrite Heq. done. Qed.

Lemma commitState_inv body candidate w w' r :
  world_inv w → commitState body candidate w = (w', r) → world_inv w' ∧ w_lease w' = w_lease w.
Proof.
  intros Hw. unfold commitState. destruct (call _ w) as [w1 [etag|e]] eqn:Hc1; apply call_inv in Hc1 as [Hw1 Hl1]; [|done| |done].
  { intros Heq. by assert (w' = w1) as -> by congruence. }
  destruct (call _ w1) as [w2 r2] eqn:Hc2. apply call_inv in Hc2 as [Hw2 Hl2]; [|done]. intros Heq.
  assert (w' = w2) as -> by (destruct r2 as [[b c]|]; [destruct (bytes_Equal b body)|]; congruence). split; [done|congruence].
Qed.

(** A step on the lease alone. *)
Lemma on_lease_inv f w : world_inv w → plan_inv (f (w_lease w)) → world_inv (on_lease f w).
Proof. intros [_ He] Hf. by split. Qed.

Lemma resolvePending_inv w w' r :
  world_inv w → resolvePending w = (w', r) →
  world_inv w' ∧ (r = Ok tt → not_held (w_lease w') = false → ls_pending (w_lease w') = None).
Proof using Hn.
  intros Hw. unfold resolvePending. destruct (ls_pending (w_lease w)) as [pc|] eqn:Hpc; [|by intros [= <- <-]].
  destruct (not_held (w_lease w)) eqn:Hnh; [intros [= <- <-]; split; [done|congruence]|].
  destruct (call_unlocked _ w) as [w1 r1] eqn:Hc. apply call_unlocked_inv in Hc as [Hw1 Hp1]; [|done].
  destruct r1 as [[body cursor]|e]; [|intros [= <- <-]; done].
  destruct (bool_decide (pc_id <$> ls_pending (w_lease w1) = Some (pc_id pc))) eqn:Hid; cbn [negb].
  2: { intros [= <- <-]. split; [done|]. intros _ _. destruct Hp1 as [Hp1|Hp1]; [|done].
       rewrite Hp1, Hpc in Hid. by apply bool_decide_eq_false in Hid. }
  assert (ls_pending (w_lease w1) = Some pc) as Hpc1.
  { destruct Hp1 as [->|Hp1]; [done|]. rewrite Hp1 in Hid. by apply bool_decide_eq_true in Hid. }
  pose proof (proj1 Hw1) as (Hg & Hs & Hk & Hp). specialize (Hp pc Hpc1). set (l1 := with_pending None (w_lease w1)).
  assert (plan_inv l1) as Hl1 by by split_and!.
  assert (world_inv (on_lease (with_pending None) w1)) as Hw2 by by apply on_lease_inv.
  destruct (bytes_Equal body (pc_body pc)); [|by intros [= <- <-]].
  assert (plan_inv (pending_commit pc cursor l1) ∧ ls_pending (pending_commit pc cursor l1) = None) as [Hl2 Hp2].
  { unfold pending_commit. destruct (pc_prepared pc) as [p|]; [by apply applyManifestCommit_inv|].
    destruct Hp as [Hgc Hm]. by apply applyCommit_inv. }
  assert (world_inv (on_lease (pending_commit pc cursor) (on_lease (with_pending None) w1))) as Hw3 by by apply on_lease_inv.
  destruct (pc_prepared pc); intros [= <- <-]; [|done]. split; [|done]. apply on_lease_inv; [done|]. exact Hl2.
Qed.

Lemma set_lease_fields r st :
  st_Manifest (set_lease r st) = st_Manifest st ∧ (geometry st → geometry (set_lease r st)).
Proof. done. Qed.

Lemma apply_bundle_geometry st bundle :
  st_Manifest (apply_bundle st bundle) = st_Manifest st ∧ (geometry st → geometry (apply_bundle st bundle)).
Proof. by destruct bundle. Qed.

Lemma renewLocked_inv w : world_inv w → world_inv (renewLocked TTL w) ∧ ls_pending (w_lease (renewLocked TTL w)) = ls_pending (w_lease w).
Proof.
  intros Hw. unfold renewLocked. destruct (st_Lease (ls_state (w_lease w))) as [record|]; [|done].
  destruct (now w) as [w1 t1] eqn:Hn1. apply now_inv in Hn1 as [Hw1 Hl1]; [|done]. destruct (time_After _ _); [by rewrite Hl1|].
  destruct (now w1) as [w2 t2] eqn:Hn2. apply now_inv in Hn2 as [Hw2 Hl2]; [|done]. cbv zeta. set (candidate := set_lease _ _).
  destruct (Marshal candidate) as [body|]; [|by rewrite Hl2, Hl1].
  destruct (commitState body candidate w2) as [w3 [etag|e]] eqn:Hc; apply commitState_inv in Hc as [Hw3 Hl3]; try done.
  - pose proof (proj1 Hw3) as Hpl. destruct (applyCommit_inv (w_lease w3) candidate etag None Hpl) as [Hl4 Hp4].
    + unfold candidate. rewrite <-Hl3. apply Hpl.
    + unfold candidate. by rewrite <-Hl3.
    + split; [by apply on_lease_inv|]. cbn [w_lease on_lease]. by rewrite Hp4, Hl3, Hl2, Hl1.
  - destruct (errors_Is e ErrPreconditionFailed); [|split; [done|by rewrite Hl3, Hl2, Hl1]].
    split; [apply on_lease_inv; [done|]; exact (proj1 Hw3)|]. cbn. by rewrite Hl3, Hl2, Hl1.
Qed.

(** *** Updates of the head *)

Lemma ready_inv l l' bundle :
  plan_inv l → readyManifestBundleLocked l = (l', bundle) → plan_inv l' ∧ ls_pending l' = ls_pending l ∧ ls_state l' = ls_state l.
Proof.
  intros Hl. unfold readyManifestBundleLocked. destruct (ls_readyBundle l) as [b|]; [destruct (manifestBundleApplies _ b)|].
  all: intros Heq; assert (l' = l ∨ l' = with_ready None l) as [-> | ->] by (by (left; congruence) || (right; congruence)); done.
Qed.

Lemma remember_inv l body candidate prepared bundle :
  plan_inv l → commit_ok (st_Manifest (ls_state l)) candidate prepared → plan_inv (remember body candidate prepared bundle l).
Proof. intros (Hg & Hs & Hk & Hp) Hc. split_and!; [done..|]. intros pc Hpc. cbn in Hpc. by injection Hpc as <-. Qed.

(** What [update] may do to the document. *)
Definition mutates_lease (mutate : World (S := S) → State → World (S := S) * result State) : Prop :=
  ∀ w st w' r, mutate w st = (w', r) → w_lease w' = w_lease w ∧ w_events w' = w_events w ∧
    ∀ st', r = Ok st' → st_Manifest st' = st_Manifest st ∧ (geometry st → geometry st').

Lemma update_inv mutate w w' r : mutates_lease mutate → world_inv w → update mutate w = (w', r) → world_inv w'.
Proof using Hn.
  intros Hmut Hw. unfold update. destruct (resolvePending w) as [w1 r1] eqn:Hr. apply resolvePending_inv in Hr as [Hw1 _]; [|done].
  destruct r1 as [[]|e]; [|by intros [= <- <-]]. destruct (not_held (w_lease w1)); [by intros [= <- <-]|].
  destruct (readyManifestBundleLocked (w_lease w1)) as [l bundle] eqn:Hready.
  apply ready_inv in Hready as (Hl & _ & Hst); [|apply Hw1]. set (w2 := on_lease (fun _ => l) w1).
  assert (world_inv w2) as Hw2 by by apply on_lease_inv.
  destruct (mutate w2 _) as [w3 r3] eqn:Hm. destruct (Hmut _ _ _ _ Hm) as (Hl3 & He3 & Hcand).
  assert (world_inv w3) as Hw3 by (split; [rewrite Hl3; apply Hw2|rewrite He3; apply Hw2]).
  destruct r3 as [candidate|e]; [|by intros [= <- <-]]. destruct (Hcand candidate eq_refl) as [Hman Hgeo].
  destruct (apply_bundle_geometry (ls_state l) bundle) as [Hbm Hbg].
  destruct (Marshal candidate) as [body|]; [|by intros [= <- <-]].
  destruct (commitState body candidate w3) as [w4 r4] eqn:Hc. apply commitState_inv in Hc as [Hw4 Hl4]; [|done].
  assert (geometry candidate ∧ st_Manifest candidate = st_Manifest (ls_state (w_lease w4))) as [Hgc Hmc].
  { split; [apply Hgeo, Hbg, Hl|]. rewrite Hl4, Hl3. cbn [w2 w_lease on_lease]. congruence. }
  destruct r4 as [etag|e].
  - intros [= <- <-]. apply on_lease_inv; [done|]. by apply applyCommit_inv; [apply Hw4|..].
  - destruct (errors_Is e ErrPreconditionFailed); intros [= <- <-]; (apply on_lease_inv; [done|]).
    + exact (proj1 Hw4).
    + apply remember_inv; [apply Hw4|]. by split.
Qed.

Lemma Renew_inv w w' r : world_inv w → Renew TTL w = (w', r) → world_inv w'.
Proof using Hn.
  apply update_inv. intros w0 st w1 r1. destruct (st_Lease st) as [record|]; intros [= <- <-]; (split; [done|split; [done|]]); intros st' [= <-]. done.
Qed.

Lemma Release_inv waited w w' r : world_inv w → lease_Release waited w = (w', r) → world_inv w'.
Proof using Hn.
  destruct waited; [by intros Hw [= <- <-]|]. apply update_inv. intros w0 st w1 r1 [= <- <-]. split; [done|split; [done|]]. by intros st' [= <-].
Qed.

(** *** Publications *)

Lemma put_immutable_inv k d e1 e2 w w' r : world_inv w → put_immutable k d e1 e2 w = (w', r) → world_inv w'.
Proof.
  intros Hw. unfold put_immutable. destruct (call_unlocked _ w) as [w1 [x|e]] eqn:Hc; apply call_unlocked_inv in Hc as [Hw1 _]; try done.
  { by intros [= <- <-]. }
  destruct (negb _); [by intros [= <- <-]|]. destruct (call_unlocked _ w1) as [w2 [x|e']] eqn:Hc2; apply call_unlocked_inv in Hc2 as [Hw2 _]; try done.
  all: by intros [= <- <-].
Qed.

Lemma run_uploads_inv snapshot us first w w' r : world_inv w → run_uploads snapshot us first w = (w', r) → world_inv w'.
Proof.
  revert first w. induction us as [|u us IH]; intros first w Hw; cbn [run_uploads]; [by intros [= <- <-]|].
  destruct (run_upload snapshot u w) as [w1 err] eqn:Hu. apply IH.
  destruct u as [seg|b|p]; cbn [run_upload] in Hu; [|by eapply put_immutable_inv..].
  unfold uploadSegment in Hu. destruct (negb _) in Hu; [by injection Hu as <- _|by eapply put_immutable_inv].
Qed.

Lemma publish_candidate_ok t p embed bundle st :
  geometry st → geometry (publish_candidate TTL t p embed bundle st) ∧ st_Manifest (publish_candidate TTL t p embed bundle st) = pm_key p.
Proof.
  intros Hg. unfold publish_candidate. destruct (apply_bundle_geometry st bundle) as [_ Hbg]. specialize (Hbg Hg).
  destruct (st_Lease (apply_bundle st bundle)); destruct embed; done.
Qed.

Lemma commitManifest_inv snapshot p embed bundle w w' r :
  world_inv w → publication (st_Manifest snapshot) p → commitManifest TTL snapshot p embed bundle w = (w', r) → world_inv w'.
Proof using Hn.
  intros Hw Hp. unfold commitManifest. destruct (resolvePending w) as [w1 r1] eqn:Hr. apply resolvePending_inv in Hr as [Hw1 Hpe]; [|done].
  destruct r1 as [[]|e]; [|by intros [= <- <-]]. destruct (not_held (w_lease w1)) eqn:Hnh; [by intros [= <- <-]|]. specialize (Hpe eq_refl eq_refl).
  destruct (adopts _ _). { intros [= <- <-]. apply renewLocked_inv. apply on_lease_inv; [done|]. exact (proj1 Hw1). }
  destruct (_ || _) eqn:Hsame; [by intros [= <- <-]|]. apply orb_false_iff in Hsame as [[_ Hman]%orb_false_iff _].
  apply negb_false_iff, bool_decide_eq_true in Hman. destruct (match bundle with Some _ => _ | None => _ end); [by intros [= <- <-]|].
  destruct (now w1) as [w2 t] eqn:Hnow. apply now_inv in Hnow as [Hw2 Hl2]; [|done].
  destruct (publish_candidate_ok t p embed bundle (ls_state (w_lease w1)) (proj1 (proj1 Hw1))) as [Hgc Hkey].
  set (candidate := publish_candidate TTL t p embed bundle (ls_state (w_lease w1))) in *.
  destruct (Marshal candidate) as [body|]; [|by intros [= <- <-]].
  destruct (commitState body candidate w2) as [w3 r3] eqn:Hc. apply commitState_inv in Hc as [Hw3 Hl3]; [|done].
  assert (w_lease w3 = w_lease w1) as Hl by congruence.
  assert (commit_ok (st_Manifest (ls_state (w_lease w3))) candidate (Some p)) as Hok by (rewrite Hl, Hman; by split).
  destruct r3 as [etag|e].
  - intros [= <- <-]. apply on_lease_inv; [done|]. apply applyManifestCommit_inv; [apply Hw3|by rewrite Hl|done].
  - destruct (errors_Is e ErrPreconditionFailed); intros [= <- <-]; (apply on_lease_inv; [done|]).
    + exact (proj1 Hw3).
    + apply remember_inv; [apply Hw3|done].
Qed.

Lemma archive_start_inv l : plan_inv l → plan_inv (startManifestBundleArchive l).
Proof. intros Hl. unfold startManifestBundleArchive. destruct (_ || _); [done|]. by destruct (prepareManifestBundle _) as [[b|]|]. Qed.

Lemma publishPrepared_inv schedule snapshot p segments bundle archiveCurrent w w' r :
  world_inv w → publication (st_Manifest snapshot) p →
  publishPrepared TTL schedule snapshot p segments bundle archiveCurrent w = (w', r) → world_inv w'.
Proof using Hn.
  intros Hw Hp. unfold publishPrepared.
  destruct (if _ && _ then readyManifestBundle snapshot (w_lease w) else (w_lease w, bundle)) as [l bundle1] eqn:Hready.
  assert (plan_inv l) as Hl.
  { destruct (_ && _) in Hready; [|injection Hready as <- _; apply Hw]. unfold readyManifestBundle in Hready.
    destruct (readyManifestBundleLocked (w_lease w)) as [l0 b0] eqn:Hlock. apply ready_inv in Hlock as [Hl0 _]; [|apply Hw].
    by destruct b0; injection Hready as <- _. }
  assert (world_inv (on_lease (fun _ => l) w)) as Hw1 by by apply on_lease_inv.
  destruct (storage_plan _ _ _ _) as [[[embed archive'] bundle2]|e]; [|by intros [= <- <-]].
  destruct (run_uploads _ _ _ _) as [w2 r2] eqn:Hup. apply run_uploads_inv in Hup; [|done]. destruct r2; [by intros [= <- <-]|].
  destruct (commitManifest TTL snapshot p embed bundle2 w2) as [w3 r3] eqn:Hcm. apply commitManifest_inv in Hcm; [|done..].
  destruct r3; intros [= <- <-]; [|done]. apply on_lease_inv; [done|]. apply archive_start_inv, Hcm.
Qed.

Lemma prepared_at snapshot m p : st_Name snapshot = name → prepareManifest snapshot m = Ok p → manifest_at name (pm_key p) m ∧ pm_manifest p = m.
Proof using manifest_round_trip.
  intros Hname (body & Hm & Hp)%result_bind_Ok. assert (p = prepared_of snapshot m body) as -> by congruence. split; [|done].
  exists body. split; [by rewrite <-Hname|by apply manifest_round_trip].
Qed.

Lemma geometry_blocks st : geometry st → u64 (st_Size st `quot` st_BlockSize st) = n.
Proof using Hn.
  intros (_ & -> & ->). rewrite Z.quot_mul by (unfold DefaultBlockSize; lia). apply u64_small. pose proof block_bound_n. by unfold block_bound in *.
Qed.

Lemma Publish_inv schedule segments w w' r :
  Forall segment_typed segments → world_inv w → Publish TTL schedule segments w = (w', r) → world_inv w'.
Proof using Hn manifest_round_trip.
  intros Hty Hw. unfold Publish. case_bool_decide; [by intros [= <- <-]|]. destruct (negb _); [by intros [= <- <-]|].
  destruct (resolvePending w) as [w1 r1] eqn:Hr. apply resolvePending_inv in Hr as [Hw1 _]; [|done]. destruct r1 as [[]|e]; [|by intros [= <- <-]].
  destruct (not_held (w_lease w1)); [by intros [= <- <-]|]. destruct (consumeAdoptedPublishLocked segments (w_lease w1)) as [l|] eqn:Hcons.
  { intros [= <- <-]. apply renewLocked_inv, on_lease_inv; [done|]. unfold consumeAdoptedPublishLocked in Hcons.
    destruct (ls_adopted (w_lease w1)); [|done]. destruct (_ && _) in Hcons; [|done]. injection Hcons as <-. exact (proj1 Hw1). }
  pose proof (proj1 Hw1) as (Hgeo & _). set (snapshot := ls_state (w_lease w1)) in *. rewrite (geometry_blocks snapshot Hgeo).
  destruct (check_generation n segments) as [[]|e] eqn:Hcheck; [|by intros [= <- <-]].
  apply (check_generation_wf n block_bound_n snapshot) in Hcheck; [|done].
  destruct (now w1) as [w2 t] eqn:Hnow. apply now_inv in Hnow as [Hw2 _]; [|done].
  destruct (prepareManifest snapshot _) as [p|e] eqn:Hprep; [|by intros [= <- <-]].
  apply prepared_at in Hprep as [Hat Hm]; [|apply Hgeo]. apply publishPrepared_inv; [done|]. unfold publication. rewrite Hm.
  split; [done|]. split; [done|]. by left.
Qed.

(** The plan of the walk that [fetched] answers. *)
Lemma restorePlan_describes fetched fuel snapshot refs :
  geometry snapshot → restorePlan fetched fuel snapshot = Ok refs →
  ∃ entries, chain name (st_Manifest snapshot) entries ∧ describes n (checkpointReadyRefs refs) entries.
Proof using Hn json_typed.
  intros Hg (entries & Hm & Hp)%result_bind_Ok. assert (refs = plan_entries [] entries) as -> by congruence. exists entries.
  pose proof Hg as (Hname & Hsize & Hbs). pose proof (restoreManifests_chain name fetched fuel snapshot entries Hname Hm) as Hc. split; [done|].
  apply describes_restore; [apply block_bound_n| |by eapply chain_keys].
  by eapply (restoreManifests_ok fetched json_typed snapshot n).
Qed.

Lemma PublishCheckpoint_inv fetched fuel schedule w w' r :
  world_inv w → PublishCheckpoint TTL fetched fuel schedule w = (w', r) → world_inv w'.
Proof using Hn manifest_round_trip json_typed.
  intros Hw. unfold PublishCheckpoint. destruct (not_held (w_lease w)); [by intros [= <- <-]|].
  pose proof (proj1 Hw) as (Hgeo & _ & Hk & _). set (snapshot := ls_state (w_lease w)) in *.
  destruct (if ls_planKnown (w_lease w) then Ok (ls_plan (w_lease w)) else restorePlan fetched fuel snapshot) as [refs|e] eqn:Hrefs; [|by intros [= <- <-]].
  assert (∃ entries, chain name (st_Manifest snapshot) entries ∧ describes n (checkpointReadyRefs refs) entries) as (entries & Hc & Hd).
  { unfold plan_known in Hk. destruct (ls_planKnown (w_lease w)).
    - assert (refs = ls_plan (w_lease w)) as -> by congruence. destruct (Hk eq_refl) as (entries & ? & ?). exists entries. split; [done|by apply describes_ready].
    - by eapply restorePlan_describes. }
  destruct (prepareManifestBundle snapshot) as [bundle|e]; [|by intros [= <- <-]].
  set (refs' := checkpointReadyRefs (match bundle with Some b => attachBundleToRefs refs b | None => refs end)).
  assert (describes n refs' entries) as Hd'.
  { unfold refs'. destruct bundle as [b|]; [|done]. rewrite attach_ready. by apply describes_attach. }
  destruct (now w) as [w1 t] eqn:Hnow. apply now_inv in Hnow as [Hw1 _]; [|done].
  destruct (prepareManifest snapshot _) as [p|e] eqn:Hprep; [|by intros [= <- <-]].
  apply prepared_at in Hprep as [Hat Hm]; [|apply Hgeo]. apply publishPrepared_inv; [done|]. unfold publication. rewrite Hm.
  split; [done|]. split; [done|]. right. split; [done|]. by exists entries.
Qed.

Lemma archive_inv w w' r : world_inv w → archive w = (w', r) → world_inv w'.
Proof.
  intros Hw. unfold archive. destruct (ls_archiving (w_lease w)) as [b|]; [|by intros [= <- <-]].
  destruct (uploadManifestBundle b w) as [w1 err] eqn:Hup. apply put_immutable_inv in Hup; [|done]. intros [= <- <-].
  apply on_lease_inv; [done|]. destruct err; [exact (proj1 Hup)|]. destruct (manifestBundleApplies _ b); exact (proj1 Hup).
Qed.

Lemma Inspect_inv w w' r : world_inv w → Inspect name w = (w', r) → world_inv w'.
Proof.
  intros Hw. unfold Inspect. destruct (call_unlocked _ w) as [w1 [[b c]|e]] eqn:Hc; apply call_unlocked_inv in Hc as [Hw1 _]; try done; by intros [= <- _].
Qed.

Lemma Break_inv token w w' r : world_inv w → Break name token w = (w', r) → world_inv w'.
Proof.
  intros Hw. unfold Break. destruct (Inspect name w) as [w1 r1] eqn:Hi. apply Inspect_inv in Hi; [|done].
  destruct r1 as [[st etag]|e]; [|by intros [= <- <-]].
  destruct (st_Lease st); [|by intros [= <- <-]]. destruct (_ && _); [by intros [= <- <-]|]. cbv zeta. destruct (Marshal _); [|by intros [= <- <-]].
  destruct (call_unlocked _ w1) as [w2 [x|e]] eqn:Hc; apply call_unlocked_inv in Hc as [Hw2 _]; try done; by intros [= <- <-].
Qed.

Lemma call_unlocked_answer {A} (x : result A) w w' a : call_unlocked (fun s => (s, x)) w = (w', Ok a) → x = Ok a.
Proof.
  unfold call_unlocked. destruct (w_events w) as [|e es]; [congruence|]. destruct (ev_unlocked e _) as [s l].
  unfold faulty. destruct (ev_fault e); cbn; congruence.
Qed.

Lemma PrepareLazyRestore_inv fetched fuel created faults w w' r :
  world_inv w → lease_PrepareLazyRestore fetched fuel created faults w = (w', r) → world_inv w'.
Proof using Hn json_typed.
  intros Hw. unfold lease_PrepareLazyRestore. set (state := ls_state (w_lease w)).
  destruct (call_unlocked _ w) as [w1 [image|e]] eqn:Hc; pose proof Hc as Hans; apply call_unlocked_inv in Hc as [Hw1 _]; try done; [|by intros [= <- <-]].
  apply call_unlocked_answer in Hans. apply result_bind_Ok in Hans as ([] & _ & Hans). apply result_bind_Ok in Hans as (refs & Hrefs & Himage). apply result_bind_Ok in Himage as (f0 & _ & Himage).
  assert (lz_refs image.1 = refs) as -> by (assert (∀ x y : LazyImage * File, Ok x = Ok y → x = y) as Hinj by congruence; by apply Hinj in Himage as <-).
  destruct (_ && _) eqn:Hsame; intros [= <- <-]; [|done]. apply andb_true_iff in Hsame as [_ Hman%bool_decide_eq_true].
  apply on_lease_inv; [done|]. pose proof (proj1 Hw1) as (Hg & Hs & _ & Hp). split_and!; [done..| |done]. intros _.
  change (ls_state (with_plan (checkpointReadyRefs refs) true (w_lease w1))) with (ls_state (w_lease w1)). rewrite Hman.
  eapply restorePlan_describes; [|exact Hrefs]. apply Hw.
Qed.

(** ** The life of a lease *)

Inductive life_op : Type :=
  | LifeOp (op : lease_op)
  | LifeLazyRestore (fetched : string → result bytes) (fuel : nat) (created : result (list IOutcome)) (faults : list (option error)).

(** Everything but acquiring another lease. *)
Definition life_op_ok (op : life_op) : Prop :=
  match op with
  | LifeOp (OpAcquire _ _ _ _) => False
  | LifeOp (OpPublish _ segments) => Forall segment_typed segments
  | _ => True
  end.

Definition run_life (op : life_op) w : World (S := S) :=
  match op with
  | LifeOp op => (run_op TTL name op w).1
  | LifeLazyRestore fetched fuel created faults => (lease_PrepareLazyRestore fetched fuel created faults w).1
  end.

Lemma run_life_inv op w : life_op_ok op → world_inv w → world_inv (run_life op w).
Proof using Hn manifest_round_trip json_typed.
  intros Hop Hw. destruct op as [op|fetched fuel created faults]; cbn [run_life].
  2: { destruct (lease_PrepareLazyRestore fetched fuel created faults w) as [w' r] eqn:Hr. by eapply PrepareLazyRestore_inv. }
  destruct (run_op TTL name op w) as [w' r] eqn:Hr. cbn [fst].
  destruct op as [|waited|schedule segments|fetched fuel schedule| |token|holder id token opts]; cbn [run_op life_op_ok] in *.
  - by eapply Renew_inv.
  - by eapply Release_inv.
  - by eapply Publish_inv.
  - by eapply PublishCheckpoint_inv.
  - by eapply archive_inv.
  - by eapply Break_inv.
  - done.
Qed.

Lemma new_lease_inv st etag :
  geometry st → (st_Generation st = 0 → st_Manifest st = EmptyString) → sound_history name (st_Manifest st) → plan_inv (new_lease st etag).
Proof.
  intros Hg Hgen Hs. split_and!; [done..| |done]. intros Hk%Z.eqb_eq. exists []. cbn [new_lease ls_state ls_plan].
  rewrite (Hgen Hk). split; [constructor|apply describes_nil].
Qed.

(** C9: a checkpoint never changes a volume.  Take a lease on a volume whose
    checkpoints so far are faithful, and any sequence of renewals, publications,
    checkpoints, lazy restores, background archiving and releases, with requests
    and answers lost anywhere and other operations of the lease in between.
    Then the history of the lease's state still has only faithful checkpoints
    (each names, for every block, the data that the chain of manifests below it
    has for that block), and the plan that the lease maintains names for every
    block the data of its own chain, so the next checkpoint will do so too. *)
Theorem checkpoints_are_faithful ops w st etag :
  geometry st → validateState name st = Ok tt → sound_history name (st_Manifest st) →
  w_lease w = startManifestBundleArchive (new_lease st etag) → Forall unlocked_ok (w_events w) → Forall life_op_ok ops →
  let l := w_lease (foldl (fun w op => run_life op w) w ops) in
  sound_history name (st_Manifest (ls_state l)) ∧
  (ls_planKnown l = true → ∃ entries, chain name (st_Manifest (ls_state l)) entries ∧
     ∀ b, source <$> ref_for (ls_plan l) b = source <$> chain_ref entries b).
Proof using Hn manifest_round_trip json_typed.
  intros Hg Hval Hs Hl He Hops. assert (world_inv w) as Hw.
  { split; [|done]. rewrite Hl. apply archive_start_inv, new_lease_inv; [done| |done].
    unfold validateState in Hval. do 4 apply result_bind_Ok in Hval as (? & _ & Hval). apply result_bind_Ok in Hval as (? & Hgen%fail_if_Ok & _).
    apply negb_false_iff, eqb_prop in Hgen. intros Hz%Z.eqb_eq. rewrite Hz in Hgen. symmetry in Hgen. by apply bool_decide_eq_true in Hgen. }
  enough (world_inv (foldl (fun w op => run_life op w) w ops)) as [(_ & Hs' & Hk & _) _].
  { split; [done|]. intros (entries & Hc & _ & _ & _ & Hfor)%Hk. by exists entries. }
  clear Hl He Hg Hval Hs. revert w Hw. induction Hops as [|op ops Hop _ IH]; intros w Hw; cbn [foldl]; [done|]. by apply IH, run_life_inv.
Qed.
End leases.

(** ** Witness *)

(** A new volume: the commit of the first publication takes effect and is not
    answered, the publication is tried again, then a checkpoint is written,
    which moves the inline manifest into a bundle. *)
Definition cp_bundle : manifestBundle := mkBundle Format "id" 1 1 None [mkBundled (pm_key lease_prepared) (pm_body lease_prepared)].
Definition cp_bundle_json : Json manifestBundle := table_json [cp_bundle].
Definition cp_prepared_bundle : preparedManifestBundle :=
  match @prepareManifestBundle toy_digest lease_manifest_json cp_bundle_json lease_doc1 with
  | Ok (Some b) => b
  | _ => mkPreparedBundle (mkBundleRef EmptyString 0 0) [] ∅ false
  end.
Definition cp_manifest : Manifest :=
  next_manifest lease_doc1 "checkpoint"
    (checkpointReadyRefs (attachBundleToRefs (applyDeltaToPlan [] (checkpointRefs (pm_key lease_prepared) 0 (mf_Segments lease_manifest))) cp_prepared_bundle))
    lease_time.
Definition cp_manifest_json : Json Manifest := table_json [lease_manifest; cp_manifest].
Definition cp_prepared : preparedManifest := @prepared_of toy_digest lease_doc1 cp_manifest (be_encode 2 1).
Definition cp_doc : State := publish_candidate lease_ttl lease_time cp_prepared false (Some cp_prepared_bundle) lease_doc1.
Definition cp_state_json : Json State := table_json [lease_doc0; lease_doc1; cp_doc].

Section witness.
#[local] Existing Instances toy_digest plain_gzip cp_state_json cp_manifest_json cp_bundle_json.

Definition cp_world : World (S := Memory) := (run_op lease_ttl "vol" (OpAcquire "node" "id" "token" lease_opts) lease_world).1.
Definition cp_ops : list life_op :=
  [LifeOp (OpPublish id [sample_segment]); LifeOp (OpPublish id [sample_segment]);
   LifeOp (OpCheckpoint (fun _ => Err ErrNotFound) 0 id); LifeLazyRestore (fun _ => Err ErrNotFound) 0 (Ok []) []].
Definition cp_lease : Lease := w_lease (foldl (fun w op => run_life lease_ttl "vol" op w) cp_world cp_ops).

Lemma cp_typed body (m : Manifest) : Unmarshal body = Ok m → manifest_typed m.
Proof.
  cbn [Unmarshal cp_manifest_json table_json]. unfold table_unmarshal. destruct (_ !! _) as [m'|] eqn:Hl; [|done].
  intros Heq. assert (m' = m) as -> by congruence. apply list_elem_of_lookup_2 in Hl.
  apply elem_of_cons in Hl as [->|Hl]; [|apply list_elem_of_singleton in Hl as ->].
  all: unfold manifest_typed; apply Forall_forall; intros r Hr; revert r Hr.
  - assert (Forall (fun r => ref_Extents r = [mkExtent 1 2] ∧ ref_ZeroExtents r = [mkExtent 2 1]) (mf_Segments lease_manifest)) as Hall
      by (vm_compute; repeat constructor). rewrite Forall_forall in Hall. intros r [He Hz]%Hall. unfold ref_typed. rewrite He, Hz.
    split; apply Forall_singleton; unfold extent_u64, is_u64; cbn; lia.
  - assert (Forall (fun r => ref_Extents r = [mkExtent 1 1] ∧ ref_ZeroExtents r = []) (mf_Segments cp_manifest)) as Hall
      by (vm_compute; repeat constructor). rewrite Forall_forall in Hall. intros r [He Hz]%Hall. unfold ref_typed. rewrite He, Hz.
    split; [apply Forall_singleton; unfold extent_u64, is_u64; cbn; lia|constructor].
Qed.

Lemma cp_segment_typed : segment_typed sample_segment.
Proof.
  assert (seg_Extents sample_segment = [mkExtent 1 2] ∧ seg_ZeroExtents sample_segment = [mkExtent 2 1]) as [He Hz] by (vm_compute; split; reflexivity).
  unfold segment_typed. rewrite He, Hz. split; apply Forall_singleton; unfold extent_u64, is_u64; cbn; lia.
Qed.

Lemma checkpoints_are_faithful_witness :
  sound_history "vol" (st_Manifest (ls_state cp_lease)) ∧ ls_state cp_lease = cp_doc ∧
  ∃ entries, chain "vol" (st_Manifest cp_doc) entries ∧
    ∀ b, source <$> ref_for (mf_Segments cp_manifest) b = source <$> chain_ref entries b.
Proof.
  assert (ls_state cp_lease = cp_doc ∧ ls_planKnown cp_lease = true ∧ ls_plan cp_lease = mf_Segments cp_manifest) as (Hst & Hk & Hplan)
    by (vm_compute; split_and!; reflexivity).
  rewrite <-Hst, <-Hplan.
  destruct (checkpoints_are_faithful lease_ttl "vol" 4 ltac:(split; [lia|by vm_compute]) (fun m b => table_exact [lease_manifest; cp_manifest] m b ltac:(cbn; lia))
    cp_typed cp_ops cp_world lease_doc0 (ls_etag (w_lease cp_world))) as [Hs Hp].
  - vm_compute. split_and!; reflexivity.
  - vm_compute. reflexivity.
  - exact (sound_start "vol").
  - vm_compute. reflexivity.
  - assert (∃ fs, w_events cp_world = calm <$> fs) as [fs ->] by (exists [LostResponse ErrIO; LostRequest ErrIO]; vm_compute; reflexivity).
    apply Forall_fmap, Forall_forall. intros f _ s l s' l' [= <- <-] Hl. split; [exact Hl|left; reflexivity].
  - do 2 (constructor; [apply Forall_singleton; exact cp_segment_typed|]). do 2 (constructor; [exact I|]). constructor.
  - split; [exact Hs|]. split; [reflexivity|]. exact (Hp Hk).
Defined.
End witness.
