(* ===== verification/LeaseStorage.v ===== *)
(** * What a lease commits is stored

    Before a head names a manifest, the manifest and its segments are in the
    store: in the document of the head itself, in a bundle that the document
    leads to, or as an object of their own. *)
From S2P Require Import Prelude Extents Codec File Segment Types Store Head Manifest Plan Restore Lease Publish Volumes History LeaseProps LeaseTheorems LeasePlan.
Local Open Scope Z_scope.

Section storage.
Context {S : Type} `{ConditionalStore S} `{Digest} `{Gzip} `{Json State} `{Json Manifest} `{Json manifestBundle}.
Context (TTL : Z) (name : string).
(** [encoding/json] gives a bundle back as it was written. *)
Context (bundle_round_trip : ∀ (m : manifestBundle) b, Marshal m = Ok b → Unmarshal b = Ok m).
Implicit Types (s : S) (l : Lease) (w : World (S := S)) (st : State).

(** ** The store *)

Abbreviation immutable k := (isImmutableObject (VolumePrefix name) k = true).





(** ** What a document leads to *)













(** ** Bundles *)







(** ** Leases *)








(** *** Calls *)





(** *** The operations of the store *)







(** *** Commits *)
















(** *** Uploads *)








(** *** Publications *)














(** ** The life of a lease *)



End storage.

(** ** Witness *)

Section witness.
#[local] Existing Instances toy_digest plain_gzip cp_state_json cp_manifest_json cp_bundle_json.


End witness.
