(* ===== verification/Recovery.v ===== *)
(** * Recovery after a crash

    The journal, the remote history and the device together: what the driver
    mounts after a crash, a lazily restored volume with the recovered journal
    replayed on top, is the volume as of some moment at or after the last flush
    that was acknowledged. *)
From S2P Require Import Prelude Extents Codec File Segment Types Manifest Plan Restore JournalFormat Journal Hydrator Device DeviceProps DeviceTheorems Lazy LazyProps Mount.
Local Open Scope Z_scope.

(** ** Replaying *)

(** The generations up to a sequence number. *)
Definition up_to (k : Z) (gens : list Generation) : list Generation := filter (fun g => journalSeq g ≤ k) gens.

(** Content with generations written over it, the oldest first. *)
Definition written (base : Z → bytes) (gens : list Generation) : Z → bytes := foldl overlay base (GenBlocks <$> gens).

Lemma written_app base xs ys b : written base (xs ++ ys) b = written (written base xs) ys b.
Proof. unfold written. by rewrite fmap_app, foldl_app. Qed.

Lemma written_ext f g gens b : f b = g b → written f gens b = written g gens b.
Proof. apply overlay_ext. Qed.

(** Writing generations a second time changes nothing. *)
Lemma written_twice base gens b : written (written base gens) gens b = written base gens b.
Proof.
  assert (∀ f, written f gens b = f b ∨ ∀ g, written g gens b = written f gens b) as Hor.
  { clear base. induction gens as [|x gens IH]; intros f; [by left|].
    assert (∀ h, written h (x :: gens) b = written (overlay h (GenBlocks x)) gens b) as Hcons by done.
    destruct (IH (overlay f (GenBlocks x))) as [Heq|Hall]; [|right; intros g; rewrite !Hcons; apply Hall].
    destruct (GenBlocks x !! b) as [d|] eqn:Hd.
    - right. intros g. rewrite !Hcons. apply written_ext. unfold overlay. by rewrite Hd.
    - left. rewrite Hcons, Heq. unfold overlay. by rewrite Hd. }
  destruct (Hor (written base gens)) as [Heq|Hall]; [done|]. symmetry. apply Hall.
Qed.

Lemma filter_agree {A} (P Q : A → Prop) `{∀ x, Decision (P x), ∀ x, Decision (Q x)} (l : list A) :
  (∀ x, x ∈ l → P x ↔ Q x) → filter P l = filter Q l.
Proof.
  induction l as [|x l IH]; intros Heq; [done|]. rewrite !filter_cons, IH by (intros y Hy; apply Heq; by right).
  specialize (Heq x (list_elem_of_here _ _)). destruct (decide (P x)), (decide (Q x)); tauto.
Qed.

Lemma filter_none {A} (P : A → Prop) `{∀ x, Decision (P x)} (l : list A) : (∀ x, x ∈ l → ¬ P x) → filter P l = [].
Proof. intros Hl. rewrite (filter_agree P (fun _ => False)) by (intros x Hx; specialize (Hl x Hx); tauto). clear. by induction l. Qed.

(** The generations up to [high] are those up to [low] and then those between. *)
Lemma up_to_split start low high gens :
  increasing start gens → low ≤ high → up_to high gens = up_to low gens ++ filter (fun g => low < journalSeq g ≤ high) gens.
Proof.
  intros Hinc Hle. revert start Hinc. induction gens as [|g gens IH]; intros start; [done|]. intros [_ Hinc]. unfold up_to in *. rewrite !filter_cons.
  destruct (decide (journalSeq g ≤ low)) as [Hl|Hl].
  - destruct (decide (journalSeq g ≤ high)), (decide (low < journalSeq g ≤ high)); try lia. cbn [app]. f_equal. by eapply IH.
  - assert (filter (fun g => journalSeq g ≤ low) gens = []) as Hnil.
    { apply filter_none. intros x Hx. pose proof (increasing_above _ _ _ Hinc Hx). lia. }
    specialize (IH _ Hinc). rewrite Hnil in *. cbn [app] in *. rewrite IH.
    destruct (decide (journalSeq g ≤ high)), (decide (low < journalSeq g ≤ high)); lia || done.
Qed.

(** The generations between two sequence numbers, replayed over a history that
    has some of them already. *)
Lemma replay_interval base gens low high p b :
  increasing 0 gens → low ≤ p → (∀ g, g ∈ gens → low < journalSeq g ≤ p → journalSeq g ≤ high) →
  written (written base (up_to p gens)) (filter (fun g => low < journalSeq g ≤ high) gens) b = written base (up_to (Z.max p high) gens) b.
Proof.
  intros Hinc Hlp Hdur.
  assert (filter (fun g => low < journalSeq g ≤ high) gens =
    filter (fun g => low < journalSeq g ≤ p) gens ++ filter (fun g => p < journalSeq g ≤ Z.max p high) gens) as ->.
  { assert (filter (fun g => low < journalSeq g ≤ high) gens = filter (fun g => low < journalSeq g ≤ Z.max p high) gens) as ->.
    { apply filter_agree. intros g Hg. specialize (Hdur g Hg). lia. }
    pose proof (up_to_split 0 low (Z.max p high) gens Hinc ltac:(lia)) as H1.
    pose proof (up_to_split 0 p (Z.max p high) gens Hinc ltac:(lia)) as H2.
    pose proof (up_to_split 0 low p gens Hinc ltac:(lia)) as H3.
    rewrite H2, H3, <-app_assoc in H1. by apply app_inv_head in H1. }
  rewrite (up_to_split 0 p (Z.max p high) gens Hinc) by lia. rewrite !written_app. apply written_ext.
  rewrite (up_to_split 0 low p gens Hinc) by lia. rewrite written_app.
  transitivity (written (written (written base (up_to low gens)) (filter (fun g => low < journalSeq g ≤ p) gens)) (filter (fun g => low < journalSeq g ≤ p) gens) b).
  - apply written_ext. apply written_app.
  - apply written_twice.
Qed.

(** ** Opening *)

(** [OpenJournal] returns the entries that [readJournal] finds. *)
Lemma OpenJournal_entries `{Digest} `{Json JournalMetadata} c m recs valid :
  readJournal (mkStream c None) = Ok (m, recs, valid) → ∃ j, OpenJournal open_ok c = Ok j ∧ Entries j = recs.
Proof.
  intros Hread. unfold OpenJournal. cbn [open_ok op_open op_read op_stat op_truncate op_sync op_seek fail_opt mbind result_mbind].
  rewrite Hread. cbn [mbind result_mbind]. by destruct (valid <? Z.of_nat (length c)); eexists.
Qed.

(** What the journal recovers is what the device replays. *)
Lemma record_gen_ok n g : record_wf n g → gen_ok n g.
Proof.
  intros (Hwf & Hne & _ & _ & Hbytes). split; [by intros He; rewrite He, map_size_empty in Hne|]. split; [done|].
  intros b data Hb. by destruct (proj1 Hwf b data Hb).
Qed.

Section recovery.
Context `{Digest} `{Gzip} `{Json Manifest} `{Json manifestBundle} `{Json JournalMetadata}.
Context (Get : string → result bytes).
Context (json_typed : ∀ body (m : Manifest), Unmarshal body = Ok m → manifest_typed m).
Context (state : State) (imageBlocks : Z).
Context (Hgeom : st_Size state = imageBlocks * DefaultBlockSize ∧ st_BlockSize state = DefaultBlockSize ∧
                 0 ≤ imageBlocks ≤ maxImageBlocks).

(** C4: flushed data survives a crash of the host.  Take any run of a journal
    from the moment it was created or opened, whatever the outcomes of its system
    calls, in which its file is at its path and no rename still waits for its
    directory sync ([stale j = []]), and a remote history that can be read and
    holds the generations up to [p]: all that [Acknowledge] was told about, and
    only generations whose journal flush had completed or that had been recovered
    (so not the runs of [unsynced_rename_acknowledges] of Journal.v and
    [recovered_generation_overwrites_newer] of Replication.v).  Then whatever
    prefix of the bytes not yet synced a crash leaves at the journal's path, it
    can be opened, the volume can be restored lazily into a new local file and
    the entries replayed on the device over it, and every block of that device
    reads as the volume did after some generation [k] that is not older than any
    flushed one: nothing flushed is lost, and no newer block is overwritten by an
    older one. *)
Theorem flushed_data_survives_crash fuel faults picks maxDirty chain j0 j p before c :
  0 < imageBlocks → jstart imageBlocks j0 → rtc (jstep imageBlocks) j0 j → disk j ≠ None → stale j = [] →
  published j ≤ p → (∀ g, g ∈ history j → journalSeq g ≤ p → flushed j0 j (journalSeq g)) →
  validateState (st_Name state) state = Ok tt → restoreManifests Get fuel state = Ok chain →
  Forall (readable Get fuel (newManifestSourceLoader state)) (plan_entries [] chain) →
  (∀ b, 0 ≤ b < imageBlocks →
    chain_block Get fuel (newManifestSourceLoader state) chain b = written before (up_to p (history j)) b) →
  crash_image j c →
  ∃ c0 jr l f d k, c = Some c0 ∧ OpenJournal open_ok c0 = Ok jr ∧ PrepareLazyRestore Get fuel (Ok []) faults state = Ok (l, f) ∧
    @start_device _ (lazy_hydrator Get fuel) None picks f (st_Size state) maxDirty (Some l) (Entries jr) = Ok d ∧
    (∀ g, g ∈ history j → flushed j0 j (journalSeq g) → journalSeq g ≤ k) ∧
    ∀ b, 0 ≤ b < imageBlocks →
      read_block blockBytes (@dev_disk _ _ (lazy_laws Get fuel) imageBlocks d) b = written before (up_to k (history j)) b.
Proof using json_typed Hgeom.
  intros Hpos Hstart Hrun Hdisk Hst Hpub Hp Hval Hm Hread Hremote Hc. pose proof Hgeom as (Hsize & _ & Himg).
  destruct (crash_recovers_interval imageBlocks j0 j c Hstart Hrun Hdisk Hst Hc)
    as (c0 & m & recs & valid & low & high & -> & Hj & Hrecs & Hlow & Hhigh & Hwf & Hinc).
  destruct (OpenJournal_entries _ _ _ _ Hj) as (jr & Hopen & Hentries).
  pose proof (fresh_lazy_inv Get json_typed state imageBlocks Hgeom fuel chain faults Hm) as Hinv. cbv zeta in Hinv.
  set (l := mkLazyImage _ _ _ _ _ _ _ _ faults) in Hinv. set (f := sparse_image (st_Size state)) in *.
  assert (0 < imageBlocks ≤ maxImageBlocks) as Hn by lia.
  assert (Forall (gen_ok imageBlocks) recs) as Hgens by (eapply Forall_impl; [exact Hwf|apply record_gen_ok]).
  destruct (@start_spec _ _ (lazy_laws Get fuel) imageBlocks Hn picks f maxDirty (Some l) recs Hinv Hgens) as (d & Hs & Hdi & _ & _ & _ & Hv).
  exists c0, jr, l, f, d, (Z.max p high). split; [done|]. split; [done|].
  split; [unfold PrepareLazyRestore, restorePlan; rewrite Hval, Hm; done|]. split; [by rewrite Hentries, Hsize|]. split.
  - intros g Hg Hfl. destruct (decide (low < journalSeq g)) as [Hl|Hl]; [specialize (Hhigh g Hg Hl Hfl)|]; lia.
  - intros b Hb. rewrite dev_disk_block by (done || apply Hdi). rewrite Hv by done.
    rewrite <-(replay_interval before (history j) low high p b Hinc); [|lia|intros g Hg [? ?]; apply Hhigh; [done|lia|by apply Hp]].
    rewrite <-Hrecs. apply written_ext. cbn [image_view hyd_view lazy_laws]. rewrite <-Hremote by done.
    exact (fresh_lazy_view Get json_typed state imageBlocks Hgeom fuel chain faults b Hm Hread Hb).
Qed.
End recovery.

(** ** Witness *)

Section sample.
#[local] Existing Instances toy_digest plain_gzip sample_manifest_json no_bundle_json sample_json.

(** The generation that was flushed is on the volume after the crash. *)
Lemma flushed_data_survives_crash_witness :
  ∃ c jr l f d k, crash_image sample_flushed (Some c) ∧ OpenJournal open_ok c = Ok jr ∧
    PrepareLazyRestore sample_get 0 (Ok []) [Some ErrIO] sample_volume = Ok (l, f) ∧
    @start_device _ (lazy_hydrator sample_get 0) None sample_picks f (st_Size sample_volume) 0 (Some l) (Entries jr) = Ok d ∧ 1 ≤ k ∧
    ∀ b, 0 ≤ b < 4 → read_block blockBytes (@dev_disk _ _ (lazy_laws sample_get 0) 4 d) b =
      written (chain_block sample_get 0 (newManifestSourceLoader sample_volume) [sample_entry]) (up_to k (history sample_flushed)) b.
Proof.
  assert (history sample_flushed = [sample_record 1]) as Hh by (vm_compute; reflexivity).
  destruct (disk sample_flushed) as [df|] eqn:Hd; [|vm_compute in Hd; discriminate Hd].
  assert (crash_image sample_flushed (Some (df_data df))) as Hc.
  { exists (Some df). split; [rewrite Hd; apply list_elem_of_here|]. exists (length (df_data df)). rewrite take_ge by lia.
    split; [|done]. revert Hd. vm_compute. intros [= <-]. vm_compute. lia. }
  destruct (flushed_data_survives_crash sample_get sample_typed sample_volume 4 sample_geometry 0 [Some ErrIO] sample_picks 0 [sample_entry]
    sample_journal sample_flushed 0 (chain_block sample_get 0 (newManifestSourceLoader sample_volume) [sample_entry]) (Some (df_data df)))
    as (c & jr & l & f & d & k & [= <-] & Hopen & Hprep & Hs & Hk & Hb).
  - lia.
  - exact sample_start.
  - exact sample_run.
  - by rewrite Hd.
  - vm_compute. reflexivity.
  - vm_compute. congruence.
  - intros g. rewrite Hh. intros ->%list_elem_of_singleton. cbn. lia.
  - exact sample_valid.
  - exact sample_manifests.
  - exact sample_readable.
  - intros b _. rewrite Hh. reflexivity.
  - exact Hc.
  - exists (df_data df), jr, l, f, d, k. do 4 (split; [done|]). split; [|done].
    apply (Hk (sample_record 1)); [rewrite Hh; by apply list_elem_of_singleton|]. right. exists (mkWaiter 0 1).
    assert (delivered sample_flushed = [(mkWaiter 0 1, None)]) as -> by (vm_compute; reflexivity).
    split; [by apply list_elem_of_singleton|done].
Defined.
End sample.
